(* ===== verification/_CoqProject ===== *)
-Q . S2P
Prelude.v
UintBig.v
Difficulty.v
Merkle.v
MerkleStores.v
MerkleProofs.v
MerkleProps.v
RadixTree.v
RadixTreeSpec.v
RadixHash.v
RadixMap.v
RadixTraverse.v
UtxoTree.v
UtxoTreeSpec.v
UtxoCompact.v
UtxoSerial.v
RadixProps.v
ShaderMath.v
ShaderMathSpec.v
ShaderDiv.v
ShaderFloat.v
ShaderSort.v
ShaderSortSpec.v
NodeVars.v
NodeVarsSpec.v
NodeFind.v
NodeKernel.v
NodeProps.v
BvmHost.v
BvmHostSpec.v
ShaderEnv.v
Vault.v
ShaderProps.v
Oracle.v
ContractProps.v
NodeAssets.v
NodeStream.v
NodeAssetKernel.v
NodeAssetSpec.v
NodeBlock.v
NodeBlockSpec.v
NodeUtxo.v
NodeUtxoSpec.v
NodeTx.v
NodeTxSpec.v
NodeTxProps.v
WasmReader.v
WasmProcessor.v
WasmSafety.v
BvmHeap.v
BvmHeapSpec.v
BvmProcessor.v
BvmSafety.v
BvmCalls.v
BvmRun.v
BvmProps.v
WasmCompiler.v
BvmCompile.v
WasmCompilerSafe.v
WasmContextSafe.v
WasmCompilerSize.v
BvmCompileSafe.v
BvmCompileProps.v
