(* ===== verification/Prelude.v ===== *)
(** * A verification of the Beam node's chain state and of its contracts

    The sources are a node and wallet of the Beam blockchain, in C++.  This development models
    the part that decides what the chain state is: the arithmetic of the proof of work, the
    authenticated data structures, the interpretation of blocks and of contract kernels, and the
    virtual machine of the contracts with its compiler and with two of the contracts.

    ** The program and its model

    A block is a list of inputs, outputs and kernels.  The node (src/node/processor.cpp)
    interprets them one by one over the tree of coins (src/core/radixtree.cpp), the table of
    assets and the variables of the contracts (src/node/db.cpp), whose hashes are kept in
    mountain ranges (src/core/merkle.cpp) and radix trees.  It records what is needed to go
    backward, since a branch of the chain may be left for a better one.  A kernel may call a
    contract: the code that the contract was compiled to (src/bvm/wasm_interpreter.cpp,
    [Compiler]; src/bvm/bvm2.cpp, [Processor::Compile]) is run by an interpreter
    ([Wasm::Processor], [bvm2::ProcessorContract]) and works through functions of the host on
    the variables and the funds of the contract.

    The model is executable throughout.  A C++ function is a function on explicit state with
    the same name; where many calls thread state and errors there is a monad ([CM] and [PM] of
    the processor, [XM] of the compiler, [HM] of the host, [M] of the
    variables of contracts).  Integers are [Z]
    with the wrap-around of their width written out ([u8], [u32], [u64], ...), buffers are lists
    of bytes, and every access of an array goes through a function that has no result, or the
    result [UB], when it is out of bounds.  Exceptions of the source are [Exc], [CExc] or [None].

    - core/uintBig, core/difficulty: [UintBig] ([uintBigImpl], [uintBig_t]), [Difficulty].
    - core/merkle: [Merkle] (the algorithm [Mmr] over the interface [MmrStore]),
      [MerkleStores] ([FlatMmr], [FixedMmr], [FlyMmr], [CompactMmr]), [MerkleProofs] (proofs,
      [HardVerifier], [MultiProof]), [MerkleProps].
    - core/radixtree: [RadixTree] (nodes, cursors, leaves with their pointers to keys),
      [RadixTreeSpec], [RadixHash] (cached hashes), [RadixMap] (the tree as a map),
      [RadixTraverse], [UtxoTree], [UtxoTreeSpec], [UtxoCompact], [UtxoSerial], [RadixProps].
    - bvm/Shaders/Math.h and Sort.h: [ShaderMath], [ShaderMathSpec], [ShaderDiv], [ShaderFloat],
      [ShaderSort], [ShaderSortSpec], [ShaderProps].
    - node/processor.cpp and node/db.cpp: [NodeVars] and [NodeVarsSpec] (variables of contracts,
      recovery records), [NodeFind], [NodeKernel] (contract kernels), [NodeProps], [NodeStream]
      ([StreamMmr]), [NodeAssets], [NodeAssetKernel], [NodeAssetSpec], [NodeUtxo] and
      [NodeUtxoSpec] (inputs, outputs), [NodeBlock] and [NodeBlockSpec] (the drivers of a
      transaction over the class [Undoable]), [NodeTx], [NodeTxSpec], [NodeTxProps].
    - bvm/bvm2.cpp, functions of the host: [BvmHost] over the class [VarStore], [BvmHostSpec];
      the contracts bvm/Shaders/vault and oracle: [ShaderEnv], [Vault], [Oracle],
      [ContractProps].
    - bvm/wasm_interpreter, interpreter: [WasmReader] (numbers of the code), [WasmProcessor]
      (stack, memory, every instruction), [WasmSafety].
    - bvm/bvm2.cpp, contracts at run time: [BvmHeap], [BvmHeapSpec], [BvmProcessor] (frames of
      calls, charge, memory functions, variables), [BvmSafety], [BvmCalls], [BvmRun],
      [BvmProps].
    - the compiler: [WasmCompiler] (sections, translation of functions, labels), [BvmCompile]
      (host functions, methods, header), [WasmCompilerSafe], [WasmContextSafe],
      [WasmCompilerSize], [BvmCompileSafe], [BvmCompileProps].

    ** What the theorems show

    - Blocks: a transaction and a block are applied as a whole or not at all, and going backward
      undoes them exactly ([Node_block_atomic]); the same for contract kernels, whatever the
      contract does ([Node_Invoke_atomic], [Node_Create_atomic]) and for work on pending
      transactions ([Node_dependent_context]).  Inputs spend the coin of least maturity; the
      table of assets, its counters and its root agree in every state that kernels lead to.
    - Data structures: the radix tree refines a finite map and its root hash depends on the
      contents alone; the compact builder, the traversal and the archive agree with it.  The
      mountain ranges and all their stores compute one reference root, proofs are complete, and
      what a verifier accepts is in the range unless the hash function has a collision.
    - Arithmetic: the target test agrees with the target that division gives, integers and
      floats of the contracts are exact or truncated where they claim to be.
    - Contracts: the vault refines a ledger that is covered by the funds locked, and pays; the
      oracle's value is the median.
    - Virtual machine: whatever the code, a call by the node ends within its charge, by an
      exception or with the stack as it was set up ([Invoke_safe]), each cycle keeps the state
      well-formed ([cycle_wellformed]), a called contract leaves its caller's stack as it was
      ([FarCall_isolated]), and the heap is an allocator ([Heap_refines_map]).  The operations
      that the source leaves undefined are named ([traps], [heap_trap]) and shown to be
      reachable ([Invoke_undefined]).
    - Compiler: whatever the file, it ends with a shader or an error, and stays inside of its
      objects but at three places ([Compile_safe]), which are reachable ([Compile_undefined]).
      What it writes is accepted by the processor, with the functions, the words of the methods
      and the data at the addresses that the file asks for ([Compile_loads]).
      Numbers survive the writer and the reader, imported functions are bound to the functions
      of the host of that name ([ResolveBinding_runs]).

    Theorems that show where the code fails have closed statements over concrete inputs.

    ** Bounds and fuel

    Loops of the source are recursive functions.  Where the recursion is not structural the fuel
    is computed from the input and shown to be enough: the bits of a key for the radix tree, the
    rows of a table for its queries, the words of a division, the charge for a run of a contract
    (every cycle costs at least 5 units), the bytes of the file for the sections and for the
    instructions of a function (each reads at least one).  Running out of fuel is an outcome
    that the theorems exclude ([At_Loop] for the compiler, [None] elsewhere).  [Invoke_safe]
    takes arguments of less than 2^28 bytes, [Compile_safe] files of less than 2^29 bytes and
    [Compile_loads] files of less than 2^25 bytes, whose code is at most forty times as large
    ([WasmCompilerSize]), so that sizes that the source keeps in 32 bits do not wrap.

    ** Parameters

    The hash function (class [Hasher]), the import of curve points, the order of rows that a SQL
    query without ORDER BY returns, and the functions of the host that are not modelled
    ([OnHost] of [BvmRun], with [host_ok] for what is asked of them) are arguments, and each
    theorem about them has an instance in which the hypotheses hold.

    ** Not modelled

    - Curve arithmetic, range proofs, shielded outputs, signatures and keys (core/ecc, lelantus,
      shielded, keykeeper, hw_crypto), and the context-free validation built on them: they rest on
      libsecp256k1, which is not among the sources.
    - Networking, threads, event loops, SQL storage of states and events, block files, memory
      mapped files, the wallet, its database and user interface: input and output.
    - In node/processor.cpp, the choice of the best tip, synchronisation, recovery of wallets and
      shielded kernels.
    - Functions of the host on curve points and hash objects, the blockchain's history seen from
      contracts, application shaders (bvm/ManagerStd, [ProcessorManager]) and their documents.
    - Contracts other than the vault and the oracle.
    - The proof of work search (pow), transaction pools but for dependent contexts, and the
      debug output ([Checkpoint], [Dump]) everywhere. *)

From stdpp Require Import base list numbers option gmap strings.
Local Open Scope Z_scope.

(** ** Machine integers

    A C++ unsigned integer of width [w] is a [Z] in [0, 2^w); every operation of
    the source that may wrap around is written with the matching cast below. *)

Definition u8 (x : Z) : Z := x mod 2 ^ 8.
Definition u16 (x : Z) : Z := x mod 2 ^ 16.
Definition u32 (x : Z) : Z := x mod 2 ^ 32.
Definition u64 (x : Z) : Z := x mod 2 ^ 64.

(** The signed reading of a 32-bit pattern ([static_cast<int32_t>]). *)
Definition i32 (x : Z) : Z :=
  let y := u32 x in if y <? 2 ^ 31 then y else y - 2 ^ 32.

(** ** Byte buffers

    A buffer is the list of its cells.  [rd] and [wr] are the C++ array accesses
    [p[i]] and [p[i] = v]: an access outside the buffer has no result. *)

Definition rd {A} (b : list A) (i : Z) : option A :=
  if decide (0 ≤ i) then b !! Z.to_nat i else None.

Definition wr {A} (b : list A) (i : Z) (v : A) : option (list A) :=
  if decide (0 ≤ i < Z.of_nat (length b)) then Some (<[Z.to_nat i := v]> b)
  else None.

(** [memset0(p, n)] on a buffer of its own. *)
Definition zeros (n : nat) : list Z := replicate n 0.

(** [memis0(p, n)]. *)
Definition memis0 (b : list Z) : bool := forallb (Z.eqb 0) b.

(** The sign of [memcmp] on two buffers of one length. *)
Fixpoint memcmp (a b : list Z) : Z :=
  match a, b with
  | x :: a', y :: b' => if x <? y then -1 else if y <? x then 1 else memcmp a' b'
  | _, _ => 0
  end.

Definition bytes (b : list Z) : Prop := Forall (λ x, 0 ≤ x < 256) b.

Lemma bytes_check l : forallb (λ x, (0 <=? x) && (x <? 256)) l = true → bytes l.
Proof. intros H. apply Forall_forall. intros b Hb. apply list_elem_of_In in Hb. eapply forallb_forall in H; [|exact Hb]. lia. Qed.

(** The number a buffer denotes, most significant byte first. *)
Fixpoint val (b : list Z) : Z :=
  match b with
  | [] => 0
  | x :: b' => x * 256 ^ Z.of_nat (length b') + val b'
  end.

Declare Scope buf_scope.
Delimit Scope buf_scope with buf.
Notation "⟦ b ⟧" := (val b) (at level 0, b at level 200) : buf_scope.
Notation "'#' b" := (Z.of_nat (length b)) (at level 9, format "# b") : buf_scope.
Open Scope buf_scope.

(** ** Loops

    [for (i = n; i--; ) body] and [for (i = i0; i < i0 + n; i++) body]. *)

Fixpoint loop_down {S} (n : nat) (body : Z → S → option S) (s : S) : option S :=
  match n with
  | O => Some s
  | S n' => s' ← body (Z.of_nat n') s; loop_down n' body s'
  end.

Fixpoint loop_up {S} (n : nat) (i0 : Z) (body : Z → S → option S) (s : S) : option S :=
  match n with
  | O => Some s
  | S n' => s' ← body i0 s; loop_up n' (i0 + 1) body s'
  end.

(** Total-correctness rules: an invariant that every iteration re-establishes. *)
Lemma loop_down_inv {S} (I : Z → S → Prop) (body : Z → S → option S) (n : nat) s :
  (∀ i s, 0 ≤ i < Z.of_nat n → I (i + 1) s → ∃ s', body i s = Some s' ∧ I i s') →
  I (Z.of_nat n) s →
  ∃ s', loop_down n body s = Some s' ∧ I 0 s'.
Proof.
  revert s. induction n as [|n IH]; intros s Hstep H0; [by exists s|].
  simpl. destruct (Hstep (Z.of_nat n) s) as (s1 & -> & H1); [lia| |].
  { by replace (Z.of_nat n + 1) with (Z.of_nat (Datatypes.S n)) by lia. }
  apply IH; [|done]. intros i s2 ? ?. apply Hstep; [lia|done].
Qed.

Lemma loop_up_inv {S} (I : Z → S → Prop) (body : Z → S → option S) (n : nat) i0 s :
  (∀ i s, i0 ≤ i < i0 + Z.of_nat n → I i s → ∃ s', body i s = Some s' ∧ I (i + 1) s') →
  I i0 s →
  ∃ s', loop_up n i0 body s = Some s' ∧ I (i0 + Z.of_nat n) s'.
Proof.
  revert i0 s. induction n as [|n IH]; intros i0 s Hstep H0.
  { exists s. by rewrite Z.add_0_r. }
  simpl. destruct (Hstep i0 s) as (s1 & -> & H1); [lia|done|].
  destruct (IH (i0 + 1) s1) as (s2 & Hs2 & HI); [|done|].
  { intros i s2 ? ?. apply Hstep; [lia|done]. }
  exists s2. split; [done|].
  by replace (i0 + Z.of_nat (Datatypes.S n)) with (i0 + 1 + Z.of_nat n) by lia.
Qed.

(** ** Lemmas on machine integers *)

Create HintDb beam.

Lemma u8_range x : 0 ≤ u8 x < 256.
Proof. apply (Z.mod_pos_bound x (2 ^ 8)). lia. Qed.

Lemma u32_range x : 0 ≤ u32 x < 2 ^ 32.
Proof. apply Z.mod_pos_bound. lia. Qed.

Lemma u64_range x : 0 ≤ u64 x < 2 ^ 64.
Proof. apply Z.mod_pos_bound. lia. Qed.

Lemma u8_small x : 0 ≤ x < 256 → u8 x = x.
Proof. intros. apply Z.mod_small. lia. Qed.

Lemma u16_small x : 0 ≤ x < 2 ^ 16 → u16 x = x.
Proof. apply Z.mod_small. Qed.

Lemma u32_small x : 0 ≤ x < 2 ^ 32 → u32 x = x.
Proof. apply Z.mod_small. Qed.

Lemma u64_small x : 0 ≤ x < 2 ^ 64 → u64 x = x.
Proof. apply Z.mod_small. Qed.

Lemma u32_neg x : -2 ^ 32 ≤ x < 0 → u32 x = x + 2 ^ 32.
Proof.
  intros. unfold u32. rewrite <- (Z.mod_add x 1 (2 ^ 32)) by lia.
  apply Z.mod_small. lia.
Qed.

Lemma i32_small x : 0 ≤ x < 2 ^ 31 → i32 x = x.
Proof.
  intros. unfold i32. rewrite u32_small by lia.
  destruct (Z.ltb_spec x (2 ^ 31)); lia.
Qed.

Lemma i32_neg x : -2 ^ 31 ≤ x < 0 → i32 x = x.
Proof.
  intros. unfold i32. rewrite u32_neg by lia.
  destruct (Z.ltb_spec (x + 2 ^ 32) (2 ^ 31)); lia.
Qed.

Lemma i32_u32 x : i32 (u32 x) = i32 x.
Proof. unfold i32, u32. by rewrite Z.mod_mod by lia. Qed.

#[export] Hint Resolve u8_range u32_range u64_range : beam.

(** Removes the casts whose arguments [lia] sees to be in range, innermost first. *)
Ltac casts :=
  repeat match goal with
  | |- context [i32 (u32 ?x)] => rewrite (i32_u32 x)
  | |- context [u8 ?x] => rewrite (u8_small x) by lia
  | |- context [u16 ?x] => rewrite (u16_small x) by lia
  | |- context [u32 ?x] => first [rewrite (u32_small x) by lia | rewrite (u32_neg x) by lia]
  | |- context [u64 ?x] => rewrite (u64_small x) by lia
  | |- context [i32 ?x] => first [rewrite (i32_small x) by lia | rewrite (i32_neg x) by lia]
  end.

(** ** Lemmas on buffers *)

Lemma rd_mid {A} (p q : list A) x : rd (p ++ x :: q) #p = Some x.
Proof.
  unfold rd. rewrite decide_True by lia. rewrite Nat2Z.id.
  by apply list_lookup_middle.
Qed.

Lemma wr_mid {A} (p q : list A) x v : wr (p ++ x :: q) #p v = Some (p ++ v :: q).
Proof.
  unfold wr. rewrite decide_True by (rewrite length_app; simpl; lia).
  rewrite Nat2Z.id. by rewrite insert_app_r_alt, Nat.sub_diag by done.
Qed.

(** The same at an index that is only provably equal to the prefix's length. *)
Lemma rd_mid' {A} (p q : list A) x i : i = #p → rd (p ++ x :: q) i = Some x.
Proof. intros ->. apply rd_mid. Qed.

Lemma wr_mid' {A} (p q : list A) x v i : i = #p → wr (p ++ x :: q) i v = Some (p ++ v :: q).
Proof. intros ->. apply wr_mid. Qed.

Lemma rd_Some {A} (b : list A) i : 0 ≤ i < #b → ∃ x, rd b i = Some x ∧ b !! Z.to_nat i = Some x.
Proof.
  intros. unfold rd. rewrite decide_True by lia.
  destruct (lookup_lt_is_Some_2 b (Z.to_nat i)) as [x ->]; [lia|eauto].
Qed.

Lemma rd_lookup {A} (b : list A) (i : nat) : rd b (Z.of_nat i) = b !! i.
Proof. unfold rd. rewrite decide_True by lia. by rewrite Nat2Z.id. Qed.

Lemma wr_Some {A} (b : list A) i v : 0 ≤ i < #b → wr b i v = Some (<[Z.to_nat i := v]> b).
Proof. intros. unfold wr. by rewrite decide_True by lia. Qed.

Lemma bytes_app a b : bytes (a ++ b) ↔ bytes a ∧ bytes b.
Proof. apply Forall_app. Qed.

Lemma bytes_cons x b : bytes (x :: b) ↔ 0 ≤ x < 256 ∧ bytes b.
Proof. unfold bytes. by rewrite Forall_cons. Qed.

Lemma bytes_snoc b x : bytes (b ++ [x]) ↔ bytes b ∧ 0 ≤ x < 256.
Proof. rewrite bytes_app, bytes_cons. pose proof (Forall_nil_2 (λ x, 0 ≤ x < 256)). unfold bytes. tauto. Qed.

Lemma bytes_nil : bytes [].
Proof. constructor. Qed.

Lemma bytes_zeros n : bytes (zeros n).
Proof. apply Forall_replicate. lia. Qed.

Lemma bytes_take n b : bytes b → bytes (take n b).
Proof. apply Forall_take. Qed.

Lemma bytes_drop n b : bytes b → bytes (drop n b).
Proof. apply Forall_drop. Qed.

#[export] Hint Resolve bytes_nil bytes_zeros bytes_take bytes_drop : beam.

Lemma pow256_pos n : 0 < 256 ^ Z.of_nat n.
Proof. apply Z.pow_pos_nonneg; lia. Qed.

Lemma pow256_S n : 256 ^ Z.of_nat (S n) = 256 * 256 ^ Z.of_nat n.
Proof. rewrite Nat2Z.inj_succ, Z.pow_succ_r by lia. done. Qed.

Lemma pow256_add m n : 256 ^ Z.of_nat (m + n) = 256 ^ Z.of_nat m * 256 ^ Z.of_nat n.
Proof. rewrite Nat2Z.inj_add, Z.pow_add_r by lia. done. Qed.

Lemma pow256_2 n : 256 ^ Z.of_nat n = 2 ^ (8 * Z.of_nat n).
Proof. by rewrite Z.pow_mul_r by lia. Qed.

Lemma val_app a b : ⟦a ++ b⟧ = ⟦a⟧ * 256 ^ #b + ⟦b⟧.
Proof.
  induction a as [|x a IH]; simpl; [done|].
  rewrite IH, length_app, pow256_add. ring.
Qed.

Lemma val_snoc a x : ⟦a ++ [x]⟧ = 256 * ⟦a⟧ + x.
Proof. rewrite val_app. simpl length. change (256 ^ Z.of_nat 1) with 256. simpl. lia. Qed.

Lemma val_zeros n : ⟦zeros n⟧ = 0.
Proof. induction n as [|n IH]; simpl; [done|]. unfold zeros in IH. by rewrite IH. Qed.

Lemma length_zeros n : length (zeros n) = n.
Proof. apply length_replicate. Qed.

Lemma val_range b : bytes b → 0 ≤ ⟦b⟧ < 256 ^ #b.
Proof.
  induction b as [|x b IH]; intros Hb; [simpl; lia|].
  apply bytes_cons in Hb as [Hx Hb]. specialize (IH Hb).
  cbn [val length]. rewrite pow256_S. pose proof (pow256_pos (length b)). nia.
Qed.

Lemma val_inj a b : length a = length b → bytes a → bytes b → ⟦a⟧ = ⟦b⟧ → a = b.
Proof.
  revert b. induction a as [|x a IH]; intros [|y b] Hl Ha Hb Hv; try done.
  apply bytes_cons in Ha as [Hx Ha]. apply bytes_cons in Hb as [Hy Hb].
  simpl in Hl, Hv. injection Hl as Hl. rewrite Hl in Hv.
  pose proof (val_range a Ha) as Ra. rewrite Hl in Ra.
  pose proof (val_range b Hb) as Rb.
  assert (x = y) by nia. subst y. f_equal. apply IH; [done..|lia].
Qed.

(** The most significant bytes dropped: a reduction modulo a power of 256. *)
Lemma val_drop n b : bytes b → ⟦drop n b⟧ = ⟦b⟧ mod 256 ^ Z.of_nat (length b - n).
Proof.
  intros Hb. rewrite <- (take_drop n b) at 2. rewrite val_app, length_drop.
  rewrite Z.add_comm, Z.mod_add by (pose proof (pow256_pos (length b - n)); lia).
  rewrite Z.mod_small; [done|]. rewrite <- length_drop.
  apply val_range. by apply bytes_drop.
Qed.

(** The least significant bytes dropped: a division by a power of 256. *)
Lemma val_take n b : bytes b → ⟦take n b⟧ = ⟦b⟧ / 256 ^ Z.of_nat (length b - n).
Proof.
  intros Hb. rewrite <- (take_drop n b) at 2. rewrite val_app, length_drop.
  pose proof (pow256_pos (length b - n)).
  rewrite Z.div_add_l by lia. rewrite Z.div_small; [lia|].
  rewrite <- length_drop. apply val_range. by apply bytes_drop.
Qed.

Lemma memis0_spec b : bytes b → memis0 b = (⟦b⟧ =? 0).
Proof.
  induction b as [|x b IH]; intros Hb; [done|].
  apply bytes_cons in Hb as [Hx Hb]. cbn [memis0 forallb val]. fold (memis0 b).
  rewrite IH by done. pose proof (val_range b Hb). pose proof (pow256_pos (length b)).
  destruct (Z.eqb_spec 0 x); destruct (Z.eqb_spec ⟦b⟧ 0);
    destruct (Z.eqb_spec (x * 256 ^ #b + ⟦b⟧) 0); try done; nia.
Qed.

Lemma memcmp_spec a b :
  length a = length b → bytes a → bytes b →
  memcmp a b = if ⟦a⟧ <? ⟦b⟧ then -1 else if ⟦b⟧ <? ⟦a⟧ then 1 else 0.
Proof.
  revert b. induction a as [|x a IH]; intros [|y b] Hl Ha Hb; try done.
  apply bytes_cons in Ha as [Hx Ha]. apply bytes_cons in Hb as [Hy Hb].
  injection Hl as Hl. cbn [memcmp val]. rewrite Hl.
  pose proof (val_range a Ha) as Ra. rewrite Hl in Ra.
  pose proof (val_range b Hb) as Rb. pose proof (pow256_pos (length b)).
  rewrite IH by done.
  destruct (Z.ltb_spec x y), (Z.ltb_spec y x), (Z.ltb_spec ⟦a⟧ ⟦b⟧), (Z.ltb_spec ⟦b⟧ ⟦a⟧);
  destruct (Z.ltb_spec (x * 256 ^ #b + ⟦a⟧) (y * 256 ^ #b + ⟦b⟧));
  destruct (Z.ltb_spec (y * 256 ^ #b + ⟦b⟧) (x * 256 ^ #b + ⟦a⟧)); nia.
Qed.

(** A property of bytes that a boolean test decides holds when it holds on all 256. *)
Lemma byte_all (P : Z → bool) :
  forallb P (seqZ 0 256) = true → ∀ x, 0 ≤ x < 256 → P x = true.
Proof.
  intros H x Hx. rewrite forallb_forall in H. apply H.
  apply list_elem_of_In, elem_of_seqZ. lia.
Qed.

(** Case analysis on the value of a byte, for equations between computable terms. *)
Ltac byte_cases x Hx :=
  clear -Hx; revert x Hx;
  match goal with |- ∀ x, 0 ≤ x < 256 → @eq Z (@?l x) (@?r x) =>
    let H := fresh in
    assert (∀ x, 0 ≤ x < 256 → (l x =? r x) = true) as H
      by (apply byte_all; vm_compute; reflexivity);
    intros x Hx; apply Z.eqb_eq, H, Hx
  end.

(** Writing a byte above a number that fits below it is a bitwise combination. *)
Lemma add_lxor x r k : 0 ≤ k → 0 ≤ r < 2 ^ k → x * 2 ^ k + r = Z.lxor (Z.shiftl x k) r.
Proof.
  intros Hk Hr. rewrite <- Z.shiftl_mul_pow2 by done.
  apply Z.add_nocarry_lxor. apply Z.bits_inj'. intros i Hi.
  rewrite Z.land_spec, Z.bits_0.
  destruct (Z.ltb_spec i k).
  - by rewrite Z.shiftl_spec_low.
  - replace (Z.testbit r i) with false; [by rewrite andb_false_r|].
    symmetry. destruct (decide (r = 0)) as [->|]; [by rewrite Z.bits_0|].
    apply Z.bits_above_log2; [lia|]. apply Z.log2_lt_pow2; [lia|].
    apply Z.lt_le_trans with (2 ^ k); [lia|]. by apply Z.pow_le_mono_r; lia.
Qed.

(** The bit length of a number with a known leading byte. *)
Lemma log2_lead x r k :
  0 < x → 0 ≤ k → 0 ≤ r < 2 ^ k → Z.log2 (x * 2 ^ k + r) = k + Z.log2 x.
Proof.
  intros Hx Hk Hr. pose proof (Z.log2_spec x Hx) as [H1 H2].
  pose proof (Z.log2_nonneg x). pose proof (Z.pow_pos_nonneg 2 k).
  apply Z.log2_unique; [lia|]. split.
  - rewrite Z.pow_add_r by lia. nia.
  - replace (Z.succ (k + Z.log2 x)) with (k + Z.succ (Z.log2 x)) by lia.
    rewrite Z.pow_add_r by lia. nia.
Qed.

(** ** Digits

    [digit V e] is the byte of weight [256^e] of the number [V]; a buffer is the
    list of the digits of its value. *)

Definition digit (V e : Z) : Z := (V / 256 ^ e) mod 256.

Lemma digit_range V e : 0 ≤ digit V e < 256.
Proof. apply Z.mod_pos_bound. lia. Qed.

#[export] Hint Resolve digit_range : beam.

Lemma digit_lookup b i x :
  bytes b → b !! i = Some x → x = digit ⟦b⟧ (#b - 1 - Z.of_nat i).
Proof.
  intros Hb Hi. pose proof (lookup_lt_Some _ _ _ Hi).
  pose proof (list_elem_of_split_length _ _ _ Hi) as (p & q & -> & ->).
  apply bytes_app in Hb as [Hp Hxq]. apply bytes_cons in Hxq as [Hx Hq].
  rewrite length_app. cbn [length].
  replace (Z.of_nat (length p + S (length q)) - 1 - #p) with (#q) by lia.
  unfold digit. rewrite val_app. cbn [val length]. pose proof (pow256_pos (length q)).
  replace (⟦p⟧ * 256 ^ Z.of_nat (S (length q)) + (x * 256 ^ #q + ⟦q⟧))
    with ((⟦p⟧ * 256 + x) * 256 ^ #q + ⟦q⟧) by (rewrite pow256_S; ring).
  rewrite Z.div_add_l by lia. rewrite (Z.div_small ⟦q⟧) by (by apply val_range).
  rewrite Z.add_0_r, Z.add_comm, Z.mod_add by lia. by rewrite Z.mod_small.
Qed.

Lemma digit_beyond V e n : 0 ≤ V < 256 ^ n → n ≤ e → digit V e = 0.
Proof.
  intros HV He. unfold digit. destruct (decide (0 ≤ n)).
  - rewrite Z.div_small; [done|]. split; [lia|].
    apply Z.lt_le_trans with (256 ^ n); [lia|]. apply Z.pow_le_mono_r; lia.
  - rewrite Z.pow_neg_r in HV by lia. lia.
Qed.

(** A buffer of the low digits of a number denotes the number modulo its size. *)
Lemma val_digits V b :
  (∀ i, (i < length b)%nat → b !! i = Some (digit V (#b - 1 - Z.of_nat i))) →
  bytes b ∧ ⟦b⟧ = V mod 256 ^ #b.
Proof.
  induction b as [|x b IH]; intros H.
  { split; [constructor|]. change (256 ^ Z.of_nat (length (@nil Z))) with 1. by rewrite Z.mod_1_r. }
  destruct IH as [Hb Hv].
  { intros i Hi. specialize (H (S i) ltac:(simpl; lia)). simpl lookup in H. rewrite H.
    do 2 f_equal. simpl length. lia. }
  specialize (H O ltac:(simpl; lia)). simpl in H. injection H as ->.
  replace (Z.of_nat (S (length b)) - 1 - Z.of_nat 0) with (#b) by lia.
  split; [apply bytes_cons; auto with beam|].
  cbn [val length]. rewrite Hv, pow256_S. pose proof (pow256_pos (length b)).
  rewrite Z.mul_comm, (Z.mul_comm 256), Z.rem_mul_r by lia. unfold digit. lia.
Qed.

(** Two neighbouring digits, shifted by less than a byte. *)
Lemma digit_shift V e b :
  0 ≤ V → 0 ≤ e → 0 ≤ b ≤ 8 →
  ((256 * digit V (e + 1) + digit V e) / 2 ^ b) mod 256 = (V / 2 ^ (8 * e + b)) mod 256.
Proof.
  intros HV He Hb. unfold digit.
  assert (0 < 256 ^ e) by (apply Z.pow_pos_nonneg; lia).
  assert (0 < 2 ^ b) by (apply Z.pow_pos_nonneg; lia).
  rewrite Z.pow_add_r, Z.pow_1_r by lia. rewrite <- Z.div_div by lia.
  rewrite Z.pow_add_r, Z.pow_mul_r by lia. change (2 ^ 8) with 256.
  rewrite <- Z.div_div by lia. set (X := V / 256 ^ e).
  replace (256 * ((X / 256) mod 256) + X mod 256) with (X mod (256 * 256))
    by (rewrite Z.rem_mul_r by lia; lia).
  rewrite (Z.div_mod X (256 * 256)) at 2 by lia.
  assert (Hp : 256 = 2 ^ (8 - b) * 2 ^ b) by (rewrite <- Z.pow_add_r by lia; by replace (8 - b + b) with 8 by lia).
  replace (256 * 256 * (X / (256 * 256)) + X mod (256 * 256))
    with (256 * 2 ^ (8 - b) * (X / (256 * 256)) * 2 ^ b + X mod (256 * 256))
    by (replace (256 * 2 ^ (8 - b) * (X / (256 * 256)) * 2 ^ b)
          with (256 * (X / (256 * 256)) * (2 ^ (8 - b) * 2 ^ b)) by ring;
        rewrite <- Hp; ring).
  rewrite Z.div_add_l by lia.
  replace (256 * 2 ^ (8 - b) * (X / (256 * 256)) + X mod (256 * 256) / 2 ^ b)
    with (X mod (256 * 256) / 2 ^ b + 2 ^ (8 - b) * (X / (256 * 256)) * 256) by lia.
  by rewrite Z.mod_add by lia.
Qed.

(** The bits of [x] below position [k], joined with bits above it. *)
Lemma lor_add x r k : 0 ≤ k → 0 ≤ r < 2 ^ k → Z.lor r (Z.shiftl x k) = x * 2 ^ k + r.
Proof.
  intros Hk Hr. rewrite add_lxor by done. rewrite Z.lor_comm. symmetry.
  apply Z.lxor_lor. apply Z.bits_inj'. intros i Hi. rewrite Z.land_spec, Z.bits_0.
  destruct (Z.ltb_spec i k); [by rewrite Z.shiftl_spec_low|].
  rewrite andb_false_iff. right. destruct (decide (r = 0)) as [->|]; [by rewrite Z.bits_0|].
  apply Z.bits_above_log2; [lia|]. apply Z.log2_lt_pow2; [lia|].
  apply Z.lt_le_trans with (2 ^ k); [lia|]. by apply Z.pow_le_mono_r; lia.
Qed.

Lemma lor_add_mod x y k : 0 ≤ k → x mod 2 ^ k = 0 → 0 ≤ y < 2 ^ k → Z.lor x y = x + y.
Proof.
  intros Hk Hx Hy. apply Z.div_exact in Hx; [|lia].
  set (q := x / 2 ^ k) in *. rewrite Z.lor_comm, Hx, Z.mul_comm, <- (lor_add q y k) by done. by rewrite Z.shiftl_mul_pow2.
Qed.

(** ** Loops that fill a range of a buffer *)

Lemma wr_rd_wr {A} (b : list A) i v (g : A → A) :
  (b1 ← wr b i v; w ← rd b1 i; wr b1 i (g w)) = wr b i (g v).
Proof.
  unfold wr. case_decide; [|done]. cbn [mbind option_bind].
  unfold rd. rewrite decide_True by lia.
  rewrite list_lookup_insert_eq by lia. cbn [mbind option_bind].
  rewrite length_insert. rewrite decide_True by done. by rewrite list_insert_insert_eq.
Qed.

Lemma loop_fill_step {A} (f : Z → A) pDst (lo n : Z) i (d0 d : list A) :
  0 ≤ pDst → lo ≤ i < n → 0 ≤ lo → pDst + n ≤ #d →
  ∃ d', wr d (pDst + i) (f i) = Some d' ∧ length d' = length d ∧
    ∀ j : nat, d' !! j = if decide (Z.of_nat j = pDst + i) then Some (f i) else d !! j.
Proof.
  intros ????. rewrite wr_Some by lia. eexists. rewrite length_insert. split_and!; [done..|].
  intros j. case_decide.
  - replace j with (Z.to_nat (pDst + i)) by lia. apply list_lookup_insert_eq. lia.
  - apply list_lookup_insert_ne. lia.
Qed.

Lemma loop_down_fill {A} (f : Z → A) (body : Z → list A → option (list A)) pDst (n : nat) d :
  0 ≤ pDst → pDst + Z.of_nat n ≤ #d →
  (∀ i d', 0 ≤ i < Z.of_nat n → length d' = length d → body i d' = wr d' (pDst + i) (f i)) →
  ∃ d', loop_down n body d = Some d' ∧ length d' = length d ∧
    ∀ j : nat, d' !! j =
      if decide (pDst ≤ Z.of_nat j < pDst + Z.of_nat n) then Some (f (Z.of_nat j - pDst)) else d !! j.
Proof.
  intros Hp Hn Hbody.
  destruct (loop_down_inv (λ i d', length d' = length d ∧ ∀ j : nat, d' !! j =
      if decide (pDst + i ≤ Z.of_nat j < pDst + Z.of_nat n) then Some (f (Z.of_nat j - pDst)) else d !! j)
    body n d) as (d' & E & Hl & Hj).
  - intros i d' Hi [Hl Hj]. rewrite Hbody by done.
    destruct (loop_fill_step f pDst 0 (Z.of_nat n) i d d') as (d2 & -> & Hl2 & Hj2); [lia..|].
    exists d2. split_and!; [done|lia|]. intros j. rewrite Hj2, Hj.
    repeat case_decide; try done; try lia. do 2 f_equal. lia.
  - split; [done|]. intros j. case_decide; [lia|done].
  - exists d'. split_and!; [done..|]. intros j. by rewrite Hj, Z.add_0_r.
Qed.

Lemma loop_up_fill {A} (f : Z → A) (body : Z → list A → option (list A)) pDst (n : nat) d :
  0 ≤ pDst → pDst + Z.of_nat n ≤ #d →
  (∀ i d', 0 ≤ i < Z.of_nat n → length d' = length d → body i d' = wr d' (pDst + i) (f i)) →
  ∃ d', loop_up n 0 body d = Some d' ∧ length d' = length d ∧
    ∀ j : nat, d' !! j =
      if decide (pDst ≤ Z.of_nat j < pDst + Z.of_nat n) then Some (f (Z.of_nat j - pDst)) else d !! j.
Proof.
  intros Hp Hn Hbody.
  destruct (loop_up_inv (λ i d', length d' = length d ∧ ∀ j : nat, d' !! j =
      if decide (pDst ≤ Z.of_nat j < pDst + i) then Some (f (Z.of_nat j - pDst)) else d !! j)
    body n 0 d) as (d' & E & Hl & Hj).
  - intros i d' Hi [Hl Hj]. rewrite Hbody by done || lia.
    destruct (loop_fill_step f pDst 0 (Z.of_nat n) i d d') as (d2 & -> & Hl2 & Hj2); [lia..|].
    exists d2. split_and!; [done|lia|]. intros j. rewrite Hj2, Hj.
    repeat case_decide; try done; try lia. do 2 f_equal. lia.
  - split; [done|]. intros j. case_decide; [lia|done].
  - exists d'. split_and!; [done..|]. intros j. by rewrite Hj.
Qed.

(** ** Integers as bytes *)

(** The [n] bytes of an integer, most significant first and least significant first. *)
Fixpoint be (n : nat) (v : Z) : list Z :=
  match n with O => [] | S n => be n (v / 256) ++ [v mod 256] end.

Fixpoint le (n : nat) (v : Z) : list Z :=
  match n with O => [] | S n => v mod 256 :: le n (v / 256) end.

Fixpoint of_le (b : list Z) : Z := match b with [] => 0 | x :: b => x + 256 * of_le b end.

Lemma length_be n v : length (be n v) = n.
Proof. revert v. induction n as [|n IH]; intros v; cbn [be]; [done|]. rewrite length_app, IH. cbn. lia. Qed.

Lemma length_le n v : length (le n v) = n.
Proof. revert v. induction n as [|n IH]; intros v; cbn [le length]; [done|]. by rewrite IH. Qed.

Lemma bytes_be n v : bytes (be n v).
Proof.
  revert v. induction n as [|n IH]; intros v; cbn [be]; [apply bytes_nil|]. apply bytes_snoc. split; [done|]. apply Z.mod_pos_bound. lia.
Qed.

Lemma bytes_le n v : bytes (le n v).
Proof.
  revert v. induction n as [|n IH]; intros v; cbn [le]; [apply bytes_nil|]. apply bytes_cons. split; [|done]. apply Z.mod_pos_bound. lia.
Qed.

Lemma val_be n v : 0 ≤ v < 256 ^ Z.of_nat n → ⟦be n v⟧ = v.
Proof.
  revert v. induction n as [|n IH]; intros v Hv; cbn [be]; [change (256 ^ Z.of_nat 0) with 1 in Hv; cbn; lia|].
  rewrite pow256_S in Hv. rewrite val_snoc, IH; [pose proof (Z.div_mod v 256 ltac:(lia)); lia|].
  split; [apply Z.div_pos; lia|apply Z.div_lt_upper_bound; lia].
Qed.

Lemma of_le_le n v : 0 ≤ v < 256 ^ Z.of_nat n → of_le (le n v) = v.
Proof.
  revert v. induction n as [|n IH]; intros v Hv; cbn [le of_le]; [change (256 ^ Z.of_nat 0) with 1 in Hv; lia|].
  rewrite pow256_S in Hv. rewrite IH; [pose proof (Z.div_mod v 256 ltac:(lia)); lia|].
  split; [apply Z.div_pos; lia|apply Z.div_lt_upper_bound; lia].
Qed.

Lemma le_inj n v w : 0 ≤ v < 256 ^ Z.of_nat n → 0 ≤ w < 256 ^ Z.of_nat n → le n v = le n w → v = w.
Proof. intros Hv Hw E. rewrite <- (of_le_le n v), <- (of_le_le n w) by done. by rewrite E. Qed.

Lemma be_inj n v w : 0 ≤ v < 256 ^ Z.of_nat n → 0 ≤ w < 256 ^ Z.of_nat n → be n v = be n w → v = w.
Proof. intros Hv Hw E. rewrite <- (val_be n v), <- (val_be n w) by done. by rewrite E. Qed.
