(* ===== verification/UintBig.v ===== *)
(** * core/uintBig: fixed-size big-endian unsigned integers

    The routines of [struct uintBigImpl] (core/uintBig.cpp and the templates of
    core/uintBig.h), on byte buffers.  A pointer with its length is the list of
    the bytes it covers; a pointer that the source advances is a buffer with an
    offset.  Every array access goes through [rd] and [wr], so that a result
    [Some _] also says that the routine stayed inside its buffers. *)

From stdpp Require Import base list numbers option.
From S2P Require Import Prelude.
Local Open Scope Z_scope.

Module uintBigImpl.

(** ** Text *)

Definition ChFromHex (v : Z) : Z := u8 (v + (if v <? 10 then 48 else 97 - 10)).

Definition Ch2Hex (c : Z) : Z :=
  if (97 <=? c) && (c <=? 102) then u8 (10 + (c - 97))
  else if (65 <=? c) && (c <=? 70) then u8 (10 + (c - 65))
  else u8 (c - 48).

(** [_Print] into a character buffer: two digits per byte, then the 0-terminator. *)
Definition _Print (b : list Z) : list Z :=
  concat (map (λ x, [ChFromHex (Z.shiftr x 4); ChFromHex (Z.land x 15)]) b) ++ [0].

(** [_Scan]: [sz] holds the [nTxtLen] characters at the text pointer, [pos] is the
    advance of [pDst] and [ret] the number of characters read so far. *)
Fixpoint _Scan_loop (dst : list Z) (pos ret : Z) (sz : list Z) : option (Z * list Z) :=
  match sz with
  | [] => Some (ret, dst)
  | c :: sz' =>
      let x := Ch2Hex c in
      if 15 <? x then Some (ret, dst)
      else if Z.land 1 ret =? 1 then
        y ← rd dst pos;
        d ← wr dst pos (Z.lor y x);
        _Scan_loop d (pos + 1) (ret + 1) sz'
      else
        d ← wr dst pos (u8 (Z.shiftl x 4));
        _Scan_loop d pos (ret + 1) sz'
  end.

Definition _Scan (dst : list Z) (sz : list Z) : option (Z * list Z) := _Scan_loop dst 0 0 sz.

(** ** Assignment *)

Definition _Assign (nDst : nat) (src : list Z) : list Z :=
  if (nDst <=? length src)%nat then drop (length src - nDst) src
  else zeros (nDst - length src) ++ src.

(** [_AssignRangeAligned<T>]; [x] has type [T], so the cast of each byte is [u8]. *)
Definition _AssignRangeAligned_step (nDst i : Z) (st : list Z * Z) : option (list Z * Z) :=
  let '(d, x) := st in
  d ← wr d (nDst + i) (u8 x);
  Some (d, Z.shiftr x 8).

Definition _AssignRangeAligned (dst : list Z) (x : Z) (nOffsetBytes nBytesX : Z) : option (list Z) :=
  let nDst := #dst - (nOffsetBytes + nBytesX) in
  fst <$> loop_down (Z.to_nat nBytesX) (_AssignRangeAligned_step nDst) (dst, x).

Definition _AssignRangeAlignedSafe (dst : list Z) (x : Z) (nOffsetBytes nBytesX : Z) : option (bool * list Z) :=
  if #dst <? nOffsetBytes then Some (false, dst)
  else
    let n := #dst - nOffsetBytes in
    let b := nBytesX <=? n in
    d ← _AssignRangeAligned dst x nOffsetBytes (if b then nBytesX else n);
    Some (b, d).

(** [_AssignSafe<T>] for an unsigned [T] of [szT] bytes. *)
Definition _AssignSafe (szT : Z) (dst : list Z) (x nOffset : Z) : option (bool * list Z) :=
  let nOffsetBytes := Z.shiftr nOffset 3 in
  let nOffset := Z.land nOffset 7 in
  '(b, d) ← _AssignRangeAlignedSafe dst (Z.shiftl x nOffset mod 2 ^ (8 * szT)) nOffsetBytes szT;
  if negb b then Some (false, d)
  else if nOffset =? 0 then Some (true, d)
  else
    let nOffsetBytes := nOffsetBytes + szT in
    if u32 (#dst - 1) <? nOffsetBytes then Some (false, d)
    else
      let resid := u8 (Z.shiftr x (Z.shiftl szT 3 - nOffset)) in
      d' ← wr d (#dst - 1 - nOffsetBytes) resid;
      Some (true, d').

(** [_ExportAligned<T>] into an unsigned [T] of [szT] bytes. *)
Definition _ExportAligned (szT : Z) (b : list Z) : option Z :=
  x0 ← rd b 0;
  loop_up (length b - 1) 1 (λ i out,
    y ← rd b i; Some (Z.lor (Z.shiftl out 8 mod 2 ^ (8 * szT)) y)) x0.

(** ** Addition, complement, exclusive or *)

Fixpoint _Inc_loop (i : nat) (dst : list Z) : option (list Z * Z) :=
  match i with
  | O => Some (dst, 1)
  | S i' =>
      x ← rd dst (Z.of_nat i');
      let x := u8 (x + 1) in
      d ← wr dst (Z.of_nat i') x;
      if x =? 0 then _Inc_loop i' d else Some (d, 0)
  end.

Definition _Inc (dst : list Z) : option (list Z * Z) := _Inc_loop (length dst) dst.

(** [_Inc(pDst, nDst, pSrc)]. *)
Definition _Inc_src_step (src : list Z) (i : Z) (st : list Z * Z) : option (list Z * Z) :=
  let '(d, carry) := st in
  x ← rd d i;
  let carry := u16 (carry + x) in
  y ← rd src i;
  let carry := u16 (carry + y) in
  d ← wr d i (u8 carry);
  Some (d, Z.shiftr carry 8).

Definition _Inc_src (dst src : list Z) : option (list Z * Z) :=
  '(d, carry) ← loop_down (length dst) (_Inc_src_step src) (dst, 0);
  Some (d, u8 carry).

(** [_Inc(pDst, nDst, pSrc, nSrc)]. *)
Definition _Inc_sized (dst src : list Z) : option (list Z * Z) :=
  if (length dst <=? length src)%nat then _Inc_src dst (drop (length src - length dst) src)
  else
    let n := (length dst - length src)%nat in
    '(lo, carry) ← _Inc_src (drop n dst) src;
    if carry =? 0 then Some (take n dst ++ lo, 0)
    else
      '(hi, carry) ← _Inc (take n dst);
      Some (hi ++ lo, carry).

Definition _Inv_step (i : Z) (d : list Z) : option (list Z) :=
  x ← rd d i; wr d i (Z.lxor x 255).

Definition _Inv (dst : list Z) : option (list Z) := loop_down (length dst) _Inv_step dst.

(** [_Xor(pDst, nDst, pSrc)]. *)
Definition _Xor_src_step (src : list Z) (i : Z) (d : list Z) : option (list Z) :=
  x ← rd d i; y ← rd src i; wr d i (Z.lxor x y).

Definition _Xor_src (dst src : list Z) : option (list Z) :=
  loop_down (length dst) (_Xor_src_step src) dst.

(** [_Xor(pDst, nDst, pSrc, nSrc)]. *)
Definition _Xor (dst src : list Z) : option (list Z) :=
  if (length dst <=? length src)%nat then _Xor_src dst (drop (length src - length dst) src)
  else
    let n := (length dst - length src)%nat in
    lo ← _Xor_src (drop n dst) src; Some (take n dst ++ lo).

(** ** Multiplication *)

(** [while (carry && iDst--)]: the carry of a row moves to the bytes before it. *)
Fixpoint _Mul_carry (iDst : nat) (carry : Z) (dst : list Z) : option (list Z) :=
  if carry =? 0 then Some dst
  else
    match iDst with
    | O => Some dst
    | S i =>
        y ← rd dst (Z.of_nat i);
        let carry := u16 (carry + y) in
        d ← wr dst (Z.of_nat i) (u8 carry);
        _Mul_carry i (Z.shiftr carry 8) d
    end.

(** The body of the loop over [i1], at [i1 = i1Min + k]. *)
Definition _Mul_step (src1 : list Z) (x0 iDst i1Min k : Z) (st : list Z * Z) : option (list Z * Z) :=
  let '(d, carry) := st in
  let i1 := i1Min + k in
  x1 ← rd src1 i1;
  let x1 := u16 (x1 * x0) in
  let carry := u16 (carry + x1) in
  y ← rd d (u32 (iDst + i1));
  let carry := u16 (carry + y) in
  d ← wr d (u32 (iDst + i1)) (u8 carry);
  Some (d, Z.shiftr carry 8).

(** The body of the loop over [i0]: one row of the schoolbook product.  The index
    [iDst] may be negative; it is then a large unsigned number. *)
Definition _Mul_row (nDelta : Z) (src0 src1 : list Z) (i0 : Z) (dst : list Z) : option (list Z) :=
  x0 ← rd src0 i0;
  let iDst := u32 (i0 - nDelta) in
  let i1Min := if #dst <? iDst then u32 (- i32 iDst) else 0 in
  '(d, carry) ← loop_down (Z.to_nat (#src1 - i1Min)) (_Mul_step src1 x0 iDst i1Min) (dst, 0);
  if iDst <=? #dst then _Mul_carry (Z.to_nat iDst) carry d else Some d.

Definition _Mul (nDst : nat) (src0 src1 : list Z) : option (list Z) :=
  let src0 := if (nDst <? length src0)%nat then drop (length src0 - nDst) src0 else src0 in
  let src1 := if (nDst <? length src1)%nat then drop (length src1 - nDst) src1 else src1 in
  let nDelta := i32 (#src0 + #src1 - Z.of_nat nDst - 1) in
  loop_down (length src0) (_Mul_row nDelta src0 src1) (zeros nDst).

(** ** Comparison and bit length *)

Definition _Cmp (src0 src1 : list Z) : Z :=
  if (length src1 <? length src0)%nat then
    let diff := (length src0 - length src1)%nat in
    if negb (memis0 (take diff src0)) then 1 else memcmp (drop diff src0) src1
  else if (length src0 <? length src1)%nat then
    let diff := (length src1 - length src0)%nat in
    if negb (memis0 (take diff src1)) then -1 else memcmp src0 (drop diff src1)
  else memcmp src0 src1.

(** [while (x >>= 1) nOrder++] on a byte, which takes at most eight steps. *)
Fixpoint _GetOrder_bits (fuel : nat) (x nOrder : Z) : Z :=
  match fuel with
  | O => nOrder
  | S fuel' =>
      let x := Z.shiftr x 1 in
      if x =? 0 then nOrder else _GetOrder_bits fuel' x (u32 (nOrder + 1))
  end.

(** The remaining [nDst - nByte] bytes are the argument. *)
Fixpoint _GetOrder (b : list Z) : Z :=
  match b with
  | [] => 0
  | x :: b' =>
      if x =? 0 then _GetOrder b'
      else _GetOrder_bits 8 x (u32 (u32 (Z.shiftl #b 3) - 7))
  end.

Definition _Accept (dst thr : list Z) (nThrOrder : Z) : option (bool * list Z) :=
  if nThrOrder =? 0 then Some (false, dst)
  else
    let nThrOrder := nThrOrder - 1 in
    let nOffs := u32 (#dst - 1 - Z.shiftr nThrOrder 3) in
    let msk := u8 (u8 (Z.shiftl 2 (Z.land 7 nThrOrder)) - 1) in
    x ← rd dst nOffs;
    d ← wr dst nOffs (Z.land x msk);
    let n := Z.to_nat nOffs in
    if 0 <=? memcmp (drop n d) (drop n thr) then Some (false, d)
    else Some (true, zeros n ++ drop n d).

(** ** Shifts *)

(** [memset0(pDst + pos, n)] and [memmove(pDst + pd, pSrc + ps, n)]. *)
Definition memset0_at (dst : list Z) (pos n : Z) : option (list Z) :=
  if decide (0 ≤ pos ∧ 0 ≤ n ∧ pos + n ≤ #dst) then
    Some (take (Z.to_nat pos) dst ++ zeros (Z.to_nat n) ++ drop (Z.to_nat (pos + n)) dst)
  else None.

Definition memmove_at (dst : list Z) (pd : Z) (src : list Z) (ps n : Z) : option (list Z) :=
  if decide (0 ≤ pd ∧ 0 ≤ ps ∧ 0 ≤ n ∧ pd + n ≤ #dst ∧ ps + n ≤ #src) then
    Some (take (Z.to_nat pd) dst ++ take (Z.to_nat n) (drop (Z.to_nat ps) src)
          ++ drop (Z.to_nat (pd + n)) dst)
  else None.

Definition _ShiftRight_step (src : list Z) (pDst pSrc nDst nSrc nBits i : Z) (d : list Z)
  : option (list Z) :=
  x ← rd src (pSrc + i);
  d ← wr d (pDst + i) (Z.shiftr x nBits);
  if nDst <? nSrc + i then
    y ← rd src (pSrc + i32 (i - 1));
    v ← rd d (pDst + i);
    wr d (pDst + i) (u8 (Z.lor v (Z.shiftl y (8 - nBits))))
  else Some d.

Definition _ShiftRight (dst src : list Z) (nBits : Z) : option (list Z) :=
  let nBytes := Z.shiftr nBits 3 in
  let '(nSrc, nBits) :=
    if #src <=? nBytes then (0, 0) else (#src - nBytes, Z.land nBits 7) in
  let '(pDst, nDst, pSrc) :=
    if nSrc <? #dst then (#dst - nSrc, nSrc, 0) else (0, #dst, nSrc - #dst) in
  d ← (if negb (nBits =? 0) then
         loop_down (Z.to_nat nDst) (_ShiftRight_step src pDst pSrc nDst nSrc nBits) dst
       else memmove_at dst pDst src pSrc nDst);
  memset0_at d 0 pDst.

Definition _ShiftLeft_step (src : list Z) (pDst pSrc nSrc nBits i : Z) (d : list Z)
  : option (list Z) :=
  x ← rd src (pSrc + i);
  d ← wr d (pDst + i) (u8 (Z.shiftl x nBits));
  if i + 1 <? nSrc then
    y ← rd src (pSrc + (i + 1));
    v ← rd d (pDst + i);
    wr d (pDst + i) (u8 (Z.lor v (Z.shiftr y (8 - nBits))))
  else Some d.

Definition _ShiftLeft (dst src : list Z) (nBits : Z) : option (list Z) :=
  let nBytes := Z.shiftr nBits 3 in
  let '(nBytes, nDst, nBits) :=
    if #dst <=? nBytes then (#dst, 0, 0) else (nBytes, #dst - nBytes, Z.land nBits 7) in
  '(d, pDst, pSrc, nSrc) ←
    (if nDst <? #src then Some (dst, 0, #src - nDst, nDst)
     else d ← memset0_at dst 0 (nDst - #src); Some (d, nDst - #src, 0, #src));
  d ← (if negb (nBits =? 0) then
         if negb (nSrc =? 0) then
           d ← (if nSrc <? nDst then
                  x ← rd src pSrc; wr d (pDst - 1) (Z.shiftr x (8 - nBits))
                else Some d);
           loop_up (Z.to_nat nSrc) 0 (_ShiftLeft_step src pDst pSrc nSrc nBits) d
         else Some d
       else memmove_at d pDst src pSrc nSrc);
  memset0_at d nDst nBytes.

(** ** Division *)

(** [pDst[nDst - (nShift >> 3) - 1] |= (1 << (7 & nShift))]. *)
Definition set_bit (dst : list Z) (nShift : Z) : option (list Z) :=
  let i := #dst - Z.shiftr nShift 3 - 1 in
  x ← rd dst i;
  wr dst i (u8 (Z.lor x (Z.shiftl 1 (Z.land 7 nShift)))).

(** One step of the bitwise long division; [pTmp] is overwritten before it is read. *)
Definition _Div_step (a b : list Z) (nShift : Z) (st : list Z * list Z * list Z)
  : option (list Z * list Z * list Z) :=
  let '(dst, mul, tmp) := st in
  tmp ← _ShiftLeft tmp b nShift;
  '(tmp, _) ← _Inc_sized tmp mul;
  if 0 <? _Cmp mul tmp then Some (dst, mul, tmp)
  else if _Cmp a tmp <? 0 then Some (dst, mul, tmp)
  else
    dst ← set_bit dst nShift;
    Some (dst, tmp, tmp).

(** [_Div]; the result is the quotient with the product [pMul = b * quotient]. *)
Definition _Div (nDst : nat) (a b tmp : list Z) : option (list Z * list Z) :=
  let nOrder := _GetOrder b in
  if Z.shiftl #a 3 <? nOrder then Some (zeros nDst, zeros (length a))
  else
    let nShift := 1 + Z.min (Z.shiftl #a 3 - nOrder) (Z.shiftl (Z.of_nat nDst) 3 - 1) in
    '(dst, mul, _) ← loop_down (Z.to_nat nShift) (_Div_step a b)
      (zeros nDst, zeros (length a), tmp);
    Some (dst, mul).

(** ** Assignment: reduction modulo the size of the target *)

Lemma _Assign_spec nDst src :
  bytes src →
  length (_Assign nDst src) = nDst ∧ bytes (_Assign nDst src) ∧
  ⟦_Assign nDst src⟧ = ⟦src⟧ mod 256 ^ Z.of_nat nDst.
Proof.
  intros Hs. unfold _Assign. case_match eqn:E.
  - apply Nat.leb_le in E. split_and!; [rewrite length_drop; lia|auto with beam|].
    rewrite val_drop by done. do 2 f_equal. lia.
  - apply Nat.leb_gt in E. split_and!.
    + rewrite length_app, length_zeros. lia.
    + apply bytes_app. auto with beam.
    + rewrite val_app, val_zeros, Z.mod_small; [lia|].
      pose proof (val_range src Hs). split; [lia|].
      apply Z.lt_le_trans with (256 ^ #src); [lia|]. apply Z.pow_le_mono_r; lia.
Qed.

(** ** Addition *)

Lemma _Inc_loop_spec p q :
  bytes p →
  ∃ p' c q', _Inc_loop (length p) (p ++ q) = Some (p' ++ q', c) ∧ q' = q ∧
    length p' = length p ∧ bytes p' ∧ (c = 0 ∨ c = 1) ∧
    ⟦p'⟧ + c * 256 ^ #p = ⟦p⟧ + 1.
Proof.
  revert q. induction p as [|x p IH] using rev_ind; intros q Hp.
  { exists [], 1, q. simpl. split_and!; auto with beam. }
  apply bytes_snoc in Hp as [Hp Hx].
  rewrite length_app, Nat.add_comm. cbn [length Nat.add _Inc_loop].
  rewrite <- app_assoc. cbn [app]. rewrite rd_mid. cbn.
  rewrite wr_mid. cbn. destruct (Z.eqb_spec (u8 (x + 1)) 0) as [E|E].
  - destruct (IH (u8 (x + 1) :: q) Hp) as (p' & c & ? & -> & -> & Hl & Hb & Hc & Hv).
    exists (p' ++ [u8 (x + 1)]), c, q. split_and!; [by rewrite <- app_assoc|done| | |done|].
    + rewrite length_app. simpl. lia.
    + apply bytes_snoc. auto with beam.
    + rewrite !val_snoc, pow256_S, E.
      assert (x = 255) as -> by (destruct (decide (x = 255)); [done|];
        rewrite u8_small in E by lia; lia). lia.
  - exists (p ++ [u8 (x + 1)]), 0, q. split_and!; [by rewrite <- app_assoc|done| | |by left|].
    + by rewrite length_app, Nat.add_comm.
    + apply bytes_snoc. auto with beam.
    + rewrite !val_snoc. assert (x ≠ 255) by (intros ->; by apply E).
      rewrite u8_small by lia. lia.
Qed.

Lemma _Inc_spec d :
  bytes d →
  ∃ d' c, _Inc d = Some (d', c) ∧ length d' = length d ∧ bytes d' ∧
    (c = 0 ∨ c = 1) ∧ ⟦d'⟧ + c * 256 ^ #d = ⟦d⟧ + 1.
Proof.
  intros Hd. unfold _Inc.
  destruct (_Inc_loop_spec d [] Hd) as (d' & c & q & E & -> & ? & ? & ? & ?).
  rewrite !app_nil_r in E. eauto 10.
Qed.

(** The loop of [_Inc_src] on the prefixes [p] and [s] that are still to be added. *)
Lemma _Inc_src_loop p s q t carry :
  length p = length s → bytes p → bytes s → 0 ≤ carry ≤ 1 →
  ∃ p' c, loop_down (length p) (_Inc_src_step (s ++ t)) (p ++ q, carry) = Some (p' ++ q, c) ∧
    length p' = length p ∧ bytes p' ∧ 0 ≤ c ≤ 1 ∧
    ⟦p'⟧ + c * 256 ^ #p = ⟦p⟧ + ⟦s⟧ + carry.
Proof.
  revert s q t carry.
  induction p as [|x p IH] using rev_ind; intros s q t carry Hl Hp Hs Hc.
  { destruct s; [|done]. exists [], carry. simpl. split_and!; auto with beam; lia. }
  destruct s as [|y s _] using rev_ind; rewrite !length_app in Hl; simpl in Hl; [lia|].
  apply bytes_snoc in Hp as [Hp Hx].
  apply bytes_snoc in Hs as [Hs Hy].
  rewrite length_app, Nat.add_comm. cbn [length Nat.add loop_down].
  rewrite <- !app_assoc. cbn [app]. set (z := carry + x + y).
  assert (_Inc_src_step (s ++ y :: t) #p (p ++ x :: q, carry)
          = Some (p ++ u8 z :: q, Z.shiftr z 8)) as ->.
  { unfold _Inc_src_step. rewrite rd_mid. cbn [mbind option_bind].
    rewrite rd_mid' by lia. cbn [mbind option_bind]. rewrite wr_mid. cbn [mbind option_bind].
    rewrite (u16_small (carry + x)) by lia. by rewrite u16_small by lia. }
  cbn [mbind option_bind].
  destruct (IH s (u8 z :: q) (y :: t) (Z.shiftr z 8)) as (p' & c & E & Hl' & Hb & Hc' & Hv);
    [lia|done|done| |].
  { rewrite Z.shiftr_div_pow2 by lia. split; [apply Z.div_pos; lia|].
    apply Z.lt_succ_r, Z.div_lt_upper_bound; lia. }
  exists (p' ++ [u8 z]), c. split_and!; [by rewrite E, <- app_assoc| | |lia|lia|].
  + rewrite length_app. simpl. lia.
  + apply bytes_snoc. auto with beam.
  + rewrite !val_snoc, pow256_S. rewrite Z.shiftr_div_pow2 in Hv by lia.
    pose proof (Z.div_mod z (2 ^ 8) ltac:(lia)). unfold u8. subst z. lia.
Qed.

Lemma _Inc_src_spec d s :
  length d = length s → bytes d → bytes s →
  ∃ d' c, _Inc_src d s = Some (d', c) ∧ length d' = length d ∧ bytes d' ∧
    (c = 0 ∨ c = 1) ∧ ⟦d'⟧ + c * 256 ^ #d = ⟦d⟧ + ⟦s⟧.
Proof.
  intros Hl Hd Hs. unfold _Inc_src.
  destruct (_Inc_src_loop d s [] [] 0) as (d' & c & E & ? & ? & ? & ?); [done..|lia|].
  rewrite !app_nil_r in E. rewrite E. cbn.
  exists d', (u8 c). rewrite u8_small by lia. split_and!; try done; lia.
Qed.

(** [operator +=]: addition modulo the size of the target, the carry being exact. *)
Lemma _Inc_sized_spec d s :
  bytes d → bytes s →
  ∃ d' c, _Inc_sized d s = Some (d', c) ∧ length d' = length d ∧ bytes d' ∧
    (c = 0 ∨ c = 1) ∧
    ⟦d'⟧ + c * 256 ^ #d = ⟦d⟧ + ⟦s⟧ mod 256 ^ #d.
Proof.
  intros Hd Hs. unfold _Inc_sized. destruct (Nat.leb_spec (length d) (length s)) as [L|L].
  - destruct (_Inc_src_spec d (drop (length s - length d) s))
      as (d' & c & E & ? & ? & ? & Hv); [rewrite length_drop; lia|auto with beam..|].
    exists d', c. split_and!; try done. rewrite Hv, val_drop by done. do 3 f_equal. lia.
  - set (n := (length d - length s)%nat).
    assert (Hsm : ⟦s⟧ mod 256 ^ #d = ⟦s⟧).
    { apply Z.mod_small. pose proof (val_range s Hs). split; [lia|].
      apply Z.lt_le_trans with (256 ^ #s); [lia|]. apply Z.pow_le_mono_r; lia. }
    assert (Hln : #d = Z.of_nat n + #s) by lia.
    destruct (_Inc_src_spec (drop n d) s) as (lo & c & -> & Hl & ? & Hc & Hv);
      [rewrite length_drop; lia|auto with beam..|]. cbn [mbind option_bind].
    rewrite length_drop in Hl, Hv. replace (length d - n)%nat with (length s) in Hl, Hv by lia.
    assert (Hd2 : ⟦d⟧ = ⟦take n d⟧ * 256 ^ #s + ⟦drop n d⟧).
    { rewrite <- (take_drop n d) at 1. rewrite val_app, length_drop. do 4 f_equal. lia. }
    rewrite Hsm, Hd2, Hln, Z.pow_add_r by lia.
    destruct (Z.eqb_spec c 0) as [->|].
    + exists (take n d ++ lo), 0. split_and!; [done| | |by left|].
      * rewrite length_app, length_take. lia.
      * apply bytes_app. auto with beam.
      * rewrite val_app, Hl. lia.
    + destruct (_Inc_spec (take n d)) as (hi & c' & -> & Hl2 & ? & ? & Hv2); [auto with beam|].
      rewrite length_take in Hl2, Hv2. replace (n `min` length d)%nat with n in Hl2, Hv2 by lia.
      exists (hi ++ lo), c'. split_and!; [done| | |done|].
      * rewrite length_app. lia.
      * apply bytes_app. auto with beam.
      * rewrite val_app, Hl. replace c with 1 in Hv by lia.
        replace ⟦hi⟧ with (⟦take n d⟧ + 1 - c' * 256 ^ Z.of_nat n) by lia. lia.
Qed.

(** ** Complement and exclusive or *)

Lemma _Inv_map d : _Inv d = Some (map (λ x, Z.lxor x 255) d).
Proof.
  unfold _Inv. rewrite <- (app_nil_r d) at 2. rewrite <- (app_nil_r (map _ d)).
  generalize (@nil Z). induction d as [|x d IH] using rev_ind; intros q; [done|].
  rewrite length_app, Nat.add_comm. cbn [length Nat.add loop_down].
  rewrite <- app_assoc. cbn [app]. unfold _Inv_step at 2. rewrite rd_mid. cbn [mbind option_bind].
  rewrite wr_mid. cbn [mbind option_bind]. rewrite IH, map_app, <- app_assoc. done.
Qed.

Lemma _Inv_spec d :
  bytes d →
  ∃ d', _Inv d = Some d' ∧ length d' = length d ∧ bytes d' ∧ ⟦d'⟧ = 256 ^ #d - 1 - ⟦d⟧.
Proof.
  intros Hd. rewrite _Inv_map. eexists; split; [done|]. rewrite length_map. split; [done|].
  assert (Hx : ∀ x, 0 ≤ x < 256 → Z.lxor x 255 = 255 - x) by (intros x Hx; byte_cases x Hx).
  induction d as [|x d IH]; [split; [constructor|done]|].
  apply bytes_cons in Hd as [Hb Hd]. destruct (IH Hd) as [Hb' Hv].
  cbn [map]. split; [apply bytes_cons; rewrite Hx by done; split; [lia|done]|].
  cbn [val length]. rewrite length_map, Hv, Hx, pow256_S by done. lia.
Qed.

Lemma _Xor_src_zip p s q t :
  length p = length s →
  loop_down (length p) (_Xor_src_step (s ++ t)) (p ++ q) = Some (zip_with Z.lxor p s ++ q).
Proof.
  revert s q t. induction p as [|x p IH] using rev_ind; intros s q t Hl.
  { by destruct s. }
  destruct s as [|y s _] using rev_ind; rewrite !length_app in Hl; simpl in Hl; [lia|].
  rewrite length_app, Nat.add_comm. cbn [length Nat.add loop_down].
  rewrite <- !app_assoc. cbn [app]. unfold _Xor_src_step at 2. rewrite rd_mid. cbn [mbind option_bind].
  rewrite rd_mid' by lia. cbn [mbind option_bind]. rewrite wr_mid. cbn [mbind option_bind].
  rewrite IH by lia. rewrite zip_with_app by lia. by rewrite <- app_assoc.
Qed.

Lemma val_xor a b :
  length a = length b → bytes a → bytes b →
  bytes (zip_with Z.lxor a b) ∧ ⟦zip_with Z.lxor a b⟧ = Z.lxor ⟦a⟧ ⟦b⟧.
Proof.
  revert b. induction a as [|x a IH]; intros [|y b] Hl Ha Hb; try done.
  apply bytes_cons in Ha as [Hx Ha]. apply bytes_cons in Hb as [Hy Hb].
  injection Hl as Hl. destruct (IH b Hl Ha Hb) as [Hz Hv]. cbn [zip_with val].
  assert (Hxy : 0 ≤ Z.lxor x y < 256).
  { split; [apply Z.lxor_nonneg; lia|].
    assert (0 ≤ Z.lxor x y) as Hn by (apply Z.lxor_nonneg; lia).
    destruct (decide (Z.lxor x y = 0)); [lia|]. apply (Z.log2_lt_pow2 _ 8); [lia|].
    pose proof (Z.log2_lxor x y ltac:(lia) ltac:(lia)).
    pose proof (Z.log2_le_mono x 255 ltac:(lia)). pose proof (Z.log2_le_mono y 255 ltac:(lia)).
    change (Z.log2 255) with 7 in *. lia. }
  split; [apply bytes_cons; done|].
  rewrite length_zip_with, <- Hl, Nat.min_id, Hv.
  pose proof (val_range a Ha) as Ra. pose proof (val_range b Hb) as Rb. rewrite <- Hl in Rb.
  pose proof (val_range _ Hz) as Rz. rewrite length_zip_with, <- Hl, Nat.min_id, Hv in Rz.
  rewrite !pow256_2 in *. rewrite !add_lxor by lia. rewrite Z.shiftl_lxor by lia.
  rewrite !Z.lxor_assoc. f_equal. rewrite <- !Z.lxor_assoc. f_equal. apply Z.lxor_comm.
Qed.

Lemma _Xor_src_spec d s :
  length d = length s → bytes d → bytes s →
  ∃ d', _Xor_src d s = Some d' ∧ length d' = length d ∧ bytes d' ∧ ⟦d'⟧ = Z.lxor ⟦d⟧ ⟦s⟧.
Proof.
  intros Hl Hd Hs. unfold _Xor_src. pose proof (_Xor_src_zip d s [] [] Hl) as E.
  rewrite !app_nil_r in E. rewrite E. eexists; split; [done|].
  rewrite length_zip_with, <- Hl, Nat.min_id. split; [done|]. by apply val_xor.
Qed.

(** ** Comparison *)

Lemma val_split n b : (n ≤ length b)%nat → ⟦b⟧ = ⟦take n b⟧ * 256 ^ Z.of_nat (length b - n) + ⟦drop n b⟧.
Proof. intros. rewrite <- (take_drop n b) at 1. by rewrite val_app, length_drop. Qed.

Lemma _Cmp_spec a b :
  bytes a → bytes b →
  _Cmp a b = if ⟦a⟧ <? ⟦b⟧ then -1 else if ⟦b⟧ <? ⟦a⟧ then 1 else 0.
Proof.
  intros Ha Hb. unfold _Cmp.
  destruct (Nat.ltb_spec (length b) (length a)) as [L|L]; cbn [negb].
  - set (n := (length a - length b)%nat).
    pose proof (val_split n a ltac:(lia)) as Hv. pose proof (val_range b Hb) as Rb.
    pose proof (val_range _ (bytes_take n a Ha)). pose proof (val_range _ (bytes_drop n a Ha)).
    replace (length a - n)%nat with (length b) in Hv by lia.
    pose proof (pow256_pos (length b)).
    rewrite memis0_spec by auto with beam. destruct (Z.eqb_spec ⟦take n a⟧ 0) as [E|E]; cbn [negb].
    + rewrite memcmp_spec; [|rewrite length_drop; lia|auto with beam..].
      replace ⟦drop n a⟧ with ⟦a⟧ by (rewrite Hv, E; lia). done.
    + destruct (Z.ltb_spec ⟦a⟧ ⟦b⟧); [nia|]. destruct (Z.ltb_spec ⟦b⟧ ⟦a⟧); [done|nia].
  - destruct (Nat.ltb_spec (length a) (length b)) as [L'|L'].
    + set (n := (length b - length a)%nat).
      pose proof (val_split n b ltac:(lia)) as Hv. pose proof (val_range a Ha) as Ra.
      pose proof (val_range _ (bytes_take n b Hb)). pose proof (val_range _ (bytes_drop n b Hb)).
      replace (length b - n)%nat with (length a) in Hv by lia.
      pose proof (pow256_pos (length a)).
      rewrite memis0_spec by auto with beam. destruct (Z.eqb_spec ⟦take n b⟧ 0) as [E|E]; cbn [negb].
      * rewrite memcmp_spec; [|rewrite length_drop; lia|auto with beam..].
        replace ⟦drop n b⟧ with ⟦b⟧ by (rewrite Hv, E; lia). done.
      * destruct (Z.ltb_spec ⟦a⟧ ⟦b⟧); [done|nia].
    + apply memcmp_spec; [lia|done..].
Qed.

(** ** Bit length *)

Lemma _GetOrder_bits_spec fuel x n :
  0 < x < 2 ^ Z.of_nat fuel → 0 ≤ n → n + Z.of_nat fuel < 2 ^ 32 →
  _GetOrder_bits fuel x n = n + Z.log2 x.
Proof.
  revert x n. induction fuel as [|fuel IH]; intros x n Hx Hn Hf; [simpl in Hx; lia|].
  rewrite Nat2Z.inj_succ in *. rewrite Z.pow_succ_r in Hx by lia.
  cbn [_GetOrder_bits]. rewrite Z.shiftr_div_pow2 by lia. change (2 ^ 1) with 2.
  pose proof (Z.div_mod x 2 ltac:(lia)). pose proof (Z.mod_pos_bound x 2 ltac:(lia)).
  destruct (Z.eqb_spec (x / 2) 0) as [E|E].
  - replace x with 1 by lia. simpl. lia.
  - assert (0 < x / 2) by (pose proof (Z.div_pos x 2); lia).
    rewrite u32_small, IH by lia.
    replace (Z.log2 x) with (1 + Z.log2 (x / 2)); [lia|].
    replace x with (x / 2 * 2 ^ 1 + x mod 2) at 2 by lia.
    by rewrite log2_lead by lia.
Qed.

Lemma _GetOrder_spec b :
  bytes b → 8 * #b < 2 ^ 32 - 8 →
  _GetOrder b = if ⟦b⟧ =? 0 then 0 else Z.log2 ⟦b⟧ + 1.
Proof.
  induction b as [|x b IH]; intros Hb Hl; [done|].
  apply bytes_cons in Hb as [Hx Hb]. cbn [_GetOrder val].
  cbn [length] in *. rewrite Nat2Z.inj_succ in *.
  pose proof (val_range b Hb) as R. pose proof (pow256_pos (length b)).
  destruct (Z.eqb_spec x 0) as [->|E].
  - rewrite IH by (done || lia). by rewrite Z.mul_0_l, Z.add_0_l.
  - destruct (Z.eqb_spec (x * 256 ^ #b + ⟦b⟧) 0); [nia|].
    rewrite Z.shiftl_mul_pow2 by lia. casts.
    rewrite _GetOrder_bits_spec by (change (2 ^ Z.of_nat 8) with 256; lia).
    rewrite pow256_2 in *. rewrite log2_lead by lia. lia.
Qed.

(** ** Multiplication *)

Lemma _Mul_carry_spec p q c :
  bytes p → 0 ≤ c < 256 →
  ∃ p' k, _Mul_carry (length p) c (p ++ q) = Some (p' ++ q) ∧
    length p' = length p ∧ bytes p' ∧ ⟦p'⟧ + k * 256 ^ #p = ⟦p⟧ + c.
Proof.
  revert q c. induction p as [|x p IH] using rev_ind; intros q c Hp Hc.
  { exists [], c. cbn [_Mul_carry length app]. split_and!; [by destruct (c =? 0)|done|constructor|simpl; lia]. }
  apply bytes_snoc in Hp as [Hp Hx].
  rewrite length_app, Nat.add_comm. cbn [length Nat.add _Mul_carry].
  destruct (Z.eqb_spec c 0) as [->|Hc0].
  { exists (p ++ [x]), 0. split_and!; [done|rewrite length_app; simpl; lia| |lia].
    by apply bytes_snoc. }
  rewrite <- app_assoc. cbn [app]. rewrite rd_mid. cbn [mbind option_bind].
  rewrite wr_mid. cbn [mbind option_bind]. rewrite u16_small by lia.
  destruct (IH (u8 (c + x) :: q) (Z.shiftr (c + x) 8)) as (p' & k & -> & Hl & Hb & Hv); [done| |].
  { rewrite Z.shiftr_div_pow2 by lia. split; [apply Z.div_pos; lia|].
    apply Z.div_lt_upper_bound; lia. }
  exists (p' ++ [u8 (c + x)]), k. split_and!; [by rewrite <- app_assoc| | |].
  - rewrite length_app. simpl. lia.
  - apply bytes_snoc. auto with beam.
  - rewrite !val_snoc, pow256_S. rewrite Z.shiftr_div_pow2 in Hv by lia.
    pose proof (Z.div_mod (c + x) (2 ^ 8) ltac:(lia)). unfold u8. lia.
Qed.

(** The inner loop adds [x0 * s] to the window [w] of the target. *)
Lemma _Mul_step_loop a w q s0 s t x0 iDst c :
  length s = length w → bytes w → bytes s → 0 ≤ x0 < 256 → 0 ≤ c < 256 →
  (∀ k, 0 ≤ k < #w → u32 (iDst + (#s0 + k)) = #a + k) →
  ∃ w' c', loop_down (length w) (_Mul_step (s0 ++ s ++ t) x0 iDst #s0) (a ++ w ++ q, c)
           = Some (a ++ w' ++ q, c') ∧
    length w' = length w ∧ bytes w' ∧ 0 ≤ c' < 256 ∧
    ⟦w'⟧ + c' * 256 ^ #w = ⟦w⟧ + x0 * ⟦s⟧ + c.
Proof.
  revert q s t c.
  induction w as [|x w IH] using rev_ind; intros q s t c Hl Hw Hs Hx0 Hc Hi.
  { destruct s; [|done]. exists [], c. cbn. split_and!; auto with beam; lia. }
  destruct s as [|y s _] using rev_ind; rewrite !length_app in Hl; simpl in Hl; [lia|].
  apply bytes_snoc in Hw as [Hw Hx].
  apply bytes_snoc in Hs as [Hs Hy].
  rewrite length_app in Hi. simpl in Hi.
  rewrite length_app, Nat.add_comm. cbn [length Nat.add loop_down].
  set (z := c + y * x0 + x).
  assert (_Mul_step (s0 ++ (s ++ [y]) ++ t) x0 iDst #s0 #w (a ++ (w ++ [x]) ++ q, c)
          = Some (a ++ w ++ u8 z :: q, Z.shiftr z 8)) as ->.
  { unfold _Mul_step. rewrite Hi by lia.
    rewrite <- (app_assoc s), (app_assoc s0). cbn [app].
    rewrite rd_mid' by (rewrite length_app; lia). cbn [mbind option_bind].
    rewrite <- (app_assoc w), (app_assoc a). cbn [app].
    rewrite rd_mid' by (rewrite length_app; lia). cbn [mbind option_bind].
    rewrite wr_mid' by (rewrite length_app; lia). cbn [mbind option_bind].
    rewrite <- app_assoc.
    rewrite (u16_small (y * x0)) by nia. rewrite (u16_small (c + _)) by nia.
    by rewrite u16_small by nia. }
  cbn [mbind option_bind]. rewrite <- (app_assoc s). cbn [app].
  destruct (IH (u8 z :: q) s (y :: t) (Z.shiftr z 8)) as (w' & c' & -> & Hl' & Hb & Hc' & Hv);
    [lia|done..| | |].
  { rewrite Z.shiftr_div_pow2 by lia. split; [apply Z.div_pos; nia|].
    apply Z.div_lt_upper_bound; nia. }
  { intros k Hk. apply Hi. lia. }
  exists (w' ++ [u8 z]), c'. split_and!; [by rewrite <- app_assoc| | |lia|lia|].
  - rewrite length_app. simpl. lia.
  - apply bytes_snoc. auto with beam.
  - rewrite !val_snoc, pow256_S. rewrite Z.shiftr_div_pow2 in Hv by lia.
    pose proof (Z.div_mod z (2 ^ 8) ltac:(lia)). unfold u8. subst z. lia.
Qed.

(** One row: [src0[i0]] times [src1] is added at its place, modulo the target size. *)
Lemma _Mul_row_spec src0 src1 (i0 : nat) dst x0 :
  bytes src1 → bytes dst → 0 ≤ x0 < 256 → src0 !! i0 = Some x0 →
  (length src0 ≤ length dst)%nat → (length src1 ≤ length dst)%nat → #dst < 2 ^ 28 →
  ∃ dst', _Mul_row (#src0 + #src1 - #dst - 1) src0 src1 (Z.of_nat i0) dst = Some dst' ∧
    length dst' = length dst ∧ bytes dst' ∧
    ⟦dst'⟧ = (⟦dst⟧ + x0 * ⟦src1⟧ * 256 ^ (#src0 - 1 - Z.of_nat i0)) mod 256 ^ #dst.
Proof.
  intros Hs1 Hd Hx0 Hi0 L0 L1 Hmax. pose proof (lookup_lt_Some _ _ _ Hi0) as Hlt.
  unfold _Mul_row. rewrite rd_lookup, Hi0. cbn [mbind option_bind].
  set (k := (length src0 - 1 - i0)%nat). set (m := (length dst - k)%nat).
  assert (Hm : (0 < m)%nat) by lia.
  replace (#src0 - 1 - Z.of_nat i0) with (Z.of_nat k) by lia.
  replace (Z.of_nat i0 - (#src0 + #src1 - #dst - 1)) with (Z.of_nat m - #src1) by lia.
  destruct (decide (#src1 ≤ Z.of_nat m)) as [Hge|Hneg].
  - (* the row fits: its carry moves on *)
    rewrite u32_small by lia. destruct (Z.ltb_spec #dst (Z.of_nat m - #src1)); [lia|].
    destruct (Z.leb_spec (Z.of_nat m - #src1) #dst); [|lia].
    set (n := (m - length src1)%nat).
    set (a := take n dst). set (w := take (length src1) (drop n dst)). set (q := drop m dst).
    assert (Ed : dst = a ++ w ++ q).
    { unfold a, w, q. rewrite <- (take_drop n dst) at 1. f_equal.
      rewrite <- (take_drop (length src1) (drop n dst)) at 1. f_equal.
      rewrite drop_drop. f_equal. lia. }
    assert (La : length a = n) by (unfold a; rewrite length_take; lia).
    assert (Lw : length w = length src1) by (unfold w; rewrite length_take, length_drop; lia).
    assert (Lq : length q = k) by (unfold q; rewrite length_drop; lia).
    clearbody a w q. subst dst. apply bytes_app in Hd as [Ha Hwq]. apply bytes_app in Hwq as [Hw Hq].
    destruct (_Mul_step_loop a w q [] src1 [] x0 (Z.of_nat m - #src1) 0)
      as (w' & c & E & Lw' & Hw' & Hc & Hv); [lia|done..|lia| |].
    { intros j Hj. simpl. rewrite u32_small by lia. lia. }
    simpl in E. rewrite app_nil_r in E. change (Z.of_nat 0) with 0 in E.
    replace (Z.to_nat (#src1 - 0)) with (length w) by lia. rewrite E. cbn [mbind option_bind].
    replace (Z.to_nat (Z.of_nat m - #src1)) with (length a) by lia.
    destruct (_Mul_carry_spec a (w' ++ q) c Ha Hc) as (a' & j & -> & La' & Ha' & Hva).
    eexists; split; [done|]. split_and!.
    + rewrite !length_app. lia.
    + rewrite !bytes_app. done.
    + rewrite !val_app, !length_app, !Nat2Z.inj_add, !Z.pow_add_r, Lw', Lq by lia.
      apply Z.mod_unique_pos with (q := j).
      * pose proof (val_range (a' ++ w' ++ q)) as R. rewrite !bytes_app in R.
        rewrite !val_app, !length_app, !Nat2Z.inj_add, !Z.pow_add_r, La', Lw', Lq in R by lia.
        apply R. done.
      * nia.
  - (* the row starts before the target: its high part is dropped *)
    rewrite (u32_neg (Z.of_nat m - #src1)) by lia.
    destruct (Z.ltb_spec #dst (Z.of_nat m - #src1 + 2 ^ 32)); [|lia].
    destruct (Z.leb_spec (Z.of_nat m - #src1 + 2 ^ 32) #dst); [lia|].
    set (n := (length src1 - m)%nat).
    assert (Hi1 : u32 (- i32 (Z.of_nat m - #src1 + 2 ^ 32)) = Z.of_nat n).
    { rewrite <- (u32_neg (Z.of_nat m - #src1)) by lia. casts. lia. }
    rewrite Hi1.
    set (w := take m dst). set (q := drop m dst).
    assert (Ed : dst = w ++ q) by (symmetry; apply take_drop).
    assert (Lw : length w = m) by (unfold w; rewrite length_take; lia).
    assert (Lq : length q = k) by (unfold q; rewrite length_drop; lia).
    set (s0 := take n src1). set (s := drop n src1).
    assert (Es : src1 = s0 ++ s) by (symmetry; apply take_drop).
    assert (Ls0 : length s0 = n) by (unfold s0; rewrite length_take; lia).
    assert (Ls : length s = m) by (unfold s; rewrite length_drop; lia).
    clearbody w q s0 s. subst dst src1. apply bytes_app in Hd as [Hw Hq].
    apply bytes_app in Hs1 as [Hs0 Hs].
    destruct (_Mul_step_loop [] w q s0 s [] x0 (Z.of_nat m - #(s0 ++ s) + 2 ^ 32) 0)
      as (w' & c & E & Lw' & Hw' & Hc & Hv); [lia|done..|lia| |].
    { intros j Hj. simpl. rewrite length_app. unfold u32.
      rewrite <- (Z.mod_add _ (-1)) by lia. rewrite Z.mod_small by lia. lia. }
    simpl in E. rewrite app_nil_r in E. rewrite Ls0 in E.
    replace (Z.to_nat (#(s0 ++ s) - Z.of_nat n)) with (length w)
      by (rewrite length_app; lia). rewrite E. cbn [mbind option_bind].
    eexists; split; [done|]. split_and!.
    + rewrite !length_app. lia.
    + rewrite !bytes_app. done.
    + rewrite !val_app, !length_app, !Nat2Z.inj_add, !Z.pow_add_r, Lw, Lq by lia.
      apply Z.mod_unique_pos with (q := c + x0 * ⟦s0⟧).
      * pose proof (val_range (w' ++ q)) as R. rewrite !bytes_app in R.
        rewrite !val_app, !length_app, !Nat2Z.inj_add, !Z.pow_add_r, Lw', Lw, Lq in R by lia.
        apply R. done.
      * rewrite Ls. rewrite Lw in Hv. nia.
Qed.

Lemma drop_cons_lookup {A} (l : list A) i x :
  l !! i = Some x → drop i l = x :: drop (S i) l.
Proof. intros H. by rewrite (drop_S l x i H). Qed.

(** [operator *] and [AssignMul]: the product modulo the size of the target. *)
Lemma _Mul_spec nDst src0 src1 :
  bytes src0 → bytes src1 → Z.of_nat nDst < 2 ^ 28 →
  ∃ dst, _Mul nDst src0 src1 = Some dst ∧ length dst = nDst ∧ bytes dst ∧
    ⟦dst⟧ = (⟦src0⟧ * ⟦src1⟧) mod 256 ^ Z.of_nat nDst.
Proof.
  intros H0 H1 Hmax. unfold _Mul.
  assert (Htr : ∀ s, bytes s → ∃ s', (if (nDst <? length s)%nat then drop (length s - nDst) s else s) = s' ∧
    bytes s' ∧ (length s' ≤ nDst)%nat ∧ ⟦s'⟧ mod 256 ^ Z.of_nat nDst = ⟦s⟧ mod 256 ^ Z.of_nat nDst).
  { intros s Hs. destruct (Nat.ltb_spec nDst (length s)); eexists; split; [done| |done|].
    - split_and!; [auto with beam|rewrite length_drop; lia|].
      rewrite val_drop by done. replace (length s - (length s - nDst))%nat with nDst by lia.
      apply Z.mod_mod. pose proof (pow256_pos nDst). lia.
    - auto with lia. }
  destruct (Htr src0 H0) as (s0 & -> & Hs0 & L0 & V0).
  destruct (Htr src1 H1) as (s1 & -> & Hs1 & L1 & V1). clear Htr.
  pose proof (pow256_pos nDst) as HM.
  rewrite (Z.mul_mod ⟦src0⟧) by lia. rewrite <- V0, <- V1, <- Z.mul_mod by lia.
  assert (i32 (#s0 + #s1 - Z.of_nat nDst - 1) = #s0 + #s1 - Z.of_nat nDst - 1) as ->.
  { destruct (decide (0 ≤ #s0 + #s1 - Z.of_nat nDst - 1)); [apply i32_small|apply i32_neg]; lia. }
  destruct (loop_down_inv (λ i d, length d = nDst ∧ bytes d ∧
      ⟦d⟧ = (⟦drop (Z.to_nat i) s0⟧ * ⟦s1⟧) mod 256 ^ Z.of_nat nDst)
    (_Mul_row (#s0 + #s1 - Z.of_nat nDst - 1) s0 s1) (length s0) (zeros nDst))
    as (d & E & Hl & Hb & Hv).
  - intros i d Hi (Hl & Hb & Hv). destruct (rd_Some s0 i Hi) as (x & _ & Hx).
    destruct (_Mul_row_spec s0 s1 (Z.to_nat i) d x) as (d' & E & Hl' & Hb' & Hv');
      [done..| |done|lia|lia|lia|].
    { eapply Forall_lookup_1 in Hs0; [|done]. done. }
    rewrite Hl, Z2Nat.id in E by lia. exists d'. rewrite Hl in Hl', Hv'. split_and!; [done..|].
    rewrite Hv', Hv. rewrite Z.add_mod_idemp_l by lia. f_equal.
    rewrite (drop_cons_lookup _ _ _ Hx). cbn [val]. rewrite length_drop.
    replace (Z.to_nat (i + 1)) with (S (Z.to_nat i)) by lia.
    replace (Z.of_nat (length s0 - S (Z.to_nat i))) with (#s0 - 1 - Z.of_nat (Z.to_nat i)) by lia.
    lia.
  - rewrite length_zeros, val_zeros, Nat2Z.id, drop_all. split_and!; [done|auto with beam|done].
  - exists d. rewrite E. split_and!; done.
Qed.

(** ** Shifts *)

Lemma memset0_at_spec d pos n :
  0 ≤ pos → 0 ≤ n → pos + n ≤ #d →
  ∃ d', memset0_at d pos n = Some d' ∧ length d' = length d ∧
    ∀ j : nat, d' !! j = if decide (pos ≤ Z.of_nat j < pos + n) then Some 0 else d !! j.
Proof.
  intros. unfold memset0_at. rewrite decide_True by done. eexists. split_and!; [done| |].
  - rewrite !length_app, length_take, length_zeros, length_drop. lia.
  - intros j. case_decide.
    + rewrite lookup_app_r, lookup_app_l; rewrite ?length_take, ?length_zeros; try lia.
      apply lookup_replicate_2. lia.
    + destruct (decide (Z.of_nat j < pos)).
      * rewrite lookup_app_l by (rewrite length_take; lia). apply lookup_take_lt. lia.
      * rewrite !lookup_app_r; rewrite ?length_app, ?length_take, ?length_zeros; try lia.
        rewrite lookup_drop. f_equal. lia.
Qed.

Lemma memmove_at_spec d pd src ps n :
  0 ≤ pd → 0 ≤ ps → 0 ≤ n → pd + n ≤ #d → ps + n ≤ #src →
  ∃ d', memmove_at d pd src ps n = Some d' ∧ length d' = length d ∧
    ∀ j : nat, d' !! j = if decide (pd ≤ Z.of_nat j < pd + n)
                         then src !! Z.to_nat (ps + (Z.of_nat j - pd)) else d !! j.
Proof.
  intros. unfold memmove_at. rewrite decide_True by done. eexists. split_and!; [done| |].
  - rewrite !length_app, !length_take, !length_drop. lia.
  - intros j. case_decide.
    + rewrite lookup_app_r, lookup_app_l; rewrite ?length_take, ?length_drop; try lia.
      rewrite lookup_take_lt by lia. rewrite lookup_drop. f_equal. lia.
    + destruct (decide (Z.of_nat j < pd)).
      * rewrite lookup_app_l by (rewrite length_take; lia). apply lookup_take_lt. lia.
      * rewrite !lookup_app_r; rewrite ?length_take, ?length_drop; try lia.
        rewrite lookup_drop. f_equal. lia.
Qed.

(** A digit of a number shifted right by [n]. *)
Lemma digit_shr V n e : 0 ≤ n → 0 ≤ e → digit (V / 2 ^ n) e = (V / 2 ^ (8 * e + n)) mod 256.
Proof.
  intros. unfold digit. rewrite Z.div_div by (apply Z.pow_nonzero || apply Z.pow_pos_nonneg; lia).
  do 2 f_equal. rewrite (Z.add_comm _ n), Z.pow_add_r, Z.pow_mul_r by lia. done.
Qed.

(** A byte of the right shift, from a byte and the byte before it. *)
Lemma shr_byte x y b :
  0 ≤ x < 256 → 0 ≤ y → 0 < b < 8 →
  u8 (Z.lor (Z.shiftr x b) (Z.shiftl y (8 - b))) = ((256 * y + x) / 2 ^ b) mod 256.
Proof.
  intros Hx Hy Hb. assert (0 < 2 ^ b) by (apply Z.pow_pos_nonneg; lia).
  assert (Hp : 256 = 2 ^ (8 - b) * 2 ^ b)
    by (rewrite <- Z.pow_add_r by lia; by replace (8 - b + b) with 8 by lia).
  assert (0 ≤ x / 2 ^ b < 2 ^ (8 - b))
    by (split; [apply Z.div_pos; lia|apply Z.div_lt_upper_bound; lia]).
  rewrite Z.shiftr_div_pow2, lor_add by lia.
  unfold u8. change (2 ^ 8) with 256. f_equal.
  replace (256 * y + x) with (y * 2 ^ (8 - b) * 2 ^ b + x)
    by (replace (y * 2 ^ (8 - b) * 2 ^ b) with (y * (2 ^ (8 - b) * 2 ^ b)) by ring; rewrite <- Hp; ring).
  by rewrite Z.div_add_l by lia.
Qed.

(** The byte that the right-shift loop stores at [i]. *)
Lemma _ShiftRight_step_spec src pDst pSrc nDst nSrc b i d :
  bytes src → 0 < b < 8 → 0 ≤ pDst → 0 ≤ i < nDst → pSrc = nSrc - nDst → 0 ≤ pSrc →
  nSrc ≤ #src → #src < 2 ^ 28 →
  _ShiftRight_step src pDst pSrc nDst nSrc b i d
  = wr d (pDst + i) ((⟦src⟧ / 2 ^ (8 * (#src - 1 - (pSrc + i)) + b)) mod 256).
Proof.
  intros Hs Hb HpD Hi HpS HpS0 HnS Hmax. unfold _ShiftRight_step.
  destruct (rd_Some src (pSrc + i)) as (x & -> & Hx); [lia|]. cbn [mbind option_bind].
  pose proof (Forall_lookup_1 _ _ _ _ Hs Hx) as Hxb. simpl in Hxb.
  apply digit_lookup in Hx; [|done]. rewrite Z2Nat.id in Hx by lia.
  pose proof (val_range src Hs) as RS.
  destruct (Z.ltb_spec nDst (nSrc + i)).
  - replace (i32 (i - 1)) with (i - 1) by (symmetry; destruct (decide (i = 0));
      [apply i32_neg|apply i32_small]; lia).
    destruct (rd_Some src (pSrc + (i - 1))) as (y & -> & Hy); [lia|]. cbn [mbind option_bind].
    pose proof (Forall_lookup_1 _ _ _ _ Hs Hy) as Hyb. simpl in Hyb.
    apply digit_lookup in Hy; [|done]. rewrite Z2Nat.id in Hy by lia.
    rewrite (wr_rd_wr d (pDst + i) _ (λ v, u8 (Z.lor v (Z.shiftl y (8 - b))))).
    f_equal. rewrite shr_byte by lia. subst x y. rewrite <- digit_shift by lia.
    by replace (#src - 1 - (pSrc + (i - 1))) with (#src - 1 - (pSrc + i) + 1) by lia.
  - assert (i = 0 ∧ pSrc = 0) as [-> ->] by lia.
    rewrite <- digit_shift by lia.
    rewrite (digit_beyond _ (#src - 1 - (0 + 0) + 1) #src) by lia.
    rewrite <- Hx, Z.mul_0_r, Z.add_0_l. rewrite Z.shiftr_div_pow2 by lia.
    rewrite Z.mod_small; [by destruct (wr d (pDst + 0) (x / 2 ^ b))|].
    split; [apply Z.div_pos; [lia|apply Z.pow_pos_nonneg; lia]|].
    apply Z.div_lt_upper_bound; [apply Z.pow_pos_nonneg; lia|].
    pose proof (Z.pow_pos_nonneg 2 b). nia.
Qed.

Lemma _ShiftRight_spec dst src n :
  bytes src → 0 ≤ n → #src < 2 ^ 28 →
  ∃ d, _ShiftRight dst src n = Some d ∧ length d = length dst ∧ bytes d ∧
    ⟦d⟧ = (⟦src⟧ / 2 ^ n) mod 256 ^ #dst.
Proof.
  intros Hs Hn Hmax. unfold _ShiftRight. pose proof (val_range src Hs) as RS.
  rewrite !Z.shiftr_div_pow2 by lia. change (2 ^ 3) with 8.
  change 7 with (Z.ones 3). rewrite Z.land_ones by lia. change (2 ^ 3) with 8.
  pose proof (Z.div_mod n 8 ltac:(lia)). pose proof (Z.mod_pos_bound n 8 ltac:(lia)).
  set (nB := n / 8) in *. set (b := n mod 8) in *.
  destruct (Z.leb_spec #src nB).
  - (* everything is shifted out *)
    replace ((⟦src⟧ / 2 ^ n) mod 256 ^ #dst) with 0.
    2:{ rewrite (Z.div_small ⟦src⟧); [done|]. split; [lia|].
        apply Z.lt_le_trans with (256 ^ #src); [lia|]. rewrite pow256_2.
        apply Z.pow_le_mono_r; lia. }
    assert (Hz : ∀ d pDst, length d = length dst → pDst = #dst →
      ∃ d', memset0_at d 0 pDst = Some d' ∧ length d' = length dst ∧ bytes d' ∧ ⟦d'⟧ = 0).
    { intros d pDst Hl ->. unfold memset0_at. rewrite decide_True by lia.
      eexists; split; [done|]. rewrite Z.add_0_l, <- Hl, !Nat2Z.id, drop_all, app_nil_r. simpl.
      rewrite length_zeros, val_zeros. auto with beam. }
    destruct (Z.ltb_spec 0 #dst); cbn [negb Z.eqb];
      (destruct (memmove_at_spec dst (if 0 <? #dst then #dst - 0 else 0) src 0 0) as (d & E & Hl & _);
       [destruct (Z.ltb_spec 0 #dst); lia..|]).
    + destruct (Z.ltb_spec 0 #dst); [|lia]. rewrite E. cbn [mbind option_bind].
      apply Hz; [done|lia].
    + destruct (Z.ltb_spec 0 #dst); [lia|]. replace (0 - #dst) with 0 by lia.
      replace (#dst) with 0 by lia. rewrite E. cbn [mbind option_bind]. apply Hz; [done|lia].
  - set (nS := #src - nB).
    set (pD := Z.max 0 (#dst - nS)). set (nD := Z.min #dst nS). set (pS := nS - nD).
    assert ((if nS <? #dst then (#dst - nS, nS, 0) else (0, #dst, nS - #dst)) = (pD, nD, pS)) as ->.
    { unfold pD, nD, pS. destruct (Z.ltb_spec nS #dst); f_equal; [f_equal; lia|lia|f_equal; lia|lia]. }
    assert (∃ d, (if negb (b =? 0) then
         loop_down (Z.to_nat nD) (_ShiftRight_step src pD pS nD nS b) dst
         else memmove_at dst pD src pS nD) = Some d ∧ length d = length dst ∧
       ∀ j : nat, pD ≤ Z.of_nat j < #dst →
         d !! j = Some ((⟦src⟧ / 2 ^ (8 * (#src - 1 - (pS + (Z.of_nat j - pD))) + b)) mod 256))
      as (d & -> & Hl & Hd).
    { destruct (Z.eqb_spec b 0) as [Hb|Hb]; cbn [negb].
      - destruct (memmove_at_spec dst pD src pS nD) as (d & -> & Hl & Hd); [lia..|].
        eexists; split_and!; [done..|]. intros j Hj. rewrite Hd, decide_True by lia.
        destruct (lookup_lt_is_Some_2 src (Z.to_nat (pS + (Z.of_nat j - pD)))) as [x Hx]; [lia|].
        rewrite Hx. f_equal. apply digit_lookup in Hx; [|done]. rewrite Hx. unfold digit.
        rewrite Z2Nat.id by lia. rewrite Hb, Z.add_0_r, Z.pow_mul_r by lia. done.
      - destruct (loop_down_fill
          (λ i, (⟦src⟧ / 2 ^ (8 * (#src - 1 - (pS + i)) + b)) mod 256)
          (_ShiftRight_step src pD pS nD nS b) pD (Z.to_nat nD) dst) as (d & -> & Hl & Hd); [lia..| |].
        { intros i d' Hi Hl. apply _ShiftRight_step_spec; try lia. done. }
        eexists; split_and!; [done..|]. intros j Hj. by rewrite Hd, decide_True by lia. }
    cbn [mbind option_bind].
    destruct (memset0_at_spec d 0 pD) as (d' & -> & Hl' & Hd'); [lia..|].
    exists d'. split; [done|]. split; [lia|].
    destruct (val_digits (⟦src⟧ / 2 ^ n) d') as [Hb' Hv'].
    + intros j Hj. rewrite Hd', Z.add_0_l. rewrite digit_shr by lia. case_decide.
      * f_equal. rewrite Z.div_small; [done|]. split; [lia|].
        apply Z.lt_le_trans with (256 ^ #src); [lia|]. rewrite pow256_2.
        apply Z.pow_le_mono_r; lia.
      * rewrite Hd by lia. do 4 f_equal. lia.
    + split; [done|]. rewrite Hv'. do 3 f_equal. lia.
Qed.

(** A digit of a number shifted left by less than a byte. *)
Lemma digit_shl V b e :
  0 ≤ V → 0 < b < 8 → 1 ≤ e →
  digit (V * 2 ^ b) e = ((256 * digit V e + digit V (e - 1)) / 2 ^ (8 - b)) mod 256.
Proof.
  intros HV Hb He. replace e with (e - 1 + 1) at 2 by lia. rewrite digit_shift by lia.
  unfold digit. f_equal. replace (256 ^ e) with (2 ^ (8 * (e - 1) + (8 - b)) * 2 ^ b).
  - apply Z.div_mul_cancel_r; apply Z.pow_nonzero; lia.
  - rewrite <- Z.pow_add_r by lia. replace 256 with (2 ^ 8) by done.
    rewrite <- Z.pow_mul_r by lia. f_equal. lia.
Qed.

Lemma digit_shl0 V b : 0 ≤ b → digit (V * 2 ^ b) 0 = (digit V 0 * 2 ^ b) mod 256.
Proof.
  intros. unfold digit. rewrite Z.pow_0_r, !Z.div_1_r.
  by rewrite <- Z.mul_mod_idemp_l by lia.
Qed.

(** Shifting by whole bytes moves the digits. *)
Lemma digit_shl_bytes V n k e : 0 ≤ n → 0 ≤ k → k ≤ e → digit (V * 2 ^ (8 * k + n)) e = digit (V * 2 ^ n) (e - k).
Proof.
  intros. unfold digit. f_equal.
  replace (256 ^ e) with (256 ^ (e - k) * 256 ^ k) by (rewrite <- Z.pow_add_r by lia; f_equal; lia).
  rewrite Z.pow_add_r, Z.pow_mul_r by lia. change (2 ^ 8) with 256.
  replace (V * (256 ^ k * 2 ^ n)) with (V * 2 ^ n * 256 ^ k) by ring.
  apply Z.div_mul_cancel_r; apply Z.pow_nonzero; lia.
Qed.

Lemma digit_shl_low V n e : 0 ≤ e → 8 * (e + 1) ≤ n → digit (V * 2 ^ n) e = 0.
Proof.
  intros. unfold digit.
  replace (V * 2 ^ n) with (V * 2 ^ (n - 8 * (e + 1)) * 256 * 256 ^ e).
  - rewrite Z.div_mul by (apply Z.pow_nonzero; lia). apply Z.mod_mul. lia.
  - replace 256 with (2 ^ 8) by done. rewrite <- Z.pow_mul_r by lia.
    rewrite <- !Z.mul_assoc. f_equal. rewrite <- !Z.pow_add_r by lia. f_equal. lia.
Qed.

(** A byte of the left shift, from a byte and the byte after it. *)
Lemma shl_byte x y b :
  0 ≤ x → 0 ≤ y < 256 → 0 < b < 8 →
  u8 (Z.lor (u8 (Z.shiftl x b)) (Z.shiftr y (8 - b))) = ((256 * x + y) / 2 ^ (8 - b)) mod 256.
Proof.
  intros Hx Hy Hb. assert (0 < 2 ^ b) by (apply Z.pow_pos_nonneg; lia).
  assert (0 < 2 ^ (8 - b)) by (apply Z.pow_pos_nonneg; lia).
  assert (Hp : 256 = 2 ^ b * 2 ^ (8 - b))
    by (rewrite <- Z.pow_add_r by lia; by replace (b + (8 - b)) with 8 by lia).
  assert (0 ≤ y / 2 ^ (8 - b) < 2 ^ b)
    by (split; [apply Z.div_pos; lia|apply Z.div_lt_upper_bound; lia]).
  assert (E : u8 (Z.shiftl x b) = Z.shiftl (x mod 2 ^ (8 - b)) b).
  { unfold u8. change (2 ^ 8) with 256. rewrite !Z.shiftl_mul_pow2 by lia.
    rewrite Hp, (Z.mul_comm (2 ^ b)). apply Z.mul_mod_distr_r; lia. }
  rewrite E, Z.shiftr_div_pow2, Z.lor_comm, lor_add by lia.
  unfold u8. change (2 ^ 8) with 256.
  replace (256 * x + y) with (x * 2 ^ b * 2 ^ (8 - b) + y)
    by (replace (x * 2 ^ b * 2 ^ (8 - b)) with (x * (2 ^ b * 2 ^ (8 - b))) by ring; rewrite <- Hp; ring).
  rewrite Z.div_add_l by lia. rewrite (Z.div_mod x (2 ^ (8 - b))) at 2 by lia.
  replace ((2 ^ (8 - b) * (x / 2 ^ (8 - b)) + x mod 2 ^ (8 - b)) * 2 ^ b + y / 2 ^ (8 - b))
    with (x mod 2 ^ (8 - b) * 2 ^ b + y / 2 ^ (8 - b) + (x / 2 ^ (8 - b)) * (2 ^ b * 2 ^ (8 - b))) by ring.
  rewrite <- Hp. by rewrite Z.mod_add by lia.
Qed.

(** The byte that the left-shift loop stores at [i]. *)
Lemma _ShiftLeft_step_spec src pDst pSrc nSrc b i d :
  bytes src → 0 < b < 8 → 0 ≤ i < nSrc → 0 ≤ pSrc → pSrc + nSrc = #src →
  _ShiftLeft_step src pDst pSrc nSrc b i d = wr d (pDst + i) (digit (⟦src⟧ * 2 ^ b) (nSrc - 1 - i)).
Proof.
  intros Hs Hb Hi HpS HnS. unfold _ShiftLeft_step.
  destruct (rd_Some src (pSrc + i)) as (x & -> & Hx); [lia|]. cbn [mbind option_bind].
  pose proof (Forall_lookup_1 _ _ _ _ Hs Hx) as Hxb. simpl in Hxb.
  apply digit_lookup in Hx; [|done]. rewrite Z2Nat.id in Hx by lia.
  replace (#src - 1 - (pSrc + i)) with (nSrc - 1 - i) in Hx by lia.
  pose proof (val_range src Hs) as RS. destruct (Z.ltb_spec (i + 1) nSrc).
  - destruct (rd_Some src (pSrc + (i + 1))) as (y & -> & Hy); [lia|]. cbn [mbind option_bind].
    pose proof (Forall_lookup_1 _ _ _ _ Hs Hy) as Hyb. simpl in Hyb.
    apply digit_lookup in Hy; [|done]. rewrite Z2Nat.id in Hy by lia.
    rewrite (wr_rd_wr d (pDst + i) _ (λ v, u8 (Z.lor v (Z.shiftr y (8 - b))))).
    f_equal. rewrite shl_byte by lia. rewrite digit_shl by lia. subst x y.
    by replace (#src - 1 - (pSrc + (i + 1))) with (nSrc - 1 - i - 1) by lia.
  - replace (nSrc - 1 - i) with 0 in * by lia. rewrite digit_shl0, <- Hx by lia.
    rewrite Z.shiftl_mul_pow2 by lia. by destruct (wr d (pDst + i) _).
Qed.

(** The part of [_ShiftLeft] before the low bytes are cleared fills the first [nDst]
    bytes with the source shifted by less than a byte. *)
Lemma _ShiftLeft_body (dst src : list Z) nDst b pDst pSrc nSrc (d : list Z) :
  bytes src → 0 ≤ b < 8 → 0 ≤ nDst ≤ #dst → length d = length dst →
  nSrc = Z.min nDst #src → pDst = nDst - nSrc → pSrc = #src - nSrc →
  (∀ j : nat, Z.of_nat j < pDst → d !! j = Some 0) →
  ∃ d', (if negb (b =? 0) then
         if negb (nSrc =? 0) then
           d ← (if nSrc <? nDst then
                  x ← rd src pSrc; wr d (pDst - 1) (Z.shiftr x (8 - b))
                else Some d);
           loop_up (Z.to_nat nSrc) 0 (_ShiftLeft_step src pDst pSrc nSrc b) d
         else Some d
       else memmove_at d pDst src pSrc nSrc) = Some d' ∧ length d' = length dst ∧
    ∀ j : nat, Z.of_nat j < nDst → d' !! j = Some (digit (⟦src⟧ * 2 ^ b) (nDst - 1 - Z.of_nat j)).
Proof.
  intros Hs Hb HnD Hl -> -> -> Hz. set (nS := Z.min nDst #src).
  pose proof (val_range src Hs) as RS.
  assert (Hhigh : ∀ e, #src < e → digit (⟦src⟧ * 2 ^ b) e = 0).
  { intros e He. apply digit_beyond with (n := #src + 1); [|lia]. split; [lia|].
    rewrite Z.pow_add_r by lia. apply Z.mul_lt_mono_nonneg; [lia|lia|apply Z.pow_nonneg; lia|].
    change (256 ^ 1) with (2 ^ 8). apply Z.pow_lt_mono_r; lia. }
  destruct (Z.eqb_spec b 0) as [->|Hb0]; cbn [negb].
  - destruct (memmove_at_spec d (nDst - nS) src (#src - nS) nS) as (d' & -> & Hl' & Hd'); [lia..|].
    exists d'. split_and!; [done|lia|]. intros j Hj. rewrite Hd', Z.mul_1_r. case_decide.
    + destruct (lookup_lt_is_Some_2 src (Z.to_nat (#src - nS + (Z.of_nat j - (nDst - nS))))) as [x Hx]; [lia|].
      rewrite Hx. f_equal. apply digit_lookup in Hx; [|done]. rewrite Hx. f_equal. lia.
    + rewrite Hz by lia. f_equal. symmetry. apply digit_beyond with (n := #src); lia.
  - destruct (Z.eqb_spec nS 0) as [E0|E0]; cbn [negb].
    { exists d. split_and!; [done..|]. intros j Hj. rewrite Hz by lia. f_equal.
      assert (#src = 0) as E by lia. rewrite E in RS. replace ⟦src⟧ with 0 by (simpl in RS; lia).
      unfold digit. by rewrite Z.mul_0_l, Z.div_0_l by (apply Z.pow_nonzero; lia). }
    assert (∃ d1, (if nS <? nDst then x ← rd src (#src - nS); wr d (nDst - nS - 1) (Z.shiftr x (8 - b))
        else Some d) = Some d1 ∧ length d1 = length d ∧
      ∀ j : nat, Z.of_nat j < nDst - nS → d1 !! j = Some (digit (⟦src⟧ * 2 ^ b) (nDst - 1 - Z.of_nat j)))
      as (d1 & -> & Hl1 & Hd1).
    { destruct (Z.ltb_spec nS nDst).
      - replace (#src - nS) with 0 by lia.
        destruct (rd_Some src 0) as (x & -> & Hx); [lia|]. cbn [mbind option_bind].
        pose proof (Forall_lookup_1 _ _ _ _ Hs Hx) as Hxb. simpl in Hxb.
        rewrite wr_Some by lia. eexists; split; [done|]. rewrite length_insert. split; [done|].
        intros j Hj. destruct (decide (Z.of_nat j = nDst - nS - 1)).
        + replace (Z.to_nat (nDst - nS - 1)) with j by lia. rewrite list_lookup_insert_eq by lia.
          f_equal. replace (nDst - 1 - Z.of_nat j) with (#src) by lia. rewrite digit_shl by lia.
          rewrite (digit_beyond _ (#src) (#src)) by lia.
          apply digit_lookup in Hx; [|done]. replace (#src - 1 - Z.of_nat (Z.to_nat 0)) with (#src - 1) in Hx by lia.
          rewrite <- Hx, Z.mul_0_r, Z.add_0_l, Z.shiftr_div_pow2 by lia.
          symmetry. apply Z.mod_small. assert (0 < 2 ^ (8 - b)) by (apply Z.pow_pos_nonneg; lia).
          split; [apply Z.div_pos; lia|]. apply Z.div_lt_upper_bound; nia.
        + rewrite list_lookup_insert_ne by lia. rewrite Hz by lia. f_equal. symmetry. apply Hhigh. lia.
      - eexists; split_and!; [done..|]. lia. }
    cbn [mbind option_bind].
    destruct (loop_up_fill (λ i, digit (⟦src⟧ * 2 ^ b) (nS - 1 - i))
      (_ShiftLeft_step src (nDst - nS) (#src - nS) nS b) (nDst - nS) (Z.to_nat nS) d1)
      as (d' & -> & Hl' & Hd'); [lia..| |].
    { intros i d' Hi _. apply _ShiftLeft_step_spec; try lia. done. }
    exists d'. split_and!; [done|lia|]. intros j Hj. rewrite Hd'. case_decide.
    + f_equal. f_equal. lia.
    + apply Hd1. lia.
Qed.

Lemma _ShiftLeft_spec dst src n :
  bytes src → 0 ≤ n →
  ∃ d, _ShiftLeft dst src n = Some d ∧ length d = length dst ∧ bytes d ∧
    ⟦d⟧ = (⟦src⟧ * 2 ^ n) mod 256 ^ #dst.
Proof.
  intros Hs Hn. unfold _ShiftLeft.
  rewrite !Z.shiftr_div_pow2 by lia. change (2 ^ 3) with 8.
  change 7 with (Z.ones 3). rewrite Z.land_ones by lia. change (2 ^ 3) with 8.
  pose proof (Z.div_mod n 8 ltac:(lia)). pose proof (Z.mod_pos_bound n 8 ltac:(lia)).
  set (nDst := Z.max 0 (#dst - n / 8)).
  set (b := if #dst <=? n / 8 then 0 else n mod 8).
  assert (0 ≤ b < 8) by (unfold b; destruct (Z.leb_spec #dst (n / 8)); lia).
  assert ((if #dst <=? n / 8 then (#dst, 0, 0) else (n / 8, #dst - n / 8, n mod 8))
          = (#dst - nDst, nDst, b)) as ->.
  { unfold nDst, b. destruct (Z.leb_spec #dst (n / 8)); f_equal; f_equal; lia. }
  set (nS := Z.min nDst #src).
  assert (∃ d, (if nDst <? #src then Some (dst, 0, #src - nDst, nDst)
     else d ← memset0_at dst 0 (nDst - #src); Some (d, nDst - #src, 0, #src))
    = Some (d, nDst - nS, #src - nS, nS) ∧ length d = length dst ∧
      ∀ j : nat, Z.of_nat j < nDst - nS → d !! j = Some 0) as (d & -> & Hl & Hz).
  { destruct (Z.ltb_spec nDst #src).
    - exists dst. split_and!; [|done|lia]. replace nS with nDst by lia. do 4 f_equal; lia.
    - destruct (memset0_at_spec dst 0 (nDst - #src)) as (d & -> & Hl & Hd); [lia..|].
      exists d. cbn [mbind option_bind]. split_and!; [|done|].
      + replace nS with (#src) by lia. do 3 f_equal. lia.
      + intros j Hj. by rewrite Hd, decide_True by lia. }
  cbn [mbind option_bind].
  destruct (_ShiftLeft_body dst src nDst b (nDst - nS) (#src - nS) nS d) as (d' & -> & Hl' & Hd');
    [done|lia|lia|done..|]. cbn [mbind option_bind].
  destruct (memset0_at_spec d' nDst (#dst - nDst)) as (d2 & -> & Hl2 & Hd2); [lia..|].
  exists d2. split; [done|]. split; [lia|].
  destruct (val_digits (⟦src⟧ * 2 ^ n) d2) as [Hb' Hv'].
  - intros j Hj. rewrite Hd2. case_decide.
    + f_equal. symmetry. apply digit_shl_low; lia.
    + rewrite Hd' by lia. f_equal. unfold b in *. destruct (Z.leb_spec #dst (n / 8)); [lia|].
      replace n with (8 * (n / 8) + n mod 8) at 2 by lia. rewrite digit_shl_bytes by lia.
      f_equal. lia.
  - split; [done|]. rewrite Hv'. do 3 f_equal. lia.
Qed.

(** ** Division *)

Lemma val_insert b i x v :
  b !! i = Some x → ⟦<[i := v]> b⟧ = ⟦b⟧ + (v - x) * 256 ^ (#b - 1 - Z.of_nat i).
Proof.
  intros H. pose proof (list_elem_of_split_length _ _ _ H) as (p & q & -> & ->).
  rewrite insert_app_r_alt, Nat.sub_diag by done. cbn [insert list_insert].
  rewrite !val_app, length_app. cbn [val length].
  replace (Z.of_nat (length p + S (length q)) - 1 - #p) with (#q) by lia. ring.
Qed.

(** A bit below which the number is zero is set by an addition. *)
Lemma set_bit_spec dst s :
  bytes dst → 0 ≤ s < 8 * #dst → ⟦dst⟧ mod 2 ^ (s + 1) = 0 →
  ∃ d, set_bit dst s = Some d ∧ length d = length dst ∧ bytes d ∧ ⟦d⟧ = ⟦dst⟧ + 2 ^ s.
Proof.
  intros Hd Hs Hz. unfold set_bit. rewrite Z.shiftr_div_pow2 by lia. change (2 ^ 3) with 8.
  rewrite Z.land_comm. change 7 with (Z.ones 3). rewrite Z.land_ones by lia. change (2 ^ 3) with 8.
  pose proof (Z.div_mod s 8 ltac:(lia)). pose proof (Z.mod_pos_bound s 8 ltac:(lia)).
  set (q := s / 8) in *. set (k := s mod 8) in *.
  destruct (rd_Some dst (#dst - q - 1)) as (x & -> & Hx); [lia|]. cbn [mbind option_bind].
  pose proof (Forall_lookup_1 _ _ _ _ Hd Hx) as Hxb. simpl in Hxb.
  pose proof (digit_lookup _ _ _ Hd Hx) as Hxd. rewrite Z2Nat.id in Hxd by lia.
  replace (#dst - 1 - (#dst - q - 1)) with q in Hxd by lia.
  assert (∃ m, x = m * 2 ^ (k + 1)) as [m Hm].
  { apply Z.mod_divide in Hz as [m Hm]; [|apply Z.pow_nonzero; lia]. unfold digit in Hxd.
    replace (s + 1) with (8 * q + (k + 1)) in Hm by lia.
    rewrite Z.pow_add_r, Z.pow_mul_r in Hm by lia. change (2 ^ 8) with 256 in Hm.
    replace (m * (256 ^ q * 2 ^ (k + 1))) with (m * 2 ^ (k + 1) * 256 ^ q) in Hm by ring.
    rewrite Hm, Z.div_mul in Hxd by (apply Z.pow_nonzero; lia).
    replace 256 with (2 ^ (7 - k) * 2 ^ (k + 1)) in Hxd
      by (rewrite <- Z.pow_add_r by lia; by replace (7 - k + (k + 1)) with 8 by lia).
    rewrite Z.mul_mod_distr_r in Hxd by (apply Z.pow_nonzero; lia). eauto. }
  assert (0 < 2 ^ k) by (apply Z.pow_pos_nonneg; lia).
  assert (Z.lor x (Z.shiftl 1 k) = x + 2 ^ k) as ->.
  { rewrite Z.lor_comm, Hm, <- Z.shiftl_mul_pow2 by lia. rewrite lor_add; [|lia|].
    - rewrite !Z.shiftl_mul_pow2 by lia. lia.
    - rewrite Z.shiftl_mul_pow2, Z.pow_add_r by lia. lia. }
  assert (x + 2 ^ k < 256).
  { replace 256 with (2 ^ (7 - k) * 2 ^ (k + 1)) in *
      by (rewrite <- Z.pow_add_r by lia; by replace (7 - k + (k + 1)) with 8 by lia).
    assert (m < 2 ^ (7 - k)).
    { apply Z.mul_lt_mono_pos_r with (2 ^ (k + 1)); [apply Z.pow_pos_nonneg|]; lia. }
    rewrite Hm, Z.pow_add_r, Z.pow_1_r by lia. nia. }
  rewrite u8_small by lia. rewrite wr_Some by lia. eexists; split; [done|].
  rewrite length_insert. split; [done|]. split.
  - apply Forall_insert; [done|lia].
  - rewrite (val_insert _ _ _ _ Hx). rewrite Z2Nat.id by lia. f_equal.
    replace (#dst - 1 - (#dst - q - 1)) with q by lia.
    replace s with (k + 8 * q) by lia. rewrite Z.pow_add_r, Z.pow_mul_r by lia.
    change (2 ^ 8) with 256. lia.
Qed.

Lemma _Div_step_spec a b s dst mul tmp :
  bytes a → bytes b → bytes dst → bytes mul → bytes tmp →
  length mul = length a → length tmp = length a →
  0 ≤ s < 8 * #dst → ⟦dst⟧ mod 2 ^ (s + 1) = 0 → ⟦b⟧ * 2 ^ s < 256 ^ #a →
  ∃ dst' mul' tmp', _Div_step a b s (dst, mul, tmp) = Some (dst', mul', tmp') ∧
    bytes dst' ∧ bytes mul' ∧ bytes tmp' ∧ length dst' = length dst ∧
    length mul' = length a ∧ length tmp' = length a ∧
    (if ⟦mul⟧ + ⟦b⟧ * 2 ^ s <=? ⟦a⟧
     then ⟦dst'⟧ = ⟦dst⟧ + 2 ^ s ∧ ⟦mul'⟧ = ⟦mul⟧ + ⟦b⟧ * 2 ^ s
     else ⟦dst'⟧ = ⟦dst⟧ ∧ ⟦mul'⟧ = ⟦mul⟧).
Proof.
  intros Ha Hb Hd Hm Ht Lm Lt Hs Hz Hfit. unfold _Div_step.
  pose proof (val_range a Ha) as RA. pose proof (val_range mul Hm) as RM. rewrite Lm in RM.
  pose proof (val_range b Hb). assert (0 < 2 ^ s) by (apply Z.pow_pos_nonneg; lia).
  destruct (_ShiftLeft_spec tmp b s Hb) as (t1 & -> & Lt1 & Ht1 & Vt1); [lia|]. cbn [mbind option_bind].
  rewrite Lt, Z.mod_small in Vt1 by nia.
  destruct (_Inc_sized_spec t1 mul Ht1 Hm) as (t2 & c & -> & Lt2 & Ht2 & Hc & Vt2). cbn [mbind option_bind].
  rewrite Lt1, Lt, Vt1, (Z.mod_small ⟦mul⟧) in Vt2 by lia.
  pose proof (val_range t2 Ht2) as RT. rewrite Lt2, Lt1, Lt in RT.
  rewrite !_Cmp_spec by done.
  destruct (Z.leb_spec (⟦mul⟧ + ⟦b⟧ * 2 ^ s) ⟦a⟧).
  - assert (c = 0) as -> by nia.
    destruct (Z.ltb_spec ⟦mul⟧ ⟦t2⟧), (Z.ltb_spec ⟦t2⟧ ⟦mul⟧); try nia;
    destruct (Z.ltb_spec ⟦a⟧ ⟦t2⟧); try nia; destruct (Z.ltb_spec ⟦t2⟧ ⟦a⟧); cbn [Z.ltb Z.compare];
    destruct (set_bit_spec dst s Hd Hs Hz) as (d & -> & Ld & Hdb & Vd);
    cbn [mbind option_bind]; do 3 eexists; split_and!; try done; try lia.
  - assert ((0 <? (if ⟦mul⟧ <? ⟦t2⟧ then -1 else if ⟦t2⟧ <? ⟦mul⟧ then 1 else 0)) = true ∨
            (if ⟦a⟧ <? ⟦t2⟧ then -1 else if ⟦t2⟧ <? ⟦a⟧ then 1 else 0) <? 0 = true) as [->| ->].
    { destruct Hc as [->| ->].
      - right. destruct (Z.ltb_spec ⟦a⟧ ⟦t2⟧); [done|nia].
      - left. destruct (Z.ltb_spec ⟦mul⟧ ⟦t2⟧); [nia|]. destruct (Z.ltb_spec ⟦t2⟧ ⟦mul⟧); [done|nia]. }
    + do 3 eexists; split_and!; try done; lia.
    + case_match; do 3 eexists; split_and!; try done; lia.
Qed.

(** The shift the division starts from. *)
Definition _Div_top (nDst : nat) (a b : list Z) : Z :=
  Z.min (8 * #a - _GetOrder b) (8 * Z.of_nat nDst - 1).

Lemma _Div_loop nDst a b tmp :
  bytes a → bytes b → bytes tmp → length tmp = length a → (0 < nDst)%nat →
  #a < 2 ^ 28 → #b < 2 ^ 28 → _GetOrder b ≤ 8 * #a →
  ∃ q mul, _Div nDst a b tmp = Some (q, mul) ∧ bytes q ∧ bytes mul ∧
    length q = nDst ∧ length mul = length a ∧ ⟦mul⟧ = ⟦b⟧ * ⟦q⟧ ∧ ⟦mul⟧ ≤ ⟦a⟧ ∧
    (⟦a⟧ < ⟦b⟧ * (⟦q⟧ + 1) ∨ ⟦q⟧ + 1 = 2 ^ (_Div_top nDst a b + 1)).
Proof.
  intros Ha Hb Ht Lt Hn La Lb Hord. unfold _Div. set (N := _Div_top nDst a b).
  pose proof (val_range a Ha) as RA. pose proof (val_range b Hb) as RB.
  assert (HO : ⟦b⟧ < 2 ^ _GetOrder b ∧ 0 ≤ _GetOrder b).
  { rewrite _GetOrder_spec by (done || lia). destruct (Z.eqb_spec ⟦b⟧ 0) as [->|]; [done|].
    pose proof (Z.log2_spec ⟦b⟧ ltac:(lia)). pose proof (Z.log2_nonneg ⟦b⟧).
    replace (Z.log2 ⟦b⟧ + 1) with (Z.succ (Z.log2 ⟦b⟧)) by lia. lia. }
  rewrite !Z.shiftl_mul_pow2 by lia. change (2 ^ 3) with 8.
  destruct (Z.ltb_spec (#a * 8) (_GetOrder b)); [lia|].
  assert (HN : 1 + Z.min (#a * 8 - _GetOrder b) (Z.of_nat nDst * 8 - 1) = N + 1)
    by (unfold N, _Div_top; lia). rewrite HN.
  assert (HN0 : 0 ≤ N) by (unfold N, _Div_top; lia).
  destruct (loop_down_inv (λ s '(dst, mul, tmp),
      bytes dst ∧ bytes mul ∧ bytes tmp ∧ length dst = nDst ∧ length mul = length a ∧
      length tmp = length a ∧ ⟦mul⟧ = ⟦b⟧ * ⟦dst⟧ ∧ ⟦mul⟧ ≤ ⟦a⟧ ∧ ⟦dst⟧ mod 2 ^ s = 0 ∧
      (⟦a⟧ < ⟦b⟧ * (⟦dst⟧ + 2 ^ s) ∨ ⟦dst⟧ + 2 ^ s = 2 ^ (N + 1)))
    (_Div_step a b) (Z.to_nat (N + 1)) (zeros nDst, zeros (length a), tmp))
    as ([[q mul] t] & -> & I).
  - intros s [[dst mul] t] Hs (Id & Im & It & Ld & Lm & Ltt & Vm & Hle & Hz & Hdis).
    assert (Hfit : ⟦b⟧ * 2 ^ s < 256 ^ #a).
    { rewrite pow256_2. apply Z.lt_le_trans with (2 ^ _GetOrder b * 2 ^ s).
      - apply Z.mul_lt_mono_pos_r; [apply Z.pow_pos_nonneg|]; lia.
      - rewrite <- Z.pow_add_r by lia. apply Z.pow_le_mono_r; unfold N, _Div_top in *; lia. }
    destruct (_Div_step_spec a b s dst mul t) as (d' & m' & t' & -> & ? & ? & ? & ? & ? & ? & HV);
      try done; [unfold N, _Div_top in *; lia|].
    assert (Hpow : 2 ^ (s + 1) = 2 * 2 ^ s) by (rewrite Z.pow_add_r by lia; lia).
    assert (0 < 2 ^ s) by (apply Z.pow_pos_nonneg; lia).
    apply Z.mod_divide in Hz as [m Hm]; [|lia].
    eexists; split; [done|]. cbn. split_and!; try done; try lia.
    + destruct (Z.leb_spec (⟦mul⟧ + ⟦b⟧ * 2 ^ s) ⟦a⟧); destruct HV as [-> ->]; lia.
    + destruct (Z.leb_spec (⟦mul⟧ + ⟦b⟧ * 2 ^ s) ⟦a⟧); destruct HV as [_ ->]; lia.
    + apply Z.mod_divide; [lia|]. destruct (Z.leb_spec (⟦mul⟧ + ⟦b⟧ * 2 ^ s) ⟦a⟧);
        destruct HV as [-> _]; [exists (2 * m + 1)|exists (2 * m)]; lia.
    + destruct (Z.leb_spec (⟦mul⟧ + ⟦b⟧ * 2 ^ s) ⟦a⟧); destruct HV as [-> _]; [|lia].
      destruct Hdis; [left|right]; lia.
  - rewrite !val_zeros, !length_zeros. split_and!; try done; auto with beam; try lia.
    right. rewrite Z2Nat.id by lia. lia.
  - destruct I as (? & ? & ? & ? & ? & ? & ? & ? & ? & ?). eauto 12.
Qed.

(** [SetDiv]: for a non-zero divisor the quotient is the largest value of the target's
    size whose product with the divisor does not exceed the dividend, and [pMul] is
    that product. *)
Lemma _Div_spec nDst a b tmp :
  bytes a → bytes b → bytes tmp → length tmp = length a → (0 < nDst)%nat →
  #a < 2 ^ 28 → #b < 2 ^ 28 → ⟦b⟧ ≠ 0 →
  ∃ q mul, _Div nDst a b tmp = Some (q, mul) ∧ bytes q ∧ length q = nDst ∧
    length mul = length a ∧ ⟦mul⟧ = ⟦b⟧ * ⟦q⟧ ∧
    ⟦q⟧ = Z.min (⟦a⟧ / ⟦b⟧) (256 ^ Z.of_nat nDst - 1).
Proof.
  intros Ha Hb Ht Lt Hn La Lb Hnz.
  pose proof (val_range a Ha) as RA. pose proof (val_range b Hb) as RB.
  pose proof (_GetOrder_spec b Hb ltac:(lia)) as HO.
  destruct (Z.eqb_spec ⟦b⟧ 0) as [|_]; [done|].
  pose proof (Z.log2_spec ⟦b⟧ ltac:(lia)) as [HB _]. pose proof (Z.log2_nonneg ⟦b⟧).
  pose proof (pow256_pos nDst).
  destruct (decide (_GetOrder b ≤ 8 * #a)) as [Hle|Hgt].
  - destruct (_Div_loop nDst a b tmp) as (q & mul & E & Hq & Hm & Lq & Lm & Vm & Hma & Hdis); try done.
    exists q, mul. split_and!; try done.
    pose proof (val_range q Hq) as RQ. rewrite Lq in RQ. rewrite Vm in Hma.
    assert (⟦q⟧ ≤ ⟦a⟧ / ⟦b⟧) by (apply Z.div_le_lower_bound; lia).
    assert (⟦a⟧ < ⟦b⟧ * (⟦q⟧ + 1) → ⟦a⟧ / ⟦b⟧ < ⟦q⟧ + 1) as Hup by (intros; apply Z.div_lt_upper_bound; lia).
    destruct Hdis as [?|Hcap]; [lia|]. unfold _Div_top in Hcap.
    destruct (decide (8 * #a - _GetOrder b < 8 * Z.of_nat nDst - 1)).
    + rewrite Z.min_l in Hcap by lia.
      assert (⟦a⟧ < ⟦b⟧ * (⟦q⟧ + 1)); [|lia]. rewrite Hcap.
      apply Z.lt_le_trans with (256 ^ #a); [lia|]. rewrite pow256_2.
      apply Z.le_trans with (2 ^ Z.log2 ⟦b⟧ * 2 ^ (8 * #a - _GetOrder b + 1)).
      * rewrite <- Z.pow_add_r by lia. apply Z.pow_le_mono_r; lia.
      * apply Z.mul_le_mono_nonneg_r; [apply Z.pow_nonneg|]; lia.
    + rewrite Z.min_r in Hcap by lia. rewrite pow256_2 in *.
      replace (8 * Z.of_nat nDst - 1 + 1) with (8 * Z.of_nat nDst) in Hcap by lia. lia.
  - unfold _Div. rewrite Z.shiftl_mul_pow2 by lia. change (2 ^ 3) with 8.
    destruct (Z.ltb_spec (#a * 8) (_GetOrder b)); [|lia].
    exists (zeros nDst), (zeros (length a)). rewrite !val_zeros, !length_zeros.
    split_and!; auto with beam; [lia|]. rewrite Z.div_small; [lia|]. split; [lia|].
    apply Z.lt_le_trans with (256 ^ #a); [lia|]. rewrite pow256_2.
    apply Z.le_trans with (2 ^ Z.log2 ⟦b⟧); [|lia]. apply Z.pow_le_mono_r; lia.
Qed.

(** Division by zero sets every bit up to the starting shift. *)
Lemma _Div_zero nDst a b tmp :
  bytes a → bytes b → bytes tmp → length tmp = length a → (0 < nDst)%nat →
  #a < 2 ^ 28 → #b < 2 ^ 28 → ⟦b⟧ = 0 →
  ∃ q mul, _Div nDst a b tmp = Some (q, mul) ∧ length q = nDst ∧
    ⟦q⟧ = 2 ^ (Z.min (8 * #a) (8 * Z.of_nat nDst - 1) + 1) - 1.
Proof.
  intros Ha Hb Ht Lt Hn La Lb Hz.
  pose proof (_GetOrder_spec b Hb ltac:(lia)) as HO. rewrite Hz in HO. simpl in HO.
  destruct (_Div_loop nDst a b tmp) as (q & mul & E & Hq & Hm & Lq & Lm & Vm & Hma & Hdis); try done; [lia|].
  exists q, mul. split_and!; try done. unfold _Div_top in Hdis.
  rewrite HO, Z.sub_0_r in Hdis. pose proof (val_range a Ha). destruct Hdis; lia.
Qed.

(** ** Conversion from and to machine integers *)

Lemma _AssignRangeAligned_loop a w q x :
  0 ≤ x →
  ∃ w', loop_down (length w) (_AssignRangeAligned_step #a) (a ++ w ++ q, x)
        = Some (a ++ w' ++ q, x / 256 ^ #w) ∧
    length w' = length w ∧ bytes w' ∧ ⟦w'⟧ = x mod 256 ^ #w.
Proof.
  revert q x. induction w as [|y w IH] using rev_ind; intros q x Hx.
  { exists []. cbn [loop_down length app]. change (256 ^ Z.of_nat 0) with 1.
    rewrite Z.div_1_r, Z.mod_1_r. split_and!; auto with beam. }
  rewrite length_app, Nat.add_comm. cbn [length Nat.add loop_down].
  unfold _AssignRangeAligned_step at 2. rewrite <- app_assoc, (app_assoc a). cbn [app].
  rewrite wr_mid' by (rewrite length_app; lia). cbn [mbind option_bind]. rewrite <- app_assoc.
  rewrite Z.shiftr_div_pow2 by lia. change (2 ^ 8) with 256.
  assert (0 ≤ x / 256) by (apply Z.div_pos; lia).
  destruct (IH (u8 x :: q) (x / 256)) as (w' & -> & Hl & Hb & Hv); [done|].
  pose proof (pow256_pos (length w)).
  exists (w' ++ [u8 x]). split_and!.
  - rewrite Z.div_div, pow256_S by lia. by rewrite <- app_assoc.
  - rewrite length_app. simpl. lia.
  - apply bytes_snoc. auto with beam.
  - rewrite val_snoc, Hv, pow256_S. rewrite Z.rem_mul_r by lia. unfold u8. change (2 ^ 8) with 256. lia.
Qed.

(** On a zero buffer the ranged assignment stores the low bytes of [x] at their place. *)
Lemma _AssignRangeAligned_zero n x off k :
  0 ≤ x → 0 ≤ off → 0 ≤ k → off + k ≤ Z.of_nat n →
  ∃ d, _AssignRangeAligned (zeros n) x off k = Some d ∧ length d = n ∧ bytes d ∧
    d = zeros (n - Z.to_nat (off + k)) ++ drop (n - Z.to_nat (off + k)) d ∧
    ⟦d⟧ = x mod 256 ^ k * 256 ^ off.
Proof.
  intros Hx Ho Hk Hfit. unfold _AssignRangeAligned. rewrite length_zeros.
  set (m := (n - Z.to_nat (off + k))%nat).
  assert (Ez : zeros n = zeros m ++ zeros (Z.to_nat k) ++ zeros (Z.to_nat off)).
  { unfold zeros. rewrite <- !replicate_add. f_equal. lia. }
  rewrite Ez. destruct (_AssignRangeAligned_loop (zeros m) (zeros (Z.to_nat k)) (zeros (Z.to_nat off)) x)
    as (w & E & Lw & Hw & Vw); [done|].
  rewrite !length_zeros in *. replace (Z.of_nat n - (off + k)) with (Z.of_nat m) by lia.
  rewrite E. cbn. eexists; split; [done|]. split_and!.
  - rewrite !length_app, !length_zeros. lia.
  - rewrite !bytes_app. auto with beam.
  - rewrite drop_app_length' by (by rewrite length_zeros). done.
  - rewrite !val_app, !val_zeros, length_zeros, Vw, !Z2Nat.id by lia. lia.
Qed.

(** [AssignSafe] on a zero number: a left shift modulo its size; [true] means that no
    bit of [x] was cut off. *)
Lemma _AssignSafe_spec szT n x off :
  1 ≤ szT → 0 ≤ x < 2 ^ (8 * szT) → 0 ≤ off → (1 ≤ n)%nat → Z.of_nat n < 2 ^ 32 →
  ∃ b d, _AssignSafe szT (zeros n) x off = Some (b, d) ∧ length d = n ∧ bytes d ∧
    ⟦d⟧ = (x * 2 ^ off) mod 256 ^ Z.of_nat n ∧
    (b = true → x * 2 ^ off < 256 ^ Z.of_nat n).
Proof.
  intros HT Hx Hoff Hn Hmax. unfold _AssignSafe, _AssignRangeAlignedSafe. cbv zeta. rewrite length_zeros.
  rewrite Z.shiftr_div_pow2 by lia. change (2 ^ 3) with 8.
  change 7 with (Z.ones 3). rewrite Z.land_ones by lia. change (2 ^ 3) with 8.
  pose proof (Z.div_mod off 8 ltac:(lia)). pose proof (Z.mod_pos_bound off 8 ltac:(lia)).
  set (ob := off / 8) in *. set (nb := off mod 8) in *. assert (0 ≤ ob) by (apply Z.div_pos; lia).
  rewrite (Z.shiftl_mul_pow2 x nb) by lia. set (W := 2 ^ (8 * szT)) in *.
  assert (HW : W = 256 ^ szT) by (unfold W; rewrite Z.pow_mul_r by lia; done).
  assert (HW0 : 0 < W) by (apply Z.pow_pos_nonneg; lia).
  assert (Hp0 : 0 < 2 ^ nb) by (apply Z.pow_pos_nonneg; lia).
  set (lo := (x * 2 ^ nb) mod W). set (hi := (x * 2 ^ nb) / W).
  assert (0 ≤ lo < W) by (apply Z.mod_pos_bound; done).
  assert (Hsp : x * 2 ^ off = hi * 256 ^ (ob + szT) + lo * 256 ^ ob).
  { rewrite H, (Z.add_comm (8 * ob)), Z.pow_add_r, Z.pow_mul_r by lia. change (2 ^ 8) with 256.
    rewrite Z.pow_add_r, <- HW by lia.
    pose proof (Z.div_mod (x * 2 ^ nb) W ltac:(lia)) as Hdm. fold lo hi in Hdm. nia. }
  assert (Hcut : ∀ e, Z.of_nat n ≤ e → (hi * 256 ^ e) mod 256 ^ Z.of_nat n = 0).
  { intros e He. replace e with (e - Z.of_nat n + Z.of_nat n) by lia.
    rewrite Z.pow_add_r, Z.mul_assoc by lia. apply Z.mod_mul. pose proof (pow256_pos n). lia. }
  pose proof (pow256_pos n) as Hn0.
  destruct (Z.ltb_spec (Z.of_nat n) ob) as [Hfar|Hnear]; cbn [mbind option_bind negb].
  { exists false, (zeros n). rewrite length_zeros, val_zeros. split_and!; auto with beam; [|done].
    rewrite Hsp, <- Z.add_mod_idemp_l, Hcut, Z.add_0_l by lia.
    replace ob with (ob - Z.of_nat n + Z.of_nat n) by lia.
    rewrite Z.pow_add_r, Z.mul_assoc by lia. symmetry. apply Z.mod_mul. lia. }
  destruct (Z.leb_spec szT (Z.of_nat n - ob)) as [Hfit|Htr].
  - destruct (_AssignRangeAligned_zero n lo ob szT) as (d & -> & Ld & Hd & Ed & Vd); [lia..|].
    cbn [mbind option_bind negb]. rewrite <- HW, Z.mod_small in Vd by done.
    assert (Hlo : lo * 256 ^ ob < 256 ^ Z.of_nat n).
    { rewrite <- Vd, <- Ld. by apply val_range. }
    destruct (Z.eqb_spec nb 0) as [Hnb|Hnb].
    { exists true, d. assert (hi = 0) as Hhi by (unfold hi; rewrite Hnb, Z.mul_1_r; apply Z.div_small; lia).
      rewrite Hsp, Hhi, Z.mul_0_l, Z.add_0_l. split_and!; try done.
      rewrite Z.mod_small; [done|]. split; [|done]. apply Z.mul_nonneg_nonneg; [|apply Z.pow_nonneg]; lia. }
    rewrite u32_small by lia. destruct (Z.ltb_spec (Z.of_nat n - 1) (ob + szT)) as [Hr|Hr].
    { exists false, d. split_and!; try done. rewrite Hsp, <- Z.add_mod_idemp_l, Hcut, Z.add_0_l by lia.
      rewrite Z.mod_small; [done|]. split; [|done]. apply Z.mul_nonneg_nonneg; [|apply Z.pow_nonneg]; lia. }
    assert (Hhi : 0 ≤ hi < 256).
    { unfold hi. split; [apply Z.div_pos; nia|]. apply Z.div_lt_upper_bound; [done|].
      apply Z.lt_le_trans with (W * 2 ^ nb); [nia|]. apply Z.mul_le_mono_nonneg_l; [lia|].
      apply (Z.pow_le_mono_r 2 nb 8); lia. }
    assert (Hres : u8 (Z.shiftr x (Z.shiftl szT 3 - nb)) = hi).
    { rewrite Z.shiftl_mul_pow2, Z.shiftr_div_pow2 by lia.
      replace (x / 2 ^ (szT * 2 ^ 3 - nb)) with hi; [by apply u8_small|].
      unfold hi. replace W with (2 ^ (szT * 2 ^ 3 - nb) * 2 ^ nb).
      - apply Z.div_mul_cancel_r; [apply Z.pow_nonzero|]; lia.
      - rewrite <- Z.pow_add_r by lia. unfold W. f_equal. lia. }
    rewrite Hres, wr_Some by lia. cbn [mbind option_bind].
    exists true. eexists. split; [done|]. rewrite length_insert. split; [done|].
    assert (Hl0 : d !! Z.to_nat (Z.of_nat n - 1 - (ob + szT)) = Some 0).
    { rewrite Ed, lookup_app_l by (rewrite length_zeros; lia). apply lookup_replicate_2. lia. }
    assert (Hins : bytes (<[Z.to_nat (Z.of_nat n - 1 - (ob + szT)):=hi]> d))
      by (apply Forall_insert; [done|lia]).
    assert (Hvi : ⟦<[Z.to_nat (Z.of_nat n - 1 - (ob + szT)):=hi]> d⟧ = x * 2 ^ off).
    { rewrite (val_insert _ _ _ _ Hl0), Ld, Vd, Hsp, Z2Nat.id by lia.
      replace (Z.of_nat n - 1 - (Z.of_nat n - 1 - (ob + szT))) with (ob + szT) by lia. lia. }
    pose proof (val_range _ Hins) as Ri. rewrite length_insert, Ld, Hvi in Ri.
    split_and!; [done| |done || lia]. rewrite Hvi. symmetry. apply Z.mod_small. lia.
  - destruct (_AssignRangeAligned_zero n lo ob (Z.of_nat n - ob)) as (d & -> & Ld & Hd & Ed & Vd); [lia..|].
    cbn [mbind option_bind negb]. exists false, d. split_and!; try done.
    rewrite Hsp, <- Z.add_mod_idemp_l, Hcut, Z.add_0_l, Vd by lia.
    replace (256 ^ Z.of_nat n) with (256 ^ (Z.of_nat n - ob) * 256 ^ ob)
      by (rewrite <- Z.pow_add_r by lia; f_equal; lia).
    symmetry. apply Z.mul_mod_distr_r; apply Z.pow_nonzero; lia.
Qed.

(** [Export] reads back the number a buffer denotes. *)
Lemma _ExportAligned_spec szT b :
  bytes b → (0 < length b)%nat → #b ≤ szT → _ExportAligned szT b = Some ⟦b⟧.
Proof.
  intros Hb Hn Hsz. unfold _ExportAligned.
  destruct b as [|x b']; [simpl in Hn; lia|]. set (b := x :: b') in *.
  change (rd b 0) with (Some x). cbn [mbind option_bind].
  destruct (loop_up_inv (λ i out, out = ⟦take (Z.to_nat i) b⟧)
    (λ i out, y ← rd b i; Some (Z.lor (Z.shiftl out 8 mod 2 ^ (8 * szT)) y))
    (length b - 1) 1 x) as (s & -> & ->).
  - intros i out Hi ->. destruct (rd_Some b i) as (y & -> & Hy); [lia|]. cbn [mbind option_bind].
    eexists; split; [done|]. replace (Z.to_nat (i + 1)) with (S (Z.to_nat i)) by lia.
    rewrite (take_S_r _ _ _ Hy), val_snoc.
    pose proof (Forall_lookup_1 _ _ _ _ Hb Hy) as Hyb. simpl in Hyb.
    pose proof (val_range _ (bytes_take (Z.to_nat i) b Hb)) as R.
    rewrite length_take, Nat.min_l in R by lia. rewrite Z2Nat.id in R by lia.
    rewrite Z.mod_small.
    + rewrite Z.lor_comm, lor_add by (change (2 ^ 8) with 256; lia). change (2 ^ 8) with 256. lia.
    + rewrite Z.shiftl_mul_pow2 by lia. split; [lia|].
      apply Z.lt_le_trans with (256 ^ i * 256); [change (2 ^ 8) with 256; lia|].
      replace (256 ^ i * 256) with (2 ^ (8 * (i + 1)))
        by (rewrite Z.pow_mul_r, Z.pow_add_r by lia; done).
      apply Z.pow_le_mono_r; lia.
  - simpl. destruct b'; cbn; lia.
  - do 2 f_equal. apply take_ge. lia.
Qed.

(** ** Uniform sampling below a threshold *)

Lemma _Accept_spec dst thr :
  bytes dst → bytes thr → length dst = length thr → #dst < 2 ^ 28 → ⟦thr⟧ ≠ 0 →
  ∃ b d, _Accept dst thr (_GetOrder thr) = Some (b, d) ∧ length d = length dst ∧ bytes d ∧
    b = (⟦dst⟧ mod 2 ^ (Z.log2 ⟦thr⟧ + 1) <? ⟦thr⟧) ∧
    (b = true → ⟦d⟧ = ⟦dst⟧ mod 2 ^ (Z.log2 ⟦thr⟧ + 1)).
Proof.
  intros Hd Ht Hl Hmax Hnz. pose proof (val_range thr Ht) as RT.
  rewrite _GetOrder_spec by (done || lia). destruct (Z.eqb_spec ⟦thr⟧ 0) as [|_]; [done|].
  pose proof (Z.log2_nonneg ⟦thr⟧). set (o := Z.log2 ⟦thr⟧) in *.
  assert (Ho : o < 8 * #thr) by (rewrite pow256_2 in RT; apply Z.log2_lt_pow2; lia).
  pose proof (Z.log2_spec ⟦thr⟧ ltac:(lia)) as [_ Hthr]. fold o in Hthr.
  unfold _Accept. destruct (Z.eqb_spec (o + 1) 0) as [|_]; [lia|].
  replace (o + 1 - 1) with o by lia. rewrite Z.shiftr_div_pow2 by lia. change (2 ^ 3) with 8.
  rewrite (Z.land_comm 7). change 7 with (Z.ones 3). rewrite Z.land_ones by lia. change (2 ^ 3) with 8.
  pose proof (Z.div_mod o 8 ltac:(lia)). pose proof (Z.mod_pos_bound o 8 ltac:(lia)).
  set (q := o / 8) in *. set (k := o mod 8) in *. assert (0 ≤ q) by (apply Z.div_pos; lia).
  rewrite u32_small by lia.
  assert (Hmsk : u8 (u8 (Z.shiftl 2 k) - 1) = Z.ones (k + 1)).
  { assert (k = 0 ∨ k = 1 ∨ k = 2 ∨ k = 3 ∨ k = 4 ∨ k = 5 ∨ k = 6 ∨ k = 7) as Hk by lia.
    by repeat destruct Hk as [->|Hk]; [..|rewrite Hk]. }
  rewrite Hmsk. set (n := Z.to_nat (#dst - 1 - q)).
  replace (#dst - 1 - q) with (Z.of_nat n) by lia.
  assert (∃ x, dst !! n = Some x) as [x Hx] by (apply lookup_lt_is_Some_2; lia).
  rewrite rd_lookup, Hx. cbn [mbind option_bind]. rewrite wr_Some, Nat2Z.id by lia. cbn [mbind option_bind].
  pose proof (Forall_lookup_1 _ _ _ _ Hd Hx) as Hxb. simpl in Hxb.
  rewrite Z.land_ones by lia. set (y := x mod 2 ^ (k + 1)).
  assert (Hy : 0 ≤ y < 256).
  { unfold y. pose proof (Z.mod_pos_bound x (2 ^ (k + 1))). pose proof (Z.pow_pos_nonneg 2 (k + 1)).
    pose proof (Z.mod_le x (2 ^ (k + 1))). lia. }
  assert (Ed : drop n (<[n:=y]> dst) = y :: drop (S n) dst).
  { rewrite (drop_cons_lookup _ n y) by (apply list_lookup_insert_eq; lia).
    f_equal. rewrite drop_insert_lt by lia. done. }
  rewrite Ed. assert (Hdr : bytes (drop (S n) dst)) by auto with beam.
  assert (Hyb : bytes (y :: drop (S n) dst)) by (by apply bytes_cons).
  assert (Vd : ⟦y :: drop (S n) dst⟧ = ⟦dst⟧ mod 2 ^ (o + 1)).
  { cbn [val]. rewrite length_drop. replace (Z.of_nat (length dst - S n)) with q by lia.
    rewrite val_drop by done. replace (Z.of_nat (length dst - S n)) with q by lia.
    replace (o + 1) with (8 * q + (k + 1)) by lia. rewrite Z.pow_add_r, Z.pow_mul_r by lia.
    change (2 ^ 8) with 256. rewrite Z.rem_mul_r by (apply Z.pow_nonzero || apply Z.pow_pos_nonneg; lia).
    unfold y. apply digit_lookup in Hx; [|done]. rewrite Hx. unfold digit.
    replace (#dst - 1 - Z.of_nat n) with q by lia.
    rewrite Z.mod_mod_divide; [lia|]. exists (2 ^ (7 - k)).
    rewrite <- Z.pow_add_r by lia. by replace (7 - k + (k + 1)) with 8 by lia. }
  rewrite memcmp_spec; [|rewrite length_drop; cbn [length]; rewrite length_drop; lia|done|auto with beam].
  assert (Vt : ⟦drop n thr⟧ = ⟦thr⟧).
  { rewrite val_drop by done. apply Z.mod_small. split; [lia|].
    replace (Z.of_nat (length thr - n)) with (q + 1) by lia.
    apply Z.lt_le_trans with (2 ^ Z.succ o); [done|].
    replace 256 with (2 ^ 8) by done. rewrite <- Z.pow_mul_r by lia. apply Z.pow_le_mono_r; lia. }
  rewrite Vd, Vt. destruct (Z.ltb_spec (⟦dst⟧ mod 2 ^ (o + 1)) ⟦thr⟧); cbn [Z.leb Z.compare].
  - eexists true, _. split; [done|]. split_and!.
    + rewrite length_app, length_zeros. cbn [length]. rewrite length_drop. lia.
    + apply bytes_app. auto with beam.
    + done.
    + intros _. by rewrite val_app, val_zeros, Vd.
  - destruct (Z.ltb_spec ⟦thr⟧ (⟦dst⟧ mod 2 ^ (o + 1))); cbn [Z.leb Z.compare];
      (eexists false, _; split; [done|]; split_and!;
       [by rewrite length_insert|apply Forall_insert; [done|lia]|done|done]).
Qed.

(** ** Text *)

Lemma Ch2Hex_ChFromHex v : 0 ≤ v < 16 → Ch2Hex (ChFromHex v) = v.
Proof.
  intros Hv. assert (∀ x, 0 ≤ x < 256 → (if x <? 16 then Ch2Hex (ChFromHex x) else x) = x) as H
    by (intros x Hx; byte_cases x Hx).
  specialize (H v ltac:(lia)). by destruct (Z.ltb_spec v 16); [|lia].
Qed.

Lemma _Scan_loop_byte p x0 q x n rest :
  0 ≤ x < 256 → Z.even n = true →
  _Scan_loop (p ++ x0 :: q) #p n (ChFromHex (Z.shiftr x 4) :: ChFromHex (Z.land x 15) :: rest)
  = _Scan_loop (p ++ x :: q) (#p + 1) (n + 2) rest.
Proof.
  intros Hx Hn. rewrite <- Z.negb_odd in Hn. apply negb_true_iff in Hn.
  assert (Hhi : 0 ≤ Z.shiftr x 4 < 16).
  { rewrite Z.shiftr_div_pow2 by lia. split; [apply Z.div_pos; lia|]. apply Z.div_lt_upper_bound; lia. }
  assert (Hlo : 0 ≤ Z.land x 15 < 16).
  { change 15 with (Z.ones 4). rewrite Z.land_ones by lia. apply Z.mod_pos_bound. lia. }
  assert (Hpar : ∀ m, Z.land 1 m = if Z.odd m then 1 else 0).
  { intros m. rewrite Z.land_comm. change 1 with (Z.ones 1) at 1. rewrite Z.land_ones by lia.
    by rewrite Zmod_odd. }
  cbn [_Scan_loop]. rewrite !Ch2Hex_ChFromHex by done. rewrite !Hpar, Hn.
  destruct (Z.ltb_spec 15 (Z.shiftr x 4)); [lia|]. cbn [Z.eqb].
  rewrite wr_mid. cbn [mbind option_bind]. rewrite Z.odd_add, Hn. cbn [xorb Z.odd Pos.eqb].
  destruct (Z.ltb_spec 15 (Z.land x 15)); [lia|]. cbn [Z.eqb Pos.eqb].
  rewrite rd_mid. cbn [mbind option_bind]. rewrite wr_mid. cbn [mbind option_bind].
  assert (Z.lor (u8 (Z.shiftl (Z.shiftr x 4) 4)) (Z.land x 15) = x) as -> by byte_cases x Hx.
  f_equal. lia.
Qed.

(** Scanning the text that [Print] produced restores the bytes, whatever was there. *)
Lemma _Scan_Print b0 b :
  length b0 = length b → bytes b →
  _Scan b0 (take (2 * length b) (_Print b)) = Some (2 * #b, b).
Proof.
  intros Hl Hb. unfold _Scan, _Print.
  set (f := λ x, [ChFromHex (Z.shiftr x 4); ChFromHex (Z.land x 15)]).
  assert (Hlen : length (concat (map f b)) = (2 * length b)%nat).
  { clear. induction b as [|x b IH]; [done|]. cbn [map concat]. rewrite length_app, IH. simpl. lia. }
  rewrite take_app_le, take_ge by lia.
  assert (Hgen : ∀ p n, Z.even n = true →
    _Scan_loop (p ++ b0) #p n (concat (map f b)) = Some (n + 2 * #b, p ++ b)).
  { clear Hlen. revert b Hl Hb. induction b0 as [|x0 b0 IH]; intros [|x b] Hl Hb p n Hn; try done.
    { simpl. do 2 f_equal. lia. }
    apply bytes_cons in Hb as [Hx Hb]. injection Hl as Hl. cbn [map concat f app].
    rewrite _Scan_loop_byte by done.
    replace (p ++ x :: b0) with ((p ++ [x]) ++ b0) by (by rewrite <- app_assoc).
    replace (#p + 1) with (#(p ++ [x])) by (rewrite length_app; simpl; lia).
    rewrite IH by (try done; by rewrite Z.even_add, Hn). rewrite <- app_assoc. cbn [app length].
    do 2 f_equal. lia. }
  apply (Hgen [] 0). done.
Qed.

(** The scanner also takes the six characters after the digit 9 for hexadecimal digits. *)
Lemma Ch2Hex_accepts_punctuation c : 58 ≤ c ≤ 63 → Ch2Hex c = c - 48 ∧ Ch2Hex c ≤ 15.
Proof.
  intros Hc. unfold Ch2Hex. destruct (Z.leb_spec 97 c); [lia|]. destruct (Z.leb_spec 65 c); [lia|].
  cbn [andb]. rewrite u8_small by lia. lia.
Qed.

End uintBigImpl.

(** * [struct uintBig_t]: the operators, on the bytes of the number *)

Module uintBig_t.

Import uintBigImpl.

(** [AssignOrdinal(T x)] for an unsigned [T] of [szT] bytes. *)
Definition AssignOrdinal (szT : Z) (dst : list Z) (x : Z) : option (list Z) :=
  d ← memset0_at dst 0 (#dst - szT);
  _AssignRangeAligned d x 0 szT.

(** [Export(T& x)]. *)
Definition Export (szT : Z) (b : list Z) : option Z := _ExportAligned szT b.

Definition Inc (b : list Z) : option (list Z) := fst <$> _Inc b.

(** [operator +=]. *)
Definition add_assign (b x : list Z) : option (list Z) := fst <$> _Inc_sized b x.

Definition Inv (b : list Z) : option (list Z) := _Inv b.

Definition Negate (b : list Z) : option (list Z) := b ← Inv b; Inc b.

(** [operator *]. *)
Definition mul (a b : list Z) : option (list Z) := _Mul (length a + length b) a b.

(** [SetDiv(a, b)]; [tmp] is the content of the uninitialised scratch number. *)
Definition SetDiv (nDst : nat) (a b tmp : list Z) : option (list Z) := fst <$> _Div nDst a b tmp.

(** [operator == (Zero_)]. *)
Definition IsZero (b : list Z) : bool := memis0 b.

Lemma AssignOrdinal_spec szT dst x :
  0 ≤ szT ≤ #dst → 0 ≤ x < 256 ^ szT →
  ∃ d, AssignOrdinal szT dst x = Some d ∧ length d = length dst ∧ bytes d ∧ ⟦d⟧ = x.
Proof.
  intros Hsz Hx. unfold AssignOrdinal, memset0_at, _AssignRangeAligned.
  rewrite decide_True by lia. cbn [mbind option_bind take app]. rewrite Z.add_0_l.
  set (n := Z.to_nat (#dst - szT)). set (w := drop n dst).
  assert (Lw : length w = Z.to_nat szT) by (unfold w; rewrite length_drop; lia).
  assert (Hz : ∀ w' : list Z, length w' = length w → length (zeros n ++ w') = length dst).
  { intros w' Hw'. rewrite length_app, length_zeros. lia. }
  change (take (Z.to_nat 0) dst) with (@nil Z). cbn [app].
  rewrite Hz by done. replace (#dst - (0 + szT)) with (#(zeros n)) by (rewrite length_zeros; lia).
  rewrite <- Lw.
  destruct (_AssignRangeAligned_loop (zeros n) w [] x) as (w' & E & Hl & Hb & Hv); [lia|].
  rewrite !app_nil_r in E. rewrite E. cbn. eexists; split; [done|].
  split_and!; [by apply Hz|by apply bytes_app; auto with beam|].
  rewrite val_app, val_zeros, Hv, Lw, Z2Nat.id by lia. rewrite Z.mod_small by done. lia.
Qed.

Lemma add_assign_spec b x :
  bytes b → bytes x →
  ∃ d, add_assign b x = Some d ∧ length d = length b ∧ bytes d ∧
    ⟦d⟧ = (⟦b⟧ + ⟦x⟧) mod 256 ^ #b.
Proof.
  intros Hb Hx. unfold add_assign.
  destruct (_Inc_sized_spec b x Hb Hx) as (d & c & -> & Hl & Hd & Hc & Hv).
  exists d. split_and!; try done. pose proof (pow256_pos (length b)).
  rewrite <- Z.add_mod_idemp_r, <- Hv by lia. rewrite Z.mod_add by lia.
  symmetry. apply Z.mod_small. rewrite <- Hl. by apply val_range.
Qed.

Lemma Negate_spec b :
  bytes b →
  ∃ d, Negate b = Some d ∧ length d = length b ∧ bytes d ∧ ⟦d⟧ = (- ⟦b⟧) mod 256 ^ #b.
Proof.
  intros Hb. unfold Negate, Inv, Inc. pose proof (pow256_pos (length b)).
  destruct (_Inv_spec b Hb) as (d & -> & Hl & Hd & Hv). cbn [mbind option_bind].
  destruct (_Inc_spec d Hd) as (d' & c & -> & Hl' & Hd' & Hc & Hv').
  exists d'. split_and!; [done|lia|done|]. rewrite Hl, Hv in Hv'.
  pose proof (val_range d' Hd') as R. rewrite Hl', Hl in R.
  apply Z.mod_unique_pos with (q := -1 + c); [done|lia].
Qed.

Lemma mul_spec a b :
  bytes a → bytes b → #a + #b < 2 ^ 28 →
  ∃ d, mul a b = Some d ∧ length d = (length a + length b)%nat ∧ bytes d ∧ ⟦d⟧ = ⟦a⟧ * ⟦b⟧.
Proof.
  intros Ha Hb Hmax. unfold mul.
  destruct (_Mul_spec (length a + length b) a b Ha Hb) as (d & -> & Hl & Hd & Hv); [lia|].
  exists d. split_and!; try done. rewrite Hv, pow256_add.
  pose proof (val_range a Ha). pose proof (val_range b Hb). apply Z.mod_small. nia.
Qed.

Lemma SetDiv_spec nDst a b tmp :
  bytes a → bytes b → bytes tmp → length tmp = length a → (0 < nDst)%nat →
  #a < 2 ^ 28 → #b < 2 ^ 28 → ⟦b⟧ ≠ 0 →
  ∃ q, SetDiv nDst a b tmp = Some q ∧ bytes q ∧ length q = nDst ∧
    ⟦q⟧ = Z.min (⟦a⟧ / ⟦b⟧) (256 ^ Z.of_nat nDst - 1).
Proof.
  intros. unfold SetDiv.
  destruct (_Div_spec nDst a b tmp) as (q & m & -> & ? & ? & _ & _ & ?); try done. by exists q.
Qed.

End uintBig_t.
