(* ===== verification/Difficulty.v ===== *)
(** * core/difficulty: packed proof-of-work difficulty

    [struct Difficulty] keeps a difficulty as an order and a 24-bit mantissa packed in
    32 bits.  The model follows core/difficulty.cpp on the big integers of
    [UintBig]; a buffer that the source leaves uninitialised has the arbitrary content
    [junk n]. *)

From stdpp Require Import base list numbers option.
From S2P Require Import Prelude UintBig.
Local Open Scope Z_scope.

Module Difficulty.

Import uintBigImpl uintBig_t.

(** [Raw] is [uintBig_t<32>]. *)
Definition nRawBytes : nat := 32.
Definition s_MantissaBits : Z := 24.
Definition s_MaxOrder : Z := 8 * Z.of_nat nRawBytes - s_MantissaBits - 1.
Definition s_Inf : Z := u32 (Z.shiftl (s_MaxOrder + 1) s_MantissaBits).

Definition Pack (order mantissa : Z) : Z :=
  if order <=? s_MaxOrder then
    let mantissa := Z.land mantissa (u32 (Z.shiftl 1 s_MantissaBits) - 1) in
    Z.lor mantissa (u32 (Z.shiftl order s_MantissaBits))
  else s_Inf.

(** [Unpack(uint32_t& order, uint32_t& mantissa)]. *)
Definition Unpack (m_Packed : Z) : Z * Z :=
  let nLeadingBit := u32 (Z.shiftl 1 s_MantissaBits) in
  (Z.shiftr m_Packed s_MantissaBits, Z.lor nLeadingBit (Z.land m_Packed (nLeadingBit - 1))).

(** [Unpack(Raw& res)]. *)
Definition Unpack_Raw (m_Packed : Z) : option (list Z) :=
  let res := zeros nRawBytes in
  if m_Packed <? s_Inf then
    let '(order, mantissa) := Unpack m_Packed in
    snd <$> _AssignSafe 4 res mantissa order
  else Inv res.

Definition IsTargetReached (m_Packed : Z) (hv : list Z) : option bool :=
  if s_Inf <? m_Packed then Some false
  else
    val ← Unpack_Raw m_Packed;
    a ← mul hv val;
    Some (memis0 (take (nRawBytes - Z.to_nat (Z.shiftr s_MantissaBits 3)) a)).

(** [operator +] and [operator -] of a raw work and a difficulty. *)
Definition add_Raw (base : list Z) (d : Z) : option (list Z) :=
  res ← Unpack_Raw d; add_assign res base.

Definition sub_Raw (base : list Z) (d : Z) : option (list Z) :=
  res ← Unpack_Raw d; res ← Negate res; add_assign res base.

Section uninitialised.

Variable junk : nat → list Z.

Definition get_Target (m_Packed : Z) : option (bool * list Z) :=
  if s_Inf <? m_Packed then Some (false, zeros nRawBytes)
  else
    rDiff ← Unpack_Raw m_Packed;
    let nMax := (nRawBytes + Z.to_nat (Z.shiftr s_MantissaBits 3))%nat in
    let rMax := replicate nMax 255 in
    hv ← SetDiv nRawBytes rMax rDiff (junk nMax);
    Some (true, hv).

(** [struct BigFloat]: [m_Value * 2 ^ m_Order]. *)
Record BigFloat := mkBigFloat { m_Order : Z; m_Value : Z }.

Definition nBits : Z := 32.

(** [operator = (const uintBig_t<nBytes_>& val)]. *)
Definition BigFloat_of (b : list Z) : option BigFloat :=
  let nOrder := _GetOrder b in
  if negb (nOrder =? 0) then
    let ord := i32 (nOrder - nBits) in
    x ← (if 0 <? ord then _ShiftRight (junk 4) b ord else _ShiftLeft (junk 4) b (- ord));
    v ← Export 4 x;
    Some (mkBigFloat ord v)
  else Some (mkBigFloat 0 0).

(** [operator = (T val)] for an unsigned [T] of [szT] bytes. *)
Definition BigFloat_ord (szT : nat) (x : Z) : option BigFloat :=
  b ← AssignOrdinal (Z.of_nat szT) (junk szT) x; BigFloat_of b.

Definition BigFloat_mul (f g : BigFloat) : option BigFloat :=
  let val := u64 (m_Value f * m_Value g) in
  res ← BigFloat_ord 8 val;
  Some (mkBigFloat (m_Order res + (m_Order f + m_Order g)) (m_Value res)).

(** Division by zero is undefined. *)
Definition BigFloat_div (f g : BigFloat) : option BigFloat :=
  if m_Value g =? 0 then None
  else
    let val := u64 (Z.shiftl (m_Value f) nBits) / m_Value g in
    res ← BigFloat_ord 8 val;
    Some (mkBigFloat (m_Order res + (m_Order f - (m_Order g + nBits))) (m_Value res)).

Definition Calculate (ref : list Z) (dh dtTrg_s dtSrc_s : Z) : option Z :=
  let div := u64 (dtSrc_s * dh) in
  fRef ← BigFloat_of ref;
  fTrg ← BigFloat_ord 4 dtTrg_s;
  fDiv ← BigFloat_ord 8 div;
  p ← BigFloat_mul fRef fTrg;
  x ← BigFloat_div p fDiv;
  if negb (m_Value x =? 0) then
    let ord := m_Order x + (nBits - 1 - s_MantissaBits) in
    if 0 <=? ord then Some (Pack ord (Z.shiftr (m_Value x) (nBits - 1 - s_MantissaBits)))
    else Some 0
  else Some 0.

End uninitialised.

(** ** Packing *)

Lemma Pack_range order mantissa :
  0 ≤ order ≤ s_MaxOrder → 2 ^ 24 ≤ mantissa < 2 ^ 25 →
  Pack order mantissa = order * 2 ^ 24 + (mantissa - 2 ^ 24) ∧ 0 ≤ Pack order mantissa < s_Inf.
Proof.
  intros Ho Hm. change s_MaxOrder with 231 in *. change s_Inf with (232 * 2 ^ 24).
  unfold Pack. change s_MaxOrder with 231. change s_MantissaBits with 24.
  destruct (Z.leb_spec order 231); [|lia].
  change (u32 (Z.shiftl 1 24) - 1) with (Z.ones 24). rewrite Z.land_ones by lia.
  rewrite u32_small by (rewrite Z.shiftl_mul_pow2 by lia; lia).
  assert (mantissa mod 2 ^ 24 = mantissa - 2 ^ 24) as ->.
  { symmetry. apply Z.mod_unique_pos with (q := 1); lia. }
  rewrite lor_add by lia. lia.
Qed.

Lemma Unpack_value d :
  0 ≤ d < 2 ^ 32 → Unpack d = (d / 2 ^ 24, 2 ^ 24 + d mod 2 ^ 24).
Proof.
  intros Hd. unfold Unpack. change s_MantissaBits with 24.
  change (u32 (Z.shiftl 1 24) - 1) with (Z.ones 24). change (u32 (Z.shiftl 1 24)) with (Z.shiftl 1 24).
  rewrite Z.land_ones, Z.shiftr_div_pow2 by lia. f_equal.
  pose proof (Z.mod_pos_bound d (2 ^ 24) ltac:(lia)).
  rewrite Z.lor_comm, lor_add by lia. lia.
Qed.

Lemma Unpack_Pack_eq order mantissa :
  0 ≤ order ≤ s_MaxOrder → 2 ^ 24 ≤ mantissa < 2 ^ 25 →
  Unpack (Pack order mantissa) = (order, mantissa).
Proof.
  intros Ho Hm. destruct (Pack_range order mantissa Ho Hm) as [-> _].
  change s_MaxOrder with 231 in *. rewrite Unpack_value by lia.
  rewrite Z.div_add_l, Z.div_small by lia. f_equal; [lia|].
  rewrite Z.add_comm, (Z.add_comm (order * _)), Z.mod_add, Z.mod_small by lia. lia.
Qed.

(** The number a difficulty stands for. *)
Definition raw (d : Z) : Z :=
  if d <? s_Inf then (2 ^ 24 + d mod 2 ^ 24) * 2 ^ (d / 2 ^ 24) else 2 ^ 256 - 1.

Lemma raw_bound d : 0 ≤ d → 2 ^ 24 ≤ raw d < 2 ^ 256.
Proof.
  intros Hd. unfold raw. change s_Inf with (232 * 2 ^ 24). destruct (Z.ltb_spec d (232 * 2 ^ 24)); [|lia].
  pose proof (Z.mod_pos_bound d (2 ^ 24) ltac:(lia)).
  assert (0 ≤ d / 2 ^ 24 < 232)
    by (split; [apply Z.div_pos; lia|apply Z.div_lt_upper_bound; lia]).
  assert (0 < 2 ^ (d / 2 ^ 24)) by (apply Z.pow_pos_nonneg; lia). split; [nia|].
  apply Z.lt_le_trans with (2 ^ 25 * 2 ^ (d / 2 ^ 24)); [nia|].
  rewrite <- Z.pow_add_r by lia. apply Z.pow_le_mono_r; lia.
Qed.

Lemma Unpack_Raw_spec d :
  0 ≤ d < 2 ^ 32 →
  ∃ r, Unpack_Raw d = Some r ∧ length r = nRawBytes ∧ bytes r ∧ ⟦r⟧ = raw d.
Proof.
  intros Hd. pose proof (raw_bound d ltac:(lia)) as Hr. unfold Unpack_Raw, raw in *.
  destruct (Z.ltb_spec d s_Inf) as [Hlt|Hge].
  - rewrite Unpack_value by done. change s_Inf with (232 * 2 ^ 24) in Hlt.
    pose proof (Z.mod_pos_bound d (2 ^ 24) ltac:(lia)).
    assert (0 ≤ d / 2 ^ 24) by (apply Z.div_pos; lia).
    destruct (_AssignSafe_spec 4 nRawBytes (2 ^ 24 + d mod 2 ^ 24) (d / 2 ^ 24))
      as (b & r & -> & Hl & Hb & Hv & _); [unfold nRawBytes; lia..|].
    exists r. split_and!; try done. rewrite Hv. apply Z.mod_small.
    change (256 ^ Z.of_nat nRawBytes) with (2 ^ 256). lia.
  - unfold Inv. destruct (_Inv_spec (zeros nRawBytes)) as (r & -> & Hl & Hb & Hv); [auto with beam|].
    exists r. split_and!; [done..|]. by rewrite Hv, val_zeros.
Qed.

Lemma raw_Pack order mantissa :
  0 ≤ order ≤ s_MaxOrder → 2 ^ 24 ≤ mantissa < 2 ^ 25 → raw (Pack order mantissa) = mantissa * 2 ^ order.
Proof.
  intros Ho Hm. destruct (Pack_range order mantissa Ho Hm) as [E [H1 H2]]. unfold raw.
  destruct (Z.ltb_spec (Pack order mantissa) s_Inf); [|lia].
  pose proof (Unpack_Pack_eq order mantissa Ho Hm) as U. rewrite Unpack_value in U.
  - by injection U as -> ->.
  - change s_Inf with (232 * 2 ^ 24) in *. lia.
Qed.

(** ** The target *)

Lemma IsTargetReached_spec d hv :
  0 ≤ d < 2 ^ 32 → bytes hv → length hv = nRawBytes →
  IsTargetReached d hv = Some ((d <=? s_Inf) && (⟦hv⟧ * raw d <? 2 ^ 280)).
Proof.
  intros Hd Hh Hl. unfold IsTargetReached. rewrite Z.leb_antisym.
  destruct (Z.ltb_spec s_Inf d); cbn [negb andb]; [done|].
  destruct (Unpack_Raw_spec d Hd) as (r & -> & Lr & Hr & Vr). cbn [mbind option_bind].
  destruct (mul_spec hv r Hh Hr) as (a & -> & La & Ha & Va); [rewrite Hl, Lr; unfold nRawBytes; lia|].
  cbn [mbind option_bind]. f_equal. rewrite memis0_spec by auto with beam.
  rewrite val_take by done. rewrite La, Hl, Lr, Va, Vr.
  change (256 ^ Z.of_nat (nRawBytes + nRawBytes - (nRawBytes - Z.to_nat (Z.shiftr s_MantissaBits 3))))
    with (2 ^ 280).
  pose proof (val_range hv Hh). pose proof (raw_bound d ltac:(lia)).
  destruct (Z.ltb_spec (⟦hv⟧ * raw d) (2 ^ 280)).
  - rewrite Z.div_small by nia. done.
  - apply Z.eqb_neq. assert (1 ≤ ⟦hv⟧ * raw d / 2 ^ 280); [|lia].
    apply Z.div_le_lower_bound; lia.
Qed.

Lemma get_Target_spec junk d :
  (∀ n, length (junk n) = n ∧ bytes (junk n)) → 0 ≤ d ≤ s_Inf →
  ∃ t, get_Target junk d = Some (true, t) ∧ length t = nRawBytes ∧ bytes t ∧
    ⟦t⟧ = Z.min ((2 ^ 280 - 1) / raw d) (2 ^ 256 - 1).
Proof.
  intros Hj Hd. change s_Inf with (232 * 2 ^ 24) in Hd.
  unfold get_Target. change s_Inf with (232 * 2 ^ 24).
  destruct (Z.ltb_spec (232 * 2 ^ 24) d); [lia|].
  destruct (Unpack_Raw_spec d) as (r & -> & Lr & Hr & Vr); [lia|]. cbn [mbind option_bind].
  pose proof (raw_bound d ltac:(lia)).
  set (nMax := (nRawBytes + Z.to_nat (Z.shiftr s_MantissaBits 3))%nat).
  destruct (SetDiv_spec nRawBytes (replicate nMax 255) r (junk nMax)) as (q & -> & Hq & Lq & Vq).
  - apply Forall_replicate. lia.
  - done.
  - apply Hj.
  - rewrite length_replicate. apply Hj.
  - unfold nRawBytes; lia.
  - rewrite length_replicate. done.
  - rewrite Lr. unfold nRawBytes. lia.
  - lia.
  - cbn [mbind option_bind]. exists q. split_and!; try done. rewrite Vq, Vr. f_equal.
Qed.

(** ** Retargeting

    A [BigFloat] with its leading bit set stands for [m_Value * 2 ^ m_Order].  To stay
    in [Z], [scaled K f] is that number times [2 ^ K]. *)

Definition normal (f : BigFloat) : Prop := 2 ^ 31 ≤ m_Value f < 2 ^ 32.

Definition scaled (K : Z) (f : BigFloat) : Z := m_Value f * 2 ^ (m_Order f + K).

(** [close lo hi]: [lo] is below [hi] by a relative error of less than 2^-31. *)
Definition close (lo hi : Z) : Prop := lo ≤ hi ∧ hi * 2 ^ 31 < lo * (2 ^ 31 + 1).

Lemma close_scale lo hi Y : close lo hi → 0 < Y → close (lo * Y) (hi * Y).
Proof. unfold close. intros [H1 H2] HY. split; nia. Qed.

(** Dropping the bits below a 32-bit mantissa. *)
Lemma close_trunc v X t : 2 ^ 31 ≤ v → 0 ≤ t < X → close (v * X) (v * X + t).
Proof. unfold close. intros Hv Ht. split; nia. Qed.

(** The roundings of [Calculate] put together, for the numbers behind the floats. *)
Lemma close_chain A b D a d p y :
  0 < A → 0 < b → 0 < D →
  close a (A * 2 ^ 31) → close p (a * (b * 2 ^ 31)) → close d (D * 2 ^ 31) →
  close (y * d) (p * 2 ^ 97) →
  y * D * 2 ^ 31 ≤ A * b * 2 ^ 128 * (2 ^ 31 + 1) ∧
  A * b * 2 ^ 128 * 2 ^ 93 < y * D * (2 ^ 31 + 1) ^ 3.
Proof.
  unfold close. intros HA Hb HD [a1 a2] [p1 p2] [d1 d2] [y1 y2].
  assert (0 < a) by lia. assert (0 < d) by lia. assert (0 < p) by nia. assert (0 < y) by nia.
  split.
  - assert (y * (D * 2 ^ 31 * 2 ^ 31) ≤ y * (d * (2 ^ 31 + 1))) by (apply Z.mul_le_mono_nonneg_l; lia).
    assert (a * b ≤ A * 2 ^ 31 * b) by (apply Z.mul_le_mono_nonneg_r; lia). lia.
  - assert (y * d ≤ y * (D * 2 ^ 31)) by (apply Z.mul_le_mono_nonneg_l; lia).
    assert (A * 2 ^ 31 * 2 ^ 31 * b < a * (2 ^ 31 + 1) * b) by (apply Z.mul_lt_mono_pos_r; lia). lia.
Qed.

Lemma mant_error A D v ord y :
  2 ^ 31 ≤ v < 2 ^ 32 → 0 ≤ ord → 0 < D → y = v * 2 ^ (ord - 7 + 128) → 0 ≤ ord - 7 + 128 →
  y * D * 2 ^ 31 ≤ A * 2 ^ 128 * (2 ^ 31 + 1) →
  A * 2 ^ 128 * 2 ^ 93 < y * D * (2 ^ 31 + 1) ^ 3 →
  let R := v / 2 ^ 7 * 2 ^ ord in
  R * D * 2 ^ 31 ≤ A * (2 ^ 31 + 1) ∧ A * 2 ^ 24 < R * D * (2 ^ 24 + 2).
Proof.
  intros Hv Ho HD -> Hs Hhi Hlo R.
  replace (ord - 7 + 128) with (ord + 121) in * by lia. rewrite Z.pow_add_r in * by lia.
  pose proof (Z.div_mod v (2 ^ 7) ltac:(lia)) as Em. pose proof (Z.mod_pos_bound v (2 ^ 7) ltac:(lia)).
  subst R. set (m := v / 2 ^ 7) in *. set (X := 2 ^ ord) in *.
  assert (0 < X) by (apply Z.pow_pos_nonneg; lia).
  assert (m * 2 ^ 7 * (X * D) ≤ v * (X * D)) by (apply Z.mul_le_mono_nonneg_r; nia).
  assert (v * 2 ^ 24 * (X * D) ≤ m * 2 ^ 7 * (2 ^ 24 + 1) * (X * D)) by (apply Z.mul_le_mono_nonneg_r; nia).
  assert (0 < m * (X * D)) by nia. split; lia.
Qed.

Section retarget.

Variable junk : nat → list Z.
Hypothesis junk_ok : ∀ n, length (junk n) = n ∧ bytes (junk n).

(** The leading 32 bits of a number. *)
Lemma BigFloat_of_spec b :
  bytes b → #b < 2 ^ 27 → 0 < ⟦b⟧ →
  ∃ f, BigFloat_of junk b = Some f ∧ normal f ∧ m_Order f = Z.log2 ⟦b⟧ - 31 ∧
    ∃ t, 0 ≤ t < 2 ^ Z.max 0 (m_Order f) ∧
      ⟦b⟧ * 2 ^ Z.max 0 (- m_Order f) = m_Value f * 2 ^ Z.max 0 (m_Order f) + t.
Proof.
  intros Hb Hl Hn. unfold BigFloat_of. rewrite _GetOrder_spec by (done || lia).
  destruct (Z.eqb_spec ⟦b⟧ 0); [lia|]. pose proof (Z.log2_nonneg ⟦b⟧).
  pose proof (val_range b Hb) as R. rewrite pow256_2 in R.
  assert (Z.log2 ⟦b⟧ < 8 * #b) by (apply Z.log2_lt_pow2; lia).
  pose proof (Z.log2_spec ⟦b⟧ Hn) as [L1 L2].
  destruct (Z.eqb_spec (Z.log2 ⟦b⟧ + 1) 0); [lia|]. cbn [negb].
  change nBits with 32. set (o := Z.log2 ⟦b⟧ - 31).
  assert (i32 (Z.log2 ⟦b⟧ + 1 - 32) = o) as ->.
  { unfold o. destruct (decide (Z.log2 ⟦b⟧ < 31)); [rewrite i32_neg|rewrite i32_small]; lia. }
  assert (Hx : ∃ x v, (if 0 <? o then _ShiftRight (junk 4) b o else _ShiftLeft (junk 4) b (- o)) = Some x ∧
    length x = 4%nat ∧ bytes x ∧ ⟦x⟧ = v ∧ 2 ^ 31 ≤ v < 2 ^ 32 ∧
    ∃ t, 0 ≤ t < 2 ^ Z.max 0 o ∧ ⟦b⟧ * 2 ^ Z.max 0 (- o) = v * 2 ^ Z.max 0 o + t).
  { destruct (junk_ok 4) as [Lj Hj]. destruct (Z.ltb_spec 0 o).
    - destruct (_ShiftRight_spec (junk 4) b o Hb) as (x & -> & Lx & Hxb & Vx); [lia..|].
      rewrite (Z.max_r 0 o), (Z.max_l 0 (- o)), Z.pow_0_r, Z.mul_1_r by lia.
      assert (0 < 2 ^ o) by (apply Z.pow_pos_nonneg; lia).
      assert (Hv : 2 ^ 31 ≤ ⟦b⟧ / 2 ^ o < 2 ^ 32).
      { split.
        - apply Z.div_le_lower_bound; [lia|]. rewrite <- Z.pow_add_r by lia.
          by replace (o + 31) with (Z.log2 ⟦b⟧) by lia.
        - apply Z.div_lt_upper_bound; [lia|]. rewrite <- Z.pow_add_r by lia.
          by replace (o + 32) with (Z.succ (Z.log2 ⟦b⟧)) by lia. }
      exists x, (⟦b⟧ / 2 ^ o). split_and!; try lia; try done.
      + rewrite Vx, Lj. apply Z.mod_small. change (256 ^ Z.of_nat 4) with (2 ^ 32). lia.
      + exists (⟦b⟧ mod 2 ^ o). split; [by apply Z.mod_pos_bound|].
        rewrite (Z.div_mod ⟦b⟧ (2 ^ o)) at 1 by lia. lia.
    - destruct (_ShiftLeft_spec (junk 4) b (- o) Hb) as (x & -> & Lx & Hxb & Vx); [lia..|].
      rewrite (Z.max_l 0 o), (Z.max_r 0 (- o)), Z.pow_0_r by lia.
      assert (0 < 2 ^ (- o)) by (apply Z.pow_pos_nonneg; lia).
      assert (Hv : 2 ^ 31 ≤ ⟦b⟧ * 2 ^ (- o) < 2 ^ 32).
      { split.
        - apply Z.le_trans with (2 ^ Z.log2 ⟦b⟧ * 2 ^ (- o)); [|nia]. rewrite <- Z.pow_add_r by lia.
          apply Z.pow_le_mono_r; lia.
        - apply Z.lt_le_trans with (2 ^ Z.succ (Z.log2 ⟦b⟧) * 2 ^ (- o)); [nia|].
          rewrite <- Z.pow_add_r by lia. apply Z.pow_le_mono_r; lia. }
      exists x, (⟦b⟧ * 2 ^ (- o)). split_and!; try lia; try done.
      + rewrite Vx, Lj. apply Z.mod_small. change (256 ^ Z.of_nat 4) with (2 ^ 32). lia.
      + exists 0. lia. }
  destruct Hx as (x & v & -> & Lx & Hxb & Vx & Hv & Ht). cbn [mbind option_bind].
  unfold Export. rewrite _ExportAligned_spec by (done || lia). cbn [mbind option_bind].
  rewrite Vx. eexists; split; [done|]. by split_and!.
Qed.

Lemma BigFloat_of_scaled b K :
  bytes b → #b < 2 ^ 27 → 0 < ⟦b⟧ → 31 ≤ K →
  ∃ f, BigFloat_of junk b = Some f ∧ normal f ∧ m_Order f = Z.log2 ⟦b⟧ - 31 ∧
    close (scaled K f) (⟦b⟧ * 2 ^ K) ∧ (⟦b⟧ < 2 ^ 32 → scaled K f = ⟦b⟧ * 2 ^ K).
Proof.
  intros Hb Hl Hn HK. destruct (BigFloat_of_spec b Hb Hl Hn) as (f & E & Hf & Ho & t & Ht & Hv).
  exists f. split_and!; try done; pose proof (Z.log2_nonneg ⟦b⟧); unfold scaled, normal in *.
  - set (o := m_Order f) in *. destruct (decide (0 ≤ o)) as [Hpos|Hneg].
    + rewrite (Z.max_r 0 o), (Z.max_l 0 (- o)), Z.pow_0_r, Z.mul_1_r in * by lia.
      rewrite Z.pow_add_r, Z.mul_assoc, Hv by lia.
      apply close_scale; [apply close_trunc; lia|apply Z.pow_pos_nonneg; lia].
    + rewrite (Z.max_l 0 o), (Z.max_r 0 (- o)), Z.pow_0_r, Z.mul_1_r in * by lia.
      replace (⟦b⟧ * 2 ^ K) with (⟦b⟧ * 2 ^ (- o) * 2 ^ (o + K))
        by (rewrite <- Z.mul_assoc, <- Z.pow_add_r by lia; do 2 f_equal; lia).
      rewrite Hv. replace t with 0 by lia. rewrite Z.add_0_r.
      apply close_scale; [|apply Z.pow_pos_nonneg; lia].
      pose proof (close_trunc (m_Value f) 1 0) as C. rewrite Z.mul_1_r, Z.add_0_r in C. apply C; lia.
  - intros Hs. assert (Z.log2 ⟦b⟧ < 32) by (apply Z.log2_lt_pow2; lia).
    rewrite (Z.max_l 0 (m_Order f)), (Z.max_r 0 (- m_Order f)), Z.pow_0_r, Z.mul_1_r in * by lia.
    replace t with 0 in Hv by lia. rewrite Z.add_0_r in Hv.
    rewrite <- Hv, <- Z.mul_assoc, <- Z.pow_add_r by lia. do 2 f_equal. lia.
Qed.

Lemma BigFloat_ord_scaled szT x K :
  (szT < 16)%nat → 0 < x < 256 ^ Z.of_nat szT → 31 ≤ K →
  ∃ f, BigFloat_ord junk szT x = Some f ∧ normal f ∧ m_Order f = Z.log2 x - 31 ∧
    close (scaled K f) (x * 2 ^ K) ∧ (x < 2 ^ 32 → scaled K f = x * 2 ^ K).
Proof.
  intros Hs Hx HK. unfold BigFloat_ord. destruct (junk_ok szT) as [Lj Hj].
  destruct (AssignOrdinal_spec (Z.of_nat szT) (junk szT) x) as (b & -> & Lb & Hb & Vb); [lia..|].
  cbn [mbind option_bind]. rewrite <- Vb in *. apply BigFloat_of_scaled; [done|lia|lia|done].
Qed.

Lemma BigFloat_mul_scaled f g K :
  normal f → normal g → -31 ≤ m_Order f → -31 ≤ m_Order g → 62 ≤ K →
  ∃ p, BigFloat_mul junk f g = Some p ∧ normal p ∧
    m_Order f + m_Order g + 31 ≤ m_Order p ∧
    close (scaled K p) (m_Value f * m_Value g * 2 ^ (m_Order f + m_Order g + K)).
Proof.
  unfold normal, BigFloat_mul. intros Hf Hg Of Og HK. rewrite u64_small by nia.
  set (P := m_Value f * m_Value g). assert (HP : 2 ^ 62 ≤ P < 2 ^ 64) by (unfold P; nia).
  destruct (BigFloat_ord_scaled 8 P (m_Order f + m_Order g + K + 31)) as (r & -> & Hr & Or & [C1 C2] & _);
    [lia|change (256 ^ Z.of_nat 8) with (2 ^ 64); lia|lia|].
  cbn [mbind option_bind]. eexists; split; [done|]. cbn. split; [done|].
  assert (62 ≤ Z.log2 P) by (apply Z.log2_le_pow2; lia). split; [lia|].
  unfold close, scaled in *. cbn.
  set (E := m_Order f + m_Order g + K) in *.
  replace (m_Order r + (m_Order f + m_Order g) + K) with (m_Order r + E) by lia.
  replace (m_Order r + (E + 31)) with (m_Order r + E + 31) in * by lia.
  rewrite (Z.pow_add_r 2 (m_Order r + E)), (Z.pow_add_r 2 E) in * by lia. lia.
Qed.

Lemma BigFloat_div_scaled f g S :
  normal f → normal g → m_Order g + 32 - m_Order f ≤ S →
  ∃ x, BigFloat_div junk f g = Some x ∧ normal x ∧
    close (scaled S x * m_Value g) (m_Value f * 2 ^ (m_Order f - m_Order g + S)).
Proof.
  unfold normal, BigFloat_div. intros Hf Hg HS. change nBits with 32.
  destruct (Z.eqb_spec (m_Value g) 0); [lia|].
  rewrite Z.shiftl_mul_pow2, u64_small by lia.
  set (Q := m_Value f * 2 ^ 32 / m_Value g).
  assert (HQ : 2 ^ 31 ≤ Q < 2 ^ 33).
  { unfold Q. split; [apply Z.div_le_lower_bound|apply Z.div_lt_upper_bound]; lia. }
  assert (HQd : Q * m_Value g ≤ m_Value f * 2 ^ 32 < (Q + 1) * m_Value g).
  { unfold Q. pose proof (Z.div_mod (m_Value f * 2 ^ 32) (m_Value g) ltac:(lia)).
    pose proof (Z.mod_pos_bound (m_Value f * 2 ^ 32) (m_Value g) ltac:(lia)). lia. }
  destruct (junk_ok 8) as [Lj Hj]. unfold BigFloat_ord.
  destruct (AssignOrdinal_spec (Z.of_nat 8) (junk 8) Q) as (b & -> & Lb & Hb & Vb);
    [lia|change (256 ^ Z.of_nat 8) with (2 ^ 64); lia|]. cbn [mbind option_bind].
  destruct (BigFloat_of_spec b) as (r & -> & Hr & Or & t & Ht & Hv); [done|lia|lia|].
  cbn [mbind option_bind]. eexists; split; [done|]. cbn. split; [done|].
  rewrite Vb in *. unfold normal in Hr.
  assert (31 ≤ Z.log2 Q) by (apply Z.log2_le_pow2; lia).
  rewrite (Z.max_r 0 (m_Order r)), (Z.max_l 0 (- m_Order r)), Z.pow_0_r, Z.mul_1_r in * by lia.
  unfold scaled. cbn.
  set (E := m_Order f - (m_Order g + 32) + S).
  replace (m_Order r + (m_Order f - (m_Order g + 32)) + S) with (m_Order r + E) by lia.
  replace (m_Order f - m_Order g + S) with (E + 32) by lia.
  rewrite !Z.pow_add_r by lia. assert (0 < 2 ^ E) by (apply Z.pow_pos_nonneg; lia).
  assert (0 < 2 ^ m_Order r) by (apply Z.pow_pos_nonneg; lia).
  set (X := 2 ^ m_Order r) in *. set (Y := 2 ^ E) in *.
  replace (m_Value r * (X * Y) * m_Value g) with (m_Value r * (X * m_Value g) * Y) by ring.
  replace (m_Value f * (Y * 2 ^ 32)) with (m_Value f * 2 ^ 32 * Y) by ring.
  apply close_scale; [|done].
  replace (m_Value f * 2 ^ 32) with (m_Value r * (X * m_Value g)
    + (m_Value f * 2 ^ 32 - m_Value r * (X * m_Value g))) by ring.
  apply close_trunc; [lia|]. nia.
Qed.

(** The quotient that [Calculate] forms in floating point: one-sided relative errors of
    2^-31 per rounding, one above for the divisor and three below. *)
Lemma Calculate_float ref dtTrg_s div :
  bytes ref → length ref = nRawBytes → 0 < ⟦ref⟧ → 0 < dtTrg_s < 2 ^ 32 → 0 < div < 2 ^ 64 →
  ∃ fRef fTrg fDiv p x,
    BigFloat_of junk ref = Some fRef ∧ BigFloat_ord junk 4 dtTrg_s = Some fTrg ∧
    BigFloat_ord junk 8 div = Some fDiv ∧ BigFloat_mul junk fRef fTrg = Some p ∧
    BigFloat_div junk p fDiv = Some x ∧ normal x ∧ 0 ≤ m_Order x + 128 ∧
    scaled 128 x * div * 2 ^ 31 ≤ ⟦ref⟧ * dtTrg_s * 2 ^ 128 * (2 ^ 31 + 1) ∧
    ⟦ref⟧ * dtTrg_s * 2 ^ 128 * 2 ^ 93 < scaled 128 x * div * (2 ^ 31 + 1) ^ 3.
Proof.
  intros Hb Hl Hn Ht Hd.
  destruct (BigFloat_of_scaled ref 31) as (fRef & E1 & N1 & O1 & C1 & _);
    [done|rewrite Hl; unfold nRawBytes; lia|done|lia|].
  destruct (BigFloat_ord_scaled 4 dtTrg_s 31) as (fTrg & E2 & N2 & O2 & _ & C2);
    [lia|change (256 ^ Z.of_nat 4) with (2 ^ 32); lia|lia|]. specialize (C2 ltac:(lia)).
  destruct (BigFloat_ord_scaled 8 div 31) as (fDiv & E3 & N3 & O3 & C3 & _);
    [lia|change (256 ^ Z.of_nat 8) with (2 ^ 64); lia|lia|].
  pose proof (Z.log2_nonneg ⟦ref⟧). pose proof (Z.log2_nonneg dtTrg_s). pose proof (Z.log2_nonneg div).
  assert (Z.log2 div < 64) by (apply Z.log2_lt_pow2; lia).
  destruct (BigFloat_mul_scaled fRef fTrg 62) as (p & E4 & N4 & O4 & C4); [done|done|lia..|].
  destruct (BigFloat_div_scaled p fDiv 128) as (x & E5 & N5 & C5); [done|done|lia|].
  exists fRef, fTrg, fDiv, p, x. do 6 (split; [done|]). split.
  - unfold close, scaled, normal in *. destruct (Z.neg_nonneg_cases (m_Order x + 128)); [|done].
    rewrite Z.pow_neg_r in C5 by lia.
    assert (0 < 2 ^ (m_Order p - m_Order fDiv + 128)) by (apply Z.pow_pos_nonneg; lia). nia.
  - apply (close_chain _ _ _ (scaled 31 fRef) (scaled 31 fDiv) (scaled 62 p)); try done; [lia..| |].
    + rewrite <- C2. unfold scaled in *.
      replace (m_Order fRef + m_Order fTrg + 62) with (m_Order fRef + 31 + (m_Order fTrg + 31)) in C4 by lia.
      rewrite (Z.pow_add_r 2 (m_Order fRef + 31)) in C4 by lia.
      by rewrite <- Z.mul_shuffle1 in C4.
    + apply (close_scale _ _ (2 ^ (m_Order fDiv + 31))) in C5; [|apply Z.pow_pos_nonneg; lia].
      unfold scaled in *. rewrite <- !Z.mul_assoc, <- !Z.pow_add_r in * by lia.
      by replace (m_Order p + 62 + 97) with (m_Order p - m_Order fDiv + 128 + (m_Order fDiv + 31)) by lia.
Qed.

(** The new difficulty is the reference work scaled by the ratio of the times, up to the
    rounding of the mantissa, with saturation at both ends. *)
Lemma Calculate_spec ref dh dtTrg_s dtSrc_s :
  bytes ref → length ref = nRawBytes → 0 < ⟦ref⟧ →
  0 < dh < 2 ^ 32 → 0 < dtTrg_s < 2 ^ 32 → 0 < dtSrc_s < 2 ^ 32 →
  let W := ⟦ref⟧ * dtTrg_s in
  let D := dtSrc_s * dh in
  ∃ d, Calculate junk ref dh dtTrg_s dtSrc_s = Some d ∧ 0 ≤ d ≤ s_Inf ∧
    (0 < d < s_Inf → raw d * D * 2 ^ 31 ≤ W * (2 ^ 31 + 1)) ∧
    (d < s_Inf → W * 2 ^ 24 < raw d * D * (2 ^ 24 + 2)) ∧
    (d = s_Inf → 2 ^ 256 * D * 2 ^ 31 ≤ W * (2 ^ 31 + 1)).
Proof.
  intros Hb Hl Hn Hdh Ht Hs W D. assert (HD : 0 < D < 2 ^ 64) by (unfold D; nia).
  destruct (Calculate_float ref dtTrg_s D) as (fR & fT & fD & p & x & E1 & E2 & E3 & E4 & E5 & Nx & Ox & Hhi & Hlo);
    [done..|]. fold W in Hhi, Hlo.
  unfold Calculate. fold D. rewrite (u64_small D) by lia. cbv zeta.
  rewrite E1; cbn [mbind option_bind]. rewrite E2; cbn [mbind option_bind].
  rewrite E3; cbn [mbind option_bind]. rewrite E4; cbn [mbind option_bind].
  rewrite E5; cbn [mbind option_bind]. unfold normal in Nx.
  destruct (Z.eqb_spec (m_Value x) 0); [lia|]. cbn [negb].
  change (nBits - 1 - s_MantissaBits) with 7. set (ord := m_Order x + 7).
  unfold scaled in *. replace (m_Order x + 128) with (ord - 7 + 128) in * by lia.
  destruct (Z.leb_spec 0 ord) as [Ho|Ho].
  - rewrite Z.shiftr_div_pow2 by lia. destruct (decide (ord ≤ s_MaxOrder)) as [Hm|Hm].
    + assert (2 ^ 24 ≤ m_Value x / 2 ^ 7 < 2 ^ 25) as Hmant
        by (split; [apply Z.div_le_lower_bound|apply Z.div_lt_upper_bound]; lia).
      destruct (mant_error W D (m_Value x) ord _ Nx Ho ltac:(lia) eq_refl Ox Hhi Hlo) as [R1 R2].
      eexists; split; [done|]. destruct (Pack_range ord (m_Value x / 2 ^ 7)) as [_ [P1 P2]]; [lia..|].
      rewrite raw_Pack by (lia || done). split_and!; lia.
    + eexists; split; [done|]. unfold Pack. change s_MaxOrder with 231 in *.
      destruct (Z.leb_spec ord 231); [lia|]. change s_Inf with (232 * 2 ^ 24). split_and!; [lia..|].
      intros _. assert (2 ^ 31 * 2 ^ 353 ≤ m_Value x * 2 ^ (ord - 7 + 128))
        by (apply Z.mul_le_mono_nonneg; try lia; apply Z.pow_le_mono_r; lia). nia.
  - eexists; split; [done|]. change s_Inf with (232 * 2 ^ 24). change (raw 0) with (2 ^ 24).
    split_and!; try lia. intros _.
    assert (m_Value x * 2 ^ (ord - 7 + 128) ≤ 2 ^ 32 * 2 ^ 120)
      by (apply Z.mul_le_mono_nonneg; try lia; apply Z.pow_le_mono_r; lia). nia.
Qed.

End retarget.

(** ** Properties *)

Lemma raw_mono d1 d2 : 0 ≤ d1 → d1 ≤ d2 → raw d1 ≤ raw d2.
Proof.
  intros H0 H12. pose proof (raw_bound d1 H0) as B1. pose proof (raw_bound d2 ltac:(lia)) as B2.
  unfold raw in *. destruct (Z.ltb_spec d2 s_Inf); [|lia].
  destruct (Z.ltb_spec d1 s_Inf); [|lia]. clear B1 B2.
  pose proof (Z.div_mod d1 (2 ^ 24) ltac:(lia)). pose proof (Z.div_mod d2 (2 ^ 24) ltac:(lia)).
  pose proof (Z.mod_pos_bound d1 (2 ^ 24) ltac:(lia)). pose proof (Z.mod_pos_bound d2 (2 ^ 24) ltac:(lia)).
  assert (0 ≤ d1 / 2 ^ 24) by (apply Z.div_pos; lia).
  assert (0 < 2 ^ (d1 / 2 ^ 24)) by (apply Z.pow_pos_nonneg; lia).
  destruct (decide (d1 / 2 ^ 24 = d2 / 2 ^ 24)) as [E|].
  { rewrite E in *. apply Z.mul_le_mono_nonneg_r; lia. }
  assert (Hlt : d1 / 2 ^ 24 + 1 ≤ d2 / 2 ^ 24) by lia.
  apply (Z.pow_le_mono_r 2) in Hlt; [|lia]. rewrite Z.pow_add_r in Hlt by lia.
  set (X := 2 ^ (d1 / 2 ^ 24)) in *. set (Y := 2 ^ (d2 / 2 ^ 24)) in *. nia.
Qed.

(** C5. [Difficulty::IsTargetReached] (a multiplication and a test for zero bytes) accepts
    exactly the hashes that compare less or equal to the target of
    [Difficulty::get_Target] (a division), for every packed value, the out-of-range ones
    included; neither accesses memory out of its bounds. *)
Theorem IsTargetReached_get_Target junk d hv :
  (∀ n, length (junk n) = n ∧ bytes (junk n)) →
  0 ≤ d < 2 ^ 32 → bytes hv → length hv = nRawBytes →
  ∃ ok t, get_Target junk d = Some (ok, t) ∧
    IsTargetReached d hv = Some (ok && (_Cmp hv t <=? 0)).
Proof.
  intros Hj Hd Hh Hl. rewrite IsTargetReached_spec by done. pose proof (val_range hv Hh) as Rh.
  rewrite Hl in Rh. change (256 ^ Z.of_nat nRawBytes) with (2 ^ 256) in Rh.
  destruct (Z.leb_spec d s_Inf) as [Hi|Hi].
  - destruct (get_Target_spec junk d Hj) as (t & -> & Lt & Ht & Vt); [lia|].
    exists true, t. split; [done|]. f_equal. cbn [andb]. rewrite _Cmp_spec, Vt by done.
    pose proof (raw_bound d ltac:(lia)).
    pose proof (Z.mul_div_le (2 ^ 280 - 1) (raw d) ltac:(lia)).
    pose proof (Z.mul_succ_div_gt (2 ^ 280 - 1) (raw d) ltac:(lia)).
    set (q := (2 ^ 280 - 1) / raw d) in *.
    repeat case_match; repeat (match goal with H : (_ <? _) = _ |- _ =>
      apply Z.ltb_lt in H || apply Z.ltb_ge in H end); cbn; (apply Z.ltb_lt || apply Z.ltb_ge); nia.
  - exists false, (zeros nRawBytes). split; [|done].
    unfold get_Target. destruct (Z.ltb_spec s_Inf d); [done|lia].
Qed.

Lemma IsTargetReached_get_Target_witness :
  ∃ ok t, get_Target zeros 100 = Some (ok, t) ∧
    IsTargetReached 100 (replicate 32 7) = Some (ok && (_Cmp (replicate 32 7) t <=? 0)).
Proof.
  apply (IsTargetReached_get_Target zeros 100 (replicate 32 7)).
  - intros n. split; [apply length_replicate|apply bytes_zeros].
  - lia.
  - apply Forall_replicate. lia.
  - reflexivity.
Defined.

(** A harder difficulty accepts no hash that an easier one rejects: the packed value,
    compared as a number, orders the targets. *)
Theorem IsTargetReached_antitone d1 d2 hv :
  0 ≤ d1 ≤ d2 → d2 < 2 ^ 32 → bytes hv → length hv = nRawBytes →
  IsTargetReached d2 hv = Some true → IsTargetReached d1 hv = Some true.
Proof.
  intros Hd H2 Hh Hl. rewrite !IsTargetReached_spec by (done || lia). intros [= H]. f_equal.
  apply andb_prop in H as [Hi Ht]. apply Z.leb_le in Hi. apply Z.ltb_lt in Ht.
  pose proof (raw_mono d1 d2). pose proof (val_range hv Hh).
  apply andb_true_intro. split; [apply Z.leb_le; lia|apply Z.ltb_lt; nia].
Qed.

Lemma IsTargetReached_antitone_witness : IsTargetReached 3 (replicate 32 0) = Some true.
Proof.
  apply (IsTargetReached_antitone 3 1000 (replicate 32 0)); [lia|lia| |reflexivity|vm_compute; reflexivity].
  apply Forall_replicate. lia.
Defined.

(** [Difficulty::Unpack] inverts [Difficulty::Pack] on every order in range and
    normalised mantissa, and the packed value is below the infinite one. *)
Theorem Unpack_Pack order mantissa :
  0 ≤ order ≤ s_MaxOrder → 2 ^ 24 ≤ mantissa < 2 ^ 25 →
  Unpack (Pack order mantissa) = (order, mantissa) ∧ 0 ≤ Pack order mantissa < s_Inf.
Proof. intros Ho Hm. split; [by apply Unpack_Pack_eq|by apply Pack_range]. Qed.

Lemma Unpack_Pack_witness : Unpack (Pack 231 (2 ^ 25 - 1)) = (231, 2 ^ 25 - 1) ∧ 0 ≤ Pack 231 (2 ^ 25 - 1) < s_Inf.
Proof. apply (Unpack_Pack 231 (2 ^ 25 - 1)); vm_compute; split; congruence. Defined.

(** Subtracting a block's difficulty from a chain work undoes adding it, whatever the
    work (addition is modulo 2^256), and both operators succeed. *)
Theorem sub_add_Raw base d :
  bytes base → length base = nRawBytes → 0 ≤ d < 2 ^ 32 →
  ∃ w, add_Raw base d = Some w ∧ ⟦w⟧ = (⟦base⟧ + raw d) mod 2 ^ 256 ∧ sub_Raw w d = Some base.
Proof.
  intros Hb Hl Hd. unfold add_Raw, sub_Raw.
  destruct (Unpack_Raw_spec d Hd) as (r & -> & Lr & Hr & Vr). cbn [mbind option_bind].
  destruct (add_assign_spec r base Hr Hb) as (w & -> & Lw & Hw & Vw).
  destruct (Negate_spec r Hr) as (m & -> & Lm & Hm & Vm). cbn [mbind option_bind].
  destruct (add_assign_spec m w Hm Hw) as (z & Ez & Lz & Hz & Vz).
  rewrite Lm, Lr, ?Vr in *. change (256 ^ Z.of_nat nRawBytes) with (2 ^ 256) in *.
  exists w. split_and!; [done|rewrite Vw; f_equal; lia|]. rewrite Ez. f_equal.
  apply val_inj; [congruence|done|done|]. rewrite Vz, Vm, Vw.
  rewrite <- Zplus_mod. replace (- raw d + (raw d + ⟦base⟧)) with ⟦base⟧ by lia.
  apply Z.mod_small. pose proof (val_range base Hb) as R. by rewrite Hl in R.
Qed.

Lemma sub_add_Raw_witness :
  ∃ w, add_Raw (replicate 32 255) 77 = Some w ∧ ⟦w⟧ = (⟦replicate 32 255⟧ + raw 77) mod 2 ^ 256 ∧
    sub_Raw w 77 = Some (replicate 32 255).
Proof.
  apply (sub_add_Raw (replicate 32 255) 77); [|reflexivity|lia]. apply Forall_replicate. lia.
Defined.

End Difficulty.
