(* ===== verification/Merkle.v ===== *)
(** * core/merkle: Merkle mountain ranges

    [Mmr] is the algorithm of core/merkle.cpp over an abstract element store: the virtual
    [LoadElement]/[SaveElement] are the class [MmrStore], what the algorithm relies on is
    [MmrStoreOk].  [FixedMmr] (a flat array indexed by [FlatMmr::Pos2Idx]) implements it,
    [FlyMmr] recomputes the elements on each access, [CompactMmr] keeps the rightmost branch
    only.  The hash function (SHA-256, outside of the sources) is the class [Hasher]. *)

From stdpp Require Import base list numbers option.
From S2P Require Import Prelude.
Local Open Scope Z_scope.

(** ** Hashing and positions *)

(** [combine l r] is [ECC::Hash::Processor() << l << r >> out]; [hZero] the zero hash. *)
Class Hasher (Hash : Type) := {
  combine : Hash → Hash → Hash;
  hZero : Hash;
}.

Record Position := mkPos { pos_H : nat; pos_X : Z }.

#[global] Instance Position_eq_dec : EqDecision Position.
Proof. solve_decision. Defined.

(** [Position::HMax]: the levels of a 64-bit index; the fuel of the loops over levels is
    one more, for the test that ends them. *)
Definition HMax : nat := 64.

Lemma HMax_pow : 2 ^ Z.of_nat HMax = 2 ^ 64.
Proof. reflexivity. Qed.

#[global] Opaque HMax.

Section interpret.

Context {Hash : Type} `{Hasher Hash}.

Definition Node : Type := bool * Hash.
Definition Proof_t : Type := list Node.
Definition HardProof : Type := list Hash.

Definition Interpret (hOld hNew : Hash) (bNewOnRight : bool) : Hash :=
  if bNewOnRight then combine hOld hNew else combine hNew hOld.

Definition Interpret_Node (hash : Hash) (n : Node) : Hash := Interpret hash n.2 n.1.

Definition Interpret_Proof (hash : Hash) (p : Proof_t) : Hash := foldl Interpret_Node hash p.

End interpret.

(** ** The element store *)

Class MmrStore (Hash S : Type) := {
  LoadElement : S → Position → option Hash;
  SaveElement : S → Hash → Position → option S;
}.

(** A position whose subtree lies within the first [n] elements. *)
Definition fits (n : Z) (p : Position) : Prop :=
  0 ≤ pos_X p ∧ (pos_X p + 1) * 2 ^ Z.of_nat (pos_H p) ≤ n.

(** What the algorithm needs of a store with room for [n] elements; what it holds at the
    [bad] positions is not relied on until they are written. *)
Class MmrStoreOk (Hash S : Type) `{MmrStore Hash S} := {
  room_but : S → Z → (Position → Prop) → Prop;
  room_mono : ∀ s n (bad bad' : Position → Prop), (∀ q, bad q → bad' q) → room_but s n bad → room_but s n bad';
  save_ok : ∀ s n bad h p, room_but s n bad → fits n p →
    ∃ s', SaveElement s h p = Some s' ∧ room_but s' n (λ q, bad q ∧ q ≠ p) ∧ LoadElement s' p = Some h ∧
      ∀ q, fits n q → ¬ bad q → q ≠ p → LoadElement s' q = LoadElement s q;
}.

Definition room {Hash Sto} `{MmrStoreOk Hash Sto} (s : Sto) (n : Z) : Prop := room_but s n (λ _, False).

(** [IProofBuilder]: [AppendNode] returns whether to go on. *)
Class IProofBuilder (Hash B : Type) := {
  AppendNode : B → bool * Hash → Position → bool * B;
}.

(** ** Mmr *)

Module Mmr.
Section mmr.

Context {Hash : Type} `{Hasher Hash} {Sto : Type} `{!MmrStore Hash Sto}.

Record t := mk { m_Count : Z; m_Store : Sto }.

(** The loop of [Replace] from level [h], with [x] = [pos.X] and [n] = [m_Count >> h]. *)
Fixpoint Replace_loop (fuel h : nat) (x n : Z) (hv1 : Hash) (s : Sto) : option Sto :=
  match fuel with
  | O => None
  | S fuel =>
    s ← SaveElement s hv1 (mkPos h x);
    let x := Z.lxor x 1 in
    if n <=? x then Some s
    else
      hv0 ← LoadElement s (mkPos h x);
      let hv1 := Interpret hv1 hv0 (negb (Z.land x 1 =? 0)) in
      Replace_loop fuel (S h) (Z.shiftr x 1) (Z.shiftr n 1) hv1 s
  end.

Definition Replace (m : t) (n : Z) (hv : Hash) : option t :=
  s ← Replace_loop (S HMax) 0 n (m_Count m) hv (m_Store m);
  Some (mk (m_Count m) s).

Definition Append (m : t) (hv : Hash) : option t :=
  let n := m_Count m in
  Replace (mk (u64 (n + 1)) (m_Store m)) n hv.

Fixpoint get_PredictedHash_loop (fuel h : nat) (x : Z) (s : Sto) (hv : Hash) : option Hash :=
  match fuel with
  | O => None
  | S fuel =>
    if x =? 0 then Some hv
    else if negb (Z.land 1 x =? 0) then
      let x := Z.lxor x 1 in
      hv0 ← LoadElement s (mkPos h x);
      get_PredictedHash_loop fuel (S h) (Z.shiftr x 1) s (Interpret hv hv0 false)
    else get_PredictedHash_loop fuel (S h) (Z.shiftr x 1) s hv
  end.

Definition get_PredictedHash (m : t) (hvAppend : Hash) : option Hash :=
  get_PredictedHash_loop (S HMax) 0 (m_Count m) (m_Store m) hvAppend.

(** [acc] is [hv], [None] while [bEmpty]; the result is [None] when the range is empty. *)
Fixpoint get_HashForRange_loop (fuel h : nat) (n0 n : Z) (s : Sto) (acc : option Hash)
    : option (option Hash) :=
  match fuel with
  | O => None
  | S fuel =>
    if n =? 0 then Some acc
    else if negb (Z.land 1 n =? 0) then
      hv0 ← LoadElement s (mkPos h (Z.lxor (u64 (n0 + n)) 1));
      let acc := match acc with None => hv0 | Some hv => Interpret hv hv0 false end in
      get_HashForRange_loop fuel (S h) (Z.shiftr n0 1) (Z.shiftr n 1) s (Some acc)
    else get_HashForRange_loop fuel (S h) (Z.shiftr n0 1) (Z.shiftr n 1) s acc
  end.

Definition get_HashForRange (m : t) (n0 n : Z) : option (option Hash) :=
  get_HashForRange_loop (S HMax) 0 n0 n (m_Store m) None.

Definition get_Hash (m : t) : option Hash :=
  hv ← get_HashForRange m 0 (m_Count m); Some (default hZero hv).

(** The sibling at level [h] of the path of an element, [i] = the index at that level:
    [None] when there is none ([continue]), or the node, its hash left [uninit] when
    [bIgnoreHashes]. *)
Definition get_Proof_sibling (uninit : Hash) (m : t) (h : nat) (i : Z) (bIgnoreHashes : bool)
    : option (option (bool * Hash)) :=
  let first := Z.land i 1 =? 0 in
  let x := Z.lxor i 1 in
  let n0 := u64 (Z.shiftl x (Z.of_nat h)) in
  if first && (m_Count m <=? n0) then Some None
  else
    let nRemaining := m_Count m - n0 in
    let bFullSibling := negb first || negb (Z.shiftr nRemaining (Z.of_nat h) =? 0) in
    if bIgnoreHashes then Some (Some (first, uninit))
    else if bFullSibling then
      hv ← LoadElement (m_Store m) (mkPos h x); Some (Some (first, hv))
    else
      hv ← get_HashForRange m n0 nRemaining;
      Some (Some (first, default uninit hv)).

Fixpoint get_Proof_loop `{!IProofBuilder Hash B} (uninit : Hash) (m : t) (fuel h : nat)
    (i n : Z) (bIgnoreHashes : bool) (b : B) : option (bool * B) :=
  match fuel with
  | O => None
  | S fuel =>
    if n =? 0 then Some (true, b)
    else
      node ← get_Proof_sibling uninit m h i bIgnoreHashes;
      match node with
      | None => get_Proof_loop uninit m fuel (S h) (Z.shiftr i 1) (Z.shiftr n 1) bIgnoreHashes b
      | Some node =>
        let '(ok, b) := AppendNode b node (mkPos h (Z.lxor i 1)) in
        if ok then
          get_Proof_loop uninit m fuel (S h) (Z.shiftr i 1) (Z.shiftr n 1) bIgnoreHashes b
        else Some (false, b)
      end
  end.

Definition get_ProofInternal `{!IProofBuilder Hash B} (uninit : Hash) (m : t) (b : B) (i : Z)
    (bIgnoreHashes : bool) : option (bool * B) :=
  get_Proof_loop uninit m (S HMax) 0 i (m_Count m) bIgnoreHashes b.

Definition get_Proof `{!IProofBuilder Hash B} (uninit : Hash) (m : t) (b : B) (i : Z)
    : option (bool * B) :=
  get_ProofInternal uninit m b i false.

End mmr.

Arguments t : clear implicits.

End Mmr.

(** ** Levels of an index *)

Definition lvl (i : Z) (h : nat) : Z := i / 2 ^ Z.of_nat h.

Lemma pow2_pos h : 0 < 2 ^ Z.of_nat h.
Proof. apply Z.pow_pos_nonneg; lia. Qed.

Lemma pow2_S h : 2 ^ Z.of_nat (S h) = 2 * 2 ^ Z.of_nat h.
Proof. rewrite Nat2Z.inj_succ, Z.pow_succ_r; lia. Qed.

Lemma lvl_0 i : lvl i 0 = i.
Proof. apply Z.div_1_r. Qed.

Lemma lvl_S i h : lvl i (S h) = lvl i h / 2.
Proof.
  unfold lvl. rewrite pow2_S, Z.mul_comm, Z.div_div; [done|pose proof (pow2_pos h); lia|lia].
Qed.

Lemma lvl_nonneg i h : 0 ≤ i → 0 ≤ lvl i h.
Proof. intros. apply Z.div_pos; [done|apply pow2_pos]. Qed.

Lemma lvl_spec i h : lvl i h * 2 ^ Z.of_nat h ≤ i < (lvl i h + 1) * 2 ^ Z.of_nat h.
Proof.
  unfold lvl. pose proof (pow2_pos h). pose proof (Z.div_mod i (2 ^ Z.of_nat h)).
  pose proof (Z.mod_pos_bound i (2 ^ Z.of_nat h)). lia.
Qed.

Lemma lvl_le i n h : i ≤ n → lvl i h ≤ lvl n h.
Proof. intros. apply Z.div_le_mono; [apply pow2_pos|done]. Qed.

Lemma lvl_zero i h : 0 ≤ i < 2 ^ Z.of_nat h → lvl i h = 0.
Proof. apply Z.div_small. Qed.

Lemma shiftr_1 x : Z.shiftr x 1 = x / 2.
Proof. by rewrite Z.shiftr_div_pow2. Qed.

Lemma shiftr_lvl x h : Z.shiftr x (Z.of_nat h) = lvl x h.
Proof. rewrite Z.shiftr_div_pow2 by lia. done. Qed.

Lemma land_1_even x : (Z.land x 1 =? 0) = Z.even x.
Proof.
  change 1 with (Z.ones 1). rewrite Z.land_ones by lia. change (2 ^ 1) with 2.
  rewrite Zmod_even. by destruct (Z.even x).
Qed.

Lemma land_1_even' x : (Z.land 1 x =? 0) = Z.even x.
Proof. rewrite Z.land_comm. apply land_1_even. Qed.

Lemma even_cases x :
  (Z.even x = true ∧ x = 2 * (x / 2)) ∨ (Z.even x = false ∧ x = 2 * (x / 2) + 1).
Proof. pose proof (Z.div_mod x 2). pose proof (Zmod_even x). destruct (Z.even x); [left|right]; lia. Qed.

Lemma lxor_1 x : Z.lxor x 1 = if Z.even x then x + 1 else x - 1.
Proof.
  assert (E : ∀ y, Z.even y = true → Z.lxor y 1 = y + 1).
  { intros y Ey. rewrite <- Z.add_nocarry_lxor; [done|]. pose proof (land_1_even y) as L.
    rewrite Ey in L. by apply Z.eqb_eq in L. }
  destruct (even_cases x) as [[Hx Ex]|[Hx Ex]]; rewrite Hx; [by apply E|].
  replace x with (Z.lxor (x - 1) 1) at 1.
  - by rewrite Z.lxor_assoc, Z.lxor_nilpotent, Z.lxor_0_r.
  - rewrite E; [lia|]. rewrite Z.even_sub, Hx. done.
Qed.

(** ** The tree of [n] elements

    [node leaf h x] is the hash of the full subtree at a position; [pnode leaf n h x] the
    hash of what the first [n] elements put under it: a node without a right part is its
    left part. *)

Section tree.

Context {Hash : Type} `{Hasher Hash}.

Fixpoint node (leaf : Z → Hash) (h : nat) (x : Z) : Hash :=
  match h with
  | O => leaf x
  | S h => combine (node leaf h (2 * x)) (node leaf h (2 * x + 1))
  end.

Fixpoint pnode (leaf : Z → Hash) (n : Z) (h : nat) (x : Z) : option Hash :=
  if n <=? x * 2 ^ Z.of_nat h then None
  else match h with
  | O => Some (leaf x)
  | S h =>
    l ← pnode leaf n h (2 * x);
    Some (match pnode leaf n h (2 * x + 1) with Some r => combine l r | None => l end)
  end.

(** The root hash of [n] elements. *)
Definition root (leaf : Z → Hash) (n : Z) : Hash := default hZero (pnode leaf n HMax 0).

Lemma pnode_None leaf n h x : n ≤ x * 2 ^ Z.of_nat h → pnode leaf n h x = None.
Proof. intros Hn. destruct h; cbn [pnode]; apply Z.leb_le in Hn; by rewrite Hn. Qed.

Lemma pnode_Some leaf n h x : x * 2 ^ Z.of_nat h < n → ∃ v, pnode leaf n h x = Some v.
Proof.
  revert x. induction h as [|h IH]; intros x Hn; cbn [pnode];
    rewrite (proj2 (Z.leb_gt _ _) Hn); [by eexists|].
  rewrite pow2_S in *. destruct (IH (2 * x)) as [v ->]; [lia|]. by eexists.
Qed.

Lemma pnode_S leaf n h x : x * 2 ^ Z.of_nat (S h) < n →
  pnode leaf n (S h) x = l ← pnode leaf n h (2 * x);
    Some (match pnode leaf n h (2 * x + 1) with Some r => combine l r | None => l end).
Proof. intros Hn. cbn [pnode]. destruct (Z.leb_spec n (x * 2 ^ Z.of_nat (S h))); [lia|done]. Qed.

Lemma pnode_full leaf n h x : (x + 1) * 2 ^ Z.of_nat h ≤ n → pnode leaf n h x = Some (node leaf h x).
Proof.
  revert x. induction h as [|h IH]; intros x Hn.
  - cbn [pnode node]. rewrite (proj2 (Z.leb_gt _ _)); [done|]. simpl in *. lia.
  - pose proof (pow2_pos h). rewrite pnode_S by (rewrite pow2_S in *; lia). rewrite pow2_S in *.
    rewrite !IH by lia. done.
Qed.

(** A node none of whose right part exists. *)
Lemma pnode_left leaf n h x :
  n ≤ (2 * x + 1) * 2 ^ Z.of_nat h → pnode leaf n (S h) x = pnode leaf n h (2 * x).
Proof.
  intros Hn. destruct (decide (x * 2 ^ Z.of_nat (S h) < n)).
  - rewrite pnode_S, (pnode_None leaf n h (2 * x + 1)) by done. by destruct (pnode leaf n h (2 * x)).
  - rewrite !pnode_None; [done|rewrite pow2_S in *; lia|lia].
Qed.

(** The node over the end of the range. *)
Lemma pnode_end leaf n h : 0 ≤ n →
  pnode leaf n (S h) (lvl n (S h)) =
    if Z.even (lvl n h) then pnode leaf n h (lvl n h)
    else Some (match pnode leaf n h (lvl n h) with
               | Some v => combine (node leaf h (lvl n h - 1)) v
               | None => node leaf h (lvl n h - 1)
               end).
Proof.
  intros Hn. pose proof (lvl_spec n h). pose proof (pow2_pos h). rewrite lvl_S.
  destruct (even_cases (lvl n h)) as [[-> E]|[-> E]].
  - rewrite pnode_left, <- E by lia. done.
  - rewrite pnode_S by (rewrite pow2_S; lia). rewrite <- E.
    rewrite (pnode_full leaf n h (2 * _)) by lia. cbn [mbind option_bind].
    by replace (2 * (lvl n h / 2)) with (lvl n h - 1) by lia.
Qed.

(** Where two sequences of elements agree, so do the nodes. *)
Lemma node_ext leaf leaf' h x :
  (∀ i, x * 2 ^ Z.of_nat h ≤ i < (x + 1) * 2 ^ Z.of_nat h → leaf i = leaf' i) →
  node leaf h x = node leaf' h x.
Proof.
  revert x. induction h as [|h IH]; intros x Hl; cbn [node].
  - apply Hl. simpl. lia.
  - rewrite pow2_S in Hl. pose proof (pow2_pos h). f_equal; apply IH; intros i Hi; apply Hl; lia.
Qed.

Lemma pnode_ext leaf leaf' n h x :
  (∀ i, 0 ≤ i < n → leaf i = leaf' i) → 0 ≤ x → pnode leaf n h x = pnode leaf' n h x.
Proof.
  intros Hl. revert x. induction h as [|h IH]; intros x Hx; cbn [pnode];
    match goal with |- context [n <=? ?y] => destruct (Z.leb_spec n y) as [|Hlt]; [done|] end.
  - f_equal. apply Hl. simpl in Hlt. lia.
  - by rewrite !IH by lia.
Qed.

Lemma root_ext leaf leaf' n : (∀ i, 0 ≤ i < n → leaf i = leaf' i) → root leaf n = root leaf' n.
Proof. intros Hl. unfold root. by rewrite (pnode_ext leaf leaf') by (done || lia). Qed.

End tree.

(** ** Correctness of the operations *)

Section mmr_spec.

Context {Hash : Type} `{Hasher Hash} {Sto : Type} `{!MmrStore Hash Sto}.

(** The store holds every full node of the [n] elements [leaf]. *)
Definition holds (s : Sto) (n : Z) (leaf : Z → Hash) : Prop :=
  ∀ p, fits n p → LoadElement s p = Some (node leaf (pos_H p) (pos_X p)).

Lemma holds_load s n leaf h x :
  holds s n leaf → 0 ≤ x → (x + 1) * 2 ^ Z.of_nat h ≤ n →
  LoadElement s (mkPos h x) = Some (node leaf h x).
Proof. intros Hs Hx Hn. by rewrite Hs. Qed.

(** Aligned ranges: [a * 2 ^ K] elements and [n] more. *)
Lemma lvl_aligned a K n h : (h ≤ K)%nat → 0 ≤ n →
  lvl (a * 2 ^ Z.of_nat K + n) h = lvl (a * 2 ^ Z.of_nat K) h + lvl n h.
Proof.
  intros Hh Hn. unfold lvl. pose proof (pow2_pos h).
  replace (a * 2 ^ Z.of_nat K) with (a * 2 ^ Z.of_nat (K - h) * 2 ^ Z.of_nat h)
    by (rewrite <- Z.mul_assoc, <- Z.pow_add_r by lia; do 2 f_equal; lia).
  rewrite Z.div_add_l, Z.div_mul; lia.
Qed.

Lemma lvl_aligned_even a K h : (h < K)%nat → Z.even (lvl (a * 2 ^ Z.of_nat K) h) = true.
Proof.
  intros Hh. unfold lvl. pose proof (pow2_pos h).
  replace (a * 2 ^ Z.of_nat K) with (2 * (a * 2 ^ Z.of_nat (K - S h)) * 2 ^ Z.of_nat h).
  - rewrite Z.div_mul by lia. by rewrite Z.even_mul.
  - replace K with (K - S h + S h)%nat at 2 by lia.
    rewrite Nat2Z.inj_add, Z.pow_add_r, pow2_S by lia. ring.
Qed.

Lemma lvl_aligned_top a K n : 0 ≤ n < 2 ^ Z.of_nat K → lvl (a * 2 ^ Z.of_nat K + n) K = a.
Proof. intros Hn. unfold lvl. rewrite Z.div_add_l, Z.div_small by lia. lia. Qed.

Lemma pnode_aligned leaf a K n h :
  (h ≤ K)%nat → 0 ≤ a → 0 ≤ n < 2 ^ Z.of_nat h →
  pnode leaf (a * 2 ^ Z.of_nat K + n) h (lvl (a * 2 ^ Z.of_nat K + n) h) =
  pnode leaf (a * 2 ^ Z.of_nat K + n) K a.
Proof.
  intros Hh Ha Hn. pose proof (pow2_pos K).
  remember (K - h)%nat as d eqn:Ed. revert h Hh Hn Ed. induction d as [|d IH]; intros h Hh Hn Ed.
  - assert (h = K) as -> by lia. by rewrite lvl_aligned_top.
  - rewrite <- (IH (S h)) by (rewrite ?pow2_S; lia). rewrite (pnode_end _ _ h) by nia.
    rewrite (lvl_aligned _ _ _ h), (lvl_zero n h), Z.add_0_r by lia.
    by rewrite lvl_aligned_even by lia.
Qed.

Lemma get_HashForRange_loop_spec s leaf a K n fuel h :
  let n0 := a * 2 ^ Z.of_nat K in
  holds s (n0 + n) leaf → 0 ≤ a → 0 ≤ n < 2 ^ Z.of_nat K → n0 + n < 2 ^ 64 → (h ≤ K)%nat →
  n < 2 ^ Z.of_nat (h + fuel) →
  Mmr.get_HashForRange_loop (S fuel) h (lvl n0 h) (lvl n h) s (pnode leaf (n0 + n) h (lvl (n0 + n) h)) =
    Some (pnode leaf (n0 + n) K a).
Proof.
  intros n0 Hs Ha Hn HN. revert h. induction fuel as [|fuel IH]; intros h Hh Hf.
  all: pose proof (lvl_spec n h); pose proof (pow2_pos h).
  - cbn [Mmr.get_HashForRange_loop]. rewrite lvl_zero by (rewrite Nat.add_0_r in Hf; lia). simpl. unfold n0. rewrite pnode_aligned; [done|lia..|].
    rewrite Nat.add_0_r in Hf. lia.
  - replace (h + S fuel)%nat with (S h + fuel)%nat in Hf by lia. remember (S fuel) as f eqn:Ef in *. cbn [Mmr.get_HashForRange_loop].
    destruct (Z.eqb_spec (lvl n h) 0) as [Hz|Hz].
    { unfold n0. rewrite pnode_aligned by lia. done. }
    assert (h < K)%nat as HK.
    { destruct (decide (h < K)%nat); [done|]. rewrite lvl_zero in Hz; [done|].
      by replace h with K by lia. }
    assert (0 ≤ n0) by (unfold n0; nia).
    assert (EN : lvl (n0 + n) h = lvl n0 h + lvl n h) by (by apply lvl_aligned; lia).
    pose proof (lvl_spec (n0 + n) h). pose proof (lvl_nonneg n0 h). pose proof (lvl_nonneg n h).
    assert (Ev : Z.even (lvl (n0 + n) h) = Z.even (lvl n h)).
    { rewrite EN, Z.even_add. unfold n0. rewrite lvl_aligned_even by done. by destruct (Z.even (lvl n h)). }
    rewrite land_1_even', !shiftr_1, <- !lvl_S.
    rewrite <- EN, u64_small by nia.
    rewrite lxor_1, Ev.
    destruct (Z.even (lvl n h)) eqn:En; cbn [negb].
    + rewrite <- (IH (S h)) by (done || lia).
      f_equal. rewrite pnode_end, Ev by lia. done.
    + rewrite (holds_load _ _ _ _ _ Hs) by lia. cbn [mbind option_bind].
      rewrite <- (IH (S h)) by (done || lia).
      f_equal. rewrite pnode_end, Ev by lia. by destruct (pnode leaf (n0 + n) h _).
Qed.

Lemma get_HashForRange_spec (m : Mmr.t Sto) leaf a K n :
  let n0 := a * 2 ^ Z.of_nat K in
  holds (Mmr.m_Store m) (n0 + n) leaf → 0 ≤ a → 0 ≤ n < 2 ^ Z.of_nat K → n0 + n < 2 ^ 64 →
  Mmr.get_HashForRange m n0 n = Some (pnode leaf (n0 + n) K a).
Proof.
  intros n0 Hs Ha Hn HN. unfold Mmr.get_HashForRange.
  etransitivity; [|apply (get_HashForRange_loop_spec (Mmr.m_Store m) leaf a K n HMax 0); [done..|lia|]].
  - rewrite !lvl_0, (pnode_None leaf _ 0 (n0 + n)) by (simpl; lia). fold n0. reflexivity.
  - rewrite Nat.add_0_l, HMax_pow. pose proof (pow2_pos K). unfold n0 in *. nia.
Qed.

Lemma get_Hash_spec (m : Mmr.t Sto) leaf :
  holds (Mmr.m_Store m) (Mmr.m_Count m) leaf → 0 ≤ Mmr.m_Count m < 2 ^ 64 →
  Mmr.get_Hash m = Some (root leaf (Mmr.m_Count m)).
Proof.
  intros Hs Hn. unfold Mmr.get_Hash. pose proof (get_HashForRange_spec m leaf 0 HMax (Mmr.m_Count m)) as E.
  cbn zeta in E. rewrite Z.mul_0_l, Z.add_0_l, HMax_pow in E.
  rewrite E by (done || lia). reflexivity.
Qed.

(** *** Replacing and appending *)

Lemma fits_path i n h k :
  (h ≤ k)%nat → (lvl i k + 1) * 2 ^ Z.of_nat k ≤ n → (lvl i h + 1) * 2 ^ Z.of_nat h ≤ n.
Proof.
  induction 1 as [|k Hk IH]; [done|]. intros Hn. apply IH.
  rewrite lvl_S, pow2_S in Hn. pose proof (pow2_pos k). pose proof (even_cases (lvl i k)). nia.
Qed.

Lemma fits_lvl n h x : (x + 1) * 2 ^ Z.of_nat h ≤ n ↔ x < lvl n h.
Proof. pose proof (lvl_spec n h). pose proof (pow2_pos h). split; intros; nia. Qed.

Lemma lvl_sibling_S i h : Z.lxor (lvl i h) 1 / 2 = lvl i (S h).
Proof.
  rewrite lxor_1, lvl_S. destruct (even_cases (lvl i h)) as [[-> E]|[-> E]]; rewrite E at 1.
  - rewrite Z.mul_comm, Z.div_add_l by lia. change (1 / 2) with 0. lia.
  - replace (2 * (lvl i h / 2) + 1 - 1) with (lvl i h / 2 * 2) by lia. by rewrite Z.div_mul.
Qed.

(** A node and its sibling hash to their parent. *)
Lemma Interpret_sibling leaf i h :
  let x := Z.lxor (lvl i h) 1 in
  Interpret (node leaf h (lvl i h)) (node leaf h x) (negb (Z.land x 1 =? 0)) = node leaf (S h) (lvl i (S h)).
Proof.
  intros x. rewrite land_1_even, lvl_S. unfold x. rewrite lxor_1. cbn [node].
  destruct (even_cases (lvl i h)) as [[Ev E]|[Ev E]]; rewrite Ev; unfold Interpret.
  - rewrite Z.even_add, Ev. cbn. by rewrite <- E.
  - rewrite Z.even_sub, Ev. cbn. rewrite <- E. do 2 f_equal. lia.
Qed.

Lemma fits_mono n N p : n ≤ N → fits n p → fits N p.
Proof. unfold fits. lia. Qed.

Lemma Replace_loop_spec `{!MmrStoreOk Hash Sto} leaf i n N fuel h s bad :
  n ≤ N → 0 ≤ i → room_but s N bad → (∀ q, fits n q → bad q → (h ≤ pos_H q)%nat ∧ pos_X q = lvl i (pos_H q)) →
  lvl i h < lvl n h → n < 2 ^ Z.of_nat (h + fuel) →
  (∀ p, fits n p → ((pos_H p < h)%nat ∨ pos_X p ≠ lvl i (pos_H p)) →
    LoadElement s p = Some (node leaf (pos_H p) (pos_X p))) →
  ∃ s', Mmr.Replace_loop (S fuel) h (lvl i h) (lvl n h) (node leaf h (lvl i h)) s = Some s' ∧
    room_but s' N (λ q, bad q ∧ ¬ fits n q) ∧ holds s' n leaf.
Proof.
  intros HN Hi. revert h s bad. induction fuel as [|fuel IH]; intros h s bad Hr Hbad Hlt Hf Hs.
  { rewrite Nat.add_0_r in Hf. pose proof (lvl_nonneg i h Hi). pose proof (lvl_spec n h). nia. }
  replace (h + S fuel)%nat with (S h + fuel)%nat in Hf by lia.
  remember (S fuel) as f eqn:Ef in *. cbn [Mmr.Replace_loop].
  assert (Hfit : fits n (mkPos h (lvl i h))) by (split; [by apply lvl_nonneg|by apply fits_lvl]).
  destruct (save_ok s N bad (node leaf h (lvl i h)) _ Hr (fits_mono _ _ _ HN Hfit)) as (s1 & -> & Hr1 & Hl & Ho).
  cbn [mbind option_bind].
  assert (Hs1 : ∀ p, fits n p → (pos_H p ≤ h)%nat ∨ pos_X p ≠ lvl i (pos_H p) →
    LoadElement s1 p = Some (node leaf (pos_H p) (pos_X p))).
  { intros p Hp Hor. destruct (decide (p = mkPos h (lvl i h))) as [->|Hne]; [done|].
    assert (¬ bad p).
    { intros [Hh Hx]%Hbad; [|done]. destruct Hor; [|done]. apply Hne. destruct p as [h' x']; cbn in *. assert (h' = h) as -> by lia. by rewrite Hx. }
    rewrite Ho by (done || by eapply fits_mono). apply Hs; [done|]. destruct p as [h' x']; cbn in *.
    destruct (decide (h' = h)) as [->|]; [right; congruence|]. destruct Hor; [left; lia|by right]. }
  destruct (Z.leb_spec (lvl n h) (Z.lxor (lvl i h) 1)) as [Hend|Hgo].
  - assert (Htop : ∀ p, fits n p → (h < pos_H p)%nat → pos_X p ≠ lvl i (pos_H p)).
    { intros p [_ Hp] Hh Ex. rewrite Ex in Hp. apply (fits_path _ _ (S h)) in Hp; [|lia].
      rewrite lvl_S, pow2_S in Hp. pose proof (lvl_spec n h). pose proof (pow2_pos h).
      rewrite lxor_1 in Hend. destruct (even_cases (lvl i h)) as [[Ev E]|[Ev E]]; rewrite Ev in Hend; nia. }
    exists s1. split_and!; [done| |].
    + eapply room_mono; [|exact Hr1]. intros q [Hq Hne]. split; [done|]. intros Hfq. destruct (Hbad q Hfq Hq) as [Hh Hx].
      destruct (decide (pos_H q = h)) as [E|]; [|by apply (Htop q Hfq); [lia|]]. apply Hne. destruct q as [hq xq]; cbn in *. by subst.
    + intros p Hp. apply Hs1; [done|]. destruct (decide (pos_H p ≤ h)%nat); [by left|right]. apply Htop; [done|lia].
  - assert (0 ≤ Z.lxor (lvl i h) 1).
    { pose proof (lvl_nonneg i h Hi). rewrite lxor_1. pose proof (even_cases (lvl i h)).
      destruct (Z.even (lvl i h)); lia. }
    rewrite (Hs1 (mkPos h (Z.lxor (lvl i h) 1))); [|split; [done|by apply fits_lvl]|by left].
    cbn [mbind option_bind pos_H pos_X]. rewrite Interpret_sibling, !shiftr_1, lvl_sibling_S, <- lvl_S.
    destruct (IH (S h) s1 (λ q, bad q ∧ q ≠ mkPos h (lvl i h))) as (s' & E & Hr' & Hs'); try done.
    + intros q Hfq [Hq Hne]. destruct (Hbad q Hfq Hq) as [Hh Hx]. split; [|done]. destruct (decide (pos_H q = h)) as [E|]; [|lia].
      destruct Hne. destruct q as [hq xq]; cbn in *. by subst.
    + rewrite !lvl_S. rewrite lxor_1 in Hgo.
      destruct (even_cases (lvl i h)) as [[Ev E]|[Ev E]]; rewrite Ev in Hgo; apply Z.le_succ_l, Z.div_le_lower_bound; lia.
    + intros p Hp Hor. apply Hs1; [done|]. destruct Hor; [left; lia|by right].
    + exists s'. split_and!; [done| |done]. eapply room_mono; [|exact Hr']. by intros q [[? _] ?].
Qed.

(** The elements with one replaced. *)
Definition upd (leaf : Z → Hash) (i : Z) (hv : Hash) : Z → Hash :=
  λ j, if decide (j = i) then hv else leaf j.

Lemma upd_eq leaf i hv : upd leaf i hv i = hv.
Proof. unfold upd. by rewrite decide_True. Qed.

Lemma upd_ne leaf i hv j : j ≠ i → upd leaf i hv j = leaf j.
Proof. intros. unfold upd. by rewrite decide_False. Qed.

Lemma lvl_unique i h x : x * 2 ^ Z.of_nat h ≤ i < (x + 1) * 2 ^ Z.of_nat h → lvl i h = x.
Proof. intros Hx. pose proof (lvl_spec i h). pose proof (pow2_pos h). nia. Qed.

(** Only the nodes on the path of the element need not be valid before. *)
Lemma Replace_stale `{!MmrStoreOk Hash Sto} m leaf N i hv bad :
  let n := Mmr.m_Count m in
  0 ≤ i < n → n ≤ N → N < 2 ^ 64 → room_but (Mmr.m_Store m) N bad → (∀ q, fits n q → bad q → pos_X q = lvl i (pos_H q)) →
  (∀ p, fits n p → pos_X p ≠ lvl i (pos_H p) →
    LoadElement (Mmr.m_Store m) p = Some (node leaf (pos_H p) (pos_X p))) →
  ∃ m', Mmr.Replace m i hv = Some m' ∧ Mmr.m_Count m' = n ∧
    room_but (Mmr.m_Store m') N (λ q, bad q ∧ ¬ fits n q) ∧ holds (Mmr.m_Store m') n (upd leaf i hv).
Proof.
  intros n Hi Hn HN Hr Hbad Hs. unfold Mmr.Replace.
  destruct (Replace_loop_spec (upd leaf i hv) i n N HMax 0 (Mmr.m_Store m) bad) as (s' & E & Hr' & Hs').
  - done.
  - lia.
  - done.
  - intros q Hf Hq. split; [lia|by apply Hbad].
  - rewrite !lvl_0. lia.
  - rewrite Nat.add_0_l, HMax_pow. lia.
  - intros p Hp [?|Hx]; [lia|]. rewrite Hs by done. f_equal. apply node_ext. intros j Hj.
    symmetry. apply upd_ne. intros ->. apply lvl_unique in Hj. congruence.
  - rewrite !lvl_0 in E. cbn [node] in E. rewrite upd_eq in E.
    fold n. rewrite E. cbn [mbind option_bind]. by eexists.
Qed.

Lemma Replace_from `{!MmrStoreOk Hash Sto} m leaf N i hv :
  let n := Mmr.m_Count m in
  0 ≤ i < n → n ≤ N → N < 2 ^ 64 → room (Mmr.m_Store m) N →
  (∀ p, fits n p → pos_X p ≠ lvl i (pos_H p) →
    LoadElement (Mmr.m_Store m) p = Some (node leaf (pos_H p) (pos_X p))) →
  ∃ m', Mmr.Replace m i hv = Some m' ∧ Mmr.m_Count m' = n ∧
    room (Mmr.m_Store m') N ∧ holds (Mmr.m_Store m') n (upd leaf i hv).
Proof.
  intros n Hi Hn HN Hr Hs. destruct (Replace_stale m leaf N i hv (λ _, False)) as (m' & E & Ec & Hr' & Hs'); try done.
  exists m'. split_and!; [done|done| |done]. eapply room_mono; [|exact Hr']. by intros q [? _].
Qed.

Lemma Replace_spec `{!MmrStoreOk Hash Sto} m leaf N i hv :
  let n := Mmr.m_Count m in
  0 ≤ i < n → n ≤ N → N < 2 ^ 64 → room (Mmr.m_Store m) N → holds (Mmr.m_Store m) n leaf →
  ∃ m', Mmr.Replace m i hv = Some m' ∧ Mmr.m_Count m' = n ∧
    room (Mmr.m_Store m') N ∧ holds (Mmr.m_Store m') n (upd leaf i hv).
Proof. intros n Hi Hn HN Hr Hs. apply (Replace_from m leaf N); try done. intros p Hp _. by apply Hs. Qed.

Lemma Append_spec `{!MmrStoreOk Hash Sto} m leaf N hv :
  let n := Mmr.m_Count m in
  0 ≤ n → n + 1 ≤ N → N < 2 ^ 64 → room (Mmr.m_Store m) N → holds (Mmr.m_Store m) n leaf →
  ∃ m', Mmr.Append m hv = Some m' ∧ Mmr.m_Count m' = n + 1 ∧
    room (Mmr.m_Store m') N ∧ holds (Mmr.m_Store m') (n + 1) (upd leaf n hv).
Proof.
  intros n Hn Hn1 HN Hr Hs. unfold Mmr.Append. rewrite u64_small by lia.
  apply (Replace_from (Mmr.mk (n + 1) (Mmr.m_Store m)) leaf N); cbn; try done; [lia|].
  intros [h x] [Hx Hp] Hne; cbn in *. apply (holds_load _ n); [done|done|].
  pose proof (pow2_pos h). destruct (decide ((x + 1) * 2 ^ Z.of_nat h = n + 1)); [|lia].
  destruct Hne. symmetry. apply lvl_unique. lia.
Qed.

(** *** Paths *)

(** The sibling at level [h] of the path of element [i] of [n]. *)
Definition sib (leaf : Z → Hash) (n i : Z) (h : nat) : option (bool * Hash) :=
  let x := lvl i h in
  if Z.even x then (λ r, (true, r)) <$> pnode leaf n h (x + 1) else Some (false, node leaf h (x - 1)).

Lemma pnode_step leaf n i h v :
  0 ≤ i < n → pnode leaf n h (lvl i h) = Some v →
  pnode leaf n (S h) (lvl i (S h)) =
    Some (match sib leaf n i h with Some nd => Interpret_Node v nd | None => v end).
Proof.
  intros Hi Hv. pose proof (lvl_spec i h). pose proof (pow2_pos h). unfold sib.
  rewrite lvl_S. destruct (even_cases (lvl i h)) as [[-> E]|[-> E]].
  - rewrite pnode_S by (rewrite pow2_S; nia). rewrite <- E, Hv. cbn [mbind option_bind].
    by destruct (pnode leaf n h (lvl i h + 1)).
  - rewrite pnode_S by (rewrite pow2_S; nia). rewrite <- E, Hv.
    replace (2 * (lvl i h / 2)) with (lvl i h - 1) by lia. by rewrite pnode_full by nia.
Qed.

(** Above the levels of [n] there is the root alone. *)
Lemma sib_None leaf n i h : 0 ≤ i < n → n ≤ 2 ^ Z.of_nat h → sib leaf n i h = None.
Proof.
  intros Hi Hn. unfold sib. rewrite lvl_zero by lia. cbn. rewrite pnode_None by lia. done.
Qed.

Fixpoint path_from (leaf : Z → Hash) (n i : Z) (h k : nat) : list (bool * Hash * Position) :=
  match k with
  | O => []
  | S k => match sib leaf n i h with
           | Some nd => (nd, mkPos h (Z.lxor (lvl i h) 1)) :: path_from leaf n i (S h) k
           | None => path_from leaf n i (S h) k
           end
  end.

(** The path of element [i] in the tree of [n], from the element up. *)
Definition path (leaf : Z → Hash) (n i : Z) : list (bool * Hash * Position) :=
  path_from leaf n i 0 HMax.

Lemma path_from_nil leaf n i h k : 0 ≤ i < n → n ≤ 2 ^ Z.of_nat h → path_from leaf n i h k = [].
Proof.
  intros Hi. revert h. induction k as [|k IH]; intros h Hn; [done|]. cbn [path_from].
  rewrite sib_None by done. apply IH. rewrite pow2_S. pose proof (pow2_pos h). lia.
Qed.

Lemma path_from_pnode leaf n i h k v :
  0 ≤ i < n → pnode leaf n h (lvl i h) = Some v →
  pnode leaf n (h + k) (lvl i (h + k)) = Some (Interpret_Proof v (path_from leaf n i h k).*1).
Proof.
  intros Hi. revert h v. induction k as [|k IH]; intros h v Hv.
  - by rewrite Nat.add_0_r.
  - rewrite <- Nat.add_succ_comm. erewrite IH; [|by apply pnode_step]. cbn [path_from].
    by destruct (sib leaf n i h).
Qed.

(** The path leads from the element to the root. *)
Lemma path_root leaf n i :
  0 ≤ i < n → n < 2 ^ 64 → Interpret_Proof (leaf i) (path leaf n i).*1 = root leaf n.
Proof.
  intros Hi Hn. unfold path, root. pose proof (path_from_pnode leaf n i 0 HMax (leaf i) Hi) as E.
  rewrite lvl_0, pnode_full in E by (simpl; lia). specialize (E eq_refl). cbn [Nat.add] in E.
  rewrite lvl_zero in E by (rewrite HMax_pow; lia). by rewrite E.
Qed.

(** *** The hash after an append *)

Lemma get_PredictedHash_loop_spec s leaf n fuel h v :
  holds s n leaf → 0 ≤ n < 2 ^ 64 → (h + fuel)%nat = HMax →
  ∀ leaf', (∀ j, j < n → leaf' j = leaf j) →
  pnode leaf' (n + 1) h (lvl n h) = Some v →
  ∃ r, Mmr.get_PredictedHash_loop (S fuel) h (lvl n h) s v = Some r ∧
    pnode leaf' (n + 1) HMax 0 = Some r.
Proof.
  intros Hs Hn Hf leaf' Hl. revert h v Hf. induction fuel as [|fuel IH]; intros h v Hf Hv.
  all: pose proof (lvl_spec n h); pose proof (pow2_pos h); pose proof (lvl_nonneg n h).
  - rewrite Nat.add_0_r in Hf. subst h. rewrite lvl_zero in * by (rewrite HMax_pow; lia).
    exists v. done.
  - remember (S fuel) as f eqn:Ef in *. cbn [Mmr.get_PredictedHash_loop].
    destruct (Z.eqb_spec (lvl n h) 0) as [Hz|Hz].
    { exists v. split; [done|]. pose proof (path_from_pnode leaf' (n + 1) n h f v ltac:(lia) Hv) as E.
      rewrite Hf, path_from_nil, lvl_zero in E by (rewrite ?HMax_pow; lia). done. }
    apply pnode_step in Hv; [|lia]. unfold sib in Hv. rewrite land_1_even', !shiftr_1.
    destruct (even_cases (lvl n h)) as [[Ev E]|[Ev E]]; rewrite Ev in *; cbn [negb].
    + rewrite (pnode_None _ _ h) in Hv by lia. rewrite <- lvl_S. apply IH; [lia|done].
    + rewrite lvl_sibling_S, lxor_1, Ev, (holds_load _ _ _ _ _ Hs) by nia. cbn [mbind option_bind].
      apply IH; [lia|]. rewrite Hv. do 2 f_equal. unfold Interpret_Node. cbn. f_equal.
      apply node_ext. intros j Hj. apply Hl. nia.
Qed.

Lemma get_PredictedHash_spec m leaf hv :
  let n := Mmr.m_Count m in
  holds (Mmr.m_Store m) n leaf → 0 ≤ n < 2 ^ 64 →
  Mmr.get_PredictedHash m hv = Some (root (upd leaf n hv) (n + 1)).
Proof.
  intros n Hs Hn. unfold Mmr.get_PredictedHash. fold n.
  destruct (get_PredictedHash_loop_spec (Mmr.m_Store m) leaf n HMax 0 hv) with (leaf' := upd leaf n hv)
    as (r & E1 & E2); try done.
  - intros j Hj. apply upd_ne. lia.
  - rewrite lvl_0, pnode_full by (simpl; lia). cbn [node]. by rewrite upd_eq.
  - rewrite lvl_0 in E1. rewrite E1. unfold root. by rewrite E2.
Qed.

(** *** Building a proof is feeding the path to the builder *)

Fixpoint feed `{!IProofBuilder Hash B} (b : B) (l : list (bool * Hash * Position)) : bool * B :=
  match l with
  | [] => (true, b)
  | (nd, p) :: l => let '(ok, b) := AppendNode b nd p in if ok then feed b l else (false, b)
  end.

Definition blind (uninit : Hash) (nd : bool * Hash) : bool * Hash := (nd.1, uninit).

Lemma sibling_small i h : 0 ≤ i < 2 ^ 64 → (h < HMax)%nat → Z.even (lvl i h) = true →
  0 ≤ (lvl i h + 1) * 2 ^ Z.of_nat h < 2 ^ 64.
Proof.
  intros Hi Hh Ev. pose proof (lvl_spec i h). pose proof (pow2_pos h). pose proof (lvl_nonneg i h).
  destruct (even_cases (lvl i h)) as [[_ E]|[E _]]; [|congruence].
  assert (2 ^ 64 = 2 * 2 ^ Z.of_nat (HMax - S h) * 2 ^ Z.of_nat h) as E64.
  { rewrite <- HMax_pow. replace HMax with (HMax - S h + S h)%nat at 1 by lia.
    rewrite Nat2Z.inj_add, Z.pow_add_r, pow2_S by lia. ring. }
  assert (lvl i h < 2 * 2 ^ Z.of_nat (HMax - S h)) by nia. nia.
Qed.

Lemma get_Proof_sibling_spec uninit m leaf i h bIgnore :
  let n := Mmr.m_Count m in
  (bIgnore = false → holds (Mmr.m_Store m) n leaf) → 0 ≤ i < n → n < 2 ^ 64 → (h < HMax)%nat →
  Mmr.get_Proof_sibling uninit m h (lvl i h) bIgnore =
    Some ((if bIgnore then blind uninit else id) <$> sib leaf n i h).
Proof.
  intros n Hs Hi Hn Hh. pose proof (lvl_spec i h). pose proof (pow2_pos h). pose proof (lvl_nonneg i h).
  unfold Mmr.get_Proof_sibling, sib. rewrite land_1_even, lxor_1. fold n.
  destruct (Z.even (lvl i h)) eqn:Ev; cbn [negb andb orb].
  - pose proof (sibling_small i h ltac:(lia) Hh Ev) as Hx.
    rewrite Z.shiftl_mul_pow2, u64_small by lia. set (x := lvl i h + 1) in *.
    destruct (Z.leb_spec n (x * 2 ^ Z.of_nat h)) as [Hle|Hgt].
    { by rewrite pnode_None. }
    destruct (pnode_Some leaf n h x Hgt) as [v Hv]. destruct bIgnore; [by rewrite Hv|].
    specialize (Hs eq_refl). rewrite shiftr_lvl.
    destruct (Z.eqb_spec (lvl (n - x * 2 ^ Z.of_nat h) h) 0) as [Hz|Hz]; cbn [negb].
    + pose proof (lvl_spec (n - x * 2 ^ Z.of_nat h) h).
      pose proof (get_HashForRange_spec m leaf x h (n - x * 2 ^ Z.of_nat h)) as E.
      cbn zeta in E. replace (x * 2 ^ Z.of_nat h + (n - x * 2 ^ Z.of_nat h)) with n in E by lia.
      rewrite E by (done || lia). cbn [mbind option_bind]. by rewrite Hv.
    + assert (0 < lvl (n - x * 2 ^ Z.of_nat h) h)
        by (pose proof (lvl_nonneg (n - x * 2 ^ Z.of_nat h) h); lia).
      pose proof (lvl_spec (n - x * 2 ^ Z.of_nat h) h).
      rewrite (holds_load _ _ _ _ _ Hs), pnode_full by nia. done.
  - destruct bIgnore; [done|]. rewrite (holds_load _ _ _ _ _ (Hs eq_refl)); [done| |nia].
    destruct (even_cases (lvl i h)) as [[E _]|[_ E]]; [congruence|lia].
Qed.

Lemma get_ProofInternal_spec `{!IProofBuilder Hash B} uninit m leaf i bIgnore (b : B) :
  let n := Mmr.m_Count m in
  (bIgnore = false → holds (Mmr.m_Store m) n leaf) → 0 ≤ i < n → n < 2 ^ 64 →
  Mmr.get_ProofInternal uninit m b i bIgnore =
    Some (feed b (prod_map (if bIgnore then blind uninit else id) id <$> path leaf n i)).
Proof.
  intros n Hs Hi Hn. unfold Mmr.get_ProofInternal, path. fold n.
  assert (G : ∀ fuel h b, (h + fuel)%nat = HMax →
    Mmr.get_Proof_loop uninit m (S fuel) h (lvl i h) (lvl n h) bIgnore b =
      Some (feed b (prod_map (if bIgnore then blind uninit else id) id <$> path_from leaf n i h fuel))).
  { induction fuel as [|fuel IH]; intros h b' Hf.
    - rewrite Nat.add_0_r in Hf. subst h. cbn. rewrite (lvl_zero n) by (rewrite HMax_pow; lia). done.
    - remember (S fuel) as f eqn:Ef in IH |- *. cbn [Mmr.get_Proof_loop].
      destruct (Z.eqb_spec (lvl n h) 0) as [Hz|Hz].
      { pose proof (lvl_spec n h). rewrite path_from_nil by lia. done. }
      rewrite (get_Proof_sibling_spec uninit m leaf) by (done || lia). cbn [mbind option_bind].
      rewrite !shiftr_1, <- !lvl_S. replace (path_from leaf n i h f) with (path_from leaf n i h (S fuel)) by (by rewrite Ef).
      cbn [path_from]. fold n.
      destruct (sib leaf n i h) as [nd|]; cbn [fmap option_fmap option_map].
      + cbn. destruct (AppendNode b' _ _) as [[] b'']; [|done]. apply IH. lia.
      + apply IH. lia. }
  specialize (G HMax 0%nat b eq_refl). by rewrite !lvl_0 in G.
Qed.

Lemma get_Proof_spec `{!IProofBuilder Hash B} uninit m leaf i (b : B) :
  let n := Mmr.m_Count m in
  holds (Mmr.m_Store m) n leaf → 0 ≤ i < n → n < 2 ^ 64 →
  Mmr.get_Proof uninit m b i = Some (feed b (path leaf n i)).
Proof.
  intros n Hs Hi Hn. unfold Mmr.get_Proof. rewrite (get_ProofInternal_spec _ _ leaf) by done.
  do 2 f_equal. fold n. induction (path leaf n i) as [|[nd p] l IH]; [done|]. cbn. by f_equal.
Qed.

End mmr_spec.
