(* ===== verification/MerkleStores.v ===== *)
(** * core/merkle: the element stores

    [FlatMmr] lays the nodes out in a flat array in the order in which appending completes
    them; [FixedMmr] is the store over that array; [FlyMmr] recomputes nodes from the
    elements; [CompactMmr] keeps the peaks. *)

From stdpp Require Import base list numbers option.
From S2P Require Import Prelude Merkle.
Local Open Scope Z_scope.

(** ** FlatMmr *)

Module FlatMmr.

Fixpoint Pos2Idx_loop (fuel : nat) (val ret : Z) : option Z :=
  match fuel with
  | O => None
  | S fuel =>
    let val := Z.shiftr val 1 in
    if val =? 0 then Some ret else Pos2Idx_loop fuel val (u64 (ret + val))
  end.

Definition Pos2Idx (pos : Position) (hStoreFrom : nat) : option Z :=
  let nStep := u64 (u64 (Z.shiftl 2 (Z.of_nat (pos_H pos) - Z.of_nat hStoreFrom)) - 1) in
  let ret := u64 (u64 (u64 (pos_X pos + 1) * nStep) - 1) in
  Pos2Idx_loop (S HMax) (pos_X pos) ret.

Fixpoint get_TotalHashes_loop (fuel h : nat) (nCount : Z) (hStoreFrom : nat) (ret : Z) : option Z :=
  match fuel with
  | O => None
  | S fuel =>
    if nCount =? 0 then Some ret
    else
      let ret := if (hStoreFrom <=? h)%nat then u64 (ret + nCount) else ret in
      get_TotalHashes_loop fuel (S h) (Z.shiftr nCount 1) hStoreFrom ret
  end.

Definition get_TotalHashes (nCount : Z) (hStoreFrom : nat) : option Z :=
  get_TotalHashes_loop (S HMax) 0 nCount hStoreFrom 0.

End FlatMmr.

(** ** FixedMmr *)

Module FixedMmr.
Section fixed.

Context {Hash : Type}.

Definition Resize (uninit : Hash) (m_vHashes : list Hash) (nTotal : Z) : option (list Hash) :=
  n ← FlatMmr.get_TotalHashes nTotal 0; Some (resize (Z.to_nat n) uninit m_vHashes).

Definition LoadElement (m_vHashes : list Hash) (pos : Position) : option Hash :=
  i ← FlatMmr.Pos2Idx pos 0; m_vHashes !! Z.to_nat i.

(** Writing past the end of the vector is undefined. *)
Definition SaveElement (m_vHashes : list Hash) (hv : Hash) (pos : Position) : option (list Hash) :=
  i ← FlatMmr.Pos2Idx pos 0;
  if (Z.to_nat i <? length m_vHashes)%nat then Some (<[Z.to_nat i := hv]> m_vHashes) else None.

#[global] Instance FixedMmr_store : MmrStore Hash (list Hash) := {
  Merkle.LoadElement := LoadElement;
  Merkle.SaveElement := SaveElement;
}.

End fixed.
End FixedMmr.

(** ** FlyMmr *)

Module FlyMmr.
Section fly.

Context {Hash : Type} `{Hasher Hash}.

(** [Inner::Calculate], with [load] the element loader of the derived class. *)
Fixpoint Calculate (load : Z → Hash) (h : nat) (x : Z) : Hash :=
  match h with
  | S h =>
    let x2 := u64 (Z.shiftl x 1) in
    let hv := Calculate load h x2 in
    let hv2 := Calculate load h (u64 (x2 + 1)) in
    Interpret hv hv2 true
  | O => load x
  end.

#[global] Instance FlyMmr_store : MmrStore Hash (Z → Hash) := {
  Merkle.LoadElement := λ load pos, Some (Calculate load (pos_H pos) (pos_X pos));
  Merkle.SaveElement := λ _ _ _, None;
}.

Definition get_Hash (m_Count : Z) (load : Z → Hash) : option Hash := Mmr.get_Hash (Mmr.mk m_Count load).

Definition get_Proof `{!IProofBuilder Hash B} (uninit : Hash) (m_Count : Z) (load : Z → Hash) (b : B) (i : Z)
    : option (bool * B) :=
  Mmr.get_Proof uninit (Mmr.mk m_Count load) b i.

End fly.
End FlyMmr.

(** ** CompactMmr *)

Module CompactMmr.
Section compact.

Context {Hash : Type} `{Hasher Hash}.

Record t := mk { m_Count : Z; m_vNodes : list Hash }.

Fixpoint get_Hash_loop (i : nat) (hv : Hash) (v : list Hash) : option Hash :=
  match i with
  | O => Some hv
  | S i => y ← v !! i; get_Hash_loop i (Interpret hv y false) v
  end.

Definition get_Hash (m : t) : option Hash :=
  match length (m_vNodes m) with
  | O => Some hZero
  | S i => hv ← m_vNodes m !! i; get_Hash_loop i hv (m_vNodes m)
  end.

Fixpoint get_PredictedHash_loop (fuel : nat) (n : Z) (iPos : nat) (hv : Hash) (v : list Hash) : option Hash :=
  match fuel with
  | O => None
  | S fuel =>
    if n =? 0 then Some hv
    else if negb (Z.land 1 n =? 0) then
      match iPos with
      | O => None
      | S iPos => y ← v !! iPos; get_PredictedHash_loop fuel (Z.shiftr n 1) iPos (Interpret hv y false) v
      end
    else get_PredictedHash_loop fuel (Z.shiftr n 1) iPos hv v
  end.

Definition get_PredictedHash (m : t) (hvAppend : Hash) : option Hash :=
  get_PredictedHash_loop (S HMax) (m_Count m) (length (m_vNodes m)) hvAppend (m_vNodes m).

Fixpoint Append_loop (fuel : nat) (n : Z) (hv1 : Hash) (v : list Hash) : option (list Hash) :=
  match fuel with
  | O => None
  | S fuel =>
    if Z.land 1 n =? 0 then Some (v ++ [hv1])
    else
      back ← v !! pred (length v);
      Append_loop fuel (Z.shiftr n 1) (Interpret hv1 back false) (take (pred (length v)) v)
  end.

Definition Append (m : t) (hv : Hash) : option t :=
  v ← Append_loop (S HMax) (m_Count m) hv (m_vNodes m);
  Some (mk (u64 (m_Count m + 1)) v).

End compact.

Arguments t : clear implicits.

End CompactMmr.

(** ** The flat layout *)

(** The nodes at levels [h .. h + k - 1] that [n] elements complete. *)
Fixpoint lsum (n : Z) (h k : nat) : Z :=
  match k with O => 0 | S k => lvl n h + lsum n (S h) k end.

(** The nodes at level [h0] and above that [n] elements complete. *)
Definition total (n : Z) (h0 : nat) : Z := lsum n h0 (HMax - h0).

Lemma lsum_mono a b h k : a ≤ b → lsum a h k ≤ lsum b h k.
Proof.
  intros Hab. revert h. induction k as [|k IH]; intros h; cbn; [lia|].
  pose proof (lvl_le a b h Hab). specialize (IH (S h)). lia.
Qed.

Lemma lsum_app n h k1 k2 : lsum n h (k1 + k2) = lsum n h k1 + lsum n (h + k1) k2.
Proof.
  revert h. induction k1 as [|k1 IH]; intros h; cbn; [by rewrite Nat.add_0_r|].
  rewrite IH. rewrite Nat.add_succ_comm. lia.
Qed.

Lemma lsum_bound n h k : 0 ≤ n → 0 ≤ lsum n h k ≤ Z.max 0 (2 * lvl n h - 1).
Proof.
  intros Hn. revert h. induction k as [|k IH]; intros h; cbn; pose proof (lvl_nonneg n h Hn); [lia|].
  specialize (IH (S h)). rewrite (lvl_S n h) in IH. pose proof (Z.mul_div_le (lvl n h) 2). lia.
Qed.

Lemma lsum_zero n h k : 0 ≤ n < 2 ^ Z.of_nat h → lsum n h k = 0.
Proof.
  revert h. induction k as [|k IH]; intros h Hn; cbn; [done|].
  rewrite lvl_zero, IH; [done| |done]. rewrite pow2_S. lia.
Qed.

Lemma get_TotalHashes_spec n h0 :
  0 ≤ n ≤ 2 ^ 63 → (h0 ≤ HMax)%nat → FlatMmr.get_TotalHashes n h0 = Some (total n h0).
Proof.
  intros Hn Hh0. unfold FlatMmr.get_TotalHashes.
  assert (G : ∀ fuel h ret, (h + fuel)%nat = HMax →
    0 ≤ ret → ret + lsum n h fuel < 2 ^ 64 →
    FlatMmr.get_TotalHashes_loop (S fuel) h (lvl n h) h0 ret =
      Some (ret + lsum n (h `max` h0) (HMax - h `max` h0))).
  { induction fuel as [|fuel IH]; intros h ret Hf Hr Hb.
    - cbn. rewrite lvl_zero by (replace h with HMax by lia; rewrite HMax_pow; lia). cbn.
      replace (HMax - h `max` h0)%nat with 0%nat by lia. cbn. f_equal. lia.
    - remember (S fuel) as f eqn:Ef in IH. rewrite <- Ef. cbn [FlatMmr.get_TotalHashes_loop].
      pose proof (lvl_spec n h). cbn [lsum] in Hb.
      destruct (Z.eqb_spec (lvl n h) 0) as [Hz|Hz].
      { rewrite lsum_zero; [f_equal; lia|]. split; [lia|].
        apply Z.lt_le_trans with (2 ^ Z.of_nat h); [lia|]. apply Z.pow_le_mono_r; lia. }
      pose proof (lsum_bound n (S h) fuel ltac:(lia)). pose proof (lvl_nonneg n h ltac:(lia)).
      rewrite shiftr_1, <- lvl_S. destruct (Nat.leb_spec h0 h).
      + rewrite u64_small, IH by lia. f_equal.
        replace (h `max` h0)%nat with h by lia. replace (S h `max` h0)%nat with (S h) by lia.
        replace (HMax - h)%nat with (S (HMax - S h)) by lia. cbn. lia.
      + rewrite IH by lia. do 2 f_equal; f_equal; lia. }
  specialize (G HMax 0%nat 0). rewrite lvl_0 in G. rewrite G; [done|done|lia|].
  pose proof (lsum_bound n 0 HMax ltac:(lia)). rewrite lvl_0 in *. lia.
Qed.

(** The last element under a position. *)
Definition last_leaf (p : Position) : Z := (pos_X p + 1) * 2 ^ Z.of_nat (pos_H p) - 1.

Lemma lvl_lvl n a b : lvl (lvl n a) b = lvl n (a + b).
Proof.
  unfold lvl. pose proof (pow2_pos a). pose proof (pow2_pos b).
  rewrite Z.div_div, <- Z.pow_add_r by lia. by rewrite Nat2Z.inj_add.
Qed.

Lemma lvl_last_leaf p h : (h ≤ pos_H p)%nat →
  lvl (last_leaf p) h = (pos_X p + 1) * 2 ^ Z.of_nat (pos_H p - h) - 1.
Proof.
  intros Hh. apply lvl_unique. unfold last_leaf. pose proof (pow2_pos h).
  replace (2 ^ Z.of_nat (pos_H p)) with (2 ^ Z.of_nat (pos_H p - h) * 2 ^ Z.of_nat h)
    by (rewrite <- Z.pow_add_r by lia; f_equal; lia). lia.
Qed.

Lemma lsum_shift n a h k : lsum n (a + h) k = lsum (lvl n a) h k.
Proof.
  revert h. induction k as [|k IH]; intros h; cbn; [done|]. rewrite lvl_lvl, <- IH. by rewrite Nat.add_succ_r.
Qed.

Lemma lsum_last_leaf p h d : (h + d = S (pos_H p))%nat →
  lsum (last_leaf p) h d = (pos_X p + 1) * (2 ^ Z.of_nat d - 1) - Z.of_nat d.
Proof.
  revert h. induction d as [|d IH]; intros h Hd; [simpl; lia|]. cbn [lsum].
  rewrite IH, lvl_last_leaf, pow2_S by lia. replace (pos_H p - h)%nat with d by lia. lia.
Qed.

Lemma lsum_extend n h k k' : (k ≤ k')%nat → 0 ≤ n < 2 ^ Z.of_nat (h + k) → lsum n h k' = lsum n h k.
Proof.
  intros Hk Hn. replace k' with (k + (k' - k))%nat by lia. rewrite lsum_app, (lsum_zero n (h + k)); lia.
Qed.

Lemma Pos2Idx_loop_spec x fuel j ret :
  0 ≤ x < 2 ^ 64 → (j + fuel)%nat = HMax → 0 ≤ ret → ret + lsum x (S j) fuel < 2 ^ 64 →
  FlatMmr.Pos2Idx_loop (S fuel) (lvl x j) ret = Some (ret + lsum x (S j) fuel).
Proof.
  intros Hx. revert j ret. induction fuel as [|fuel IH]; intros j ret Hf Hr Hb.
  - cbn. rewrite shiftr_1, <- lvl_S, lvl_zero; [cbn; f_equal; lia|].
    replace j with HMax by lia. rewrite pow2_S, HMax_pow. lia.
  - remember (S fuel) as f eqn:Ef in IH. rewrite <- Ef at 1. cbn [FlatMmr.Pos2Idx_loop].
    rewrite shiftr_1, <- lvl_S. pose proof (lvl_spec x (S j)). pose proof (lvl_nonneg x (S j)).
    pose proof (lsum_bound x (S (S j)) fuel). cbn [lsum] in *.
    destruct (Z.eqb_spec (lvl x (S j)) 0) as [Hz|Hz].
    + rewrite Hz, lsum_zero; [f_equal; lia|]. rewrite pow2_S. lia.
    + rewrite u64_small, IH by lia. f_equal. lia.
Qed.

Lemma lsum_last_leaf_succ p h d : (h + d ≤ S (pos_H p))%nat →
  lsum (last_leaf p + 1) h d = lsum (last_leaf p) h d + Z.of_nat d.
Proof.
  revert h. induction d as [|d IH]; intros h Hd; [simpl; lia|]. cbn [lsum].
  rewrite IH, lvl_last_leaf by lia.
  enough (lvl (last_leaf p + 1) h = (pos_X p + 1) * 2 ^ Z.of_nat (pos_H p - h)) by lia.
  unfold last_leaf, lvl. rewrite Z.sub_add.
  replace (2 ^ Z.of_nat (pos_H p)) with (2 ^ Z.of_nat (pos_H p - h) * 2 ^ Z.of_nat h)
    by (rewrite <- Z.pow_add_r by lia; f_equal; lia).
  pose proof (pow2_pos h). rewrite Z.mul_assoc, Z.div_mul; lia.
Qed.

(** Completing a node's last element completes the node. *)
Lemma total_last_leaf p h0 : (h0 ≤ pos_H p < HMax)%nat →
  total (last_leaf p) h0 + Z.of_nat (pos_H p - h0) < total (last_leaf p + 1) h0.
Proof.
  intros Hh. unfold total.
  replace (HMax - h0)%nat with ((S (pos_H p - h0)) + (HMax - S (pos_H p)))%nat by lia.
  rewrite !lsum_app, lsum_last_leaf_succ by lia.
  pose proof (lsum_mono (last_leaf p) (last_leaf p + 1) (h0 + S (pos_H p - h0)) (HMax - S (pos_H p))). lia.
Qed.

Lemma total_bound n h0 : 0 ≤ n ≤ 2 ^ 63 → 0 ≤ total n h0 < 2 ^ 64.
Proof.
  intros Hn. unfold total. pose proof (lsum_bound n h0 (HMax - h0)).
  pose proof (lvl_spec n h0). pose proof (pow2_pos h0). pose proof (lvl_nonneg n h0). nia.
Qed.

Lemma total_mono a b h0 : a ≤ b → total a h0 ≤ total b h0.
Proof. apply lsum_mono. Qed.

Lemma last_leaf_H p : 0 ≤ pos_X p → last_leaf p < 2 ^ 63 → (pos_H p < HMax)%nat.
Proof.
  intros Hx He. apply Nat2Z.inj_lt, (Z.pow_lt_mono_r_iff 2); [lia|lia|].
  rewrite HMax_pow. unfold last_leaf in He. pose proof (pow2_pos (pos_H p)). nia.
Qed.

Lemma last_leaf_nonneg p : 0 ≤ pos_X p → 0 ≤ last_leaf p.
Proof. intros. unfold last_leaf. pose proof (pow2_pos (pos_H p)). nia. Qed.

Lemma u64_pred x : u64 (u64 x - 1) = u64 (x - 1).
Proof. apply Zminus_mod_idemp_l. Qed.

(** The index of a node: the nodes complete before its last element, then the levels. *)
Lemma Pos2Idx_spec p h0 :
  (h0 ≤ pos_H p)%nat → 0 ≤ pos_X p → last_leaf p < 2 ^ 63 →
  FlatMmr.Pos2Idx p h0 = Some (total (last_leaf p) h0 + Z.of_nat (pos_H p - h0)).
Proof.
  intros Hh Hx He. unfold FlatMmr.Pos2Idx.
  pose proof (pow2_pos (pos_H p)). pose proof (pow2_pos (pos_H p - h0)).
  assert (HH : (pos_H p < HMax)%nat) by (by apply last_leaf_H).
  assert (Hle : 2 ^ Z.of_nat (pos_H p - h0) ≤ 2 ^ Z.of_nat (pos_H p)) by (apply Z.pow_le_mono_r; lia).
  assert (Hx2 : pos_X p < 2 ^ Z.of_nat (HMax - pos_H p)).
  { assert (2 ^ 64 = 2 ^ Z.of_nat (HMax - pos_H p) * 2 ^ Z.of_nat (pos_H p))
      by (rewrite <- HMax_pow, <- Z.pow_add_r by lia; f_equal; lia). unfold last_leaf in He. nia. }
  set (st := 2 * 2 ^ Z.of_nat (pos_H p - h0) - 1).
  assert (Et : total (last_leaf p) h0 + Z.of_nat (pos_H p - h0) = (pos_X p + 1) * st - 1 + lsum (pos_X p) 1 HMax).
  { unfold total. replace (HMax - h0)%nat with ((S (pos_H p - h0)) + (HMax - S (pos_H p)))%nat by lia.
    rewrite lsum_app, lsum_last_leaf, pow2_S by lia.
    replace (h0 + S (pos_H p - h0))%nat with (pos_H p + 1)%nat by lia.
    rewrite lsum_shift, lvl_last_leaf, Nat.sub_diag by lia.
    replace ((pos_X p + 1) * 2 ^ Z.of_nat 0 - 1) with (pos_X p) by (simpl; lia).
    rewrite (lsum_extend (pos_X p) 1 (HMax - S (pos_H p)) HMax); [unfold st; lia|lia|].
    by replace (1 + (HMax - S (pos_H p)))%nat with (HMax - pos_H p)%nat by lia. }
  rewrite Z.shiftl_mul_pow2 by lia. replace (Z.of_nat (pos_H p) - Z.of_nat h0) with (Z.of_nat (pos_H p - h0)) by lia.
  assert (1 ≤ st < 2 ^ 64 ∧ pos_X p + 1 < 2 ^ 64 ∧ (pos_X p + 1) * st < 2 ^ 64) as (? & ? & ?)
    by (unfold st, last_leaf in *; split_and!; nia).
  rewrite (u64_pred (2 * _)), (u64_small (2 * _ - 1)), (u64_small (pos_X p + 1)) by (unfold st in *; lia).
  fold st. rewrite (u64_small (_ * st)), u64_small by nia.
  pose proof (Pos2Idx_loop_spec (pos_X p) HMax 0 ((pos_X p + 1) * st - 1)) as E. rewrite lvl_0 in E.
  rewrite Et, E; [done|lia|done|nia|]. rewrite <- Et.
  pose proof (total_last_leaf p h0). pose proof (last_leaf_nonneg p Hx).
  pose proof (total_bound (last_leaf p + 1) h0). lia.
Qed.

(** *** The layout has a place for each node *)

Lemma Pos2Idx_order p q h0 :
  (h0 ≤ pos_H p < HMax)%nat → last_leaf p < last_leaf q →
  total (last_leaf p) h0 + Z.of_nat (pos_H p - h0) < total (last_leaf q) h0 + Z.of_nat (pos_H q - h0).
Proof.
  intros Hp Hlt. pose proof (total_last_leaf p h0 Hp).
  pose proof (total_mono (last_leaf p + 1) (last_leaf q) h0 ltac:(lia)). lia.
Qed.

Lemma fits_last_leaf n p : fits n p ↔ 0 ≤ pos_X p ∧ last_leaf p < n.
Proof. unfold fits, last_leaf. lia. Qed.

Lemma last_leaf_inj p q : 0 ≤ pos_X p → 0 ≤ pos_X q → pos_H p = pos_H q → last_leaf p = last_leaf q → p = q.
Proof.
  destruct p as [h x], q as [h' x']; unfold last_leaf; cbn. intros Hx Hx' <- E. f_equal.
  pose proof (pow2_pos h). nia.
Qed.

Lemma Pos2Idx_fits n p h0 :
  0 ≤ n ≤ 2 ^ 63 → fits n p → (h0 ≤ pos_H p)%nat →
  ∃ i, FlatMmr.Pos2Idx p h0 = Some i ∧ 0 ≤ i < total n h0.
Proof.
  intros Hn [Hx Hp]%fits_last_leaf Hh. pose proof (last_leaf_nonneg p Hx).
  rewrite Pos2Idx_spec by lia. eexists; split; [done|].
  pose proof (total_last_leaf p h0 ltac:(pose proof (last_leaf_H p); lia)).
  pose proof (total_mono (last_leaf p + 1) n h0). pose proof (total_bound (last_leaf p) h0). lia.
Qed.

Lemma Pos2Idx_inj n p q h0 i :
  n ≤ 2 ^ 63 → fits n p → fits n q → (h0 ≤ pos_H p)%nat → (h0 ≤ pos_H q)%nat →
  FlatMmr.Pos2Idx p h0 = Some i → FlatMmr.Pos2Idx q h0 = Some i → p = q.
Proof.
  intros Hn [Hx Hp]%fits_last_leaf [Hy Hq]%fits_last_leaf Hhp Hhq.
  rewrite !Pos2Idx_spec by lia. intros [= E1] [= E2].
  pose proof (last_leaf_H p Hx ltac:(lia)). pose proof (last_leaf_H q Hy ltac:(lia)).
  destruct (Z.lt_trichotomy (last_leaf p) (last_leaf q)) as [Hlt|[Heq|Hlt]].
  - pose proof (Pos2Idx_order p q h0). lia.
  - apply last_leaf_inj; try done. rewrite Heq in E1. lia.
  - pose proof (Pos2Idx_order q p h0). lia.
Qed.

(** ** FixedMmr implements the store *)

Section fixed_ok.

Context {Hash : Type}.

Definition fixed_room (s : list Hash) (n : Z) : Prop :=
  0 ≤ n ≤ 2 ^ 63 ∧ total n 0 ≤ Z.of_nat (length s).

#[global] Instance FixedMmr_ok : MmrStoreOk Hash (list Hash).
Proof.
  refine {| room_but s n _ := fixed_room s n |}; [done|]. intros s n bad h p [Hn Hr] Hp.
  destruct (Pos2Idx_fits n p 0 Hn Hp) as (i & Ei & Hi); [lia|].
  exists (<[Z.to_nat i := h]> s). cbn [LoadElement SaveElement FixedMmr.FixedMmr_store]. unfold FixedMmr.SaveElement, FixedMmr.LoadElement. rewrite Ei.
  cbn [mbind option_bind]. rewrite (proj2 (Nat.ltb_lt _ _)) by lia. split_and!; [done| | |].
  - unfold fixed_room. by rewrite length_insert.
  - rewrite list_lookup_insert_eq by lia. done.
  - intros q Hq _ Hne. destruct (Pos2Idx_fits n q 0 Hn Hq) as (j & Ej & Hj); [lia|]. rewrite Ej.
    cbn [mbind option_bind]. apply list_lookup_insert_ne. intros E. destruct Hne.
    apply (Pos2Idx_inj n q p 0 j); [lia|done|done|lia|lia|done|]. rewrite Ei. f_equal. lia.
Defined.

Lemma Resize_room (uninit : Hash) s n :
  0 ≤ n ≤ 2 ^ 63 → ∃ s', FixedMmr.Resize uninit s n = Some s' ∧ room s' n.
Proof.
  intros Hn. unfold FixedMmr.Resize. rewrite get_TotalHashes_spec by lia. cbn [mbind option_bind].
  eexists; split; [done|]. split; [done|]. rewrite length_resize. pose proof (total_bound n 0 Hn). lia.
Qed.

End fixed_ok.

(** ** FlyMmr holds all nodes *)

Section fly_ok.

Context {Hash : Type} `{Hasher Hash}.

Lemma Calculate_node load h x :
  0 ≤ x → (x + 1) * 2 ^ Z.of_nat h ≤ 2 ^ 64 → FlyMmr.Calculate load h x = node load h x.
Proof.
  revert x. induction h as [|h IH]; intros x Hx Hb; [done|]. rewrite pow2_S in Hb. pose proof (pow2_pos h).
  cbn [FlyMmr.Calculate node]. rewrite Z.shiftl_mul_pow2 by lia. change (2 ^ 1) with 2.
  rewrite (Z.mul_comm x 2). rewrite (u64_small (2 * x)), (u64_small (2 * x + 1)) by nia.
  rewrite !IH by lia. done.
Qed.

Lemma Fly_holds load n : n ≤ 2 ^ 64 → holds load n load.
Proof. intros Hn [h x] [Hx Hp]. cbn in *. rewrite Calculate_node; [done|done|lia]. Qed.

End fly_ok.

(** ** CompactMmr *)

Section compact_ok.

Context {Hash : Type} `{Hasher Hash}.

(** The peaks of [n] elements at the levels [h .. h + k - 1], the highest first. *)
Fixpoint peaks_from (leaf : Z → Hash) (n : Z) (h k : nat) : list Hash :=
  match k with
  | O => []
  | S k => peaks_from leaf n (S h) k ++ (if Z.even (lvl n h) then [] else [node leaf h (lvl n h - 1)])
  end.

Definition compact_ok (m : CompactMmr.t Hash) (leaf : Z → Hash) : Prop :=
  0 ≤ CompactMmr.m_Count m < 2 ^ 64 ∧
  CompactMmr.m_vNodes m = peaks_from leaf (CompactMmr.m_Count m) 0 HMax.

(** The two loops from the back of the peaks, [v ++ w] with [w] behind the position. *)
Lemma Compact_get_Hash_loop leaf n h k v w :
  0 ≤ n → pnode leaf n h (lvl n h) = Some v →
  ∃ r, CompactMmr.get_Hash_loop (length (peaks_from leaf n h k)) v (peaks_from leaf n h k ++ w) = Some r ∧
    pnode leaf n (h + k) (lvl n (h + k)) = Some r.
Proof.
  intros Hn. revert h v w. induction k as [|k IH]; intros h v w Hv.
  { exists v. by rewrite Nat.add_0_r. }
  cbn [peaks_from]. rewrite <- Nat.add_succ_comm. pose proof (pnode_end leaf n h Hn) as E. rewrite Hv in E.
  destruct (Z.even (lvl n h)).
  - rewrite app_nil_r. by apply IH.
  - destruct (IH (S h) _ ([node leaf h (lvl n h - 1)] ++ w) E) as (r & Er & Hr). exists r. split; [|done].
    rewrite length_app, Nat.add_1_r. cbn [CompactMmr.get_Hash_loop].
    rewrite lookup_app_l, lookup_app_r, Nat.sub_diag by (rewrite ?length_app; simpl; lia).
    cbn [lookup list_lookup mbind option_bind]. rewrite <- app_assoc. exact Er.
Qed.

Lemma Compact_get_Hash_from leaf n h k w :
  0 ≤ n → pnode leaf n h (lvl n h) = None →
  match length (peaks_from leaf n h k) with
  | O => pnode leaf n (h + k) (lvl n (h + k)) = None
  | S i => ∃ v, (peaks_from leaf n h k ++ w) !! i = Some v ∧
      ∃ r, CompactMmr.get_Hash_loop i v (peaks_from leaf n h k ++ w) = Some r ∧
        pnode leaf n (h + k) (lvl n (h + k)) = Some r
  end.
Proof.
  intros Hn. revert h w. induction k as [|k IH]; intros h w Hv.
  { by rewrite Nat.add_0_r. }
  cbn [peaks_from]. rewrite <- Nat.add_succ_comm. pose proof (pnode_end leaf n h Hn) as E. rewrite Hv in E.
  destruct (Z.even (lvl n h)).
  - rewrite app_nil_r. by apply IH.
  - rewrite length_app, Nat.add_1_r. exists (node leaf h (lvl n h - 1)). split.
    + by rewrite lookup_app_l, lookup_app_r, Nat.sub_diag by (rewrite ?length_app; simpl; lia).
    + rewrite <- app_assoc. by apply Compact_get_Hash_loop.
Qed.

Lemma Compact_get_Hash_spec m leaf :
  compact_ok m leaf → CompactMmr.get_Hash m = Some (root leaf (CompactMmr.m_Count m)).
Proof.
  destruct m as [n v]. intros [Hn Hv]; cbn in *. unfold CompactMmr.get_Hash; cbn. rewrite Hv.
  pose proof (Compact_get_Hash_from leaf n 0 HMax [] ltac:(lia)) as G.
  rewrite lvl_0, pnode_None in G by (simpl; lia). specialize (G eq_refl). rewrite app_nil_r in G.
  cbn [Nat.add] in G. rewrite lvl_zero in G by (rewrite HMax_pow; lia). unfold root.
  destruct (length _); [by rewrite G|]. destruct G as (v' & -> & r & Er & ->). exact Er.
Qed.

Lemma Compact_get_PredictedHash_loop leaf leaf' n fuel h v w :
  0 ≤ n < 2 ^ 64 → (h + fuel)%nat = HMax → (∀ j, j < n → leaf' j = leaf j) →
  pnode leaf' (n + 1) h (lvl n h) = Some v →
  ∃ r, CompactMmr.get_PredictedHash_loop (S fuel) (lvl n h) (length (peaks_from leaf n h fuel)) v
         (peaks_from leaf n h fuel ++ w) = Some r ∧
    pnode leaf' (n + 1) HMax 0 = Some r.
Proof.
  intros Hn Hf Hl. revert h v w Hf. induction fuel as [|fuel IH]; intros h v w Hf Hv.
  all: pose proof (lvl_spec n h); pose proof (pow2_pos h); pose proof (lvl_nonneg n h).
  - rewrite Nat.add_0_r in Hf. subst h. rewrite lvl_zero in * by (rewrite HMax_pow; lia). by exists v.
  - remember (S fuel) as f eqn:Ef in IH |- *. cbn [CompactMmr.get_PredictedHash_loop].
    destruct (Z.eqb_spec (lvl n h) 0) as [Hz|Hz].
    { exists v. split; [done|]. pose proof (path_from_pnode leaf' (n + 1) n h (S fuel) v ltac:(lia) Hv) as E.
      rewrite Hf, path_from_nil, lvl_zero in E by (rewrite ?HMax_pow; lia). done. }
    apply pnode_step in Hv; [|lia]. unfold sib in Hv. rewrite land_1_even', !shiftr_1, <- lvl_S.
    replace (peaks_from leaf n h f) with (peaks_from leaf n h (S fuel)) by (by rewrite Ef). cbn [peaks_from].
    destruct (Z.even (lvl n h)) eqn:Ev; cbn [negb].
    + rewrite (pnode_None _ _ h) in Hv by lia. rewrite app_nil_r. apply IH; [lia|done].
    + rewrite length_app, Nat.add_1_r, lookup_app_l, lookup_app_r, Nat.sub_diag
        by (rewrite ?length_app; simpl; lia).
      cbn [lookup list_lookup mbind option_bind]. rewrite <- app_assoc. apply IH; [lia|].
      rewrite Hv. unfold Interpret_Node. cbn. do 2 f_equal. apply node_ext. intros j Hj. apply Hl. nia.
Qed.

Lemma Compact_get_PredictedHash_spec m leaf hv :
  let n := CompactMmr.m_Count m in
  compact_ok m leaf → CompactMmr.get_PredictedHash m hv = Some (root (upd leaf n hv) (n + 1)).
Proof.
  destruct m as [n v]. intros n' [Hn Hv]; cbn [CompactMmr.m_Count CompactMmr.m_vNodes] in *. unfold CompactMmr.get_PredictedHash; cbn [CompactMmr.m_Count CompactMmr.m_vNodes]. subst v n'.
  destruct (Compact_get_PredictedHash_loop leaf (upd leaf n hv) n HMax 0 hv [])
    as (r & Er & Hr); [done|done| | |].
  - intros j Hj. apply upd_ne. lia.
  - rewrite lvl_0, pnode_full by (simpl; lia). cbn [node]. by rewrite upd_eq.
  - rewrite lvl_0, app_nil_r in Er. rewrite Er. unfold root. by rewrite Hr.
Qed.

(** Appending carries while the level is complete. *)
Lemma peaks_from_ext leaf leaf' n n' h k :
  0 ≤ n → lvl n' h = lvl n h → (∀ j, j < n → leaf' j = leaf j) →
  peaks_from leaf' n' h k = peaks_from leaf n h k.
Proof.
  intros Hn E Hl. revert h E. induction k as [|k IH]; intros h E; [done|]. cbn [peaks_from].
  rewrite IH by (by rewrite !lvl_S, E). rewrite E. destruct (Z.even (lvl n h)); [done|].
  do 2 f_equal. apply node_ext. intros j Hj. apply Hl. pose proof (lvl_spec n h). lia.
Qed.

Lemma peaks_from_zero leaf n h k : (∀ j, (j < h)%nat → Z.even (lvl n j) = true) → (h ≤ k)%nat →
  peaks_from leaf n 0 k = peaks_from leaf n h (k - h).
Proof.
  intros He. revert k. induction h as [|h IH]; intros k Hk; [by rewrite Nat.sub_0_r|].
  rewrite IH by (intros; try apply He; lia). replace (k - h)%nat with (S (k - S h)) by lia. cbn [peaks_from].
  rewrite He by lia. by rewrite app_nil_r.
Qed.

Lemma Compact_Append_loop leaf leaf' n fuel h :
  0 ≤ n → n + 1 < 2 ^ 64 → (h + fuel)%nat = HMax → (∀ j, j < n → leaf' j = leaf j) →
  n + 1 = (lvl n h + 1) * 2 ^ Z.of_nat h →
  CompactMmr.Append_loop (S fuel) (lvl n h) (node leaf' h (lvl n h)) (peaks_from leaf n h fuel) =
    Some (peaks_from leaf' (n + 1) 0 HMax).
Proof.
  intros Hn Hn1 Hf Hl. revert h Hf. induction fuel as [|fuel IH]; intros h Hf Hlow.
  - exfalso. rewrite Nat.add_0_r in Hf. subst h. rewrite lvl_zero, HMax_pow in Hlow by (rewrite HMax_pow; lia). lia.
  - pose proof (pow2_pos h). assert (E1 : lvl (n + 1) h = lvl n h + 1) by (apply lvl_unique; lia).
    remember (S fuel) as f eqn:Ef in IH. rewrite <- Ef at 1. cbn [CompactMmr.Append_loop peaks_from].
    rewrite land_1_even', shiftr_1, <- lvl_S. destruct (Z.even (lvl n h)) eqn:Ev.
    + rewrite app_nil_r. f_equal. rewrite (peaks_from_zero leaf' (n + 1) h HMax); [| |lia].
      * replace (HMax - h)%nat with (S fuel) by lia. cbn [peaks_from]. rewrite E1, Z.even_add, Ev. cbn.
        rewrite (peaks_from_ext leaf leaf' n (n + 1) (S h)); [|done| |done].
        -- do 3 f_equal. lia.
        -- rewrite !lvl_S, E1. destruct (even_cases (lvl n h)) as [[_ E]|[E _]]; [|congruence].
           rewrite E at 1. rewrite Z.mul_comm, Z.div_add_l by lia. change (1 / 2) with 0. lia.
      * intros j Hj. rewrite Hlow. replace (lvl n h + 1) with ((lvl n h + 1) * 1) by lia.
        by apply lvl_aligned_even.
    + rewrite length_app, Nat.add_1_r. cbn [pred].
      rewrite lookup_app_r, Nat.sub_diag by lia. cbn [lookup list_lookup mbind option_bind].
      rewrite take_app_length.
      assert (E : Interpret (node leaf' h (lvl n h)) (node leaf h (lvl n h - 1)) false = node leaf' (S h) (lvl n (S h))).
      { rewrite lvl_S. cbn [node]. destruct (even_cases (lvl n h)) as [[E _]|[_ E]]; [congruence|].
        rewrite <- E. replace (2 * (lvl n h / 2)) with (lvl n h - 1) by lia. unfold Interpret. f_equal.
        symmetry. apply node_ext. intros j Hj. apply Hl. lia. }
      rewrite E. apply IH; [lia|]. rewrite lvl_S, pow2_S.
      destruct (even_cases (lvl n h)) as [[E' _]|[_ E']]; [congruence|]. nia.
Qed.

Lemma Compact_Append_spec m leaf hv :
  let n := CompactMmr.m_Count m in
  compact_ok m leaf → n + 1 < 2 ^ 64 →
  ∃ m', CompactMmr.Append m hv = Some m' ∧ CompactMmr.m_Count m' = n + 1 ∧ compact_ok m' (upd leaf n hv).
Proof.
  destruct m as [n v]. intros n' [Hn Hv] Hn1; cbn [CompactMmr.m_Count CompactMmr.m_vNodes] in *. unfold CompactMmr.Append; cbn [CompactMmr.m_Count CompactMmr.m_vNodes]. subst v n'.
  pose proof (Compact_Append_loop leaf (upd leaf n hv) n HMax 0) as E. rewrite lvl_0 in E.
  cbn [node] in E. rewrite upd_eq in E. rewrite E; try done; [|lia| |simpl; lia].
  - cbn. rewrite u64_small by lia. eexists; split; [done|]. split; [done|]. split; [cbn; lia|done].
  - intros j Hj. apply upd_ne. lia.
Qed.

End compact_ok.
