(* ===== verification/MerkleProofs.v ===== *)
(** * core/merkle: proofs and their verification

    The proof builders and [HardVerifier], and [MultiProof], which merges the proofs of
    several elements: [MultiProof::Builder] drops the part of a path that the previous one
    already has, [MultiProof::Verifier] replays it. *)

From stdpp Require Import base list numbers option.
From S2P Require Import Prelude Merkle.
Local Open Scope Z_scope.

(** ** Builders *)

Section builders.

Context {Hash : Type} `{Hasher Hash}.

Record ProofBuilderStd := mkProofBuilderStd { std_Proof : list (bool * Hash) }.

#[global] Instance ProofBuilderStd_builder : IProofBuilder Hash ProofBuilderStd := {
  AppendNode := λ b n _, (true, mkProofBuilderStd (std_Proof b ++ [n]));
}.

Record ProofBuilderHard := mkProofBuilderHard { hard_Proof : list Hash }.

#[global] Instance ProofBuilderHard_builder : IProofBuilder Hash ProofBuilderHard := {
  AppendNode := λ b n _, (true, mkProofBuilderHard (hard_Proof b ++ [n.2]));
}.

(** [Mmr::get_Proof(Proof&, i)]. *)
Definition get_Proof_std {Sto} `{!MmrStore Hash Sto} (uninit : Hash) (m : Mmr.t Sto) (proof : Proof_t) (i : Z)
    : option Proof_t :=
  '(_, bld) ← Mmr.get_Proof uninit m (mkProofBuilderStd proof) i; Some (std_Proof bld).

(** [PathCaclulator]: a range without elements, its hashes are not to be read. *)
Record PathCaclulator := mkPathCaclulator {}.

#[global] Instance PathCaclulator_store : MmrStore Hash PathCaclulator := {
  LoadElement := λ _ _, Some hZero;
  SaveElement := λ s _ _, Some s;
}.

Definition InterpretPath `{!IProofBuilder Hash B} (uninit : Hash) (m_Count : Z) (b : B) (i : Z)
    : option (bool * B) :=
  Mmr.get_ProofInternal uninit (Mmr.mk m_Count mkPathCaclulator) b i true.

End builders.

Arguments ProofBuilderStd : clear implicits.
Arguments ProofBuilderHard : clear implicits.

(** ** HardVerifier *)

Module HardVerifier.
Section hard_verifier.

Context {Hash : Type} `{Hasher Hash}.

(** [m_itPos] is the part of the proof from the iterator to [m_itEnd]. *)
Record t := mk { m_hv : Hash; m_itPos : list Hash }.

Definition IsEnd (v : t) : bool := match m_itPos v with [] => true | _ => false end.

Definition InterpretOnce (v : t) (bOnRight : bool) : bool * t :=
  match m_itPos v with
  | [] => (false, v)
  | x :: it => (true, mk (Interpret (m_hv v) x bOnRight) it)
  end.

#[global] Instance MyMmr_builder : IProofBuilder Hash t := {
  AppendNode := λ v n _, InterpretOnce v n.1;
}.

Definition InterpretMmr (uninit : Hash) (v : t) (iIdx nCount : Z) : option (bool * t) :=
  if nCount <=? iIdx then Some (false, v) else InterpretPath uninit nCount v iIdx.

End hard_verifier.

Arguments t : clear implicits.

End HardVerifier.

(** ** MultiProof

    The vectors used as stacks are lists with the back element first. *)

Module MultiProof.
Section multi_proof.

Context {Hash : Type} `{Hasher Hash} `{!EqDecision Hash}.

Record Builder := mkBuilder {
  m_vData : list Hash;
  m_vLast : list Position;
  m_vLastRev : list Position;
  m_bSkipSibling : bool;
}.

(** The loop at the start of [AppendNode]: whether the position is found, and [m_vLast]. *)
Fixpoint Builder_pop (vLast : list Position) (pos : Position) : bool * list Position :=
  match vLast with
  | [] => (false, [])
  | pos0 :: v =>
    if (pos_H pos <? pos_H pos0)%nat then (false, vLast)
    else if (pos_H pos0 =? pos_H pos)%nat && (pos_X pos0 =? pos_X pos) then (true, vLast)
    else Builder_pop v pos
  end.

Definition Builder_AppendNode (b : Builder) (n : bool * Hash) (pos : Position) : bool * Builder :=
  let '(found, vLast) := Builder_pop (m_vLast b) pos in
  if found then (false, mkBuilder (m_vData b) vLast (m_vLastRev b) (m_bSkipSibling b))
  else
    let vLastRev := if (pos_H pos =? 0)%nat then m_vLastRev b else pos :: m_vLastRev b in
    let vData :=
      if negb (pos_H pos =? 0)%nat || negb (m_bSkipSibling b) then m_vData b ++ [n.2] else m_vData b in
    (true, mkBuilder vData vLast vLastRev (m_bSkipSibling b)).

#[global] Instance Builder_builder : IProofBuilder Hash Builder := {
  AppendNode := Builder_AppendNode;
}.

(** [m] is the range behind the virtual [get_Proof]. *)
Definition Builder_Add {Sto} `{!MmrStore Hash Sto} (uninit : Hash) (m : Mmr.t Sto) (b : Builder) (i : Z)
    : option Builder :=
  '(_, b) ← Mmr.get_Proof uninit m b i;
  Some (mkBuilder (m_vData b) (rev_append (m_vLastRev b) (m_vLast b)) [] false).

Record Verifier := mkVerifier {
  m_itPos : list Hash;
  v_vLast : list (Hash * Position);
  v_vLastRev : list (Hash * Position);
  m_hvPos : Hash;
  m_phvSibling : option Hash;
  m_bVerify : bool;
}.

(** [Verifier::Verifier]: [m_hvPos] is for the caller to set. *)
Definition Verifier_init (uninit : Hash) (vData : list Hash) : Verifier :=
  mkVerifier vData [] [] uninit None true.

Definition set_hvPos (v : Verifier) (hv : Hash) : Verifier :=
  mkVerifier (m_itPos v) (v_vLast v) (v_vLastRev v) hv (m_phvSibling v) (m_bVerify v).

(** The loop at the start of [AppendNode]: the matching entry's hash if there is one, and
    [m_vLast]. *)
Fixpoint Verifier_pop (vLast : list (Hash * Position)) (pos : Position)
    : option Hash * list (Hash * Position) :=
  match vLast with
  | [] => (None, [])
  | mn :: v =>
    if (pos_H pos <? pos_H mn.2)%nat then (None, vLast)
    else if (pos_H mn.2 =? pos_H pos)%nat && (pos_X mn.2 =? pos_X pos) then (Some mn.1, vLast)
    else Verifier_pop v pos
  end.

Definition Verifier_AppendNode (v : Verifier) (n : bool * Hash) (pos : Position) : bool * Verifier :=
  let '(found, vLast) := Verifier_pop (v_vLast v) pos in
  match found with
  | Some hv =>
    let bVerify := m_bVerify v && bool_decide (hv = m_hvPos v) in
    (false, mkVerifier (m_itPos v) vLast (v_vLastRev v) (m_hvPos v) (m_phvSibling v) bVerify)
  | None =>
    let vLastRev := if (pos_H pos =? 0)%nat then v_vLastRev v else (m_hvPos v, pos) :: v_vLastRev v in
    match (match m_phvSibling v with
           | Some hv => Some (hv, m_itPos v)
           | None => match m_itPos v with [] => None | hv :: it => Some (hv, it) end
           end) with
    | None => (false, mkVerifier (m_itPos v) vLast vLastRev (m_hvPos v) None false)
    | Some (hv, it) =>
      let hvPos := if m_bVerify v then Interpret (m_hvPos v) hv n.1 else m_hvPos v in
      (true, mkVerifier it vLast vLastRev hvPos None (m_bVerify v))
    end
  end.

#[global] Instance Verifier_builder : IProofBuilder Hash Verifier := {
  AppendNode := Verifier_AppendNode;
}.

Definition Verifier_Process (uninit : Hash) (IsRootValid : Hash → bool) (m_Count : Z) (v : Verifier) (i : Z)
    : option Verifier :=
  if m_Count <=? i then
    Some (mkVerifier (m_itPos v) (v_vLast v) (v_vLastRev v) (m_hvPos v) (m_phvSibling v) false)
  else
    '(ok, v) ← InterpretPath uninit m_Count v i;
    let bVerify := if ok && m_bVerify v && negb (IsRootValid (m_hvPos v)) then false else m_bVerify v in
    Some (mkVerifier (m_itPos v) (rev_append (v_vLastRev v) (v_vLast v)) [] (m_hvPos v) (m_phvSibling v) bVerify).

End multi_proof.

Arguments Builder : clear implicits.
Arguments Verifier : clear implicits.

End MultiProof.

(** ** Simple proofs *)

Section proofs.

Context {Hash : Type} `{Hasher Hash}.

(** Two different pairs of hashes with the same hash. *)
Definition collision : Prop :=
  ∃ a b c d : Hash, (a, b) ≠ (c, d) ∧ combine a b = combine c d.

Lemma combine_inj `{!EqDecision Hash} a b c d : combine a b = combine c d → (a = c ∧ b = d) ∨ collision.
Proof.
  intros E. destruct (decide ((a, b) = (c, d))) as [[= -> ->]|Hne]; [by left|right]. by exists a, b, c, d.
Qed.

Lemma Interpret_inj `{!EqDecision Hash} a x b y d :
  Interpret a x d = Interpret b y d → (a = b ∧ x = y) ∨ collision.
Proof. destruct d; intros [[-> ->]|]%combine_inj; auto. Qed.

Lemma feed_std (b : ProofBuilderStd Hash) l : feed b l = (true, mkProofBuilderStd (std_Proof b ++ l.*1)).
Proof.
  revert b. induction l as [|[nd p] l IH]; intros b; cbn.
  - rewrite app_nil_r. by destruct b.
  - rewrite IH. cbn. by rewrite <- app_assoc.
Qed.

Lemma feed_hard (b : ProofBuilderHard Hash) l :
  feed b l = (true, mkProofBuilderHard (hard_Proof b ++ l.*1.*2)).
Proof.
  revert b. induction l as [|[nd p] l IH]; intros b; cbn.
  - rewrite app_nil_r. by destruct b.
  - rewrite IH. cbn. by rewrite <- app_assoc.
Qed.

(** The verifier applies the hashes of the proof in the directions of the path. *)
Lemma feed_HardVerifier (v : HardVerifier.t Hash) l :
  if decide (length l ≤ length (HardVerifier.m_itPos v))%nat
  then feed v l = (true, HardVerifier.mk
         (Interpret_Proof (HardVerifier.m_hv v) (zip l.*1.*1 (HardVerifier.m_itPos v)))
         (drop (length l) (HardVerifier.m_itPos v)))
  else (feed v l).1 = false.
Proof.
  revert v. induction l as [|[[d x] p] l IH]; intros [hv it]; cbn [HardVerifier.m_hv HardVerifier.m_itPos].
  - by rewrite decide_True by (simpl; lia).
  - destruct it as [|y it]; cbn; [done|]. specialize (IH (HardVerifier.mk (Interpret hv y d) it)). cbn in IH.
    destruct (decide (length l ≤ length it)%nat); [rewrite decide_True by lia|rewrite decide_False by lia]; done.
Qed.

Lemma path_blind uninit leaf n i :
  (prod_map (blind uninit) id <$> path leaf n i).*1.*1 = (path leaf n i).*1.*1.
Proof. rewrite <- !list_fmap_compose. by apply list_fmap_ext. Qed.

Lemma InterpretPath_spec `{!IProofBuilder Hash B} uninit leaf n (b : B) i :
  0 ≤ i < n → n < 2 ^ 64 →
  InterpretPath uninit n b i = Some (feed b (prod_map (blind uninit) id <$> path leaf n i)).
Proof.
  intros Hi Hn. unfold InterpretPath.
  by rewrite (get_ProofInternal_spec _ (Mmr.mk n mkPathCaclulator) leaf i true).
Qed.

(** Two interpretations that meet started from the same hash. *)
Lemma Interpret_Proof_inj `{!EqDecision Hash} a b ds xs ys :
  length xs = length ds → length ys = length ds →
  Interpret_Proof a (zip ds xs) = Interpret_Proof b (zip ds ys) → (a = b ∧ xs = ys) ∨ collision.
Proof.
  revert a b xs ys. induction ds as [|d ds IH]; intros a b [|x xs] [|y ys]; try done; cbn.
  - intros _ _ ->. by left.
  - intros [= Hx] [= Hy] E. destruct (IH _ _ xs ys Hx Hy E) as [[E' ->]|]; [|by right].
    unfold Interpret_Node in E'. cbn in E'. apply Interpret_inj in E' as [[-> ->]|]; auto.
Qed.

Lemma InterpretMmr_spec uninit leaf hv p i n :
  0 ≤ i < n → n < 2 ^ 64 →
  let ds := (path leaf n i).*1.*1 in
  if decide (length ds ≤ length p)%nat
  then HardVerifier.InterpretMmr uninit (HardVerifier.mk hv p) i n =
    Some (true, HardVerifier.mk (Interpret_Proof hv (zip ds p)) (drop (length ds) p))
  else ∃ v, HardVerifier.InterpretMmr uninit (HardVerifier.mk hv p) i n = Some (false, v).
Proof.
  intros Hi Hn ds. unfold HardVerifier.InterpretMmr. rewrite (proj2 (Z.leb_gt n i)) by lia.
  rewrite (InterpretPath_spec _ leaf) by done.
  pose proof (feed_HardVerifier (HardVerifier.mk hv p) (prod_map (blind uninit) id <$> path leaf n i)) as F.
  cbn [HardVerifier.m_hv HardVerifier.m_itPos] in F. rewrite path_blind, length_fmap in F. fold ds in F.
  unfold ds in *. rewrite !length_fmap.
  destruct (decide (length (path leaf n i) ≤ length p)%nat); [by rewrite F|].
  destruct (feed _ _) as [[] v]; [done|]. by exists v.
Qed.

End proofs.

(** ** Multi-proofs *)

Section multi.

Import MultiProof.

Context {Hash : Type} `{Hasher Hash} `{!EqDecision Hash}.

Variables (leaf : Z → Hash) (n : Z).

(** A stack entry is right when its hash is that of the node on the path, the sibling of
    its position. *)
Definition entry_ok (e : Hash * Position) : Prop :=
  pos_H e.2 ≠ 0%nat ∧ pnode leaf n (pos_H e.2) (Z.lxor (pos_X e.2) 1) = Some e.1.

Lemma lxor_1_1 x : Z.lxor (Z.lxor x 1) 1 = x.
Proof. by rewrite Z.lxor_assoc, Z.lxor_nilpotent, Z.lxor_0_r. Qed.

Lemma Verifier_pop_spec vLast pos :
  Forall entry_ok vLast →
  let '(found, vLast') := Verifier_pop vLast pos in
  Forall entry_ok vLast' ∧ Builder_pop vLast.*2 pos = (bool_decide (is_Some found), vLast'.*2) ∧
  ∀ hv, found = Some hv → entry_ok (hv, pos).
Proof.
  intros Hv. induction Hv as [|[hv [h x]] v He Hv IH]; cbn [Verifier_pop Builder_pop fmap list_fmap snd fst].
  - done.
  - destruct (pos_H pos <? pos_H _)%nat; [by split_and!; [constructor|..]|].
    destruct ((pos_H _ =? pos_H pos)%nat && (pos_X _ =? pos_X pos)) eqn:E.
    + split_and!; [by constructor|done|]. intros hv' [= <-]. apply andb_prop in E as [E1 E2].
      apply Nat.eqb_eq in E1. apply Z.eqb_eq in E2. destruct pos. cbn in E1, E2. subst. exact He.
    + exact IH.
Qed.

(** *** Soundness *)

(** The value at level [h] of the path of [i]. *)
Definition on_path (i : Z) (h : nat) (hv : Hash) : Prop := pnode leaf n h (lvl i h) = Some hv.

Lemma feed_Verifier_sound uninit i h k v ok v' :
  0 ≤ i < n → m_bVerify v = true → Forall entry_ok (v_vLast v) →
  feed v (prod_map (blind uninit) id <$> path_from leaf n i h k) = (ok, v') →
  m_bVerify v' = true → (ok = true → on_path i (h + k) (m_hvPos v')) →
  (on_path i h (m_hvPos v) ∧ Forall entry_ok (v_vLast v') ∧
    ∃ added, v_vLastRev v' = added ++ v_vLastRev v ∧ Forall entry_ok added) ∨ collision.
Proof.
  intros Hi. revert h v. induction k as [|k IH]; intros h v Hb Hl.
  { cbn. intros [= <- <-] _ Hok. rewrite Nat.add_0_r in Hok. left. split_and!; [by apply Hok|done|]. by exists []. }
  cbn [path_from]. rewrite <- Nat.add_succ_comm.
  destruct (pnode_Some leaf n h (lvl i h)) as [val Hval]; [pose proof (lvl_spec i h); lia|].
  pose proof (pnode_step leaf n i h val Hi Hval) as Hup. destruct (sib leaf n i h) as [[d s]|].
  2: { intros F Hb' Hok. destruct (IH (S h) v Hb Hl F Hb' Hok) as [(Ho & Hl' & Hr)|]; [left|by right].
       split_and!; try done. unfold on_path in *. congruence. }
  cbn [fmap list_fmap prod_map fst snd feed]. cbn [AppendNode Verifier_builder]. unfold Verifier_AppendNode.
  pose proof (Verifier_pop_spec (v_vLast v) (mkPos h (Z.lxor (lvl i h) 1)) Hl) as P.
  destruct (Verifier_pop _ _) as [[hv|] vLast]; destruct P as (Hl' & _ & Hf).
  - intros [= <- <-]. cbn. rewrite Hb. cbn. intros E%bool_decide_eq_true _. left.
    destruct (Hf hv eq_refl) as [_ Hp]. cbn in Hp. rewrite lxor_1_1 in Hp. subst hv. split_and!; [done..|]. by exists [].
  - clear Hf. destruct (match m_phvSibling v with Some _ => _ | None => _ end) as [[y it]|]; [|by intros [= <- <-]].
    rewrite Hb. cbn [pos_H]. intros F Hb' Hok. eapply IH in F; [|done|done|done|done].
    destruct F as [(Ho & Hl'' & added & Hr & Ha)|]; [|by right]. cbn in Ho, Hr. unfold on_path in *.
    rewrite Hup in Ho. injection Ho as Ho. unfold Interpret_Node, blind in Ho. cbn in Ho.
    symmetry in Ho. apply Interpret_inj in Ho as [[E _]|]; [left|by right]. subst val. split_and!; [done..|].
    destruct (Nat.eqb_spec h 0); [by exists added|].
    exists (added ++ [(m_hvPos v, mkPos h (Z.lxor (lvl i h) 1))]). rewrite <- app_assoc. split; [done|].
    apply Forall_app. split; [done|]. constructor; [|done]. split; [done|]. cbn. by rewrite lxor_1_1.
Qed.

(** Verifying a sequence of elements, the caller sets [m_hvPos] before each. *)
Fixpoint verify (uninit : Hash) (IsRootValid : Hash → bool) (v : Verifier Hash) (l : list (Z * Hash))
    : option (Verifier Hash) :=
  match l with
  | [] => Some v
  | (i, hv) :: l => v ← Verifier_Process uninit IsRootValid n (set_hvPos v hv) i; verify uninit IsRootValid v l
  end.

Lemma feed_Verifier_false (v : Verifier Hash) l : m_bVerify v = false → m_bVerify (feed v l).2 = false.
Proof.
  revert v. induction l as [|[nd p] l IH]; intros v Hv; [done|]. cbn [feed AppendNode Verifier_builder].
  unfold Verifier_AppendNode. destruct (Verifier_pop _ _) as [[hv|] vLast]; [cbn; by rewrite Hv|].
  destruct (match m_phvSibling v with Some _ => _ | None => _ end) as [[y it]|]; [|done].
  by apply IH.
Qed.

Definition root_valid (hv : Hash) : bool := bool_decide (hv = root leaf n).

Lemma on_path_root i hv : 0 ≤ i < n → n < 2 ^ 64 → on_path i HMax hv ↔ hv = root leaf n.
Proof.
  intros Hi Hn. unfold on_path, root. rewrite lvl_zero by (rewrite HMax_pow; lia).
  destruct (pnode_Some leaf n HMax 0) as [r ->]; [lia|]. cbn. split; congruence.
Qed.

Lemma Process_sound uninit v i hv v' :
  n < 2 ^ 64 → 0 ≤ i → m_bVerify v = true → Forall entry_ok (v_vLast v) → v_vLastRev v = [] →
  Verifier_Process uninit root_valid n (set_hvPos v hv) i = Some v' → m_bVerify v' = true →
  (i < n ∧ hv = leaf i ∧ Forall entry_ok (v_vLast v') ∧ v_vLastRev v' = []) ∨ collision.
Proof.
  intros Hn Hi Hb Hl Hr. unfold Verifier_Process.
  destruct (Z.leb_spec n i) as [Hle|Hlt]; [intros [= <-]; done|].
  rewrite (InterpretPath_spec _ leaf) by lia. cbn [mbind option_bind].
  destruct (feed _ _) as [ok v1] eqn:F. intros [= <-]; cbn [m_bVerify v_vLast v_vLastRev]. intros Hb'.
  assert (Hb1 : m_bVerify v1 = true) by (by destruct (ok && _ && _)).
  unfold path in F. apply feed_Verifier_sound in F; [|lia|done|done|done|].
  - destruct F as [(Ho & Hl1 & added & Hr1 & Ha)|]; [left|by right]. split_and!; [done| | |done].
    + unfold on_path in Ho. rewrite lvl_0, pnode_full in Ho by (simpl; lia). cbn in Ho. congruence.
    + cbn in Hr1. rewrite Hr, app_nil_r in Hr1. rewrite Hr1, rev_append_rev.
      apply Forall_app. split; [by apply Forall_rev|done].
  - intros ->. rewrite Nat.add_0_l. apply on_path_root; [lia|done|]. rewrite Hb1 in Hb'. cbn [andb] in Hb'.
    unfold root_valid in Hb'. by destruct (bool_decide_reflect (m_hvPos v1 = root leaf n)).
Qed.

Lemma Process_false uninit valid v i hv v' :
  n < 2 ^ 64 → 0 ≤ i → m_bVerify v = false →
  Verifier_Process uninit valid n (set_hvPos v hv) i = Some v' → m_bVerify v' = false.
Proof.
  intros Hn Hi Hb. unfold Verifier_Process. destruct (Z.leb_spec n i); [by intros [= <-]|].
  rewrite (InterpretPath_spec _ leaf) by lia. cbn [mbind option_bind].
  pose proof (feed_Verifier_false (set_hvPos v hv) (prod_map (blind uninit) id <$> path leaf n i) Hb) as F.
  destruct (feed _ _) as [ok v1]. cbn in F. rewrite F. intros [= <-]. cbn. by destruct (ok && _ && _).
Qed.

Lemma verify_false uninit valid v l v' :
  n < 2 ^ 64 → Forall (λ e, 0 ≤ e.1) l → m_bVerify v = false →
  verify uninit valid v l = Some v' → m_bVerify v' = false.
Proof.
  intros Hn Hl. revert v. induction Hl as [|[i hv] l Hi Hl IH]; intros v Hb; cbn [verify]; [by intros [= <-]|].
  destruct (Verifier_Process _ _ _ _ _) as [v1|] eqn:P; [|done]. cbn [mbind option_bind].
  by apply IH, (Process_false _ _ _ _ _ _ Hn Hi Hb P).
Qed.

Lemma verify_sound uninit v l v' :
  n < 2 ^ 64 → Forall (λ e, 0 ≤ e.1) l → Forall entry_ok (v_vLast v) → v_vLastRev v = [] →
  m_bVerify v = true → verify uninit root_valid v l = Some v' → m_bVerify v' = true →
  Forall (λ e, e.1 < n ∧ e.2 = leaf e.1) l ∨ collision.
Proof.
  intros Hn Hl. revert v. induction Hl as [|[i hv] l Hi Hl IH]; intros v Hok Hr Hb; cbn [verify].
  - intros _ _. left. constructor.
  - destruct (Verifier_Process _ _ _ _ _) as [v1|] eqn:P; [|done]. cbn [mbind option_bind]. intros V Hb'.
    assert (Hb1 : m_bVerify v1 = true).
    { destruct (m_bVerify v1) eqn:Hb1; [done|]. by rewrite (verify_false _ _ _ _ _ Hn Hl Hb1 V) in Hb'. }
    destruct (Process_sound _ _ _ _ _ Hn Hi Hb Hok Hr P Hb1) as [(H1 & H2 & H3 & H4)|]; [|by right].
    destruct (IH v1 H3 H4 Hb1 V Hb') as [HF|]; [left|by right]. by constructor.
Qed.

(** *** Completeness *)

(** The builder and the verifier are in step. *)
Record in_step (b : Builder Hash) (v : Verifier Hash) : Prop := {
  step_last : (v_vLast v).*2 = m_vLast b;
  step_lastRev : (v_vLastRev v).*2 = m_vLastRev b;
  step_ok : Forall entry_ok (v_vLast v) ∧ Forall entry_ok (v_vLastRev v);
  step_verify : m_bVerify v = true;
}.

(** The verifier knows the sibling the builder skips. *)
Definition sibling_known (i : Z) (h : nat) (b : Builder Hash) (v : Verifier Hash) : Prop :=
  m_phvSibling v = if (h =? 0)%nat && m_bSkipSibling b then snd <$> sib leaf n i h else None.

Definition set_itPos (v : Verifier Hash) (it : list Hash) : Verifier Hash :=
  mkVerifier it (v_vLast v) (v_vLastRev v) (m_hvPos v) (m_phvSibling v) (m_bVerify v).

Lemma feed_complete uninit i h k b v :
  0 ≤ i < n → (h = 0%nat → m_bSkipSibling b = true → is_Some (sib leaf n i h) ∧ k ≠ 0%nat) →
  in_step b v → sibling_known i h b v → on_path i h (m_hvPos v) →
  let '(ok, b') := feed b (path_from leaf n i h k) in
  ∃ data v', m_vData b' = m_vData b ++ data ∧ in_step b' v' ∧ m_phvSibling v' = None ∧
    (ok = true → on_path i (h + k) (m_hvPos v')) ∧
    ∀ rest, feed (set_itPos v (data ++ rest)) (prod_map (blind uninit) id <$> path_from leaf n i h k) =
      (ok, set_itPos v' rest).
Proof.
  intros Hi. revert h b v. induction k as [|k IH]; intros h b v Hsk Hin Hsb Hon.
  { cbn. exists [], v. rewrite app_nil_r, Nat.add_0_r. destruct Hin. split_and!; try done.
    rewrite Hsb. destruct (Nat.eqb_spec h 0) as [->|]; [|done].
    destruct (m_bSkipSibling b); [|done]. by destruct Hsk. }
  pose proof (pnode_step leaf n i h _ Hi Hon) as Hup. cbn [path_from]. rewrite <- Nat.add_succ_comm.
  destruct (sib leaf n i h) as [[d s]|] eqn:Es.
  2: { assert (m_phvSibling v = None) as Hno by (rewrite Hsb; by destruct ((h =? 0)%nat && _); rewrite ?Es).
       apply IH; try done. }
  cbn [fmap list_fmap prod_map fst snd feed]. cbn [AppendNode Verifier_builder Builder_builder].
  unfold Verifier_AppendNode, Builder_AppendNode. destruct Hin as [E1 E2 [Ok1 Ok2] Hb].
  pose proof (Verifier_pop_spec (v_vLast v) (mkPos h (Z.lxor (lvl i h) 1)) Ok1) as P. cbn [set_itPos v_vLast].
  destruct (Verifier_pop _ _) as [[hv|] vLast]; destruct P as (Hl' & Ep & Hf); rewrite E1 in Ep; rewrite Ep.
  - rewrite bool_decide_eq_true_2 by done.
    destruct (Hf hv eq_refl) as [Hh Hp]. cbn in Hh, Hp. rewrite lxor_1_1 in Hp.
    assert (hv = m_hvPos v) as -> by (unfold on_path in Hon; congruence).
    exists [], (mkVerifier [] vLast (v_vLastRev v) (m_hvPos v) (m_phvSibling v) true).
    rewrite app_nil_r. split_and!; try done.
    + cbn. rewrite Hsb. by rewrite (proj2 (Nat.eqb_neq h 0) Hh).
    + intros rest. cbn. by rewrite Hb, bool_decide_eq_true_2.
  - rewrite bool_decide_eq_false_2 by (by intros [? ?]). clear Hf Ep. cbn [pos_H].
    set (pos := mkPos h (Z.lxor (lvl i h) 1)).
    set (vLastRev := if (h =? 0)%nat then v_vLastRev v else (m_hvPos v, pos) :: v_vLastRev v).
    set (b1 := mkBuilder _ vLast.*2 _ _).
    set (v1 := mkVerifier [] vLast vLastRev (Interpret (m_hvPos v) s d) None true).
    specialize (IH (S h) b1 v1). destruct (feed b1 _) as [ok b'].
    destruct IH as (data & v' & Ed & Hin' & Hph & Hok & F); try done.
    { split; cbn; try done.
      - unfold vLastRev. by destruct (h =? 0)%nat; cbn; rewrite E2.
      - split; [done|]. unfold vLastRev. destruct (Nat.eqb_spec h 0); [done|]. constructor; [|done].
        split; [done|]. cbn. by rewrite lxor_1_1. }
    set (here := if negb (h =? 0)%nat || negb (m_bSkipSibling b) then [s] else []).
    exists (here ++ data), v'. split_and!; try done.
    { rewrite Ed, app_assoc. f_equal. unfold b1, here. cbn. destruct (_ || _); [done|by rewrite app_nil_r]. }
    intros rest. rewrite <- F. unfold sibling_known in Hsb. cbn. rewrite Hsb, Hb, Es. unfold here.
    by destruct (h =? 0)%nat, (m_bSkipSibling b).
Qed.

(** One element added and processed. *)
Lemma Add_Process {Sto} `{!MmrStore Hash Sto} uninit (m : Mmr.t Sto) b v i :
  n < 2 ^ 64 → Mmr.m_Count m = n → holds (Mmr.m_Store m) n leaf → 0 ≤ i < n →
  (m_bSkipSibling b = true → is_Some (sib leaf n i 0)) → in_step b v → m_vLastRev b = [] →
  sibling_known i 0 b v →
  ∃ b' data v', Builder_Add uninit m b i = Some b' ∧ m_vData b' = m_vData b ++ data ∧
    m_vLastRev b' = [] ∧ m_bSkipSibling b' = false ∧ in_step b' v' ∧ m_phvSibling v' = None ∧
    ∀ rest, Verifier_Process uninit root_valid n (set_hvPos (set_itPos v (data ++ rest)) (leaf i)) i =
      Some (set_itPos v' rest).
Proof.
  intros Hn Hc Hs Hi Hsk Hin Hr Hsb. unfold Builder_Add.
  rewrite (get_Proof_spec _ _ leaf) by (by rewrite ?Hc). rewrite Hc. cbn [mbind option_bind].
  assert (Hon : on_path i 0 (leaf i)) by (unfold on_path; rewrite lvl_0, pnode_full; [done|simpl; lia]).
  pose proof (feed_complete uninit i 0 HMax b (set_hvPos v (leaf i)) Hi) as F. unfold path.
  destruct (feed b _) as [ok b1]. destruct F as (data & v1 & Ed & [S1 S2 [O1 O2] S4] & Hph & Hok & F); try done.
  { intros _ E. split; [by apply Hsk|]. pose proof HMax_pow. by destruct HMax. }
  { by destruct Hin. }
  eexists _, data, (mkVerifier [] (rev_append (v_vLastRev v1) (v_vLast v1)) [] (m_hvPos v1) None true).
  split; [done|]. cbn [m_vData m_vLastRev m_bSkipSibling]. split_and!; try done.
  - split; cbn; try done.
    + rewrite !rev_append_rev, fmap_app, S1, <- S2. f_equal. apply List.map_rev.
    + split; [|done]. rewrite rev_append_rev. apply Forall_app. split; [by apply Forall_rev|done].
  - intros rest. unfold Verifier_Process. rewrite (proj2 (Z.leb_gt n i)) by lia.
    rewrite (InterpretPath_spec _ leaf) by lia.
    unfold path. change (set_hvPos (set_itPos v (data ++ rest)) (leaf i))
      with (set_itPos (set_hvPos v (leaf i)) (data ++ rest)). rewrite F. cbn [mbind option_bind].
    unfold set_itPos. cbn [m_itPos v_vLast v_vLastRev m_hvPos m_phvSibling m_bVerify].
    rewrite S4, Hph. do 2 f_equal. destruct ok; cbn [andb]; [|done]. unfold root_valid.
    rewrite bool_decide_eq_true_2; [done|]. apply (on_path_root i); [done|done|by apply Hok].
Qed.

End multi.
