(* ===== verification/MerkleProps.v ===== *)
(** * core/merkle: properties

    The mountain-range algorithms against the reference [root]: appending, replacing and
    predicting; the agreement of the stores; completeness and soundness of proofs and of
    multi-proofs, up to a collision of the hash function. *)

From stdpp Require Import base list numbers option.
From S2P Require Import Prelude Merkle MerkleStores MerkleProofs.
Local Open Scope Z_scope.

(** ** Sequences of appends *)

Section sequences.

Context {Hash : Type} `{Hasher Hash}.

(** The elements of a list. *)
Definition leafs (hs : list Hash) (i : Z) : Hash := default hZero (hs !! Z.to_nat i).

Fixpoint append_all {Sto} `{!MmrStore Hash Sto} (m : Mmr.t Sto) (hs : list Hash) : option (Mmr.t Sto) :=
  match hs with
  | [] => Some m
  | hv :: hs => m ← Mmr.Append m hv; append_all m hs
  end.

Fixpoint compact_append_all (m : CompactMmr.t Hash) (hs : list Hash) : option (CompactMmr.t Hash) :=
  match hs with
  | [] => Some m
  | hv :: hs => m ← CompactMmr.Append m hv; compact_append_all m hs
  end.

Lemma holds_ext {Sto} `{!MmrStore Hash Sto} (s : Sto) n leaf leaf' :
  (∀ i, 0 ≤ i < n → leaf i = leaf' i) → holds s n leaf → holds s n leaf'.
Proof.
  intros Hl Hs p Hp. rewrite (Hs p Hp). f_equal. apply node_ext. intros i Hi. apply Hl.
  destruct Hp as [Hx Hp]. pose proof (pow2_pos (pos_H p)). nia.
Qed.

Lemma leafs_middle pre hv hs : leafs ((pre ++ [hv]) ++ hs) (Z.of_nat (length pre)) = hv.
Proof. unfold leafs. rewrite Nat2Z.id, <- app_assoc. cbn [app]. by rewrite list_lookup_middle. Qed.

Lemma append_all_from {Sto} `{!MmrStore Hash Sto} `{!MmrStoreOk Hash Sto} (m : Mmr.t Sto) N pre hs :
  let n := Z.of_nat (length (pre ++ hs)) in
  n ≤ N → N < 2 ^ 64 → Mmr.m_Count m = Z.of_nat (length pre) → room (Mmr.m_Store m) N →
  holds (Mmr.m_Store m) (Mmr.m_Count m) (leafs (pre ++ hs)) →
  ∃ m', append_all m hs = Some m' ∧ Mmr.m_Count m' = n ∧ room (Mmr.m_Store m') N ∧
    holds (Mmr.m_Store m') n (leafs (pre ++ hs)).
Proof.
  revert m pre. induction hs as [|hv hs IH]; intros m pre n Hn HN Hc Hr Hs; cbn [append_all].
  { exists m. unfold n. rewrite app_nil_r in *. by rewrite <- Hc. }
  destruct (Append_spec m (leafs (pre ++ hv :: hs)) N hv) as (m1 & -> & Hc1 & Hr1 & Hs1);
    [lia|unfold n in Hn; rewrite length_app in Hn; simpl in Hn; lia|done..|].
  cbn [mbind option_bind]. subst n. rewrite (cons_middle hv pre hs), app_assoc in *.
  apply IH; try done.
  - rewrite length_app. simpl. lia.
  - rewrite Hc1. eapply holds_ext; [|exact Hs1]. rewrite Hc. intros i Hi.
    destruct (decide (i = Z.of_nat (length pre))) as [->|].
    + by rewrite upd_eq, leafs_middle.
    + by rewrite upd_ne.
Qed.

Lemma append_all_spec {Sto} `{!MmrStore Hash Sto} `{!MmrStoreOk Hash Sto} (s : Sto) N hs :
  let n := Z.of_nat (length hs) in
  n ≤ N → N < 2 ^ 64 → room s N →
  ∃ m', append_all (Mmr.mk 0 s) hs = Some m' ∧ Mmr.m_Count m' = n ∧ room (Mmr.m_Store m') N ∧
    holds (Mmr.m_Store m') n (leafs hs).
Proof.
  intros n Hn HN Hr. apply (append_all_from (Mmr.mk 0 s) N [] hs); try done.
  intros [h x] [Hx Hp]. cbn in *. pose proof (pow2_pos h). nia.
Qed.

Lemma compact_append_all_from m pre hs :
  let n := Z.of_nat (length (pre ++ hs)) in
  n < 2 ^ 64 → CompactMmr.m_Count m = Z.of_nat (length pre) → compact_ok m (leafs (pre ++ hs)) →
  ∃ m', compact_append_all m hs = Some m' ∧ CompactMmr.m_Count m' = n ∧ compact_ok m' (leafs (pre ++ hs)).
Proof.
  revert m pre. induction hs as [|hv hs IH]; intros m pre n Hn Hc Hs; cbn [compact_append_all].
  { exists m. unfold n. rewrite app_nil_r in *. by rewrite <- Hc. }
  destruct (Compact_Append_spec m (leafs (pre ++ hv :: hs)) hv) as (m1 & -> & Hc1 & Hs1);
    [done|unfold n in Hn; rewrite length_app in Hn; simpl in Hn; lia|].
  cbn [mbind option_bind]. subst n. rewrite (cons_middle hv pre hs), app_assoc in *.
  apply IH; try done.
  - rewrite length_app. simpl. lia.
  - destruct Hs1 as [Hb Hv]. split; [done|]. rewrite Hv, Hc1, Hc. rewrite Hc1, Hc in Hb.
    apply peaks_from_ext; [lia|done|]. intros i Hi.
    destruct (decide (i = Z.of_nat (length pre))) as [->|].
    + by rewrite upd_eq, leafs_middle.
    + by rewrite upd_ne.
Qed.

Lemma compact_append_all_spec hs :
  let n := Z.of_nat (length hs) in
  n < 2 ^ 64 →
  ∃ m', compact_append_all (CompactMmr.mk 0 []) hs = Some m' ∧ CompactMmr.m_Count m' = n ∧ compact_ok m' (leafs hs).
Proof.
  intros n Hn. apply (compact_append_all_from (CompactMmr.mk 0 []) [] hs); try done.
Qed.

End sequences.

(** ** Properties

    [toy] is a small hash function for the instances at concrete inputs. *)

Definition toy : Hasher Z := {| combine := λ a b, (a * 31 + b * 17 + 1) mod 1009; hZero := 0 |}.

Section properties.

Context {Hash : Type} `{Hasher Hash}.

(** C19. Against the store interface: appending elements one at a time to an empty range
    always succeeds, [Mmr::get_Hash] is then the reference root of the elements, and the
    hash that [Mmr::get_PredictedHash] announces for a further element is the one
    [Mmr::Append] brings about. *)
Theorem Mmr_append_root {Sto} `{!MmrStore Hash Sto} `{!MmrStoreOk Hash Sto} (s : Sto) N hs hv :
  Z.of_nat (length hs) < N → N < 2 ^ 64 → room s N →
  ∃ m m', append_all (Mmr.mk 0 s) hs = Some m ∧ Mmr.Append m hv = Some m' ∧
    Mmr.get_Hash m = Some (root (leafs hs) (Z.of_nat (length hs))) ∧
    Mmr.get_Hash m' = Some (root (leafs (hs ++ [hv])) (Z.of_nat (length hs) + 1)) ∧
    Mmr.get_PredictedHash m hv = Mmr.get_Hash m'.
Proof.
  intros Hn HN Hr. destruct (append_all_spec s N hs) as (m & E & Hc & Hr' & Hs); [lia..|done|].
  rewrite <- Hc in Hs. destruct (Append_spec m (leafs hs) N hv) as (m' & Ea & Hc' & _ & Hs'); [lia..|done|done|].
  rewrite <- Hc' in Hs'. exists m, m'.
  rewrite (get_PredictedHash_spec m (leafs hs)) by (done || lia).
  rewrite (get_Hash_spec m (leafs hs)), (get_Hash_spec m' (upd (leafs hs) (Mmr.m_Count m) hv)) by (done || lia).
  rewrite Hc', Hc in *. do 3 (split; [assumption || reflexivity|]).
  split; [|reflexivity]. apply f_equal, root_ext. intros i Hi.
  rewrite <- (app_nil_r (hs ++ [hv])). destruct (decide (i = Z.of_nat (length hs))) as [->|].
  - by rewrite upd_eq, leafs_middle.
  - rewrite upd_ne, app_nil_r by done. unfold leafs. by rewrite lookup_app_l by lia.
Qed.

(** [Mmr::Replace] changes one element of the range and nothing else: the root is then
    that of the changed sequence, and every other element keeps a valid proof. *)
Theorem Mmr_Replace_root {Sto} `{!MmrStore Hash Sto} `{!MmrStoreOk Hash Sto} uninit (s : Sto) N hs i hv :
  let n := Z.of_nat (length hs) in
  n ≤ N → N < 2 ^ 64 → room s N → 0 ≤ i < n →
  ∃ m m', append_all (Mmr.mk 0 s) hs = Some m ∧ Mmr.Replace m i hv = Some m' ∧
    Mmr.get_Hash m' = Some (root (upd (leafs hs) i hv) n) ∧
    ∀ j, 0 ≤ j < n → j ≠ i → ∃ p, get_Proof_std uninit m' [] j = Some p ∧
      Some (Interpret_Proof (leafs hs j) p) = Mmr.get_Hash m'.
Proof.
  intros n Hn HN Hr Hi. destruct (append_all_spec s N hs) as (m & E & Hc & Hr' & Hs); [done..|].
  fold n in Hc, Hs. rewrite <- Hc in Hs.
  destruct (Replace_spec m (leafs hs) N i hv) as (m' & Ea & Hc' & _ & Hs'); [lia..|done|done|].
  rewrite <- Hc' in Hs'. exists m, m'. do 2 (split; [assumption|]).
  rewrite (get_Hash_spec m' (upd (leafs hs) i hv)), Hc', Hc by (done || lia). split; [reflexivity|].
  intros j Hj Hne. unfold get_Proof_std. rewrite (get_Proof_spec _ _ _ _ _ Hs'), feed_std by lia.
  eexists; split; [reflexivity|]. rewrite Hc', Hc. cbn [std_Proof app].
  rewrite <- (path_root (upd (leafs hs) i hv) n j) by lia. by rewrite (upd_ne _ _ _ j).
Qed.

(** Every element of a range has a proof: [Mmr::get_Proof] with the standard builder
    appends to the caller's proof a path that [Interpret] takes from the element's hash to
    the root, and with the hard builder a list of hashes that
    [HardVerifier::InterpretMmr] takes to the root, consuming all of it. *)
Theorem Mmr_proof_complete {Sto} `{!MmrStore Hash Sto} `{!MmrStoreOk Hash Sto} uninit (s : Sto) hs i proof :
  let n := Z.of_nat (length hs) in
  n < 2 ^ 64 → room s n → 0 ≤ i < n →
  ∃ m p hp, append_all (Mmr.mk 0 s) hs = Some m ∧
    get_Proof_std uninit m proof i = Some (proof ++ p) ∧
    Mmr.get_Hash m = Some (Interpret_Proof (leafs hs i) p) ∧
    Mmr.get_Proof uninit m (mkProofBuilderHard []) i = Some (true, mkProofBuilderHard hp) ∧
    HardVerifier.InterpretMmr uninit (HardVerifier.mk (leafs hs i) hp) i n =
      Some (true, HardVerifier.mk (Interpret_Proof (leafs hs i) p) []).
Proof.
  intros n Hn Hr Hi. destruct (append_all_spec s n hs) as (m & E & Hc & Hr' & Hs); [done..|].
  fold n in Hc, Hs. rewrite <- Hc in Hs.
  exists m, (path (leafs hs) n i).*1, (path (leafs hs) n i).*1.*2. split; [assumption|].
  unfold get_Proof_std. rewrite !(get_Proof_spec _ _ _ _ _ Hs), feed_std, feed_hard by lia. rewrite Hc.
  split; [reflexivity|]. rewrite (get_Hash_spec m (leafs hs)), Hc, path_root by (done || lia).
  split; [reflexivity|]. split; [reflexivity|].
  pose proof (InterpretMmr_spec uninit (leafs hs) (leafs hs i) (path (leafs hs) n i).*1.*2 i n Hi Hn) as V.
  cbn zeta in V. rewrite decide_True in V by (by rewrite !length_fmap). rewrite V.
  rewrite zip_fst_snd, drop_ge, path_root by (rewrite ?length_fmap; lia || done). reflexivity.
Qed.

(** C10. No false proof: if [HardVerifier::InterpretMmr], for an index and an element count,
    takes a claimed hash to the root of a sequence, then the claimed hash is that element's
    (and the proof starts with the genuine path), or the hash function has a collision. *)
Theorem InterpretMmr_sound `{!EqDecision Hash} uninit leaf n i hv p v :
  0 ≤ i → n < 2 ^ 64 →
  HardVerifier.InterpretMmr uninit (HardVerifier.mk hv p) i n = Some (true, v) →
  HardVerifier.m_hv v = root leaf n →
  (i < n ∧ hv = leaf i ∧ ∃ rest, p = (path leaf n i).*1.*2 ++ rest ∧ HardVerifier.m_itPos v = rest) ∨ @collision Hash _.
Proof.
  intros Hi Hn E Hv. destruct (decide (i < n)) as [Hlt|Hge].
  2: { unfold HardVerifier.InterpretMmr in E. by rewrite (proj2 (Z.leb_le n i)) in E by lia. }
  pose proof (InterpretMmr_spec uninit leaf hv p i n ltac:(lia) Hn) as V. cbn zeta in V.
  destruct (decide _) as [Hl|]; [|destruct V as [v' V]; congruence].
  rewrite E in V. injection V as ->. cbn in Hv |- *. rewrite !length_fmap in *.
  pose proof (path_root leaf n i ltac:(lia) Hn) as Ep. rewrite <- (zip_fst_snd (path leaf n i).*1) in Ep.
  rewrite <- Ep in Hv.
  rewrite <- (zip_with_take_r' pair (length (path leaf n i)) _ p) in Hv by (rewrite !length_fmap; lia).
  apply Interpret_Proof_inj in Hv as [[-> Hp]|]; [left|by right|rewrite length_take, !length_fmap; lia|by rewrite !length_fmap].
  split_and!; [done..|]. eexists; split; [|reflexivity]. by rewrite <- Hp, take_drop.
Qed.

(** C20. The three implementations agree: a [FixedMmr] sized for at least the number of
    elements never writes or reads out of its array while they are appended, and its root
    is the one that [CompactMmr] (peaks only) and [FlyMmr] (no storage) compute, which is
    the reference root. *)
Theorem Mmr_stores_agree uninit hs nTotal :
  let n := Z.of_nat (length hs) in
  n ≤ nTotal → nTotal ≤ 2 ^ 63 →
  ∃ s m c, FixedMmr.Resize uninit [] nTotal = Some s ∧
    append_all (Mmr.mk 0 s) hs = Some m ∧
    compact_append_all (CompactMmr.mk 0 []) hs = Some c ∧
    Mmr.get_Hash m = Some (root (leafs hs) n) ∧
    CompactMmr.get_Hash c = Mmr.get_Hash m ∧
    FlyMmr.get_Hash n (leafs hs) = Mmr.get_Hash m.
Proof.
  intros n Hn HN. destruct (Resize_room uninit [] nTotal) as (s & Es & Hr); [lia|].
  destruct (append_all_spec s nTotal hs) as (m & Em & Hc & _ & Hs); [done|lia|done|].
  destruct (compact_append_all_spec hs) as (c & Ec & Hcc & Hok); [unfold n in *; lia|].
  fold n in Hc, Hcc, Hs. rewrite <- Hc in Hs. exists s, m, c. do 3 (split; [assumption|]).
  rewrite (get_Hash_spec m (leafs hs)) by (done || lia).
  rewrite (Compact_get_Hash_spec c (leafs hs)) by done.
  unfold FlyMmr.get_Hash. rewrite (get_Hash_spec _ (leafs hs)); cbn [Mmr.m_Count Mmr.m_Store].
  - rewrite Hc, Hcc. split_and!; reflexivity.
  - apply Fly_holds. lia.
  - lia.
Qed.

(** [CompactMmr::get_PredictedHash] announces the root that [CompactMmr::Append]
    brings about, as does its counterpart of a stored range. *)
Theorem Compact_predicted hs hv :
  Z.of_nat (length hs) + 1 < 2 ^ 64 →
  ∃ c c', compact_append_all (CompactMmr.mk 0 []) hs = Some c ∧ CompactMmr.Append c hv = Some c' ∧
    CompactMmr.get_PredictedHash c hv = CompactMmr.get_Hash c'.
Proof.
  intros Hn. destruct (compact_append_all_spec hs) as (c & Ec & Hc & Hok); [lia|].
  destruct (Compact_Append_spec c (leafs hs) hv) as (c' & Ea & Hc' & Hok'); [done|lia|].
  exists c, c'. do 2 (split; [assumption|]).
  rewrite (Compact_get_PredictedHash_spec c (leafs hs)), (Compact_get_Hash_spec c' _ Hok'), Hc' by done. reflexivity.
Qed.

(** C35. The flat layout gives every complete node, from any level on, a place of its own
    within [get_TotalHashes], without overflow for up to 2^63 elements. *)
Theorem FlatMmr_layout n hStoreFrom p q :
  0 ≤ n ≤ 2 ^ 63 → fits n p → fits n q → (hStoreFrom ≤ pos_H p)%nat → (hStoreFrom ≤ pos_H q)%nat →
  (hStoreFrom ≤ HMax)%nat →
  ∃ i j t, FlatMmr.Pos2Idx p hStoreFrom = Some i ∧ FlatMmr.Pos2Idx q hStoreFrom = Some j ∧
    FlatMmr.get_TotalHashes n hStoreFrom = Some t ∧ 0 ≤ i < t ∧ 0 ≤ j < t ∧ (i = j → p = q).
Proof.
  intros Hn Hp Hq Hhp Hhq Hh. rewrite get_TotalHashes_spec by done.
  destruct (Pos2Idx_fits n p _ Hn Hp Hhp) as (i & Ei & Hi).
  destruct (Pos2Idx_fits n q _ Hn Hq Hhq) as (j & Ej & Hj).
  exists i, j, (total n hStoreFrom). split_and!; try done; try lia.
  intros ->. eapply (Pos2Idx_inj n); [|done..]. lia.
Qed.

(** ** Multi-proofs *)

Section multiproofs.

Import MultiProof.

Context `{!EqDecision Hash}.

Fixpoint add_all {Sto} `{!MmrStore Hash Sto} (uninit : Hash) (m : Mmr.t Sto) (b : Builder Hash) (idx : list Z)
    : option (Builder Hash) :=
  match idx with
  | [] => Some b
  | i :: idx => b ← Builder_Add uninit m b i; add_all uninit m b idx
  end.

Lemma add_all_complete {Sto} `{!MmrStore Hash Sto} uninit (m : Mmr.t Sto) leaf n b v idx :
  n < 2 ^ 64 → Mmr.m_Count m = n → holds (Mmr.m_Store m) n leaf → Forall (λ i, 0 ≤ i < n) idx →
  in_step leaf n b v → m_vLastRev b = [] → m_bSkipSibling b = false → m_phvSibling v = None →
  ∃ b' data v', add_all uninit m b idx = Some b' ∧ m_vData b' = m_vData b ++ data ∧
    m_bVerify v' = true ∧ ∀ rest,
    verify n uninit (root_valid leaf n) (set_itPos v (data ++ rest)) ((λ i, (i, leaf i)) <$> idx) =
      Some (set_itPos v' rest).
Proof.
  intros Hn Hc Hs Hall. revert b v. induction Hall as [|i idx Hi Hall IH]; intros b v Hin Hr Hsk Hph.
  { exists b, [], v. rewrite app_nil_r. destruct Hin. by split_and!. }
  destruct (Add_Process leaf n uninit m b v i) as (b1 & d1 & v1 & E1 & D1 & R1 & K1 & Hin1 & Hph1 & V1); try done.
  { by rewrite Hsk. }
  { unfold sibling_known. by rewrite Hsk. }
  destruct (IH b1 v1 Hin1 R1 K1 Hph1) as (b' & d2 & v' & E2 & D2 & Hb & V2).
  exists b', (d1 ++ d2), v'. cbn [add_all]. rewrite E1. split_and!; [done|by rewrite D2, D1, app_assoc|done|].
  intros rest. cbn [fmap list_fmap verify]. rewrite <- app_assoc, V1. apply V2.
Qed.

(** C21. Multi-proofs are complete: for any elements in any order, [MultiProof::Verifier]
    accepts what [MultiProof::Builder] has merged for them, with nothing left over. *)
Theorem MultiProof_complete {Sto} `{!MmrStore Hash Sto} `{!MmrStoreOk Hash Sto} uninit (s : Sto) hs idx :
  let n := Z.of_nat (length hs) in
  n < 2 ^ 64 → room s n → Forall (λ i, 0 ≤ i < n) idx →
  ∃ m b v, append_all (Mmr.mk 0 s) hs = Some m ∧
    add_all uninit m (mkBuilder [] [] [] false) idx = Some b ∧
    verify n uninit (root_valid (leafs hs) n) (Verifier_init uninit (m_vData b))
      ((λ i, (i, leafs hs i)) <$> idx) = Some v ∧
    m_bVerify v = true ∧ m_itPos v = [].
Proof.
  intros n Hn Hr Hall. destruct (append_all_spec s n hs) as (m & E & Hc & Hr' & Hs); [done..|].
  destruct (add_all_complete uninit m (leafs hs) n (mkBuilder [] [] [] false) (Verifier_init uninit []) idx)
    as (b & data & v & Eb & Ed & Hb & V); try done.
  exists m, b, (set_itPos v []). do 2 (split; [assumption|]).
  specialize (V []). rewrite app_nil_r in V. cbn in Ed. rewrite Ed. by split_and!.
Qed.

(** C14. Multi-proofs are sound: whatever the data, if [MultiProof::Verifier] is still
    content after a sequence of claims about elements of a range with the given root, then
    every claimed index is in range and every claimed hash is that element's, or the hash
    function has a collision. *)
Theorem MultiProof_sound uninit leaf n data l v :
  n < 2 ^ 64 → Forall (λ e, 0 ≤ e.1) l →
  verify n uninit (root_valid leaf n) (Verifier_init uninit data) l = Some v → m_bVerify v = true →
  Forall (λ e, e.1 < n ∧ e.2 = leaf e.1) l ∨ @collision Hash _.
Proof. intros Hn Hl. by apply verify_sound. Qed.

End multiproofs.

End properties.

(** ** Instances *)

Section instances.

#[local] Existing Instance toy.

Definition store20 : list Z := replicate 20 0.

Lemma store20_room : room store20 5.
Proof. split; [lia|]. vm_compute. congruence. Defined.

Lemma Mmr_append_root_witness :
  ∃ m m', append_all (Mmr.mk 0 store20) [7; 8; 9] = Some m ∧ Mmr.Append m 10 = Some m' ∧
    Mmr.get_Hash m = Some (root (leafs [7; 8; 9]) 3) ∧
    Mmr.get_Hash m' = Some (root (leafs [7; 8; 9; 10]) 4) ∧
    Mmr.get_PredictedHash m 10 = Mmr.get_Hash m'.
Proof. apply (Mmr_append_root store20 5 [7; 8; 9] 10); [simpl; lia|lia|apply store20_room]. Defined.

Lemma Mmr_Replace_root_witness :
  ∃ m m', append_all (Mmr.mk 0 store20) [7; 8; 9] = Some m ∧ Mmr.Replace m 1 55 = Some m' ∧
    Mmr.get_Hash m' = Some (root (upd (leafs [7; 8; 9]) 1 55) 3) ∧
    ∀ j, 0 ≤ j < 3 → j ≠ 1 → ∃ p, get_Proof_std 0 m' [] j = Some p ∧
      Some (Interpret_Proof (leafs [7; 8; 9] j) p) = Mmr.get_Hash m'.
Proof. apply (Mmr_Replace_root 0 store20 5 [7; 8; 9] 1 55); [simpl; lia|lia|apply store20_room|simpl; lia]. Defined.

Lemma Mmr_proof_complete_witness :
  ∃ m p hp, append_all (Mmr.mk 0 store20) [7; 8; 9; 1; 2] = Some m ∧
    get_Proof_std 0 m [] 3 = Some ([] ++ p) ∧
    Mmr.get_Hash m = Some (Interpret_Proof (leafs [7; 8; 9; 1; 2] 3) p) ∧
    Mmr.get_Proof 0 m (mkProofBuilderHard []) 3 = Some (true, mkProofBuilderHard hp) ∧
    HardVerifier.InterpretMmr 0 (HardVerifier.mk (leafs [7; 8; 9; 1; 2] 3) hp) 3 5 =
      Some (true, HardVerifier.mk (Interpret_Proof (leafs [7; 8; 9; 1; 2] 3) p) []).
Proof.
  apply (Mmr_proof_complete 0 store20 [7; 8; 9; 1; 2] 3 []); [simpl; lia|apply store20_room|simpl; lia].
Defined.

Lemma InterpretMmr_sound_witness :
  (1 < 2 ∧ 8 = leafs [7; 8] 1 ∧ ∃ rest, [7] = (path (leafs [7; 8]) 2 1).*1.*2 ++ rest ∧ [] = rest) ∨ @collision Z _.
Proof.
  apply (InterpretMmr_sound 0 (leafs [7; 8]) 2 1 8 [7] (HardVerifier.mk (combine 7 8) []));
    [lia|lia|vm_compute; reflexivity|vm_compute; reflexivity].
Defined.

Lemma Mmr_stores_agree_witness :
  ∃ s m c, FixedMmr.Resize 0 [] 6 = Some s ∧
    append_all (Mmr.mk 0 s) [7; 8; 9] = Some m ∧
    compact_append_all (CompactMmr.mk 0 []) [7; 8; 9] = Some c ∧
    Mmr.get_Hash m = Some (root (leafs [7; 8; 9]) 3) ∧
    CompactMmr.get_Hash c = Mmr.get_Hash m ∧
    FlyMmr.get_Hash 3 (leafs [7; 8; 9]) = Mmr.get_Hash m.
Proof. apply (Mmr_stores_agree 0 [7; 8; 9] 6); [simpl; lia|lia]. Defined.

Lemma Compact_predicted_witness :
  ∃ c c', compact_append_all (CompactMmr.mk 0 []) [7; 8; 9] = Some c ∧ CompactMmr.Append c 4 = Some c' ∧
    CompactMmr.get_PredictedHash c 4 = CompactMmr.get_Hash c'.
Proof. apply (Compact_predicted [7; 8; 9] 4). simpl; lia. Defined.

Lemma FlatMmr_layout_witness :
  ∃ i j t, FlatMmr.Pos2Idx (mkPos 2 1) 1 = Some i ∧ FlatMmr.Pos2Idx (mkPos 1 3) 1 = Some j ∧
    FlatMmr.get_TotalHashes 9 1 = Some t ∧ 0 ≤ i < t ∧ 0 ≤ j < t ∧ (i = j → mkPos 2 1 = mkPos 1 3).
Proof.
  apply (FlatMmr_layout 9 1 (mkPos 2 1) (mkPos 1 3)); try (simpl; lia); try (split; simpl; lia).
  apply (proj1 (Nat.leb_le 1 HMax)). vm_compute. reflexivity.
Defined.

Lemma MultiProof_complete_witness :
  ∃ m b v, append_all (Mmr.mk 0 store20) [7; 8; 9; 1; 2] = Some m ∧
    add_all 0 m (MultiProof.mkBuilder [] [] [] false) [4; 2; 3] = Some b ∧
    verify 5 0 (root_valid (leafs [7; 8; 9; 1; 2]) 5) (MultiProof.Verifier_init 0 (MultiProof.m_vData b))
      ((λ i, (i, leafs [7; 8; 9; 1; 2] i)) <$> [4; 2; 3]) = Some v ∧
    MultiProof.m_bVerify v = true ∧ MultiProof.m_itPos v = [].
Proof.
  apply (MultiProof_complete 0 store20 [7; 8; 9; 1; 2] [4; 2; 3]); [simpl; lia|apply store20_room|].
  repeat (constructor; [simpl; lia|]). constructor.
Defined.

Lemma MultiProof_sound_witness :
  Forall (λ e, e.1 < 2 ∧ e.2 = leafs [7; 8] e.1) [(1, 8); (0, 7)] ∨ @collision Z _.
Proof.
  apply (MultiProof_sound 0 (leafs [7; 8]) 2 [7; 8] [(1, 8); (0, 7)]
    (MultiProof.mkVerifier [] [] [] (combine 7 8) None true)); [lia| |vm_compute; reflexivity|reflexivity].
  repeat (constructor; [simpl; lia|]). constructor.
Defined.

End instances.
