(* ===== verification/RadixTree.v ===== *)
(** * core/radixtree: the radix tree

    [RadixTree] of core/radixtree.cpp: a binary trie with compressed paths over keys of a
    fixed number of bits.  Nodes are a tree of [node]s; leaves live in a heap, [rt_Leaves],
    since joints hold a pointer into the key of one of the leaves below them
    ([m_pKeyPtr]); reading through a pointer to a deleted leaf is undefined and gives
    [None].  A cursor's array of node pointers [m_pp] is the path of child indices from the
    root.  Bit counts are [nat]: the flags [s_Clean], [s_Leaf] and [s_User] that the source
    keeps in the upper bits of [m_Bits] are fields and constructors here. *)

From stdpp Require Import base list numbers option gmap.
From S2P Require Import Prelude Merkle.
Local Open Scope Z_scope.

Definition addr : Type := positive.

Module RadixTree.
Section radix.

(** [P] is what a leaf of the derived class holds beside its key, [P_new] that of a leaf
    just created; [Hash] the cached hash of a joint, left [uninit] by its creation. *)
Context {P Hash : Type} (P_new : P) (uninit : Hash).

Record Leaf := mkLeaf { lf_Key : list Z; lf_Data : P }.

Inductive node :=
  | NLeaf (m_Bits : nat) (clean : bool) (p : addr)
  | NJoint (m_Bits : nat) (clean : bool) (m_pKeyPtr : addr) (m_Hash : Hash) (c0 c1 : node).

Record tree := mk { rt_Root : option node; rt_Leaves : gmap addr Leaf }.

Definition get_Bits (n : node) : nat := match n with NLeaf b _ _ | NJoint b _ _ _ _ _ => b end.
Definition is_clean (n : node) : bool := match n with NLeaf _ c _ | NJoint _ c _ _ _ _ => c end.
Definition set_clean (n : node) (c : bool) : node :=
  match n with NLeaf b _ p => NLeaf b c p | NJoint b _ k h c0 c1 => NJoint b c k h c0 c1 end.
Definition set_Bits (n : node) (b : nat) : node :=
  match n with NLeaf _ c p => NLeaf b c p | NJoint _ c k h c0 c1 => NJoint b c k h c0 c1 end.

(** The address [get_NodeKey] returns, and the key behind it. *)
Definition get_NodeKeyPtr (n : node) : addr := match n with NLeaf _ _ p => p | NJoint _ _ k _ _ _ => k end.

Definition get_NodeKey (leaves : gmap addr Leaf) (n : node) : option (list Z) :=
  lf_Key <$> leaves !! get_NodeKeyPtr n.

Definition get_BitRawStat (p0 : list Z) (nBit : nat) : option Z :=
  x ← p0 !! Nat.shiftr nBit 3;
  Some (Z.shiftr x (Z.lxor 7 (Z.land 7 (Z.of_nat nBit)))).

(** [1 & get_BitRawStat], as a child index. *)
Definition get_Bit (p0 : list Z) (nBit : nat) : option bool :=
  x ← get_BitRawStat p0 nBit; Some (negb (Z.land 1 x =? 0)).

Definition child (n : node) (b : bool) : option node :=
  match n with NLeaf _ _ _ => None | NJoint _ _ _ _ c0 c1 => Some (if b then c1 else c0) end.

(** The node a cursor path leads to. *)
Fixpoint at_path (n : node) (path : list bool) : option node :=
  match path with
  | [] => Some n
  | b :: path => c ← child n b; at_path c path
  end.

(** [m_pp] as [cu_pp]: [None] when [m_nPtrs] is 0. *)
Record CursorBase := mkCursor {
  cu_pp : option (list bool);
  m_nBits : nat;
  m_nPosInLastNode : nat;
}.

(** *** Goto *)

(** The inner loop: compares the keys up to [nThreshold], whole bytes where it can. *)
Fixpoint Goto_match (fuel : nat) (pKey pKeyNode : list Z) (nThreshold nBits nPos : nat)
    : option (bool * nat * nat) :=
  match fuel with
  | O => None
  | S fuel =>
    if (nBits <? nThreshold)%nat then
      let bitwise :=
        a ← get_BitRawStat pKey nBits;
        b ← get_BitRawStat pKeyNode nBits;
        if negb (Z.land 1 (Z.lxor a b) =? 0) then Some (false, nBits, nPos)
        else Goto_match fuel pKey pKeyNode nThreshold (S nBits) (S nPos) in
      if (Nat.land 7 nBits =? 0)%nat && (nBits + 7 <? nThreshold)%nat then
        a ← pKey !! Nat.shiftr nBits 3;
        b ← pKeyNode !! Nat.shiftr nBits 3;
        if a =? b then Goto_match fuel pKey pKeyNode nThreshold (nBits + 8)%nat (nPos + 8)%nat
        else bitwise
      else bitwise
    else Some (true, nBits, nPos)
  end.

(** The outer loop at node [p], reached by [path] (the last step first). *)
Fixpoint Goto_loop (leaves : gmap addr Leaf) (p : node) (path : list bool) (pKey : list Z)
    (nBits cuBits : nat) : option (bool * CursorBase) :=
  let cursor := mkCursor (Some (rev path)) in
  if (cuBits <? nBits)%nat then
    pKeyNode ← get_NodeKey leaves p;
    let nThreshold := Nat.min (cuBits + get_Bits p)%nat nBits in
    '(ok, cuBits, nPos) ← Goto_match (S nThreshold) pKey pKeyNode nThreshold cuBits 0%nat;
    if negb ok then Some (false, cursor cuBits nPos)
    else if (cuBits =? nBits)%nat then Some (true, cursor cuBits nPos)
    else match p with
    | NLeaf _ _ _ => None
    | NJoint _ _ _ _ c0 c1 =>
      b ← get_Bit pKey cuBits;
      Goto_loop leaves (if b : bool then c1 else c0) (b :: path) pKey nBits (S cuBits)
    end
  else Some (true, cursor cuBits 0%nat).

Definition Goto (t : tree) (pKey : list Z) (nBits : nat) : option (bool * CursorBase) :=
  match rt_Root t with
  | None => Some (negb (0 <? nBits)%nat, mkCursor None 0%nat 0%nat)
  | Some p => Goto_loop (rt_Leaves t) p [] pKey nBits 0%nat
  end.

(** *** Changes along a path *)

(** [CursorBase::InvalidateElement]: the new node, and whether the loop goes on above it. *)
Fixpoint InvalidateElement (p : node) (path : list bool) {struct path} : option (node * bool) :=
  match path with
  | [] => Some (if is_clean p then (set_clean p false, true) else (p, false))
  | b :: path =>
    match p with
    | NLeaf _ _ _ => None
    | NJoint bits cl k h c0 c1 =>
      '(c, go) ← InvalidateElement (if b : bool then c1 else c0) path;
      let p := if b then NJoint bits cl k h c0 c else NJoint bits cl k h c c1 in
      Some (if go && cl then (set_clean p false, true) else (p, false))
    end
  end.

(** [ReplaceTip] with a node. *)
Fixpoint ReplaceTip (p : node) (path : list bool) (pNew : node) {struct path} : option node :=
  match path with
  | [] => Some pNew
  | b :: path =>
    match p with
    | NLeaf _ _ _ => None
    | NJoint bits cl k h c0 c1 =>
      c ← ReplaceTip (if b : bool then c1 else c0) path pNew;
      Some (if b then NJoint bits cl k h c0 c else NJoint bits cl k h c c1)
    end
  end.

(** *** Find *)

(** Returns the tree, the cursor, [bCreate] and the leaf. *)
Definition Find (t : tree) (pKey : list Z) (nBits : nat) (bCreate : bool)
    : option (tree * CursorBase * bool * option addr) :=
  '(found, cu) ← Goto t pKey nBits;
  if found : bool then
    root ← rt_Root t; path ← cu_pp cu; tip ← at_path root path;
    match tip with
    | NLeaf _ _ a => Some (t, cu, false, Some a)
    | NJoint _ _ _ _ _ _ => None
    end
  else if negb bCreate then Some (t, cu, bCreate, None)
  else
    let pN := fresh (dom (rt_Leaves t)) in
    let leaves := <[pN := mkLeaf (take (Nat.shiftr (nBits + 7)%nat 3) pKey) P_new]> (rt_Leaves t) in
    match cu_pp cu, rt_Root t with
    | Some path, Some root =>
      '(root, _) ← InvalidateElement root path;
      iC ← get_Bit pKey (m_nBits cu);
      p ← at_path root path;
      if (get_Bits p <? m_nPosInLastNode cu + 1)%nat then None
      else
        let leaf := NLeaf (nBits - (m_nBits cu + 1))%nat false pN in
        let p' := set_Bits p (get_Bits p - (m_nPosInLastNode cu + 1))%nat in
        let pJ := NJoint (m_nPosInLastNode cu) false (get_NodeKeyPtr p) uninit
                    (if iC : bool then p' else leaf) (if iC then leaf else p') in
        root ← ReplaceTip root path pJ;
        Some (mk (Some root) leaves, mkCursor (Some (path ++ [iC])) nBits (get_Bits leaf), true, Some pN)
    | _, _ =>
      Some (mk (Some (NLeaf nBits false pN)) leaves, mkCursor (Some []) nBits nBits, true, Some pN)
    end.

(** *** Delete *)

(** The loop that redirects [m_pKeyPtr] from the dead leaf to [pKey1], from the end of the
    path upwards while it finds the dead one. *)
Fixpoint FixKeyPtr (p : node) (path : list bool) (pKeyDead pKey1 : addr) {struct path} : option (node * bool) :=
  match p with
  | NLeaf _ _ _ => None
  | NJoint bits cl k h c0 c1 =>
    '(c0, c1, go) ← match path with
      | [] => Some (c0, c1, true)
      | false :: path => '(c, go) ← FixKeyPtr c0 path pKeyDead pKey1; Some (c, c1, go)
      | true :: path => '(c, go) ← FixKeyPtr c1 path pKeyDead pKey1; Some (c0, c, go)
      end;
    if (go : bool) && bool_decide (k = pKeyDead) then Some (NJoint bits cl pKey1 h c0 c1, true)
    else Some (NJoint bits cl k h c0 c1, false)
  end.

(** The addition to the packed [m_Bits] of the remaining child is one of bit counts when
    the joint has no flag set. *)
Definition Delete (t : tree) (cu : CursorBase) : option tree :=
  root ← rt_Root t;
  path ← cu_pp cu;
  '(root, _) ← InvalidateElement root path;
  tip ← at_path root path;
  match tip with
  | NJoint _ _ _ _ _ _ => None
  | NLeaf _ _ pKeyDead =>
    let leaves := delete pKeyDead (rt_Leaves t) in
    match rev path with
    | [] => Some (mk None leaves)
    | b :: rpath =>
      let ppath := rev rpath in
      pPrev ← at_path root ppath;
      pN ← child pPrev (negb b);
      let pKey1 := get_NodeKeyPtr pN in
      '(root, _) ← FixKeyPtr root ppath pKeyDead pKey1;
      if is_clean pPrev then None
      else
        root ← ReplaceTip root ppath (set_Bits pN (get_Bits pN + (get_Bits pPrev + 1))%nat);
        Some (mk (Some root) leaves)
    end
  end.

Definition Clear (t : tree) : tree := mk None ∅.

(** *** Traverse *)

Fixpoint Cmp (pKey pThreshold : list Z) (n0 : nat) (dn : nat) : option Z :=
  match dn with
  | O => Some 0
  | S dn =>
    a ← get_Bit pKey n0;
    b ← get_Bit pThreshold n0;
    if negb a && b then Some (-1) else if a && negb b then Some 1 else Cmp pKey pThreshold (S n0) dn
  end.

Definition Cmp1 (n : bool) (pThreshold : list Z) (n0 : nat) : option Z :=
  nBit ← get_Bit pThreshold n0;
  Some (if negb n && nBit then -1 else if n && negb nBit then 1 else 0).

(** One bound against a comparison: [None] to skip, else the bound from there on. *)
Definition bound_step (iBound : bool) (pB : option (list Z)) (cmp : list Z → option Z)
    : option (option (option (list Z))) :=
  match pB with
  | None => Some (Some None)
  | Some b =>
    nCmp ← cmp b;
    if nCmp =? 0 then Some (Some (Some b))
    else if Bool.eqb (nCmp <? 0) (negb iBound) then Some None
    else Some (Some None)
  end.

(** Both bounds in turn. *)
Definition bounds_step (bounds : option (list Z) * option (list Z)) (cmp : list Z → option Z)
    : option (option (option (list Z) * option (list Z))) :=
  b0 ← bound_step false (fst bounds) cmp;
  match b0 with
  | None => Some None
  | Some b0 =>
    b1 ← bound_step true (snd bounds) cmp;
    match b1 with None => Some None | Some b1 => Some (Some (b0, b1)) end
  end.

(** [OnLeaf] is given the cursor and the leaf, changes the state [St] of the traveler and
    tells whether to go on.  The bounds of the traveler are restored by the source before
    each use, here they are passed by value, like the path of the cursor (the last step
    first). *)
Fixpoint Traverse_node {St : Type} (leaves : gmap addr Leaf) (OnLeaf : St → CursorBase → addr → bool * St)
    (n : node) (bounds : option (list Z) * option (list Z)) (path : list bool) (cuBits : nat) (s : St) : option (bool * St) :=
  pre ← (if (get_Bits n =? 0)%nat then Some (Some bounds)
         else pK ← get_NodeKey leaves n; bounds_step bounds (λ pB, Cmp pK pB cuBits (get_Bits n)));
  match pre with
  | None => Some (true, s)
  | Some bounds =>
    let cuBits := (cuBits + get_Bits n)%nat in
    match n with
    | NLeaf _ _ a => Some (OnLeaf s (mkCursor (Some (rev path)) cuBits 0%nat) a)
    | NJoint _ _ _ _ c0 c1 =>
      b0 ← bounds_step bounds (λ pB, Cmp1 false pB cuBits);
      '(ok, s) ← match b0 with
        | None => Some (true, s)
        | Some b0 => Traverse_node leaves OnLeaf c0 b0 (false :: path) (S cuBits) s
        end;
      if negb ok then Some (false, s)
      else
        b1 ← bounds_step bounds (λ pB, Cmp1 true pB cuBits);
        match b1 with
        | None => Some (true, s)
        | Some b1 => Traverse_node leaves OnLeaf c1 b1 (true :: path) (S cuBits) s
        end
    end
  end.

Definition Traverse {St : Type} (t : tree) (OnLeaf : St → CursorBase → addr → bool * St)
    (bounds : option (list Z) * option (list Z)) (s : St) : option (bool * St) :=
  match rt_Root t with
  | None => Some (true, s)
  | Some n => Traverse_node (rt_Leaves t) OnLeaf n bounds [] 0%nat s
  end.

Definition Count (t : tree) : option nat :=
  snd <$> Traverse t (λ n _ _, (true, S n)) (None, None) 0%nat.

End radix.

Arguments Leaf : clear implicits.
Arguments node : clear implicits.
Arguments tree : clear implicits.

End RadixTree.

(** ** RadixHashTree *)

Module RadixHashTree.
Section radix_hash.

Import RadixTree.

(** [get_LeafHash] is that of the derived class. *)
Context {P Hash : Type} `{Hasher Hash} (get_LeafHash : Leaf P → Hash).

(** [get_Hash(Node&, Hash&)]: the node with its cached hashes brought up to date, and the
    hash. *)
Fixpoint get_Hash_node (leaves : gmap addr (Leaf P)) (n : node Hash) : option (node Hash * Hash) :=
  match n with
  | NLeaf b _ a => lf ← leaves !! a; Some (NLeaf b true a, get_LeafHash lf)
  | NJoint b cl k h c0 c1 =>
    if cl then Some (n, h)
    else
      '(c0, h0) ← get_Hash_node leaves c0;
      '(c1, h1) ← get_Hash_node leaves c1;
      let h := combine h0 h1 in
      Some (NJoint b true k h c0 c1, h)
  end.

Definition get_Hash (t : tree P Hash) : option (tree P Hash * Hash) :=
  match rt_Root t with
  | None => Some (t, hZero)
  | Some n => '(n, h) ← get_Hash_node (rt_Leaves t) n; Some (mk (Some n) (rt_Leaves t), h)
  end.

(** The proof from the end of a path up to node [n]. *)
Fixpoint get_Proof_node (leaves : gmap addr (Leaf P)) (n : node Hash) (path : list bool) {struct path}
    : option (node Hash * list (bool * Hash)) :=
  match path with
  | [] => Some (n, [])
  | b :: path =>
    match n with
    | NLeaf _ _ _ => None
    | NJoint bits cl k h c0 c1 =>
      '(c, proof) ← get_Proof_node leaves (if b : bool then c1 else c0) path;
      '(o, hv) ← get_Hash_node leaves (if b then c0 else c1);
      Some (if b then NJoint bits cl k h o c else NJoint bits cl k h c o, proof ++ [(negb b, hv)])
    end
  end.

Definition get_Proof (t : tree P Hash) (proof : list (bool * Hash)) (cu : CursorBase)
    : option (tree P Hash * list (bool * Hash)) :=
  root ← rt_Root t;
  path ← cu_pp cu;
  '(root, p) ← get_Proof_node (rt_Leaves t) root path;
  Some (mk (Some root) (rt_Leaves t), proof ++ p).

End radix_hash.
End RadixHashTree.
