(* ===== verification/RadixTreeSpec.v ===== *)
(** * core/radixtree: what the tree represents

    A tree stands for an ordered list of (key, leaf) pairs, keys as strings of [N] bits.
    [ltree] is the trie with explicit edge labels; [rel] relates it to the nodes, which only
    have lengths and a pointer to some key below; [lelems] lists the pairs. *)

From stdpp Require Import base list numbers option gmap sorting.
From S2P Require Import Prelude Merkle RadixTree.
Import RadixTree.

(** ** Bits of a key *)

Definition kbit (key : list Z) (i : nat) : bool := Z.testbit (nth (i / 8) key 0%Z) (7 - Z.of_nat (i mod 8)).

Definition kbits (N : nat) (key : list Z) : list bool := kbit key <$> seq 0 N.

(** A buffer that holds [N] bits. *)
Definition key_ok (N : nat) (key : list Z) : Prop := N ≤ 8 * length key.

Lemma kbits_length N key : length (kbits N key) = N.
Proof. unfold kbits. by rewrite length_fmap, length_seq. Qed.

Lemma kbits_lookup N key i : i < N → kbits N key !! i = Some (kbit key i).
Proof. intros Hi. unfold kbits. rewrite list_lookup_fmap, lookup_seq_lt by done. done. Qed.

Lemma shiftr_3 i : Nat.shiftr i 3 = i / 8.
Proof. rewrite Nat.shiftr_div_pow2. done. Qed.

Lemma lxor_7_land i : Z.lxor 7 (Z.land 7 (Z.of_nat i)) = (7 - Z.of_nat (i mod 8))%Z.
Proof.
  rewrite Z.land_comm. change 7%Z with (Z.ones 3) at 2. rewrite Z.land_ones by lia. change (2 ^ 3)%Z with 8%Z.
  rewrite Nat2Z.inj_mod. change (Z.of_nat 8) with 8%Z.
  pose proof (Z.mod_pos_bound (Z.of_nat i) 8 ltac:(lia)) as B. set (m := (Z.of_nat i mod 8)%Z) in *.
  assert (m = 0 ∨ m = 1 ∨ m = 2 ∨ m = 3 ∨ m = 4 ∨ m = 5 ∨ m = 6 ∨ m = 7)%Z as Hm by lia.
  destruct Hm as [->|[->|[->|[->|[->|[->|[->| ->]]]]]]]; reflexivity.
Qed.

Lemma get_BitRawStat_spec N key i : key_ok N key → i < N →
  ∃ x, get_BitRawStat key i = Some x ∧ Z.odd x = kbit key i.
Proof.
  intros Hk Hi. unfold get_BitRawStat, kbit. rewrite shiftr_3, lxor_7_land.
  destruct (lookup_lt_is_Some_2 key (i / 8)) as [x Hx].
  { unfold key_ok in Hk. apply Nat.Div0.div_lt_upper_bound; lia. }
  rewrite Hx. cbn [mbind option_bind]. eexists; split; [done|].
  rewrite (nth_lookup_Some _ _ _ _ Hx). rewrite <- Z.bit0_odd, Z.shiftr_spec by lia. done.
Qed.

Lemma land_1_odd x : (Z.land 1 x =? 0)%Z = negb (Z.odd x).
Proof. rewrite land_1_even'. by rewrite Z.negb_odd. Qed.

Lemma get_Bit_spec N key i : key_ok N key → i < N → get_Bit key i = Some (kbit key i).
Proof.
  intros Hk Hi. unfold get_Bit. destruct (get_BitRawStat_spec N key i Hk Hi) as (x & -> & E).
  cbn [mbind option_bind]. by rewrite land_1_odd, negb_involutive, E.
Qed.

(** *** Matching a key against a node's key *)

Lemma Goto_match_spec N fuel key keyn thr c pos :
  key_ok N key → key_ok N keyn → thr ≤ N → c ≤ thr → thr - c < fuel →
  ∃ ok m, Goto_match fuel key keyn thr c pos = Some (ok, m, pos + (m - c)) ∧ c ≤ m ≤ thr ∧
    (∀ i, c ≤ i < m → kbit key i = kbit keyn i) ∧
    if ok : bool then m = thr else m < thr ∧ kbit key m ≠ kbit keyn m.
Proof.
  intros Hk Hkn Ht. revert c pos. induction fuel as [|fuel IH]; intros c pos Hc Hf; [lia|].
  cbn [Goto_match]. destruct (Nat.ltb_spec c thr) as [Hlt|Hge].
  2: { exists true, c. replace (pos + (c - c)) with pos by lia. split_and!; try done; lia. }
  assert (Hbit : ∃ ok m,
    (a ← get_BitRawStat key c; b ← get_BitRawStat keyn c;
     if negb (Z.land 1 (Z.lxor a b) =? 0)%Z then Some (false, c, pos)
     else Goto_match fuel key keyn thr (S c) (S pos)) = Some (ok, m, pos + (m - c)) ∧ c ≤ m ≤ thr ∧
    (∀ i, c ≤ i < m → kbit key i = kbit keyn i) ∧
    if ok : bool then m = thr else m < thr ∧ kbit key m ≠ kbit keyn m).
  { destruct (get_BitRawStat_spec N key c) as (a & -> & Ea); [done|lia|].
    destruct (get_BitRawStat_spec N keyn c) as (b & -> & Eb); [done|lia|]. cbn [mbind option_bind].
    rewrite land_1_odd, negb_involutive, <- Z.bit0_odd, Z.lxor_spec, !Z.bit0_odd, Ea, Eb.
    destruct (xorb _ _) eqn:X.
    - exists false, c. replace (pos + (c - c)) with pos by lia. split_and!; try done; try lia.
      intros E. rewrite E, xorb_nilpotent in X. done.
    - apply xorb_eq in X. destruct (IH (S c) (S pos)) as (ok & m & -> & Hm & He & Hok); [lia..|].
      exists ok, m. replace (S pos + (m - S c)) with (pos + (m - c)) by lia. split_and!; try done; try lia.
      intros i Hi. destruct (decide (i = c)) as [->|]; [done|]. apply He. lia. }
  destruct (_ && _) eqn:Hby; [|done]. apply andb_prop in Hby as [Ha Hb].
  apply Nat.eqb_eq in Ha. apply Nat.ltb_lt in Hb.
  rewrite shiftr_3. unfold key_ok in *.
  destruct (lookup_lt_is_Some_2 key (c / 8)) as [x Hx]; [apply Nat.Div0.div_lt_upper_bound; lia|].
  destruct (lookup_lt_is_Some_2 keyn (c / 8)) as [y Hy]; [apply Nat.Div0.div_lt_upper_bound; lia|].
  rewrite Hx, Hy. cbn [mbind option_bind]. destruct (Z.eqb_spec x y) as [->|]; [|done].
  destruct (IH (c + 8) (pos + 8)) as (ok & m & -> & Hm & He & Hok); [lia..|].
  exists ok, m. replace (pos + 8 + (m - (c + 8))) with (pos + (m - c)) by lia. split_and!; try done; try lia.
  intros i Hi. destruct (decide (i < c + 8)); [|apply He; lia].
  assert (c mod 8 = 0) as Hc8.
  { change 7 with (Nat.ones 3) in Ha. rewrite Nat.land_comm, Nat.land_ones in Ha. done. }
  assert (i / 8 = c / 8) as Ei.
  { symmetry. apply (Nat.div_unique _ _ _ (i - c)); [lia|]. pose proof (Nat.div_mod_eq c 8). lia. }
  unfold kbit. by rewrite Ei, (nth_lookup_Some _ _ _ _ Hx), (nth_lookup_Some _ _ _ _ Hy).
Qed.

Lemma kbits_prefix N key l :
  l `prefix_of` kbits N key ↔ length l ≤ N ∧ ∀ i b, l !! i = Some b → kbit key i = b.
Proof.
  split.
  - intros Hl. pose proof (prefix_length _ _ Hl) as Hlen. rewrite kbits_length in Hlen. split; [done|].
    intros i b Hi. pose proof (prefix_lookup_Some _ _ _ _ Hi Hl) as Hk.
    rewrite kbits_lookup in Hk by (apply lookup_lt_Some in Hi; lia). congruence.
  - intros [Hlen Hl]. exists (drop (length l) (kbits N key)).
    rewrite <- (take_drop (length l) (kbits N key)) at 1. f_equal. apply list_eq. intros i.
    destruct (decide (i < length l)) as [Hi|Hi].
    + rewrite lookup_take_lt, kbits_lookup by lia. destruct (lookup_lt_is_Some_2 l i Hi) as [b Hb].
      rewrite Hb. f_equal. by apply Hl.
    + rewrite (lookup_ge_None_2 l), lookup_ge_None_2; [done|rewrite length_take, kbits_length; lia|lia].
Qed.

(** ** Tries with labels *)

Inductive ltree :=
  | LL (p : list bool) (a : addr)
  | LJ (p : list bool) (l r : ltree).

Definition lpre (lt : ltree) : list bool := match lt with LL p _ | LJ p _ _ => p end.

(** The (key, leaf) pairs below a prefix, from left to right. *)
Fixpoint lelems (pre : list bool) (lt : ltree) : list (list bool * addr) :=
  match lt with
  | LL p a => [(pre ++ p, a)]
  | LJ p l r => lelems (pre ++ p ++ [false]) l ++ lelems (pre ++ p ++ [true]) r
  end.

Definition laddrs (lt : ltree) : list addr := (lelems [] lt).*2.

(** The subtree a path leads to, and the prefix of its keys. *)
Fixpoint lat (pre : list bool) (lt : ltree) (path : list bool) {struct path} : option (list bool * ltree) :=
  match path with
  | [] => Some (pre, lt)
  | b :: path =>
    match lt with
    | LL _ _ => None
    | LJ p l r => lat (pre ++ p ++ [b]) (if b : bool then r else l) path
    end
  end.

Lemma lelems_addrs pre pre' lt : (lelems pre lt).*2 = (lelems pre' lt).*2.
Proof. revert pre pre'. induction lt as [p a|p l IHl r IHr]; intros pre pre'; cbn; [done|]. rewrite !fmap_app. f_equal; auto. Qed.

Lemma lelems_prefix pre lt e : e ∈ lelems pre lt → (pre ++ lpre lt) `prefix_of` e.1.
Proof.
  revert pre. induction lt as [p a|p l IHl r IHr]; intros pre; cbn.
  - intros ->%list_elem_of_singleton. done.
  - intros [Hl|Hr]%elem_of_app.
    + apply IHl in Hl. rewrite <- !app_assoc in Hl. etransitivity; [|exact Hl]. rewrite !(app_assoc pre).
      apply prefix_app_r. done.
    + apply IHr in Hr. rewrite <- !app_assoc in Hr. etransitivity; [|exact Hr]. rewrite !(app_assoc pre).
      apply prefix_app_r. done.
Qed.

Lemma lelems_not_nil pre lt : lelems pre lt ≠ [].
Proof.
  revert pre. induction lt as [|p l IHl r IHr]; intros pre; cbn; [done|].
  intros [E _]%app_eq_nil. by apply IHl in E.
Qed.

(** The pairs outside a subtree do not have its prefix. *)
Lemma lat_elems pre lt path pre' lt' :
  lat pre lt path = Some (pre', lt') →
  pre `prefix_of` pre' ∧ ∃ X Y, lelems pre lt = X ++ lelems pre' lt' ++ Y ∧
    ∀ e, e ∈ X ++ Y → ¬ pre' `prefix_of` e.1.
Proof.
  revert pre lt. induction path as [|b path IH]; intros pre lt; cbn.
  - intros [= <- <-]. split; [done|]. exists [], []. rewrite app_nil_r. split; [done|]. by intros e ?%elem_of_nil.
  - destruct lt as [|p l r]; [done|]. intros E. destruct (IH _ _ E) as (Hp & X & Y & EXY & Hout).
    split; [etransitivity; [|exact Hp]; by apply prefix_app_r|].
    assert (Hother : ∀ c e, e ∈ lelems (pre ++ p ++ [negb b]) c → ¬ pre' `prefix_of` e.1).
    { intros c e He Hpe. apply lelems_prefix in He. 
      assert (H1 : (pre ++ p ++ [negb b]) `prefix_of` e.1)
        by (etransitivity; [|exact He]; by apply prefix_app_r).
      assert (H2 : (pre ++ p ++ [b]) `prefix_of` e.1) by (by etransitivity).
      rewrite !app_assoc in H1, H2. apply (prefix_lookup_Some _ _ (length (pre ++ p)) (negb b)) in H1;
        [|by rewrite lookup_app_r, Nat.sub_diag].
      apply (prefix_lookup_Some _ _ (length (pre ++ p)) b) in H2; [|by rewrite lookup_app_r, Nat.sub_diag].
      rewrite H1 in H2. injection H2. by destruct b. }
    cbn [lelems]. destruct b; cbn [negb] in Hother; rewrite EXY.
    + exists (lelems (pre ++ p ++ [false]) l ++ X), Y. rewrite <- app_assoc. split; [done|].
      intros e. rewrite <- app_assoc, elem_of_app. intros [He|He]; eauto.
    + exists X, (Y ++ lelems (pre ++ p ++ [true]) r). rewrite <- !app_assoc. split; [done|].
      intros e. rewrite app_assoc, elem_of_app. intros [He|He]; eauto.
Qed.

(** *** Order of the pairs *)

Fixpoint blt (l k : list bool) : bool :=
  match l, k with
  | [], [] => false
  | [], _ :: _ => true
  | _ :: _, [] => false
  | a :: l, b :: k => if Bool.eqb a b then blt l k else negb a && b
  end.

Lemma blt_irrefl l : blt l l = false.
Proof. induction l as [|a l IH]; cbn; [done|]. by rewrite eqb_reflx. Qed.

Lemma blt_fork pre l k : blt (pre ++ false :: l) (pre ++ true :: k) = true.
Proof. induction pre as [|a pre IH]; cbn; [done|]. by rewrite eqb_reflx. Qed.

(** The pairs come in ascending order of their keys. *)
Lemma lelems_sorted pre lt : StronglySorted (λ x y, blt x y = true) (lelems pre lt).*1.
Proof.
  revert pre. induction lt as [p a|p l IHl r IHr]; intros pre; cbn; [repeat constructor|].
  rewrite fmap_app. apply StronglySorted_app_2; [|done|done].
  intros x y (ex & -> & Hx)%list_elem_of_fmap (ey & -> & Hy)%list_elem_of_fmap.
  apply lelems_prefix in Hx as [u ->], Hy as [v ->]. rewrite <- !app_assoc, !(app_assoc pre). apply blt_fork.
Qed.

Lemma lelems_fun pre lt k a a' : (k, a) ∈ lelems pre lt → (k, a') ∈ lelems pre lt → a = a'.
Proof.
  revert pre. induction lt as [p b|p l IHl r IHr]; intros pre; cbn.
  - intros [= -> ->]%list_elem_of_singleton [= ->]%list_elem_of_singleton. done.
  - assert (Hno : ∀ a a', (k, a) ∈ lelems (pre ++ p ++ [false]) l → (k, a') ∈ lelems (pre ++ p ++ [true]) r → False).
    { intros x y Hx%lelems_prefix Hy%lelems_prefix. cbn in *. destruct Hx as [u ->], Hy as [v E].
      pose proof (blt_fork (pre ++ p) (lpre l ++ u) (lpre r ++ v)) as B.
      assert ((pre ++ p) ++ false :: lpre l ++ u = (pre ++ p) ++ true :: lpre r ++ v) as E'
        by (rewrite <- !app_assoc in *; exact E).
      by rewrite E', blt_irrefl in B. }
    intros [H1|H1]%elem_of_app [H2|H2]%elem_of_app; eauto; exfalso; eauto.
Qed.

Lemma lat_app pre lt path path' r :
  lat pre lt path = Some r → lat pre lt (path ++ path') = lat r.1 r.2 path'.
Proof.
  revert pre lt. induction path as [|b path IH]; intros pre lt; cbn.
  - by intros [= <-].
  - destruct lt; [done|]. apply IH.
Qed.

Lemma lat_snoc pre lt path b pre' lt' :
  lat pre lt (path ++ [b]) = Some (pre', lt') →
  ∃ pre0 p l r, lat pre lt path = Some (pre0, LJ p l r) ∧ pre' = pre0 ++ p ++ [b] ∧ (if b then r else l) = lt'.
Proof.
  revert pre lt. induction path as [|b' path IH]; intros pre lt; cbn.
  - destruct lt as [|p l r]; [done|]. intros [= <- <-]. by exists pre, p, l, r.
  - destruct lt; [done|]. apply IH.
Qed.

Lemma at_path_app {Hash} (n n' : node Hash) path path' :
  at_path n path = Some n' → at_path n (path ++ path') = at_path n' path'.
Proof.
  revert n. induction path as [|b path IH]; intros n; cbn.
  - by intros [= <-].
  - destruct (child n b); [apply IH|done].
Qed.

(** ** Nodes and tries *)

Section rel.

Context {P Hash : Type}.
Variable N : nat.

Fixpoint rel (lv : gmap addr (Leaf P)) (pre : list bool) (n : node Hash) (lt : ltree) : Prop :=
  match n, lt with
  | NLeaf b _ a, LL p a' =>
    a' = a ∧ b = length p ∧
    ∃ lf, lv !! a = Some lf ∧ key_ok N (lf_Key lf) ∧ kbits N (lf_Key lf) = pre ++ p
  | NJoint b _ k _ c0 c1, LJ p l r =>
    b = length p ∧ (k = get_NodeKeyPtr c0 ∨ k = get_NodeKeyPtr c1) ∧
    rel lv (pre ++ p ++ [false]) c0 l ∧ rel lv (pre ++ p ++ [true]) c1 r
  | _, _ => False
  end.

Lemma rel_Bits lv pre n lt : rel lv pre n lt → get_Bits n = length (lpre lt).
Proof. destruct n, lt; cbn; tauto. Qed.

Lemma rel_NodeKey lv pre n lt : rel lv pre n lt →
  ∃ lf, lv !! get_NodeKeyPtr n = Some lf ∧ key_ok N (lf_Key lf) ∧
    (pre ++ lpre lt) `prefix_of` kbits N (lf_Key lf).
Proof.
  revert pre lt. induction n as [b cl a|b cl k h c0 IH0 c1 IH1]; intros pre [p a'|p l r]; cbn; try done.
  - intros (-> & -> & lf & Hl & Hk & E). exists lf. by rewrite E.
  - intros (-> & Hk & H0 & H1).
    destruct Hk as [->| ->]; [apply IH0 in H0 as (lf & Hl & Hok & Hp)|apply IH1 in H1 as (lf & Hl & Hok & Hp)];
      exists lf; (split_and!; [done..|]); (etransitivity; [|exact Hp]); rewrite <- !app_assoc, (app_assoc pre);
      by apply prefix_app_r.
Qed.

(** A node stands for one trie. *)
Lemma rel_fun lv pre n lt lt' : rel lv pre n lt → rel lv pre n lt' → lt = lt'.
Proof.
  revert pre lt lt'. induction n as [b cl a|b cl k h c0 IH0 c1 IH1]; intros pre lt lt' Hr Hr'.
  all: pose proof (rel_NodeKey _ _ _ _ Hr) as (lf & Hl & _ & Hp); pose proof (rel_NodeKey _ _ _ _ Hr') as (lf' & Hl' & _ & Hp').
  all: rewrite Hl in Hl'; injection Hl' as <-.
  all: assert (Elp : lpre lt = lpre lt')
    by (pose proof (rel_Bits _ _ _ _ Hr) as B; rewrite (rel_Bits _ _ _ _ Hr') in B;
        apply (app_inv_head pre); destruct (prefix_weak_total _ _ _ Hp Hp') as [H|H];
        [|symmetry]; (apply prefix_length_eq; [done|rewrite !length_app; lia])).
  - destruct lt, lt'; try done. cbn in Elp. destruct Hr as (-> & _), Hr' as (-> & _). by subst.
  - destruct lt as [|p l r], lt' as [|p' l' r']; try done. cbn in Elp. subst p'.
    destruct Hr as (_ & _ & H0 & H1), Hr' as (_ & _ & H0' & H1'). f_equal; eauto.
Qed.

(** All keys have [N] bits. *)
Lemma rel_length lv pre n lt e : rel lv pre n lt → e ∈ lelems pre lt → length e.1 = N.
Proof.
  revert pre lt. induction n as [b cl a|b cl k h c0 IH0 c1 IH1]; intros pre [p a'|p l r]; cbn; try done.
  - intros (-> & -> & lf & Hl & Hk & E) ->%list_elem_of_singleton. cbn. by rewrite <- E, kbits_length.
  - intros (-> & Hk & H0 & H1) [He|He]%elem_of_app; eauto.
Qed.

(** The leaf behind a pair. *)
Lemma rel_elem lv pre n lt e : rel lv pre n lt → e ∈ lelems pre lt →
  ∃ lf, lv !! e.2 = Some lf ∧ key_ok N (lf_Key lf) ∧ kbits N (lf_Key lf) = e.1.
Proof.
  revert pre lt. induction n as [b cl a|b cl k h c0 IH0 c1 IH1]; intros pre [p a'|p l r]; cbn; try done.
  - intros (-> & -> & lf & Hl & Hk & E) ->%list_elem_of_singleton. by exists lf.
  - intros (-> & Hk & H0 & H1) [He|He]%elem_of_app; eauto.
Qed.

Lemma rel_at lv pre n lt path pre' lt' :
  rel lv pre n lt → lat pre lt path = Some (pre', lt') → ∃ n', at_path n path = Some n' ∧ rel lv pre' n' lt'.
Proof.
  revert pre n lt. induction path as [|b path IH]; intros pre n lt Hr; cbn.
  - intros [= <- <-]. by exists n.
  - destruct lt as [|p l r]; [done|]. destruct n as [|bits cl k h c0 c1]; [done|]. destruct Hr as (-> & _ & H0 & H1).
    cbn. intros E. destruct b; eauto.
Qed.

(** *** Goto *)

Lemma prefix_extend key keyn pre p k :
  pre `prefix_of` kbits N key → (pre ++ p) `prefix_of` kbits N keyn → k ≤ length p →
  (∀ i, length pre ≤ i < length pre + k → kbit key i = kbit keyn i) →
  (pre ++ take k p) `prefix_of` kbits N key.
Proof.
  intros [H1 H2]%kbits_prefix [H3 H4]%kbits_prefix Hk He. rewrite length_app in H3.
  apply kbits_prefix. rewrite length_app, length_take. split; [lia|]. intros i b Hi.
  destruct (decide (i < length pre)).
  - apply H2. by rewrite lookup_app_l in Hi.
  - rewrite lookup_app_r in Hi by lia. apply lookup_take_Some in Hi as [Hi Hlt].
    rewrite He by lia. apply H4. rewrite lookup_app_r by lia. done.
Qed.

(** Where a cursor stops: at a node whose keys agree with the searched one for
    [length pre' + pos] bits, which are all of them or differ in the next one. *)
Definition stops (key : list Z) (M : nat) (ok : bool) (pre' : list bool) (lt' : ltree) (pos : nat) : Prop :=
  pos ≤ length (lpre lt') ∧ (pre' ++ take pos (lpre lt')) `prefix_of` kbits N key ∧
  if ok then length pre' + pos = M
  else length pre' + pos < M ∧ ∃ b, lpre lt' !! pos = Some b ∧ b ≠ kbit key (length pre' + pos).

Lemma Goto_loop_spec lv n lt pre key M path :
  rel lv pre n lt → key_ok N key → M ≤ N → pre `prefix_of` kbits N key → length pre ≤ M →
  ∃ ok q pre' lt' pos,
    Goto_loop lv n path key M (length pre) =
      Some (ok, mkCursor (Some (rev path ++ q)) (length pre' + pos) pos) ∧
    lat pre lt q = Some (pre', lt') ∧ stops key M ok pre' lt' pos.
Proof.
  intros Hr Hk HM. revert lt pre path Hr. induction n as [b cl a|b cl k h c0 IH0 c1 IH1]; intros lt pre path Hr Hp Hl.
  all: pose proof (rel_NodeKey _ _ _ _ Hr) as (lf & Hlf & Hkn & Hpn); pose proof (rel_Bits _ _ _ _ Hr) as Hb;
    cbn [Goto_loop]; destruct (Nat.ltb_spec (length pre) M) as [Hlt|Hge].
  2,4: exists true, [], pre, lt, 0; rewrite app_nil_r, Nat.add_0_r; split_and!; [done..|];
    split_and!; [lia|by rewrite app_nil_r|lia].
  all: unfold get_NodeKey; rewrite Hlf; cbn [fmap option_fmap option_map mbind option_bind]; rewrite Hb;
    destruct (Goto_match_spec N (S ((length pre + length (lpre lt)) `min` M)) key (lf_Key lf)
      ((length pre + length (lpre lt)) `min` M) (length pre) 0) as (ok & m & -> & Hm & He & Hok);
    [done|done|lia|lia|lia|]; cbn [mbind option_bind]; cbn [Nat.add].
  all: assert (Hpos : (pre ++ take (m - length pre) (lpre lt)) `prefix_of` kbits N key)
    by (apply (prefix_extend _ (lf_Key lf)); [done|done|lia|]; intros i Hi; apply He; lia).
  all: assert (Hhere : (ok = true → m = M) → stops key M ok pre lt (m - length pre))
    by (intros HmM; split_and!; [lia|done|]; replace (length pre + (m - length pre)) with m by lia;
        destruct ok; [by apply HmM|]; destruct Hok as [Hlt' Hne]; split; [lia|];
        destruct (lookup_lt_is_Some_2 (lpre lt) (m - length pre)) as [x Hx]; [lia|];
        exists x; split; [done|]; intros ->; apply Hne; symmetry; apply kbits_prefix in Hpn as [_ Hpn];
        apply Hpn; by rewrite lookup_app_r by lia).
  all: destruct ok; cbn [negb];
    [|exists false, [], pre, lt, (m - length pre); rewrite app_nil_r;
      replace (length pre + (m - length pre)) with m by lia; split_and!; [done..|by apply Hhere]].
  all: destruct (Nat.eqb_spec m M) as [HmM|HmM];
    [exists true, [], pre, lt, (m - length pre); rewrite app_nil_r;
      replace (length pre + (m - length pre)) with m by lia; split_and!; [done..|by apply Hhere]|].
  - destruct lt as [p a'|]; [|done]. destruct Hr as (-> & -> & lf' & Hlf' & _ & E).
    pose proof (kbits_length N (lf_Key lf')) as EN. rewrite E, length_app in EN. cbn in Hok. lia.
  - destruct lt as [|p l r]; [done|]. destruct Hr as (-> & _ & H0 & H1). cbn in Hok, Hpos, Hm.
    assert (m = length pre + length p) as Em by lia.
    rewrite (get_Bit_spec N) by (done || lia). cbn [mbind option_bind].
    assert (Hp' : (pre ++ p ++ [kbit key m]) `prefix_of` kbits N key).
    { replace (m - length pre) with (length p) in Hpos by lia. rewrite firstn_all in Hpos.
      apply kbits_prefix in Hpos as [Hn Hpos]. apply kbits_prefix. rewrite length_app in Hn.
      rewrite !length_app. cbn. split; [lia|]. intros i b'. rewrite app_assoc.
      intros [Hi|[Hge Hi]]%lookup_app_Some; [by apply Hpos|]. rewrite length_app in Hge, Hi.
      apply list_lookup_singleton_Some in Hi as [Ei <-]. f_equal. lia. }
    assert (S m = length (pre ++ p ++ [kbit key m])) as EL by (rewrite !length_app; cbn; lia).
    rewrite EL. destruct (kbit key m) eqn:Eb.
    + destruct (IH1 r _ (true :: path) H1 Hp') as (ok & q & pre' & lt' & pos & -> & Hat & Hst); [lia|].
      exists ok, (true :: q), pre', lt', pos. cbn [rev]. rewrite <- app_assoc. split_and!; done.
    + destruct (IH0 l _ (false :: path) H0 Hp') as (ok & q & pre' & lt' & pos & -> & Hat & Hst); [lia|].
      exists ok, (false :: q), pre', lt', pos. cbn [rev]. rewrite <- app_assoc. split_and!; done.
Qed.

Lemma Goto_root lv n lt key M :
  rel lv [] n lt → key_ok N key → M ≤ N →
  ∃ ok q pre' lt' pos,
    Goto_loop lv n [] key M 0 = Some (ok, mkCursor (Some q) (length pre' + pos) pos) ∧
    lat [] lt q = Some (pre', lt') ∧ stops key M ok pre' lt' pos.
Proof. intros Hr Hk HM. apply (Goto_loop_spec lv n lt []); [done|done|done|apply prefix_nil|cbn; lia]. Qed.

(** *** Changes along a path *)

Lemma rel_mono lv lv' pre n lt :
  (∀ a, a ∈ (lelems pre lt).*2 → lv' !! a = lv !! a) → rel lv pre n lt → rel lv' pre n lt.
Proof.
  revert pre lt. induction n as [b cl a|b cl k h c0 IH0 c1 IH1]; intros pre [p a'|p l r]; cbn; try done.
  - intros Hlv (-> & -> & lf & Hl & Hk & E). split_and!; [done..|]. exists lf. rewrite Hlv by (by apply list_elem_of_singleton). done.
  - intros Hlv (-> & Hk & H0 & H1). rewrite fmap_app in Hlv. split_and!; [done..| |].
    + apply IH0; [|done]. intros a Ha. apply Hlv, elem_of_app. by left.
    + apply IH1; [|done]. intros a Ha. apply Hlv, elem_of_app. by right.
Qed.

Lemma rel_set_clean lv pre n lt c : rel lv pre n lt → rel lv pre (set_clean n c) lt.
Proof. by destruct n, lt. Qed.

Lemma keyptr_set_clean (n : node Hash) c : get_NodeKeyPtr (set_clean n c) = get_NodeKeyPtr n.
Proof. by destruct n. Qed.

Lemma rel_InvalidateElement lv pre n lt path r :
  rel lv pre n lt → lat pre lt path = Some r →
  ∃ n1 go, InvalidateElement n path = Some (n1, go) ∧ rel lv pre n1 lt ∧ get_NodeKeyPtr n1 = get_NodeKeyPtr n.
Proof.
  revert pre n lt. induction path as [|b path IH]; intros pre n lt Hr; cbn [lat InvalidateElement].
  - intros _. destruct (is_clean n); [|by exists n, false]. exists (set_clean n false), true.
    split_and!; [done|by apply rel_set_clean|apply keyptr_set_clean].
  - destruct lt as [|p l r']; [done|]. destruct n as [|bits cl k h c0 c1]; [done|].
    destruct Hr as (-> & Hk & H0 & H1). intros Ha.
    destruct b;
      [destruct (IH _ _ _ H1 Ha) as (c & go & -> & Hc & Ek)|destruct (IH _ _ _ H0 Ha) as (c & go & -> & Hc & Ek)];
      cbn [mbind option_bind]; destruct (go && cl); (eexists _, _; split; [done|]; cbn; rewrite Ek; done).
Qed.

(** Splitting the label of a node. *)
Definition lset_pre (lt : ltree) (p : list bool) : ltree :=
  match lt with LL _ a => LL p a | LJ _ l r => LJ p l r end.

Lemma rel_split lv pre n lt u v :
  rel lv pre n lt → lpre lt = u ++ v → rel lv (pre ++ u) (set_Bits n (length v)) (lset_pre lt v).
Proof.
  destruct n as [b cl a|b cl k h c0 c1], lt as [p a'|p l r]; cbn; try done.
  - intros (-> & -> & lf & Hl & Hk & E) ->. split_and!; [done..|]. exists lf. by rewrite <- app_assoc.
  - intros (-> & Hk & H0 & H1) ->. rewrite <- !app_assoc in *. done.
Qed.

Lemma lelems_split pre lt u v : lpre lt = u ++ v → lelems (pre ++ u) (lset_pre lt v) = lelems pre lt.
Proof. destruct lt; cbn; intros ->; by rewrite <- !app_assoc. Qed.

Lemma rel_join lv pre n lt u :
  rel lv (pre ++ u) n lt → rel lv pre (set_Bits n (get_Bits n + length u)) (lset_pre lt (u ++ lpre lt)).
Proof.
  destruct n as [b cl a|b cl k h c0 c1], lt as [p a'|p l r]; cbn; try done.
  - intros (-> & -> & lf & Hl & Hk & E). rewrite length_app. split_and!; [done|lia|]. exists lf. by rewrite app_assoc.
  - intros (-> & Hk & H0 & H1). rewrite length_app, !app_assoc in *. split_and!; try done; lia.
Qed.

Lemma lelems_join pre lt u : lelems pre (lset_pre lt (u ++ lpre lt)) = lelems (pre ++ u) lt.
Proof. destruct lt; cbn; by rewrite <- !app_assoc. Qed.

Lemma rel_ReplaceTip lv pre n lt path pre' lt' n' n2 lt2 :
  rel lv pre n lt → lat pre lt path = Some (pre', lt') → at_path n path = Some n' →
  rel lv pre' n2 lt2 → get_NodeKeyPtr n2 = get_NodeKeyPtr n' →
  ∃ m lt'' X Y, ReplaceTip n path n2 = Some m ∧ rel lv pre m lt'' ∧ get_NodeKeyPtr m = get_NodeKeyPtr n ∧
    lat pre lt'' path = Some (pre', lt2) ∧ at_path m path = Some n2 ∧
    lelems pre lt = X ++ lelems pre' lt' ++ Y ∧ lelems pre lt'' = X ++ lelems pre' lt2 ++ Y.
Proof.
  intros Hr Hl Ha Hr2 Ek. revert pre n lt Hr Hl Ha. induction path as [|b path IH]; intros pre n lt Hr; cbn [lat at_path ReplaceTip].
  - intros [= <- <-] [= <-]. exists n2, lt2, [], []. by rewrite !app_nil_r.
  - destruct lt as [|p l r]; [done|]. destruct n as [|bits cl k h c0 c1]; [done|].
    destruct Hr as (-> & Hk & H0 & H1). cbn [child mbind option_bind]. intros Hl Ha.
    destruct b;
      [destruct (IH _ _ _ H1 Hl Ha) as (m & lt'' & X & Y & -> & Hm & Ekm & La & Lb & E1 & E2)
      |destruct (IH _ _ _ H0 Hl Ha) as (m & lt'' & X & Y & -> & Hm & Ekm & La & Lb & E1 & E2)];
      cbn [mbind option_bind lelems]; rewrite E1.
    + exists (NJoint (length p) cl k h c0 m), (LJ p l lt''), (lelems (pre ++ p ++ [false]) l ++ X), Y.
      cbn. rewrite Ekm, E2, <- !app_assoc. split_and!; done.
    + exists (NJoint (length p) cl k h m c1), (LJ p lt'' r), X, (Y ++ lelems (pre ++ p ++ [true]) r).
      cbn. rewrite Ekm, E2, <- !app_assoc. split_and!; done.
Qed.

(** *** Removing a leaf *)

Lemma rel_keyptr_in lv pre n lt : rel lv pre n lt → get_NodeKeyPtr n ∈ (lelems pre lt).*2.
Proof.
  revert pre lt. induction n as [b cl a|b cl k h c0 IH0 c1 IH1]; intros pre [p a'|p l r]; cbn; try done.
  - intros (-> & _). by apply list_elem_of_singleton.
  - intros (_ & Hk & H0 & H1). rewrite fmap_app. apply elem_of_app. destruct Hk as [->| ->]; eauto.
Qed.

(** One step of the pointer fix: [k] is that of the joint, [o] that of the child off the
    path, [c] that of the child on it before the removal. *)
Lemma keyptr_fix {A} (f : addr → A) (a kN k o c : addr) :
  o ≠ a → (k = o ∨ k = c) →
  let k' := if decide (k = a) then kN else k in
  (if bool_decide (c = a) && bool_decide (k = a) then Some (f kN, true) else Some (f k, false)) =
    Some (f k', bool_decide (k = a)) ∧
  (k' = o ∨ k' = if decide (c = a) then kN else c).
Proof.
  intros Ho [->| ->] k'; unfold k'.
  - rewrite (decide_False (P := o = a)), (bool_decide_eq_false_2 (o = a)), andb_false_r by done. auto.
  - destruct (decide (c = a)) as [E|E];
      [rewrite (bool_decide_eq_true_2 _ E)|rewrite (bool_decide_eq_false_2 _ E)]; auto.
Qed.

(** The joint [NJoint bits cl k h c0 c1] at [ppath] loses its leaf [a] at [b]: the other
    child takes its place, and no pointer to the key of [a] remains. *)
Lemma rel_remove lv pre n lt ppath pre0 p l r bits cl k h c0 c1 (b : bool) pt a :
  rel lv pre n lt → lat pre lt ppath = Some (pre0, LJ p l r) →
  at_path n ppath = Some (NJoint bits cl k h c0 c1) → (if b then r else l) = LL pt a →
  NoDup (lelems pre lt).*2 →
  let pN := if b then c0 else c1 in
  ∃ n1 n2 lt2 X Y, FixKeyPtr n ppath a (get_NodeKeyPtr pN) = Some (n1, bool_decide (get_NodeKeyPtr n = a)) ∧
    ReplaceTip n1 ppath (set_Bits pN (get_Bits pN + (bits + 1))) = Some n2 ∧ rel lv pre n2 lt2 ∧
    lelems pre lt = X ++ (pre0 ++ p ++ b :: pt, a) :: Y ∧ lelems pre lt2 = X ++ Y ∧
    get_NodeKeyPtr n2 = if decide (get_NodeKeyPtr n = a) then get_NodeKeyPtr pN else get_NodeKeyPtr n.
Proof.
  intros Hr Hl Ha Htip Hnd pN. revert pre n lt Hr Hl Ha Hnd.
  induction ppath as [|b' ppath IH]; intros pre n lt Hr; cbn [lat at_path].
  - intros [= -> ->] [= ->] _. destruct Hr as (-> & Hk & H0 & H1).
    set (lo := if b then l else r).
    assert (Hlo : rel lv (pre0 ++ (p ++ [negb b])) pN lo) by (unfold pN, lo; by destruct b).
    assert (Hk' : k = a ∨ k = get_NodeKeyPtr pN).
    { unfold pN. destruct b; subst; [destruct c1; [|done]; destruct H1 as [-> _]|destruct c0; [|done]; destruct H0 as [-> _]];
        cbn in Hk; tauto. }
    assert (Hkp : ∀ m : node Hash, get_NodeKeyPtr (set_Bits m (get_Bits m + (length p + 1))) = get_NodeKeyPtr m) by (by intros []).
    apply rel_join in Hlo. rewrite length_app in Hlo.
    assert (Hfix : FixKeyPtr (NJoint (length p) cl k h c0 c1) [] a (get_NodeKeyPtr pN) =
      Some (NJoint (length p) cl (if decide (k = a) then get_NodeKeyPtr pN else k) h c0 c1, bool_decide (k = a))).
    { cbn. by destruct (decide (k = a)) as [->|Hne];
        [rewrite (bool_decide_eq_true_2 _ eq_refl)|rewrite (bool_decide_eq_false_2 _ Hne)]. }
    eexists _, _, _, (if b then lelems (pre0 ++ p ++ [false]) l else []), (if b then [] else lelems (pre0 ++ p ++ [true]) r).
    split; [exact Hfix|]. split; [done|]. split; [exact Hlo|]. rewrite lelems_join, Hkp. cbn [lelems get_NodeKeyPtr].
    split_and!.
    + destruct b; rewrite Htip; cbn; by rewrite <- !app_assoc.
    + unfold lo. destruct b; cbn; by rewrite ?app_nil_r.
    + destruct (decide (k = a)); [done|]. by destruct Hk'.
  - destruct lt as [|p' l' r']; [done|]. destruct n as [|bits' cl' k' h' c0' c1']; [done|].
    destruct Hr as (-> & Hk & H0 & H1). cbn [child mbind option_bind lelems]. intros Hl Ha Hnd.
    rewrite fmap_app in Hnd. apply NoDup_app in Hnd as (Hnd0 & Hdis & Hnd1).
    pose proof (rel_keyptr_in _ _ _ _ H0) as K0. pose proof (rel_keyptr_in _ _ _ _ H1) as K1.
    destruct b'.
    + destruct (IH _ _ _ H1 Hl Ha Hnd1) as (n1 & n2 & lt2 & X & Y & E1 & E2 & Hr2 & E3 & E4 & E5).
      cbn [FixKeyPtr]. rewrite E1. cbn [mbind option_bind].
      assert (get_NodeKeyPtr c0' ≠ a) as Hno.
      { intros E. apply (Hdis _ K0). rewrite E, E3, fmap_app. apply elem_of_app. right. left. }
      destruct (keyptr_fix (λ x, NJoint (length p') cl' x h' c0' n1) a (get_NodeKeyPtr pN) k' _ _ Hno Hk) as [-> Hk2].
      eexists _, (NJoint (length p') cl' _ h' c0' n2), (LJ p' l' lt2), (lelems (pre ++ p' ++ [false]) l' ++ X), Y.
      split; [done|]. cbn [ReplaceTip]. rewrite E2. split; [done|]. split.
      { split; [done|]. split; [|done]. by rewrite E5. }
      rewrite E3. cbn [lelems]. rewrite E4, <- !app_assoc. done.
    + destruct (IH _ _ _ H0 Hl Ha Hnd0) as (n1 & n2 & lt2 & X & Y & E1 & E2 & Hr2 & E3 & E4 & E5).
      cbn [FixKeyPtr]. rewrite E1. cbn [mbind option_bind].
      assert (get_NodeKeyPtr c1' ≠ a) as Hno.
      { intros E. apply (Hdis a); [|by rewrite <- E]. rewrite E3, fmap_app. apply elem_of_app. right. left. }
      destruct (keyptr_fix (λ x, NJoint (length p') cl' x h' n1 c1') a (get_NodeKeyPtr pN) k' _ (get_NodeKeyPtr c0') Hno)
        as [-> Hk2]; [tauto|].
      eexists _, (NJoint (length p') cl' _ h' n2 c1'), (LJ p' lt2 r'), X, (Y ++ lelems (pre ++ p' ++ [true]) r').
      split; [done|]. cbn [ReplaceTip]. rewrite E2. split; [done|]. split.
      { split; [done|]. split; [|done]. rewrite E5. tauto. }
      rewrite E3. cbn [lelems]. rewrite E4, <- !app_assoc. done.
Qed.

End rel.

(** ** Trees and their contents *)

Section ops.

Context {P Hash : Type} (P_new : P) (uninit : Hash).
Variable N : nat.
Hypothesis N_pos : 0 < N.

Notation rel := (rel N).

(** A tree that stands for the pairs [E]: the heap holds their leaves and nothing else. *)
Definition tree_ok (t : tree P Hash) (E : list (list bool * addr)) : Prop :=
  NoDup E.*2 ∧ dom (rt_Leaves t) = list_to_set E.*2 ∧
  match rt_Root t with
  | None => E = []
  | Some n => ∃ lt, rel (rt_Leaves t) [] n lt ∧ E = lelems [] lt
  end.

Lemma prefix_of_take (l k : list bool) m : l `prefix_of` k → length l ≤ m → l `prefix_of` take m k.
Proof.
  intros [s ->] Hl. rewrite take_app_ge by done. by apply prefix_app_r.
Qed.

(** At the stop, the searched prefix and the pairs of the subtree. *)
Lemma stops_elems (lv : gmap addr (Leaf P)) (n : node Hash) lt path pre' lt' key M ok pos :
  rel lv [] n lt → lat [] lt path = Some (pre', lt') → stops N key M ok pre' lt' pos → M ≤ N →
  if ok then (∀ e, e ∈ lelems pre' lt' → take M (kbits N key) `prefix_of` e.1)
  else ∀ e, e ∈ lelems [] lt → ¬ take M (kbits N key) `prefix_of` e.1.
Proof.
  intros Hr Hl (Hpos & Hpre & Hend) HM. destruct (lat_elems _ _ _ _ _ Hl) as (_ & X & Y & EE & Hout).
  destruct ok.
  - intros e He. apply lelems_prefix in He. etransitivity; [|exact He].
    assert (take M (kbits N key) = pre' ++ take pos (lpre lt')) as ->.
    { destruct Hpre as [rest ->]. apply take_app_length'. rewrite length_app, length_take. lia. }
    apply prefix_app. exists (drop pos (lpre lt')). by rewrite take_drop.
  - destruct Hend as [Hlt (b & Hb & Hne)]. intros e He Hp.
    assert (Hpe : pre' `prefix_of` e.1).
    { etransitivity; [|exact Hp]. apply prefix_of_take; [|lia].
      etransitivity; [|exact Hpre]. by apply prefix_app_r. }
    assert (e ∈ lelems pre' lt') as He'.
    { rewrite EE in He. apply elem_of_app in He as [He|[He|He]%elem_of_app]; [|done|];
        (destruct (Hout e); [apply elem_of_app; auto|done]). }
    apply lelems_prefix in He'. apply Hne.
    apply (prefix_lookup_Some _ _ (length pre' + pos) b) in He'.
    2: { rewrite lookup_app_r by lia. by replace (length pre' + pos - length pre') with pos by lia. }
    apply (prefix_lookup_Some _ _ (length pre' + pos) (kbit key (length pre' + pos))) in Hp.
    2: { rewrite lookup_take_lt by lia. apply kbits_lookup. lia. }
    congruence.
Qed.

(** [Goto] decides whether some key has the searched prefix. *)
Lemma Goto_spec t E key M :
  tree_ok t E → key_ok N key → 0 < M ≤ N →
  ∃ ok cu, Goto t key M = Some (ok, cu) ∧
    (ok = true ↔ ∃ e, e ∈ E ∧ take M (kbits N key) `prefix_of` e.1).
Proof.
  intros (_ & _ & Hroot) Hk HM. unfold Goto. destruct (rt_Root t) as [n|].
  - destruct Hroot as (lt & Hr & ->).
    destruct (Goto_root N (rt_Leaves t) n lt key M) as (ok & q & pre' & lt' & pos & -> & Hl & Hs); [done|done|lia|].
    eexists _, _. split; [done|].
    pose proof (stops_elems _ _ _ _ _ _ _ _ _ _ Hr Hl Hs ltac:(lia)) as Hel.
    destruct ok; [|split; [done|intros (e & He & Hp); by destruct (Hel e)]].
    split; [|done]. intros _. destruct (lat_elems _ _ _ _ _ Hl) as (_ & X & Y & EE & _).
    destruct (lelems pre' lt') as [|e el] eqn:Ee; [by apply lelems_not_nil in Ee|].
    exists e. split; [rewrite EE; apply elem_of_app; right; left|]. apply Hel. left.
  - subst E. eexists _, _. split; [done|]. rewrite (proj2 (Nat.ltb_lt 0 M)) by lia. cbn.
    split; [done|]. by intros (e & ?%elem_of_nil & _).
Qed.

(** A cursor at the leaf [a]. *)
Definition cursor_at (t : tree P Hash) (cu : CursorBase) (a : addr) : Prop :=
  ∃ n path pre p lt b cl, rt_Root t = Some n ∧ cu_pp cu = Some path ∧ rel (rt_Leaves t) [] n lt ∧
    lat [] lt path = Some (pre, LL p a) ∧ at_path n path = Some (NLeaf b cl a).

(** A search for all the bits that succeeds ends at a leaf. *)
Lemma stops_leaf (lv : gmap addr (Leaf P)) (n : node Hash) lt path pre' lt' key pos :
  rel lv [] n lt → lat [] lt path = Some (pre', lt') → stops N key N true pre' lt' pos →
  ∃ p a b cl, lt' = LL p a ∧ at_path n path = Some (NLeaf b cl a) ∧ pre' ++ p = kbits N key.
Proof.
  intros Hr Hl (Hpos & Hpre & Hend). destruct (rel_at N _ _ _ _ _ _ _ Hr Hl) as (n' & Ha & Hr').
  destruct n' as [b cl a|b cl k h c0 c1], lt' as [p a'|p l r]; try done.
  - destruct Hr' as (-> & -> & lf & Hlf & Hk & E). exists p, a, (length p), cl. split_and!; [done..|].
    cbn in *. pose proof (kbits_length N (lf_Key lf)) as EN. rewrite E, length_app in EN.
    rewrite take_ge in Hpre by lia. apply prefix_length_eq; [done|]. rewrite kbits_length, length_app. lia.
  - exfalso. pose proof Hr' as (_ & _ & H0 & _). destruct (lelems (pre' ++ p ++ [false]) l) as [|e el] eqn:Ee;
      [by apply lelems_not_nil in Ee|].
    assert (He : e ∈ lelems (pre' ++ p ++ [false]) l) by (rewrite Ee; left).
    pose proof (rel_length N _ _ _ _ _ H0 He). apply lelems_prefix, prefix_length in He.
    rewrite !length_app in He. cbn in *. lia.
Qed.

Lemma lat_leaf_elem lt path pre' p a : lat [] lt path = Some (pre', LL p a) → (pre' ++ p, a) ∈ lelems [] lt.
Proof.
  intros Hl. destruct (lat_elems _ _ _ _ _ Hl) as (_ & X & Y & -> & _). cbn.
  apply elem_of_app. right. left.
Qed.

(** *** Looking up *)

Lemma Find_found t E key bCreate a :
  tree_ok t E → key_ok N key → (kbits N key, a) ∈ E →
  ∃ cu, Find P_new uninit t key N bCreate = Some (t, cu, false, Some a) ∧ cursor_at t cu a.
Proof.
  intros (Hnd & _ & Hroot) Hk He. unfold Find, Goto. destruct (rt_Root t) as [n|] eqn:En.
  2: { subst E. by apply elem_of_nil in He. }
  destruct Hroot as (lt & Hr & ->).
  destruct (Goto_root N (rt_Leaves t) n lt key N) as (ok & q & pre' & lt' & pos & -> & Hl & Hs); [done|done|lia|].
  pose proof (stops_elems _ _ _ _ _ _ _ _ _ _ Hr Hl Hs ltac:(lia)) as Hel.
  cbn [mbind option_bind]. destruct ok.
  2: { destruct (Hel _ He). rewrite take_ge by (by rewrite kbits_length). done. }
  destruct (stops_leaf _ _ _ _ _ _ _ _ Hr Hl Hs) as (p & a' & b & cl & -> & Ha & Ek).
  cbn [cu_pp mbind option_bind]. rewrite Ha. cbn [mbind option_bind].
  assert (a' = a) as ->.
  { pose proof (lat_leaf_elem _ _ _ _ _ Hl) as He'. rewrite Ek in He'.
    by apply (lelems_fun [] lt (kbits N key)). }
  eexists; split; [done|]. exists n, q, pre', p, lt, b, cl. done.
Qed.

Lemma Find_absent t E key :
  tree_ok t E → key_ok N key → (∀ a, (kbits N key, a) ∉ E) →
  ∃ cu, Find P_new uninit t key N false = Some (t, cu, false, None).
Proof.
  intros Ht Hk Hno. destruct (Goto_spec t E key N Ht Hk) as (ok & cu & HG & Hok); [lia|].
  unfold Find. rewrite HG. cbn [mbind option_bind]. destruct ok; [|by exists cu].
  destruct (proj1 Hok eq_refl) as ([k a] & He & Hp). destruct (Hno a).
  rewrite take_ge in Hp by (by rewrite kbits_length). cbn in Hp.
  assert (length k = N) as HN.
  { destruct Ht as (_ & _ & Hroot). destruct (rt_Root t); [|subst; by apply elem_of_nil in He].
    destruct Hroot as (lt & Hr & ->). by apply (rel_length N _ _ _ _ _ Hr) in He. }
  apply prefix_length_eq in Hp; [by rewrite Hp|]. by rewrite kbits_length, HN.
Qed.

(** *** Inserting *)

Lemma kbits_take key : key_ok N key →
  key_ok N (take (Nat.shiftr (N + 7) 3) key) ∧ kbits N (take (Nat.shiftr (N + 7) 3) key) = kbits N key.
Proof.
  intros Hk. unfold key_ok in *. rewrite shiftr_3, length_take.
  pose proof (Nat.div_mod_eq (N + 7) 8). pose proof (Nat.mod_upper_bound (N + 7) 8). split; [lia|].
  unfold kbits. apply list_fmap_ext. intros i j [Hj1 Hj2]%lookup_seq. cbn in Hj1. subst j. unfold kbit. f_equal.
  pose proof (Nat.div_mod_eq i 8). pose proof (Nat.mod_upper_bound i 8).
  rewrite !nth_lookup, lookup_take_lt by lia. done.
Qed.

(** The key after the bits that agree and the one that does not. *)
Lemma kbits_cut key l : l `prefix_of` kbits N key → length l < N →
  kbits N key = (l ++ [kbit key (length l)]) ++ drop (S (length l)) (kbits N key).
Proof.
  intros [k E] Hl. rewrite E at 1. rewrite <- app_assoc. f_equal.
  assert (Hb : kbits N key !! length l = Some (kbit key (length l))) by (by apply kbits_lookup).
  rewrite E, lookup_app_r, Nat.sub_diag in Hb by lia. destruct k as [|x k]; [done|]. cbn in Hb. injection Hb as ->.
  rewrite E. rewrite drop_app_ge by lia. by replace (S (length l) - length l) with 1 by lia.
Qed.

(** The node that splits [p] at [pos]. *)
Lemma rel_fork (lv : gmap addr (Leaf P)) pre' (p : node Hash) lt' key pos pN lf :
  let l := pre' ++ take pos (lpre lt') in
  let iC := kbit key (length l) in
  let leaf := NLeaf (N - (length l + 1)) false pN in
  let p' := set_Bits p (get_Bits p - (pos + 1)) in
  rel lv pre' p lt' → l `prefix_of` kbits N key → length l < N →
  lpre lt' !! pos = Some (negb iC) → lv !! pN = Some lf → key_ok N (lf_Key lf) →
  kbits N (lf_Key lf) = kbits N key →
  ∃ l0 l1, let lt2 := LJ (take pos (lpre lt')) l0 l1 in
    rel lv pre' (NJoint pos false (get_NodeKeyPtr p) uninit (if iC then p' else leaf) (if iC then leaf else p')) lt2 ∧
    lat pre' lt2 [iC] = Some (l ++ [iC], LL (drop (S (length l)) (kbits N key)) pN) ∧
    lelems pre' lt2 = if iC then lelems pre' lt' ++ [(kbits N key, pN)] else (kbits N key, pN) :: lelems pre' lt'.
Proof.
  intros l iC leaf p' Hr Hp Hl Hb Hlf Hk Ek. pose proof (rel_Bits N _ _ _ _ Hr) as Hbits.
  pose proof (lookup_lt_Some _ _ _ Hb) as Hpos.
  set (v := drop (S pos) (lpre lt')).
  assert (EL : lpre lt' = (take pos (lpre lt') ++ [negb iC]) ++ v).
  { rewrite <- app_assoc. unfold v. symmetry. by apply take_drop_middle. }
  pose proof (rel_split N _ _ _ _ _ _ Hr EL) as Hsp. pose proof (lelems_split pre' lt' _ _ EL) as Hse.
  assert (get_Bits p - (pos + 1) = length v) as Ev by (unfold v; rewrite length_drop, Hbits; lia).
  set (s := LL (drop (S (length l)) (kbits N key)) pN).
  assert (Hleaf : rel lv (pre' ++ take pos (lpre lt') ++ [iC]) leaf s).
  { split_and!; [done|cbn; rewrite length_drop, kbits_length; lia|]. exists lf. split_and!; [done..|].
    rewrite Ek, app_assoc. by apply kbits_cut. }
  assert (Hse' : lelems (pre' ++ take pos (lpre lt') ++ [iC]) s = [(kbits N key, pN)]).
  { cbn. rewrite app_assoc. fold l. unfold iC. by rewrite <- kbits_cut. }
  assert (Hkp : get_NodeKeyPtr p' = get_NodeKeyPtr p) by (by destruct p).
  assert (length (take pos (lpre lt')) = pos) as Etk by (rewrite length_take; lia).
  unfold p' in *. rewrite Ev in *. destruct iC eqn:EiC; cbn [negb] in *.
  - exists (lset_pre lt' v), s. split_and!.
    + cbn [RadixTreeSpec.rel]. rewrite Etk, Hkp. do 2 (split; [auto|]). by split.
    + cbn. unfold l. by rewrite <- app_assoc.
    + cbn [lelems]. rewrite Hse', Hse. done.
  - exists s, (lset_pre lt' v). split_and!.
    + cbn [RadixTreeSpec.rel]. rewrite Etk, Hkp. do 2 (split; [auto|]). by split.
    + cbn. unfold l. by rewrite <- app_assoc.
    + cbn [lelems]. rewrite Hse', Hse. done.
Qed.

Lemma Find_create t E key :
  tree_ok t E → key_ok N key → (∀ a, (kbits N key, a) ∉ E) →
  ∃ t' cu a X Y, Find P_new uninit t key N true = Some (t', cu, true, Some a) ∧ a ∉ E.*2 ∧
    rt_Leaves t' = <[a := mkLeaf (take (Nat.shiftr (N + 7) 3) key) P_new]> (rt_Leaves t) ∧
    cursor_at t' cu a ∧ E = X ++ Y ∧ tree_ok t' (X ++ (kbits N key, a) :: Y).
Proof.
  intros (Hnd & Hdom & Hroot) Hk Hno. destruct (kbits_take key Hk) as [Hk' Ek'].
  set (pN := fresh (dom (rt_Leaves t))). set (lf := mkLeaf (take (Nat.shiftr (N + 7) 3) key) P_new).
  assert (HpN : pN ∉ E.*2).
  { pose proof (is_fresh (dom (rt_Leaves t))) as Hf. rewrite Hdom in Hf at 2. by rewrite elem_of_list_to_set in Hf. }
  unfold Find, Goto. fold pN lf. destruct (rt_Root t) as [n|] eqn:En.
  2: { subst E. rewrite (proj2 (Nat.ltb_lt 0 N)) by lia. cbn [negb mbind option_bind cu_pp].
       eexists _, _, pN, [], []. split; [done|]. split; [done|]. split; [done|].
       assert (Hr : rel (<[pN:=lf]> (rt_Leaves t)) [] (NLeaf N false pN : node Hash) (LL (kbits N key) pN)).
       { split_and!; [done|by rewrite kbits_length|]. exists lf. by rewrite lookup_insert_eq. }
       split; [by eexists _, [], [], _, _, _, _|]. split; [done|]. split_and!; cbn.
       - apply NoDup_singleton.
       - rewrite dom_insert_L, Hdom. done.
       - by exists (LL (kbits N key) pN). }
  destruct Hroot as (lt & Hr & ->).
  destruct (Goto_root N (rt_Leaves t) n lt key N) as (ok & q & pre' & lt' & pos & -> & Hl & Hs); [done|done|lia|].
  cbn [mbind option_bind]. destruct ok.
  { destruct (stops_leaf _ _ _ _ _ _ _ _ Hr Hl Hs) as (p & a & b & cl & -> & Ha & Ek).
    apply lat_leaf_elem in Hl. rewrite Ek in Hl. by destruct (Hno a). }
  destruct Hs as (Hpos & Hpre & Hlt & b & Hb & Hne). cbn [negb cu_pp m_nBits m_nPosInLastNode].
  destruct (rel_InvalidateElement N _ _ _ _ _ _ Hr Hl) as (n1 & go & -> & Hr1 & _). cbn [mbind option_bind].
  rewrite (get_Bit_spec N) by (done || lia). cbn [mbind option_bind].
  destruct (rel_at N _ _ _ _ _ _ _ Hr1 Hl) as (p & Ha & Hrp). rewrite Ha. cbn [mbind option_bind].
  rewrite (rel_Bits N _ _ _ _ Hrp). pose proof (lookup_lt_Some _ _ _ Hb) as Hpos'.
  rewrite (proj2 (Nat.ltb_ge (length (lpre lt')) (pos + 1))) by lia.
  set (l := pre' ++ take pos (lpre lt')) in *.
  assert (length l = length pre' + pos) as El by (unfold l; rewrite length_app, length_take; lia).
  assert (Hmono : ∀ a, a ∈ (lelems [] lt).*2 → <[pN:=lf]> (rt_Leaves t) !! a = rt_Leaves t !! a)
    by (intros a Hin; apply lookup_insert_ne; by intros ->).
  apply (rel_mono N _ (<[pN:=lf]> (rt_Leaves t))) in Hr1; [|done].
  apply (rel_mono N _ (<[pN:=lf]> (rt_Leaves t))) in Hrp.
  2: { destruct (lat_elems _ _ _ _ _ Hl) as (_ & X & Y & EE & _). intros a Hin. apply Hmono.
       rewrite EE, !fmap_app, !elem_of_app. auto. }
  rewrite <- El in *. assert (b = negb (kbit key (length l))) as -> by (by destruct b, (kbit key (length l))).
  destruct (rel_fork _ _ _ _ _ _ pN lf Hrp Hpre Hlt Hb) as (l0 & l1 & Hf & Hfl & Hfe);
    [by rewrite lookup_insert_eq|done|done|].
  fold l in Hf, Hfl, Hfe. rewrite (rel_Bits N _ _ _ _ Hrp) in Hf.
  destruct (rel_ReplaceTip N _ _ _ _ _ _ _ _ _ _ Hr1 Hl Ha Hf eq_refl)
    as (m & lt'' & X & Y & -> & Hm & _ & Hla & Hat & E1 & E2). cbn [mbind option_bind].
  set (iC := kbit key (length l)) in *. set (Z0 := lelems pre' lt') in *.
  eexists _, _, pN, (if iC then X ++ Z0 else X), (if iC then Y else Z0 ++ Y).
  split; [done|]. split; [done|]. split; [done|]. split; [|split].
  - eexists m, (q ++ [iC]), _, _, lt'', _, _. split_and!; [done|done|done| |].
    + rewrite (lat_app _ _ _ _ _ Hla). exact Hfl.
    + rewrite (at_path_app _ _ _ _ Hat). cbn. by destruct iC.
  - rewrite E1. by destruct iC; rewrite <- ?app_assoc.
  - assert (Hperm : lelems [] lt'' = (if iC then X ++ Z0 else X) ++ (kbits N key, pN) :: (if iC then Y else Z0 ++ Y)).
    { rewrite E2, Hfe. by destruct iC; rewrite <- ?app_assoc. }
    assert (Hnd' : (X ++ Z0 ++ Y).*2 ≡ₚ ((if iC then X ++ Z0 else X) ++ (if iC then Y else Z0 ++ Y)).*2)
      by (by destruct iC; rewrite <- ?app_assoc).
    rewrite E1 in Hnd, Hdom, HpN. split_and!; cbn.
    + rewrite <- Permutation_middle. cbn. rewrite <- Hnd'. by constructor.
    + rewrite dom_insert_L, Hdom, <- Permutation_middle. cbn. by rewrite <- Hnd'.
    + by exists lt''.
Qed.

End ops.
