(* ===== verification/RadixHash.v ===== *)
(** * core/radixtree: cached hashes

    A joint caches its hash while its [s_Clean] flag is set.  [clean_ok] (a clean joint has
    clean children) is what lets [InvalidateElement] stop at the first dirty node, and
    [Delete] add packed bit counts; [hash_ok] says that the cached hashes are right. *)

From stdpp Require Import base list numbers option gmap.
From S2P Require Import Prelude Merkle RadixTree RadixTreeSpec.
Import RadixTree RadixHashTree.

Section clean.

Context {P Hash : Type} `{Hasher Hash}.

Fixpoint clean_ok (n : node Hash) : Prop :=
  match n with
  | NLeaf _ _ _ => True
  | NJoint _ cl _ _ c0 c1 =>
    (cl = true → is_clean c0 = true ∧ is_clean c1 = true) ∧ clean_ok c0 ∧ clean_ok c1
  end.

(** The hash of a node, given those of the leaves. *)
Fixpoint nhash (lh : addr → Hash) (n : node Hash) : Hash :=
  match n with
  | NLeaf _ _ a => lh a
  | NJoint _ _ _ _ c0 c1 => combine (nhash lh c0) (nhash lh c1)
  end.

Fixpoint hash_ok (lh : addr → Hash) (n : node Hash) : Prop :=
  match n with
  | NLeaf _ _ _ => True
  | NJoint _ cl _ h c0 c1 => (cl = true → h = nhash lh n) ∧ hash_ok lh c0 ∧ hash_ok lh c1
  end.

(** Every node of a path is dirty. *)
Fixpoint dirty_path (n : node Hash) (path : list bool) {struct path} : Prop :=
  is_clean n = false ∧
  match path with
  | [] => True
  | b :: path => match n with NLeaf _ _ _ => False | NJoint _ _ _ _ c0 c1 => dirty_path (if b : bool then c1 else c0) path end
  end.

Lemma clean_ok_set_clean n : clean_ok n → clean_ok (set_clean n false).
Proof. destruct n; cbn; [done|]. by intros (_ & ? & ?). Qed.

Lemma nhash_set_clean lh n c : nhash lh (set_clean n c) = nhash lh n.
Proof. by destruct n. Qed.

Lemma hash_ok_set_clean lh n : hash_ok lh n → hash_ok lh (set_clean n false).
Proof. destruct n; cbn; [done|]. by intros (_ & ? & ?). Qed.

Lemma is_clean_set (n : node Hash) c : is_clean (set_clean n c) = c.
Proof. by destruct n. Qed.

Lemma InvalidateElement_clean lh n path n1 go :
  InvalidateElement n path = Some (n1, go) → clean_ok n →
  clean_ok n1 ∧ dirty_path n1 path ∧ go = is_clean n ∧ nhash lh n1 = nhash lh n ∧ (hash_ok lh n → hash_ok lh n1).
Proof.
  revert n n1 go. induction path as [|b path IH]; intros n n1 go; cbn [InvalidateElement].
  - destruct (is_clean n) eqn:Ec; intros [= <- <-] Hc.
    + cbn [dirty_path]. rewrite is_clean_set, nhash_set_clean. split_and!; try done; [by apply clean_ok_set_clean|apply hash_ok_set_clean].
    + cbn. by rewrite Ec.
  - destruct n as [|bits cl k h c0 c1]; [done|].
    destruct (InvalidateElement _ path) as [[c g]|] eqn:Ei; [|done]. cbn [mbind option_bind].
    intros E (Hcl & H0 & H1).
    destruct b; (apply IH in Ei as (Hc & Hd & -> & En & Hh); [|done]);
      (destruct cl; cbn in E;
        [destruct (Hcl eq_refl) as [E0 E1]; rewrite ?E0, ?E1 in E|rewrite andb_false_r in E]; cbn in E;
        injection E as <- <-; cbn; rewrite En; split_and!; try done; try tauto).
    all: intros (Hh1 & Hh2 & Hh3); split_and!; try done; try (by apply Hh).
Qed.

Lemma dirty_path_app n path path' : dirty_path n (path ++ path') → dirty_path n path.
Proof.
  revert n. induction path as [|b path IH]; intros n; cbn; [destruct path'; cbn; tauto|].
  intros [Hn Hp]. split; [done|]. destruct n; [done|]. by apply IH.
Qed.

Lemma dirty_path_at n path n' : dirty_path n path → at_path n path = Some n' → is_clean n' = false.
Proof.
  revert n. induction path as [|b path IH]; intros n; cbn.
  - by intros [? _] [= <-].
  - destruct n; [done|]. intros [_ Hp]. cbn. by apply IH.
Qed.

Lemma ReplaceTip_clean lh n path pNew m :
  ReplaceTip n path pNew = Some m → dirty_path n path → clean_ok n → clean_ok pNew →
  clean_ok m ∧ (hash_ok lh n → hash_ok lh pNew → hash_ok lh m).
Proof.
  revert n m. induction path as [|b path IH]; intros n m; cbn [ReplaceTip].
  - by intros [= <-].
  - destruct n as [|bits cl k h c0 c1]; [done|]. destruct (ReplaceTip _ path pNew) as [c|] eqn:Er; [|done].
    cbn [mbind option_bind]. intros [= <-] [Hd Hp] (_ & H0 & H1) Hn. cbn in Hd. subst cl.
    destruct b; (apply IH in Er as [Hc Hh]; [|done..]); cbn; (split; [by split_and!|]);
      intros (_ & G0 & G1) G; split_and!; auto; done.
Qed.

Lemma FixKeyPtr_clean lh n path a k n1 go :
  FixKeyPtr n path a k = Some (n1, go) →
  is_clean n1 = is_clean n ∧ (clean_ok n → clean_ok n1) ∧ (dirty_path n path → dirty_path n1 path) ∧
  nhash lh n1 = nhash lh n ∧ (hash_ok lh n → hash_ok lh n1).
Proof.
  revert n n1 go. induction path as [|b path IH]; intros n n1 go.
  - destruct n as [|bits cl k' h c0 c1]; [done|]. cbn.
    destruct (bool_decide _); intros [= <- <-]; cbn; by split_and!.
  - destruct n as [|bits cl k' h c0 c1]; [done|]. cbn.
    destruct b; (destruct (FixKeyPtr _ path a k) as [[c g]|] eqn:Ef; [|done]);
      apply IH in Ef as (Ec & Hc & Hd & Hn & Hh); cbn;
      (destruct (g && _); intros [= <- <-]; cbn; rewrite Ec, Hn; split_and!; try done; try tauto).
Qed.

Lemma clean_ok_set_Bits (n : node Hash) b : clean_ok n → clean_ok (set_Bits n b).
Proof. by destruct n. Qed.

Lemma hash_ok_set_Bits lh (n : node Hash) b : hash_ok lh n → hash_ok lh (set_Bits n b).
Proof. by destruct n. Qed.

Lemma clean_ok_at n path n' : clean_ok n → at_path n path = Some n' → clean_ok n'.
Proof.
  revert n. induction path as [|b path IH]; intros n Hn; cbn; [by intros [= <-]|].
  destruct n as [|bits cl k h c0 c1]; [done|]. destruct Hn as (_ & H0 & H1). cbn. destruct b; by apply IH.
Qed.

Lemma hash_ok_at lh n path n' : hash_ok lh n → at_path n path = Some n' → hash_ok lh n'.
Proof.
  revert n. induction path as [|b path IH]; intros n Hn; cbn; [by intros [= <-]|].
  destruct n as [|bits cl k h c0 c1]; [done|]. destruct Hn as (_ & H0 & H1). cbn. destruct b; by apply IH.
Qed.

Definition tree_clean (t : tree P Hash) : Prop := ∀ n, rt_Root t = Some n → clean_ok n.
Definition tree_hash (lh : addr → Hash) (t : tree P Hash) : Prop := ∀ n, rt_Root t = Some n → hash_ok lh n.

(** ** Delete *)

Lemma Delete_spec N t E cu a :
  tree_ok N t E → cursor_at N t cu a → tree_clean t →
  ∃ t' X Y k, Delete t cu = Some t' ∧ E = X ++ (k, a) :: Y ∧ rt_Leaves t' = delete a (rt_Leaves t) ∧
    tree_ok N t' (X ++ Y) ∧ tree_clean t' ∧ ∀ lh, tree_hash lh t → tree_hash lh t'.
Proof.
  intros (Hnd & Hdom & Hroot) (n & path & pre & p & lt & b0 & cl0 & En & Ep & Hr & Hl & Ha) Hcl.
  rewrite En in Hroot. destruct Hroot as (lt' & Hr' & ->).
  rewrite <- (rel_fun N _ _ _ _ _ Hr Hr') in *. clear lt' Hr'. specialize (Hcl n En).
  unfold Delete. rewrite En, Ep. cbn [mbind option_bind].
  destruct (rel_InvalidateElement N _ _ _ _ _ _ Hr Hl) as (n1 & go & Ei & Hr1 & _). rewrite Ei. cbn [mbind option_bind].
  destruct (InvalidateElement_clean (λ _, hZero) _ _ _ _ Ei Hcl) as (Hc1 & Hd1 & _).
  assert (Hh1 : ∀ lh, tree_hash lh t → hash_ok lh n1).
  { intros lh Hh. by apply (InvalidateElement_clean lh _ _ _ _ Ei Hcl), Hh. }
  destruct (rel_at N _ _ _ _ _ _ _ Hr1 Hl) as (tip & Ht & Hrt). rewrite Ht. cbn [mbind option_bind].
  destruct tip as [bt clt at'|]; [|done]. destruct Hrt as (E & _). subst at'.
  destruct path as [|b ppath _] using rev_ind.
  - cbn in Hl. injection Hl as <- ->. cbn [rev]. exists (mk None (delete a (rt_Leaves t))), [], [], p.
    split_and!; try done. split_and!; cbn; [constructor|rewrite dom_delete_L, Hdom; cbn; clear; set_solver|done].
  - rewrite rev_app_distr. cbn [rev app]. rewrite rev_involutive.
    destruct (lat_snoc _ _ _ _ _ _ Hl) as (pre0 & pj & l & r & Hlj & Epre & Etip).
    destruct (rel_at N _ _ _ _ _ _ _ Hr1 Hlj) as (pPrev & Hp & Hrp). rewrite Hp. cbn [mbind option_bind].
    destruct pPrev as [|bits cl k h c0 c1]; [done|]. cbn [child mbind option_bind].
    pose proof (dirty_path_app _ _ _ Hd1) as Hdp. pose proof (dirty_path_at _ _ _ Hdp Hp) as Hcp. cbn in Hcp. subst cl.
    destruct (rel_remove N _ _ _ _ _ _ _ _ _ _ _ _ _ _ _ b _ a Hr1 Hlj Hp Etip Hnd)
      as (n2 & n3 & lt3 & X & Y & Ef & Et & Hr3 & E1 & E2 & _).
    set (pN := if negb b then c1 else c0). replace (if b then c0 else c1) with pN in * by (unfold pN; by destruct b).
    rewrite Ef. cbn [mbind option_bind is_clean get_Bits]. rewrite Et. cbn [mbind option_bind].
    destruct (FixKeyPtr_clean (λ _, hZero) _ _ _ _ _ _ Ef) as (_ & Hc2 & Hd2 & _ & _).
    assert (HpN : at_path n1 (ppath ++ [negb b]) = Some pN) by (by rewrite (at_path_app _ _ _ _ Hp)).
    pose proof (clean_ok_set_Bits _ (get_Bits pN + (bits + 1)) (clean_ok_at _ _ _ Hc1 HpN)) as HcN.
    eexists _, X, Y, _. split; [done|]. split; [exact E1|]. split; [done|]. split_and!.
    + rewrite E1, fmap_app in Hnd. cbn in Hnd. rewrite <- Permutation_middle in Hnd. apply NoDup_cons in Hnd as [Hna Hnd].
      split_and!; cbn.
      * by rewrite fmap_app.
      * rewrite dom_delete_L, Hdom, E1, !fmap_app. cbn. rewrite !list_to_set_app_L. cbn.
        rewrite elem_of_app in Hna. clear -Hna. set_solver.
      * exists lt3. split; [|done]. apply (rel_mono N (rt_Leaves t)); [|done]. intros a' Ha'.
        rewrite lookup_delete_ne; [done|]. intros <-. rewrite E2, fmap_app in Ha'. done.
    + intros m [= <-]. by apply (ReplaceTip_clean (λ _, hZero) _ _ _ _ Et); auto.
    + intros lh Hh m [= <-]. apply (ReplaceTip_clean lh _ _ _ _ Et); auto.
      * by apply (FixKeyPtr_clean lh _ _ _ _ _ _ Ef), Hh1.
      * apply hash_ok_set_Bits. by apply (hash_ok_at lh n1 (ppath ++ [negb b])); [apply Hh1|].
Qed.

(** ** Find *)

Lemma Find_clean (P_new : P) (uninit : Hash) t key nBits t' cu c r :
  Find P_new uninit t key nBits true = Some (t', cu, c, r) → tree_clean t →
  tree_clean t' ∧ (∀ lh, tree_hash lh t → tree_hash lh t').
Proof.
  unfold Find. destruct (Goto t key nBits) as [[found cu0]|]; [|done]. cbn [mbind option_bind].
  destruct found.
  - destruct (rt_Root t); [|done]. destruct (cu_pp cu0); [|done]. cbn [mbind option_bind].
    destruct (at_path n l) as [[]|]; try done. cbn. by intros [= <- _ _ _].
  - cbn [negb]. destruct (cu_pp cu0) as [path|], (rt_Root t) as [root|] eqn:Er.
    2-4: intros [= <- _ _ _] _; split; [by intros n [= <-]|]; by intros lh _ n [= <-].
    destruct (InvalidateElement root path) as [[n1 go]|] eqn:Ei; [|done]. cbn [mbind option_bind].
    destruct (get_Bit key (m_nBits cu0)) as [iC|]; [|done]. cbn [mbind option_bind].
    destruct (at_path n1 path) as [p|] eqn:Ep; [|done]. cbn [mbind option_bind].
    destruct (_ <? _); [done|]. destruct (ReplaceTip _ _ _) as [root'|] eqn:Et; [|done].
    cbn [mbind option_bind]. intros [= <- _ _ _] Hc. specialize (Hc root Er).
    destruct (InvalidateElement_clean (λ _, hZero) _ _ _ _ Ei Hc) as (Hc1 & Hd1 & _).
    pose proof (clean_ok_set_Bits _ (get_Bits p - (m_nPosInLastNode cu0 + 1)) (clean_ok_at _ _ _ Hc1 Ep)) as Hcp.
    split.
    + intros n [= <-]. apply (ReplaceTip_clean (λ _, hZero) _ _ _ _ Et); [done|done|]. by destruct iC; split_and!.
    + intros lh Hh n [= <-]. specialize (Hh root Er).
      pose proof (InvalidateElement_clean lh _ _ _ _ Ei Hc) as (_ & _ & _ & _ & Hh1). specialize (Hh1 Hh).
      apply (ReplaceTip_clean lh _ _ _ _ Et); [done|done|by destruct iC; split_and!|done|].
      pose proof (hash_ok_set_Bits lh _ (get_Bits p - (m_nPosInLastNode cu0 + 1)) (hash_ok_at lh _ _ _ Hh1 Ep)).
      by destruct iC; split_and!.
Qed.

(** ** Hashes *)

Variable get_LeafHash : Leaf P → Hash.

(** [lh] gives the hashes of the leaves. *)
Definition leaf_hashes (lv : gmap addr (Leaf P)) (lh : addr → Hash) : Prop :=
  ∀ a lf, lv !! a = Some lf → get_LeafHash lf = lh a.

Lemma get_Hash_node_spec N lv lh pre n lt :
  rel N lv pre n lt → leaf_hashes lv lh → clean_ok n → hash_ok lh n →
  ∃ n', get_Hash_node get_LeafHash lv n = Some (n', nhash lh n) ∧ rel N lv pre n' lt ∧
    get_NodeKeyPtr n' = get_NodeKeyPtr n ∧ is_clean n' = true ∧ clean_ok n' ∧ hash_ok lh n' ∧ nhash lh n' = nhash lh n.
Proof.
  intros Hr Hlh. revert pre lt Hr. induction n as [b cl a|b cl k h c0 IH0 c1 IH1]; intros pre [p a'|p l r] Hr Hc Hh; try done.
  - pose proof Hr as (-> & _ & lf & Hlf & _). cbn. rewrite Hlf. cbn. rewrite (Hlh _ _ Hlf). eexists; split; [done|].
    split_and!; done.
  - destruct Hr as (Hb & Hk & H0 & H1), Hc as (Hcl & C0 & C1), Hh as (Hhh & G0 & G1). cbn [get_Hash_node].
    destruct cl.
    + rewrite (Hhh eq_refl). eexists; split; [done|]. cbn. by split_and!.
    + destruct (IH0 _ _ H0 C0 G0) as (n0 & -> & R0 & K0 & L0 & M0 & Q0 & E0).
      destruct (IH1 _ _ H1 C1 G1) as (n1 & -> & R1 & K1 & L1 & M1 & Q1 & E1). cbn [mbind option_bind].
      eexists; split; [done|]. cbn. rewrite E0, E1, K0, K1. by split_and!.
Qed.

(** The proof for the end of a path leads to the node's hash. *)
Lemma get_Proof_node_spec N lv lh pre n lt path pre' lt' n' :
  rel N lv pre n lt → leaf_hashes lv lh → clean_ok n → hash_ok lh n →
  lat pre lt path = Some (pre', lt') → at_path n path = Some n' →
  ∃ m proof, get_Proof_node get_LeafHash lv n path = Some (m, proof) ∧ rel N lv pre m lt ∧
    get_NodeKeyPtr m = get_NodeKeyPtr n ∧ (is_clean n = true → is_clean m = true) ∧ clean_ok m ∧ hash_ok lh m ∧
    nhash lh m = nhash lh n ∧ Interpret_Proof (nhash lh n') proof = nhash lh n.
Proof.
  intros Hr Hlh. revert pre n lt Hr. induction path as [|b path IH]; intros pre n lt Hr Hc Hh; cbn [lat at_path get_Proof_node].
  - intros _ [= ->]. by exists n', [].
  - destruct lt as [|p l r]; [done|]. destruct n as [|bits cl k h c0 c1]; [done|]. cbn [child mbind option_bind].
    destruct Hr as (Hb & Hk & H0 & H1), Hc as (Hcl & C0 & C1), Hh as (Hhh & G0 & G1). intros Hl Ha.
    destruct b.
    + destruct (IH _ _ _ H1 C1 G1 Hl Ha) as (m & pr & -> & Rm & Km & Lm & Mm & Qm & Em & Ip).
      destruct (get_Hash_node_spec _ _ _ _ _ _ H0 Hlh C0 G0) as (o & -> & Ro & Ko & Lo & Mo & Qo & Eo).
      cbn [mbind option_bind]. eexists _, _; split; [done|]. cbn. rewrite Km, Ko, Em, Eo.
      split_and!; try done; [naive_solver|]. unfold Interpret_Proof in *. rewrite foldl_app, Ip. done.
    + destruct (IH _ _ _ H0 C0 G0 Hl Ha) as (m & pr & -> & Rm & Km & Lm & Mm & Qm & Em & Ip).
      destruct (get_Hash_node_spec _ _ _ _ _ _ H1 Hlh C1 G1) as (o & -> & Ro & Ko & Lo & Mo & Qo & Eo).
      cbn [mbind option_bind]. eexists _, _; split; [done|]. cbn. rewrite Km, Ko, Em, Eo.
      split_and!; try done; [naive_solver|]. unfold Interpret_Proof in *. rewrite foldl_app, Ip. done.
Qed.

End clean.

(** ** The root hash as a function of the contents

    [chash f E] hashes pairs of a key of [f] bits and a leaf hash: it splits them by their
    first bit, and passes over the bits all of them share.  The order in which they were
    inserted or deleted has no part in it. *)

Section canonical.

Context {Hash : Type} `{Hasher Hash}.

Definition heads (b : bool) (E : list (list bool * Hash)) : list (list bool * Hash) :=
  omap (λ e, match e.1 with c :: k => if Bool.eqb c b then Some (k, e.2) else None | [] => None end) E.

Fixpoint chash (f : nat) (E : list (list bool * Hash)) : Hash :=
  match E with
  | [] => hZero
  | [e] => e.2
  | _ =>
    match f with
    | O => hZero
    | S f =>
      match heads false E, heads true E with
      | [], E1 => chash f E1
      | E0, [] => chash f E0
      | E0, E1 => combine (chash f E0) (chash f E1)
      end
    end
  end.

Definition under (p : list bool) (E : list (list bool * Hash)) : list (list bool * Hash) :=
  (λ e, (p ++ e.1, e.2)) <$> E.

Lemma under_app p E E' : under p (E ++ E') = under p E ++ under p E'.
Proof. apply fmap_app. Qed.

Lemma under_under p q E : under p (under q E) = under (p ++ q) E.
Proof. unfold under. rewrite <- list_fmap_compose. apply list_fmap_ext. intros ? e _. cbn. by rewrite app_assoc. Qed.

Lemma heads_app b E E' : heads b (E ++ E') = heads b E ++ heads b E'.
Proof. apply omap_app. Qed.

Lemma heads_cons b c E : heads b (under [c] E) = if Bool.eqb c b then E else [].
Proof.
  induction E as [|[k h] E IH]; [by destruct (Bool.eqb c b)|].
  change (heads b (under [c] ((k, h) :: E))) with
    (match (if Bool.eqb c b then Some (k, h) else None) with
     | Some e => e :: heads b (under [c] E) | None => heads b (under [c] E) end).
  rewrite IH. by destruct (Bool.eqb c b).
Qed.

Lemma chash_cons c f E : E ≠ [] → chash (S f) (under [c] E) = chash f E.
Proof.
  intros HE. destruct E as [|e [|e' E]]; [done|by destruct f|]. 
  change (chash (S f) (under [c] (e :: e' :: E))) with
    (match heads false (under [c] (e :: e' :: E)), heads true (under [c] (e :: e' :: E)) with
     | [], E1 => chash f E1 | E0, [] => chash f E0 | E0, E1 => combine (chash f E0) (chash f E1) end).
  rewrite !heads_cons. by destruct c.
Qed.

Lemma chash_under p f E : E ≠ [] → chash (length p + f) (under p E) = chash f E.
Proof.
  intros HE. induction p as [|c p IH].
  - f_equal. unfold under. rewrite <- (list_fmap_id E) at 2. apply list_fmap_ext. by intros ? [] ?.
  - replace (under (c :: p) E) with (under [c] (under p E)) by (by rewrite under_under).
    cbn [length Nat.add]. rewrite chash_cons; [done|]. unfold under. by intros ?%fmap_nil_inv.
Qed.

Lemma chash_fork f E0 E1 : E0 ≠ [] → E1 ≠ [] →
  chash (S f) (under [false] E0 ++ under [true] E1) = combine (chash f E0) (chash f E1).
Proof.
  intros H0 H1. destruct E0 as [|e0 E0]; [done|]. destruct E1 as [|e1 E1]; [done|].
  pose proof (heads_app false (under [false] (e0 :: E0)) (under [true] (e1 :: E1))) as A.
  pose proof (heads_app true (under [false] (e0 :: E0)) (under [true] (e1 :: E1))) as B.
  rewrite !heads_cons in A, B. cbn [Bool.eqb app] in A, B. rewrite app_nil_r in A.
  destruct (under [false] (e0 :: E0) ++ under [true] (e1 :: E1)) as [|x [|y l]] eqn:El.
  - done.
  - by destruct E0.
  - change (chash (S f) (x :: y :: l)) with
      (match heads false (x :: y :: l), heads true (x :: y :: l) with
       | [], E1 => chash f E1 | E0, [] => chash f E0 | E0, E1 => combine (chash f E0) (chash f E1) end).
    by rewrite A, B.
Qed.

Lemma heads_Permutation b E E' : E ≡ₚ E' → heads b E ≡ₚ heads b E'.
Proof. intros HE. unfold heads. by rewrite HE. Qed.

Lemma chash_Permutation f E E' : E ≡ₚ E' → chash f E = chash f E'.
Proof.
  revert E E'. induction f as [|f IH]; intros E E' HE.
  all: pose proof (Permutation_length HE) as HL.
  all: destruct E as [|e [|e2 E]], E' as [|e' [|e2' E']]; try done.
  all: try (apply Permutation_singleton_inj in HE; by subst).
  cbn [chash]. pose proof (heads_Permutation false _ _ HE) as P0. pose proof (heads_Permutation true _ _ HE) as P1.
  destruct (heads false (e :: e2 :: E)) as [|x0 l0], (heads false (e' :: e2' :: E')) as [|y0 m0];
    [by apply IH|by apply Permutation_nil_l in P0|symmetry in P0; by apply Permutation_nil_l in P0|].
  destruct (heads true (e :: e2 :: E)) as [|x1 l1], (heads true (e' :: e2' :: E')) as [|y1 m1];
    [by apply IH|by apply Permutation_nil_l in P1|symmetry in P1; by apply Permutation_nil_l in P1|].
  f_equal; by apply IH.
Qed.

(** The hash of a trie. *)
Fixpoint lhash (lh : addr → Hash) (lt : ltree) : Hash :=
  match lt with LL _ a => lh a | LJ _ l r => combine (lhash lh l) (lhash lh r) end.

Definition helems (lh : addr → Hash) (E : list (list bool * addr)) : list (list bool * Hash) :=
  prod_map id lh <$> E.

Lemma lelems_pre p lt : lelems p lt = (λ e, (p ++ e.1, e.2)) <$> lelems [] lt.
Proof.
  revert p. induction lt as [q a|q l IHl r IHr]; intros p; cbn; [done|].
  rewrite fmap_app, (IHl (p ++ _)), (IHr (p ++ _)), (IHl (q ++ _)), (IHr (q ++ _)), <- !list_fmap_compose.
  f_equal; apply list_fmap_ext; intros ? [k h] _; cbn; by rewrite !app_assoc.
Qed.

Lemma lelems_under lh p lt : helems lh (lelems p lt) = under p (helems lh (lelems [] lt)).
Proof.
  rewrite lelems_pre. unfold helems, under. rewrite <- !list_fmap_compose. by apply list_fmap_ext.
Qed.

Lemma lhash_chash lh lt f : Forall (λ e, length e.1 = f) (lelems [] lt) → chash f (helems lh (lelems [] lt)) = lhash lh lt.
Proof.
  revert f. induction lt as [p a|p l IHl r IHr]; intros f Hf; [by destruct f|].
  cbn [lelems app lhash] in *. apply Forall_app in Hf as [Hl Hr].
  rewrite lelems_pre, Forall_fmap in Hl, Hr.
  destruct (lelems [] l) as [|el El] eqn:EEl; [by apply lelems_not_nil in EEl|].
  destruct (lelems [] r) as [|er Er] eqn:EEr; [by apply lelems_not_nil in EEr|].
  assert (Hff : ∃ f', f = length p + S f' ∧ Forall (λ e, length e.1 = f') (el :: El) ∧ Forall (λ e, length e.1 = f') (er :: Er)).
  { exists (length el.1). pose proof (Forall_inv Hl) as E0. cbn in E0. rewrite !length_app in E0. cbn in E0.
    split_and!; [lia|eapply Forall_impl; [exact Hl|]|eapply Forall_impl; [exact Hr|]];
      intros e; cbn; rewrite !length_app; cbn; lia. }
  destruct Hff as (f' & -> & Fl & Fr). rewrite <- (IHl f' Fl), <- (IHr f' Fr).
  unfold helems. rewrite fmap_app. fold (helems lh (lelems (p ++ [false]) l)). fold (helems lh (lelems (p ++ [true]) r)).
  rewrite (lelems_under lh (p ++ [false])), (lelems_under lh (p ++ [true])), EEl, EEr. rewrite <- chash_fork by done.
  etransitivity; [|by apply (chash_under p)]. by rewrite under_app, !under_under.
Qed.

(** The nodes' hash is the trie's. *)
Lemma nhash_lhash {P} N (lv : gmap addr (Leaf P)) lh pre n lt : rel N lv pre n lt → nhash lh n = lhash lh lt.
Proof.
  revert pre lt. induction n as [b cl a|b cl k h c0 IH0 c1 IH1]; intros pre [p a'|p l r]; cbn; try done.
  - by intros (-> & _).
  - intros (_ & _ & H0 & H1). f_equal; eauto.
Qed.

Lemma nhash_chash {P} N (lv : gmap addr (Leaf P)) lh n lt :
  rel N lv [] n lt → nhash lh n = chash N (helems lh (lelems [] lt)).
Proof.
  intros Hr. rewrite (nhash_lhash _ _ _ _ _ _ Hr), lhash_chash; [done|].
  apply Forall_forall. intros e He. by apply (rel_length N _ _ _ _ _ Hr).
Qed.

End canonical.
