(* ===== verification/RadixMap.v ===== *)
(** * core/radixtree: the tree as a map

    A radix hash tree against its specification, a finite map from keys to leaves: looking
    up, inserting, changing and deleting leaves through cursors ([Find],
    [InvalidateElement], [Delete]) are the operations of the map, and the root hash is a
    function of the map alone. *)

From stdpp Require Import base list numbers option gmap.
From S2P Require Import Prelude Merkle RadixTree RadixTreeSpec RadixHash.
Import RadixTree RadixHashTree.

Section radix_map.

Context {P Hash : Type} `{Hasher Hash} (P_new : P) (uninit : Hash).
Variable get_LeafHash : Leaf P → Hash.
Variable N : nat.
Hypothesis N_pos : 0 < N.

Implicit Types (lv : gmap addr (Leaf P)) (E : list (list bool * addr)) (t : tree P Hash).

(** ** Operations through a cursor *)

(** What the callers do with a leaf: they take its cursor by [Find], change its data and
    invalidate the path to it. *)
Definition Modify t (cu : CursorBase) (a : addr) (v : P) : option (tree P Hash) :=
  root ← rt_Root t;
  path ← cu_pp cu;
  '(root, _) ← InvalidateElement root path;
  Some (mk (Some root) (alter (λ lf, mkLeaf (lf_Key lf) v) a (rt_Leaves t))).

(** [InvalidateElement] through a cursor. *)
Definition Invalidate t (cu : CursorBase) : option (tree P Hash) :=
  root ← rt_Root t;
  path ← cu_pp cu;
  '(root, _) ← InvalidateElement root path;
  Some (mk (Some root) (rt_Leaves t)).

(** The data of a leaf is set. *)
Definition set_Data t (a : addr) (v : P) : tree P Hash := mk (rt_Root t) (alter (λ lf, mkLeaf (lf_Key lf) v) a (rt_Leaves t)).

Lemma Modify_eq t cu a v : Modify t cu a v = t ← Invalidate t cu; Some (set_Data t a v).
Proof.
  unfold Modify, Invalidate. destruct (rt_Root t); [|done]. cbn. destruct (cu_pp cu); [|done]. cbn. by destruct (InvalidateElement _ _) as [[]|].
Qed.

Definition Put t (key : list Z) (v : P) : option (tree P Hash) :=
  '(t, cu, _, r) ← Find P_new uninit t key N true;
  a ← r;
  Modify t cu a v.

Definition Remove t (key : list Z) : option (tree P Hash) :=
  '(t, cu, _, r) ← Find P_new uninit t key N false;
  match r with None => Some t | Some _ => Delete t cu end.

(** ** Leaves and their hashes *)

Definition leaves_of lv E : list (list bool * Leaf P) :=
  omap (λ e, (λ lf, (e.1, lf)) <$> lv !! e.2) E.

Definition lhof lv (a : addr) : Hash := match lv !! a with Some lf => get_LeafHash lf | None => hZero end.

Lemma leaves_of_app lv E F : leaves_of lv (E ++ F) = leaves_of lv E ++ leaves_of lv F.
Proof. unfold leaves_of. apply omap_app. Qed.

Lemma leaves_of_cons lv k a lf E : lv !! a = Some lf → leaves_of lv ((k, a) :: E) = (k, lf) :: leaves_of lv E.
Proof. intros Hl. unfold leaves_of. cbn. by rewrite Hl. Qed.

Lemma leaves_of_ext lv lv' E : (∀ a, a ∈ E.*2 → lv !! a = lv' !! a) → leaves_of lv E = leaves_of lv' E.
Proof.
  induction E as [|[k a] E IH]; intros Hx; [done|]. unfold leaves_of in *. cbn in *. rewrite Hx by left.
  rewrite IH by (intros; apply Hx; by right). done.
Qed.

Lemma leaves_of_fst lv E : (∀ a, a ∈ E.*2 → is_Some (lv !! a)) →
  (leaves_of lv E).*1 = E.*1.
Proof.
  induction E as [|[k a] E IH]; intros Hx; [done|]. destruct (Hx a) as [lf Hl]; [left|].
  rewrite (leaves_of_cons _ _ _ _ _ Hl), !fmap_cons. f_equal. apply IH. intros; apply Hx; by right.
Qed.

Lemma elem_leaves_of lv E k lf : (k, lf) ∈ leaves_of lv E ↔ ∃ a, (k, a) ∈ E ∧ lv !! a = Some lf.
Proof.
  unfold leaves_of. rewrite list_elem_of_omap. split.
  - intros ([k' a] & Hin & Hl). cbn in Hl. destruct (lv !! a) eqn:Ea; [|done]. injection Hl as <- <-. eauto.
  - intros (a & Hin & Hl). exists (k, a). cbn. by rewrite Hl.
Qed.

Lemma hash_ok_ext lh lh' lv pre n lt :
  rel N lv pre n lt → (∀ a, a ∈ (lelems pre lt).*2 → lh a = lh' a) →
  nhash lh n = nhash lh' n ∧ (hash_ok lh n → hash_ok lh' n).
Proof.
  revert pre lt. induction n as [b cl a|b cl k h c0 IH0 c1 IH1]; intros pre [p a'|p l r]; cbn; try done.
  - intros (-> & _) Hx. split; [|done]. apply Hx. left.
  - intros (_ & _ & H0 & H1) Hx. rewrite fmap_app in Hx.
    destruct (IH0 _ _ H0) as [E0 G0]; [intros a Ha; apply Hx, elem_of_app; by left|].
    destruct (IH1 _ _ H1) as [E1 G1]; [intros a Ha; apply Hx, elem_of_app; by right|].
    rewrite E0, E1. split; [done|]. intros (? & ? & ?). auto.
Qed.

(** Along a dirty path, what the hash of the leaf at its end was does not matter. *)
Lemma hash_ok_dirty lh lh' lv pre n lt path pre' p a :
  rel N lv pre n lt → lat pre lt path = Some (pre', LL p a) → dirty_path n path →
  NoDup (lelems pre lt).*2 → (∀ b, b ≠ a → lh b = lh' b) → hash_ok lh n → hash_ok lh' n.
Proof.
  intros Hr Hl Hd Hnd Hx. revert pre n lt Hr Hl Hd Hnd. induction path as [|b path IH]; intros pre n lt Hr Hl Hd Hnd.
  - injection Hl as -> ->. by destruct n.
  - destruct lt as [|q l r]; [done|]. destruct n as [|bits cl k h c0 c1]; [done|]. cbn in Hl, Hd.
    destruct Hd as [-> Hd]. destruct Hr as (_ & _ & H0 & H1). cbn [lelems] in Hnd. rewrite fmap_app in Hnd.
    apply NoDup_app in Hnd as (N0 & Hdis & N1).
    pose proof (lat_elems _ _ _ _ _ Hl) as (_ & X & Y & EE & _). cbn in EE.
    assert (Ha : a ∈ (lelems (pre ++ q ++ [b]) (if b then r else l)).*2).
    { rewrite EE, !fmap_app, !elem_of_app. right. left. }
    intros (_ & G0 & G1). cbn. split; [done|]. destruct b.
    + split; [|by apply (IH _ _ _ H1 Hl Hd N1)].
      apply (hash_ok_ext lh lh' _ _ _ _ H0); [|done]. intros c Hc. apply Hx. intros ->. by apply (Hdis a).
    + split; [by apply (IH _ _ _ H0 Hl Hd N0)|].
      apply (hash_ok_ext lh lh' _ _ _ _ H1); [|done]. intros c Hc. apply Hx. intros ->. by apply (Hdis a).
Qed.

Lemma rel_keys lv lv' pre (n : node Hash) lt :
  (∀ a lf, lv !! a = Some lf → ∃ lf', lv' !! a = Some lf' ∧ lf_Key lf' = lf_Key lf) →
  rel N lv pre n lt → rel N lv' pre n lt.
Proof.
  intros Hx. revert pre lt. induction n as [b cl a|b cl k h c0 IH0 c1 IH1]; intros pre [p a'|p l r]; cbn; try done.
  - intros (-> & -> & lf & Hl & Hk & E). split_and!; [done..|]. apply Hx in Hl as (lf' & Hl & El). exists lf'. by rewrite El.
  - intros (-> & Hk & H0 & H1). auto.
Qed.

(** ** The invariant *)

(** The tree [t] stands for the map [m]. *)
Definition represents t (m : gmap (list bool) (Leaf P)) : Prop :=
  ∃ E, tree_ok N t E ∧ tree_clean t ∧ tree_hash (lhof (rt_Leaves t)) t ∧
    map_to_list m ≡ₚ leaves_of (rt_Leaves t) E.

Lemma represents_lookup t m E k lf :
  map_to_list m ≡ₚ leaves_of (rt_Leaves t) E →
  m !! k = Some lf ↔ ∃ a, (k, a) ∈ E ∧ rt_Leaves t !! a = Some lf.
Proof. intros Hm. by rewrite <- elem_of_map_to_list, Hm, elem_leaves_of. Qed.

Lemma tree_ok_leaf t E a : tree_ok N t E → a ∈ E.*2 → ∃ lf, rt_Leaves t !! a = Some lf.
Proof.
  intros (_ & Hd & _) Ha. apply (elem_of_dom (rt_Leaves t) a). rewrite Hd. by apply elem_of_list_to_set.
Qed.

Lemma represents_absent t m E k :
  tree_ok N t E → map_to_list m ≡ₚ leaves_of (rt_Leaves t) E → m !! k = None → ∀ a, (k, a) ∉ E.
Proof.
  intros Ht Hm Hk a Ha. destruct (tree_ok_leaf t E a Ht) as [lf Hl]; [apply (list_elem_of_fmap_2 snd _ _ Ha)|].
  assert (m !! k = Some lf) by (apply (represents_lookup t m E); eauto). congruence.
Qed.

Lemma leaves_of_mid lv X k a Y lf : lv !! a = Some lf →
  leaves_of lv (X ++ (k, a) :: Y) ≡ₚ (k, lf) :: leaves_of lv (X ++ Y).
Proof. intros Hl. by rewrite !leaves_of_app, (leaves_of_cons _ _ _ _ _ Hl), Permutation_middle. Qed.

Lemma represents_empty : represents (mk None ∅) ∅.
Proof. exists []. split; [by split_and!; [constructor|..]|]. by split_and!. Qed.

(** *** Changing a leaf *)

Lemma Modify_spec t E cu a k lf v :
  tree_ok N t E → tree_clean t → tree_hash (lhof (rt_Leaves t)) t → cursor_at N t cu a →
  (k, a) ∈ E → rt_Leaves t !! a = Some lf →
  ∃ t', Modify t cu a v = Some t' ∧ rt_Leaves t' = <[a := mkLeaf (lf_Key lf) v]> (rt_Leaves t) ∧
    tree_ok N t' E ∧ tree_clean t' ∧ tree_hash (lhof (rt_Leaves t')) t'.
Proof.
  intros (Hnd & Hdom & Hroot) Hcl Hh (n & path & pre & p & lt & b & cl & En & Ep & Hr & Hl & Ha) Hka Hlf.
  rewrite En in Hroot. destruct Hroot as (lt' & Hr' & ->).
  rewrite <- (rel_fun N _ _ _ _ _ Hr Hr') in *. clear lt' Hr'.
  unfold Modify. rewrite En, Ep. cbn [mbind option_bind].
  destruct (rel_InvalidateElement N _ _ _ _ _ _ Hr Hl) as (n1 & go & Ei & Hr1 & _). rewrite Ei. cbn [mbind option_bind].
  destruct (InvalidateElement_clean (lhof (rt_Leaves t)) n path n1 go Ei (Hcl n En)) as (Hc1 & Hd & _ & _ & Hh1).
  specialize (Hh1 (Hh n En)).
  assert (Ealt : alter (λ lf, mkLeaf (lf_Key lf) v) a (rt_Leaves t) = <[a:=mkLeaf (lf_Key lf) v]> (rt_Leaves t)).
  { apply map_eq. intros c. destruct (decide (c = a)) as [->|Hne].
    - by rewrite lookup_alter_eq, lookup_insert_eq, Hlf.
    - by rewrite lookup_alter_ne, lookup_insert_ne by done. }
  rewrite Ealt. eexists. do 2 (split; [done|]). split; [split; [done|]; split|split]; cbn.
  - rewrite dom_insert_L, Hdom. apply (list_elem_of_fmap_2 snd) in Hka. cbn in Hka. set_solver.
  - exists lt. split; [|done]. apply (rel_keys (rt_Leaves t)); [|done]. intros c lf' Hc.
    destruct (decide (c = a)) as [->|Hne]; [rewrite lookup_insert_eq; simplify_eq|rewrite lookup_insert_ne by done]; eauto.
  - intros m [= <-]. done.
  - intros m [= <-]. refine (hash_ok_dirty _ _ _ _ _ _ _ _ _ _ Hr1 Hl Hd Hnd _ Hh1).
    intros c Hc. unfold lhof. by rewrite lookup_insert_ne.
Qed.

(** Invalidating changes neither the contents nor what a cursor points to. *)
Lemma Invalidate_spec t E cu a k lf :
  tree_ok N t E → tree_clean t → tree_hash (lhof (rt_Leaves t)) t → cursor_at N t cu a →
  (k, a) ∈ E → rt_Leaves t !! a = Some lf →
  ∃ t', Invalidate t cu = Some t' ∧ rt_Leaves t' = rt_Leaves t ∧ tree_ok N t' E ∧ tree_clean t' ∧ tree_hash (lhof (rt_Leaves t')) t' ∧ cursor_at N t' cu a.
Proof.
  intros Ht Hc Hh Hcu Ha Hl. destruct (Modify_spec t E cu a k lf (lf_Data lf) Ht Hc Hh Hcu Ha Hl) as (t' & Em & El & Ht' & Hc' & Hh').
  assert (El' : rt_Leaves t' = rt_Leaves t) by (rewrite El; apply insert_id; by destruct lf).
  destruct Hcu as (n & path & pre & p & lt & b & cl & En & Ep & Hr & Hlat & Hat). destruct (rel_InvalidateElement N _ _ _ _ _ _ Hr Hlat) as (n1 & go & Ei & Hr1 & _).
  rewrite Modify_eq in Em. unfold Invalidate in *. rewrite En, Ep in Em |- *. cbn [mbind option_bind] in Em |- *. rewrite Ei in Em |- *. cbn in Em |- *.
  eexists. split; [done|]. injection Em as <-. cbn in El'. unfold set_Data in *. cbn in *. rewrite El' in *. split_and!; try done.
  destruct (rel_at N _ _ _ _ _ _ _ Hr1 Hlat) as (n' & Ha' & Hr'). destruct n' as [b' cl' a'|]; [|done]. destruct Hr' as (<- & _).
  by exists n1, path, pre, p, lt, b', cl'.
Qed.

(** *** The operations *)

(** The map after [Put]: the bytes of the key are those of the first insertion. *)
Definition mput (m : gmap (list bool) (Leaf P)) (key : list Z) (v : P) : gmap (list bool) (Leaf P) :=
  let k := kbits N key in
  <[k := mkLeaf (match m !! k with Some lf => lf_Key lf | None => take (Nat.shiftr (N + 7) 3) key end) v]> m.

Lemma represents_Modify t t' m E X Y k a lf v :
  E = X ++ (k, a) :: Y → NoDup E.*2 → rt_Leaves t' = <[a := mkLeaf (lf_Key lf) v]> (rt_Leaves t) →
  rt_Leaves t !! a = Some lf → (∀ c, (k, c) ∉ X ++ Y) →
  map_to_list m ≡ₚ leaves_of (rt_Leaves t) (X ++ Y) →
  map_to_list (<[k := mkLeaf (lf_Key lf) v]> m) ≡ₚ leaves_of (rt_Leaves t') E.
Proof.
  intros -> Hnd El Hl Hno Hm. rewrite El, (leaves_of_mid _ _ _ _ _ _ (lookup_insert_eq _ _ _)).
  rewrite fmap_app, fmap_cons, <- Permutation_middle, <- fmap_app in Hnd. apply NoDup_cons in Hnd as [Ha _].
  rewrite map_to_list_insert.
  - constructor. rewrite Hm, (leaves_of_ext _ (<[a := mkLeaf (lf_Key lf) v]> (rt_Leaves t))); [done|].
    intros c Hc. rewrite lookup_insert_ne; [done|]. by intros ->.
  - destruct (m !! k) as [lf'|] eqn:Ek; [|done]. apply (represents_lookup t m (X ++ Y)) in Ek as (c & Hc & _); [|done].
    by apply Hno in Hc.
Qed.

Lemma tree_ok_keys t E : tree_ok N t E → NoDup E.*1.
Proof.
  intros (_ & _ & Hroot). destruct (rt_Root t); [|subst; constructor]. destruct Hroot as (lt & _ & ->).
  induction (lelems_sorted [] lt) as [|k l Hs IH Hk]; constructor; [|done].
  intros Hin. rewrite Forall_forall in Hk. apply Hk in Hin. by rewrite blt_irrefl in Hin.
Qed.

Lemma key_unique t E X Y k a : tree_ok N t E → E = X ++ (k, a) :: Y → ∀ c, (k, c) ∉ X ++ Y.
Proof.
  intros Ht -> c Hc. apply tree_ok_keys in Ht.
  rewrite fmap_app, fmap_cons, <- Permutation_middle, <- fmap_app in Ht. apply NoDup_cons in Ht as [Hn _].
  apply Hn. apply (list_elem_of_fmap_2 fst _ _ Hc).
Qed.

Lemma tree_hash_ext lh lh' t E : tree_ok N t E → (∀ a, a ∈ E.*2 → lh a = lh' a) → tree_hash lh t → tree_hash lh' t.
Proof.
  intros (_ & _ & Hroot) Hx Hh n En. rewrite En in Hroot. destruct Hroot as (lt & Hr & ->).
  by apply (hash_ok_ext lh lh' _ _ _ _ Hr Hx), Hh.
Qed.

(** Through any cursor at the leaf of [k]. *)
Lemma Modify_represents t m E cu k a lf v :
  tree_ok N t E → tree_clean t → tree_hash (lhof (rt_Leaves t)) t → map_to_list m ≡ₚ leaves_of (rt_Leaves t) E →
  cursor_at N t cu a → (k, a) ∈ E → rt_Leaves t !! a = Some lf →
  ∃ t', Modify t cu a v = Some t' ∧ represents t' (<[k := mkLeaf (lf_Key lf) v]> m).
Proof.
  intros Ht Hc Hh Hm Hcu Ha Hl. destruct (Modify_spec t E cu a k lf v Ht Hc Hh Hcu Ha Hl) as (t' & -> & El & Ht' & Hc' & Hh').
  exists t'. split; [done|]. exists E. split_and!; [done..|].
  apply list_elem_of_split in Ha as (X & Y & EE). pose proof (key_unique _ _ _ _ _ _ Ht EE) as Hno.
  rewrite <- insert_delete_eq. apply (represents_Modify t t' _ E X Y k a lf v); [done|apply Ht|done..|].
  apply (Permutation_cons_inv (a := (k, lf))). rewrite map_to_list_delete, Hm, EE; [by rewrite leaves_of_mid|].
  apply (represents_lookup t m E); [done|]. exists a. rewrite EE. split; [|done]. apply elem_of_app. right. left.
Qed.

Lemma Put_spec t m key v : represents t m → key_ok N key →
  ∃ t', Put t key v = Some t' ∧ represents t' (mput m key v).
Proof.
  intros (E & Ht & Hc & Hh & Hm) Hk. unfold Put, mput. set (k := kbits N key).
  destruct (m !! k) as [lf|] eqn:Ek.
  - apply (represents_lookup t m E) in Ek as (a & Ha & Hl); [|done].
    destruct (Find_found P_new uninit N N_pos t E key true a Ht Hk Ha) as (cu & -> & Hcu). cbn [mbind option_bind].
    by apply (Modify_represents t m E).
  - pose proof (represents_absent t m E k Ht Hm Ek) as Hno.
    destruct (Find_create P_new uninit N N_pos t E key Ht Hk Hno) as (t1 & cu & a & X & Y & EF & Ha & El1 & Hcu & EE & Ht1).
    rewrite EF. cbn [mbind option_bind]. fold k in Ht1.
    destruct (Find_clean P_new uninit t key N t1 cu true (Some a) EF Hc) as [Hc1 Hh1].
    assert (Hfr : ∀ c, c ∈ E.*2 → rt_Leaves t !! c = rt_Leaves t1 !! c).
    { intros c Hin. rewrite El1, lookup_insert_ne; [done|]. by intros ->. }
    specialize (Hh1 (lhof (rt_Leaves t1))).
    assert (Hh1' : tree_hash (lhof (rt_Leaves t1)) t1).
    { apply Hh1, (tree_hash_ext (lhof (rt_Leaves t)) _ t E Ht); [|done]. intros c Hin. unfold lhof. by rewrite Hfr. }
    assert (Ha1 : (k, a) ∈ X ++ (k, a) :: Y) by (apply elem_of_app; right; left).
    assert (Hl1 : rt_Leaves t1 !! a = Some (mkLeaf (take (Nat.shiftr (N + 7) 3) key) P_new)) by (by rewrite El1, lookup_insert_eq).
    destruct (Modify_spec t1 _ cu a k _ v Ht1 Hc1 Hh1' Hcu Ha1 Hl1) as (t' & -> & El & Ht' & Hc' & Hh').
    exists t'. split; [done|]. eexists. split_and!; [done..|].
    apply (represents_Modify t1 t' m _ X Y k a (mkLeaf (take (Nat.shiftr (N + 7) 3) key) P_new) v eq_refl);
      [apply Ht1|done|done|by eapply key_unique|].
    rewrite Hm, <- EE. by rewrite (leaves_of_ext _ _ _ Hfr).
Qed.

(** A new leaf whose data is set without another invalidation: [Find] left the path to it
    dirty. *)
Lemma Create_spec t m key v : represents t m → key_ok N key → m !! kbits N key = None →
  ∃ t1 cu a, Find P_new uninit t key N true = Some (t1, cu, true, Some a) ∧
    represents (mk (rt_Root t1) (alter (λ lf, mkLeaf (lf_Key lf) v) a (rt_Leaves t1)))
      (<[kbits N key := mkLeaf (take (Nat.shiftr (N + 7) 3) key) v]> m).
Proof.
  intros (E & Ht & Hc & Hh & Hm) Hk Ek. pose proof (represents_absent t m E _ Ht Hm Ek) as Hno.
  destruct (Find_create P_new uninit N N_pos t E key Ht Hk Hno) as (t1 & cu & a & X & Y & EF & Ha & El1 & _ & EE & Ht1).
  exists t1, cu, a. split; [done|].
  destruct (Find_clean P_new uninit t key N t1 cu true (Some a) EF Hc) as [Hc1 Hh1].
  set (lf := mkLeaf (take (Nat.shiftr (N + 7) 3) key) v).
  assert (Ealt : alter (λ lf, mkLeaf (lf_Key lf) v) a (rt_Leaves t1) = <[a := lf]> (rt_Leaves t)).
  { rewrite El1. apply map_eq. intros c. destruct (decide (c = a)) as [->|Hne].
    - by rewrite lookup_alter_eq, !lookup_insert_eq.
    - by rewrite lookup_alter_ne, !lookup_insert_ne by done. }
  rewrite Ealt. clear Ealt. assert (Hfr : ∀ c, c ∈ E.*2 → rt_Leaves t !! c = <[a := lf]> (rt_Leaves t) !! c).
  { intros c Hin. rewrite lookup_insert_ne; [done|]. by intros ->. }
  exists (X ++ (kbits N key, a) :: Y). destruct Ht1 as (Hnd1 & Hdom1 & Hroot1). split_and!.
  - split; [done|]. split; [rewrite <- Hdom1, El1; cbn; by rewrite !dom_insert_L|]. cbn. destruct (rt_Root t1) as [n|]; [|done].
    destruct Hroot1 as (lt & Hr & Elt). exists lt. split; [|done]. apply (rel_keys (rt_Leaves t1)); [|done]. rewrite El1.
    intros c lf' Hc'. destruct (decide (c = a)) as [->|Hne];
      [rewrite lookup_insert_eq in *; injection Hc' as <-|rewrite lookup_insert_ne in * by done]; eauto.
  - intros n En. by apply Hc1.
  - intros n En. apply (Hh1 (lhof (<[a := lf]> (rt_Leaves t)))); [|done].
    apply (tree_hash_ext (lhof (rt_Leaves t)) _ t E Ht); [|done]. intros c Hin. unfold lhof. by rewrite <- Hfr.
  - rewrite map_to_list_insert by done. cbn [rt_Leaves]. rewrite (leaves_of_mid _ _ _ _ _ lf) by (by rewrite lookup_insert_eq).
    constructor. by rewrite Hm, <- EE, (leaves_of_ext _ _ _ Hfr).
Qed.

Lemma Delete_represents t m E cu k a lf :
  tree_ok N t E → tree_clean t → tree_hash (lhof (rt_Leaves t)) t → map_to_list m ≡ₚ leaves_of (rt_Leaves t) E →
  cursor_at N t cu a → (k, a) ∈ E → rt_Leaves t !! a = Some lf →
  ∃ t', Delete t cu = Some t' ∧ represents t' (delete k m).
Proof.
  intros Ht Hc Hh Hm Hcu Ha Hl. assert (Ek : m !! k = Some lf) by (apply (represents_lookup t m E); eauto).
  destruct (Delete_spec N t E cu a Ht Hcu Hc) as (t' & X & Y & k' & -> & EE & El & Ht' & Hc' & Hh').
  exists t'. split; [done|]. exists (X ++ Y).
  assert (Hna : a ∉ (X ++ Y).*2).
  { destruct Ht as (Hnd & _). rewrite EE, fmap_app, fmap_cons, <- Permutation_middle, <- fmap_app in Hnd.
    by apply NoDup_cons in Hnd as [? _]. }
  assert (k' = k) as ->.
  { rewrite EE in Ha. rewrite <- Permutation_middle in Ha. apply elem_of_cons in Ha as [[= ?]|Ha]; [done|].
    apply (list_elem_of_fmap_2 snd) in Ha. done. }
  assert (Hfr : ∀ c, c ∈ (X ++ Y).*2 → rt_Leaves t !! c = rt_Leaves t' !! c).
  { intros c Hin. rewrite El, lookup_delete_ne; [done|]. by intros ->. }
  split_and!; [done..| |].
  - apply (tree_hash_ext (lhof (rt_Leaves t)) _ t' _ Ht'); [|by apply Hh']. intros c Hin. unfold lhof. by rewrite Hfr.
  - rewrite <- (leaves_of_ext _ _ _ Hfr). apply (Permutation_cons_inv (a := (k, lf))).
    by rewrite map_to_list_delete, Hm, EE, leaves_of_mid.
Qed.

Lemma Remove_spec t m key : represents t m → key_ok N key →
  ∃ t', Remove t key = Some t' ∧ represents t' (delete (kbits N key) m).
Proof.
  intros (E & Ht & Hc & Hh & Hm) Hk. unfold Remove. set (k := kbits N key).
  destruct (m !! k) as [lf|] eqn:Ek.
  - apply (represents_lookup t m E) in Ek as (a & Ha & Hl); [|done].
    destruct (Find_found P_new uninit N N_pos t E key false a Ht Hk Ha) as (cu & -> & Hcu). cbn [mbind option_bind].
    by apply (Delete_represents t m E cu k a lf).
  - pose proof (represents_absent t m E k Ht Hm Ek) as Hno.
    destruct (Find_absent P_new uninit N N_pos t E key Ht Hk Hno) as (cu & ->). cbn [mbind option_bind].
    exists t. split; [done|]. exists E. split_and!; [done..|]. by rewrite delete_id.
Qed.

(** A tree stands for one map. *)
Lemma represents_fun t m m' : represents t m → represents t m' → m = m'.
Proof.
  intros (E & Ht & _ & _ & Hm) (E' & Ht' & _ & _ & Hm'). assert (EE : E = E').
  { destruct Ht as (_ & _ & HR), Ht' as (_ & _ & HR'). destruct (rt_Root t) as [n|]; [|congruence].
    destruct HR as (lt & Hr & ->), HR' as (lt' & Hr' & ->). by rewrite (rel_fun _ _ _ _ _ _ Hr Hr'). }
  subst E'. apply map_to_list_inj. by rewrite Hm, Hm'.
Qed.

(** Looking a key up and inserting it if it is not there. *)
Lemma Find_leaf t m key : represents t m → key_ok N key →
  ∃ t1 cu bC a, Find P_new uninit t key N true = Some (t1, cu, bC, Some a) ∧
    rt_Leaves t1 !! a = Some (default (mkLeaf (take (Nat.shiftr (N + 7) 3) key) P_new) (m !! kbits N key)) ∧
    match m !! kbits N key with
    | Some lf => bC = false ∧ t1 = t
    | None => bC = true
    end.
Proof.
  intros (E & Ht & Hc & Hh & Hm) Hk. destruct (m !! kbits N key) as [lf|] eqn:Ek.
  - apply (represents_lookup t m E) in Ek as (a & Ha & Hl); [|done].
    destruct (Find_found P_new uninit N N_pos t E key true a Ht Hk Ha) as (cu & -> & Hcu). by eexists _, _, _, _.
  - pose proof (represents_absent t m E _ Ht Hm Ek) as Hno.
    destruct (Find_create P_new uninit N N_pos t E key Ht Hk Hno) as (t1 & cu & a & X & Y & EF & Ha & El1 & Hcu & EE & Ht1).
    eexists _, _, _, _. split; [done|]. by rewrite El1, lookup_insert_eq.
Qed.

(** ** Hashes *)

(** The root hash of a map of leaves. *)
Definition root_hash (m : gmap (list bool) (Leaf P)) : Hash :=
  chash N (prod_map id get_LeafHash <$> map_to_list m).

Lemma helems_leaves lv E : (∀ a, a ∈ E.*2 → is_Some (lv !! a)) →
  helems (lhof lv) E = prod_map id get_LeafHash <$> leaves_of lv E.
Proof.
  induction E as [|[k a] E IH]; intros Hx; [done|]. destruct (Hx a) as [lf Hl]; [left|].
  rewrite (leaves_of_cons _ _ _ _ _ Hl). cbn. unfold lhof at 1. rewrite Hl. f_equal. apply IH. intros; apply Hx; by right.
Qed.

Lemma chash_contents t m E : tree_ok N t E → map_to_list m ≡ₚ leaves_of (rt_Leaves t) E →
  chash N (helems (lhof (rt_Leaves t)) E) = root_hash m.
Proof.
  intros Ht Hm. rewrite helems_leaves by (intros; by eapply tree_ok_leaf). apply chash_Permutation. by rewrite Hm.
Qed.

Lemma leaf_hashes_lhof lv : leaf_hashes get_LeafHash lv (lhof lv).
Proof. intros a lf Hl. unfold lhof. by rewrite Hl. Qed.

Lemma tree_get_Hash t m : represents t m →
  ∃ t', get_Hash get_LeafHash t = Some (t', root_hash m) ∧ represents t' m.
Proof.
  intros (E & Ht & Hc & Hh & Hm). rewrite <- (chash_contents t m E Ht Hm). unfold get_Hash.
  pose proof Ht as (Hnd & Hdom & Hroot). destruct (rt_Root t) as [n|] eqn:En.
  - destruct Hroot as (lt & Hr & ->).
    destruct (get_Hash_node_spec get_LeafHash N _ _ _ _ _ Hr (leaf_hashes_lhof _) (Hc n En) (Hh n En))
      as (n' & -> & Hr' & _ & _ & Hc' & Hh' & _). cbn [mbind option_bind]. rewrite (nhash_chash _ _ _ _ _ Hr).
    eexists. split; [done|]. exists (lelems [] lt).
    split; [by split_and!; [..|exists lt]|]. split_and!; [by intros ? [= <-]..|done].
  - subst E. eexists. split; [by destruct N|]. by exists [].
Qed.

(** A leaf's proof leads from its hash to the root. *)
Lemma tree_get_Proof t m key lf : represents t m → key_ok N key → m !! kbits N key = Some lf →
  ∃ cu a t' proof, Find P_new uninit t key N false = Some (t, cu, false, Some a) ∧
    get_Proof get_LeafHash t [] cu = Some (t', proof) ∧
    Interpret_Proof (get_LeafHash lf) proof = root_hash m ∧ represents t' m.
Proof.
  intros (E & Ht & Hc & Hh & Hm) Hk Hl. rewrite <- (chash_contents t m E Ht Hm).
  apply (represents_lookup t m E) in Hl as (a & Ha & Hl); [|done].
  destruct (Find_found P_new uninit N N_pos t E key false a Ht Hk Ha) as (cu & -> & Hcu).
  destruct Hcu as (n & path & pre & p & lt & b & cl & En & Ep & Hr & Hla & Hat).
  exists cu, a. pose proof Ht as (Hnd & Hdom & Hroot). rewrite En in Hroot. destruct Hroot as (lt' & Hr' & ->).
  rewrite <- (rel_fun N _ _ _ _ _ Hr Hr') in *. clear lt' Hr'. unfold get_Proof. rewrite En, Ep. cbn [mbind option_bind].
  destruct (get_Proof_node_spec get_LeafHash N _ _ _ _ _ _ _ _ _ Hr (leaf_hashes_lhof _) (Hc n En) (Hh n En) Hla Hat)
    as (n' & proof & -> & Hr' & _ & _ & Hc' & Hh' & _ & Hp). cbn [mbind option_bind].
  eexists _, _. split; [done|]. split; [done|]. split.
  - rewrite <- (nhash_chash _ _ _ _ _ Hr), <- Hp. cbn. unfold lhof. by rewrite Hl.
  - exists (lelems [] lt). split; [by split_and!; [..|exists lt]|]. split_and!; [by intros ? [= <-]..|done].
Qed.

(** ** Sequences of operations *)

Inductive op :=
  | OPut (key : list Z) (v : P)
  | ORemove (key : list Z)
  | OHash.

Definition op_key_ok (o : op) : Prop :=
  match o with OPut key _ | ORemove key => key_ok N key | OHash => True end.

Definition run1 (t : tree P Hash) (o : op) : option (tree P Hash) :=
  match o with
  | OPut key v => Put t key v
  | ORemove key => Remove t key
  | OHash => fst <$> get_Hash get_LeafHash t
  end.

Definition mrun1 (m : gmap (list bool) (Leaf P)) (o : op) : gmap (list bool) (Leaf P) :=
  match o with OPut key v => mput m key v | ORemove key => delete (kbits N key) m | OHash => m end.

Definition run (t : tree P Hash) (os : list op) : option (tree P Hash) :=
  foldl (λ r o, r ≫= λ t, run1 t o) (Some t) os.

Definition mrun : gmap (list bool) (Leaf P) → list op → gmap (list bool) (Leaf P) := foldl mrun1.

Lemma run_spec os t m : Forall op_key_ok os → represents t m → ∃ t', run t os = Some t' ∧ represents t' (mrun m os).
Proof.
  revert t m. induction os as [|o os IH]; intros t m Hos Ht; [by exists t|]. apply Forall_cons in Hos as [Ho Hos].
  assert (∃ t1, run1 t o = Some t1 ∧ represents t1 (mrun1 m o)) as (t1 & E1 & Ht1).
  { destruct o as [key v|key|]; cbn [run1 mrun1]; [by apply Put_spec|by apply Remove_spec|].
    destruct (tree_get_Hash t m Ht) as (t1 & -> & Ht1). by exists t1. }
  unfold run. cbn [foldl mbind option_bind]. rewrite E1. by apply IH.
Qed.

End radix_map.
