(* ===== verification/RadixTraverse.v ===== *)
(** * core/radixtree: traversal

    [RadixTree::Traverse] visits the leaves within optional bounds in ascending order of
    their keys; the bounds are compared bit by bit on the way down and dropped as soon as
    they no longer restrict the subtree. *)

From stdpp Require Import base list numbers option gmap.
From S2P Require Import Prelude Merkle RadixTree RadixTreeSpec.
Import RadixTree.

(** ** Comparison of bit strings *)

Lemma blt_app p l k : blt (p ++ l) (p ++ k) = blt l k.
Proof. induction p as [|a p IH]; cbn; [done|]. by rewrite eqb_reflx. Qed.

Lemma blt_app_lt l k x y : length l = length k → blt l k = true → blt (l ++ x) (k ++ y) = true.
Proof.
  revert k. induction l as [|a l IH]; intros [|b k]; cbn; try done.
  intros [= Hl]. destruct (Bool.eqb a b); [by apply IH|done].
Qed.

Lemma blt_asym l k : blt l k = true → blt k l = false.
Proof.
  revert k. induction l as [|a l IH]; intros [|b k]; cbn; try done.
  destruct a, b; cbn; try done; apply IH.
Qed.

(** The bits of a key from [d] on, [n] of them. *)
Definition seg (N : nat) (key : list Z) (d n : nat) : list bool := take n (drop d (kbits N key)).

Lemma seg_S N key d n : d < N → seg N key d (S n) = kbit key d :: seg N key (S d) n.
Proof.
  intros Hd. unfold seg. rewrite (drop_S _ (kbit key d)); [done|]. by apply kbits_lookup.
Qed.

Lemma seg_length N key d n : d + n ≤ N → length (seg N key d n) = n.
Proof. intros. unfold seg. rewrite length_take, length_drop, kbits_length. lia. Qed.

(** A comparison result [c] of the strings [a] and [b]. *)
Definition compares (c : Z) (a b : list bool) : Prop :=
  (c = 0%Z ∧ a = b) ∨ (c = (-1)%Z ∧ blt a b = true) ∨ (c = 1%Z ∧ blt b a = true).

Lemma Cmp_spec N key thr d n :
  key_ok N key → key_ok N thr → d + n ≤ N →
  ∃ c, Cmp key thr d n = Some c ∧ compares c (seg N key d n) (seg N thr d n).
Proof.
  intros Hk Ht. revert d. induction n as [|n IH]; intros d Hd; cbn [Cmp].
  - exists 0%Z. split; [done|]. by left.
  - rewrite !(get_Bit_spec N) by (done || lia). cbn [mbind option_bind]. rewrite !seg_S by lia.
    destruct (IH (S d)) as (c & Ec & Hc); [lia|]. unfold compares. cbn [blt].
    destruct (kbit key d), (kbit thr d); cbn.
    + exists c. split; [done|]. destruct Hc as [[? ->]|[[? ->]|[? ->]]]; auto.
    + exists 1%Z. auto.
    + exists (-1)%Z. auto.
    + exists c. split; [done|]. destruct Hc as [[? ->]|[[? ->]|[? ->]]]; auto.
Qed.

Lemma Cmp1_spec N b thr d : key_ok N thr → d < N → ∃ c, Cmp1 b thr d = Some c ∧ compares c [b] (seg N thr d 1).
Proof.
  intros Ht Hd. unfold Cmp1. rewrite (get_Bit_spec N) by done. cbn [mbind option_bind].
  eexists; split; [done|]. rewrite seg_S by done. unfold compares. destruct b, (kbit thr d); cbn; auto.
Qed.

(** ** Bounds *)

Notation bounds_t := (option (list Z) * option (list Z))%type.

Section bounds.

Variable N : nat.

(** Whether a key is within the bounds. *)
Definition inb (bs : bounds_t) (k : list bool) : bool :=
  match bs.1 with Some lo => negb (blt k (kbits N lo)) | None => true end &&
  match bs.2 with Some hi => negb (blt (kbits N hi) k) | None => true end.

(** The bounds still in force agree with the prefix [l]. *)
Definition tight (bs : bounds_t) (l : list bool) : Prop :=
  (∀ lo, bs.1 = Some lo → key_ok N lo ∧ l `prefix_of` kbits N lo) ∧
  (∀ hi, bs.2 = Some hi → key_ok N hi ∧ l `prefix_of` kbits N hi).

(** [cmp] compares the next bits [s] after [l] with those of a bound. *)
Definition cmp_next (cmp : list Z → option Z) (l s : list bool) : Prop :=
  ∀ pB, key_ok N pB → ∃ c, cmp pB = Some c ∧ compares c s (seg N pB (length l) (length s)).

Lemma prefix_seg key l n : l `prefix_of` kbits N key → length l + n ≤ N →
  ∃ x, kbits N key = l ++ seg N key (length l) n ++ x.
Proof.
  intros [k E] Hn. exists (drop n k). unfold seg. rewrite E, drop_app_length, take_drop. done.
Qed.

(** One bound: skipped when the whole subtree is beyond it, kept when the bits agree,
    dropped when the subtree is strictly within. *)
Lemma bound_step_spec iBound pB cmp l s :
  cmp_next cmp l s → length l + length s ≤ N →
  (∀ b, pB = Some b → key_ok N b ∧ l `prefix_of` kbits N b) →
  let ok (pB : option (list Z)) k :=
    match pB with None => true | Some b => negb (if iBound : bool then blt (kbits N b) k else blt k (kbits N b)) end in
  ∃ r, bound_step iBound pB cmp = Some r ∧
  match r with
  | None => ∀ k, (l ++ s) `prefix_of` k → ok pB k = false
  | Some pB' => (∀ b, pB' = Some b → key_ok N b ∧ (l ++ s) `prefix_of` kbits N b) ∧
      ∀ k, (l ++ s) `prefix_of` k → ok pB k = ok pB' k
  end.
Proof.
  intros Hcmp Hn HB ok. destruct pB as [b|]; cbn [bound_step]; [|by eexists].
  destruct (HB b eq_refl) as [Hk Hp]. destruct (Hcmp b Hk) as (c & -> & Hc). cbn [mbind option_bind].
  destruct (prefix_seg b l (length s) Hp Hn) as [x Ex].
  assert (Hlen : length s = length (seg N b (length l) (length s))) by (by rewrite seg_length).
  destruct Hc as [[-> Es]|[[-> Hlt]|[-> Hgt]]].
  - cbn. eexists; split; [done|]. split; [|done]. intros b' [= <-]. split; [done|]. rewrite Ex, <- Es.
    rewrite app_assoc. by apply prefix_app_r.
  - assert (Hall : ∀ k, (l ++ s) `prefix_of` k → blt k (kbits N b) = true).
    { intros k [y ->]. rewrite Ex, <- app_assoc, blt_app. by apply blt_app_lt. }
    destruct iBound; cbn; eexists; (split; [done|]).
    + split; [done|]. intros k Hk'. by rewrite (blt_asym _ _ (Hall k Hk')).
    + intros k Hk'. by rewrite (Hall k Hk').
  - assert (Hall : ∀ k, (l ++ s) `prefix_of` k → blt (kbits N b) k = true).
    { intros k [y ->]. rewrite Ex, <- app_assoc, blt_app. by apply blt_app_lt. }
    destruct iBound; cbn; eexists; (split; [done|]).
    + intros k Hk'. by rewrite (Hall k Hk').
    + split; [done|]. intros k Hk'. by rewrite (blt_asym _ _ (Hall k Hk')).
Qed.

Lemma bounds_step_spec bs cmp l s :
  cmp_next cmp l s → length l + length s ≤ N → tight bs l →
  ∃ r, bounds_step bs cmp = Some r ∧
  match r with
  | None => ∀ k, (l ++ s) `prefix_of` k → inb bs k = false
  | Some bs' => tight bs' (l ++ s) ∧ ∀ k, (l ++ s) `prefix_of` k → inb bs k = inb bs' k
  end.
Proof.
  intros Hcmp Hn [T0 T1]. unfold bounds_step.
  destruct (bound_step_spec false bs.1 cmp l s Hcmp Hn T0) as (r0 & -> & H0). cbn [mbind option_bind].
  destruct r0 as [b0|]; [|eexists; split; [done|]; intros k Hk; unfold inb; specialize (H0 k Hk); cbn in H0;
    destruct bs.1; by rewrite ?H0].
  destruct (bound_step_spec true bs.2 cmp l s Hcmp Hn T1) as (r1 & -> & H1). cbn [mbind option_bind].
  destruct r1 as [b1|].
  - eexists; split; [done|]. destruct H0 as [G0 E0], H1 as [G1 E1]. split; [by split|].
    intros k Hk. unfold inb. specialize (E0 k Hk). specialize (E1 k Hk). cbn in E0, E1 |- *. by f_equal.
  - eexists; split; [done|]. intros k Hk. unfold inb. specialize (H1 k Hk). cbn in H1. destruct bs.2; [|done].
    by rewrite H1, andb_false_r.
Qed.

(** Bounds that agree with a whole key admit it. *)
Lemma tight_full bs k : length k = N → tight bs k → inb bs k = true.
Proof.
  intros Hk [T0 T1]. unfold inb.
  assert (Hfull : ∀ b, k `prefix_of` kbits N b → kbits N b = k).
  { intros b Hb. symmetry. apply prefix_length_eq; [done|]. by rewrite kbits_length, Hk. }
  apply andb_true_iff. split.
  - destruct bs.1 as [lo|]; [|done]. by rewrite (Hfull lo), blt_irrefl by (by apply T0).
  - destruct bs.2 as [hi|]; [|done]. by rewrite (Hfull hi), blt_irrefl by (by apply T1).
Qed.

End bounds.

(** ** Traversal *)

Section traverse.

Context {Hash : Type} {V : Type} {St : Type}.
Variable N : nat.
Variable OnLeaf : St → addr → bool * St.

(** Visit the leaves in turn until one of them stops the iteration. *)
Fixpoint visit (l : list addr) (s : St) : bool * St :=
  match l with
  | [] => (true, s)
  | a :: l => let '(ok, s) := OnLeaf s a in if ok then visit l s else (false, s)
  end.

Lemma visit_app l k s : visit (l ++ k) s = (let '(ok, s) := visit l s in if ok then visit k s else (false, s)).
Proof.
  revert s. induction l as [|a l IH]; intros s; cbn; [done|].
  destruct (OnLeaf s a) as [[] s']; [apply IH|done].
Qed.

(** The leaves of the pairs within the bounds. *)
Definition within (bs : bounds_t) (E : list (list bool * addr)) : list addr :=
  (filter (λ e, inb N bs e.1 = true) E).*2.

Lemma within_app bs E F : within bs (E ++ F) = within bs E ++ within bs F.
Proof. unfold within. by rewrite filter_app, fmap_app. Qed.

Lemma within_ext bs bs' E : (∀ e, e ∈ E → inb N bs e.1 = inb N bs' e.1) → within bs E = within bs' E.
Proof.
  intros H. unfold within. f_equal. induction E as [|e E IH]; [done|].
  rewrite !filter_cons, H by left. rewrite IH by (intros; apply H; by right). done.
Qed.

Lemma within_none bs E : (∀ e, e ∈ E → inb N bs e.1 = false) → within bs E = [].
Proof.
  intros H. unfold within. assert (filter (λ e, inb N bs e.1 = true) E = []) as ->; [|done].
  induction E as [|e E IH]; [done|].
  rewrite filter_cons, H by left. rewrite IH by (intros; apply H; by right). done.
Qed.

Lemma within_all E : within (None, None) E = E.*2.
Proof. 
  unfold within. f_equal. induction E as [|e E IH]; [done|]. rewrite filter_cons, IH. by destruct (decide _).
Qed.

Variable lv : gmap addr (Leaf V).

(** The traveler, whatever the cursor. *)
Local Notation Traverse_node := (λ n bs path d s, Traverse_node lv (λ s _ a, OnLeaf s a) n bs path d s).

(** A child: skipped or traversed, according to the bit that leads to it. *)
Lemma Traverse_child pre lt bs path (b : bool) (c : node Hash) s :
  (∀ bs s, tight N bs (pre ++ [b]) →
     Traverse_node c bs (b :: path) (S (length pre)) s = Some (visit (within bs (lelems (pre ++ [b]) lt)) s)) →
  length pre < N → tight N bs pre →
  ∃ r, bounds_step bs (λ pB, Cmp1 b pB (length pre)) = Some r ∧
    match r with
    | None => Some (true, s)
    | Some bs' => Traverse_node c bs' (b :: path) (S (length pre)) s
    end = Some (visit (within bs (lelems (pre ++ [b]) lt)) s).
Proof.
  intros IH HN Ht. destruct (bounds_step_spec N bs (λ pB, Cmp1 b pB (length pre)) pre [b]) as (r & -> & Hr).
  - intros pB Hk. apply Cmp1_spec; done.
  - cbn. lia.
  - done.
  - exists r. split; [done|]. destruct r as [bs'|].
    + destruct Hr as [Ht' He]. rewrite IH by done. f_equal. f_equal. symmetry. apply within_ext.
      intros e Hin. apply He. apply lelems_prefix in Hin. by apply prefix_app_l in Hin.
    + rewrite within_none; [done|]. intros e Hin. apply Hr. apply lelems_prefix in Hin. by apply prefix_app_l in Hin.
Qed.

(** Entering a node: the bits of the node are compared with the bounds. *)
Lemma Traverse_enter pre (n : node Hash) lt bs :
  rel N lv pre n lt → tight N bs pre →
  ∃ r, (if (get_Bits n =? 0)%nat then Some (Some bs)
        else pK ← get_NodeKey lv n; bounds_step bs (λ pB, Cmp pK pB (length pre) (get_Bits n))) = Some r ∧
  match r with
  | None => within bs (lelems pre lt) = []
  | Some bs' => tight N bs' (pre ++ lpre lt) ∧ within bs (lelems pre lt) = within bs' (lelems pre lt)
  end.
Proof.
  intros Hr Ht. rewrite (rel_Bits N _ _ _ _ Hr). pose proof (rel_NodeKey N _ _ _ _ Hr) as (lf & Hl & Hk & Hp).
  pose proof (prefix_length _ _ Hp) as Hlen. rewrite kbits_length, length_app in Hlen.
  destruct (Nat.eqb_spec (length (lpre lt)) 0) as [E|E].
  - exists (Some bs). apply nil_length_inv in E. by rewrite E, app_nil_r.
  - unfold get_NodeKey. rewrite Hl. cbn [fmap option_fmap option_map mbind option_bind].
    destruct (bounds_step_spec N bs (λ pB, Cmp (lf_Key lf) pB (length pre) (length (lpre lt))) pre (lpre lt))
      as (r & -> & Hs); [|done|done|].
    + intros pB HpB. destruct (Cmp_spec N (lf_Key lf) pB (length pre) (length (lpre lt))) as (c & Ec & Hc); [done..|].
      exists c. split; [done|]. assert (seg N (lf_Key lf) (length pre) (length (lpre lt)) = lpre lt) as <-; [|by rewrite seg_length].
      destruct Hp as [x Ex]. unfold seg. by rewrite Ex, <- app_assoc, drop_app_length, take_app_length.
    + exists r. split; [done|]. destruct r as [bs'|].
      * destruct Hs as [Ht' He]. split; [done|]. apply within_ext. intros e Hin. by apply He, lelems_prefix.
      * apply within_none. intros e Hin. by apply Hs, lelems_prefix.
Qed.

Lemma Traverse_node_spec pre (n : node Hash) lt bs path s :
  rel N lv pre n lt → tight N bs pre →
  Traverse_node n bs path (length pre) s = Some (visit (within bs (lelems pre lt)) s).
Proof.
  revert pre lt bs path s. induction n as [b cl a|b cl k h c0 IH0 c1 IH1]; intros pre lt bs path s Hr Ht.
  all: pose proof (rel_Bits N _ _ _ _ Hr) as Eb.
  all: destruct (Traverse_enter pre _ lt bs Hr Ht) as (r & Er & Hs); cbn [get_Bits] in Er; cbn [RadixTree.Traverse_node get_Bits]; rewrite Er; clear Er.
  all: cbn [mbind option_bind]; destruct r as [bs'|]; [|by rewrite Hs].
  all: destruct Hs as [Ht' ->]; cbn [get_Bits] in Eb |- *.
  - destruct lt as [p a'|]; [|done].
    assert (length (pre ++ p) = N) as Hfull by (apply (rel_length N _ _ _ _ (pre ++ p, a') Hr); left).
    destruct Hr as (-> & _ & _).
    cbn [lelems lpre] in *. unfold within. rewrite filter_cons_True by (by apply tight_full).
    rewrite filter_nil. cbn. by destruct (OnLeaf s a) as [[] ?].
  - destruct lt as [|p l r]; [done|]. destruct Hr as (_ & _ & H0 & H1). cbn [lelems lpre] in *. subst b.
    rewrite <- length_app. rewrite app_assoc in H0, H1. rewrite !app_assoc, within_app, visit_app.
    assert (HN : length (pre ++ p) < N).
    { apply rel_NodeKey in H0 as (? & _ & _ & Hp). apply prefix_length in Hp. rewrite kbits_length, !length_app in Hp.
      rewrite length_app. cbn in Hp. lia. }
    destruct (Traverse_child (pre ++ p) l bs' path false c0 s) as (r0 & -> & E0); [|done|done|].
    { intros bs0 s0 Ht0. by rewrite <- (IH0 _ _ bs0 (false :: path) s0 H0 Ht0), (length_app _ [false]), Nat.add_1_r. }
    cbn [mbind option_bind]. rewrite E0. cbn [option_bind].
    destruct (visit (within bs' _) s) as [[] s1]; [|done]. cbn [negb].
    destruct (Traverse_child (pre ++ p) r bs' path true c1 s1) as (r1 & -> & E1); [|done|done|exact E1].
    intros bs0 s0 Ht0. by rewrite <- (IH1 _ _ bs0 (true :: path) s0 H1 Ht0), (length_app _ [true]), Nat.add_1_r.
Qed.

End traverse.

(** ** The cursor of the traveler *)

Section cursor.

Context {Hash : Type} {V : Type} {St : Type}.
Variable N : nat.

(** The path to a leaf. *)
Fixpoint lpath (lt : ltree) (a : addr) : option (list bool) :=
  match lt with
  | LL _ a' => if decide (a' = a) then Some [] else None
  | LJ _ l r => match lpath l a with Some q => Some (false :: q) | None => cons true <$> lpath r a end
  end.

Lemma lpath_elem lt pre a q : lpath lt a = Some q → a ∈ (lelems pre lt).*2.
Proof.
  revert pre q. induction lt as [p a'|p l IHl r IHr]; intros pre q; cbn [lpath lelems].
  - case_decide as E; [|done]. intros _. subst. by left.
  - rewrite fmap_app, elem_of_app. destruct (lpath l a) eqn:El; [left; by eapply IHl|].
    destruct (lpath r a) eqn:Er; [|done]. right. by eapply IHr.
Qed.

Lemma lpath_lat lt pre a : a ∈ (lelems pre lt).*2 → ∃ q pre' p, lpath lt a = Some q ∧ lat pre lt q = Some (pre', LL p a).
Proof.
  revert pre. induction lt as [p a'|p l IHl r IHr]; intros pre; cbn [lpath lelems].
  - intros ->%list_elem_of_singleton. rewrite decide_True by done. by eexists _, _, _.
  - rewrite fmap_app, elem_of_app. intros Ha. destruct (lpath l a) as [q|] eqn:El.
    + pose proof (lpath_elem _ (pre ++ p ++ [false]) _ _ El) as Hl. apply IHl in Hl as (q' & pre' & p' & E & Hl). simplify_eq.
      by exists (false :: q'), pre', p'.
    + destruct Ha as [Ha|Ha]; [by apply IHl in Ha as (q & ? & ? & ? & _)|]. apply IHr in Ha as (q & pre' & p' & -> & Hr).
      by exists (true :: q), pre', p'.
Qed.

Lemma Traverse_cursor (lv : gmap addr (Leaf V)) (OnLeaf : St → CursorBase → addr → bool * St) (f : addr → CursorBase)
    pre (n : node Hash) lt bs path d s :
  rel N lv pre n lt → NoDup (lelems pre lt).*2 → d = length pre →
  (∀ a q, lpath lt a = Some q → f a = mkCursor (Some (rev path ++ q)) N 0) →
  Traverse_node lv OnLeaf n bs path d s = Traverse_node lv (λ s _ a, OnLeaf s (f a) a) n bs path d s.
Proof.
  revert pre lt bs path d s. induction n as [b cl a|b cl k h c0 IH0 c1 IH1]; intros pre [p a'|p l r] bs path d s Hr Hnd -> Hf; try done.
  - cbn [Traverse_node]. destruct (if (_ =? 0)%nat then _ else _) as [[bs'|]|]; [|done..]. cbn [mbind option_bind].
    destruct Hr as (-> & -> & lf & _ & _ & E). rewrite (Hf a []) by (cbn; by rewrite decide_True). rewrite app_nil_r. do 3 f_equal.
    cbn [get_Bits]. pose proof (kbits_length N (lf_Key lf)) as EN. by rewrite E, length_app in EN.
  - destruct Hr as (Eb & _ & H0 & H1). cbn [lelems] in Hnd. rewrite fmap_app in Hnd. apply NoDup_app in Hnd as (N0 & Hdis & N1).
    cbn [Traverse_node get_Bits]. destruct (if (b =? 0)%nat then _ else _) as [[bs'|]|]; [|done..]. cbn [mbind option_bind].
    assert (Hlen : ∀ x, S (length pre + b) = length (pre ++ p ++ [x])) by (intros x; rewrite !length_app; cbn; lia).
    assert (E0 : ∀ bs s, Traverse_node lv OnLeaf c0 bs (false :: path) (S (length pre + b)) s =
                         Traverse_node lv (λ s _ a, OnLeaf s (f a) a) c0 bs (false :: path) (S (length pre + b)) s).
    { intros bs0 s0. apply (IH0 (pre ++ p ++ [false]) l); [done|done|apply Hlen|]. intros a q Eq. rewrite (Hf a (false :: q)); [cbn; by rewrite <- app_assoc|]. cbn. by rewrite Eq. }
    assert (E1 : ∀ bs s, Traverse_node lv OnLeaf c1 bs (true :: path) (S (length pre + b)) s =
                         Traverse_node lv (λ s _ a, OnLeaf s (f a) a) c1 bs (true :: path) (S (length pre + b)) s).
    { intros bs0 s0. apply (IH1 (pre ++ p ++ [true]) r); [done|done|apply Hlen|]. intros a q Eq. rewrite (Hf a (true :: q)); [cbn; by rewrite <- app_assoc|]. cbn.
      destruct (lpath l a) as [q'|] eqn:El; [|by rewrite Eq]. destruct (Hdis a); [by eapply lpath_elem|by eapply lpath_elem]. }
    destruct (bounds_step bs' (λ pB, Cmp1 false pB _)) as [[b0|]|]; cbn [mbind option_bind]; [rewrite E0| |done].
    1: destruct (Traverse_node lv _ c0 b0 _ _ s) as [[[] s1]|]; cbn [mbind option_bind negb]; [|done..].
    all: cbn [negb]; destruct (bounds_step bs' (λ pB, Cmp1 true pB _)) as [[b1|]|]; cbn [mbind option_bind]; by rewrite ?E1.
Qed.

End cursor.

(** [Traverse] visits, in ascending order, the elements within the bounds, each with a
    cursor at it. *)
Lemma Traverse_visits_cursor {V Hash St} N (OnLeaf : St → CursorBase → addr → bool * St) (t : tree V Hash) E bs s :
  tree_ok N t E → (∀ b, bs.1 = Some b ∨ bs.2 = Some b → key_ok N b) →
  ∃ f, (∀ a, a ∈ E.*2 → cursor_at N t (f a) a) ∧ Traverse t OnLeaf bs s = Some (visit (λ s a, OnLeaf s (f a) a) (within N bs E) s).
Proof.
  intros (Hnd & Hdom & HR) Hb. unfold Traverse, cursor_at. destruct (rt_Root t) as [n|].
  2: { subst E. exists (λ _, mkCursor None 0 0). split; [by intros a ?%elem_of_nil|done]. }
  destruct HR as (lt & Hr & ->). exists (λ a, mkCursor (lpath lt a) N 0). split.
  - intros a Ha. destruct (lpath_lat lt [] a Ha) as (q & pre' & p & -> & Hl). destruct (rel_at _ _ _ _ _ _ _ _ Hr Hl) as (n' & Hat & Hr').
    destruct n' as [b cl a'|]; [|done]. destruct Hr' as (<- & _). by exists n, q, pre', p, lt, b, cl.
  - rewrite (Traverse_cursor N _ OnLeaf (λ a, mkCursor (lpath lt a) N 0) [] n lt bs [] 0 s Hr Hnd eq_refl) by (intros a q ->; done).
    apply (Traverse_node_spec N (λ s a, OnLeaf s (mkCursor (lpath lt a) N 0) a) _ [] n lt bs [] s Hr).
    split; intros b Eb; (split; [auto|apply prefix_nil]).
Qed.

Lemma Traverse_visits {V Hash St} N (OnLeaf : St → addr → bool * St) (t : tree V Hash) E bs s :
  tree_ok N t E → (∀ b, bs.1 = Some b ∨ bs.2 = Some b → key_ok N b) →
  Traverse t (λ s _ a, OnLeaf s a) bs s = Some (visit OnLeaf (within N bs E) s).
Proof. intros Ht Hb. by destruct (Traverse_visits_cursor N (λ s _ a, OnLeaf s a) t E bs s Ht Hb) as (f & _ & ->). Qed.

Lemma visit_count l k : visit (λ n (_ : addr), (true, S n)) l k = (true, length l + k).
Proof. revert k. induction l as [|a l IH]; intros k; cbn; [done|]. rewrite IH. f_equal. lia. Qed.

Lemma Count_length {V Hash} N (t : tree V Hash) E : tree_ok N t E → Count t = Some (length E).
Proof.
  intros Ht. unfold Count. rewrite (Traverse_visits N _ t E) by (done || by intros b [?|?]).
  rewrite within_all, visit_count, length_fmap. cbn. f_equal. lia.
Qed.
