(* ===== verification/UtxoTree.v ===== *)
(** * core/radixtree: the UTXO tree

    [UtxoTree] of core/radixtree.{h,cpp}: the radix hash tree of the unspent outputs.  A
    key of 321 bits holds a commitment and a maturity; a leaf holds the IDs of the outputs
    that share a key, one in place or several in a stack.  [Compact] computes the root hash
    from the keys in ascending order without the tree. *)

From stdpp Require Import base list numbers option gmap.
From S2P Require Import Prelude UintBig Merkle RadixTree.
Local Open Scope Z_scope.
Import RadixTree RadixHashTree.

Module UtxoTree.

(** ** Keys *)

Module Key.

Definition s_BitsCommitment : nat := 257.
Definition s_Bits : nat := s_BitsCommitment + 64.
Definition s_Bytes : nat := Nat.shiftr (s_Bits + 7) 3.

(** [m_Commitment.m_X] is 32 bytes. *)
Record Data := mkData { m_X : list Z; m_Y : Z; m_Maturity : Z }.

(** [Data::operator = (const Key&)]. *)
Definition Data_step (pKey : list Z) (i m_Maturity : Z) : option Z :=
  a ← rd pKey i;
  b ← rd pKey (i + 1);
  Some (Z.lor (Z.lor (u64 (Z.shiftl m_Maturity 8)) (Z.shiftl a 1)) (Z.shiftr b 7)).

Definition Data_assign (key : list Z) : option Data :=
  let pKey := drop 32 key in
  y ← rd pKey 0;
  m ← loop_up 8 0 (Data_step pKey) 0;
  Some (mkData (take 32 key) (Z.land 1 (Z.shiftr y 7)) m).

(** [Key::operator = (const Data&)]. *)
Definition Key_step (m_Maturity i : Z) (pKey : list Z) : option (list Z) :=
  let v := u8 (Z.shiftr m_Maturity (Z.shiftl (8 - i - 1) 3)) in
  x ← rd pKey i;
  pKey ← wr pKey i (Z.lor x (Z.shiftr v 1));
  wr pKey (i + 1) (u8 (Z.shiftl v 7)).

Definition Key_assign (d : Data) : option (list Z) :=
  let pKey := zeros (s_Bytes - 32) in
  pKey ← (if negb (m_Y d =? 0) then x ← rd pKey 0; wr pKey 0 (Z.lor x (Z.shiftl 1 7)) else Some pKey);
  pKey ← loop_up 8 0 (Key_step (m_Maturity d)) pKey;
  Some (m_X d ++ pKey).

End Key.

(** ** Leaves *)

(** What a leaf holds beside the key: the union of [m_ID] and [m_pIDs], told apart by the
    flag [s_User].  A queue is the list of its nodes from the top, and its count. *)
Inductive IDs :=
  | OneID (m_ID : Z)
  | Queue (m_pTop : list Z) (m_Count : Z).

Definition IsExt (x : IDs) : bool := match x with Queue _ _ => true | OneID _ => false end.
Definition get_Count (x : IDs) : Z := match x with Queue _ c => c | OneID _ => 1 end.

Definition PushIDRaw (id : Z) (q : list Z * Z) : list Z * Z := (id :: fst q, u32 (snd q + 1)).

Definition PushID (id : Z) (x : IDs) : IDs :=
  let q := match x with OneID v => PushIDRaw v ([], 0) | Queue l c => (l, c) end in
  let '(l, c) := PushIDRaw id q in Queue l c.

Definition PopIDRaw (q : list Z * Z) : option (Z * (list Z * Z)) :=
  match fst q with [] => None | id :: l => Some (id, (l, u32 (snd q - 1))) end.

Definition PopID (x : IDs) : option (Z * IDs) :=
  match x with
  | OneID _ => None
  | Queue l c =>
    '(ret, q) ← PopIDRaw (l, c);
    if snd q =? 1 then '(v, _) ← PopIDRaw q; Some (ret, OneID v) else Some (ret, Queue (fst q) (snd q))
  end.

(** [DeleteLeaf] pops the IDs of a queue; the fuel is the length of the queue. *)
Fixpoint DeleteLeaf (fuel : nat) (x : IDs) : option IDs :=
  match fuel with
  | O => None
  | S fuel => if IsExt x then '(_, x) ← PopID x; DeleteLeaf fuel x else Some x
  end.

Definition IsCommitmentDuplicated {Hash} (n : node Hash) : bool :=
  (get_Bits n <=? Key.s_Bits - Key.s_BitsCommitment)%nat.

(** ** Serialization *)

(** What [ISerializer::Process] writes or reads. *)
Inductive token := T32 (n : Z) | T64 (n : Z) | TKey (k : list Z).

Inductive load_error := incorrect_order | archive_error.

Section serial.

Context {Hash : Type} (uninit : Hash) (junk : Z).

Notation tree := (tree IDs Hash).

(** The IDs of a leaf as they are written. *)
Definition save_leaf (lf : Leaf IDs) : list token :=
  [TKey (lf_Key lf); T32 (get_Count (lf_Data lf))] ++
  match lf_Data lf with Queue l _ => T64 <$> l | OneID id => [T64 id] end.

Definition SaveIntenral (t : tree) : option (list token) :=
  n ← Count t;
  '(_, body) ← Traverse t (λ s _ a, (true, s ++ match rt_Leaves t !! a with Some lf => save_leaf lf | None => [] end))
                 (None, None) [];
  Some (T32 (u32 (Z.of_nat n)) :: body).

(** [while (--n2)]: every round reads an ID. *)
Fixpoint LoadIDs (s : list token) (n2 : Z) (x : IDs) : load_error + (IDs * list token) :=
  let n2 := u32 (n2 - 1) in
  if n2 =? 0 then inr (x, s)
  else match s with T64 v :: s => LoadIDs s n2 (PushID v x) | _ => inl archive_error end.

(** One leaf, after its key was read and found to be above the previous one. *)
Definition LoadLeaf (t : tree) (key : list Z) (s : list token) : option (load_error + (tree * list token)) :=
  '(t, _, bCreate, r) ← Find (OneID junk) uninit t key Key.s_Bits true;
  if negb bCreate then None
  else
    a ← r;
    match s with
    | T32 n2 :: T64 id :: s =>
      match LoadIDs s n2 (OneID id) with
      | inl e => Some (inl e)
      | inr (x, s) => Some (inr (mk (rt_Root t) (alter (λ lf, mkLeaf (lf_Key lf) x) a (rt_Leaves t)), s))
      end
    | _ => Some (inl archive_error)
    end.

Fixpoint LoadLoop (n : nat) (keyPrev : option (list Z)) (t : tree) (s : list token)
    : option (load_error + (tree * list token)) :=
  match n with
  | O => Some (inr (t, s))
  | S n =>
    match s with
    | TKey key :: s =>
      if match keyPrev with Some kp => 0 <=? uintBigImpl._Cmp kp key | None => false end
      then Some (inl incorrect_order)
      else
        r ← LoadLeaf t key s;
        match r with inl e => Some (inl e) | inr (t, s) => LoadLoop n (Some key) t s end
    | _ => Some (inl archive_error)
    end
  end.

Definition LoadIntenral (t : tree) (s : list token) : option (load_error + (tree * list token)) :=
  match s with
  | T32 n :: s => LoadLoop (Z.to_nat n) None (Clear t) s
  | _ => Some (inl archive_error)
  end.

End serial.

(** ** Compact *)

Module Compact.
Section compact.

(** [get_Hash] is [MyLeaf::get_Hash(hv, key, nCount)]. *)
Context {Hash : Type} `{Hasher Hash} (get_Hash : list Z → Z → Hash) (uninit : Hash).

Record Node := mkNode { m_Hash : Hash; m_nBitsCommon : Z }.

(** [m_vNodes] from the back. *)
Record t := mk { m_vNodes : list Node; m_LastKey : list Z; m_LastCount : Z }.

Fixpoint FlushLoop (top : Node) (rest : list Node) (nBitsCommonNext : Z) : list Node :=
  match rest with
  | [] => [top]
  | n0 :: rest' =>
    if m_nBitsCommon top <? nBitsCommonNext then top :: rest
    else FlushLoop (mkNode (combine (m_Hash n0) (m_Hash top)) (m_nBitsCommon n0)) rest' nBitsCommonNext
  end.

Definition FlushInternal (c : t) (nBitsCommonNext : Z) : option t :=
  match m_vNodes c with
  | [] => None
  | n :: rest =>
    let n := if negb (m_LastCount c =? 0) then mkNode (get_Hash (m_LastKey c) (m_LastCount c)) (m_nBitsCommon n) else n in
    Some (mk (FlushLoop n rest nBitsCommonNext) (m_LastKey c) 0)
  end.

Definition push (c : t) (key : list Z) (nBitsCommon : Z) : t :=
  mk (mkNode uninit nBitsCommon :: m_vNodes c) key 1.

Definition Add (c : t) (key : list Z) : option (bool * t) :=
  if negb (length (m_vNodes c) =? 0)%nat then
    let nCmp := uintBigImpl._Cmp (m_LastKey c) key in
    if 0 <? nCmp then Some (false, c)
    else if nCmp =? 0 then
      let n := u32 (m_LastCount c + 1) in
      Some (negb (n =? 0), mk (m_vNodes c) (m_LastKey c) n)
    else
      k1 ← uintBigImpl._Xor (m_LastKey c) key;
      let nOrder := u16 (uintBigImpl._GetOrder k1) in
      let nBitsCommon := u16 (8 * Z.of_nat Key.s_Bytes - nOrder) in
      c ← FlushInternal c nBitsCommon;
      Some (true, push c key nBitsCommon)
  else Some (true, push c key 0).

Definition Flush (c : t) : option Hash :=
  match m_vNodes c with
  | [] => Some hZero
  | _ =>
    c ← FlushInternal c 0;
    n ← last (m_vNodes c);
    Some (m_Hash n)
  end.

End compact.
End Compact.

End UtxoTree.
