(* ===== verification/UtxoTreeSpec.v ===== *)
(** * core/radixtree: the UTXO tree, lemmas

    The layout of a key as a number, the stack of IDs of a leaf, and the order of the keys
    against the order of their bits. *)

From stdpp Require Import base list numbers option gmap.
From S2P Require Import Prelude UintBig Merkle RadixTree RadixTreeSpec RadixHash RadixMap RadixTraverse UtxoTree.
Local Open Scope Z_scope.
Import RadixTree UtxoTree.

(** ** Keys *)

(** After [i] rounds, the bytes up to the [i]-th hold the commitment's bit and the [i] first
    bytes of the maturity, above seven zero bits. *)
Definition key_inv (Y M i : Z) (p : list Z) : Prop :=
  ∃ q b, p = q ++ b :: zeros (8 - Z.to_nat i) ∧ #q = i ∧ bytes q ∧ 0 ≤ b < 256 ∧
    256 * ⟦q⟧ + b = (Y * 2 ^ (8 * i) + M / 2 ^ (64 - 8 * i)) * 2 ^ 7.

Lemma Key_step_spec Y M i p : 0 ≤ i < 8 → 0 ≤ M → key_inv Y M i p →
  ∃ p', Key.Key_step M i p = Some p' ∧ key_inv Y M (i + 1) p'.
Proof.
  intros Hi HM (q & b & -> & Hq & Hbq & Hb & Hv). unfold Key.Key_step.
  replace (8 - Z.to_nat i)%nat with (S (8 - Z.to_nat (i + 1))) by lia.
  change (zeros (S (8 - Z.to_nat (i + 1)))) with (0 :: zeros (8 - Z.to_nat (i + 1))).
  rewrite rd_mid' by done. cbn [mbind option_bind]. rewrite wr_mid' by done. cbn [mbind option_bind].
  set (v := u8 (Z.shiftr M (Z.shiftl (8 - i - 1) 3))).
  set (b' := Z.lor b (Z.shiftr v 1)). replace (q ++ b' :: 0 :: zeros (8 - Z.to_nat (i + 1)))
    with ((q ++ [b']) ++ 0 :: zeros (8 - Z.to_nat (i + 1))) by (by rewrite <- app_assoc).
  rewrite wr_mid' by (rewrite length_app; cbn; lia). eexists; split; [done|].
  assert (Hv8 : 0 ≤ v < 256) by apply u8_range.
  assert (Eb : b' = b + v / 2).
  { unfold b'. rewrite Z.shiftr_div_pow2 by lia. apply (lor_add_mod _ _ 7); [lia| |].
    - assert (E : b = (Y * 2 ^ (8 * i) + M / 2 ^ (64 - 8 * i) - 2 * ⟦q⟧) * 2 ^ 7) by lia. rewrite E. apply Z.mod_mul. lia.
    - change (2 ^ 1) with 2. change (2 ^ 7) with 128. split; [apply Z.div_pos; lia|]. apply Z.div_lt_upper_bound; lia. }
  assert (Hb' : 0 ≤ b' < 256).
  { assert (b mod 2 ^ 7 = 0) as Hm.
    { assert (E : b = (Y * 2 ^ (8 * i) + M / 2 ^ (64 - 8 * i) - 2 * ⟦q⟧) * 2 ^ 7) by lia. rewrite E. apply Z.mod_mul. lia. }
    pose proof (Z.div_mod b (2 ^ 7) ltac:(lia)). pose proof (Z.div_mod v 2 ltac:(lia)). pose proof (Z.mod_pos_bound v 2).
    change (2 ^ 7) with 128 in *. nia. }
  assert (Ev : v = (M / 2 ^ (64 - 8 * (i + 1))) mod 256).
  { unfold v, u8. rewrite Z.shiftl_mul_pow2, Z.shiftr_div_pow2 by lia. do 3 f_equal. lia. }
  exists (q ++ [b']), (u8 (Z.shiftl v 7)). split; [done|]. split; [rewrite length_app; cbn; lia|].
  split; [by apply bytes_snoc|]. split; [apply u8_range|]. rewrite val_snoc, Eb.
  unfold u8 at 1. rewrite Z.shiftl_mul_pow2 by lia. change (2 ^ 8) with (2 * 2 ^ 7).
  rewrite Z.mul_mod_distr_r by lia.
  replace (2 ^ (8 * (i + 1))) with (256 * 2 ^ (8 * i)) by (rewrite Z.mul_add_distr_l, Z.pow_add_r by lia; lia).
  replace (M / 2 ^ (64 - 8 * i)) with (M / 2 ^ (64 - 8 * (i + 1)) / 256) in Hv.
  2: { rewrite Z.div_div by lia. f_equal. change 256 with (2 ^ 8). rewrite <- Z.pow_add_r by lia. f_equal. lia. }
  pose proof (Z.div_mod (M / 2 ^ (64 - 8 * (i + 1))) 256 ltac:(lia)).
  pose proof (Z.div_mod v 2 ltac:(lia)). lia.
Qed.

(** A key's number: the commitment, then the maturity. *)
Lemma Key_assign_spec d :
  length (Key.m_X d) = 32%nat → bytes (Key.m_X d) → 0 ≤ Key.m_Y d ≤ 1 → 0 ≤ Key.m_Maturity d < 2 ^ 64 →
  ∃ k, Key.Key_assign d = Some k ∧ length k = Key.s_Bytes ∧ bytes k ∧ take 32 k = Key.m_X d ∧
    ⟦drop 32 k⟧ = (Key.m_Y d * 2 ^ 64 + Key.m_Maturity d) * 2 ^ 7.
Proof.
  intros HX HbX HY HM. unfold Key.Key_assign.
  assert (∃ p, (if negb (Key.m_Y d =? 0) then x ← rd (zeros (Key.s_Bytes - 32)) 0; wr (zeros (Key.s_Bytes - 32)) 0 (Z.lor x (Z.shiftl 1 7))
     else Some (zeros (Key.s_Bytes - 32))) = Some p ∧ key_inv (Key.m_Y d) (Key.m_Maturity d) 0 p) as (p & -> & Hp).
  { assert (Key.m_Maturity d / 2 ^ 64 = 0) as E by (by apply Z.div_small).
    destruct (Z.eqb_spec (Key.m_Y d) 0) as [EY|EY]; (eexists; split; [vm_compute; reflexivity|]).
    - exists [], 0. rewrite EY. change (64 - 8 * 0) with 64. rewrite E. split_and!; done || apply bytes_nil.
    - replace (Key.m_Y d) with 1 by lia. exists [], 128. change (64 - 8 * 0) with 64. rewrite E. split_and!; done || apply bytes_nil. }
  cbn [mbind option_bind].
  destruct (loop_up_inv (key_inv (Key.m_Y d) (Key.m_Maturity d)) (Key.Key_step (Key.m_Maturity d)) 8 0 p)
    as (p' & -> & Hp'); [|done|].
  { intros i s Hi Hs. apply Key_step_spec; [lia..|done]. }
  cbn [mbind option_bind]. destruct Hp' as (q & b & -> & Hq & Hbq & Hb & Hv). change (0 + Z.of_nat 8) with 8 in *.
  change (zeros (8 - Z.to_nat 8)) with (@nil Z). change (64 - 8 * 8) with 0 in Hv. rewrite Z.pow_0_r, Z.div_1_r in Hv.
  eexists; split; [done|]. split; [rewrite !length_app, HX; cbn; change Key.s_Bytes with 41%nat; lia|].
  split; [apply bytes_app; split; [done|by apply bytes_snoc]|].
  rewrite take_app_length', drop_app_length' by done. split; [done|]. rewrite val_snoc, Hv. done.
Qed.

(** Decoding: the bit that two neighbouring rounds share is the same in both. *)
Lemma Data_lor x c a b : 0 ≤ x → 0 ≤ a < 256 → 0 ≤ b < 256 → c = 0 ∨ c = a / 128 →
  Z.lor (Z.lor (512 * x + 256 * c) (Z.shiftl a 1)) (Z.shiftr b 7) = 512 * x + 2 * a + b / 128.
Proof.
  intros Hx Ha Hb Hc. assert (Hc' : 0 ≤ c ≤ 1).
  { pose proof (Z.div_pos a 128). pose proof (Z.div_lt_upper_bound a 128 2). lia. }
  assert (El : Z.lor (256 * c) (Z.shiftl a 1) = 2 * a).
  { destruct Hc as [->| ->]; [byte_cases a Ha|byte_cases a Ha]. }
  rewrite <- (lor_add_mod (512 * x) (256 * c) 9) by (try lia; rewrite Z.mul_comm; apply Z.mod_mul; lia).
  rewrite <- (Z.lor_assoc (512 * x)), El. rewrite Z.shiftr_div_pow2 by lia. change (2 ^ 7) with 128.
  pose proof (Z.div_pos b 128). pose proof (Z.div_lt_upper_bound b 128 2).
  rewrite (lor_add_mod (512 * x) (2 * a) 9) by (try lia; rewrite Z.mul_comm; apply Z.mod_mul; lia).
  apply (lor_add_mod _ _ 1); [lia| |lia]. replace (512 * x + 2 * a) with ((256 * x + a) * 2 ^ 1) by lia. apply Z.mod_mul. lia.
Qed.

Definition data_inv (p : list Z) (i m : Z) : Prop :=
  m = if decide (i = 0) then 0 else (⟦take (Z.to_nat (i + 1)) p⟧ / 2 ^ 7) mod 2 ^ 64.

Lemma u64_scaled x c : 0 ≤ c < 2 → u64 (Z.shiftl ((2 * x + c) mod 2 ^ 64) 8) = 512 * (x mod 2 ^ 55) + 256 * c.
Proof.
  intros Hc. unfold u64. rewrite Z.shiftl_mul_pow2 by lia.
  rewrite Z.mul_mod_idemp_l by lia. replace ((2 * x + c) * 2 ^ 8) with (512 * x + 256 * c) by lia.
  pose proof (Z.div_mod x (2 ^ 55) ltac:(lia)) as E. pose proof (Z.mod_pos_bound x (2 ^ 55) ltac:(lia)).
  rewrite E at 1. symmetry. apply (Z.mod_unique_pos _ _ (x / 2 ^ 55)); lia.
Qed.

Lemma Data_step_spec p i m : length p = 9%nat → bytes p → 0 ≤ i < 8 → data_inv p i m →
  ∃ m', Key.Data_step p i m = Some m' ∧ data_inv p (i + 1) m'.
Proof.
  intros Hl Hb Hi Hm. unfold Key.Data_step.
  destruct (rd_Some p i) as (a & -> & Ha); [lia|]. destruct (rd_Some p (i + 1)) as (b & -> & Hb'); [lia|].
  cbn [mbind option_bind]. eexists; split; [done|]. unfold data_inv in *. rewrite decide_False by lia.
  assert (Ba : 0 ≤ a < 256) by (eapply (Forall_lookup_1 _ _ _ _ Hb Ha)).
  assert (Bb : 0 ≤ b < 256) by (eapply (Forall_lookup_1 _ _ _ _ Hb Hb')).
  pose proof (take_S_r _ _ _ Ha) as Ea. pose proof (take_S_r _ _ _ Hb') as Eb.
  replace (S (Z.to_nat i)) with (Z.to_nat (i + 1)) in Ea by lia.
  replace (S (Z.to_nat (i + 1))) with (Z.to_nat (i + 1 + 1)) in Eb by lia.
  rewrite Eb, val_snoc. rewrite Ea in *. rewrite val_snoc in *. set (W := ⟦take (Z.to_nat i) p⟧) in *.
  pose proof (Z.div_pos a 128). pose proof (Z.div_lt_upper_bound a 128 2).
  pose proof (Z.div_pos b 128). pose proof (Z.div_lt_upper_bound b 128 2).
  assert (Em : u64 (Z.shiftl m 8) = 512 * (W mod 2 ^ 55) + 256 * (if decide (i = 0) then 0 else a / 128)).
  { destruct (decide (i = 0)) as [E|E]; subst m.
    - assert (W = 0) as -> by (unfold W; by rewrite E). done.
    - replace (256 * W + a) with (2 * W * 128 + a) by lia. change (2 ^ 7) with 128.
      rewrite Z.div_add_l by lia. apply u64_scaled. lia. }
  rewrite Em, Data_lor; [|apply Z.mod_pos_bound; lia|done|done|destruct (decide (i = 0)); auto].
  replace (256 * (256 * W + a) + b) with ((512 * W + 2 * a) * 2 ^ 7 + b) by lia.
  rewrite Z.div_add_l by lia. change (2 ^ 7) with 128.
  pose proof (Z.div_mod W (2 ^ 55) ltac:(lia)) as E. pose proof (Z.mod_pos_bound W (2 ^ 55) ltac:(lia)).
  apply (Z.mod_unique_pos _ _ (W / 2 ^ 55)); lia.
Qed.

Lemma Data_assign_spec k : length k = Key.s_Bytes → bytes k →
  Key.Data_assign k =
    Some (Key.mkData (take 32 k) (⟦drop 32 k⟧ / 2 ^ 71) ((⟦drop 32 k⟧ / 2 ^ 7) mod 2 ^ 64)).
Proof.
  intros Hl Hb. unfold Key.Data_assign. change Key.s_Bytes with 41%nat in Hl.
  assert (Hl' : length (drop 32 k) = 9%nat) by (rewrite length_drop; lia).
  assert (Hb' : bytes (drop 32 k)) by auto with beam. set (p := drop 32 k) in *.
  destruct (rd_Some p 0) as (y & -> & Hy); [lia|]. cbn [mbind option_bind].
  destruct (loop_up_inv (data_inv p) (Key.Data_step p) 8 0 0) as (m & -> & Hm); [|done|].
  { intros i s Hi Hs. by apply Data_step_spec; [..|lia|]. }
  cbn [mbind option_bind]. unfold data_inv in Hm. cbn [decide] in Hm. rewrite decide_False in Hm by lia.
  rewrite take_ge in Hm by lia. subst m. do 2 f_equal.
  apply digit_lookup in Hy; [|done]. subst y. rewrite Hl'. unfold digit. change (Z.of_nat 9 - 1 - Z.of_nat (Z.to_nat 0)) with 8.
  pose proof (val_range p Hb') as R. rewrite Hl' in R. change (256 ^ Z.of_nat 9) with (2 ^ 72) in R. change (256 ^ 8) with (2 ^ 64).
  rewrite (Z.mod_small (⟦p⟧ / 2 ^ 64)).
  2: { split; [apply Z.div_pos; lia|]. apply Z.div_lt_upper_bound; lia. }
  rewrite Z.shiftr_div_pow2, Z.div_div by lia. change (2 ^ 64 * 2 ^ 7) with (2 ^ 71).
  rewrite Z.land_comm. change 1 with (Z.ones 1). rewrite Z.land_ones by lia. apply Z.mod_small.
  split; [apply Z.div_pos; lia|]. apply Z.div_lt_upper_bound; lia.
Qed.

(** ** Order of the keys and of their bits *)

Lemma kbit_val k i : bytes k → (i < 8 * length k)%nat → kbit k i = Z.testbit ⟦k⟧ (8 * #k - 1 - Z.of_nat i).
Proof.
  intros Hb Hi. unfold kbit. pose proof (Nat.div_mod_eq i 8). pose proof (Nat.mod_upper_bound i 8).
  destruct (lookup_lt_is_Some_2 k (i / 8)) as [x Hx]; [lia|]. rewrite (nth_lookup_Some _ _ _ _ Hx).
  pose proof (digit_lookup k _ _ Hb Hx) as ->. unfold digit.
  change 256 with (2 ^ 8) at 2. rewrite Z.mod_pow2_bits_low by lia.
  change 256 with (2 ^ 8). rewrite <- Z.pow_mul_r, Z.div_pow2_bits by lia. f_equal. lia.
Qed.

(** The higher number is the one with the first bit of difference set. *)
Lemma bit_lt a b d : 0 ≤ d → (∀ j, d < j → Z.testbit a j = Z.testbit b j) →
  Z.testbit a d = false → Z.testbit b d = true → a < b.
Proof.
  intros Hd He Ha Hb.
  assert (E : a / 2 ^ (d + 1) = b / 2 ^ (d + 1)).
  { rewrite <- !Z.shiftr_div_pow2 by lia. apply Z.bits_inj'. intros j Hj.
    rewrite !Z.shiftr_spec by lia. apply He. lia. }
  assert (0 < 2 ^ d) by (apply Z.pow_pos_nonneg; lia).
  assert (Hh : ∀ x, x = 2 ^ (d + 1) * (x / 2 ^ (d + 1)) + Z.b2z (Z.testbit x d) * 2 ^ d + x mod 2 ^ d).
  { intros x. rewrite Z.testbit_spec' by lia. rewrite Z.pow_add_r, Z.pow_1_r, <- Z.div_div by lia.
    pose proof (Z.div_mod x (2 ^ d) ltac:(lia)). pose proof (Z.div_mod (x / 2 ^ d) 2 ltac:(lia)). nia. }
  rewrite (Hh a), (Hh b), E, Ha, Hb. pose proof (Z.mod_pos_bound a (2 ^ d) ltac:(lia)).
  pose proof (Z.mod_pos_bound b (2 ^ d) ltac:(lia)). cbn [Z.b2z]. lia.
Qed.

Lemma first_diff a b : 0 ≤ a < b → let d := Z.log2 (Z.lxor a b) in
  Z.lxor a b ≠ 0 ∧ 0 ≤ d ∧ (∀ j, d < j → Z.testbit a j = Z.testbit b j) ∧ Z.testbit a d = false ∧ Z.testbit b d = true.
Proof.
  intros Hab d. assert (Hx : 0 ≤ Z.lxor a b) by (apply Z.lxor_nonneg; lia).
  assert (Hn : Z.lxor a b ≠ 0) by (intros E%Z.lxor_eq; lia).
  assert (He : ∀ j, d < j → Z.testbit a j = Z.testbit b j).
  { intros j Hj. apply xorb_eq. rewrite <- Z.lxor_spec. by apply Z.bits_above_log2. }
  assert (Hd : xorb (Z.testbit a d) (Z.testbit b d) = true) by (rewrite <- Z.lxor_spec; apply Z.bit_log2; lia).
  pose proof (Z.log2_nonneg (Z.lxor a b)). split_and!; [done..| |];
    destruct (Z.testbit a d) eqn:Ea, (Z.testbit b d) eqn:Eb; try done;
    exfalso; assert (b < a) by (apply (bit_lt b a d); [done|intros; symmetry; auto|done..]); lia.
Qed.

Lemma blt_first l k : length l = length k → blt l k = true →
  ∃ i, take i l = take i k ∧ l !! i = Some false ∧ k !! i = Some true.
Proof.
  revert k. induction l as [|a l IH]; intros [|b k]; cbn; try done. intros [= Hl].
  destruct (Bool.eqb_spec a b) as [->|Hne].
  - intros Hb. destruct (IH k Hl Hb) as (i & Ht & H0 & H1). exists (S i). cbn. by rewrite Ht.
  - destruct a, b; try done. by exists 0%nat.
Qed.

Lemma take_kbits N a b i j : take i (kbits N a) = take i (kbits N b) → (j < i)%nat → (j < N)%nat → kbit a j = kbit b j.
Proof.
  intros E Hj HN. assert (take i (kbits N a) !! j = take i (kbits N b) !! j) as E' by (by rewrite E).
  rewrite !lookup_take_lt, !kbits_lookup in E' by done. by injection E'.
Qed.

Lemma blt_kbits N a b : bytes a → bytes b → length a = length b → (N ≤ 8 * length a)%nat →
  blt (kbits N a) (kbits N b) = true → ⟦a⟧ < ⟦b⟧.
Proof.
  intros Ha Hb Hl HN Hlt. apply blt_first in Hlt as (i & Ht & H0 & H1); [|by rewrite !kbits_length].
  pose proof (lookup_lt_Some _ _ _ H0) as Hi. rewrite kbits_length in Hi.
  rewrite kbits_lookup in H0, H1 by done. injection H0 as H0. injection H1 as H1.
  rewrite kbit_val in H0, H1 by (done || lia). rewrite <- Hl in H1.
  apply (bit_lt _ _ (8 * #a - 1 - Z.of_nat i)); [lia| |done|done].
  intros j Hj. destruct (decide (j < 8 * #a)) as [Hj'|Hj'].
  - pose proof (take_kbits N a b i (Z.to_nat (8 * #a - 1 - j)) Ht ltac:(lia) ltac:(lia)) as E.
    rewrite !kbit_val in E by (done || lia). rewrite <- Hl in E.
    by replace (8 * #a - 1 - Z.of_nat (Z.to_nat (8 * #a - 1 - j))) with j in E by lia.
  - pose proof (val_range a Ha) as Ra. pose proof (val_range b Hb) as Rb. rewrite <- Hl in Rb. rewrite pow256_2 in Ra, Rb.
    rewrite <- (Z.mod_small ⟦a⟧ (2 ^ (8 * #a))), <- (Z.mod_small ⟦b⟧ (2 ^ (8 * #a))) by done.
    by rewrite !Z.mod_pow2_bits_high by lia.
Qed.

(** A 41-byte key whose unused bits are zero. *)
Definition wf_key (k : list Z) : Prop := length k = Key.s_Bytes ∧ bytes k ∧ ⟦k⟧ mod 2 ^ 7 = 0.

(** A commitment and a maturity come back from their key. *)
Lemma Key_roundtrip d :
  length (Key.m_X d) = 32%nat → bytes (Key.m_X d) → 0 ≤ Key.m_Y d ≤ 1 → 0 ≤ Key.m_Maturity d < 2 ^ 64 →
  ∃ k, Key.Key_assign d = Some k ∧ wf_key k ∧ Key.Data_assign k = Some d ∧
    ⟦k⟧ = ((⟦Key.m_X d⟧ * 2 + Key.m_Y d) * 2 ^ 64 + Key.m_Maturity d) * 2 ^ 7.
Proof.
  intros HX HbX HY HM. destruct (Key_assign_spec d HX HbX HY HM) as (k & Ek & Hl & Hb & Ht & Hd). exists k. split; [done|].
  assert (Hv : ⟦k⟧ = ((⟦Key.m_X d⟧ * 2 + Key.m_Y d) * 2 ^ 64 + Key.m_Maturity d) * 2 ^ 7).
  { rewrite <- (take_drop 32 k), val_app, Ht, Hd, length_drop, Hl. change (256 ^ Z.of_nat (Key.s_Bytes - 32)) with (2 ^ 72). lia. }
  split_and!; [|rewrite (Data_assign_spec k Hl Hb), Ht, Hd|done].
  - split_and!; [done..|]. rewrite Hv. apply Z.mod_mul. lia.
  - destruct d as [X Y M]. cbn [Key.m_X Key.m_Y Key.m_Maturity] in *. do 2 f_equal.
    + change (2 ^ 71) with (2 ^ 7 * 2 ^ 64). rewrite <- Z.div_div, Z.div_mul, Z.div_add_l, Z.div_small by lia. lia.
    + rewrite Z.div_mul, Z.add_comm, Z.mod_add, Z.mod_small by lia. done.
Qed.

(** Every well-formed key is the key of its data. *)
Lemma Data_roundtrip k : wf_key k →
  ∃ d, Key.Data_assign k = Some d ∧ Key.Key_assign d = Some k ∧
    length (Key.m_X d) = 32%nat ∧ bytes (Key.m_X d) ∧ 0 ≤ Key.m_Y d ≤ 1 ∧ 0 ≤ Key.m_Maturity d < 2 ^ 64.
Proof.
  intros (Hl & Hb & Hm). pose proof (Data_assign_spec k Hl Hb) as Ed. change Key.s_Bytes with 41%nat in Hl. eexists. split; [exact Ed|].
  assert (Hb' : bytes (drop 32 k)) by auto with beam. assert (Hl' : length (drop 32 k) = 9%nat) by (rewrite length_drop; lia).
  pose proof (val_range _ Hb') as R. rewrite Hl' in R. change (256 ^ Z.of_nat 9) with (2 ^ 72) in R.
  assert (Hk : ⟦k⟧ = ⟦take 32 k⟧ * 2 ^ 72 + ⟦drop 32 k⟧) by (rewrite <- (take_drop 32 k) at 1; rewrite val_app, Hl'; done).
  assert (Hp : ⟦drop 32 k⟧ mod 2 ^ 7 = 0).
  { rewrite <- Hm, Hk. change (2 ^ 72) with (2 ^ 65 * 2 ^ 7). by rewrite Z.mul_assoc, Z.add_comm, Z.mod_add by lia. }
  set (p := ⟦drop 32 k⟧) in *. assert (Hd : p = 2 ^ 7 * (p / 2 ^ 7)) by (pose proof (Z.div_mod p (2 ^ 7) ltac:(lia)); lia).
  assert (HY : 0 ≤ p / 2 ^ 71 ≤ 1) by (split; [apply Z.div_pos; lia|]; apply Z.lt_succ_r, Z.div_lt_upper_bound; lia).
  assert (HX : length (take 32 k) = 32%nat) by (rewrite length_take; lia). assert (HbX : bytes (take 32 k)) by auto with beam.
  pose proof (Z.mod_pos_bound (p / 2 ^ 7) (2 ^ 64) ltac:(lia)) as HM. split_and!; cbn [Key.m_X Key.m_Y Key.m_Maturity]; try done || lia.
  destruct (Key_assign_spec (Key.mkData (take 32 k) (p / 2 ^ 71) ((p / 2 ^ 7) mod 2 ^ 64)) HX HbX HY HM) as (k' & -> & Hk'l & Hk'b & Ht & Hv).
  f_equal. cbn [Key.m_X Key.m_Y Key.m_Maturity] in *. change Key.s_Bytes with 41%nat in Hk'l.
  rewrite <- (take_drop 32 k'), <- (take_drop 32 k), Ht. f_equal. apply val_inj; [rewrite !length_drop; lia|auto with beam..|].
  rewrite Hv. fold p. rewrite Hd at 3. change (2 ^ 71) with (2 ^ 7 * 2 ^ 64). rewrite <- Z.div_div by lia. pose proof (Z.div_mod (p / 2 ^ 7) (2 ^ 64) ltac:(lia)). lia.
Qed.

(** The number of leading bits two keys share, as [Compact::Add] computes it. *)
Lemma common_bits a b : wf_key a → wf_key b → ⟦a⟧ < ⟦b⟧ →
  ∃ x c, uintBigImpl._Xor a b = Some x ∧ (c < Key.s_Bits)%nat ∧
    u16 (8 * Z.of_nat Key.s_Bytes - u16 (uintBigImpl._GetOrder x)) = Z.of_nat c ∧
    take c (kbits Key.s_Bits a) = take c (kbits Key.s_Bits b) ∧ kbit a c = false ∧ kbit b c = true.
Proof.
  intros (La & Ba & Ma) (Lb & Bb & Mb) Hlt. unfold uintBigImpl._Xor. rewrite La, Lb, Nat.leb_refl, Nat.sub_diag, drop_0.
  destruct (uintBigImpl._Xor_src_spec a b) as (x & Ex & Lx & Bx & Vx); [lia|done..|]. exists x.
  change Key.s_Bytes with 41%nat in *. change Key.s_Bits with 321%nat.
  pose proof (val_range a Ba) as Ra. pose proof (val_range b Bb) as Rb. rewrite La in Ra. rewrite Lb in Rb.
  rewrite pow256_2 in Ra, Rb. change (2 ^ (8 * Z.of_nat 41)) with (2 ^ 328) in *.
  destruct (first_diff ⟦a⟧ ⟦b⟧ ltac:(lia)) as (Hn & Hd & He & H0 & H1). set (d := Z.log2 (Z.lxor ⟦a⟧ ⟦b⟧)) in *.
  assert (Hd2 : d < 328).
  { destruct (Z.lt_ge_cases d 328) as [|Hge]; [done|].
    rewrite <- (Z.mod_small ⟦b⟧ (2 ^ 328)), Z.mod_pow2_bits_high in H1 by lia. done. }
  assert (Hd1 : 7 ≤ d).
  { destruct (Z.lt_ge_cases d 7) as [Hl|]; [|done]. exfalso.
    rewrite <- (Z.mod_pow2_bits_low ⟦b⟧ 7 d), Mb, Z.bits_0 in H1 by lia. done. }
  exists (Z.to_nat (327 - d)). split; [done|]. split; [lia|].
  rewrite uintBigImpl._GetOrder_spec by (done || lia). rewrite Vx. destruct (Z.eqb_spec (Z.lxor ⟦a⟧ ⟦b⟧) 0); [done|].
  fold d. change (8 * Z.of_nat 41) with 328. casts. split; [lia|].
  assert (Hbit : ∀ j, (j < 321)%nat → kbit a j = Z.testbit ⟦a⟧ (327 - Z.of_nat j) ∧ kbit b j = Z.testbit ⟦b⟧ (327 - Z.of_nat j)).
  { intros j Hj. rewrite !kbit_val by (done || lia). rewrite La, Lb. split; f_equal; lia. }
  split_and!.
  - apply list_eq. intros j. destruct (decide (j < Z.to_nat (327 - d))%nat).
    + rewrite !lookup_take_lt, !kbits_lookup by lia. destruct (Hbit j) as [-> ->]; [lia|]. rewrite He by lia. done.
    + by rewrite !lookup_take_ge by lia.
  - destruct (Hbit (Z.to_nat (327 - d))) as [-> _]; [lia|]. by replace (327 - Z.of_nat (Z.to_nat (327 - d))) with d by lia.
  - destruct (Hbit (Z.to_nat (327 - d))) as [_ ->]; [lia|]. by replace (327 - Z.of_nat (Z.to_nat (327 - d))) with d by lia.
Qed.

(** Keys are ordered as their bits. *)
Lemma blt_wf_key a b : wf_key a → wf_key b → blt (kbits Key.s_Bits a) (kbits Key.s_Bits b) = true ↔ ⟦a⟧ < ⟦b⟧.
Proof.
  intros Ha Hb. split.
  - destruct Ha as (La & Ba & _), Hb as (Lb & Bb & _). apply blt_kbits; [done|done|congruence|]. rewrite La. vm_compute. lia.
  - intros Hlt. destruct (common_bits a b Ha Hb Hlt) as (_ & c & _ & Hc & _ & Ht & H0 & H1).
    rewrite <- (take_drop_middle (kbits Key.s_Bits a) c false), <- (take_drop_middle (kbits Key.s_Bits b) c true), Ht; [apply blt_fork| |].
    all: rewrite kbits_lookup by done; congruence.
Qed.
