(* ===== verification/UtxoCompact.v ===== *)
(** * core/radixtree: the compact tree builder

    [UtxoTree::Compact] keeps the right spine of the tree only: a stack of subtree hashes,
    each with the number of leading bits it shares with the one before.  It computes the
    root hash of the keys added, as the tree does. *)

From stdpp Require Import base list numbers option gmap sorting.
From S2P Require Import Prelude UintBig Merkle RadixTree RadixTreeSpec RadixHash UtxoTree UtxoTreeSpec.
Import UtxoTree Compact.

Section compact.

Context {Hash : Type} `{Hasher Hash} (get_Hash : list Z → Z → Hash) (uninit : Hash).

Notation elem := (list bool * Hash)%type.
Notation N := Key.s_Bits.

Lemma under_drop (q : list bool) (E : list elem) : (∀ e, e ∈ E → take (length q) e.1 = q) →
  E = under q ((λ e, (drop (length q) e.1, e.2)) <$> E).
Proof.
  intros HE. unfold under. rewrite <- list_fmap_compose. symmetry. rewrite <- (list_fmap_id E) at 2.
  apply list_fmap_ext. intros i [k h] Hi. cbn. apply list_elem_of_lookup_2 in Hi. specialize (HE _ Hi). cbn in HE.
  f_equal. rewrite <- HE at 1. apply take_drop.
Qed.

(** Two sets of keys that part at bit [c]. *)
Lemma chash_join f (p : list bool) (A B : list elem) : length p < f → A ≠ [] → B ≠ [] →
  (∀ e, e ∈ A → take (S (length p)) e.1 = p ++ [false]) →
  (∀ e, e ∈ B → take (S (length p)) e.1 = p ++ [true]) →
  chash f (A ++ B) = combine (chash f A) (chash f B).
Proof.
  intros Hf HA HB TA TB.
  assert (Hl : ∀ b, length (p ++ [b]) = S (length p)) by (intros; rewrite length_app; cbn; lia).
  rewrite (under_drop (p ++ [false]) A), (under_drop (p ++ [true]) B) by (by rewrite Hl).
  rewrite !Hl. set (A' := _ <$> A). set (B' := _ <$> B).
  assert (A' ≠ []) by (by intros ?%fmap_nil_inv). assert (B' ≠ []) by (by intros ?%fmap_nil_inv).
  rewrite <- !(under_under p), <- under_app.
  replace f with (length p + S (f - S (length p))) by lia.
  assert (under [false] A' ≠ []) by (by intros ?%fmap_nil_inv).
  assert (under [true] B' ≠ []) by (by intros ?%fmap_nil_inv).
  rewrite !chash_under by (done || by intros [? _]%app_eq_nil).
  rewrite chash_fork, !chash_cons by done. done.
Qed.

(** ** The stack

    From the back: the set of keys of each node shares with the last key [K] the bits up
    to where the next node parts from it. *)
Fixpoint stk (K : list bool) (d : nat) (ns : list (Node (Hash := Hash))) (Es : list (list elem)) : Prop :=
  match ns, Es with
  | n :: ns, E :: Es =>
    E ≠ [] ∧ m_Hash n = chash N E ∧ (∀ e, e ∈ E → take d e.1 = take d K) ∧
    match ns, Es with
    | [], [] => True
    | _ :: _, E0 :: _ => ∃ c : nat, m_nBitsCommon n = Z.of_nat c ∧ c < d ∧ K !! c = Some true ∧
        (∀ e, e ∈ E0 → e.1 !! c = Some false) ∧ stk K c ns Es
    | _, _ => False
    end
  | _, _ => False
  end.

Lemma take_S_lookup (l K : list bool) c b : take c l = take c K → l !! c = Some b → take (S c) l = take c K ++ [b].
Proof. intros <- Hb. by apply take_S_r. Qed.

Lemma take_le (l K : list bool) c d : take d l = take d K → c ≤ d → take c l = take c K.
Proof. intros E Hc. rewrite <- (Nat.min_l c d), <- !take_take, E by done. done. Qed.

Lemma take_lookup_eq (l K : list bool) c d : take d l = take d K → c < d → l !! c = K !! c.
Proof. intros E Hc. rewrite <- (lookup_take_lt l d c), E, lookup_take_lt by done. done. Qed.

(** Merging the two last nodes. *)
Lemma stk_merge K d n n0 ns E Es : length K = N → stk K d (n :: n0 :: ns) (E :: Es) →
  ∃ E0 Es' c, Es = E0 :: Es' ∧ m_nBitsCommon n = Z.of_nat c ∧ K !! c = Some true ∧
    stk K c (mkNode (combine (m_Hash n0) (m_Hash n)) (m_nBitsCommon n0) :: ns) ((E0 ++ E) :: Es').
Proof.
  intros HK (HE & Hh & Ht & Hs). destruct Es as [|E0 Es']; [done|]. destruct Hs as (c & Hc & Hcd & HKc & HE0 & Hs).
  exists E0, Es', c. do 3 (split; [done|]). cbn [stk] in *. destruct Hs as (HE0' & Hh0 & Ht0 & Hs).
  split; [by intros [? _]%app_eq_nil|]. cbn [m_Hash m_nBitsCommon].
  pose proof (lookup_lt_Some _ _ _ HKc) as HcN. rewrite HK in HcN. split_and!; [| |done].
  - rewrite Hh, Hh0. symmetry. assert (length (take c K) = c) as El by (rewrite length_take; lia).
    apply (chash_join N (take c K)); rewrite ?El; [done..| |].
    + intros e He. by apply take_S_lookup; [apply Ht0|apply HE0].
    + intros e He. apply take_S_lookup; [by apply (take_le _ _ c d); [apply Ht|lia]|].
      rewrite (take_lookup_eq _ K c d); [done|by apply Ht|done].
  - intros e [He|He]%elem_of_app; [by apply Ht0|]. apply (take_le _ _ c d); [by apply Ht|lia].
Qed.

Lemma FlushLoop_spec K n ns cn d E Es : length K = N → stk K d (n :: ns) (E :: Es) →
  ∃ n' ns' d' E' Es', FlushLoop n ns (Z.of_nat cn) = n' :: ns' ∧ stk K d' (n' :: ns') (E' :: Es') ∧
    concat (rev (E' :: Es')) = concat (rev (E :: Es)) ∧
    (ns' = [] ∨ (m_nBitsCommon n' < Z.of_nat cn)%Z) ∧ (K !! cn = Some false → cn < d → cn < d').
Proof.
  intros HK. revert n d E Es. induction ns as [|n0 ns IH]; intros n d E Es Hs; cbn [FlushLoop].
  - exists n, [], d, E, Es. split_and!; auto.
  - destruct (Z.ltb_spec (m_nBitsCommon n) (Z.of_nat cn)) as [Hlt|Hge].
    + exists n, (n0 :: ns), d, E, Es. split_and!; auto.
    + destruct (stk_merge _ _ _ _ _ _ _ HK Hs) as (E0 & Es0 & c & -> & Hc & HKc & Hs').
      destruct (IH _ _ _ _ Hs') as (n' & ns' & d' & E' & Es' & -> & Hs'' & Hcat & Hstop & Hd).
      exists n', ns', d', E', Es'. split_and!; [done|done| |done|].
      * rewrite Hcat. cbn. rewrite !concat_app. cbn. by rewrite !app_nil_r, <- app_assoc.
      * intros HKn Hcd. apply Hd; [done|]. destruct (decide (cn = c)) as [->|]; [congruence|lia].
Qed.

(** The stack depends on the first [d] bits of the last key. *)
Lemma stk_key K K' d ns Es : take d K = take d K' → stk K d ns Es → stk K' d ns Es.
Proof.
  revert d Es. induction ns as [|n ns IH]; intros d [|E Es] HK; try done. cbn [stk].
  intros (HE & Hh & Ht & Hs). rewrite <- HK. do 3 (split; [done|]).
  destruct ns as [|n0 ns], Es as [|E0 Es]; try done.
  destruct Hs as (c & Hc & Hcd & HKc & HE0 & Hs). exists c. split_and!; [done..| |done|].
  - rewrite <- HKc. symmetry. by apply (take_lookup_eq _ _ c d).
  - apply IH; [|done]. apply (take_le _ _ c d); [done|lia].
Qed.

Lemma stk_weaken K d cn n ns Es : cn ≤ d → (ns = [] ∨ (m_nBitsCommon n < Z.of_nat cn)%Z) →
  stk K d (n :: ns) Es → stk K cn (n :: ns) Es.
Proof.
  intros Hcd Hstop. destruct Es as [|E Es]; [done|]. cbn [stk]. intros (HE & Hh & Ht & Hs). do 2 (split; [done|]). split.
  - intros e He. apply (take_le _ _ cn d); [by apply Ht|lia].
  - destruct ns as [|n0 ns], Es as [|E0 Es]; try done. destruct Hstop as [|Hstop]; [done|].
    destruct Hs as (c & Hc & Hs). exists c. rewrite Hc in Hstop. split; [done|]. split; [lia|]. apply Hs.
Qed.

(** ** Adding keys *)

Definition celem (e : list Z * Z) : elem := (kbits N e.1, get_Hash e.1 e.2).

(** The builder after the keys of [G], then [cnt] times [k]. *)
Definition holds (G : list (list Z * Z)) (k : list Z) (cnt : Z) (c : t (Hash := Hash)) : Prop :=
  m_LastKey c = k ∧ m_LastCount c = cnt ∧ (0 < cnt < 2 ^ 32)%Z ∧ wf_key k ∧
  ∃ n ns Es, m_vNodes c = n :: ns ∧ concat (rev Es) = celem <$> G ∧
    stk (kbits N k) N (mkNode (get_Hash k cnt) (m_nBitsCommon n) :: ns) ([celem (k, cnt)] :: Es).

Lemma chash_one f (e : elem) : chash f [e] = e.2.
Proof. by destruct f. Qed.

Lemma stk_single h b k cnt : h = get_Hash k cnt → stk (kbits N k) N [mkNode h b] [[celem (k, cnt)]].
Proof.
  intros ->. cbn [stk]. rewrite chash_one. split_and!; [done|done|intros e ->%list_elem_of_singleton; done|done].
Qed.

Lemma Add_first key c : wf_key key → m_vNodes c = [] →
  ∃ c', Add get_Hash uninit c key = Some (true, c') ∧ holds [] key 1 c'.
Proof.
  intros Hk Hn. unfold Add, push. rewrite Hn. cbn. eexists. split; [done|]. do 4 (split; [done|]).
  eexists _, [], []. split; [done|]. split; [done|]. by apply stk_single.
Qed.

Lemma Cmp_keys a b : wf_key a → wf_key b →
  uintBigImpl._Cmp a b = (if ⟦a⟧ <? ⟦b⟧ then -1 else if ⟦b⟧ <? ⟦a⟧ then 1 else 0)%Z.
Proof. intros (_ & Ha & _) (_ & Hb & _). by apply uintBigImpl._Cmp_spec. Qed.

(** A repeated key is counted. *)
Lemma Add_same G k cnt c : holds G k cnt c → (cnt + 1 < 2 ^ 32)%Z →
  ∃ c', Add get_Hash uninit c k = Some (true, c') ∧ holds G k (cnt + 1) c'.
Proof.
  intros (EK & Ec & Hcnt & Hk & n & ns & Es & En & EG & Hs) Hc. unfold Add. rewrite En, EK, Ec. cbn [length Nat.eqb negb].
  rewrite Cmp_keys by done. destruct (Z.ltb_spec ⟦k⟧ ⟦k⟧); [lia|]. cbn [Z.ltb Z.eqb Z.compare].
  rewrite u32_small by lia. destruct (Z.eqb_spec (cnt + 1) 0); [lia|]. eexists; split; [done|].
  split_and!; [done..|lia|lia|done|]. exists n, ns, Es. split; [done|]. split; [done|].
  cbn [stk] in Hs |- *. destruct Hs as (_ & _ & _ & Hs). split_and!; [done|by rewrite chash_one| |done].
  intros e ->%list_elem_of_singleton. done.
Qed.

(** The leaf becomes a node. *)
Lemma FlushInternal_spec G k cnt c cn : holds G k cnt c →
  ∃ c' n' ns' d' E' Es', FlushInternal get_Hash c (Z.of_nat cn) = Some c' ∧ m_vNodes c' = n' :: ns' ∧
    stk (kbits N k) d' (n' :: ns') (E' :: Es') ∧ concat (rev (E' :: Es')) = celem <$> (G ++ [(k, cnt)]) ∧
    (ns' = [] ∨ (m_nBitsCommon n' < Z.of_nat cn)%Z) ∧ (kbits N k !! cn = Some false → cn < N → cn < d').
Proof.
  intros (EK & Ec & Hcnt & Hk & n & ns & Es & En & EG & Hs). unfold FlushInternal. rewrite En, EK, Ec.
  destruct (Z.eqb_spec cnt 0); [lia|]. cbn [negb].
  destruct (FlushLoop_spec _ _ _ cn _ _ _ (kbits_length N k) Hs) as (n' & ns' & d' & E' & Es' & Ef & Hs' & Hcat & Hstop & Hd).
  rewrite Ef. eexists _, n', ns', d', E', Es'. do 2 (split; [done|]). split; [done|]. split; [|done].
  rewrite Hcat. cbn. by rewrite concat_app, EG, fmap_app.
Qed.

(** A higher key starts a new leaf. *)
Lemma Add_next G k cnt c key : holds G k cnt c → wf_key key → (⟦k⟧ < ⟦key⟧)%Z →
  ∃ c', Add get_Hash uninit c key = Some (true, c') ∧ holds (G ++ [(k, cnt)]) key 1 c'.
Proof.
  intros Hh Hkey Hlt. pose proof Hh as (EK & _ & _ & Hk & n & ns & Es & En & _). unfold Add. rewrite En, EK.
  cbn [length Nat.eqb negb]. rewrite Cmp_keys by done. destruct (Z.ltb_spec ⟦k⟧ ⟦key⟧); [|lia]. cbn [Z.ltb Z.eqb Z.compare].
  destruct (common_bits k key Hk Hkey Hlt) as (x & cn & -> & Hcn & Ecn & Htk & B0 & B1). cbn [mbind option_bind].
  rewrite Ecn. destruct (FlushInternal_spec _ _ _ _ cn Hh) as (c' & n' & ns' & d' & E' & Es' & -> & En' & Hs & Hcat & Hstop & Hd).
  cbn [mbind option_bind]. eexists; split; [done|]. do 2 (split; [done|]). split; [lia|]. split; [done|].
  assert (Hd' : cn < d') by (apply Hd; [|done]; by rewrite kbits_lookup, B0).
  exists (mkNode uninit (Z.of_nat cn)), (n' :: ns'), (E' :: Es'). split; [by cbn; rewrite En'|]. split; [done|].
  cbn [stk]. split; [done|]. split; [by rewrite chash_one|]. split; [by intros e ->%list_elem_of_singleton|].
  exists cn. split; [done|]. split; [done|]. split; [by rewrite kbits_lookup, B1|]. split.
  - cbn [stk] in Hs. destruct Hs as (_ & _ & Ht & _). intros e He.
    rewrite (take_lookup_eq _ (kbits N k) cn d'), kbits_lookup, B0; [done|done|by apply Ht|done].
  - apply (stk_key (kbits N k) (kbits N key) cn (n' :: ns') (E' :: Es')); [done|]. by apply (stk_weaken _ d'); [lia|..].
Qed.

Lemma Flush_spec G k cnt c : holds G k cnt c → Flush get_Hash c = Some (chash N (celem <$> (G ++ [(k, cnt)]))).
Proof.
  intros Hh. pose proof Hh as (_ & _ & _ & _ & n & ns & Es & En & _). unfold Flush. rewrite En.
  change 0%Z with (Z.of_nat 0). destruct (FlushInternal_spec _ _ _ _ 0 Hh) as (c' & n' & ns' & d' & E' & Es' & -> & En' & Hs & Hcat & Hstop & Hd).
  cbn [mbind option_bind]. rewrite En', <- Hcat. cbn [stk] in Hs. destruct Hs as (_ & Eh & _ & Hs).
  destruct ns' as [|n0 ns'].
  - destruct Es'; [|done]. cbn [last mbind option_bind rev concat app]. by rewrite Eh, app_nil_r.
  - destruct Hstop as [|Hstop]; [done|]. destruct Es'; [done|]. destruct Hs as (cc & Hc & _). lia.
Qed.

(** Adding keys until one is refused. *)
Fixpoint AddAll (c : t (Hash := Hash)) (keys : list (list Z)) : option (bool * t (Hash := Hash)) :=
  match keys with
  | [] => Some (true, c)
  | k :: keys => '(ok, c) ← Add get_Hash uninit c k; if ok : bool then AddAll c keys else Some (false, c)
  end.

(** Every key as many times as its count. *)
Definition expand (G : list (list Z * Z)) : list (list Z) :=
  concat ((λ e, replicate (Z.to_nat e.2) e.1) <$> G).

Definition group_ok (e : list Z * Z) : Prop := wf_key e.1 ∧ (0 < e.2 < 2 ^ 32)%Z.
Definition ascending : list (list Z * Z) → Prop := StronglySorted (λ a b, (⟦a.1⟧ < ⟦b.1⟧)%Z).

Lemma AddAll_app c ks ks' c1 : AddAll c ks = Some (true, c1) → AddAll c (ks ++ ks') = AddAll c1 ks'.
Proof.
  revert c. induction ks as [|k ks IH]; intros c; cbn; [by intros [= ->]|].
  destruct (Add get_Hash uninit c k) as [[[] c2]|]; try done. apply IH.
Qed.

Lemma AddAll_same G k cnt c (n : nat) : holds G k cnt c → (cnt + Z.of_nat n < 2 ^ 32)%Z →
  ∃ c', AddAll c (replicate n k) = Some (true, c') ∧ holds G k (cnt + Z.of_nat n) c'.
Proof.
  revert c cnt. induction n as [|n IH]; intros c cnt Hc Hn; cbn [replicate AddAll].
  - exists c. by rewrite Z.add_0_r.
  - destruct (Add_same G k cnt c Hc) as (c1 & -> & H1); [lia|]. cbn [mbind option_bind].
    destruct (IH c1 _ H1) as (c' & -> & H'); [lia|]. exists c'. split; [done|]. by replace (cnt + Z.of_nat (S n))%Z with (cnt + 1 + Z.of_nat n)%Z by lia.
Qed.

(** The first of the equal keys, then the others. *)
Lemma AddAll_group G' k cnt c : (0 < cnt < 2 ^ 32)%Z →
  (∃ c1, Add get_Hash uninit c k = Some (true, c1) ∧ holds G' k 1 c1) →
  ∃ c', AddAll c (replicate (Z.to_nat cnt) k) = Some (true, c') ∧ holds G' k cnt c'.
Proof.
  intros Hcnt (c1 & E1 & H1). replace (Z.to_nat cnt) with (S (Z.to_nat (cnt - 1))) by lia.
  cbn [replicate AddAll]. rewrite E1. cbn [mbind option_bind].
  destruct (AddAll_same G' k 1 c1 (Z.to_nat (cnt - 1)) H1) as (c' & -> & H'); [lia|].
  exists c'. split; [done|]. by replace (1 + Z.of_nat (Z.to_nat (cnt - 1)))%Z with cnt in H' by lia.
Qed.

Lemma AddAll_next G k cnt c G2 : holds G k cnt c → Forall group_ok G2 → ascending ((k, cnt) :: G2) →
  ∃ c' G' k' cnt', AddAll c (expand G2) = Some (true, c') ∧ holds G' k' cnt' c' ∧
    G' ++ [(k', cnt')] = G ++ (k, cnt) :: G2.
Proof.
  revert G k cnt c. induction G2 as [|[k2 cnt2] G2 IH]; intros G k cnt c Hc Hok Has.
  - by exists c, G, k, cnt.
  - apply Forall_cons in Hok as [[Hw Hcnt] Hok]. apply StronglySorted_inv in Has as [Has Hlt].
    apply Forall_cons in Hlt as [Hlt _]. cbn in Hw, Hcnt, Hlt.
    destruct (AddAll_group (G ++ [(k, cnt)]) k2 cnt2 c Hcnt) as (c1 & E1 & H1); [by apply Add_next|].
    destruct (IH _ _ _ _ H1 Hok Has) as (c' & G' & k' & cnt' & E' & H' & EG).
    exists c', G', k', cnt'. split; [|split; [done|by rewrite EG, <- app_assoc]].
    change (expand ((k2, cnt2) :: G2)) with (replicate (Z.to_nat cnt2) k2 ++ expand G2). by rewrite (AddAll_app _ _ _ _ E1).
Qed.

(** The hash of the keys with their counts. *)
Lemma Compact_spec G k0 n0 : Forall group_ok G → ascending G →
  ∃ c, AddAll (mk [] k0 n0) (expand G) = Some (true, c) ∧ Flush get_Hash c = Some (chash N (celem <$> G)).
Proof.
  intros Hok Has. destruct G as [|[k cnt] G]; [by eexists|]. apply Forall_cons in Hok as [[Hw Hcnt] Hok]. cbn in Hw, Hcnt.
  destruct (AddAll_group [] k cnt (mk [] k0 n0) Hcnt) as (c1 & E1 & H1); [by apply Add_first|].
  destruct (AddAll_next _ _ _ _ _ H1 Hok Has) as (c' & G' & k' & cnt' & E' & H' & EG).
  exists c'. change (expand ((k, cnt) :: G)) with (replicate (Z.to_nat cnt) k ++ expand G).
  rewrite (AddAll_app _ _ _ _ E1), E'. split; [done|]. rewrite (Flush_spec _ _ _ _ H'), EG. done.
Qed.

(** A key below the last one is refused. *)
Lemma Add_refused G k cnt c key : holds G k cnt c → wf_key key → (⟦key⟧ < ⟦k⟧)%Z →
  Add get_Hash uninit c key = Some (false, c).
Proof.
  intros (EK & _ & _ & Hk & n & ns & Es & En & _) Hkey Hlt. unfold Add. rewrite En, EK. cbn [length Nat.eqb negb].
  rewrite Cmp_keys by done. destruct (Z.ltb_spec ⟦k⟧ ⟦key⟧); [lia|]. destruct (Z.ltb_spec ⟦key⟧ ⟦k⟧); [done|lia].
Qed.

End compact.
