(* ===== verification/UtxoSerial.v ===== *)
(** * core/radixtree: IDs and serialization of the UTXO tree

    The stack of IDs behind a leaf, the archive format ([SaveIntenral], [LoadIntenral]) and
    the test for a duplicated commitment. *)

From stdpp Require Import base list numbers option gmap sorting.
From S2P Require Import Prelude UintBig Merkle RadixTree RadixTreeSpec RadixHash RadixMap RadixTraverse UtxoTree UtxoTreeSpec.
Local Open Scope Z_scope.
Import RadixTree UtxoTree.

(** ** IDs *)

(** The IDs of a leaf, from the last one pushed. *)
Definition ids (x : IDs) : list Z := match x with OneID v => [v] | Queue l _ => l end.

(** A queue holds at least two IDs, and counts them. *)
Definition ids_ok (x : IDs) : Prop :=
  match x with OneID _ => True | Queue l c => (2 ≤ length l)%nat ∧ c = #l ∧ #l < 2 ^ 32 end.

Lemma get_Count_ids x : ids_ok x → get_Count x = #(ids x).
Proof. destruct x; cbn; [done|]. by intros (_ & -> & _). Qed.

Lemma ids_inj x y : ids_ok x → ids_ok y → ids x = ids y → x = y.
Proof.
  destruct x as [v|l c], y as [v'|l' c']; cbn.
  - intros _ _ [= ->]. done.
  - intros _ (Hl & _) <-. cbn in Hl. lia.
  - intros (Hl & _) _ ->. cbn in Hl. lia.
  - intros (_ & -> & _) (_ & -> & _) ->. done.
Qed.

Lemma PushID_ids id x : ids_ok x → #(ids x) + 1 < 2 ^ 32 → ids_ok (PushID id x) ∧ ids (PushID id x) = id :: ids x.
Proof.
  destruct x as [v|l c]; cbn; [done|]. intros (Hl & -> & Hc) Hn. split; [|done]. rewrite u32_small by lia.
  cbn [length]. split_and!; lia.
Qed.

Lemma PopID_ids x id rest : ids_ok x → ids x = id :: rest → rest ≠ [] →
  ∃ x', PopID x = Some (id, x') ∧ ids_ok x' ∧ ids x' = rest.
Proof.
  destruct x as [v|l c]; cbn [ids ids_ok PopID]; [by intros _ [= _ <-]|]. intros (Hl & -> & Hc) -> Hr.
  unfold PopIDRaw. cbn [length fst snd mbind option_bind] in *. rewrite u32_small by lia. destruct (Z.eqb_spec (Z.of_nat (S (length rest)) - 1) 1) as [E|E].
  - destruct rest as [|v [|? ?]]; cbn [length] in *; [done| |lia]. by eexists.
  - eexists; split; [done|]. split; [|done]. cbn. destruct rest as [|? [|? ?]]; cbn [length] in *; [done|lia|lia].
Qed.

(** Pushing and popping undo each other. *)
Lemma PopID_PushID id x : ids_ok x → #(ids x) + 1 < 2 ^ 32 →
  PopID (PushID id x) = Some (id, x) ∧ get_Count (PushID id x) = get_Count x + 1.
Proof.
  intros Hx Hn. destruct (PushID_ids id x Hx Hn) as [Hp Ep]. split.
  - destruct (PopID_ids _ _ _ Hp Ep) as (x' & -> & Hx' & Ei).
    + destruct x as [v|l c]; [done|]. destruct Hx as (Hl & _). by destruct l; cbn in *; [lia|].
    + do 2 f_equal. by apply ids_inj.
  - rewrite !get_Count_ids, Ep by done. cbn [length]. lia.
Qed.

Lemma PushID_PopID x : ids_ok x → IsExt x = true → ∃ id x', PopID x = Some (id, x') ∧ ids_ok x' ∧ #(ids x') + 1 < 2 ^ 32 ∧ PushID id x' = x.
Proof.
  intros Hx He. destruct x as [|l c]; [done|]. pose proof Hx as (Hl & Hc & Hn). destruct l as [|id rest] eqn:El; [cbn in Hl; lia|].
  destruct (PopID_ids (Queue (id :: rest) c) id rest Hx eq_refl) as (x' & E & Hx' & Ei); [by intros ->; cbn in Hl; lia|].
  assert (Hr : #(ids x') + 1 < 2 ^ 32) by (rewrite Ei; cbn [length] in Hn; lia). exists id, x'. split_and!; try done.
  destruct (PushID_ids id x' Hx' Hr) as [Hp Ep]. apply ids_inj; [done..|]. by rewrite Ep, Ei.
Qed.

(** [DeleteLeaf] ends with no queue left. *)
Lemma DeleteLeaf_ids x : ids_ok x → ∃ v, DeleteLeaf (length (ids x)) x = Some (OneID v).
Proof.
  assert (Hg : ∀ l x, ids x = l → ids_ok x → ∃ v, DeleteLeaf (length l) x = Some (OneID v)); [|by apply Hg].
  clear x. intros l. induction l as [|id l IH]; intros x El Hx.
  { destruct x; cbn in *; [done|]. destruct Hx as (Hl & _). subst. cbn in Hl. lia. }
  cbn [length DeleteLeaf]. destruct x as [v|l' c]; cbn [IsExt]; [by exists v|].
  destruct (PopID_ids _ id l Hx El) as (x' & -> & Hx' & El'); [intros ->; cbn in *; subst; cbn in Hx; lia|].
  cbn [mbind option_bind]. by apply IH.
Qed.

(** ** Saving *)

Section serial.

Context {Hash : Type} `{Hasher Hash} (uninit : Hash) (junk : Z).
Variable get_LeafHash : Leaf IDs → Hash.

Notation tree := (tree IDs Hash).
Notation represents := (represents get_LeafHash Key.s_Bits).

Lemma s_Bits_pos : (0 < Key.s_Bits)%nat.
Proof. unfold Key.s_Bits. lia. Qed.

Lemma visit_save lv (E : list (list bool * addr)) s :
  (∀ a, a ∈ E.*2 → is_Some (lv !! a)) →
  visit (λ s a, (true, s ++ match lv !! a with Some lf => save_leaf lf | None => [] end)) E.*2 s
  = (true, s ++ concat (save_leaf <$> (leaves_of lv E).*2)).
Proof.
  revert s. induction E as [|[k a] E IH]; intros s Hx; [by rewrite app_nil_r|].
  destruct (Hx a) as [lf Hl]; [left|]. rewrite (leaves_of_cons _ _ _ _ _ Hl). cbn. rewrite Hl, IH by (intros; apply Hx; by right).
  by rewrite <- app_assoc.
Qed.

Lemma Save_leaves (t : tree) E : tree_ok Key.s_Bits t E → Z.of_nat (length E) < 2 ^ 32 →
  SaveIntenral t = Some (T32 (Z.of_nat (length E)) :: concat (save_leaf <$> (leaves_of (rt_Leaves t) E).*2)).
Proof.
  intros Ht Hn. unfold SaveIntenral. rewrite (Count_length _ _ _ Ht). cbn [mbind option_bind].
  rewrite (Traverse_visits Key.s_Bits _ t E) by (done || by intros b [?|?]).
  rewrite within_all, visit_save by (intros; by eapply tree_ok_leaf). cbn [mbind option_bind].
  by rewrite u32_small by lia.
Qed.

(** ** Loading *)

Lemma LoadIDs_ids l s x : ids_ok x → #(ids x) + #l < 2 ^ 32 →
  ∃ x', LoadIDs ((T64 <$> l) ++ s) (1 + #l) x = inr (x', s) ∧ ids_ok x' ∧ ids x' = rev l ++ ids x.
Proof.
  revert x. induction l as [|v l IH]; intros x Hx Hn; cbn [fmap list_fmap app length].
  - exists x. split; [|done]. by destruct s.
  - destruct (PushID_ids v x Hx) as [Hp Ep]; [cbn [length] in Hn; lia|].
    destruct (IH (PushID v x) Hp) as (x' & E' & Hx' & Ei); [rewrite Ep; cbn [length] in *; lia|].
    exists x'. split; [|split; [done|by rewrite Ei, Ep; cbn; rewrite <- app_assoc]].
    rewrite <- E'. cbn [LoadIDs length] in *. replace (1 + Z.of_nat (S (length l)) - 1) with (1 + #l) by lia.
    rewrite u32_small by lia. destruct (Z.eqb_spec (1 + #l) 0); [lia|done].
Qed.

(** What loading makes of the IDs of a leaf: their order is reversed. *)
Definition rev_IDs (x : IDs) : IDs := match x with OneID v => OneID v | Queue l c => Queue (rev l) c end.
Definition rev_leaf (lf : Leaf IDs) : Leaf IDs := mkLeaf (lf_Key lf) (rev_IDs (lf_Data lf)).

Lemma rev_IDs_ok x : ids_ok x → ids_ok (rev_IDs x) ∧ ids (rev_IDs x) = rev (ids x).
Proof. destruct x as [v|l c]; cbn; [done|]. by rewrite length_rev. Qed.

Definition leaf_ok (lf : Leaf IDs) : Prop := length (lf_Key lf) = Key.s_Bytes ∧ bytes (lf_Key lf) ∧ ids_ok (lf_Data lf).

Lemma save_leaf_ids lf : ids_ok (lf_Data lf) →
  save_leaf lf = TKey (lf_Key lf) :: T32 #(ids (lf_Data lf)) :: (T64 <$> ids (lf_Data lf)).
Proof. intros Hx. unfold save_leaf. rewrite (get_Count_ids _ Hx). by destruct (lf_Data lf). Qed.

Lemma LoadLeaf_saved t m lf s : represents t m → leaf_ok lf → m !! kbits Key.s_Bits (lf_Key lf) = None →
  ∃ t', LoadLeaf uninit junk t (lf_Key lf) (T32 #(ids (lf_Data lf)) :: (T64 <$> ids (lf_Data lf)) ++ s) = Some (inr (t', s)) ∧
    represents t' (<[kbits Key.s_Bits (lf_Key lf) := rev_leaf lf]> m).
Proof.
  intros Ht (Hlen & Hb & Hx) Hno. unfold LoadLeaf.
  destruct (Create_spec (OneID junk) uninit get_LeafHash Key.s_Bits s_Bits_pos t m (lf_Key lf) (rev_IDs (lf_Data lf)) Ht)
    as (t1 & cu & a & -> & Ht1); [unfold key_ok; rewrite Hlen; vm_compute; lia|done|].
  cbn [mbind option_bind negb]. rewrite (take_ge (lf_Key lf)) in Ht1 by (by rewrite Hlen).
  destruct (ids (lf_Data lf)) as [|v l] eqn:Ei.
  { destruct (lf_Data lf); [done|]. cbn in *. destruct Hx as (Hx & _). subst. cbn in Hx. lia. }
  assert (Hn : #(v :: l) < 2 ^ 32) by (rewrite <- Ei; destruct (lf_Data lf); [done|]; by destruct Hx as (_ & _ & ?)).
  rewrite fmap_cons. cbn [app]. destruct (LoadIDs_ids l s (OneID v)) as (x' & E' & Hx' & Ex'); [done|cbn [length ids] in *; lia|].
  cbn [length]. replace (Z.of_nat (S (length l))) with (1 + #l) by lia. rewrite E'.
  destruct (rev_IDs_ok _ Hx) as [Hr Er]. assert (x' = rev_IDs (lf_Data lf)) as ->; [|eauto].
  apply ids_inj; [done..|]. by rewrite Ex', Er, Ei.
Qed.

(** The leaves one by one, in the order they were saved. *)
Definition load_map (m : gmap (list bool) (Leaf IDs)) (L : list (list bool * Leaf IDs)) : gmap (list bool) (Leaf IDs) :=
  foldl (λ m e, <[e.1 := rev_leaf e.2]> m) m L.

Definition sorted_leaves (L : list (list bool * Leaf IDs)) : Prop :=
  Forall (λ e, leaf_ok e.2 ∧ kbits Key.s_Bits (lf_Key e.2) = e.1) L ∧ StronglySorted (λ x y, blt x y = true) L.*1.

Lemma LoadLoop_saved L kp t m s : represents t m → sorted_leaves L → (∀ k, k ∈ L.*1 → m !! k = None) →
  (∀ p, kp = Some p → length p = Key.s_Bytes ∧ bytes p ∧ ∀ k, k ∈ L.*1 → blt (kbits Key.s_Bits p) k = true) →
  ∃ t', LoadLoop uninit junk (length L) kp t (concat (save_leaf <$> L.*2) ++ s) = Some (inr (t', s)) ∧
    represents t' (load_map m L).
Proof.
  revert kp t m. induction L as [|[k lf] L IH]; intros kp t m Ht [Hok Hs] Hno Hkp; [by exists t|].
  apply Forall_cons in Hok as [[Hlf Ek] Hok]. change (leaf_ok lf) in Hlf. change (kbits Key.s_Bits (lf_Key lf) = k) in Ek. apply StronglySorted_inv in Hs as [Hs Hlt].
  cbn [length LoadLoop fmap list_fmap concat]. pose proof Hlf as (Hlen & Hb & Hx).
  cbn [snd]. rewrite (save_leaf_ids lf Hx). cbn [app].
  assert (match kp with Some p => 0 <=? uintBigImpl._Cmp p (lf_Key lf) | None => false end = false) as ->.
  { destruct kp as [p|]; [|done]. destruct (Hkp p eq_refl) as (Lp & Bp & Hp). rewrite uintBigImpl._Cmp_spec by done.
    assert (⟦p⟧ < ⟦lf_Key lf⟧); [|by destruct (Z.ltb_spec ⟦p⟧ ⟦lf_Key lf⟧); [|lia]].
    apply (blt_kbits Key.s_Bits); [done..|lia|rewrite Lp; vm_compute; lia|]. rewrite Ek. apply Hp. left. }
  rewrite <- app_assoc.
  destruct (LoadLeaf_saved t m lf (concat (save_leaf <$> L.*2) ++ s) Ht Hlf) as (t1 & -> & Ht1).
  { rewrite Ek. apply Hno. left. }
  cbn [mbind option_bind]. rewrite Ek in Ht1. apply IH; [done|by split| |].
  - intros k' Hk'. rewrite Forall_forall in Hlt. specialize (Hlt k' Hk'). rewrite lookup_insert_ne; [apply Hno; by right|].
    change (k ≠ k'). intros ->. by rewrite blt_irrefl in Hlt.
  - intros p [= <-]. split_and!; [done..|]. intros k' Hk'. rewrite Ek. rewrite Forall_forall in Hlt. by apply Hlt.
Qed.

Lemma load_map_union m0 L : NoDup L.*1 → load_map m0 L = (rev_leaf <$> list_to_map L) ∪ m0.
Proof.
  unfold load_map. revert m0. induction L as [|[k lf] L IH]; intros m0 Hnd; cbn [foldl].
  - change (list_to_map []) with (∅ : gmap (list bool) (Leaf IDs)). by rewrite fmap_empty, map_empty_union.
  - cbn [fmap list_fmap] in Hnd. apply NoDup_cons in Hnd as [Hk Hnd]. rewrite IH by done. cbn [list_to_map foldr].
    rewrite <- insert_union_r by (rewrite lookup_fmap, not_elem_of_list_to_map_1 by done; done).
    by rewrite insert_union_l, <- fmap_insert.
Qed.

(** The leaves of a tree are saved in ascending order. *)
Lemma sorted_leaves_of (t : tree) E : tree_ok Key.s_Bits t E →
  (∀ k lf, (k, lf) ∈ leaves_of (rt_Leaves t) E → leaf_ok lf) → sorted_leaves (leaves_of (rt_Leaves t) E).
Proof.
  intros Ht Hok. assert (E1 : (leaves_of (rt_Leaves t) E).*1 = E.*1)
    by (apply leaves_of_fst; intros; by eapply tree_ok_leaf).
  destruct Ht as (Hnd & Hdom & Hroot). split.
  - apply Forall_forall. intros [k lf] He. split; [by eapply Hok|]. apply elem_leaves_of in He as (a & Ha & Hl).
    destruct (rt_Root t); [|by subst E; apply elem_of_nil in Ha]. destruct Hroot as (lt & Hr & ->).
    destruct (rel_elem _ _ _ _ _ _ Hr Ha) as (lf' & Hl' & _ & Ek). cbn [fst snd] in *. by simplify_eq.
  - rewrite E1. destruct (rt_Root t); [|subst; constructor]. destruct Hroot as (lt & _ & ->). apply lelems_sorted.
Qed.

(** An archive loads to the same leaves, with the IDs of each in the reverse order. *)
Lemma Load_Save t m t0 : represents t m → (∀ k lf, m !! k = Some lf → leaf_ok lf) → Z.of_nat (size m) < 2 ^ 32 →
  ∃ s t', SaveIntenral t = Some s ∧ LoadIntenral uninit junk t0 s = Some (inr (t', [])) ∧ represents t' (rev_leaf <$> m).
Proof.
  intros (E & Ht & _ & _ & Hm) Hok Hsz.
  assert (Hsorted : sorted_leaves (leaves_of (rt_Leaves t) E)).
  { apply sorted_leaves_of; [done|]. intros k lf Hin. rewrite <- Hm in Hin. apply elem_of_map_to_list in Hin. eauto. }
  assert (Hlen : length E = length (leaves_of (rt_Leaves t) E)).
  { rewrite <- (length_fmap fst E), <- (leaves_of_fst (rt_Leaves t)), length_fmap; [done|].
    intros; by eapply tree_ok_leaf. }
  rewrite <- length_map_to_list, Hm, <- Hlen in Hsz.
  rewrite (Save_leaves t E) by done. eexists. destruct (LoadLoop_saved (leaves_of (rt_Leaves t) E) None (Clear t0) ∅ []) as (t' & EL & Ht').
  - apply represents_empty.
  - done.
  - done.
  - done.
  - exists t'. split; [done|]. unfold LoadIntenral. rewrite Nat2Z.id, Hlen. rewrite app_nil_r in EL. split; [done|].
    rewrite load_map_union, map_union_empty in Ht'.
    2: { rewrite <- Hm. apply NoDup_fst_map_to_list. }
    rewrite <- (list_to_map_to_list m), (list_to_map_proper (map_to_list m) _ (NoDup_fst_map_to_list m) Hm). done.
Qed.

End serial.

(** ** Duplicated commitments *)

Section duplicated.

Context {P Hash : Type}.

(** The test holds when another key shares the first 256 bits, which are the X coordinate
    of the commitment without the sign of Y. *)
Lemma IsCommitmentDuplicated_iff (t : tree P Hash) E n lt path pre p a b cl :
  tree_ok Key.s_Bits t E → rt_Root t = Some n → rel Key.s_Bits (rt_Leaves t) [] n lt →
  lat [] lt path = Some (pre, LL p a) → at_path n path = Some (NLeaf b cl a) →
  IsCommitmentDuplicated (NLeaf b cl a : node Hash) = true ↔
    ∃ e, e ∈ E ∧ e.2 ≠ a ∧ take 256 e.1 = take 256 (pre ++ p).
Proof.
  intros (Hnd & _ & Hroot) En Hr Hl Ha. rewrite En in Hroot. destruct Hroot as (lt' & Hr' & ->).
  rewrite <- (rel_fun _ _ _ _ _ _ Hr Hr') in *. clear lt' Hr'.
  destruct (rel_at _ _ _ _ _ _ _ _ Hr Hl) as (n' & Ha' & Hn'). rewrite Ha in Ha'. injection Ha' as <-.
  destruct Hn' as (_ & -> & _). unfold IsCommitmentDuplicated. cbn [get_Bits]. rewrite Nat.leb_le.
  assert (HN : length (pre ++ p) = Key.s_Bits) by (by apply (rel_length _ _ _ _ _ (pre ++ p, a) Hr), (lat_leaf_elem lt path)).
  rewrite length_app in HN. unfold Key.s_Bits, Key.s_BitsCommitment in *. split.
  - intros Hp. destruct path as [|b0 path _] using rev_ind; [cbn in Hl; injection Hl as <- _; cbn in HN; lia|].
    apply lat_snoc in Hl as (pre0 & q & l & r & Hl & -> & Esub). rewrite !length_app in HN. cbn in HN.
    destruct (lat_elems _ _ _ _ _ Hl) as (_ & X & Y & EE & _).
    set (o := if b0 then l else r). destruct (lelems (pre0 ++ q ++ [negb b0]) o) as [|e es] eqn:Eo; [by apply lelems_not_nil in Eo|].
    assert (He : e ∈ lelems (pre0 ++ q ++ [negb b0]) o) by (rewrite Eo; left).
    assert (Hin : e ∈ lelems pre0 (LJ q l r)) by (cbn; apply elem_of_app; unfold o in He; destruct b0; auto).
    exists e. split; [rewrite EE, !elem_of_app; auto|]. pose proof (lelems_prefix _ _ _ He) as [z Ez]. split.
    + intros Ea. rewrite EE, !fmap_app in Hnd. apply NoDup_app in Hnd as (_ & _ & Hnd). apply NoDup_app in Hnd as (Hnd & _ & _).
      cbn [lelems] in Hnd. rewrite fmap_app in Hnd. apply NoDup_app in Hnd as (_ & Hdis & _).
      apply (list_elem_of_fmap_2 snd) in He. rewrite Ea in He. unfold o in He. clear Eo Ea Hin.
      destruct b0; subst; cbn [negb lelems fmap list_fmap] in *;
        [apply (Hdis a He); left|refine (Hdis a _ He); left].
    + rewrite Ez, <- !app_assoc, !(app_assoc pre0), !(take_app_le (pre0 ++ q)) by (rewrite length_app; lia). done.
  - intros (e & He & Hne & Et). destruct (decide (length p ≤ 257 + 64 - 257)%nat) as [|Hgt]; [done|]. exfalso.
    destruct (lat_elems _ _ _ _ _ Hl) as (_ & X & Y & EE & Hout). rewrite EE in He.
    assert (He' : e ∈ X ++ Y).
    { cbn in He. apply elem_of_app in He as [?|[->|?]%elem_of_cons]; [apply elem_of_app; auto|done|apply elem_of_app; auto]. }
    apply (Hout e He'). rewrite <- (take_drop 256 e.1), Et. rewrite take_app_ge, <- app_assoc by lia. by apply prefix_app_r.
Qed.

End duplicated.
