(* ===== verification/RadixProps.v ===== *)
(** * core/radixtree: properties

    What the radix tree and the UTXO tree promise, for every tree that a sequence of
    insertions, changes, deletions and hash computations leads to. *)

From stdpp Require Import base list numbers option gmap sorting.
From S2P Require Import Prelude UintBig Merkle RadixTree RadixTreeSpec RadixHash RadixMap RadixTraverse.
From S2P Require Import UtxoTree UtxoTreeSpec UtxoCompact UtxoSerial.
Import RadixTree RadixHashTree.

Section radix.

Context {P Hash : Type} `{Hasher Hash} (P_new : P) (uninit : Hash).
Variable get_LeafHash : Leaf P → Hash.
Variable N : nat.

Implicit Types os : list (op (P := P)).

Notation empty := (mk None ∅ : tree P Hash).
Notation run := (run P_new uninit get_LeafHash N).
Notation root_hash := (root_hash get_LeafHash N).

Lemma run_empty os : 0 < N → Forall (op_key_ok N) os →
  ∃ t, run empty os = Some t ∧ represents get_LeafHash N t (mrun N ∅ os).
Proof. intros HN Hos. apply run_spec; [done..|]. apply represents_empty. Qed.

(** C4. The radix tree implements a finite map: after any sequence of insertions, changes,
    deletions and hash computations, no step of which reads a dangling key pointer,
    looking a key up finds exactly what the same sequence leaves in a map, and [Count] is
    the size of the map. *)
Theorem Radix_refines_map os : 0 < N → Forall (op_key_ok N) os →
  ∃ t, run empty os = Some t ∧ Count t = Some (size (mrun N ∅ os)) ∧
    ∀ key, key_ok N key → ∃ cu r, Find P_new uninit t key N false = Some (t, cu, false, r) ∧
      match r with
      | Some a => rt_Leaves t !! a = mrun N ∅ os !! kbits N key ∧ is_Some (rt_Leaves t !! a)
      | None => mrun N ∅ os !! kbits N key = None
      end.
Proof.
  intros HN Hos. destruct (run_empty os HN Hos) as (t & Er & E & Ht & _ & _ & Hm). exists t. split; [done|]. split.
  - rewrite (Count_length N t E Ht), <- length_map_to_list, Hm, <- (length_fmap fst (leaves_of _ _)).
    f_equal. rewrite <- (length_fmap fst E). f_equal. symmetry.
    assert (Hx : ∀ a, a ∈ E.*2 → is_Some (rt_Leaves t !! a)) by (intros; by eapply tree_ok_leaf). clear -Hx.
    by apply leaves_of_fst.
  - intros key Hk. destruct (mrun N ∅ os !! kbits N key) as [lf|] eqn:Ek.
    + apply (represents_lookup _ _ _ _ _ Hm) in Ek as (a & Ha & Hl).
      destruct (Find_found P_new uninit N HN t E key false a Ht Hk Ha) as (cu & -> & _). exists cu, (Some a). by rewrite Hl.
    + destruct (Find_absent P_new uninit N HN t E key Ht Hk) as (cu & ->); [|by exists cu, None].
      by apply (represents_absent N t (mrun N ∅ os)).
Qed.

(** C12. The root hash depends on the contents alone: two sequences of operations that leave
    the same map give trees with the same hash, whatever was inserted, deleted or hashed
    on the way; it is the hash of the contents split bit by bit. *)
Theorem Radix_root_canonical os os' : 0 < N → Forall (op_key_ok N) os → Forall (op_key_ok N) os' →
  mrun N ∅ os = mrun N ∅ os' →
  ∃ t t' t1 t1', run empty os = Some t ∧ run empty os' = Some t' ∧
    get_Hash get_LeafHash t = Some (t1, root_hash (mrun N ∅ os)) ∧
    get_Hash get_LeafHash t' = Some (t1', root_hash (mrun N ∅ os)).
Proof.
  intros HN Hos Hos' Em. destruct (run_empty os HN Hos) as (t & Et & Ht), (run_empty os' HN Hos') as (t' & Et' & Ht').
  rewrite <- Em in Ht'. destruct (tree_get_Hash get_LeafHash N HN _ _ Ht) as (t1 & E1 & _), (tree_get_Hash get_LeafHash N HN _ _ Ht') as (t1' & E1' & _).
  by exists t, t', t1, t1'.
Qed.

(** For every key in the tree, [get_Proof] at the cursor of its leaf gives a proof that
    leads from the hash of the leaf to the root hash. *)
Theorem Radix_proof_complete os key lf : 0 < N → Forall (op_key_ok N) os → key_ok N key →
  mrun N ∅ os !! kbits N key = Some lf →
  ∃ t cu a t' t1 proof h, run empty os = Some t ∧ Find P_new uninit t key N false = Some (t, cu, false, Some a) ∧
    get_Proof get_LeafHash t [] cu = Some (t', proof) ∧ get_Hash get_LeafHash t' = Some (t1, h) ∧
    Interpret_Proof (get_LeafHash lf) proof = h.
Proof.
  intros HN Hos Hk Hl. destruct (run_empty os HN Hos) as (t & Et & Ht).
  destruct (tree_get_Proof P_new uninit _ _ HN _ _ _ _ Ht Hk Hl) as (cu & a & t' & proof & Ef & Ep & Eh & Ht').
  destruct (tree_get_Hash get_LeafHash N HN _ _ Ht') as (t1 & E1 & _).
  exists t, cu, a, t', t1, proof. by eexists.
Qed.

(** [Goto] with the first [M] bits of a key succeeds exactly when some key of the tree
    begins with them. *)
Theorem Radix_Goto_prefix os key M : 0 < N → Forall (op_key_ok N) os → key_ok N key → 0 < M ≤ N →
  ∃ t ok cu, run empty os = Some t ∧ Goto t key M = Some (ok, cu) ∧
    (ok = true ↔ ∃ k, is_Some (mrun N ∅ os !! k) ∧ take M (kbits N key) `prefix_of` k).
Proof.
  intros HN Hos Hk HM. destruct (run_empty os HN Hos) as (t & Et & E & Ht & _ & _ & Hm).
  destruct (Goto_spec N HN t E key M Ht Hk HM) as (ok & cu & Eg & Hok). exists t, ok, cu. do 2 (split; [done|]).
  rewrite Hok. split.
  - intros ([k a] & Ha & Hp). exists k. split; [|done].
    destruct (tree_ok_leaf N t E a Ht) as [lf Hl]; [by apply (list_elem_of_fmap_2 snd) in Ha|]. exists lf.
    apply (represents_lookup _ _ _ _ _ Hm). eauto.
  - intros (k & [lf Hl] & Hp). apply (represents_lookup _ _ _ _ _ Hm) in Hl as (a & Ha & _). by exists (k, a).
Qed.

(** C33. [Traverse] visits exactly the keys within the bounds, each once and in ascending
    order, until the visitor stops it; the visitor is given a cursor at the leaf. *)
Theorem Radix_Traverse_ordered {St} os (OnLeaf : St → CursorBase → addr → bool * St) lo hi s : 0 < N → Forall (op_key_ok N) os →
  (∀ b, lo = Some b ∨ hi = Some b → key_ok N b) →
  ∃ t E, run empty os = Some t ∧ StronglySorted (λ x y, blt x y = true) E.*1 ∧
    (∀ k lf, mrun N ∅ os !! k = Some lf ↔ ∃ a, (k, a) ∈ E ∧ rt_Leaves t !! a = Some lf) ∧
    ∃ f, (∀ a, a ∈ E.*2 → cursor_at N t (f a) a) ∧
      Traverse t OnLeaf (lo, hi) s = Some (visit (λ s a, OnLeaf s (f a) a) (within N (lo, hi) E) s).
Proof.
  intros HN Hos Hb. destruct (run_empty os HN Hos) as (t & Et & E & Ht & _ & _ & Hm). exists t, E. split; [done|].
  split; [|split].
  - destruct Ht as (_ & _ & Hroot). destruct (rt_Root t); [|subst; constructor]. destruct Hroot as (lt & _ & ->). apply lelems_sorted.
  - intros k lf. by apply represents_lookup.
  - by apply (Traverse_visits_cursor N OnLeaf t E).
Qed.

End radix.

(** ** The UTXO tree *)

Section utxo.
Import UtxoTree.

Context {Hash : Type} `{Hasher Hash} (uninit : Hash) (junk : Z).

(** The hash of a key and a count, [MyLeaf::get_Hash(hv, key, nCount)]. *)
Variable leafHash : list Z → Z → Hash.

Definition utxo_hash (lf : Leaf IDs) : Hash := leafHash (lf_Key lf) (get_Count (lf_Data lf)).

Notation empty := (mk None ∅ : tree IDs Hash).
Notation run := (run (OneID junk) uninit utxo_hash Key.s_Bits).
Notation mrun := (mrun (P := IDs) Key.s_Bits ∅).

(** Operations with well-formed keys and IDs. *)
Definition utxo_op (o : op (P := IDs)) : Prop :=
  match o with OPut key v => wf_key key ∧ ids_ok v | ORemove key => wf_key key | OHash => True end.

Definition utxo_leaf (lf : Leaf IDs) : Prop := wf_key (lf_Key lf) ∧ ids_ok (lf_Data lf).

Lemma wf_key_ok key : wf_key key → key_ok Key.s_Bits key.
Proof. intros (Hl & _). unfold key_ok. rewrite Hl. vm_compute. lia. Qed.

Lemma utxo_op_key os : Forall utxo_op os → Forall (op_key_ok Key.s_Bits) os.
Proof.
  intros Hos. eapply Forall_impl; [exact Hos|]. intros [key v|key|]; cbn; [intros [Hk _]|intros Hk|done]; by apply wf_key_ok.
Qed.

Lemma mrun_leaves m os : Forall utxo_op os → (∀ k lf, m !! k = Some lf → utxo_leaf lf) →
  ∀ k lf, RadixMap.mrun Key.s_Bits m os !! k = Some lf → utxo_leaf lf.
Proof.
  revert m. induction os as [|o os IH]; intros m Hos Hm; [done|]. apply Forall_cons in Hos as [Ho Hos].
  unfold RadixMap.mrun. cbn [foldl]. apply IH; [done|]. destruct o as [key v|key|]; cbn [mrun1]; [| |done].
  - intros k lf. unfold mput. destruct (decide (k = kbits Key.s_Bits key)) as [->|Hne].
    + rewrite lookup_insert_eq. intros [= <-]. destruct Ho as [Hk Hv]. split; [|done]. cbn [lf_Key].
      destruct (m !! kbits Key.s_Bits key) as [lf'|] eqn:El; [by apply Hm in El as [? _]|].
      rewrite take_ge; [done|]. by destruct Hk as [-> _].
    + rewrite lookup_insert_ne by done. apply Hm.
  - intros k lf [_ Hl]%lookup_delete_Some. by apply (Hm k).
Qed.

Lemma size_mrun m os : size (RadixMap.mrun (P := IDs) Key.s_Bits m os) ≤ size m + length os.
Proof.
  revert m. induction os as [|o os IH]; intros m; unfold RadixMap.mrun; cbn [foldl length]; [lia|].
  specialize (IH (mrun1 Key.s_Bits m o)). unfold RadixMap.mrun in IH. etransitivity; [exact IH|].
  assert (size (mrun1 Key.s_Bits m o) ≤ S (size m)); [|lia]. destruct o as [key v|key|]; cbn [mrun1]; [| |lia].
  - unfold mput. destruct (m !! kbits Key.s_Bits key) eqn:E; [rewrite map_size_insert_Some by eauto|rewrite map_size_insert_None by done]; lia.
  - destruct (m !! kbits Key.s_Bits key) eqn:E; [rewrite map_size_delete_Some by eauto|rewrite map_size_delete_None by done]; lia.
Qed.

(** A commitment and a maturity are recovered from the key they are packed in, and the
    keys of one commitment are ordered by their maturity: the number of the key is the X
    coordinate, the sign bit, the maturity and seven zero bits. *)
Theorem Utxo_key_roundtrip d :
  length (Key.m_X d) = 32 → bytes (Key.m_X d) → (0 ≤ Key.m_Y d ≤ 1)%Z → (0 ≤ Key.m_Maturity d < 2 ^ 64)%Z →
  ∃ k, Key.Key_assign d = Some k ∧ wf_key k ∧ Key.Data_assign k = Some d ∧
    (⟦k⟧ = ((⟦Key.m_X d⟧ * 2 + Key.m_Y d) * 2 ^ 64 + Key.m_Maturity d) * 2 ^ 7)%Z.
Proof. apply Key_roundtrip. Qed.

Lemma visit_collect {A} (f : addr → A) l s :
  visit (λ s a, (true, s ++ [f a])) l s = (true, s ++ (f <$> l)).
Proof.
  revert s. induction l as [|a l IH]; intros s; cbn; [by rewrite app_nil_r|]. rewrite IH. by rewrite <- app_assoc.
Qed.

(** The key and the count of a leaf. *)
Definition key_count (t : tree IDs Hash) (a : addr) : list Z * Z :=
  match rt_Leaves t !! a with Some lf => (lf_Key lf, get_Count (lf_Data lf)) | None => ([], 0%Z) end.

Lemma key_count_leaves t E : tree_ok Key.s_Bits t E →
  key_count t <$> E.*2 = (λ e, (lf_Key e.2, get_Count (lf_Data e.2))) <$> leaves_of (rt_Leaves t) E.
Proof.
  intros Ht. assert (Hx : ∀ a, a ∈ E.*2 → is_Some (rt_Leaves t !! a)) by (intros; by eapply tree_ok_leaf). clear Ht.
  induction E as [|[k a] E IH]; [done|]. destruct (Hx a) as [lf Hl]; [left|].
  rewrite (leaves_of_cons _ _ _ _ _ Hl), !fmap_cons. f_equal; [unfold key_count; cbn [snd]; by rewrite Hl|].
  apply IH. intros; apply Hx; by right.
Qed.

(** The leaves of a tree as groups for the compact builder. *)
Lemma groups_of_leaves (L : list (list bool * Leaf IDs)) :
  sorted_leaves L → Forall (λ e, utxo_leaf e.2) L →
  let G := (λ e, (lf_Key e.2, get_Count (lf_Data e.2))) <$> L in
  Forall group_ok G ∧ ascending G ∧ celem leafHash <$> G = prod_map id utxo_hash <$> L.
Proof.
  intros [Hok Hs] Hu G. split_and!.
  - apply Forall_fmap. eapply Forall_impl; [exact Hu|]. intros [k lf] [Hk Hi]. split; [done|].
    change (0 < get_Count (lf_Data lf) < 2 ^ 32)%Z. change (ids_ok (lf_Data lf)) in Hi.
    destruct (lf_Data lf) as [v|l c]; [cbn; lia|]. destruct Hi as (? & -> & ?). cbn [get_Count]. lia.
  - unfold G. clear G. induction L as [|[k lf] L IH]; [constructor|]. apply Forall_cons in Hok as [[(Hl & Hb & _) Ek] Hok].
    apply Forall_cons in Hu as [_ Hu]. rewrite fmap_cons in Hs. apply StronglySorted_inv in Hs as [Hs Hlt].
    rewrite fmap_cons. constructor; [by apply IH|]. apply Forall_fmap, Forall_forall. intros [k' lf'] Hin.
    rewrite Forall_forall in Hok. rewrite Forall_forall in Hlt. destruct (Hok _ Hin) as [(Hl' & Hb' & _) Ek'].
    change (⟦lf_Key lf⟧ < ⟦lf_Key lf'⟧)%Z. apply (blt_kbits Key.s_Bits); [done|done|by transitivity Key.s_Bytes| |].
    + change (length (lf_Key lf) = Key.s_Bytes) in Hl. rewrite Hl. vm_compute. lia.
    + etransitivity; [|exact (Hlt k' (list_elem_of_fmap_2 fst _ _ Hin))]. by f_equal.
  - unfold G. rewrite <- list_fmap_compose. apply list_fmap_ext. intros i [k lf] Hi.
    apply list_elem_of_lookup_2 in Hi. rewrite Forall_forall in Hok. destruct (Hok _ Hi) as [_ Ek].
    change ((kbits Key.s_Bits (lf_Key lf), utxo_hash lf) = (k, utxo_hash lf)). by f_equal.
Qed.

(** C18. The compact builder, fed with the keys of a tree in the order of its traversal, each
    as often as its count, accepts all of them and computes the root hash of the tree. *)
Theorem Utxo_Compact_root os k0 : Forall utxo_op os →
  ∃ t t' G c h, run empty os = Some t ∧
    Traverse t (λ s _ a, (true, s ++ [key_count t a])) (None, None) [] = Some (true, G) ∧
    AddAll leafHash uninit (Compact.mk [] k0 0) (expand G) = Some (true, c) ∧
    Compact.Flush leafHash c = Some h ∧ get_Hash utxo_hash t = Some (t', h).
Proof.
  intros Hos. destruct (run_empty (OneID junk) uninit utxo_hash _ os s_Bits_pos (utxo_op_key os Hos)) as (t & Et & Ht).
  destruct (tree_get_Hash utxo_hash _ s_Bits_pos _ _ Ht) as (t' & Eh & _). destruct Ht as (E & Ht & _ & _ & Hm).
  assert (Hu : Forall (λ e, utxo_leaf e.2) (leaves_of (rt_Leaves t) E)).
  { apply Forall_forall. intros [k lf] He. rewrite <- Hm in He. apply elem_of_map_to_list in He.
    by apply (mrun_leaves ∅ os Hos) in He. }
  assert (Hs : sorted_leaves (leaves_of (rt_Leaves t) E)).
  { apply sorted_leaves_of; [done|]. intros k lf He. rewrite Forall_forall in Hu. by destruct (Hu _ He) as [(? & ? & _) ?]. }
  destruct (groups_of_leaves _ Hs Hu) as (HG & Ha & Ec). set (G := _ <$> _) in *.
  destruct (Compact_spec leafHash uninit G k0 0 HG Ha) as (c & Ea & Ef).
  exists t, t', G, c, (root_hash utxo_hash Key.s_Bits (mrun os)). split_and!; [done| |done| |done].
  - rewrite (Traverse_visits Key.s_Bits _ t E) by (done || by intros b [?|?]).
    rewrite within_all, visit_collect, (key_count_leaves t E Ht). done.
  - rewrite Ef, Ec. f_equal. apply chash_Permutation. by rewrite Hm.
Qed.

(** C32. A saved tree loads: the loaded tree has the same keys, counts and root hash.  The
    IDs behind every key come back in the reverse order. *)
Theorem Utxo_Load_Save os t0 : Forall utxo_op os → (Z.of_nat (length os) < 2 ^ 32)%Z →
  ∃ t s t' t1 t1' h, run empty os = Some t ∧ SaveIntenral t = Some s ∧
    LoadIntenral uninit junk t0 s = Some (inr (t', [])) ∧
    represents utxo_hash Key.s_Bits t' (rev_leaf <$> mrun os) ∧
    get_Hash utxo_hash t = Some (t1, h) ∧ get_Hash utxo_hash t' = Some (t1', h).
Proof.
  intros Hos Hn. destruct (run_empty (OneID junk) uninit utxo_hash _ os s_Bits_pos (utxo_op_key os Hos)) as (t & Et & Ht).
  destruct (tree_get_Hash utxo_hash _ s_Bits_pos _ _ Ht) as (t1 & Eh & _).
  destruct (Load_Save uninit junk utxo_hash t (mrun os) t0 Ht) as (s & t' & Es & El & Ht').
  { intros k lf Hl. by destruct (mrun_leaves ∅ os Hos ltac:(done) k lf Hl) as [(? & ? & _) ?]. }
  { pose proof (size_mrun ∅ os) as Hs. rewrite map_size_empty in Hs. lia. }
  destruct (tree_get_Hash utxo_hash _ s_Bits_pos _ _ Ht') as (t1' & Eh' & _).
  exists t, s, t', t1, t1', (root_hash utxo_hash Key.s_Bits (mrun os)). do 5 (split; [assumption|]).
  rewrite Eh'. apply f_equal, f_equal. unfold root_hash. apply f_equal. rewrite map_to_list_fmap, <- list_fmap_compose.
  apply list_fmap_ext. intros i [k lf] _. cbn. unfold utxo_hash. cbn. by destruct (lf_Data lf).
Qed.

End utxo.

(** The IDs behind a key are a stack: popping after a push gives the ID pushed and the
    leaf as it was, whatever the number of IDs, and the count follows. *)
Theorem Utxo_PopID_PushID id x : ids_ok x → (#(ids x) + 1 < 2 ^ 32)%Z →
  UtxoTree.PopID (UtxoTree.PushID id x) = Some (id, x) ∧
  UtxoTree.get_Count (UtxoTree.PushID id x) = (UtxoTree.get_Count x + 1)%Z.
Proof. apply PopID_PushID. Qed.

(** [IsCommitmentDuplicated] of a leaf tells whether another key of the tree has the
    same first 256 bits: the X coordinate of the commitment, while a commitment is 257 bits
    with the sign of Y. *)
Theorem Utxo_IsCommitmentDuplicated {P Hash} (t : tree P Hash) E key cu a n :
  tree_ok UtxoTree.Key.s_Bits t E → cursor_at UtxoTree.Key.s_Bits t cu a → (kbits UtxoTree.Key.s_Bits key, a) ∈ E →
  rt_Root t ≫= (λ root, cu_pp cu ≫= at_path root) = Some n →
  UtxoTree.IsCommitmentDuplicated n = true ↔
    ∃ k b, (k, b) ∈ E ∧ b ≠ a ∧ take 256 k = take 256 (kbits UtxoTree.Key.s_Bits key).
Proof.
  intros Ht (root & path & pre & p & lt & b & cl & En & Ep & Hr & Hl & Ha) Hin En'.
  rewrite En, Ep in En'. cbn [mbind option_bind] in En'. rewrite Ha in En'. injection En' as <-.
  rewrite (IsCommitmentDuplicated_iff t E root lt path pre p a b cl Ht En Hr Hl Ha).
  assert (pre ++ p = kbits UtxoTree.Key.s_Bits key) as ->.
  { destruct Ht as (Hnd & _ & Hroot). rewrite En in Hroot. destruct Hroot as (lt' & Hr' & ->).
    rewrite <- (rel_fun _ _ _ _ _ _ Hr Hr') in *. pose proof (rel_elem _ _ _ _ _ _ Hr Hin) as (lf & E1 & _ & E2).
    pose proof (rel_elem _ _ _ _ _ _ Hr (lat_leaf_elem _ _ _ _ _ Hl)) as (lf' & E1' & _ & E2').
    change (rt_Leaves t !! a = Some lf) in E1. change (rt_Leaves t !! a = Some lf') in E1'. rewrite E1 in E1'.
    injection E1' as <-. etransitivity; [symmetry; exact E2'|exact E2]. }
  split; [intros ([k c] & ? & ? & ?); by exists k, c|intros (k & c & ? & ? & ?); by exists (k, c)].
Qed.

(** ** Instances *)

Section instances.
Local Open Scope Z_scope.

(** A hash on numbers, for evaluation. *)
#[local] Instance toy_hasher : Hasher Z := {| combine := λ a b, (a * 31 + b * 17 + 1) mod 1009; hZero := 0 |}.

Definition toy_leaf (lf : Leaf Z) : Z := (⟦lf_Key lf⟧ * 7 + lf_Data lf) mod 1009.

Definition toy_ops : list (op (P := Z)) := [OPut [12] 5; OPut [13] 6; OHash; OPut [200] 7; OPut [12] 8; ORemove [13]; OHash].
Definition toy_ops' : list (op (P := Z)) := [OPut [200] 7; OPut [12] 8].

Lemma toy_ops_ok : Forall (op_key_ok 8) toy_ops.
Proof. repeat constructor; cbn; lia. Defined.

Lemma toy_ops_ok' : Forall (op_key_ok 8) toy_ops'.
Proof. repeat constructor; cbn; lia. Defined.

Lemma Radix_refines_map_witness : ∃ t, run 0 0 toy_leaf 8 (mk None ∅) toy_ops = Some t ∧ Count t = Some 2%nat.
Proof.
  destruct (Radix_refines_map 0 0 toy_leaf 8 toy_ops ltac:(lia) toy_ops_ok) as (t & Et & Ec & _). by exists t.
Defined.

Lemma Radix_root_canonical_witness : ∃ t t' t1 t1' h, run 0 0 toy_leaf 8 (mk None ∅) toy_ops = Some t ∧
  run 0 0 toy_leaf 8 (mk None ∅) toy_ops' = Some t' ∧ get_Hash toy_leaf t = Some (t1, h) ∧ get_Hash toy_leaf t' = Some (t1', h).
Proof.
  destruct (Radix_root_canonical 0 0 toy_leaf 8 toy_ops toy_ops' ltac:(lia) toy_ops_ok toy_ops_ok')
    as (t & t' & t1 & t1' & H1); [vm_compute; reflexivity|]. exists t, t', t1, t1'. eexists. exact H1.
Defined.

Lemma Radix_proof_complete_witness : ∃ t proof h, run 0 0 toy_leaf 8 (mk None ∅) toy_ops = Some t ∧
  Interpret_Proof (toy_leaf (mkLeaf [12] 8)) proof = h.
Proof.
  destruct (Radix_proof_complete 0 0 toy_leaf 8 toy_ops [12] (mkLeaf [12] 8) ltac:(lia) toy_ops_ok)
    as (t & cu & a & t' & t1 & proof & h & H1 & _ & _ & _ & H2); [cbn; unfold key_ok; cbn; lia|vm_compute; reflexivity|].
  by exists t, proof, h.
Defined.

Lemma Radix_Goto_prefix_witness : ∃ t ok cu, run 0 0 toy_leaf 8 (mk None ∅) toy_ops = Some t ∧ Goto t [15] 6 = Some (ok, cu).
Proof.
  destruct (Radix_Goto_prefix 0 0 toy_leaf 8 toy_ops [15] 6 ltac:(lia) toy_ops_ok) as (t & ok & cu & H1 & H2 & _);
    [unfold key_ok; cbn; lia|lia|]. by exists t, ok, cu.
Defined.

Lemma Radix_Traverse_ordered_witness : ∃ t r, run 0 0 toy_leaf 8 (mk None ∅) toy_ops = Some t ∧
  Traverse t (λ s _ a, (true, a :: s)) (Some [13], None) [] = Some r.
Proof.
  destruct (Radix_Traverse_ordered 0 0 toy_leaf 8 toy_ops (λ s _ a, (true, a :: s)) (Some [13]) None [] ltac:(lia) toy_ops_ok)
    as (t & E & H1 & _ & _ & f & _ & H2); [intros b [[= <-]|?]; [unfold key_ok; cbn; lia|done]|]. eauto.
Defined.

Definition toy_data : UtxoTree.Key.Data := UtxoTree.Key.mkData (replicate 32 0xab) 1 0x123456789abcdef1.

Lemma Utxo_key_roundtrip_witness : ∃ k, UtxoTree.Key.Key_assign toy_data = Some k ∧ UtxoTree.Key.Data_assign k = Some toy_data.
Proof.
  destruct (Utxo_key_roundtrip toy_data) as (k & H1 & _ & H2 & _);
    [reflexivity|apply bytes_check; reflexivity|cbn; lia|cbn; lia|]. by exists k.
Defined.

Definition toy_key (x : Z) : list Z := x :: replicate 40 0.

Lemma toy_key_ok x : 0 ≤ x < 256 → wf_key (toy_key x).
Proof.
  intros Hx. split_and!; [reflexivity|apply bytes_cons; split; [done|]; apply bytes_check; reflexivity|].
  unfold toy_key. cbn [val]. change ⟦replicate 40 0⟧ with 0. rewrite length_replicate, Z.add_0_r.
  change (256 ^ Z.of_nat 40) with (2 ^ 313 * 2 ^ 7). rewrite Z.mul_assoc. apply Z.mod_mul. lia.
Qed.

Definition utxo_ops : list (op (P := UtxoTree.IDs)) :=
  [OPut (toy_key 12) (UtxoTree.OneID 5); OPut (toy_key 13) (UtxoTree.Queue [6; 7; 8] 3); OHash; OPut (toy_key 200) (UtxoTree.OneID 9);
   ORemove (toy_key 12)].

Lemma utxo_ops_ok : Forall utxo_op utxo_ops.
Proof. repeat constructor; try apply toy_key_ok; cbn; lia. Qed.

Definition toy_leafHash (key : list Z) (n : Z) : Z := (⟦key⟧ * 7 + n) mod 1009.

Lemma Utxo_Compact_root_witness : ∃ t c h,
  run (UtxoTree.OneID 0) 0 (utxo_hash toy_leafHash) UtxoTree.Key.s_Bits (mk None ∅) utxo_ops = Some t ∧
  UtxoTree.Compact.Flush toy_leafHash c = Some h.
Proof.
  destruct (Utxo_Compact_root 0 0 toy_leafHash utxo_ops [] utxo_ops_ok) as (t & t' & G & c & h & H1 & _ & _ & H2 & _).
  exists t, c, h. split; assumption.
Defined.

Lemma Utxo_Load_Save_witness : ∃ t s,
  run (UtxoTree.OneID 0) 0 (utxo_hash toy_leafHash) UtxoTree.Key.s_Bits (mk None ∅) utxo_ops = Some t ∧
  UtxoTree.SaveIntenral t = Some s.
Proof.
  destruct (Utxo_Load_Save 0 0 toy_leafHash utxo_ops (mk None ∅) utxo_ops_ok) as (t & s & t' & t1 & t1' & h & H1 & H2 & _);
    [cbn; lia|]. exists t, s. split; assumption.
Defined.

Lemma Utxo_PopID_PushID_witness :
  UtxoTree.PopID (UtxoTree.PushID 4 (UtxoTree.OneID 3)) = Some (4, UtxoTree.OneID 3).
Proof. apply (Utxo_PopID_PushID 4 (UtxoTree.OneID 3)); cbn; lia. Defined.

(** Two commitments with one X coordinate and opposite signs. *)
Definition key_plus : list Z := replicate 41 0.
Definition key_minus : list Z := replicate 32 0 ++ 0x80 :: replicate 8 0.

Lemma Utxo_IsCommitmentDuplicated_witness :
  take 257 (kbits UtxoTree.Key.s_Bits key_plus) ≠ take 257 (kbits UtxoTree.Key.s_Bits key_minus) ∧
  ∃ (t : tree unit Z) E cu a n, tree_ok UtxoTree.Key.s_Bits t E ∧ cursor_at UtxoTree.Key.s_Bits t cu a ∧
    E.*1 ≡ₚ [kbits UtxoTree.Key.s_Bits key_minus; kbits UtxoTree.Key.s_Bits key_plus] ∧
    rt_Root t ≫= (λ root, cu_pp cu ≫= at_path root) = Some n ∧ UtxoTree.IsCommitmentDuplicated n = true.
Proof.
  split; [vm_compute; discriminate|].
  destruct (Find_create tt 0 UtxoTree.Key.s_Bits s_Bits_pos (mk None ∅) [] key_plus) as (t1 & cu1 & a1 & X & Y & _ & _ & _ & _ & EXY & Ht1).
  { by split_and!; [constructor|..]. } { unfold key_ok. vm_compute. lia. } { intros a. apply not_elem_of_nil. }
  symmetry in EXY. apply app_eq_nil in EXY as [-> ->]. cbn [app] in Ht1.
  destruct (Find_create tt 0 UtxoTree.Key.s_Bits s_Bits_pos t1 _ key_minus Ht1) as (t2 & cu & a & X & Y & _ & Ha & _ & Hcu & EXY & Ht2).
  { unfold key_ok. vm_compute. lia. }
  { intros a Ha%list_elem_of_singleton. apply (f_equal (λ e, nth 256 e.1 false)) in Ha. vm_compute in Ha. discriminate. }
  set (E := X ++ (kbits UtxoTree.Key.s_Bits key_minus, a) :: Y) in *.
  assert (HE : E ≡ₚ [(kbits UtxoTree.Key.s_Bits key_minus, a); (kbits UtxoTree.Key.s_Bits key_plus, a1)])
    by (unfold E; rewrite <- Permutation_middle, <- EXY; reflexivity).
  pose proof Hcu as (root & path & pre & p & lt & b & cl & En & Ep & _ & _ & Hat).
  exists t2, E, cu, a, (NLeaf b cl a). split; [exact Ht2|]. split; [exact Hcu|]. split; [by rewrite HE|].
  assert (Hn : rt_Root t2 ≫= (λ root, cu_pp cu ≫= at_path root) = Some (NLeaf b cl a)) by (by rewrite En, Ep).
  split; [exact Hn|].
  apply (Utxo_IsCommitmentDuplicated t2 E key_minus cu a (NLeaf b cl a) Ht2 Hcu); [rewrite HE; left|exact Hn|].
  exists (kbits UtxoTree.Key.s_Bits key_plus), a1. split; [rewrite HE; right; left|]. split; [|vm_compute; reflexivity].
  intros ->. apply Ha. left.
Defined.

End instances.
