(* ===== verification/ShaderMath.v ===== *)
(** * bvm/Shaders/Math.h: multi-precision arithmetic of the contracts

    [MultiPrecision::UInt<n>] is a list of [n] 32-bit words, the least significant first;
    [get_Val<d>] counts the words from 1 and gives 0 for a word that does not exist.  The
    templates recurse over the number of words, the functions below over the same number as
    a [nat].  A division by a zero word has no result. *)

From stdpp Require Import base list numbers option gmap.
From S2P Require Import Prelude.
Local Open Scope Z_scope.

(** ** BitUtils *)

Module BitUtils.

(** [PerBits<2^k>::get_BitsUsed]. *)
Fixpoint get_BitsUsed (k : nat) (x : Z) : Z :=
  match k with
  | O => x
  | S k =>
    let nHalf := 2 ^ Z.of_nat k in
    let x1 := Z.shiftr x nHalf in
    if negb (x1 =? 0) then u32 (nHalf + get_BitsUsed k x1) else u32 (0 + get_BitsUsed k x)
  end.

Definition FindHiBit32 (x : Z) : Z := get_BitsUsed 5 x.
Definition FindHiBit64 (x : Z) : Z := get_BitsUsed 6 x.

End BitUtils.

Module MultiPrecision.

Definition nWordBits : Z := 32.
Notation UInt := (list Z) (only parsing).

(** ** SetShifted *)

Definition get_Safe (src : list Z) (i : Z) : Z := if i <? #src then default 0 (src !! Z.to_nat i) else 0.

Fixpoint SetShifted_bits (nDst : nat) (src : list Z) (iSrc nRShift nLShift s0 : Z) : list Z :=
  match nDst with
  | O => []
  | S nDst =>
    let iSrc := u32 (iSrc + 1) in
    let s1 := get_Safe src iSrc in
    Z.lor (Z.shiftr s0 nRShift) (u32 (Z.shiftl s1 nLShift)) :: SetShifted_bits nDst src iSrc nRShift nLShift s1
  end.

Fixpoint SetShifted_words (nDst : nat) (src : list Z) (iSrc : Z) : list Z :=
  match nDst with
  | O => []
  | S nDst => get_Safe src iSrc :: SetShifted_words nDst src (u32 (iSrc + 1))
  end.

(** [nLShift %= nWordBits] is an unsigned operation: the right operand is [uint32_t]. *)
Definition SetShifted (nDst : nat) (src : list Z) (nLShift : Z) : list Z :=
  let iSrc := u32 (- (Z.quot nLShift nWordBits)) in
  let nLShift := i32 (u32 nLShift mod nWordBits) in
  if negb (nLShift =? 0) then
    let '(iSrc, nLShift) := if 0 <? nLShift then (u32 (iSrc - 1), nLShift) else (iSrc, nLShift + nWordBits) in
    let nRShift := u32 (nWordBits - nLShift) in
    SetShifted_bits nDst src iSrc nRShift nLShift (get_Safe src iSrc)
  else SetShifted_words nDst src iSrc.

(** ** Words *)

Definition get_Val (d : nat) (x : UInt) : Z := match d with O => 0 | S i => default 0 (x !! i) end.
Definition set_Val (d : nat) (v : Z) (x : UInt) : UInt := match d with O => x | S i => <[i := v]> x end.

Definition Fill (n : nat) (v : Z) : UInt := replicate n v.
Definition Set0 (n : nat) : UInt := Fill n 0.
Definition SetMax (n : nat) : UInt := Fill n (u32 (-1)).

Fixpoint IsZeroRange (n : nat) (w0 w1 : nat) (x : UInt) : bool :=
  match n with
  | O => true
  | S n' =>
    if ((w0 <? n)%nat && (n <=? w1)%nat) && negb (get_Val n x =? 0) then false else IsZeroRange n' w0 w1 x
  end.

Definition IsZero (x : UInt) : bool := IsZeroRange (length x) 0 (length x) x.

Fixpoint Assign (n nShiftWords : nat) (a : UInt) : UInt :=
  match n with
  | O => []
  | S n' => Assign n' nShiftWords a ++ [get_Val (n - nShiftWords) a]
  end.

(** [set_Ord] of an [nBytes]-byte integer into [n] words: the words and the rest. *)
Fixpoint set_Ord (n nShiftWords : nat) (nBytes v : Z) : UInt * Z :=
  match n with
  | O => ([], v)
  | S n' =>
    if (n <=? nShiftWords)%nat then (fst (set_Ord n' nShiftWords nBytes 0) ++ [0], v)
    else
      let '(lo, v) := set_Ord n' nShiftWords nBytes v in
      (lo ++ [u32 v], if nBytes <=? 4 then v else Z.shiftr v nWordBits)
  end.

Fixpoint get_Ord (n nShiftWords : nat) (nBytes : Z) (x : UInt) : Z :=
  match n with
  | O => 0
  | S n' =>
    let res := get_Ord n' nShiftWords nBytes x in
    let nLShift := u32 (Z.of_nat n - Z.of_nat nShiftWords - 1) in
    if nLShift <? nBytes / 4 then Z.lor res (Z.shiftl (get_Val n x) (nLShift * nWordBits)) else res
  end.

Definition of_u64 (n : nat) (v : Z) : UInt := fst (set_Ord n 0 8 v).
Definition FromEx (nShiftWords : nat) (nBytes v : Z) : UInt :=
  fst (set_Ord (Z.to_nat ((nBytes + 3) / 4) + nShiftWords) nShiftWords nBytes v).
Definition From64 (v : Z) : UInt := FromEx 0 8 v.

(** ** Addition, subtraction, comparison *)

Fixpoint SetAdd (n : nat) (a b : UInt) : UInt * Z :=
  match n with
  | O => ([], 0)
  | S n' =>
    let '(lo, carry) := SetAdd n' a b in
    let carry := u64 (u64 (carry + get_Val n a) + get_Val n b) in
    (lo ++ [u32 carry], Z.shiftr carry nWordBits)
  end.

(** The carry is signed. *)
Fixpoint SetSub (n : nat) (a b : UInt) : UInt * Z :=
  match n with
  | O => ([], 0)
  | S n' =>
    let '(lo, carry) := SetSub n' a b in
    let carry := carry + get_Val n a - get_Val n b in
    (lo ++ [u32 carry], Z.shiftr carry nWordBits)
  end.

Definition add (a b : UInt) : UInt :=
  let n := S (Nat.max (length a) (length b)) in
  if (length a <=? length b)%nat then fst (SetAdd n a b) else fst (SetAdd n b a).

Definition sub (a b : UInt) : UInt := fst (SetSub (S (Nat.max (length a) (length b))) a b).

Definition add_assign (a b : UInt) : UInt := fst (SetAdd (length a) a b).
Definition sub_assign (a b : UInt) : UInt := fst (SetSub (length a) a b).

Fixpoint _Cmp (n : nat) (x a : UInt) : Z :=
  match n with
  | O => 0
  | S n' =>
    if get_Val n x <? get_Val n a then -1 else if get_Val n a <? get_Val n x then 1 else _Cmp n' x a
  end.

Definition cmp (x a : UInt) : Z :=
  if (length a <=? length x)%nat then _Cmp (length x) x a else - _Cmp (length a) a x.

(** ** Multiplication *)

Definition MoveCarry (wDst : nat) (carry : Z) (x : UInt) : UInt * Z :=
  let carry := u64 (carry + get_Val wDst x) in
  (set_Val wDst (u32 carry) x, Z.shiftr carry nWordBits).

Fixpoint AddMulInto2 (n : nat) (x : UInt) (wb : nat) (b : Z) (a : UInt) : UInt * Z :=
  match n with
  | O => (a, 0)
  | S n' =>
    let '(a, carry) := AddMulInto2 n' x wb b a in
    MoveCarry (n + wb - 1) (u64 (carry + u64 (b * get_Val n x))) a
  end.

Fixpoint AddMulInto (n : nat) (x : UInt) (a b : UInt) : UInt :=
  match n with
  | O => a
  | S n' =>
    let a := AddMulInto n' x a b in
    let '(a, carry) := AddMulInto2 (length b) b n (get_Val n x) a in
    fst (MoveCarry (n + length b) carry a)
  end.

Definition mul (x a : UInt) : UInt :=
  let ret := Set0 (length x + length a) in
  if (length x <=? length a)%nat then AddMulInto (length x) x ret a else AddMulInto (length a) a ret x.

(** ** Shifts by less than a word *)

Fixpoint Set_LShift (n : nat) (nBits : Z) (a : UInt) : UInt :=
  match n with
  | O => []
  | S n' =>
    Set_LShift n' nBits a ++ [Z.lor (u32 (Z.shiftl (get_Val n a) nBits)) (Z.shiftr (get_Val n' a) (nWordBits - nBits))]
  end.

Fixpoint Set_RShift (n : nat) (nBits : Z) (a : UInt) : UInt :=
  match n with
  | O => []
  | S n' =>
    Set_RShift n' nBits a ++ [Z.lor (Z.shiftr (get_Val n a) nBits) (u32 (Z.shiftl (get_Val (S n) a) (nWordBits - nBits)))]
  end.

(** ** Division *)

Fixpoint SubShifted (iWord nLShift : nat) (v x : UInt) : UInt * Z :=
  match iWord with
  | O => (x, 0)
  | S i =>
    let '(x, carry) := SubShifted i nLShift v x in
    let carry := carry + get_Val (nLShift + iWord) x - get_Val iWord v in
    (set_Val (nLShift + iWord) (u32 carry) x, Z.shiftr carry nWordBits)
  end.

Fixpoint AddShifted (iWord nLShift : nat) (v x : UInt) : UInt * Z :=
  match iWord with
  | O => (x, 0)
  | S i =>
    let '(x, carry) := AddShifted i nLShift v x in
    if (length x <? nLShift + iWord)%nat then (x, carry)
    else
      let carry := u64 (u64 (carry + get_Val (nLShift + iWord) x) + get_Val iWord v) in
      (set_Val (nLShift + iWord) (u32 carry) x, Z.shiftr carry nWordBits)
  end.

(** One quotient word.  The words of the residue above [wd + nLShift + 1] take no part. *)
Definition DivOnceNormalized (nLShift : nat) (div resid : UInt) : option (Z * UInt) :=
  let wd := length div in
  let x := take (wd + nLShift + 1) resid in
  let rest := drop (wd + nLShift + 1) resid in
  if (length x <? wd + nLShift)%nat then Some (0, resid)
  else
    let hiNom := get_Val (wd + nLShift + 1) x in
    let hiDenom := get_Val wd div in
    let hiPart := Z.lor (u64 (Z.shiftl hiNom nWordBits)) (get_Val (wd + nLShift) x) in
    if hiDenom =? 0 then None
    else
      let res := u32 (hiPart / hiDenom) in
      if (res =? 0) && (hiNom =? 0) then Some (0, resid)
      else
        let res := if res =? 0 then u32 (-1) else res in
        let m := mul div (of_u64 1 res) in
        let '(x, carry0) := SubShifted (wd + 1) nLShift m x in
        if negb (carry0 =? 0) then
          let res := u32 (res - 1) in
          let '(x, carry1) := AddShifted (wd + 1) nLShift div x in
          if carry1 =? 0 then
            let res := u32 (res - 1) in
            let '(x, _) := AddShifted (wd + 1) nLShift div x in
            Some (res, x ++ rest)
          else Some (res, x ++ rest)
        else Some (res, x ++ rest).

Fixpoint SetDivResidNormalized (n : nat) (resid div : UInt) : option (UInt * UInt) :=
  match n with
  | O => Some ([], resid)
  | S n' =>
    '(w, resid) ← DivOnceNormalized n' div resid;
    '(lo, resid) ← SetDivResidNormalized n' resid div;
    Some (lo ++ [w], resid)
  end.

(** The quotient of [n] words and the residue, [b] being cut to its [wb] low words. *)
Fixpoint SetDivResid (n wb : nat) (resid b : UInt) : option (UInt * UInt) :=
  match wb with
  | O => Some (SetMax n, resid)
  | S wb' =>
    let v := get_Val wb b in
    if negb (v =? 0) then
      let nBits := BitUtils.FindHiBit32 v in
      if nBits =? nWordBits then SetDivResidNormalized n resid (take wb b)
      else
        let b2 := Set_LShift wb (nWordBits - nBits) b in
        let r2 := Set_LShift (length resid + 1) (nWordBits - nBits) resid in
        '(q, r2) ← SetDivResidNormalized n r2 b2;
        Some (q, Set_RShift (length resid) (nWordBits - nBits) r2)
    else SetDivResid n wb' resid b
  end.

Definition SetDiv (n : nat) (a b : UInt) : option UInt := fst <$> SetDivResid n (length b) a b.

End MultiPrecision.
