(* ===== verification/ShaderMathSpec.v ===== *)
(** * bvm/Shaders/Math.h: what the multi-precision routines compute

    The value of a list of words, and the routines on words as operations on values. *)

From stdpp Require Import base list numbers option gmap.
From S2P Require Import Prelude ShaderMath.
Local Open Scope Z_scope.
Import MultiPrecision.

(** ** Values *)

Definition words (x : list Z) : Prop := Forall (λ w, 0 ≤ w < 2 ^ 32) x.

(** [2^(32 n)]. *)
Definition pw (n : nat) : Z := 2 ^ (32 * Z.of_nat n).

Fixpoint wval (x : list Z) : Z := match x with [] => 0 | w :: x => w + 2 ^ 32 * wval x end.

Lemma pw_S n : pw (S n) = 2 ^ 32 * pw n.
Proof. unfold pw. rewrite <- Z.pow_add_r by lia. f_equal. lia. Qed.

Lemma pw_add m n : pw (m + n) = pw m * pw n.
Proof. unfold pw. rewrite <- Z.pow_add_r by lia. f_equal. lia. Qed.

Lemma pw_pos n : 0 < pw n.
Proof. apply Z.pow_pos_nonneg; lia. Qed.

Lemma pw_0 : pw 0 = 1.
Proof. done. Qed.

Lemma pw_1 : pw 1 = 2 ^ 32.
Proof. done. Qed.

#[global] Hint Resolve pw_pos : beam.

Lemma wval_app x y : wval (x ++ y) = wval x + pw (length x) * wval y.
Proof.
  induction x as [|w x IH]; cbn [app wval length]; [rewrite pw_0; lia|]. rewrite IH, pw_S. ring.
Qed.

Lemma wval_snoc x w : wval (x ++ [w]) = wval x + pw (length x) * w.
Proof. rewrite wval_app. cbn. lia. Qed.

Lemma words_app x y : words (x ++ y) ↔ words x ∧ words y.
Proof. apply Forall_app. Qed.

Lemma words_cons w x : words (w :: x) ↔ 0 ≤ w < 2 ^ 32 ∧ words x.
Proof. unfold words. by rewrite Forall_cons. Qed.

Lemma words_snoc x w : words (x ++ [w]) ↔ words x ∧ 0 ≤ w < 2 ^ 32.
Proof. unfold words. by rewrite Forall_app, Forall_singleton. Qed.

Lemma words_take n x : words x → words (take n x).
Proof. apply Forall_take. Qed.

Lemma words_drop n x : words x → words (drop n x).
Proof. apply Forall_drop. Qed.

Lemma words_insert i v x : words x → 0 ≤ v < 2 ^ 32 → words (<[i := v]> x).
Proof. intros Hx Hv. by apply Forall_insert. Qed.

Lemma wval_range x : words x → 0 ≤ wval x < pw (length x).
Proof.
  induction x as [|w x IH]; intros Hx; cbn [wval length]; [rewrite pw_0; lia|].
  apply words_cons in Hx as [Hw Hx]. specialize (IH Hx). rewrite pw_S. lia.
Qed.

Lemma u32_word x : 0 ≤ u32 x < 2 ^ 32.
Proof. apply u32_range. Qed.

Lemma get_Val_range d x : words x → 0 ≤ get_Val d x < 2 ^ 32.
Proof.
  intros Hx. destruct d as [|i]; [change (0 ≤ 0 < 2 ^ 32); lia|]. cbn [get_Val].
  destruct (x !! i) as [w|] eqn:E; [|change (0 ≤ 0 < 2 ^ 32); lia]. exact (Forall_lookup_1 _ _ _ _ Hx E).
Qed.

#[global] Hint Resolve words_take words_drop u32_word get_Val_range : beam.

(** The value of one word more. *)
Lemma wval_take_S n x : wval (take (S n) x) = wval (take n x) + pw n * get_Val (S n) x.
Proof.
  cbn [get_Val]. destruct (x !! n) as [w|] eqn:E; cbn [default].
  - rewrite (take_S_r _ _ _ E), wval_snoc, length_take_le; [done|]. apply lookup_lt_Some in E. lia.
  - apply lookup_ge_None in E. rewrite !take_ge by lia. lia.
Qed.

Lemma wval_split n x : wval x = wval (take n x) + pw (Nat.min n (length x)) * wval (drop n x).
Proof. rewrite <- (take_drop n x) at 1. by rewrite wval_app, length_take. Qed.

Lemma wval_take n x : words x → wval (take n x) = wval x mod pw n.
Proof.
  intros Hx. destruct (decide (n ≤ length x)%nat).
  - rewrite (wval_split n x), Nat.min_l by done. rewrite Z.mul_comm, Z.mod_add by (pose proof (pw_pos n); lia).
    rewrite Z.mod_small; [done|]. pose proof (wval_range (take n x) (words_take n x Hx)) as R. by rewrite length_take_le in R.
  - rewrite take_ge by lia. rewrite Z.mod_small; [done|]. pose proof (wval_range x Hx). unfold pw in *.
    pose proof (Z.pow_le_mono_r 2 (32 * Z.of_nat (length x)) (32 * Z.of_nat n)). lia.
Qed.

Lemma wval_insert i v x w : x !! i = Some w → wval (<[i := v]> x) = wval x + pw i * (v - w).
Proof.
  intros E. pose proof (lookup_lt_Some _ _ _ E).
  rewrite <- (take_drop_middle x i w E) at 2. rewrite insert_take_drop by done.
  rewrite !wval_app, !length_take_le by lia. cbn [wval]. ring.
Qed.

Lemma wval_replicate0 n : wval (replicate n 0) = 0.
Proof. induction n as [|n IH]; cbn [replicate wval]; [done|]. rewrite IH. lia. Qed.

Lemma words_replicate n v : 0 ≤ v < 2 ^ 32 → words (replicate n v).
Proof. intros. by apply Forall_replicate. Qed.

Lemma shiftr_32 x : Z.shiftr x nWordBits = x / 2 ^ 32.
Proof. unfold nWordBits. by rewrite Z.shiftr_div_pow2. Qed.

Lemma u32_div x : u32 x + 2 ^ 32 * (x / 2 ^ 32) = x.
Proof. unfold u32. pose proof (Z.div_mod x (2 ^ 32) ltac:(lia)). lia. Qed.

(** ** Bit length *)

Lemma get_BitsUsed_spec k x : (k ≤ 6)%nat → 0 ≤ x < 2 ^ 2 ^ Z.of_nat k →
  BitUtils.get_BitsUsed k x = if x =? 0 then 0 else Z.log2 x + 1.
Proof.
  revert x. induction k as [|k IH]; intros x Hk Hx; cbn [BitUtils.get_BitsUsed].
  - change (2 ^ 2 ^ Z.of_nat 0) with 2 in Hx. assert (x = 0 ∨ x = 1) as [-> | ->] by lia; done.
  - set (h := 2 ^ Z.of_nat k). assert (Hh : 0 < h ≤ 32).
    { unfold h. split; [apply Z.pow_pos_nonneg; lia|]. change 32 with (2 ^ 5). apply Z.pow_le_mono_r; lia. }
    assert (Hx' : 0 ≤ x < 2 ^ h * 2 ^ h).
    { rewrite <- Z.pow_add_r by lia. replace (h + h) with (2 ^ Z.of_nat (S k)); [done|].
      rewrite Nat2Z.inj_succ, Z.pow_succ_r by lia. unfold h. lia. }
    assert (0 < 2 ^ h) by (apply Z.pow_pos_nonneg; lia). rewrite Z.shiftr_div_pow2 by lia.
    assert (0 ≤ x / 2 ^ h < 2 ^ h) by (split; [apply Z.div_pos; lia|apply Z.div_lt_upper_bound; lia]).
    pose proof (Z.div_mod x (2 ^ h) ltac:(lia)). pose proof (Z.mod_pos_bound x (2 ^ h) ltac:(lia)).
    assert (Hlog : ∀ y, 0 < y < 2 ^ h → 0 ≤ Z.log2 y < 32).
    { intros y Hy. split; [apply Z.log2_nonneg|]. apply Z.log2_lt_pow2; [lia|].
      apply Z.lt_le_trans with (2 ^ h); [lia|]. apply Z.pow_le_mono_r; lia. }
    destruct (Z.eqb_spec (x / 2 ^ h) 0) as [E|E]; cbn [negb].
    + rewrite IH by (fold h; lia). destruct (Z.eqb_spec x 0); [done|]. pose proof (Hlog x ltac:(lia)). rewrite u32_small; lia.
    + rewrite IH by (fold h; lia). destruct (Z.eqb_spec (x / 2 ^ h) 0); [lia|]. destruct (Z.eqb_spec x 0) as [->|]; [by rewrite Z.div_0_l in E by lia|].
      pose proof (Hlog (x / 2 ^ h) ltac:(lia)). rewrite u32_small by lia.
      replace x with (x / 2 ^ h * 2 ^ h + x mod 2 ^ h) at 2 by lia. rewrite log2_lead by lia. lia.
Qed.

Lemma FindHiBit32_spec x : 0 ≤ x < 2 ^ 32 → BitUtils.FindHiBit32 x = if x =? 0 then 0 else Z.log2 x + 1.
Proof. apply (get_BitsUsed_spec 5). lia. Qed.

Lemma FindHiBit64_spec x : 0 ≤ x < 2 ^ 64 → BitUtils.FindHiBit64 x = if x =? 0 then 0 else Z.log2 x + 1.
Proof. apply (get_BitsUsed_spec 6). lia. Qed.

(** ** Addition, subtraction, comparison *)

Lemma SetAdd_spec n a b : words a → words b →
  let '(r, c) := SetAdd n a b in
  length r = n ∧ words r ∧ 0 ≤ c ≤ 1 ∧ wval r + pw n * c = wval (take n a) + wval (take n b).
Proof.
  intros Ha Hb. induction n as [|n IH]; cbn [SetAdd]; [split; [done|]; split; [apply Forall_nil_2|]; rewrite pw_0, !take_0; cbn [wval]; lia|].
  destruct (SetAdd n a b) as [lo c]. destruct IH as (Hl & Hlo & Hc & Hv).
  pose proof (get_Val_range (S n) a Ha). pose proof (get_Val_range (S n) b Hb).
  rewrite !wval_take_S. set (av := get_Val (S n) a) in *. set (bv := get_Val (S n) b) in *. casts.
  rewrite shiftr_32, length_app, Hl, wval_snoc, Hl, words_snoc, pw_S. cbn [length].
  pose proof (u32_div (c + av + bv)). pose proof (u32_word (c + av + bv)).
  split_and!; [lia|done|lia|lia|apply Z.div_pos; lia|assert ((c + av + bv) / 2 ^ 32 < 2) by (apply Z.div_lt_upper_bound; lia); lia|].
  transitivity (wval lo + pw n * (u32 (c + av + bv) + 2 ^ 32 * ((c + av + bv) / 2 ^ 32))); [ring|]. nia.
Qed.

Lemma SetSub_spec n a b : words a → words b →
  let '(r, c) := SetSub n a b in
  length r = n ∧ words r ∧ -1 ≤ c ≤ 0 ∧ wval r + pw n * c = wval (take n a) - wval (take n b).
Proof.
  intros Ha Hb. induction n as [|n IH]; cbn [SetSub]; [split; [done|]; split; [apply Forall_nil_2|]; rewrite pw_0, !take_0; cbn [wval]; lia|].
  destruct (SetSub n a b) as [lo c]. destruct IH as (Hl & Hlo & Hc & Hv).
  pose proof (get_Val_range (S n) a Ha). pose proof (get_Val_range (S n) b Hb).
  rewrite !wval_take_S. set (av := get_Val (S n) a) in *. set (bv := get_Val (S n) b) in *.
  rewrite shiftr_32, length_app, Hl, wval_snoc, Hl, words_snoc, pw_S. cbn [length].
  pose proof (u32_div (c + av - bv)). pose proof (u32_word (c + av - bv)).
  split_and!; [lia|done|lia|lia|apply Z.div_le_lower_bound; lia|assert ((c + av - bv) / 2 ^ 32 < 1) by (apply Z.div_lt_upper_bound; lia); lia|].
  transitivity (wval lo + pw n * (u32 (c + av - bv) + 2 ^ 32 * ((c + av - bv) / 2 ^ 32))); [ring|]. nia.
Qed.

Lemma UInt_Cmp_spec n x a : words x → words a →
  _Cmp n x a = if wval (take n x) <? wval (take n a) then -1 else if wval (take n a) <? wval (take n x) then 1 else 0.
Proof.
  intros Hx Ha. induction n as [|n IH]; cbn [_Cmp]; [done|]. rewrite !wval_take_S, IH.
  pose proof (get_Val_range (S n) x Hx). pose proof (get_Val_range (S n) a Ha).
  set (xv := get_Val (S n) x) in *. set (av := get_Val (S n) a) in *.
  assert (Hr : ∀ y, words y → 0 ≤ wval (take n y) < pw n).
  { intros y Hy. rewrite wval_take by done. apply Z.mod_pos_bound, pw_pos. }
  pose proof (Hr x Hx). pose proof (Hr a Ha). pose proof (pw_pos n).
  destruct (Z.ltb_spec xv av), (Z.ltb_spec av xv), (Z.ltb_spec (wval (take n x)) (wval (take n a))),
    (Z.ltb_spec (wval (take n a)) (wval (take n x)));
  destruct (Z.ltb_spec (wval (take n x) + pw n * xv) (wval (take n a) + pw n * av));
  destruct (Z.ltb_spec (wval (take n a) + pw n * av) (wval (take n x) + pw n * xv)); nia.
Qed.

(** [cmp] compares the values, whatever the numbers of words. *)
Lemma cmp_val x a : words x → words a →
  cmp x a = if wval x <? wval a then -1 else if wval a <? wval x then 1 else 0.
Proof.
  intros Hx Ha. unfold cmp. destruct (Nat.leb_spec (length a) (length x)); rewrite UInt_Cmp_spec by done; rewrite !take_ge by lia; [done|].
  destruct (Z.ltb_spec (wval a) (wval x)), (Z.ltb_spec (wval x) (wval a)); lia.
Qed.

(** ** Words set in place *)

Lemma length_set_Val d v x : length (set_Val d v x) = length x.
Proof. destruct d; [done|]. apply length_insert. Qed.

Lemma words_set_Val d v x : words x → 0 ≤ v < 2 ^ 32 → words (set_Val d v x).
Proof. destruct d; [done|]. apply words_insert. Qed.

Lemma wval_set_Val d v x : (d < length x)%nat → wval (set_Val (S d) v x) = wval x + pw d * (v - get_Val (S d) x).
Proof. intros H. cbn [set_Val get_Val]. destruct (lookup_lt_is_Some_2 x d H) as [w E]. rewrite E. by apply wval_insert. Qed.

(** A carry of at most [2^64 - 2^32] added to one word. *)
Lemma MoveCarry_spec d carry x : (d < length x)%nat → words x → 0 ≤ carry ≤ 2 ^ 64 - 2 ^ 32 →
  let '(x', c) := MoveCarry (S d) carry x in
  length x' = length x ∧ words x' ∧ 0 ≤ c < 2 ^ 32 ∧ wval x' + pw (S d) * c = wval x + pw d * carry.
Proof.
  intros Hd Hx Hc. unfold MoveCarry. pose proof (get_Val_range (S d) x Hx). set (v := get_Val (S d) x) in *. casts.
  rewrite shiftr_32, length_set_Val, wval_set_Val by done. fold v. split; [done|].
  split; [apply words_set_Val; [done|apply u32_word]|].
  split; [split; [apply Z.div_pos; lia|apply Z.div_lt_upper_bound; lia]|].
  rewrite pw_S. pose proof (u32_div (carry + v)). set (q := (carry + v) / 2 ^ 32) in *.
  transitivity (wval x + pw d * (u32 (carry + v) + 2 ^ 32 * q - v)); [ring|]. f_equal. f_equal. lia.
Qed.

(** ** Multiplication *)

Lemma no_carry v k c t : 0 < k → 0 ≤ v → 0 ≤ c → v + k * c = t → t < k → c = 0.
Proof. intros. destruct (decide (c = 0)); [done|]. assert (k * 1 ≤ k * c) by (apply Z.mul_le_mono_nonneg_l; lia). lia. Qed.

Lemma AddMulInto2_spec n x wb b a : words x → words a → 0 ≤ b < 2 ^ 32 → (n + wb ≤ length a)%nat →
  let '(a', c) := AddMulInto2 n x (S wb) b a in
  length a' = length a ∧ words a' ∧ 0 ≤ c < 2 ^ 32 ∧
  wval a' + pw (n + wb) * c = wval a + pw wb * (b * wval (take n x)).
Proof.
  intros Hx Ha Hb. induction n as [|n IH]; intros Hn; cbn [AddMulInto2].
  { rewrite take_0. cbn [wval]. split_and!; [done|done|lia|lia|lia]. }
  specialize (IH ltac:(lia)). destruct (AddMulInto2 n x (S wb) b a) as [a1 c]. destruct IH as (Hl & Ha1 & Hc & Hv).
  pose proof (get_Val_range (S n) x Hx) as Hw. rewrite wval_take_S. set (w := get_Val (S n) x) in *.
  assert (0 ≤ b * w ≤ (2 ^ 32 - 1) * (2 ^ 32 - 1)) by nia. casts.
  replace (S n + S wb - 1)%nat with (S (n + wb)) by lia.
  pose proof (MoveCarry_spec (n + wb) (c + b * w) a1 ltac:(lia) Ha1 ltac:(lia)) as HM.
  destruct (MoveCarry _ _ _) as [a2 c2]. destruct HM as (Hl2 & Ha2 & Hc2 & Hv2).
  split_and!; [lia|done|lia|lia|]. change (S n + wb)%nat with (S (n + wb)). rewrite Hv2, !pw_add in *.
  transitivity (wval a1 + pw n * pw wb * c + pw n * pw wb * (b * w)); [ring|]. rewrite Hv. ring.
Qed.

Lemma AddMulInto_spec n x a b : words x → words a → words b → wval a = 0 → (n + length b ≤ length a)%nat →
  let a' := AddMulInto n x a b in
  length a' = length a ∧ words a' ∧ wval a' = wval (take n x) * wval b.
Proof.
  intros Hx Ha Hb H0. induction n as [|n IH]; intros Hn; cbn [AddMulInto].
  { rewrite take_0. cbn [wval]. split_and!; [done|done|lia]. }
  destruct IH as (Hl & Ha1 & Hv); [lia|]. set (a1 := AddMulInto n x a b) in *.
  pose proof (get_Val_range (S n) x Hx) as Hw. pose proof (wval_range _ (words_take (S n) x Hx)) as Hr.
  rewrite wval_take_S in *. set (w := get_Val (S n) x) in *.
  pose proof (AddMulInto2_spec (length b) b n w a1 Hb Ha1 Hw ltac:(lia)) as H2.
  destruct (AddMulInto2 _ _ _ _ _) as [a2 c]. destruct H2 as (Hl2 & Ha2 & Hc & Hv2). rewrite take_ge in Hv2 by lia.
  change (S n + length b)%nat with (S (n + length b)).
  pose proof (MoveCarry_spec (n + length b) c a2 ltac:(lia) Ha2 ltac:(lia)) as HM.
  destruct (MoveCarry _ _ _) as [a3 c3]. destruct HM as (Hl3 & Ha3 & Hc3 & Hv3). cbn [fst].
  split_and!; [lia|done|]. rewrite (Nat.add_comm (length b)) in Hv2. rewrite Hv2, Hv in Hv3.
  pose proof (wval_range b Hb) as Hbr. pose proof (wval_range a3 Ha3) as Har.
  assert (Hlt : wval (take n x) + pw n * w < pw (S n)).
  { destruct Hr as [_ Hr]. eapply Z.lt_le_trans; [exact Hr|]. rewrite length_take. unfold pw. apply Z.pow_le_mono_r; lia. }
  assert (wval (take n x) * wval b + pw n * (w * wval b) < pw (S (n + length b))).
  { change (S (n + length b)) with (S n + length b)%nat. rewrite pw_add. pose proof (pw_pos (S n)). nia. }
  assert (c3 = 0) as -> by (eapply no_carry; [apply (pw_pos (S (n + length b)))|apply Har|lia|exact Hv3|lia]). lia.
Qed.

(** The product has the words of both factors and is exact. *)
Lemma mul_val x a : words x → words a →
  length (mul x a) = (length x + length a)%nat ∧ words (mul x a) ∧ wval (mul x a) = wval x * wval a.
Proof.
  intros Hx Ha. unfold mul, Set0, Fill. pose proof (words_replicate (length x + length a) 0 ltac:(lia)) as H0.
  pose proof (wval_replicate0 (length x + length a)). pose proof (length_replicate (length x + length a) 0).
  destruct (Nat.leb_spec (length x) (length a)).
  - pose proof (AddMulInto_spec (length x) x _ a Hx H0 Ha ltac:(done) ltac:(lia)) as (? & ? & HV).
    rewrite take_ge in HV by lia. split_and!; [lia|done|done].
  - pose proof (AddMulInto_spec (length a) a _ x Ha H0 Hx ltac:(done) ltac:(lia)) as (? & ? & HV).
    rewrite take_ge in HV by lia. split_and!; [lia|done|lia].
Qed.

(** ** Integers in words *)

(** An 8-byte integer fills the words from [nShiftWords] on, and what does not fit is left. *)
Lemma set_Ord_spec n s v : 0 ≤ v →
  let '(x, v') := set_Ord n s 8 v in
  length x = n ∧ words x ∧ 0 ≤ v' ∧ wval x + pw n * v' = pw (Nat.min n s) * v.
Proof.
  revert v. induction n as [|n IH]; intros v Hv; cbn [set_Ord]; [split; [done|]; split; [apply Forall_nil_2|]; cbn [wval Nat.min]; rewrite !pw_0; lia|].
  destruct (Nat.leb_spec (S n) s).
  - specialize (IH 0 ltac:(lia)). destruct (set_Ord n s 8 0) as [x v']. destruct IH as (Hl & Hx & Hv' & HV). cbn [fst].
    rewrite length_app, words_snoc, wval_snoc, Hl. pose proof (wval_range x Hx). pose proof (pw_pos n).
    split; [cbn; lia|]. split; [split; [done|lia]|]. split; [done|]. rewrite Nat.min_l by lia.
    assert (wval x = 0) by nia. lia.
  - specialize (IH v Hv). destruct (set_Ord n s 8 v) as [x v']. destruct IH as (Hl & Hx & Hv' & HV).
    change (8 <=? 4) with false. cbn [fst]. rewrite length_app, words_snoc, wval_snoc, Hl, shiftr_32.
    split; [cbn; lia|]. split; [split; [done|apply u32_word]|]. split; [apply Z.div_pos; lia|].
    rewrite pw_S. replace (Nat.min (S n) s) with s by lia. rewrite Nat.min_r in HV by lia. rewrite <- HV.
    rewrite <- (u32_div v') at 3. ring.
Qed.

Lemma of_u64_val n v : 0 ≤ v < pw n → length (of_u64 n v) = n ∧ words (of_u64 n v) ∧ wval (of_u64 n v) = v.
Proof.
  intros Hv. unfold of_u64. pose proof (set_Ord_spec n 0 v ltac:(lia)) as H. destruct (set_Ord n 0 8 v) as [x v'].
  destruct H as (Hl & Hx & Hv' & HV). cbn [fst]. rewrite Nat.min_0_r, pw_0 in HV. pose proof (wval_range x Hx).
  assert (v' = 0) as -> by (eapply no_carry; [apply (pw_pos n)|apply H|done|exact HV|lia]). split_and!; [done|done|lia].
Qed.

Lemma FromEx_val s v : 0 ≤ v < 2 ^ 64 →
  length (FromEx s 8 v) = (2 + s)%nat ∧ words (FromEx s 8 v) ∧ wval (FromEx s 8 v) = pw s * v.
Proof.
  intros Hv. unfold FromEx. change (Z.to_nat ((8 + 3) / 4) + s)%nat with (2 + s)%nat.
  pose proof (set_Ord_spec (2 + s) s v ltac:(lia)) as H. destruct (set_Ord (2 + s) s 8 v) as [x v'].
  destruct H as (Hl & Hx & Hv' & HV). cbn [fst]. rewrite Nat.min_r in HV by lia. pose proof (wval_range x Hx). pose proof (pw_pos s).
  assert (v' = 0) as ->.
  { eapply no_carry; [apply (pw_pos (2 + s))|apply H|done|exact HV|]. rewrite pw_add. change (pw 2) with (2 ^ 64). nia. }
  split_and!; [done|done|lia].
Qed.

Lemma get_Ord_low n s x : (n ≤ s)%nat → Z.of_nat s < 2 ^ 31 → get_Ord n s 8 x = 0.
Proof.
  intros Hn Hs. induction n as [|n IH]; cbn [get_Ord]; [done|]. rewrite IH by lia.
  rewrite u32_neg by lia. change (8 / 4) with 2. by destruct (Z.ltb_spec (Z.of_nat (S n) - Z.of_nat s - 1 + 2 ^ 32) 2); [lia|].
Qed.

(** The two words above the first [s] of them. *)
Lemma get_Ord_spec s x : words x → Z.of_nat s < 2 ^ 31 →
  get_Ord (S (S s)) s 8 x = get_Val (S s) x + 2 ^ 32 * get_Val (S (S s)) x.
Proof.
  intros Hx Hs. cbn [get_Ord]. rewrite get_Ord_low by lia. rewrite !u32_small by lia. change (8 / 4) with 2.
  pose proof (get_Val_range (S s) x Hx). pose proof (get_Val_range (S (S s)) x Hx).
  rewrite !(proj2 (Z.ltb_lt _ 2)) by lia. rewrite Z.lor_0_l.
  replace (Z.of_nat (S s) - Z.of_nat s - 1) with 0 by lia. replace (Z.of_nat (S (S s)) - Z.of_nat s - 1) with 1 by lia.
  change (0 * nWordBits) with 0. change (1 * nWordBits) with 32. rewrite Z.shiftl_0_r, lor_add by lia. lia.
Qed.

(** ** Shifts by less than a word *)

Lemma Set_LShift_spec n k a : words a → 0 < k < 32 →
  length (Set_LShift n k a) = n ∧ words (Set_LShift n k a) ∧
  wval (Set_LShift n k a) + pw n * Z.shiftr (get_Val n a) (32 - k) = wval (take n a) * 2 ^ k.
Proof.
  intros Ha Hk. induction n as [|n (Hl & Hw & Hv)]; cbn [Set_LShift].
  { split; [done|]. split; [apply Forall_nil_2|]. rewrite take_0. cbn [wval get_Val]. by rewrite Z.shiftr_0_l. }
  pose proof (get_Val_range n a Ha) as H0. pose proof (get_Val_range (S n) a Ha) as H1.
  rewrite wval_take_S, length_app, words_snoc, wval_snoc, Hl. unfold nWordBits.
  set (v0 := get_Val n a) in *. set (v1 := get_Val (S n) a) in *. rewrite !Z.shiftr_div_pow2 in * by lia.
  assert (E32 : 2 ^ 32 = 2 ^ k * 2 ^ (32 - k)) by (rewrite <- Z.pow_add_r by lia; f_equal; lia).
  assert (0 < 2 ^ k ∧ 0 < 2 ^ (32 - k)) as [Pk Pk'] by (split; apply Z.pow_pos_nonneg; lia).
  assert (0 ≤ v0 / 2 ^ (32 - k) < 2 ^ k) by (split; [apply Z.div_pos; lia|apply Z.div_lt_upper_bound; nia]).
  assert (Eu : u32 (Z.shiftl v1 k) = (v1 mod 2 ^ (32 - k)) * 2 ^ k).
  { unfold u32. rewrite Z.shiftl_mul_pow2, E32 by lia. rewrite (Z.mul_comm (2 ^ k)). by rewrite Z.mul_mod_distr_r by lia. }
  pose proof (Z.mod_pos_bound v1 (2 ^ (32 - k)) ltac:(lia)) as Hm. pose proof (Z.div_mod v1 (2 ^ (32 - k)) ltac:(lia)) as Hd.
  rewrite Eu, (lor_add_mod _ _ k) by (try apply Z.mod_mul; lia).
  split; [cbn; lia|]. split; [split; [done|nia]|]. rewrite pw_S.
  set (h0 := v0 / 2 ^ (32 - k)) in *. set (h1 := v1 / 2 ^ (32 - k)) in *. set (m := v1 mod 2 ^ (32 - k)) in *.
  rewrite Z.mul_add_distr_r, <- Hv, Hd, E32. ring.
Qed.

Lemma Set_RShift_spec n k a : words a → 0 < k < 32 →
  length (Set_RShift n k a) = n ∧ words (Set_RShift n k a) ∧
  2 ^ k * wval (Set_RShift n k a) + get_Val 1 a mod 2 ^ k = wval (take n a) + pw n * (get_Val (S n) a mod 2 ^ k).
Proof.
  intros Ha Hk. induction n as [|n (Hl & Hw & Hv)]; cbn [Set_RShift].
  { split; [done|]. split; [apply Forall_nil_2|]. rewrite take_0. cbn [wval]. rewrite pw_0. lia. }
  pose proof (get_Val_range (S n) a Ha) as H0. pose proof (get_Val_range (S (S n)) a Ha) as H1.
  rewrite wval_take_S, length_app, words_snoc, wval_snoc, Hl. unfold nWordBits.
  set (v0 := get_Val (S n) a) in *. set (v1 := get_Val (S (S n)) a) in *. rewrite !Z.shiftr_div_pow2 in * by lia.
  assert (E32 : 2 ^ 32 = 2 ^ k * 2 ^ (32 - k)) by (rewrite <- Z.pow_add_r by lia; f_equal; lia).
  assert (0 < 2 ^ k ∧ 0 < 2 ^ (32 - k)) as [Pk Pk'] by (split; apply Z.pow_pos_nonneg; lia).
  assert (0 ≤ v0 / 2 ^ k < 2 ^ (32 - k)) by (split; [apply Z.div_pos; lia|apply Z.div_lt_upper_bound; nia]).
  assert (Eu : u32 (Z.shiftl v1 (32 - k)) = (v1 mod 2 ^ k) * 2 ^ (32 - k)).
  { unfold u32. rewrite Z.shiftl_mul_pow2, E32 by lia. by rewrite Z.mul_mod_distr_r by lia. }
  pose proof (Z.mod_pos_bound v1 (2 ^ k) ltac:(lia)) as Hm. pose proof (Z.div_mod v0 (2 ^ k) ltac:(lia)) as Hd.
  rewrite Eu, Z.lor_comm, (lor_add_mod _ _ (32 - k)) by (try apply Z.mod_mul; lia).
  split; [cbn; lia|]. split; [split; [done|nia]|]. rewrite pw_S.
  set (h0 := v0 / 2 ^ k) in *. set (m0 := v0 mod 2 ^ k) in *. set (m1 := v1 mod 2 ^ k) in *.
  transitivity (2 ^ k * wval (Set_RShift n k a) + get_Val 1 a mod 2 ^ k + pw n * (m1 * (2 ^ k * 2 ^ (32 - k)) + 2 ^ k * h0)); [ring|].
  rewrite Hv, Hd, <- E32. ring.
Qed.

(** ** Division *)

(** Knuth's bound: the quotient of the leading parts, cut to a digit, exceeds the quotient by two at most. *)
Lemma qhat_bounds V D P dn B : 0 < P → 0 < B ≤ 2 * dn → dn * P ≤ D < (dn + 1) * P → 0 ≤ V < B * D →
  V / D ≤ Z.min (V / P / dn) (B - 1) ≤ V / D + 2.
Proof.
  intros HP HB HD HV. assert (0 < dn) by lia. assert (0 < D) by nia.
  pose proof (Z.div_mod V D ltac:(lia)) as E. pose proof (Z.mod_pos_bound V D ltac:(lia)) as Hr. set (q := V / D) in *. set (r := V mod D) in *.
  assert (0 ≤ q) by (apply Z.div_pos; lia).
  split.
  - apply Z.min_glb; [|nia]. apply Z.div_le_lower_bound; [lia|]. apply Z.div_le_lower_bound; nia.
  - set (qh := Z.min (V / P / dn) (B - 1)).
    assert (Hqh : dn * qh * P ≤ V).
    { assert (dn * qh ≤ V / P). { transitivity (dn * (V / P / dn)); [unfold qh; nia|]. apply Z.mul_div_le. lia. }
      transitivity (V / P * P); [nia|]. rewrite Z.mul_comm. apply Z.mul_div_le. lia. }
    assert (qh ≤ B - 1) by (unfold qh; lia).
    destruct (Z.le_gt_cases qh 0); [lia|].
    assert ((qh - 2) * D < (q + 1) * D); [|nia].
    assert (qh * D ≤ V + qh * P) by nia. nia.
Qed.
