(* ===== verification/ShaderDiv.v ===== *)
(** * bvm/Shaders/Math.h: the long division of [MultiPrecision::UInt]

    One quotient word at a time, with the estimate of the leading words corrected at most
    twice.  The estimate is only right for a divisor whose second word is below its top word
    ([safe_divisor]), or when the dividend does not reach the bad window. *)

From stdpp Require Import base list numbers option gmap.
From S2P Require Import Prelude ShaderMath ShaderMathSpec.
Local Open Scope Z_scope.
Import MultiPrecision.

Lemma SubShifted_spec n s v x : words v → words x → (s + n ≤ length x)%nat →
  let '(x', c) := SubShifted n s v x in
  length x' = length x ∧ words x' ∧ -1 ≤ c ≤ 0 ∧ wval x' + pw (s + n) * c = wval x - pw s * wval (take n v).
Proof.
  intros Hv Hx. induction n as [|n IH]; intros Hn; cbn [SubShifted].
  { rewrite take_0. cbn [wval]. split_and!; [done|done|lia|lia|lia]. }
  specialize (IH ltac:(lia)). destruct (SubShifted n s v x) as [x1 c]. destruct IH as (Hl & Hx1 & Hc & HV).
  replace (s + S n)%nat with (S (s + n)) by lia. rewrite wval_take_S, length_set_Val, wval_set_Val, shiftr_32 by lia.
  pose proof (get_Val_range (S (s + n)) x1 Hx1). pose proof (get_Val_range (S n) v Hv).
  set (xv := get_Val (S (s + n)) x1) in *. set (vv := get_Val (S n) v) in *.
  pose proof (u32_div (c + xv - vv)). set (q := (c + xv - vv) / 2 ^ 32) in *.
  assert (-1 ≤ q) by (apply Z.div_le_lower_bound; lia). assert (q < 1) by (apply Z.div_lt_upper_bound; lia).
  split; [done|]. split; [by apply words_set_Val; [|apply u32_word]|]. split; [lia|]. rewrite pw_S, pw_add in *.
  transitivity (wval x1 + pw s * pw n * (u32 (c + xv - vv) + 2 ^ 32 * q - xv)); [ring|].
  replace (u32 (c + xv - vv) + 2 ^ 32 * q - xv) with (c - vv) by lia.
  transitivity (wval x1 + pw s * pw n * c - pw s * (pw n * vv)); [ring|]. rewrite HV. ring.
Qed.

Lemma AddShifted_spec n s v x : words v → words x → (s + n ≤ length x)%nat →
  let '(x', c) := AddShifted n s v x in
  length x' = length x ∧ words x' ∧ 0 ≤ c ≤ 1 ∧ wval x' + pw (s + n) * c = wval x + pw s * wval (take n v).
Proof.
  intros Hv Hx. induction n as [|n IH]; intros Hn; cbn [AddShifted].
  { rewrite take_0. cbn [wval]. split_and!; [done|done|lia|lia|lia]. }
  specialize (IH ltac:(lia)). destruct (AddShifted n s v x) as [x1 c]. destruct IH as (Hl & Hx1 & Hc & HV).
  replace (s + S n)%nat with (S (s + n)) by lia. destruct (Nat.ltb_spec (length x1) (S (s + n))); [lia|].
  rewrite wval_take_S, length_set_Val, wval_set_Val, shiftr_32 by lia.
  pose proof (get_Val_range (S (s + n)) x1 Hx1). pose proof (get_Val_range (S n) v Hv).
  set (xv := get_Val (S (s + n)) x1) in *. set (vv := get_Val (S n) v) in *. casts.
  pose proof (u32_div (c + xv + vv)). set (q := (c + xv + vv) / 2 ^ 32) in *.
  assert (0 ≤ q) by (apply Z.div_pos; lia). assert (q < 2) by (apply Z.div_lt_upper_bound; lia).
  split; [done|]. split; [by apply words_set_Val; [|apply u32_word]|]. split; [lia|]. rewrite pw_S, pw_add in *.
  transitivity (wval x1 + pw s * pw n * (u32 (c + xv + vv) + 2 ^ 32 * q - xv)); [ring|].
  replace (u32 (c + xv + vv) + 2 ^ 32 * q - xv) with (c + vv) by lia.
  transitivity (wval x1 + pw s * pw n * c + pw s * (pw n * vv)); [ring|]. rewrite HV. ring.
Qed.

Lemma get_Val_ge d x : (length x < d)%nat → get_Val d x = 0.
Proof. destruct d; [done|]. intros. cbn [get_Val]. by rewrite lookup_ge_None_2 by lia. Qed.

(** The last step of the two loops when the window has no word above the divisor's. *)
Lemma SubShifted_top n s v x : words v → words x → length x = (s + n)%nat → get_Val (S n) v = 0 →
  SubShifted (S n) s v x = SubShifted n s v x.
Proof.
  intros Hv Hx Hl H0. cbn [SubShifted]. pose proof (SubShifted_spec n s v x Hv Hx ltac:(lia)) as H.
  destruct (SubShifted n s v x) as [x1 c]. destruct H as (Hl1 & _ & Hc & _).
  rewrite H0, get_Val_ge by lia. replace (c + 0 - 0) with c by lia. rewrite shiftr_32.
  f_equal; [|by assert (c = 0 ∨ c = -1) as [-> | ->] by lia].
  replace (s + S n)%nat with (S (s + n)) by lia. cbn [set_Val]. apply list_insert_ge. lia.
Qed.

Lemma AddShifted_top n s v x : length x = (s + n)%nat → length (fst (AddShifted n s v x)) = length x →
  AddShifted (S n) s v x = AddShifted n s v x.
Proof.
  intros Hl Hl1. cbn [AddShifted]. destruct (AddShifted n s v x) as [x1 c]. cbn [fst] in Hl1.
  by destruct (Nat.ltb_spec (length x1) (s + S n)); [|lia].
Qed.

Lemma Sub_window wd s v x : words v → words x → (length v ≤ S wd)%nat →
  length x = (s + wd)%nat ∧ get_Val (S wd) v = 0 ∨ length x = (s + S wd)%nat →
  let '(x', c) := SubShifted (wd + 1) s v x in
  length x' = length x ∧ words x' ∧ -1 ≤ c ≤ 0 ∧ wval x' + pw (length x) * c = wval x - pw s * wval v.
Proof.
  intros Hv Hx Hlv [[Hl H0]|Hl]; rewrite Nat.add_1_r.
  - rewrite SubShifted_top by done. pose proof (SubShifted_spec wd s v x Hv Hx ltac:(lia)) as H.
    destruct (SubShifted wd s v x) as [x' c]. destruct H as (? & ? & ? & HV). rewrite Hl, HV. split_and!; [lia|done|lia|lia|].
    rewrite <- (take_ge v (S wd)) at 2 by lia. rewrite wval_take_S, H0. lia.
  - pose proof (SubShifted_spec (S wd) s v x Hv Hx ltac:(lia)) as H.
    destruct (SubShifted (S wd) s v x) as [x' c]. destruct H as (? & ? & ? & HV). rewrite Hl, HV. split_and!; [lia|done|lia|lia|].
    by rewrite take_ge by lia.
Qed.

Lemma Add_window wd s v x : words v → words x → (length v ≤ wd)%nat →
  length x = (s + wd)%nat ∨ length x = (s + S wd)%nat →
  let '(x', c) := AddShifted (wd + 1) s v x in
  length x' = length x ∧ words x' ∧ 0 ≤ c ≤ 1 ∧ wval x' + pw (length x) * c = wval x + pw s * wval v.
Proof.
  intros Hv Hx Hlv [Hl|Hl]; rewrite Nat.add_1_r.
  - pose proof (AddShifted_spec wd s v x Hv Hx ltac:(lia)) as H. destruct (AddShifted wd s v x) as [x' c] eqn:E.
    rewrite AddShifted_top by (rewrite ?E; naive_solver). rewrite E. rewrite Hl in H |- *.
    rewrite take_ge in H by lia. naive_solver.
  - pose proof (AddShifted_spec (S wd) s v x Hv Hx ltac:(lia)) as H. destruct (AddShifted (S wd) s v x) as [x' c].
    rewrite Hl in H |- *. rewrite take_ge in H by lia. naive_solver.
Qed.

(** ** One quotient word *)

(** The estimate the code takes from the two leading words of the window. *)
Lemma qhat_word hN lo dn : 0 ≤ lo < 2 ^ 32 → 0 ≤ hN ≤ dn → 2 ^ 31 ≤ dn < 2 ^ 32 → hN < dn ∨ lo < dn →
  let H := hN * 2 ^ 32 + lo in let res := u32 (H / dn) in let qh := Z.min (H / dn) (2 ^ 32 - 1) in
  (res =? 0) && (hN =? 0) = (qh =? 0) ∧ (qh ≠ 0 → (if res =? 0 then u32 (-1) else res) = qh) ∧ 0 ≤ qh ∧ (hN = 0 → qh ≤ 1).
Proof.
  intros Hlo HhN Hdn Hng H res qh. assert (0 ≤ H / dn) by (apply Z.div_pos; lia).
  assert (Hn0 : hN = 0 → H / dn ≤ 1) by (intros ->; apply Z.lt_succ_r, Z.div_lt_upper_bound; lia).
  destruct (Z.lt_ge_cases hN dn).
  - assert (H / dn < 2 ^ 32) by (apply Z.div_lt_upper_bound; lia).
    assert (hN ≠ 0 → 1 ≤ H / dn) by (intros; apply Z.div_le_lower_bound; lia).
    unfold res, qh. rewrite u32_small, Z.min_l by lia.
    destruct (Z.eqb_spec (H / dn) 0), (Z.eqb_spec hN 0); cbn [andb]; split_and!; try done; lia.
  - assert (Hq : H / dn = 2 ^ 32) by (symmetry; apply (Z.div_unique_pos _ _ _ lo); lia).
    unfold res, qh. rewrite Hq. change (u32 (2 ^ 32)) with 0. destruct (Z.eqb_spec hN 0); [lia|].
    split_and!; [done|done|lia|lia].
Qed.

Section DivOnce.
Context (s wd : nat) (div : list Z).
Hypothesis (Hdiv : words div) (Hwd : length div = S wd) (Hnorm : 2 ^ 31 ≤ get_Val (S wd) div).

Let D := pw s * wval div.
Let P := pw (s + wd).
Let dn := get_Val (S wd) div.

Lemma DivOnce_D : dn * P ≤ D < (dn + 1) * P.
Proof.
  unfold D, P. rewrite <- (take_ge div (S wd)) by lia. rewrite wval_take_S, pw_add. fold dn.
  pose proof (wval_range _ (words_take wd div Hdiv)) as R. rewrite length_take_le in R by lia.
  pose proof (pw_pos s). pose proof (pw_pos wd). nia.
Qed.

(** The correction: the estimate [res] is at most two too big. *)
Definition DivOnce_correct (res : Z) (x : list Z) : Z * list Z :=
  let '(x, carry0) := SubShifted (S wd + 1) s (mul div (of_u64 1 res)) x in
  if negb (carry0 =? 0) then
    let res := u32 (res - 1) in
    let '(x, carry1) := AddShifted (S wd + 1) s div x in
    if carry1 =? 0 then (u32 (res - 1), fst (AddShifted (S wd + 1) s div x)) else (res, x)
  else (res, x).

Lemma DivOnce_correct_spec res x : words x → 0 ≤ res < 2 ^ 32 →
  length x = (s + S wd)%nat ∧ res ≤ 1 ∨ length x = (s + S (S wd))%nat →
  wval x / D ≤ res ≤ wval x / D + 2 →
  let '(q, x') := DivOnce_correct res x in
  q = wval x / D ∧ length x' = length x ∧ words x' ∧ wval x' = wval x mod D.
Proof.
  intros Hx Hres Hl Hq. pose proof DivOnce_D as HD. pose proof (pw_pos (s + wd)) as HP. fold P in HP. assert (0 < D) by nia.
  destruct (of_u64_val 1 res) as (Hl1 & Hw1 & Hv1); [by rewrite pw_1|].
  destruct (mul_val div (of_u64 1 res) Hdiv Hw1) as (Hlm & Hwm & Hvm). rewrite Hl1 in Hlm. rewrite Hv1 in Hvm.
  unfold DivOnce_correct. set (m := mul div (of_u64 1 res)) in *.
  pose proof (Z.div_mod (wval x) D ltac:(lia)) as E. pose proof (Z.mod_pos_bound (wval x) D ltac:(lia)) as Hr.
  assert (0 ≤ wval x / D) by (apply Z.div_pos; [apply wval_range|]; lia || done).
  set (q := wval x / D) in *. set (r := wval x mod D) in *.
  assert (Hwin : length x = (s + S wd)%nat ∧ get_Val (S (S wd)) m = 0 ∨ length x = (s + S (S wd))%nat).
  { destruct Hl as [[Hl Hres1]|Hl]; [left; split; [done|]|by right].
    pose proof (wval_range div Hdiv) as R. rewrite Hwd in R.
    pose proof (get_Val_range (S (S wd)) m Hwm). pose proof (wval_range _ (words_take (S wd) m Hwm)).
    rewrite <- (take_ge m (S (S wd))) in Hvm by lia. rewrite wval_take_S in Hvm.
    eapply no_carry; [apply (pw_pos (S wd))| | |exact Hvm|]; [lia|lia|nia]. }
  pose proof (Sub_window (S wd) s m x Hwm Hx ltac:(lia) Hwin) as HS.
  destruct (SubShifted (S wd + 1) s m x) as [x1 c0]. destruct HS as (Hl2 & Hx1 & Hc0 & HV1). rewrite Hvm in HV1.
  replace (pw s * (wval div * res)) with (res * D) in HV1 by (unfold D; ring).
  pose proof (wval_range x1 Hx1) as R1. rewrite Hl2 in R1. set (T := pw (length x)) in *.
  assert (Hadd : ∀ y, words y → length y = length x →
    let '(x', c) := AddShifted (S wd + 1) s div y in
    length x' = length x ∧ words x' ∧ 0 ≤ c ≤ 1 ∧ 0 ≤ wval x' < T ∧ wval x' + T * c = wval y + D).
  { intros y Hy Hly. pose proof (Add_window (S wd) s div y Hdiv Hy ltac:(lia) ltac:(destruct Hl as [[??]|?]; lia)) as HA.
    destruct (AddShifted _ _ _ y) as [y1 c]. destruct HA as (? & Hy1 & ? & HV). pose proof (wval_range y1 Hy1) as R.
    unfold T, D. rewrite <- Hly. by rewrite H1 in R. }
  destruct (Z.eqb_spec c0 0) as [->|Hc]; cbn [negb].
  { assert (res = q) by nia. split_and!; [done|done|done|]. lia. }
  assert (c0 = -1) as -> by lia. assert (q + 1 ≤ res) by nia.
  pose proof (Hadd x1 Hx1 Hl2) as HA. destruct (AddShifted _ _ _ x1) as [x2 c1]. destruct HA as (Hl3 & Hx2 & Hc1 & R2 & HV2).
  rewrite (u32_small (res - 1)) by lia. destruct (Z.eqb_spec c1 0) as [->|Hc1'].
  - assert (res = q + 2) as -> by nia. pose proof (Hadd x2 Hx2 Hl3) as HA. destruct (AddShifted _ _ _ x2) as [x3 c2].
    destruct HA as (Hl4 & Hx3 & Hc2 & R3 & HV3). cbn [fst]. rewrite u32_small by lia. split_and!; [lia|done|done|].
    assert (c2 = 1) as -> by nia. lia.
  - assert (c1 = 1) as -> by lia. assert (res = q + 1) as -> by nia. split_and!; [lia|done|done|]. lia.
Qed.

Lemma DivOnceNormalized_eq resid x hiNom hiPart : x = take (S wd + s + 1) resid →
  (S wd + s ≤ length x)%nat → hiNom = get_Val (S wd + s + 1) x →
  hiPart = Z.lor (u64 (Z.shiftl hiNom nWordBits)) (get_Val (S wd + s) x) →
  DivOnceNormalized s div resid =
    let res := u32 (hiPart / dn) in
    if (res =? 0) && (hiNom =? 0) then Some (0, resid)
    else let '(q, x') := DivOnce_correct (if res =? 0 then u32 (-1) else res) x in Some (q, x' ++ drop (S wd + s + 1) resid).
Proof.
  intros -> Hl -> ->. unfold DivOnceNormalized. rewrite Hwd. fold dn.
  destruct (Nat.ltb_spec (length (take (S wd + s + 1) resid)) (S wd + s)); [lia|].
  destruct (Z.eqb_spec dn 0); [unfold dn in *; lia|]. set (res := u32 _). cbv zeta. destruct ((res =? 0) && _); [done|].
  unfold DivOnce_correct. destruct (SubShifted _ _ _ _) as [x1 c0]. destruct (negb (c0 =? 0)); [|done].
  destruct (AddShifted (S wd + 1) s div x1) as [x2 c1]. destruct (c1 =? 0); [|done]. by destruct (AddShifted _ _ _ x2).
Qed.

(** The leading two words of a window. *)
Lemma hiPart_spec x : words x → (length x ≤ S wd + s + 1)%nat →
  Z.lor (u64 (Z.shiftl (get_Val (S wd + s + 1) x) nWordBits)) (get_Val (S wd + s) x) = wval x / P ∧
  wval x / P = get_Val (S wd + s + 1) x * 2 ^ 32 + get_Val (S wd + s) x.
Proof.
  intros Hx Hl. replace (S wd + s + 1)%nat with (S (S (s + wd))) in * by lia. replace (S wd + s)%nat with (S (s + wd)) by lia.
  pose proof (get_Val_range (S (S (s + wd))) x Hx). pose proof (get_Val_range (S (s + wd)) x Hx).
  assert (E : wval x / P = get_Val (S (S (s + wd))) x * 2 ^ 32 + get_Val (S (s + wd)) x).
  { rewrite <- (take_ge x (S (S (s + wd)))) at 1 by lia. rewrite !wval_take_S, pw_S. fold P.
    pose proof (wval_take (s + wd) x Hx) as E. pose proof (Z.mod_pos_bound (wval x) P (pw_pos _)) as R. fold P in E. rewrite <- E in R.
    symmetry. apply (Z.div_unique_pos _ _ _ (wval (take (s + wd) x))); [done|ring]. }
  split; [|done]. rewrite E. unfold nWordBits. rewrite u64_small by (rewrite Z.shiftl_mul_pow2; lia).
  rewrite Z.lor_comm, lor_add; lia.
Qed.

Lemma DivOnceNormalized_spec resid : words resid → wval resid < 2 ^ 32 * D →
  get_Val (S wd + s + 1) resid < dn ∨ get_Val (S wd + s) resid < dn →
  ∃ resid', DivOnceNormalized s div resid = Some (wval resid / D, resid') ∧
    length resid' = length resid ∧ words resid' ∧ wval resid' = wval resid mod D.
Proof.
  intros Hr HV Hng. pose proof DivOnce_D as HD. pose proof (pw_pos (s + wd)) as HP. fold P in HP.
  assert (0 < D) by (unfold dn in *; nia). pose proof (wval_range resid Hr) as R.
  pose proof (get_Val_range (S wd) div Hdiv) as Hdn. fold dn in Hnorm, Hdn.
  set (N := (S wd + s + 1)%nat) in *. set (x := take N resid). assert (Hx : words x) by by apply words_take.
  assert (EN : pw N = 2 ^ 32 * 2 ^ 32 * P) by (unfold N, P; replace (S wd + s + 1)%nat with (S (S (s + wd))) by lia; rewrite !pw_S; ring).
  assert (Hvx : wval x = wval resid) by (unfold x; rewrite wval_take, Z.mod_small by (done || nia); done).
  assert (Hdrop : wval (drop N resid) = 0).
  { pose proof (wval_split N resid) as Es. fold x in Es. pose proof (pw_pos (Nat.min N (length resid))). nia. }
  assert (Hlx : length x = Nat.min N (length resid)) by apply length_take.
  destruct (Nat.lt_ge_cases (length x) (S wd + s)) as [Hs|Hs].
  { assert (wval resid < D).
    { apply Z.lt_le_trans with P; [|unfold dn in *; nia]. eapply Z.lt_le_trans; [apply R|]. unfold P, pw. apply Z.pow_le_mono_r; lia. }
    exists resid. rewrite Z.div_small, Z.mod_small by lia. unfold DivOnceNormalized. rewrite Hwd. fold N x.
    destruct (Nat.ltb_spec (length x) (S wd + s)); [done|lia]. }
  destruct (hiPart_spec x Hx ltac:(lia)) as [EP HH].
  rewrite (DivOnceNormalized_eq resid x _ _ eq_refl Hs eq_refl eq_refl). rewrite EP. fold N in EP, HH |- *.
  assert (Hget : ∀ d, (d ≤ N)%nat → get_Val d resid = get_Val d x).
  { intros [|d] Hd; [done|]. cbn [get_Val]. unfold x. by rewrite lookup_take_lt by lia. }
  rewrite !Hget in Hng by lia. pose proof (get_Val_range N x Hx). pose proof (get_Val_range (S wd + s) x Hx).
  assert (HhN : length x = (S wd + s)%nat → get_Val N x = 0) by (intros; apply get_Val_ge; lia).
  set (hN := get_Val N x) in *. set (lo := get_Val (S wd + s) x) in *.
  assert (hN ≤ dn).
  { assert (wval x / P < 2 ^ 32 * (dn + 1)) by (apply Z.div_lt_upper_bound; nia). lia. }
  destruct (qhat_word hN lo dn) as (E0 & E1 & Hq0 & Hq1); [done|lia|lia|done|]. rewrite <- HH in E0, E1, Hq0, Hq1.
  pose proof (qhat_bounds (wval x) D P dn (2 ^ 32) HP ltac:(lia) HD ltac:(lia)) as HK.
  set (qh := Z.min (wval x / P / dn) (2 ^ 32 - 1)) in *. cbv zeta. rewrite E0.
  assert (0 ≤ wval x / D) by (apply Z.div_pos; lia).
  destruct (Z.eqb_spec qh 0) as [Ez|Ez].
  { assert (Hd0 : wval x / D = 0) by lia. exists resid. rewrite <- Hvx, Hd0. split_and!; [done|done|done|].
    pose proof (Z.div_mod (wval x) D ltac:(lia)). nia. }
  rewrite E1 by done. pose proof (DivOnce_correct_spec qh x Hx ltac:(lia)) as HC. cbv zeta in HC. fold D in HC.
  specialize (HC ltac:(destruct (decide (length x = (S wd + s)%nat)); [left|right]; lia) ltac:(lia)).
  destruct (DivOnce_correct qh x) as [q x']. destruct HC as (-> & Hlx' & Hx' & Hv'). rewrite Hvx in *.
  exists (x' ++ drop N resid). rewrite length_app, length_drop, wval_app, Hdrop, words_app.
  split_and!; [done|lia|done|by apply words_drop|lia].
Qed.

End DivOnce.

(** ** All the quotient words *)

(** The second word of the divisor is below its top word. *)
Definition safe_divisor (div : list Z) : Prop := get_Val (length div - 1) div < get_Val (length div) div.

Lemma safe_window s wd div resid : words div → length div = S wd → safe_divisor div →
  words resid → wval resid < 2 ^ 32 * (pw s * wval div) →
  get_Val (S wd + s + 1) resid < get_Val (S wd) div ∨ get_Val (S wd + s) resid < get_Val (S wd) div.
Proof.
  intros Hdiv Hl Hsafe Hr HV. unfold safe_divisor in Hsafe. rewrite Hl in Hsafe. replace (S wd - 1)%nat with wd in Hsafe by lia.
  set (dn := get_Val (S wd) div) in *. set (d2 := get_Val wd div) in *.
  destruct (Z.lt_ge_cases (get_Val (S wd + s + 1) resid) dn) as [|H1]; [by left|].
  destruct (Z.lt_ge_cases (get_Val (S wd + s) resid) dn) as [|H2]; [by right|]. exfalso.
  replace (S wd + s + 1)%nat with (S (S (wd + s))) in H1 by lia. change (S wd + s)%nat with (S (wd + s)) in H2.
  assert (Hge : pw (wd + s) * (dn + 2 ^ 32 * dn) ≤ wval resid).
  { pose proof (wval_range _ (words_drop (S (S (wd + s))) resid Hr)). pose proof (wval_range _ (words_take (wd + s) resid Hr)).
    rewrite (wval_split (S (S (wd + s))) resid), !wval_take_S, pw_S. pose proof (pw_pos (wd + s)).
    pose proof (pw_pos (Nat.min (S (S (wd + s))) (length resid))). nia. }
  assert (Hd : 2 ^ 32 * wval div ≤ pw wd * (dn + 2 ^ 32 * dn)).
  { rewrite <- (take_ge div (S wd)) by lia. rewrite wval_take_S. fold dn. destruct wd as [|wd]; [rewrite take_0, pw_0; cbn [wval]; unfold d2 in *; cbn [get_Val] in Hsafe; lia|].
    rewrite wval_take_S. fold d2. pose proof (wval_range _ (words_take wd div Hdiv)) as R. rewrite length_take_le in R by lia.
    rewrite pw_S. pose proof (pw_pos wd). nia. }
  rewrite pw_add in Hge. pose proof (pw_pos s). nia.
Qed.

Lemma SetDivResidNormalized_spec n div resid : words div → (0 < length div)%nat → 2 ^ 31 ≤ get_Val (length div) div →
  safe_divisor div → words resid → wval resid < pw n * wval div →
  ∃ q r, SetDivResidNormalized n resid div = Some (q, r) ∧ length q = n ∧ words q ∧ length r = length resid ∧ words r ∧
    wval q = wval resid / wval div ∧ wval r = wval resid mod wval div.
Proof.
  intros Hdiv Hl Hnorm Hsafe. destruct (length div) as [|wd] eqn:El; [lia|]. revert resid.
  assert (Hd0 : 0 < wval div).
  { rewrite <- (take_ge div (S wd)) by lia. rewrite wval_take_S. pose proof (wval_range _ (words_take wd div Hdiv)). pose proof (pw_pos wd). nia. }
  induction n as [|n IH]; intros resid Hr HV; cbn [SetDivResidNormalized].
  { pose proof (wval_range resid Hr). rewrite pw_0 in HV. exists [], resid. rewrite Z.div_small, Z.mod_small by lia.
    split_and!; try done; apply Forall_nil_2. }
  rewrite pw_S in HV. pose proof (pw_pos n) as Hpn. pose proof (wval_range resid Hr).
  destruct (DivOnceNormalized_spec n wd div Hdiv El Hnorm resid Hr) as (r1 & -> & Hl1 & Hr1 & Hv1); [cbv zeta; lia|apply safe_window; done || lia|].
  cbv zeta in *. set (D := pw n * wval div) in *. assert (0 < D) by (unfold D; nia). pose proof (Z.mod_pos_bound (wval resid) D ltac:(lia)).
  destruct (IH r1 Hr1) as (q & r & Hq & Hlq & Hwq & Hlr & Hwr & Hvq & Hvr); [fold D; lia|].
  cbn [mbind option_bind]. rewrite Hq. cbn [mbind option_bind]. exists (q ++ [wval resid / D]), r.
  assert (0 ≤ wval resid / D < 2 ^ 32) by (split; [apply Z.div_pos; lia|apply Z.div_lt_upper_bound; lia]).
  rewrite length_app, words_snoc, wval_snoc, Hlq, Hvq, Hvr, Hv1. pose proof (Z.div_mod (wval resid) D ltac:(lia)) as E.
  rewrite <- (Z.mod_mod_divide (wval resid) D (wval div)) by (exists (pw n); unfold D; lia).
  split_and!; [done|cbn; lia|done|lia|lia|lia|done| |done].
  clear -E Hd0. set (Q := wval resid / D) in *. set (M := wval resid mod D) in *. clearbody Q M. rewrite E.
  replace (D * Q + M) with (pw n * Q * wval div + M) by (unfold D; ring). rewrite Z.div_add_l by lia. lia.
Qed.

(** ** The divisor brought to its normal form *)

(** The number of words up to the highest that is not zero. *)
Fixpoint sig_words (wb : nat) (b : list Z) : nat :=
  match wb with O => O | S wb' => if get_Val wb b =? 0 then sig_words wb' b else wb end.

Definition normalized (b : list Z) : list Z :=
  let wb := sig_words (length b) b in
  let nBits := BitUtils.FindHiBit32 (get_Val wb b) in
  if nBits =? nWordBits then take wb b else Set_LShift wb (nWordBits - nBits) b.

Lemma SetDivResid_sig n wb resid b : SetDivResid n wb resid b = SetDivResid n (sig_words wb b) resid b.
Proof.
  induction wb as [|wb IH]; [done|]. cbn [sig_words]. destruct (get_Val (S wb) b =? 0) eqn:E; [|done].
  rewrite <- IH. cbn [SetDivResid]. by rewrite E.
Qed.

Lemma sig_words_val b wb : wval (take wb b) = wval (take (sig_words wb b) b).
Proof.
  induction wb as [|wb IH]; [done|]. cbn [sig_words]. destruct (Z.eqb_spec (get_Val (S wb) b) 0) as [E|]; [|done].
  rewrite <- IH, wval_take_S, E. lia.
Qed.

Lemma sig_words_top b wb : words b → 0 < wval (take wb b) →
  ∃ w, sig_words wb b = S w ∧ (S w ≤ wb)%nat ∧ 1 ≤ get_Val (S w) b.
Proof.
  intros Hb. induction wb as [|wb IH]; [rewrite take_0; cbn; lia|]. intros HV. cbn [sig_words].
  pose proof (get_Val_range (S wb) b Hb). destruct (Z.eqb_spec (get_Val (S wb) b) 0) as [E|].
  - rewrite wval_take_S, E in HV. destruct IH as (w & -> & ? & ?); [lia|]. exists w. split_and!; [done|lia|lia].
  - exists wb. split_and!; [done|lia|lia].
Qed.

(** A word shifted so that its top bit is set. *)
Lemma FindHiBit32_shift v : 1 ≤ v < 2 ^ 32 →
  let nb := BitUtils.FindHiBit32 v in 1 ≤ nb ≤ 32 ∧ 2 ^ 31 ≤ v * 2 ^ (32 - nb) < 2 ^ 32.
Proof.
  intros Hv. cbv zeta. rewrite FindHiBit32_spec by lia. destruct (Z.eqb_spec v 0); [lia|].
  pose proof (Z.log2_spec v ltac:(lia)) as HL. pose proof (Z.log2_nonneg v). set (l := Z.log2 v) in *.
  assert (l < 32) by (apply Z.log2_lt_pow2; lia). split; [lia|]. rewrite Z.pow_succ_r in HL by done.
  replace (32 - (l + 1)) with (31 - l) by lia.
  assert (2 ^ 31 = 2 ^ l * 2 ^ (31 - l)) as E by (rewrite <- Z.pow_add_r by lia; f_equal; lia).
  assert (0 < 2 ^ (31 - l)) by (apply Z.pow_pos_nonneg; lia). change (2 ^ 32) with (2 * 2 ^ 31). rewrite E. nia.
Qed.

Lemma normalized_spec b : words b → 0 < wval b →
  let nb := BitUtils.FindHiBit32 (get_Val (sig_words (length b) b) b) in
  1 ≤ nb ≤ 32 ∧ words (normalized b) ∧ length (normalized b) = sig_words (length b) b ∧ (0 < sig_words (length b) b)%nat ∧
  wval (normalized b) = wval b * 2 ^ (32 - nb) ∧ 2 ^ 31 ≤ get_Val (length (normalized b)) (normalized b).
Proof.
  intros Hb HV nb. rewrite <- (take_ge b (length b)) in HV by lia.
  destruct (sig_words_top b (length b) Hb HV) as (w & Es & Hw & Hg). unfold nb, normalized. rewrite Es.
  assert (Hwv : wval b = wval (take (S w) b)) by (rewrite <- Es, <- sig_words_val; by rewrite take_ge by lia).
  pose proof (get_Val_range (S w) b Hb) as Hr. destruct (FindHiBit32_shift (get_Val (S w) b) ltac:(lia)) as [Hnb Hsh].
  clear nb. set (nb := BitUtils.FindHiBit32 (get_Val (S w) b)) in *. set (v := get_Val (S w) b) in *. split; [done|].
  unfold nWordBits. destruct (Z.eqb_spec nb 32) as [->|Hne].
  { change (2 ^ (32 - 32)) with 1 in *. rewrite length_take_le by lia. split_and!; [by apply words_take|done|lia|lia|].
    cbn [get_Val]. rewrite lookup_take_lt by lia. unfold v in *. cbn [get_Val] in Hsh. lia. }
  destruct (Set_LShift_spec (S w) (32 - nb) b Hb ltac:(lia)) as (Hl & Hx & HVx). fold v in HVx.
  assert (H0 : Z.shiftr v (32 - (32 - nb)) = 0).
  { rewrite Z.shiftr_div_pow2 by lia. apply Z.div_small. split; [lia|]. replace (32 - (32 - nb)) with nb by lia.
    assert (2 ^ 32 = 2 ^ nb * 2 ^ (32 - nb)) as E by (rewrite <- Z.pow_add_r by lia; f_equal; lia).
    assert (0 < 2 ^ (32 - nb)) by (apply Z.pow_pos_nonneg; lia). nia. }
  rewrite H0, Z.mul_0_r, Z.add_0_r in HVx. set (y := Set_LShift (S w) (32 - nb) b) in *. rewrite Hl, HVx, Hwv.
  split_and!; [done|done|lia|done|].
  assert (2 ^ 31 * pw w ≤ wval y).
  { rewrite HVx, wval_take_S. fold v. pose proof (wval_range _ (words_take w b Hb)). pose proof (pw_pos w).
    assert (0 < 2 ^ (32 - nb)) by (apply Z.pow_pos_nonneg; lia). nia. }
  rewrite <- (take_ge y (S w)) in H by lia. rewrite wval_take_S in H.
  pose proof (wval_range _ (words_take w y Hx)) as R. rewrite length_take_le in R by lia. pose proof (pw_pos w). nia.
Qed.

(** The residue shifted back. *)
Lemma Set_RShift_exact n k a v : words a → 0 < k < 32 → length a = S n → 0 ≤ v < pw n → wval a = v * 2 ^ k →
  length (Set_RShift n k a) = n ∧ words (Set_RShift n k a) ∧ wval (Set_RShift n k a) = v.
Proof.
  intros Ha Hk Hl Hv HV. destruct (Set_RShift_spec n k a Ha Hk) as (Hl' & Hw & E). split_and!; [done|done|].
  assert (0 < 2 ^ k) by (apply Z.pow_pos_nonneg; lia). pose proof (wval_range _ (words_take n a Ha)).
  pose proof (Z.mod_pos_bound (get_Val 1 a) (2 ^ k) ltac:(lia)). pose proof (get_Val_range (S n) a Ha).
  rewrite <- (take_ge a (S n)) in HV by lia. rewrite wval_take_S in HV. pose proof (pw_pos n).
  assert (get_Val (S n) a < 2 ^ k) by nia. rewrite (Z.mod_small (get_Val (S n) a)) in E by lia. nia.
Qed.

(** Division with residue, for a quotient that fits its words. *)
Lemma SetDivResid_spec n resid b : words resid → words b → 0 < wval b → safe_divisor (normalized b) →
  wval resid < pw n * wval b →
  ∃ q r, SetDivResid n (length b) resid b = Some (q, r) ∧ length q = n ∧ words q ∧ length r = length resid ∧ words r ∧
    wval q = wval resid / wval b ∧ wval r = wval resid mod wval b.
Proof.
  intros Hr Hb Hb0 Hsafe HV. pose proof (normalized_spec b Hb Hb0) as (Hnb & Hwn & Hln & Hs0 & Hvn & Htop).
  rewrite SetDivResid_sig. pose proof (wval_range resid Hr) as R.
  unfold normalized in *. set (wb := sig_words (length b) b) in *. set (nb := BitUtils.FindHiBit32 (get_Val wb b)) in *.
  assert (Hv0 : get_Val wb b ≠ 0).
  { destruct (sig_words_top b (length b) Hb) as (w & Es & ? & ?); [by rewrite take_ge by lia|]. unfold wb. rewrite Es. lia. }
  clearbody wb. destruct wb as [|wb]; [lia|]. cbn [SetDivResid]. destruct (Z.eqb_spec (get_Val (S wb) b) 0); [done|]. cbn [negb]. fold nb.
  unfold nWordBits in *. destruct (Z.eqb_spec nb 32) as [E|Hne].
  { rewrite E, Z.sub_diag, Z.mul_1_r in Hvn. rewrite <- Hvn in *. apply SetDivResidNormalized_spec; done || lia. }
  set (k := 32 - nb) in *. set (b2 := Set_LShift (S wb) k b) in *.
  destruct (Set_LShift_spec (length resid + 1) k resid Hr ltac:(lia)) as (Hl2 & Hw2 & HV2).
  rewrite (get_Val_ge (length resid + 1)), Z.shiftr_0_l, Z.mul_0_r, Z.add_0_r, take_ge in HV2 by lia.
  assert (Hk : 0 < 2 ^ k) by (apply Z.pow_pos_nonneg; lia).
  destruct (SetDivResidNormalized_spec n b2 _ Hwn ltac:(lia) Htop Hsafe Hw2) as (q & r & -> & Hlq & Hwq & Hlr & Hwr & Hvq & Hvr); [rewrite HV2, Hvn; nia|].
  cbn [mbind option_bind]. rewrite HV2, Hvn, Z.div_mul_cancel_r in Hvq by lia. rewrite HV2, Hvn, Z.mul_mod_distr_r in Hvr by lia.
  pose proof (Z.mod_pos_bound (wval resid) (wval b) Hb0). pose proof (Z.mod_le (wval resid) (wval b) ltac:(lia) Hb0).
  destruct (Set_RShift_exact (length resid) k r (wval resid mod wval b) Hwr) as (? & ? & ?); [lia|lia|lia|done|].
  by exists q, (Set_RShift (length resid) k r).
Qed.

(** A divisor of one significant word is always safe. *)
Lemma safe_word b : words b → 0 < wval b < 2 ^ 32 → safe_divisor (normalized b).
Proof.
  intros Hb Hb0. pose proof (normalized_spec b Hb ltac:(lia)) as (_ & _ & Hl & _ & _ & Htop). unfold safe_divisor.
  destruct (sig_words_top b (length b) Hb) as (w & Es & Hw & Hg); [rewrite take_ge by lia; lia|].
  assert (w = 0%nat) as ->.
  { destruct w as [|w]; [done|]. pose proof (sig_words_val b (length b)) as E. rewrite take_ge in E by lia. rewrite Es, wval_take_S in E.
    pose proof (wval_range _ (words_take (S w) b Hb)). rewrite pw_S in E. pose proof (pw_pos w). nia. }
  rewrite Es in Hl. rewrite Hl in *. change (get_Val (1 - 1) (normalized b)) with 0. lia.
Qed.

(** Division by zero gives the largest quotient and leaves the dividend as the residue. *)
Lemma SetDivResid_zero n resid b : words b → wval b = 0 → SetDivResid n (length b) resid b = Some (SetMax n, resid).
Proof.
  intros Hb H0. rewrite SetDivResid_sig. rewrite <- (take_ge b (length b)) in H0 by lia.
  induction (length b) as [|wb IH]; [done|]. pose proof (wval_range _ (words_take wb b Hb)). pose proof (get_Val_range (S wb) b Hb).
  rewrite wval_take_S in H0. pose proof (pw_pos wb). cbn [sig_words]. destruct (Z.eqb_spec (get_Val (S wb) b) 0); [apply IH; lia|nia].
Qed.
