(* ===== verification/ShaderFloat.v ===== *)
(** * bvm/Shaders/Math.h: [MultiPrecision::Float], [Strict] and [Utils]

    A float is a 64-bit mantissa and a 32-bit exponent, for the number [m_Num * 2^m_Order].
    The mantissa of a number other than zero has its top bit set.  The theorems give the
    result of each operation exactly, as a truncated quotient of integers. *)

From stdpp Require Import base list numbers option gmap.
From S2P Require Import Prelude ShaderMath ShaderMathSpec ShaderDiv.
Local Open Scope Z_scope.
Import MultiPrecision.

Module Float.

Record Float := mk { m_Num : Z; m_Order : Z }.

Definition s_Bits : Z := 64.
Definition s_HiBit : Z := Z.shiftl 1 (s_Bits - 1).

Definition Set0 : Float := mk 0 0.

Definition IsZero (x : Float) : bool := m_Num x =? 0.

Definition Normalize (x : Float) : Float :=
  let nBits := BitUtils.FindHiBit64 (m_Num x) in
  if negb (nBits =? s_Bits) then
    if negb (nBits =? 0) then
      let nDelta := u32 (s_Bits - nBits) in
      mk (u64 (Z.shiftl (m_Num x) nDelta)) (i32 (m_Order x - nDelta))
    else Set0
  else x.

(** [Set], and the constructor from an integer. *)
Definition of_Z (v : Z) : Float := Normalize (mk v 0).

Definition Get (x : Float) : Z :=
  if 0 <? m_Order x then u64 (-1)
  else
    let ord := u32 (- m_Order x) in
    if s_Bits <=? ord then 0 else Z.shiftr (m_Num x) ord.

Definition AddMsb (x : Float) : Float :=
  mk (Z.lor (Z.shiftr (m_Num x) 1) s_HiBit) (i32 (m_Order x + 1)).

Definition AddInternal (x b : Float) : Float :=
  let dOrder := u32 (m_Order x - m_Order b) in
  if s_Bits <=? dOrder then x
  else
    let res := mk (u64 (m_Num x + Z.shiftr (m_Num b) dOrder)) (m_Order x) in
    if m_Num res <? m_Num x then AddMsb res else res.

Definition add (x b : Float) : Float :=
  if IsZero x then b
  else if IsZero b then x
  else if m_Order b <=? m_Order x then AddInternal x b else AddInternal b x.

Definition sub (x b : Float) : Float :=
  if IsZero b then x
  else
    let dOrder := u32 (m_Order x - m_Order b) in
    if s_Bits <=? dOrder then x
    else Normalize (mk (u64 (m_Num x - Z.shiftr (m_Num b) dOrder)) (m_Order x)).

Definition mul (x b : Float) : Float :=
  if IsZero x then x
  else if IsZero b then b
  else
    let p := MultiPrecision.mul (From64 (m_Num x)) (From64 (m_Num b)) in
    let order := i32 (m_Order x + m_Order b + s_Bits) in
    let num := get_Ord (length p) 2 8 p in
    if Z.land s_HiBit num =? 0 then
      mk (Z.lor (u64 (Z.shiftl num 1)) (Z.shiftr (get_Val 2 p) (nWordBits - 1))) (i32 (order - 1))
    else mk num order.

(** The quotient of two words is written into [res], whose words it replaces. *)
Definition DivInternal (a b : Z) : option Z :=
  let nom := fst (set_Ord 4 2 8 a) in
  '(q, _) ← SetDivResidNormalized 2 nom (From64 b);
  Some (get_Ord 2 0 8 q).

Definition div (x b : Float) : option Float :=
  if IsZero x then Some x
  else if IsZero b then Some b
  else
    let order := i32 (m_Order x - m_Order b - s_Bits) in
    if m_Num b <=? m_Num x then
      num ← DivInternal (u64 (m_Num x - m_Num b)) (m_Num b);
      Some (AddMsb (mk num order))
    else
      num ← DivInternal (m_Num x) (m_Num b);
      Some (mk num order).

Definition shl (x : Float) (n : Z) : Float := if IsZero x then x else mk (m_Num x) (i32 (m_Order x + n)).
Definition shr (x : Float) (n : Z) : Float := if IsZero x then x else mk (m_Num x) (i32 (m_Order x - n)).

Definition cmp (x y : Float) : Z :=
  if IsZero x then (if IsZero y then 0 else -1)
  else if IsZero y then 1
  else if m_Order x <? m_Order y then -1
  else if m_Order y <? m_Order x then 1
  else if m_Num x <? m_Num y then -1
  else if m_Num y <? m_Num x then 1
  else 0.

End Float.

(** ** Amounts that must not overflow *)

Module Strict.

(** [Env::Halt_if] ends the call: no result. *)
Definition Add (a b : Z) : option Z := let a := u64 (a + b) in if a <? b then None else Some a.
Definition Sub (a b : Z) : option Z := if a <? b then None else Some (u64 (a - b)).

Lemma Add_spec a b : 0 ≤ a < 2 ^ 64 → 0 ≤ b < 2 ^ 64 → Add a b = if a + b <? 2 ^ 64 then Some (a + b) else None.
Proof.
  intros. unfold Add. destruct (Z.ltb_spec (a + b) (2 ^ 64)).
  - rewrite u64_small by lia. by destruct (Z.ltb_spec (a + b) b); [lia|].
  - replace (u64 (a + b)) with (a + b - 2 ^ 64); [by destruct (Z.ltb_spec (a + b - 2 ^ 64) b); [|lia]|].
    unfold u64. apply (Z.mod_unique_pos _ _ 1); lia.
Qed.

Lemma Sub_spec a b : 0 ≤ a < 2 ^ 64 → 0 ≤ b < 2 ^ 64 → Sub a b = if a <? b then None else Some (a - b).
Proof. intros. unfold Sub. destruct (Z.ltb_spec a b); [done|]. by rewrite u64_small by lia. Qed.

End Strict.

Module Utils.

(** [AverageUnsigned] on 64-bit values. *)
Definition AverageUnsigned (a b : Z) : Z :=
  let a := u64 (a + b) in
  let bHasCarry := a <? b in
  let a := a / 2 in
  if bHasCarry then Z.lor a (Z.shiftl 1 63) else a.

Lemma AverageUnsigned_spec a b : 0 ≤ a < 2 ^ 64 → 0 ≤ b < 2 ^ 64 → AverageUnsigned a b = (a + b) / 2.
Proof.
  intros. unfold AverageUnsigned. destruct (Z.lt_ge_cases (a + b) (2 ^ 64)) as [Hs|Hs].
  - rewrite u64_small by lia. by destruct (Z.ltb_spec (a + b) b); [lia|].
  - replace (u64 (a + b)) with (a + b - 2 ^ 64) by (unfold u64; apply (Z.mod_unique_pos _ _ 1); lia).
    destruct (Z.ltb_spec (a + b - 2 ^ 64) b); [|lia].
    assert (0 ≤ (a + b - 2 ^ 64) / 2 < 2 ^ 63) by (split; [apply Z.div_pos; lia|apply Z.div_lt_upper_bound; lia]).
    rewrite lor_add by lia.
    replace (a + b) with (a + b - 2 ^ 64 + 2 ^ 63 * 2) at 2 by lia. rewrite Z.div_add by lia. lia.
Qed.

End Utils.

(** ** What the float operations compute *)

Module FloatSpec.
Import Float.

(** A number the operations take and give. *)
Definition norm (x : Float) : Prop := 2 ^ 63 ≤ m_Num x < 2 ^ 64.

(** An exponent with room for a few operations before it leaves 32 bits. *)
Definition small_order (x : Float) : Prop := -2 ^ 29 ≤ m_Order x ≤ 2 ^ 29.

Lemma IsZero_norm x : norm x → IsZero x = false.
Proof. unfold norm, IsZero. intros. apply Z.eqb_neq. lia. Qed.

Lemma i32_id x : -2 ^ 31 ≤ x < 2 ^ 31 → i32 x = x.
Proof. intros. destruct (Z.lt_ge_cases x 0); [apply i32_neg|apply i32_small]; lia. Qed.

Lemma FindHiBit64_shift v : 1 ≤ v < 2 ^ 64 →
  let nb := BitUtils.FindHiBit64 v in 1 ≤ nb ≤ 64 ∧ 2 ^ 63 ≤ v * 2 ^ (64 - nb) < 2 ^ 64 ∧ nb = Z.log2 v + 1.
Proof.
  intros Hv. cbv zeta. rewrite FindHiBit64_spec by lia. destruct (Z.eqb_spec v 0); [lia|].
  pose proof (Z.log2_spec v ltac:(lia)) as HL. pose proof (Z.log2_nonneg v). set (l := Z.log2 v) in *.
  assert (l < 64) by (apply Z.log2_lt_pow2; lia). split; [lia|]. rewrite Z.pow_succ_r in HL by done.
  replace (64 - (l + 1)) with (63 - l) by lia.
  assert (2 ^ 63 = 2 ^ l * 2 ^ (63 - l)) as E by (rewrite <- Z.pow_add_r by lia; f_equal; lia).
  assert (0 < 2 ^ (63 - l)) by (apply Z.pow_pos_nonneg; lia). change (2 ^ 64) with (2 * 2 ^ 63). rewrite E. split; [nia|done].
Qed.

(** [Normalize] keeps the number. *)
Lemma Normalize_spec x : 1 ≤ m_Num x < 2 ^ 64 → -2 ^ 30 ≤ m_Order x ≤ 2 ^ 30 →
  ∃ k, 0 ≤ k ≤ 63 ∧ Normalize x = mk (m_Num x * 2 ^ k) (m_Order x - k) ∧ norm (Normalize x) ∧ k = 63 - Z.log2 (m_Num x).
Proof.
  intros Hx Ho. destruct (FindHiBit64_shift (m_Num x) Hx) as (Hnb & Hsh & El). cbv zeta in *. unfold Normalize, norm, s_Bits.
  set (nb := BitUtils.FindHiBit64 (m_Num x)) in *. exists (64 - nb).
  destruct (Z.eqb_spec nb 64) as [->|]; cbn [negb].
  { change (2 ^ (64 - 64)) with 1 in *. rewrite Z.mul_1_r in *. split_and!; [lia|lia| |lia|lia|lia].
    destruct x as [m o]. cbn [m_Num m_Order]. f_equal. lia. }
  destruct (Z.eqb_spec nb 0); [lia|]. cbn [negb m_Num]. casts. rewrite Z.shiftl_mul_pow2 by lia. casts.
  rewrite i32_id by lia. split_and!; [lia|lia|done|lia|lia|lia].
Qed.

(** An integer is represented exactly ... *)
Lemma of_Z_spec v : 1 ≤ v < 2 ^ 64 →
  ∃ k, 0 ≤ k ≤ 63 ∧ of_Z v = mk (v * 2 ^ k) (- k) ∧ norm (of_Z v) ∧ k = 63 - Z.log2 v.
Proof. intros Hv. exact (Normalize_spec (mk v 0) Hv ltac:(cbn; lia)). Qed.

Lemma of_Z_0 : of_Z 0 = Set0.
Proof. done. Qed.

(** ... and [Get] truncates. *)
Lemma Get_spec x : 0 ≤ m_Num x < 2 ^ 64 → -2 ^ 31 < m_Order x ≤ 0 → Get x = m_Num x / 2 ^ (- m_Order x).
Proof.
  intros Hx Ho. unfold Get, s_Bits. destruct (Z.ltb_spec 0 (m_Order x)); [lia|]. casts.
  destruct (Z.leb_spec 64 (- m_Order x)); [|by rewrite Z.shiftr_div_pow2 by lia].
  symmetry. apply Z.div_small. split; [lia|]. apply Z.lt_le_trans with (2 ^ 64); [lia|]. apply Z.pow_le_mono_r; lia.
Qed.

Lemma Get_of_Z v : 0 ≤ v < 2 ^ 64 → Get (of_Z v) = v.
Proof.
  intros Hv. destruct (decide (v = 0)) as [->|]; [done|].
  destruct (of_Z_spec v ltac:(lia)) as (k & Hk & E & Hn & _). unfold norm in Hn. rewrite E in *. cbn [m_Num] in Hn.
  rewrite Get_spec by (cbn [m_Num m_Order]; lia). cbn [m_Num m_Order]. rewrite Z.opp_involutive. apply Z.div_mul.
  apply Z.pow_nonzero; lia.
Qed.

(** ** Products *)

Lemma From64_val v : 0 ≤ v < 2 ^ 64 → length (From64 v) = 2%nat ∧ words (From64 v) ∧ wval (From64 v) = v.
Proof. intros Hv. destruct (FromEx_val 0 v Hv) as (? & ? & E). rewrite pw_0, Z.mul_1_l in E. done. Qed.

Lemma HiBit_test v : 0 ≤ v < 2 ^ 64 → (Z.land s_HiBit v =? 0) = (v <? 2 ^ 63).
Proof.
  intros Hv. unfold s_HiBit, s_Bits. change (Z.shiftl 1 (64 - 1)) with (2 ^ 63).
  assert (E : Z.testbit v 63 = negb (v <? 2 ^ 63)).
  { rewrite Z.testbit_eqb by lia. destruct (Z.ltb_spec v (2 ^ 63)).
    - by rewrite Z.div_small by lia.
    - replace (v / 2 ^ 63) with 1; [done|]. apply (Z.div_unique_pos _ _ _ (v - 2 ^ 63)); lia. }
  apply eq_bool_prop_intro. rewrite !Is_true_true, Z.eqb_eq. split; intros H.
  - destruct (v <? 2 ^ 63); [done|]. assert (Z.testbit (Z.land (2 ^ 63) v) 63 = true) by by rewrite Z.land_spec, E.
    by rewrite H in H0.
  - apply Z.bits_inj'. intros i Hi. rewrite Z.land_spec, Z.bits_0, Z.pow2_bits_eqb by lia.
    destruct (Z.eqb_spec 63 i) as [<-|]; [by rewrite E, H|done].
Qed.

(** The product, truncated to 64 bits. *)
Lemma Float_mul_spec x b : norm x → norm b → small_order x → small_order b →
  ∃ e, (e = 63 ∨ e = 64) ∧ mul x b = mk (m_Num x * m_Num b / 2 ^ e) (m_Order x + m_Order b + e) ∧ norm (mul x b).
Proof.
  intros Hx Hb Hox Hob. unfold mul. rewrite !IsZero_norm by done. unfold norm, small_order in *.
  destruct (From64_val (m_Num x) ltac:(lia)) as (Hlx & Hwx & Hvx). destruct (From64_val (m_Num b) ltac:(lia)) as (Hlb & Hwb & Hvb).
  destruct (mul_val _ _ Hwx Hwb) as (Hl & Hw & Hv). rewrite Hvx, Hvb in Hv. rewrite Hlx, Hlb in Hl. change (2 + 2)%nat with 4%nat in Hl.
  set (p := MultiPrecision.mul _ _) in *. cbv zeta. rewrite Hl. rewrite (get_Ord_spec 2 p Hw) by lia.
  pose proof (get_Val_range 1 p Hw). pose proof (get_Val_range 2 p Hw). pose proof (get_Val_range 3 p Hw). pose proof (get_Val_range 4 p Hw).
  assert (E : m_Num x * m_Num b = get_Val 1 p + 2 ^ 32 * get_Val 2 p + 2 ^ 64 * (get_Val 3 p + 2 ^ 32 * get_Val 4 p)).
  { rewrite <- Hv, <- (take_ge p 4) at 1 by lia. rewrite !wval_take_S, take_0. cbn [wval]. change (pw 0) with 1. change (pw 1) with (2 ^ 32).
    change (pw 2) with (2 ^ 64). change (pw 3) with (2 ^ 96). lia. }
  set (w1 := get_Val 1 p) in *. set (w2 := get_Val 2 p) in *. set (num := get_Val 3 p + 2 ^ 32 * get_Val 4 p) in *.
  assert (Hnum : 0 ≤ num < 2 ^ 64) by lia. assert (2 ^ 126 ≤ m_Num x * m_Num b) by nia.
  rewrite HiBit_test, (i32_id (m_Order x + m_Order b + s_Bits)) by (unfold s_Bits; lia). destruct (Z.ltb_spec num (2 ^ 63)).
  - exists 63. rewrite i32_id by (unfold s_Bits; lia). unfold nWordBits, s_Bits. rewrite Z.shiftr_div_pow2 by lia.
    change (32 - 1) with 31. assert (0 ≤ w2 / 2 ^ 31 < 2 ^ 1) by (split; [apply Z.div_pos; lia|apply Z.div_lt_upper_bound; lia]).
    rewrite u64_small, Z.lor_comm, lor_add by (rewrite ?Z.shiftl_mul_pow2; lia).
    assert (Eq : m_Num x * m_Num b / 2 ^ 63 = num * 2 ^ 1 + w2 / 2 ^ 31).
    { symmetry. apply (Z.div_unique_pos _ _ _ (w1 + 2 ^ 32 * (w2 mod 2 ^ 31))); pose proof (Z.mod_pos_bound w2 (2 ^ 31) ltac:(lia));
        pose proof (Z.div_mod w2 (2 ^ 31) ltac:(lia)); lia. }
    rewrite <- Eq. cbn [m_Num]. split_and!; [by left|f_equal; lia| |lia]. apply Z.div_le_lower_bound; lia.
  - exists 64. unfold s_Bits. assert (Eq : m_Num x * m_Num b / 2 ^ 64 = num).
    { symmetry. apply (Z.div_unique_pos _ _ _ (w1 + 2 ^ 32 * w2)); lia. }
    rewrite Eq. cbn [m_Num]. split_and!; [by right|done|done|lia].
Qed.

(** ** Quotients *)

(** The low half of the divisor's mantissa is below its high half. *)
Definition safe_mantissa (b : Float) : Prop := m_Num b mod 2 ^ 32 < m_Num b / 2 ^ 32.

Lemma From64_words v : 0 ≤ v < 2 ^ 64 → From64 v = [v mod 2 ^ 32; v / 2 ^ 32].
Proof.
  intros Hv. unfold From64, FromEx. change (Z.to_nat ((8 + 3) / 4) + 0)%nat with 2%nat. cbn [set_Ord Nat.leb fst app].
  change (8 <=? 4) with false. rewrite shiftr_32, (u32_small (v / 2 ^ 32)); [done|].
  split; [apply Z.div_pos; lia|apply Z.div_lt_upper_bound; lia].
Qed.

Lemma DivInternal_spec a b : 2 ^ 63 ≤ b < 2 ^ 64 → 0 ≤ a < b → b mod 2 ^ 32 < b / 2 ^ 32 →
  DivInternal a b = Some (a * 2 ^ 64 / b).
Proof.
  intros Hb Ha Hs. unfold DivInternal. destruct (From64_val b ltac:(lia)) as (Hlb & Hwb & Hvb).
  pose proof (set_Ord_spec 4 2 a ltac:(lia)) as HO. destruct (set_Ord 4 2 8 a) as [nom v'].
  destruct HO as (Hln & Hwn & Hv' & Hvn). cbn [fst]. change (pw (Nat.min 4 2)) with (2 ^ 64) in Hvn. change (pw 4) with (2 ^ 128) in Hvn.
  pose proof (wval_range nom Hwn). assert (v' = 0) as -> by nia.
  assert (Etop : get_Val 2 (From64 b) = b / 2 ^ 32) by by rewrite From64_words by lia.
  assert (Elow : get_Val 1 (From64 b) = b mod 2 ^ 32) by by rewrite From64_words by lia.
  destruct (SetDivResidNormalized_spec 2 (From64 b) nom) as (q & r & -> & Hlq & Hwq & _ & _ & Hq & _); [done|lia| | |done| |].
  - rewrite Hlb, Etop. apply Z.div_le_lower_bound; lia.
  - unfold safe_divisor. rewrite Hlb. change (2 - 1)%nat with 1%nat. by rewrite Etop, Elow.
  - rewrite Hvb. change (pw 2) with (2 ^ 64). nia.
  - cbn [mbind option_bind]. f_equal. rewrite (get_Ord_spec 0 q Hwq) by lia. rewrite Hvb in Hq.
    replace (a * 2 ^ 64) with (wval nom) by lia. rewrite <- Hq. destruct q as [|w1 [|w2 [|]]]; try done.
    change (w1 + 2 ^ 32 * w2 = w1 + 2 ^ 32 * (w2 + 2 ^ 32 * 0)). lia.
Qed.

(** The quotient, truncated to 64 bits, for a divisor with a safe mantissa. *)
Lemma div_spec x b : norm x → norm b → safe_mantissa b → small_order x → small_order b →
  ∃ e r, (e = 63 ∨ e = 64) ∧ div x b = Some r ∧ r = mk (m_Num x * 2 ^ e / m_Num b) (m_Order x - m_Order b - e) ∧ norm r.
Proof.
  intros Hx Hb Hs Hox Hob. unfold div. rewrite !IsZero_norm by done. unfold norm, safe_mantissa, small_order in *.
  rewrite (i32_id (m_Order x - m_Order b - s_Bits)) by (unfold s_Bits; lia). destruct (Z.leb_spec (m_Num b) (m_Num x)).
  - rewrite u64_small, DivInternal_spec by lia. cbn [mbind option_bind]. eexists 63, _. split; [by left|]. split; [done|].
    set (q := (m_Num x - m_Num b) * 2 ^ 64 / m_Num b).
    assert (Eq : m_Num x * 2 ^ 64 / m_Num b = q + 2 ^ 64).
    { unfold q. replace (m_Num x * 2 ^ 64) with ((m_Num x - m_Num b) * 2 ^ 64 + 2 ^ 64 * m_Num b) by ring. by rewrite Z.div_add by lia. }
    assert (Eh : m_Num x * 2 ^ 63 / m_Num b = q / 2 + 2 ^ 63).
    { replace (q / 2 + 2 ^ 63) with ((q + 2 ^ 63 * 2) / 2) by (rewrite Z.div_add by lia; lia). replace (q + 2 ^ 63 * 2) with (q + 2 ^ 64) by lia.
      rewrite <- Eq, Z.div_div by lia. replace (m_Num x * 2 ^ 64) with (m_Num x * 2 ^ 63 * 2) by lia. by rewrite Z.div_mul_cancel_r by lia. }
    assert (0 ≤ q < 2 ^ 64) by (split; [apply Z.div_pos; lia|apply Z.div_lt_upper_bound; lia]).
    assert (0 ≤ q / 2 < 2 ^ 63) by (split; [apply Z.div_pos; lia|apply Z.div_lt_upper_bound; lia]).
    unfold AddMsb. cbn [m_Num m_Order]. rewrite Z.shiftr_div_pow2 by lia. change (2 ^ 1) with 2.
    unfold s_HiBit, s_Bits. change (64 - 1) with 63. rewrite lor_add, i32_id by lia. rewrite Eh. split_and!; [f_equal; lia|lia|lia].
  - rewrite DivInternal_spec by lia. cbn [mbind option_bind]. eexists 64, _. split; [by right|]. split; [done|]. cbn [m_Num]. unfold s_Bits.
    split; [done|]. split; [apply Z.div_le_lower_bound; lia|apply Z.div_lt_upper_bound; lia].
Qed.

(** ** Sums and differences *)

Lemma AddInternal_spec x b : norm x → norm b → small_order x → small_order b → m_Order b ≤ m_Order x →
  let d := m_Order x - m_Order b in
  ∃ e, (e = 0 ∨ e = 1) ∧ AddInternal x b = mk ((m_Num x * 2 ^ d + m_Num b) / 2 ^ (d + e)) (m_Order x + e) ∧ norm (AddInternal x b).
Proof.
  intros Hx Hb Hox Hob Ho d. unfold AddInternal, norm, small_order, s_Bits in *. rewrite u32_small by lia. fold d.
  assert (Pd : 0 < 2 ^ d) by (apply Z.pow_pos_nonneg; lia).
  assert (E : (m_Num x * 2 ^ d + m_Num b) / 2 ^ d = m_Num x + m_Num b / 2 ^ d) by (rewrite Z.add_comm, Z.div_add by lia; lia).
  destruct (Z.leb_spec 64 d) as [Hd|Hd].
  { exists 0. rewrite !Z.add_0_r, E. split; [by left|]. rewrite (Z.div_small (m_Num b)), Z.add_0_r; [by destruct x|].
    split; [lia|]. apply Z.lt_le_trans with (2 ^ 64); [lia|]. apply Z.pow_le_mono_r; lia. }
  rewrite Z.shiftr_div_pow2 by lia. cbn [m_Num m_Order].
  assert (Hq : 0 ≤ m_Num b / 2 ^ d ≤ m_Num b).
  { split; [apply Z.div_pos; lia|]. apply Z.div_le_upper_bound; nia. }
  set (q := m_Num b / 2 ^ d) in *. destruct (Z.lt_ge_cases (m_Num x + q) (2 ^ 64)) as [Hs|Hs].
  - rewrite u64_small by lia. destruct (Z.ltb_spec (m_Num x + q) (m_Num x)); [lia|]. exists 0. rewrite !Z.add_0_r, E.
    cbn [m_Num]. split_and!; [by left|done|lia|lia].
  - replace (u64 (m_Num x + q)) with (m_Num x + q - 2 ^ 64) by (unfold u64; apply (Z.mod_unique_pos _ _ 1); lia).
    destruct (Z.ltb_spec (m_Num x + q - 2 ^ 64) (m_Num x)); [|lia]. exists 1. unfold AddMsb. cbn [m_Num m_Order].
    rewrite Z.shiftr_div_pow2 by lia. change (2 ^ 1) with 2.
    assert (0 ≤ (m_Num x + q - 2 ^ 64) / 2 < 2 ^ 63) by (split; [apply Z.div_pos; lia|apply Z.div_lt_upper_bound; lia]).
    unfold s_HiBit, s_Bits. change (64 - 1) with 63. rewrite lor_add, i32_id by lia.
    assert (E1 : (m_Num x * 2 ^ d + m_Num b) / 2 ^ (d + 1) = (m_Num x + q - 2 ^ 64) / 2 + 2 ^ 63).
    { rewrite Z.pow_add_r, <- Z.div_div, E by lia. change (2 ^ 1) with 2.
      rewrite <- Z.div_add by lia. f_equal. lia. }
    rewrite E1. split_and!; [by right|f_equal; lia|lia|lia].
Qed.

(** The sum of two numbers, the one with the smaller exponent shifted, truncated to 64 bits. *)
Lemma add_spec x b : norm x → norm b → small_order x → small_order b →
  let m := Z.min (m_Order x) (m_Order b) in
  let s := m_Num x * 2 ^ (m_Order x - m) + m_Num b * 2 ^ (m_Order b - m) in
  let o := Z.max (m_Order x) (m_Order b) in
  ∃ e, (e = 0 ∨ e = 1) ∧ add x b = mk (s / 2 ^ (o + e - m)) (o + e) ∧ norm (add x b).
Proof.
  intros Hx Hb Hox Hob m s o. unfold add. rewrite !IsZero_norm by done. destruct (Z.leb_spec (m_Order b) (m_Order x)).
  - destruct (AddInternal_spec x b) as (e & He & -> & Hn); [done..|]. exists e. split_and!; [done| |done].
    unfold s, o, m. rewrite Z.min_r, Z.max_l, Z.sub_diag, Z.pow_0_r, Z.mul_1_r by lia. f_equal. f_equal. f_equal. lia.
  - destruct (AddInternal_spec b x) as (e & He & -> & Hn); [done..|lia|]. exists e. split_and!; [done| |done].
    unfold s, o, m. rewrite Z.min_l, Z.max_r, Z.sub_diag, Z.pow_0_r, Z.mul_1_r, (Z.add_comm (m_Num x)) by lia. f_equal. f_equal. f_equal. lia.
Qed.

(** The difference keeps every bit of the minuend and drops the low bits of the subtrahend. *)
Lemma sub_spec x b : norm x → norm b → small_order x → small_order b → m_Order b ≤ m_Order x →
  let d := m_Num x - m_Num b / 2 ^ (m_Order x - m_Order b) in
  0 ≤ d →
  (d = 0 → sub x b = Set0) ∧
  (0 < d → ∃ k, 0 ≤ k ≤ 63 ∧ sub x b = mk (d * 2 ^ k) (m_Order x - k) ∧ norm (sub x b)).
Proof.
  intros Hx Hb Hox Hob Ho d Hd. unfold sub. rewrite (IsZero_norm b) by done. unfold norm, small_order, s_Bits in *.
  rewrite u32_small by lia. unfold d in *. clear d.
  assert (0 < 2 ^ (m_Order x - m_Order b)) by (apply Z.pow_pos_nonneg; lia).
  destruct (Z.leb_spec 64 (m_Order x - m_Order b)) as [H64|H64].
  { rewrite Z.div_small in *; [|split; [lia|]; apply Z.lt_le_trans with (2 ^ 64); [lia|]; apply Z.pow_le_mono_r; lia..].
    split; [lia|]. intros _. exists 0. rewrite Z.pow_0_r, Z.mul_1_r, !Z.sub_0_r. by destruct x. }
  assert (0 ≤ m_Num b / 2 ^ (m_Order x - m_Order b)) by (apply Z.div_pos; lia).
  rewrite Z.shiftr_div_pow2, u64_small by lia. set (d := m_Num x - _) in *. split.
  - intros ->. done.
  - intros Hd'. destruct (Normalize_spec (mk d (m_Order x))) as (k & Hk & -> & Hn & _); cbn [m_Num m_Order] in *; [lia|lia|].
    exists k. split_and!; [lia|lia|done|apply Hn|apply Hn].
Qed.

(** ** Order *)

(** The mantissas brought to one exponent. *)
Definition scaled (m : Z) (x : Float) : Z := m_Num x * 2 ^ (m_Order x - m).

(** Normal numbers compare as the numbers they stand for. *)
Lemma cmp_spec x y m : norm x → norm y → m ≤ m_Order x → m ≤ m_Order y →
  cmp x y = if scaled m x <? scaled m y then -1 else if scaled m y <? scaled m x then 1 else 0.
Proof.
  intros Hx Hy Hmx Hmy. unfold cmp. rewrite !IsZero_norm by done. unfold scaled, norm in *.
  assert (Hlt : ∀ a b, norm a → norm b → m ≤ m_Order a → m_Order a < m_Order b →
    m_Num a * 2 ^ (m_Order a - m) < m_Num b * 2 ^ (m_Order b - m)).
  { unfold norm. intros a b Ha Hb Hma Hab. replace (m_Order b - m) with (m_Order a - m + (m_Order b - m_Order a)) by lia.
    rewrite Z.pow_add_r by lia. assert (0 < 2 ^ (m_Order a - m)) by (apply Z.pow_pos_nonneg; lia).
    assert (2 ^ 1 ≤ 2 ^ (m_Order b - m_Order a)) by (apply Z.pow_le_mono_r; lia).
    set (Q := 2 ^ (m_Order b - m_Order a)) in *. set (P := 2 ^ (m_Order a - m)) in *.
    assert (m_Num a < m_Num b * Q) by nia. replace (m_Num b * (P * Q)) with (m_Num b * Q * P) by ring. by apply Z.mul_lt_mono_pos_r. }
  destruct (Z.ltb_spec (m_Order x) (m_Order y)) as [H1|H1].
  { specialize (Hlt x y Hx Hy Hmx H1). by destruct (Z.ltb_spec (m_Num x * 2 ^ (m_Order x - m)) (m_Num y * 2 ^ (m_Order y - m))); [|lia]. }
  destruct (Z.ltb_spec (m_Order y) (m_Order x)) as [H2|H2].
  { specialize (Hlt y x Hy Hx Hmy H2). destruct (Z.ltb_spec (m_Num x * 2 ^ (m_Order x - m)) (m_Num y * 2 ^ (m_Order y - m))); [lia|].
    by destruct (Z.ltb_spec (m_Num y * 2 ^ (m_Order y - m)) (m_Num x * 2 ^ (m_Order x - m))); [|lia]. }
  replace (m_Order y) with (m_Order x) by lia. assert (0 < 2 ^ (m_Order x - m)) by (apply Z.pow_pos_nonneg; lia).
  set (P := 2 ^ (m_Order x - m)) in *.
  destruct (Z.ltb_spec (m_Num x) (m_Num y)), (Z.ltb_spec (m_Num x * P) (m_Num y * P)); try nia.
  destruct (Z.ltb_spec (m_Num y) (m_Num x)), (Z.ltb_spec (m_Num y * P) (m_Num x * P)); nia.
Qed.

End FloatSpec.
