(* ===== verification/ShaderSort.v ===== *)
(** * bvm/Shaders/Sort.h: merge sort, partition, binary search, table lookup

    The routines are templates over the element type and use its [<] only: here the
    comparison is a parameter, and [StrictWeak] states what the routines need of it.  The
    arrays are lists and a pointer into one is an index; an access outside has no result. *)

From stdpp Require Import base list numbers option gmap sorting.
From S2P Require Import Prelude.
Local Open Scope Z_scope.

(** ** The order of the elements *)

Class StrictWeak {T} (ltb : T → T → bool) : Prop := {
  sw_asym x y : ltb x y = true → ltb y x = false;
  sw_trans x y z : ltb y x = false → ltb z y = false → ltb z x = false;
}.

#[export] Instance Zltb_strict_weak : StrictWeak Z.ltb.
Proof. split; intros *; rewrite ?Z.ltb_lt, ?Z.ltb_ge; lia. Qed.

(** [x] may stand before [y]. *)
Definition nondesc {T} (ltb : T → T → bool) (x y : T) : Prop := ltb y x = false.

#[export] Instance nondesc_dec {T} (ltb : T → T → bool) x y : Decision (nondesc ltb x y).
Proof. unfold nondesc. apply _. Defined.

#[export] Instance nondesc_total {T} (ltb : T → T → bool) `{!StrictWeak ltb} : Total (nondesc ltb).
Proof. intros x y. unfold nondesc. destruct (ltb y x) eqn:E; [right|by left]. by apply sw_asym. Qed.

#[export] Instance nondesc_trans {T} (ltb : T → T → bool) `{!StrictWeak ltb} : Transitive (nondesc ltb).
Proof. intros x y z. apply sw_trans. Qed.

(** ** MergeSort *)

Module MergeSort.
Section Ops.
Context {T : Type} (ltb : T → T → bool).

Definition Copy (dst : list T) (pDst : Z) (src : list T) (p pe : Z) : option (list T) :=
  loop_up (Z.to_nat (pe - p)) 0 (λ i dst, v ← rd src (p + i); wr dst (pDst + i) v) dst.

(** Every iteration writes one element: [n] bounds the iterations. *)
Fixpoint MergeOnce (n : nat) (dst : list T) (pDst : Z) (src : list T) (p0 p0e p1 p1e : Z) : option (list T) :=
  match n with
  | O => None
  | S n =>
    v1 ← rd src p1; v0 ← rd src p0;
    if ltb v1 v0 then
      dst ← wr dst pDst v1;
      let pDst := pDst + 1 in let p1 := p1 + 1 in
      if p1 =? p1e then Copy dst pDst src p0 p0e else MergeOnce n dst pDst src p0 p0e p1 p1e
    else
      dst ← wr dst pDst v0;
      let pDst := pDst + 1 in let p0 := p0 + 1 in
      if p0 =? p0e then Copy dst pDst src p1 p1e else MergeOnce n dst pDst src p0 p0e p1 p1e
  end.

Fixpoint DoStep (n : nat) (dst : list T) (pDst : Z) (src : list T) (p0 nCount nW : Z) : option (list T) :=
  match n with
  | O => None
  | S n =>
    let pEnd := nCount in
    let p1 := p0 + nW in
    if pEnd <=? p1 then Copy dst pDst src p0 pEnd
    else
      let p1e := p1 + nW in
      let bFin := pEnd <=? p1e in
      let p1e := if bFin then pEnd else p1e in
      dst ← MergeOnce (Z.to_nat (p1e - p0)) dst pDst src p0 p1 p1 p1e;
      if bFin then Some dst else DoStep n dst (pDst + u32 (nW * 2)) src p1e nCount nW
  end.

(** The width doubles: [n] bounds the passes. *)
Fixpoint Do_loop (n : nat) (nW : Z) (pSrc pTmp : list T) (nCount : Z) : option (list T) :=
  if nW <? nCount then
    match n with
    | O => None
    | S n =>
      pTmp ← DoStep (S (Z.to_nat nCount)) pTmp 0 pSrc 0 nCount nW;
      Do_loop n (u32 (Z.shiftl nW 1)) pTmp pSrc nCount
    end
  else Some pSrc.

(** The array that holds the result. *)
Definition Do (pSrc pTmp : list T) (nCount : Z) : option (list T) := Do_loop 32 1 pSrc pTmp nCount.

End Ops.
End MergeSort.

(** ** PivotSplit *)

Section Pivot.
Context {T P : Type} (ltp : T → P → bool).

Definition swap (p : list T) (i j : Z) : option (list T) :=
  vi ← rd p i; vj ← rd p j; p ← wr p i vj; wr p j vi.

(** [do ... while (i < n)]: the array, [i] and [n] after the loop. *)
Fixpoint PivotSplit_down (k : nat) (p : list T) (i n : Z) (pivot : P) : option (list T * Z * Z) :=
  match k with
  | O => None
  | S k =>
    let n := n - 1 in
    v ← rd p n;
    if ltp v pivot then p ← swap p i n; Some (p, i + 1, n)
    else if i <? n then PivotSplit_down k p i n pivot else Some (p, i, n)
  end.

Fixpoint PivotSplit_loop (k : nat) (p : list T) (i n : Z) (pivot : P) : option (list T * Z) :=
  if i <? n then
    match k with
    | O => None
    | S k =>
      v ← rd p i;
      if ltp v pivot then PivotSplit_loop k p (i + 1) n pivot
      else
        '(p, i, n) ← PivotSplit_down (Z.to_nat (n - i)) p i n pivot;
        PivotSplit_loop k p i n pivot
    end
  else Some (p, n).

Definition PivotSplit (p : list T) (n : Z) (pivot : P) : option (list T * Z) :=
  PivotSplit_loop (Z.to_nat n) p 0 n pivot.

(** ** MedianSearch *)

Fixpoint MedianSearch_loop (k : nat) (p : list T) (i0 n : Z) (x : P) : option Z :=
  if n =? 0 then Some i0
  else
    match k with
    | O => None
    | S k =>
      let nHalf := n / 2 in
      v ← rd p (u32 (i0 + nHalf));
      if ltp v x then
        let nHalf := u32 (nHalf + 1) in
        MedianSearch_loop k p (u32 (i0 + nHalf)) (u32 (n - nHalf)) x
      else MedianSearch_loop k p i0 nHalf x
    end.

(** The range is halved: 32 iterations for a 32-bit count. *)
Definition MedianSearch (p : list T) (n : Z) (x : P) : option Z := MedianSearch_loop 32 p 0 n x.

End Pivot.
