(* ===== verification/ShaderSortSpec.v ===== *)
(** * bvm/Shaders/Sort.h: correctness of the routines *)

From stdpp Require Import base list numbers option gmap sorting.
From S2P Require Import Prelude ShaderSort.
Local Open Scope Z_scope.

(** ** Segments of an array *)

(** The elements [l] stand in the array [src] from index [p] on. *)
Definition seg {T} (src : list T) (p : Z) (l : list T) : Prop := ∃ a b, src = a ++ l ++ b ∧ p = #a.

Lemma seg_cons {T} (src : list T) p x l : seg src p (x :: l) → rd src p = Some x ∧ seg src (p + 1) l.
Proof.
  intros (a & b & -> & ->). split; [apply rd_mid|]. exists (a ++ [x]), b. rewrite <- app_assoc, length_app. split; [done|cbn; lia].
Qed.

Lemma seg_app {T} (src : list T) p l1 l2 : seg src p (l1 ++ l2) → seg src p l1 ∧ seg src (p + #l1) l2.
Proof.
  intros (a & b & -> & ->). split; [exists a, (l2 ++ b); by rewrite !app_assoc|].
  exists (a ++ l1), b. rewrite !app_assoc, length_app. split; [done|lia].
Qed.

(** ** MergeSort *)

Module MergeSortSpec.
Section Spec.
Context {T : Type} (ltb : T → T → bool).
Import MergeSort.

Lemma Copy_spec (src l pre old post : list T) p : seg src p l → length old = length l →
  Copy (pre ++ old ++ post) #pre src p (p + #l) = Some (pre ++ l ++ post).
Proof.
  intros Hs Hl. unfold Copy. replace (p + #l - p) with (#l) by lia. rewrite Nat2Z.id.
  assert (Hgen : ∀ l old q pre' i, length old = length l → seg src (p + i) l → #pre' = q + i →
    loop_up (length l) i (λ i dst, v ← rd src (p + i); wr dst (q + i) v) (pre' ++ old ++ post) = Some (pre' ++ l ++ post)).
  { clear. intros l. induction l as [|x l IH]; intros [|y old] q pre' i Hl Hs Hq; try done. cbn [length loop_up].
    destruct (seg_cons _ _ _ _ Hs) as [-> Hs']. cbn [mbind option_bind app]. rewrite wr_mid' by lia. cbn [mbind option_bind].
    specialize (IH old q (pre' ++ [x]) (i + 1)). rewrite <- !app_assoc in IH. cbn [app] in IH. apply IH; [by injection Hl| |].
    - by replace (p + (i + 1)) with (p + i + 1) by lia.
    - rewrite length_app. cbn [length]. lia. }
  apply Hgen; [done|by rewrite Z.add_0_r|lia].
Qed.

Lemma MergeOnce_spec n (src l0 l1 pre old post : list T) p0 p1 : seg src p0 l0 → seg src p1 l1 →
  l0 ≠ [] → l1 ≠ [] → length old = (length l0 + length l1)%nat → (length old ≤ n)%nat →
  MergeOnce ltb n (pre ++ old ++ post) #pre src p0 (p0 + #l0) p1 (p1 + #l1) =
    Some (pre ++ list_merge (nondesc ltb) l0 l1 ++ post).
Proof.
  revert p0 p1 l0 l1 pre old. induction n as [|n IH]; intros p0 p1 l0 l1 pre old H0 H1 N0 N1 Hl Hn; [destruct l0; cbn in *; [done|lia]|].
  destruct l0 as [|v0 l0]; [done|]. destruct l1 as [|v1 l1]; [done|]. destruct old as [|y old]; [done|]. cbn [MergeOnce length] in *.
  destruct (seg_cons _ _ _ _ H0) as [-> H0']. destruct (seg_cons _ _ _ _ H1) as [-> H1']. cbn [mbind option_bind].
  rewrite list_merge_cons. cbn [app]. rewrite !wr_mid. cbn [mbind option_bind].
  assert (Hpre : ∀ v : T, #pre + 1 = #(pre ++ [v])) by (intros; rewrite length_app; cbn; lia).
  assert (Happ : ∀ (v : T) r, pre ++ v :: r = (pre ++ [v]) ++ r) by (intros; by rewrite <- app_assoc).
  destruct (ltb v1 v0) eqn:E.
  - rewrite decide_False by (unfold nondesc; congruence). cbn [app]. destruct (Z.eqb_spec (p1 + 1) (p1 + Z.of_nat (S (length l1)))).
    + assert (l1 = []) as -> by (destruct l1; [done|cbn in *; lia]). rewrite list_merge_nil_r.
      rewrite (Happ v1 (old ++ post)), (Hpre v1), (Happ v1 (_ ++ post)). apply (Copy_spec src (v0 :: l0)); [done|cbn in *; lia].
    + rewrite (Happ v1 (old ++ post)), (Hpre v1), (Happ v1 (_ ++ post)). replace (p1 + Z.of_nat (S (length l1))) with (p1 + 1 + #l1) by lia.
      apply (IH p0 (p1 + 1) (v0 :: l0) l1); try done; [by intros ->|cbn in *; lia|lia].
  - rewrite decide_True by done. cbn [app]. destruct (Z.eqb_spec (p0 + 1) (p0 + Z.of_nat (S (length l0)))).
    + assert (l0 = []) as -> by (destruct l0; [done|cbn in *; lia]). rewrite list_merge_nil_l.
      rewrite (Happ v0 (old ++ post)), (Hpre v0), (Happ v0 (_ ++ post)). apply (Copy_spec src (v1 :: l1)); [done|cbn in *; lia].
    + rewrite (Happ v0 (old ++ post)), (Hpre v0), (Happ v0 (_ ++ post)). replace (p0 + Z.of_nat (S (length l0))) with (p0 + 1 + #l0) by lia.
      apply (IH (p0 + 1) p1 l0 (v1 :: l1)); try done; [by intros ->|cbn in *; lia|lia].
Qed.

(** ** One pass *)

(** What a pass writes: the blocks of [W] elements merged two by two. *)
Fixpoint merge_blocks (n W : nat) (l : list T) : list T :=
  match n with
  | O => l
  | S n =>
    if (length l <=? W)%nat then l
    else list_merge (nondesc ltb) (take W l) (take W (drop W l)) ++ merge_blocks n W (drop (W + W) l)
  end.

Lemma merge_blocks_nil n W : merge_blocks n W [] = [].
Proof. by destruct n. Qed.

Lemma merge_blocks_perm n W l : merge_blocks n W l ≡ₚ l.
Proof.
  revert l. induction n as [|n IH]; intros l; cbn [merge_blocks]; [done|]. destruct (Nat.leb_spec (length l) W); [done|].
  rewrite merge_Permutation, IH, <- app_assoc, <- drop_drop. by rewrite !take_drop.
Qed.

Lemma DoStep_spec n src W rest pre old nW p0 : (0 < W)%nat → nW = Z.of_nat W → 2 * nW < 2 ^ 32 →
  seg src p0 rest → p0 + #rest = #src → p0 = #pre → length old = length rest → (length rest < n)%nat →
  DoStep ltb n (pre ++ old) #pre src p0 #src nW = Some (pre ++ merge_blocks n W rest).
Proof.
  intros HW HnW Hw2. revert rest pre old p0. induction n as [|n IH]; intros rest pre old p0 Hs He Hp Hl Hn; [lia|].
  cbn [DoStep merge_blocks]. rewrite <- (app_nil_r old). subst nW.
  destruct (Z.leb_spec #src (p0 + Z.of_nat W)) as [H1|H1].
  { destruct (Nat.leb_spec (length rest) W); [|lia]. rewrite <- He, Copy_spec by done. by rewrite app_nil_r. }
  destruct (Nat.leb_spec (length rest) W); [lia|].
  set (l0 := take W rest). set (l1 := take W (drop W rest)).
  assert (Hl0 : length l0 = W) by (unfold l0; rewrite length_take; lia).
  assert (Hl1 : length l1 = Nat.min W (length rest - W)) by (unfold l1; by rewrite length_take, length_drop).
  assert (Erest : rest = l0 ++ l1 ++ drop (W + W) rest) by (unfold l0, l1; by rewrite <- drop_drop, !take_drop).
  rewrite Erest in Hs. destruct (seg_app _ _ _ _ Hs) as [Hs0 Hs1]. destruct (seg_app _ _ _ _ Hs1) as [Hs1' Hs2].
  set (fin := #src <=? p0 + Z.of_nat W + Z.of_nat W).
  assert (Ep1e : (if fin then #src else p0 + Z.of_nat W + Z.of_nat W) = p0 + #l0 + #l1).
  { unfold fin. destruct (Z.leb_spec #src (p0 + Z.of_nat W + Z.of_nat W)); lia. }
  rewrite Ep1e. replace (p0 + Z.of_nat W) with (p0 + #l0) by lia.
  rewrite <- (take_drop (length l0 + length l1) old), <- app_assoc.
  rewrite (MergeOnce_spec _ src l0 l1); [|done|done|intros E0; rewrite E0 in Hl0; cbn in Hl0; lia|intros E1; rewrite E1 in Hl1; cbn in Hl1; lia| |]; [|rewrite length_take; lia|rewrite length_take; lia].
  cbn [mbind option_bind]. rewrite app_nil_r. unfold fin. destruct (Z.leb_spec #src (p0 + Z.of_nat W + Z.of_nat W)).
  { rewrite (drop_ge rest), merge_blocks_nil, (drop_ge old), !app_nil_r by lia. done. }
  rewrite !app_assoc. set (m := list_merge _ l0 l1). assert (Hm : length m = (length l0 + length l1)%nat) by (unfold m; by rewrite merge_Permutation, length_app).
  rewrite u32_small by lia. replace (#pre + Z.of_nat W * 2) with (#(pre ++ m)) by (rewrite length_app; lia).
  apply IH; [done| | | |].
  - rewrite length_drop. lia.
  - rewrite length_app. lia.
  - rewrite !length_drop. lia.
  - rewrite length_drop. lia.
Qed.

(** Every block of [W] elements is sorted. *)
Definition sorted_blocks (W : nat) (l : list T) : Prop := ∀ k, Sorted (nondesc ltb) (take W (drop (k * W) l)).

Lemma merge_blocks_sorted n W l : StrictWeak ltb → (0 < W)%nat → (length l < n)%nat → sorted_blocks W l →
  sorted_blocks (W + W) (merge_blocks n W l).
Proof.
  intros Hsw HW. revert l. induction n as [|n IH]; intros l Hn Hs; [lia|]. cbn [merge_blocks].
  destruct (Nat.leb_spec (length l) W).
  { intros [|k]; [|rewrite drop_ge by lia; by rewrite take_nil]. pose proof (Hs 0%nat) as H0. cbn [Nat.mul drop] in *.
    rewrite drop_0, take_ge in * by lia. done. }
  pose proof (Hs 0%nat) as H0. pose proof (Hs 1%nat) as H1. rewrite Nat.mul_1_l in H1. rewrite Nat.mul_0_l, drop_0 in H0.
  set (m := list_merge _ _ _). assert (Hm : Sorted (nondesc ltb) m) by (apply Sorted_list_merge; [apply _|done|done]).
  assert (Hlm : length m = Nat.min (W + W) (length l)) by (unfold m; rewrite merge_Permutation, length_app, !length_take, length_drop; lia).
  destruct (decide (length l ≤ W + W)%nat).
  { rewrite (drop_ge l (W + W)), merge_blocks_nil, app_nil_r by lia.
    intros [|k]; [rewrite Nat.mul_0_l, drop_0, take_ge by lia; done|rewrite drop_ge by lia; by rewrite take_nil]. }
  intros [|k]; [rewrite Nat.mul_0_l, drop_0, take_app_length' by lia; done|].
  replace (S k * (W + W))%nat with (length m + k * (W + W))%nat by lia. rewrite drop_app_add. apply IH; [rewrite length_drop; lia|].
  intros j. rewrite drop_drop. replace (W + W + j * W)%nat with (S (S j) * W)%nat by lia. apply Hs.
Qed.

(** ** The sort *)

Lemma Do_loop_spec n j src tmp : StrictWeak ltb → #src ≤ 2 ^ 31 → length tmp = length src → (n + j = 32)%nat →
  sorted_blocks (2 ^ j) src →
  ∃ r, Do_loop ltb n (2 ^ Z.of_nat j) src tmp #src = Some r ∧ r ≡ₚ src ∧ Sorted (nondesc ltb) r.
Proof.
  intros Hsw. revert j src tmp. induction n as [|n IH]; intros j src tmp Hc Hl Hj Hs; cbn [Do_loop];
    destruct (Z.ltb_spec (2 ^ Z.of_nat j) #src) as [Hlt|Hge];
    try (exists src; split_and!; [done|done|]; specialize (Hs 0%nat); rewrite Nat.mul_0_l, drop_0, take_ge in Hs; [done|];
      rewrite <- (Nat2Z.id (2 ^ j)), Nat2Z.inj_pow; lia).
  { replace j with 32%nat in Hlt by lia. lia. }
  assert (Ej : Z.of_nat (2 ^ j) = 2 ^ Z.of_nat j) by (rewrite Nat2Z.inj_pow; done).
  assert (0 < 2 ^ Z.of_nat j) by (apply Z.pow_pos_nonneg; lia).
  rewrite Nat2Z.id. rewrite (DoStep_spec (S (length src)) src (2 ^ j) src [] tmp); [|lia|done|lia|exists [], []; by rewrite app_nil_r|done|done|done|lia].
  cbn [mbind option_bind app]. set (src' := merge_blocks _ _ _). assert (Hp : src' ≡ₚ src) by apply merge_blocks_perm.
  assert (Hl' : length src' = length src) by by rewrite Hp. rewrite <- Hl'.
  rewrite Z.shiftl_mul_pow2, u32_small by lia. replace (2 ^ Z.of_nat j * 2 ^ 1) with (2 ^ Z.of_nat (S j)) by (rewrite Nat2Z.inj_succ, Z.pow_succ_r by lia; lia).
  destruct (IH (S j) src' src) as (r & Hr & Hpr & Hsr); [lia|lia|lia| |exists r; split_and!; [done|by rewrite Hpr|done]].
  replace (2 ^ S j)%nat with (2 ^ j + 2 ^ j)%nat by (cbn; lia). apply merge_blocks_sorted; [done|lia|lia|done].
Qed.

Lemma Do_spec src tmp : StrictWeak ltb → #src ≤ 2 ^ 31 → length tmp = length src →
  ∃ r, Do ltb src tmp #src = Some r ∧ r ≡ₚ src ∧ Sorted (nondesc ltb) r.
Proof.
  intros Hsw Hc Hl. apply (Do_loop_spec 32 0); [done|done|done|done|]. intros k. change (2 ^ 0)%nat with 1%nat.
  destruct (drop (k * 1) src) as [|x l]; [constructor|]. cbn [take]. rewrite take_0. repeat constructor.
Qed.

End Spec.
End MergeSortSpec.

(** ** PivotSplit *)

Lemma swap_spec {T} (a m b : list T) x y :
  swap (a ++ x :: m ++ y :: b) #a (#a + 1 + #m) = Some (a ++ y :: m ++ x :: b).
Proof.
  unfold swap. rewrite rd_mid. cbn [mbind option_bind].
  assert (E : ∀ z, a ++ z :: m ++ y :: b = (a ++ z :: m) ++ y :: b) by (intros; by rewrite <- app_assoc).
  assert (L : ∀ z, #a + 1 + #m = #(a ++ z :: m)) by (intros; rewrite length_app; cbn; lia).
  rewrite (E x), (L x), rd_mid, <- (L x), <- (E x). cbn [mbind option_bind]. rewrite wr_mid. cbn [mbind option_bind].
  rewrite (E y), (L y), wr_mid. by rewrite <- app_assoc.
Qed.

Section PivotSpec.
Context {T P : Type} (ltp : T → P → bool) (pivot : P).

Let lo (x : T) : Prop := ltp x pivot = true.
Let hi (x : T) : Prop := ltp x pivot = false.

Lemma PivotSplit_down_spec k a x m b : hi x → Forall hi b → Forall lo a → (length m < k)%nat →
  ∃ a' m' b', PivotSplit_down ltp k (a ++ x :: m ++ b) #a (#a + 1 + #m) pivot =
      Some (a' ++ m' ++ b', #a', #a' + #m') ∧
    a' ++ m' ++ b' ≡ₚ a ++ x :: m ++ b ∧ Forall lo a' ∧ Forall hi b' ∧ (length m' < S (length m))%nat.
Proof.
  intros Hx. revert m b. induction k as [|k IH]; intros m b Hb Ha Hk; [lia|]. cbn [PivotSplit_down].
  replace (#a + 1 + #m - 1) with (#a + #m) by lia. destruct m as [|y m _] using rev_ind.
  { rewrite rd_mid' by (cbn; lia). cbn [mbind option_bind]. rewrite Hx. destruct (Z.ltb_spec #a (#a + #(@nil T))); [cbn in *; lia|].
    exists a, [], (x :: b). split_and!; [done|done|done|by constructor|cbn; lia]. }
  rewrite length_app. cbn [length]. replace ((m ++ [y]) ++ b) with (m ++ y :: b) by by rewrite <- app_assoc.
  assert (rd (a ++ x :: m ++ y :: b) (#a + Z.of_nat (length m + 1)) = Some y) as ->.
  { replace (a ++ x :: m ++ y :: b) with ((a ++ x :: m) ++ y :: b) by by rewrite <- app_assoc. apply rd_mid'. rewrite length_app. cbn. lia. }
  cbn [mbind option_bind]. rewrite length_app in Hk. cbn in Hk. destruct (ltp y pivot) eqn:Ey.
  - replace (#a + Z.of_nat (length m + 1)) with (#a + 1 + #m) by lia. rewrite swap_spec. cbn [mbind option_bind].
    exists (a ++ [y]), m, (x :: b). rewrite <- !app_assoc, length_app. cbn [app length].
    split_and!; [f_equal; f_equal; [f_equal|]; lia| |apply Forall_app; split; [done|by constructor]|by constructor|lia].
    rewrite !(Permutation_middle m). f_equiv. rewrite <- !Permutation_middle. apply Permutation_swap.
  - destruct (Z.ltb_spec #a (#a + Z.of_nat (length m + 1))); [|lia].
    destruct (IH m (y :: b)) as (a' & m' & b' & E & Hp & ? & ? & ?); [by constructor|done|lia|].
    exists a', m', b'. split_and!; [|done|done|done|lia]. rewrite <- E. f_equal. lia.
Qed.

Lemma PivotSplit_loop_spec k a m b : Forall lo a → Forall hi b → (length m ≤ k)%nat →
  ∃ l h, PivotSplit_loop ltp k (a ++ m ++ b) #a (#a + #m) pivot = Some (l ++ h, #l) ∧
    l ++ h ≡ₚ a ++ m ++ b ∧ Forall lo l ∧ Forall hi h.
Proof.
  revert a m b. induction k as [|k IH]; intros a m b Ha Hb Hk; cbn [PivotSplit_loop];
    destruct m as [|x m]; try (cbn in Hk; lia); cbn [length].
  1,2: destruct (Z.ltb_spec #a (#a + Z.of_nat 0)); [lia|]; exists a, b; rewrite Z.add_0_r; done.
  destruct (Z.ltb_spec #a (#a + Z.of_nat (S (length m)))); [|lia]. cbn [app]. rewrite rd_mid. cbn [mbind option_bind].
  destruct (ltp x pivot) eqn:Ex.
  - destruct (IH (a ++ [x]) m b) as (l & h & E & Hp & ? & ?); [apply Forall_app; split; [done|by constructor]|done|cbn in Hk; lia|].
    rewrite <- !app_assoc, length_app in *. cbn [app length] in *. exists l, h. split_and!; [|done|done|done]. rewrite <- E. f_equal; lia.
  - destruct (PivotSplit_down_spec (Z.to_nat (#a + Z.of_nat (S (length m)) - #a)) a x m b) as (a' & m' & b' & E & Hp & ? & ? & ?); [done|done|done|lia|].
    replace (#a + Z.of_nat (S (length m))) with (#a + 1 + #m) in * by lia. rewrite E. cbn [mbind option_bind].
    destruct (IH a' m' b') as (l & h & E' & Hp' & ? & ?); [done|done|cbn in Hk; lia|].
    exists l, h. split_and!; [done|by rewrite Hp', Hp|done|done].
Qed.

End PivotSpec.

(** ** MedianSearch *)

Section MedianSpec.
Context {T P : Type} (ltp : T → P → bool) (x : P).

(** The elements below [x] come first. *)
Definition split_at (p : list T) (i : nat) : Prop :=
  (∀ j v, p !! j = Some v → (j < i)%nat → ltp v x = true) ∧ (∀ j v, p !! j = Some v → (i ≤ j)%nat → ltp v x = false).

Lemma MedianSearch_loop_spec k p i0 n r : #p < 2 ^ 32 → split_at p r → (i0 ≤ r ≤ i0 + n)%nat → (i0 + n ≤ length p)%nat →
  (n < 2 ^ k)%nat →
  MedianSearch_loop ltp k p (Z.of_nat i0) (Z.of_nat n) x = Some (Z.of_nat r).
Proof.
  intros Hp [Hlo Hhi]. revert i0 n. induction k as [|k IH]; intros i0 n Hr Hn Hk; cbn [MedianSearch_loop];
    destruct (Z.eqb_spec (Z.of_nat n) 0); try (f_equal; lia); [cbn in Hk; lia|].
  assert (Eh : Z.of_nat n / 2 = Z.of_nat (n / 2)) by (rewrite Nat2Z.inj_div; done).
  pose proof (Nat.div_mod_eq n 2). pose proof (Nat.mod_upper_bound n 2 ltac:(lia)). change (2 ^ S k)%nat with (2 ^ k + (2 ^ k + 0))%nat in Hk.
  rewrite Eh. set (h := (n / 2)%nat) in *. rewrite (u32_small (Z.of_nat i0 + Z.of_nat h)) by lia. rewrite <- Nat2Z.inj_add, rd_lookup.
  destruct (lookup_lt_is_Some_2 p (i0 + h)) as [v Ev]; [lia|]. rewrite Ev. cbn [mbind option_bind].
  destruct (ltp v x) eqn:E.
  - assert (i0 + h < r)%nat by (destruct (decide (i0 + h < r)%nat); [done|]; rewrite (Hhi _ _ Ev) in E; [done|lia]).
    rewrite (u32_small (Z.of_nat h + 1)), !u32_small by lia.
    replace (Z.of_nat i0 + (Z.of_nat h + 1)) with (Z.of_nat (i0 + h + 1)) by lia.
    replace (Z.of_nat n - (Z.of_nat h + 1)) with (Z.of_nat (n - h - 1)) by lia. apply IH; lia.
  - assert (r ≤ i0 + h)%nat by (destruct (decide (r ≤ i0 + h)%nat); [done|]; rewrite (Hlo _ _ Ev) in E; [done|lia]). apply IH; lia.
Qed.

Lemma MedianSearch_correct p r : #p < 2 ^ 32 → split_at p r → (r ≤ length p)%nat →
  MedianSearch ltp p #p x = Some (Z.of_nat r).
Proof.
  intros Hp Hs Hr. apply (MedianSearch_loop_spec 32 p 0); [done|done|lia|lia|].
  apply Nat2Z.inj_lt. rewrite Nat2Z.inj_pow. done.
Qed.

End MedianSpec.
