(* ===== verification/NodeVars.v ===== *)
(** * node/processor.cpp: the variables of the contracts, and how a call is undone

    [BlockInterpretCtx::BvmProcessor] keeps the contract variables in the table [Contracts]
    of the database, with a cache in memory; the hash of every variable is a leaf of a radix
    tree ([Mapped::Contract]).  Every change writes a recovery record into [m_Rollback], and
    [UndoVars] takes the records back up to the terminator.  A call of a contract is an
    arbitrary sequence of loads, writes and log entries that ends or throws.

    The tree is represented by the set of its keys.  The byte format of a recovery record is
    the serializer's ([ser], [der]); the frame around it is modelled byte by byte. *)

From stdpp Require Import base list numbers option gmap sets.
From S2P Require Import Prelude.
Local Open Scope Z_scope.

Notation blob := (list Z) (only parsing).

(** [Wasm::Exc], another [std::exception], and [CorruptionException], which is not one. *)
Inductive Exc := WasmFail | StdExc | Corruption.

(** ** The state *)

(** [BvmProcessor::RecoveryTag] with what each record holds. *)
Inductive Rec :=
  | RTerminator
  | RInsert (key data : blob)
  | RUpdate (key data : blob)
  | RDelete (key : blob)
  | RLog (pos : Z) (bMmr : option bool)
  | RRecharge (charge : Z).

Record Ctx := mkCtx {
  m_ContractVars : gmap blob blob;
  m_DB : gmap blob blob;              (* table Contracts *)
  m_Contract : gset blob;             (* Mapped::Contract, the hashes in the tree *)
  m_DBLogs : gmap Z (blob * blob);    (* table ContractLogs at the height of the block *)
  m_ContractLogs : Z;
  m_vLogs : list blob;
  m_Rollback : list Z;
  m_ChargePerBlock : Z;
}.

Definition set_vars c x := mkCtx x (m_DB c) (m_Contract c) (m_DBLogs c) (m_ContractLogs c) (m_vLogs c) (m_Rollback c) (m_ChargePerBlock c).
Definition set_db c x := mkCtx (m_ContractVars c) x (m_Contract c) (m_DBLogs c) (m_ContractLogs c) (m_vLogs c) (m_Rollback c) (m_ChargePerBlock c).
Definition set_tree c x := mkCtx (m_ContractVars c) (m_DB c) x (m_DBLogs c) (m_ContractLogs c) (m_vLogs c) (m_Rollback c) (m_ChargePerBlock c).
Definition set_dblogs c x := mkCtx (m_ContractVars c) (m_DB c) (m_Contract c) x (m_ContractLogs c) (m_vLogs c) (m_Rollback c) (m_ChargePerBlock c).
Definition set_logs c x := mkCtx (m_ContractVars c) (m_DB c) (m_Contract c) (m_DBLogs c) x (m_vLogs c) (m_Rollback c) (m_ChargePerBlock c).
Definition set_vlogs c x := mkCtx (m_ContractVars c) (m_DB c) (m_Contract c) (m_DBLogs c) (m_ContractLogs c) x (m_Rollback c) (m_ChargePerBlock c).
Definition set_rollback c x := mkCtx (m_ContractVars c) (m_DB c) (m_Contract c) (m_DBLogs c) (m_ContractLogs c) (m_vLogs c) x (m_ChargePerBlock c).
Definition set_charge c x := mkCtx (m_ContractVars c) (m_DB c) (m_Contract c) (m_DBLogs c) (m_ContractLogs c) (m_vLogs c) (m_Rollback c) x.

(** Code that changes the state and may throw; what it changed before stays. *)
Definition M (A : Type) : Type := Ctx → Ctx * (Exc + A).

Definition ret {A} (a : A) : M A := λ c, (c, inr a).
Definition throw {A} (e : Exc) : M A := λ c, (c, inl e).
Definition bind {A B} (m : M A) (k : A → M B) : M B :=
  λ c, match m c with (c, inl e) => (c, inl e) | (c, inr a) => k a c end.
Definition modify (f : Ctx → Ctx) : M () := λ c, (f c, inr ()).

Notation "x <- m ;; k" := (bind m (λ x, k)) (at level 100, m at next level, right associativity).
Notation "m ;;; k" := (bind m (λ _, k)) (at level 100, right associativity).

(** [Mapped::Contract::IsStored]. *)
Definition ContractID_nBytes : nat := 32.
Definition KeyTag_InternalStealth : Z := 8.

Definition IsStored (key : blob) : bool :=
  if decide (ContractID_nBytes < length key)%nat then
    negb (default 0 (key !! ContractID_nBytes) =? KeyTag_InternalStealth)
  else true.

Section Processor.

Context (get_HashContractVar : blob → blob → blob) (get_HashContractLog : blob → blob → Z → blob).
Context (ser : Rec → list Z) (der : list Z → option Rec).
Context (m_Temporary m_SkipDefinition : bool).

(** ** [m_Rollback]: [Ser], [Der] *)

(** A record and its size, as a 4-byte marker behind it. *)
Definition push (r : Rec) : M () :=
  modify (λ c, set_rollback c (m_Rollback c ++ ser r ++ be 4 (u32 #(ser r)))).

(** [SetBwd]: the last [nPortion] bytes. *)
Definition SetBwd (nPortion : Z) : M (list Z) := λ c,
  let buf := m_Rollback c in
  if #buf <? nPortion then (c, inl Corruption)
  else
    let nVal := Z.to_nat (#buf - nPortion) in
    (set_rollback c (take nVal buf), inr (drop nVal buf)).

Definition pop : M Rec :=
  mk <- SetBwd 4;;
  payload <- SetBwd ⟦mk⟧;;
  match der payload with Some r => ret r | None => throw StdExc end.

(** ** The variables *)

Definition get_ContractVar (key : blob) : M blob := λ c,
  match m_ContractVars c !! key with
  | Some d => (c, inr d)
  | None =>
    let d := default [] (m_DB c !! key) in
    (set_vars c (<[key := d]> (m_ContractVars c)), inr d)
  end.

(** [BvmProcessor::LoadVar]. *)
Definition LoadVar (key : blob) : M blob := get_ContractVar key.

(** [Mapped::Contract::Toggle]. *)
Definition Toggle (key data : blob) (bAdd : bool) : M () := λ c,
  if negb (IsStored key) then (c, inr ())
  else
    let hv := get_HashContractVar key data in
    let bCreate := bool_decide (hv ∉ m_Contract c) in
    let c := set_tree c (if bAdd then {[hv]} ∪ m_Contract c else m_Contract c ∖ {[hv]}) in
    if Bool.eqb bAdd bCreate then (c, inr ())
    else (c, inl (if bAdd then WasmFail else Corruption)).

Definition ContractDataToggleTree (key data : blob) (bAdd : bool) : M () :=
  if m_SkipDefinition then ret () else Toggle key data bAdd.

(** The queries of node/db.cpp; [TestChanged1Row] takes anything but one row for corruption. *)
Definition DB_ContractDataInsert (key data : blob) : M () := λ c,
  match m_DB c !! key with
  | Some _ => (c, inl Corruption)
  | None => (set_db c (<[key := data]> (m_DB c)), inr ())
  end.

Definition DB_ContractDataUpdate (key data : blob) : M () := λ c,
  match m_DB c !! key with
  | Some _ => (set_db c (<[key := data]> (m_DB c)), inr ())
  | None => (c, inl Corruption)
  end.

Definition DB_ContractDataDel (key : blob) : M () := λ c,
  match m_DB c !! key with
  | Some _ => (set_db c (delete key (m_DB c)), inr ())
  | None => (c, inl Corruption)
  end.

Definition unless (b : bool) (m : M ()) : M () := if b then ret () else m.

Definition ContractDataInsert (key data : blob) : M () :=
  ContractDataToggleTree key data true;;;
  unless m_Temporary (DB_ContractDataInsert key data).

Definition ContractDataUpdate (key val valOld : blob) : M () :=
  ContractDataToggleTree key val true;;;
  ContractDataToggleTree key valOld false;;;
  unless m_Temporary (DB_ContractDataUpdate key val).

Definition ContractDataDel (key valOld : blob) : M () :=
  ContractDataToggleTree key valOld false;;;
  unless m_Temporary (DB_ContractDataDel key).

Definition set_Data (key data : blob) : M () := modify (λ c, set_vars c (<[key := data]> (m_ContractVars c))).

(** [BvmProcessor::SaveVar]: the size of the value before. *)
Definition SaveVar (key data : blob) : M Z :=
  old <- get_ContractVar key;;
  let nOldSize := u32 #old in
  (if decide (old = data) then ret ()
   else
     (if bool_decide (data ≠ []) then
        if negb (nOldSize =? 0) then ContractDataUpdate key data old;;; push (RUpdate key old)
        else ContractDataInsert key data;;; push (RDelete key)
      else ContractDataDel key old;;; push (RInsert key old));;;
     set_Data key data);;;
  ret nOldSize.

(** [BvmProcessor::OnLog]: the position of the entry. *)
Definition DB_ContractLogInsert (pos : Z) (key v : blob) : M () := λ c,
  match m_DBLogs c !! pos with
  | Some _ => (c, inl Corruption)
  | None => (set_dblogs c (<[pos := (key, v)]> (m_DBLogs c)), inr ())
  end.

Definition OnLog (key v : blob) : M Z := λ c0,
  let pos := m_ContractLogs c0 in
  (unless m_Temporary (DB_ContractLogInsert pos key v);;;
   (if m_SkipDefinition then push (RLog pos None)
    else
      let bMmr := IsStored key in
      push (RLog pos (Some bMmr));;;
      if bMmr then modify (λ c, set_vlogs c (m_vLogs c ++ [get_HashContractLog key v pos])) else ret ());;;
   modify (λ c, set_logs c (u32 (pos + 1)));;;
   ret pos) c0.

(** ** Undo *)

Definition DB_ContractLogDel (pos : Z) : M () := λ c,
  match m_DBLogs c !! pos with
  | Some _ => (set_dblogs c (delete pos (m_DBLogs c)), inr ())
  | None => (c, inl Corruption)
  end.

(** One record of [UndoVars]; [true] for the terminator. *)
Definition UndoRec (r : Rec) : M bool :=
  match r with
  | RTerminator => ret true
  | RLog pos bMmr =>
    modify (λ c, set_logs c pos);;;
    unless m_Temporary (DB_ContractLogDel pos);;;
    (match bMmr with
     | Some true => modify (λ c, set_vlogs c (take (length (m_vLogs c) - 1) (m_vLogs c)))
     | _ => ret ()
     end);;;
    ret false
  | RRecharge n => modify (λ c, set_charge c n);;; ret false
  | RDelete key => e <- get_ContractVar key;; ContractDataDel key e;;; set_Data key [];;; ret false
  | RInsert key data => e <- get_ContractVar key;; ContractDataInsert key data;;; set_Data key data;;; ret false
  | RUpdate key data => e <- get_ContractVar key;; ContractDataUpdate key data e;;; set_Data key data;;; ret false
  end.

(** A record takes at least its marker: the size of the buffer bounds the iterations. *)
Fixpoint UndoVars_loop (n : nat) : M () :=
  match n with
  | O => throw StdExc
  | S n => r <- pop;; b <- UndoRec r;; if b : bool then ret () else UndoVars_loop n
  end.

Definition UndoVars : M () := λ c, UndoVars_loop (length (m_Rollback c)) c.

(** ** A call *)

(** What a contract does with its variables.  It ends with the charge that is left, or throws. *)
Inductive Prog :=
  | PDone (charge : Z)
  | PThrow (bWasm : bool)
  | PLoad (key : blob) (k : blob → Prog)
  | PSave (key data : blob) (k : Z → Prog)
  | PLog (key v : blob) (k : Z → Prog).

Fixpoint run (p : Prog) : M Z :=
  match p with
  | PDone charge => ret charge
  | PThrow bWasm => throw (if bWasm then WasmFail else StdExc)
  | PLoad key k => d <- LoadVar key;; run (k d)
  | PSave key data k => n <- SaveVar key data;; run (k n)
  | PLog key v k => n <- OnLog key v;; run (k n)
  end.

(** [BvmProcessor::BvmProcessor] with [m_Fwd]. *)
Definition Construct : M () := push RTerminator.

(** [BvmProcessor::Invoke]: [CorruptionException] is not caught. *)
Definition Invoke (p : Prog) : M bool := λ c,
  match run p c with
  | (c, inr charge) =>
    ((if m_Temporary then push (RRecharge (m_ChargePerBlock c)) else ret ());;;
     modify (λ c, set_charge c charge);;;
     ret true) c
  | (c, inl Corruption) => (c, inl Corruption)
  | (c, inl _) => (UndoVars;;; ret false) c
  end.

End Processor.
