(* ===== verification/NodeVarsSpec.v ===== *)
(** * node/processor.cpp: every change of the contract variables can be undone

    [eqv] is the equality of two states up to what happens to be cached; [inv] relates the
    cache, the table and the tree. *)

From stdpp Require Import base list numbers option gmap sets.
From S2P Require Import Prelude NodeVars.
Local Open Scope Z_scope.

(** ** What a state means *)

(** The value of a variable: the cache hides the table. *)
Definition view (c : Ctx) (key : blob) : blob :=
  match m_ContractVars c !! key with Some d => d | None => default [] (m_DB c !! key) end.

Record eqv (c d : Ctx) : Prop := {
  eq_view key : view c key = view d key;
  eq_db : m_DB c = m_DB d;
  eq_tree : m_Contract c = m_Contract d;
  eq_dblogs : m_DBLogs c = m_DBLogs d;
  eq_logs : m_ContractLogs c = m_ContractLogs d;
  eq_vlogs : m_vLogs c = m_vLogs d;
  eq_rollback : m_Rollback c = m_Rollback d;
  eq_charge : m_ChargePerBlock c = m_ChargePerBlock d;
}.

#[export] Instance eqv_equivalence : Equivalence eqv.
Proof.
  split; [done|intros c d []; by split|intros c d e [] []; split; intros; etrans; eauto].
Qed.

#[export] Instance view_proper : Proper (eqv ==> eq ==> eq) view.
Proof. intros c d H key ? <-. apply H. Qed.

(** The largest key and value a contract may write. *)
Definition VarKeyMax : Z := 32 + 1 + 256.
Definition VarSize_4 : Z := 0x100000.

Definition rec_small (r : Rec) : Prop :=
  match r with
  | RInsert key data | RUpdate key data => #key ≤ VarKeyMax ∧ #data ≤ VarSize_4
  | RDelete key => #key ≤ VarKeyMax
  | _ => True
  end.

Section Spec.
Context (get_HashContractVar : blob → blob → blob) (get_HashContractLog : blob → blob → Z → blob).
Context (ser : Rec → list Z) (der : list Z → option Rec).
Context (m_Temporary m_SkipDefinition : bool).
Hypothesis der_ser : ∀ r, rec_small r → der (ser r) = Some r.
Hypothesis ser_size : ∀ r, rec_small r → #(ser r) < 2 ^ 32.

Local Notation ToggleTree := (ContractDataToggleTree get_HashContractVar m_SkipDefinition).
Local Notation DataInsert := (ContractDataInsert get_HashContractVar m_Temporary m_SkipDefinition).
Local Notation DataUpdate := (ContractDataUpdate get_HashContractVar m_Temporary m_SkipDefinition).
Local Notation DataDel := (ContractDataDel get_HashContractVar m_Temporary m_SkipDefinition).
Local Notation SaveVar := (SaveVar get_HashContractVar ser m_Temporary m_SkipDefinition).
Local Notation OnLog := (OnLog get_HashContractLog ser m_Temporary m_SkipDefinition).
Local Notation UndoRec := (UndoRec get_HashContractVar m_Temporary m_SkipDefinition).
Local Notation UndoVars_loop := (UndoVars_loop get_HashContractVar der m_Temporary m_SkipDefinition).
Local Notation UndoVars := (UndoVars get_HashContractVar der m_Temporary m_SkipDefinition).
Local Notation run := (run get_HashContractVar get_HashContractLog ser m_Temporary m_SkipDefinition).
Local Notation Invoke := (Invoke get_HashContractVar get_HashContractLog ser der m_Temporary m_SkipDefinition).
Local Notation push := (push ser).
Local Notation pop := (pop der).

(** ** The invariant *)

Record inv (c : Ctx) : Prop := {
  (* the table holds the variables, unless the changes are temporary *)
  inv_db : m_Temporary = false → ∀ key, m_DB c !! key = if decide (view c key = []) then None else Some (view c key);
  (* the tree holds the hash of every stored variable, and no two variables share one *)
  inv_tree key : m_SkipDefinition = false → IsStored key = true → view c key ≠ [] → get_HashContractVar key (view c key) ∈ m_Contract c;
  inv_inj k1 k2 : m_SkipDefinition = false → IsStored k1 = true → IsStored k2 = true → view c k1 ≠ [] → view c k2 ≠ [] →
    get_HashContractVar k1 (view c k1) = get_HashContractVar k2 (view c k2) → k1 = k2;
  inv_logs : m_Temporary = false → ∀ pos, m_ContractLogs c ≤ pos → m_DBLogs c !! pos = None;
  inv_pos : 0 ≤ m_ContractLogs c;
  inv_size key : #(view c key) ≤ VarSize_4;
}.

Lemma inv_eqv c d : eqv c d → inv c → inv d.
Proof.
  intros [Hv Hdb Ht Hdl Hl _ _ _] [I1 I2 I3 I4 I5 I6]. split; intros; rewrite <- ?Hdb, <- ?Hdl, <- ?Ht, <- ?Hl, <- ?Hv in *; eauto.
Qed.

(** ** The recovery buffer *)

Lemma pop_push r c rb : rec_small r → m_Rollback c = rb ++ ser r ++ be 4 (u32 #(ser r)) →
  pop c = (set_rollback c rb, inr r).
Proof.
  intros Hr Hc. pose proof (ser_size r Hr) as Hs. unfold NodeVars.pop, bind, SetBwd. rewrite Hc.
  rewrite !length_app, length_be. destruct (Z.ltb_spec (Z.of_nat (length rb + (length (ser r) + 4))) 4); [lia|].
  replace (Z.to_nat (Z.of_nat (length rb + (length (ser r) + 4)) - 4)) with (length (rb ++ ser r)) by (rewrite length_app; lia).
  rewrite app_assoc, drop_app_length, take_app_length. cbn [m_Rollback set_rollback].
  rewrite u32_small, val_be by (change (256 ^ Z.of_nat 4) with (2 ^ 32); lia).
  rewrite length_app. destruct (Z.ltb_spec (Z.of_nat (length rb + length (ser r))) #(ser r)); [lia|].
  replace (Z.to_nat (Z.of_nat (length rb + length (ser r)) - #(ser r))) with (length rb) by lia.
  rewrite drop_app_length, take_app_length, der_ser by done. done.
Qed.

(** ** One variable changes *)

Lemma ToggleTree_add key d c : ToggleTree key d true c =
  if m_SkipDefinition || negb (IsStored key) then (c, inr ())
  else if decide (get_HashContractVar key d ∈ m_Contract c) then (c, inl WasmFail)
  else (set_tree c ({[get_HashContractVar key d]} ∪ m_Contract c), inr ()).
Proof.
  unfold ContractDataToggleTree, Toggle. destruct m_SkipDefinition; [done|]. cbn [orb]. destruct (negb (IsStored key)); [done|].
  destruct (decide _) as [Hin|Hin].
  - rewrite bool_decide_eq_false_2 by auto. cbn. f_equal. destruct c. unfold set_tree. cbn in *. f_equal. set_solver.
  - by rewrite bool_decide_eq_true_2.
Qed.

Lemma ToggleTree_del key d c : ToggleTree key d false c =
  if m_SkipDefinition || negb (IsStored key) then (c, inr ())
  else if decide (get_HashContractVar key d ∈ m_Contract c) then (set_tree c (m_Contract c ∖ {[get_HashContractVar key d]}), inr ())
  else (set_tree c (m_Contract c ∖ {[get_HashContractVar key d]}), inl Corruption).
Proof.
  unfold ContractDataToggleTree, Toggle. destruct m_SkipDefinition; [done|]. cbn [orb]. destruct (negb (IsStored key)); [done|].
  destruct (decide _) as [Hin|Hin]; [by rewrite bool_decide_eq_false_2 by auto|by rewrite bool_decide_eq_true_2].
Qed.

Definition cached (c : Ctx) (key : blob) : Ctx := fst (get_ContractVar key c).

Lemma get_ContractVar_eq key c : get_ContractVar key c = (cached c key, inr (view c key)).
Proof. unfold cached, get_ContractVar, view. by destruct (m_ContractVars c !! key). Qed.

Lemma cached_lookup c key k : m_ContractVars (cached c key) !! k = if decide (k = key) then Some (view c key) else m_ContractVars c !! k.
Proof.
  unfold cached, get_ContractVar, view. destruct (m_ContractVars c !! key) eqn:E; cbn [fst].
  - by case_decide; subst.
  - cbn [set_vars m_ContractVars]. case_decide; subst; [by rewrite lookup_insert_eq|by rewrite lookup_insert_ne].
Qed.

Lemma cached_eqv c key : eqv c (cached c key).
Proof.
  split; [|unfold cached, get_ContractVar; by destruct (m_ContractVars c !! key)..]. intros k.
  assert (Hdb : m_DB (cached c key) = m_DB c) by (unfold cached, get_ContractVar; by destruct (m_ContractVars c !! key)).
  unfold view. rewrite Hdb, cached_lookup. case_decide; [by subst|done].
Qed.

(** A variable takes a new value in the table, the tree and the cache. *)
Definition change (key new : blob) : M () :=
  e <- get_ContractVar key;;
  (if decide (new = []) then DataDel key e else if decide (e = []) then DataInsert key new else DataUpdate key new e);;;
  set_Data key new.

Definition db_change (key new : blob) (db : gmap blob blob) : gmap blob blob :=
  if m_Temporary then db else if decide (new = []) then delete key db else <[key := new]> db.

Definition leaf (key data : blob) : gset blob :=
  if m_SkipDefinition || negb (IsStored key) || bool_decide (data = []) then ∅ else {[get_HashContractVar key data]}.

Record changed (key new : blob) (c c' : Ctx) : Prop := {
  ch_view k : view c' k = if decide (k = key) then new else view c k;
  ch_db : m_DB c' = db_change key new (m_DB c);
  ch_new : leaf key new ## m_Contract c;
  ch_old : leaf key (view c key) ⊆ leaf key new ∪ m_Contract c;
  ch_tree : m_Contract c' = (leaf key new ∪ m_Contract c) ∖ leaf key (view c key);
  ch_dblogs : m_DBLogs c' = m_DBLogs c;
  ch_logs : m_ContractLogs c' = m_ContractLogs c;
  ch_vlogs : m_vLogs c' = m_vLogs c;
  ch_charge : m_ChargePerBlock c' = m_ChargePerBlock c;
}.

Lemma toggle_add key d c : d ≠ [] → ToggleTree key d true c =
  if decide (leaf key d ## m_Contract c) then (set_tree c (leaf key d ∪ m_Contract c), inr ()) else (c, inl WasmFail).
Proof.
  intros Hd. rewrite ToggleTree_add. unfold leaf. rewrite (bool_decide_eq_false_2 (d = [])) by done. rewrite orb_false_r.
  destruct (m_SkipDefinition || negb (IsStored key)).
  - rewrite decide_True by set_solver. f_equal. destruct c. unfold set_tree. cbn. f_equal. set_solver.
  - case_decide; case_decide; try done; set_solver.
Qed.

Lemma toggle_del key d c : d ≠ [] → leaf key d ⊆ m_Contract c →
  ToggleTree key d false c = (set_tree c (m_Contract c ∖ leaf key d), inr ()).
Proof.
  intros Hd. rewrite ToggleTree_del. unfold leaf. rewrite (bool_decide_eq_false_2 (d = [])) by done. rewrite orb_false_r.
  destruct (m_SkipDefinition || negb (IsStored key)).
  - intros _. f_equal. destruct c. unfold set_tree. cbn. f_equal. set_solver.
  - intros Hs. rewrite decide_True by set_solver. done.
Qed.

Lemma leaf_nil key : leaf key [] = ∅.
Proof. unfold leaf. by rewrite orb_true_r. Qed.

Lemma leaf_in c key : inv c → leaf key (view c key) ⊆ m_Contract c.
Proof.
  intros Hi. unfold leaf. case_bool_decide; [rewrite orb_true_r; set_solver|].
  destruct m_SkipDefinition eqn:Es; [set_solver|]. destruct (IsStored key) eqn:Ek; cbn [orb negb]; [|set_solver].
  pose proof (inv_tree c Hi key Es Ek ltac:(done)). set_solver.
Qed.

Lemma set_db_id c : set_db c (m_DB c) = c.
Proof. by destruct c. Qed.

Lemma db_insert key new c : new ≠ [] → (m_Temporary = false → m_DB c !! key = None) →
  unless m_Temporary (DB_ContractDataInsert key new) c = (set_db c (db_change key new (m_DB c)), inr ()).
Proof.
  intros Hn Hdb. unfold unless, db_change, DB_ContractDataInsert. destruct m_Temporary; [by rewrite set_db_id|].
  rewrite Hdb by done. by rewrite decide_False by done.
Qed.

Lemma db_update key new d c : new ≠ [] → (m_Temporary = false → m_DB c !! key = Some d) →
  unless m_Temporary (DB_ContractDataUpdate key new) c = (set_db c (db_change key new (m_DB c)), inr ()).
Proof.
  intros Hn Hdb. unfold unless, db_change, DB_ContractDataUpdate. destruct m_Temporary; [by rewrite set_db_id|].
  rewrite Hdb by done. by rewrite decide_False by done.
Qed.

Lemma db_del key d c : (m_Temporary = false → m_DB c !! key = Some d) →
  unless m_Temporary (DB_ContractDataDel key) c = (set_db c (db_change key [] (m_DB c)), inr ()).
Proof.
  intros Hdb. unfold unless, db_change, DB_ContractDataDel. destruct m_Temporary; [by rewrite set_db_id|].
  rewrite Hdb by done. by rewrite decide_True by done.
Qed.

(** The state after a change, all at once. *)
Definition after (c : Ctx) (key new : blob) : Ctx :=
  let c1 := cached c key in
  set_vars (set_db (set_tree c1 ((leaf key new ∪ m_Contract c) ∖ leaf key (view c key))) (db_change key new (m_DB c)))
    (<[key := new]> (m_ContractVars c1)).

Lemma after_changed c key new : leaf key new ## m_Contract c → leaf key (view c key) ⊆ leaf key new ∪ m_Contract c →
  changed key new c (after c key new).
Proof.
  intros H1 H2. destruct (cached_eqv c key) as [_ Hdb Ht Hdl Hl Hv Hr Hc]. split; [|done..].
  intros k. unfold view at 1. cbn [after set_vars m_ContractVars m_DB]. case_decide; [by subst; rewrite lookup_insert_eq|].
  rewrite lookup_insert_ne, cached_lookup, decide_False by done. unfold view. destruct (m_ContractVars c !! k) eqn:E; [done|].
  cbn [set_db m_DB]. unfold db_change. destruct m_Temporary; [done|]. case_decide; by rewrite ?lookup_delete_ne, ?lookup_insert_ne.
Qed.

Lemma after_rollback c key new : m_Rollback (after c key new) = m_Rollback c.
Proof. by rewrite (eq_rollback _ _ (cached_eqv c key)). Qed.

(** A change fails only when another variable has the hash, and then changes nothing. *)
Lemma change_spec c key new : inv c → view c key ≠ new →
  (¬ leaf key new ## m_Contract c ∧ change key new c = (cached c key, inl WasmFail)) ∨
  (changed key new c (after c key new) ∧ change key new c = (after c key new, inr ())).
Proof.
  intros Hi Hne. pose proof (leaf_in c key Hi) as Hold. destruct (cached_eqv c key) as [_ Hdb Ht _ _ _ _ _].
  pose proof (inv_db c Hi) as Hidb. rewrite Hdb in Hidb. unfold change, bind. rewrite get_ContractVar_eq.
  assert (Hset : ∀ t db, t = (leaf key new ∪ m_Contract c) ∖ leaf key (view c key) → db = db_change key new (m_DB c) →
    set_Data key new (set_db (set_tree (cached c key) t) db) = (after c key new, inr ())).
  { by intros ? ? -> ->. }
  destruct (decide (new = [])) as [->|Hn].
  - right. split; [apply after_changed; rewrite leaf_nil; set_solver|]. unfold ContractDataDel, bind.
    rewrite toggle_del by (done || by rewrite <- Ht). rewrite (db_del key (view c key)).
    + apply Hset; [rewrite leaf_nil, <- Ht; set_solver|by cbn; rewrite <- Hdb].
    + intros Et. cbn [set_tree m_DB]. rewrite Hidb by done. by rewrite decide_False.
  - destruct (decide (leaf key new ## m_Contract c)) as [Hd|Hd]; [right; split; [apply after_changed; set_solver|]|left; split; [done|]];
      (destruct (decide (view c key = [])) as [Eo|Eo]; [unfold ContractDataInsert|unfold ContractDataUpdate]; unfold bind; rewrite toggle_add, <- Ht by done).
    + rewrite decide_True by done. rewrite db_insert; [|done|].
      * apply Hset; [rewrite Eo, leaf_nil; set_solver|by cbn; rewrite <- Hdb].
      * intros Et. cbn [set_tree m_DB]. rewrite Hidb by done. by rewrite decide_True.
    + rewrite decide_True by done. rewrite toggle_del by (done || cbn [set_tree m_Contract]; set_solver). rewrite (db_update key new (view c key)); [|done|].
      * apply Hset; [done|by cbn; rewrite <- Hdb].
      * intros Et. cbn [set_tree m_DB]. rewrite Hidb by done. by rewrite decide_False.
    + by rewrite decide_False.
    + by rewrite decide_False.
Qed.

Lemma elem_leaf key d h : h ∈ leaf key d ↔ m_SkipDefinition = false ∧ IsStored key = true ∧ d ≠ [] ∧ h = get_HashContractVar key d.
Proof.
  unfold leaf. destruct m_SkipDefinition; [cbn; set_solver|]. destruct (IsStored key); cbn [negb orb]; [|set_solver].
  case_bool_decide; set_solver.
Qed.

(** The hash of a variable is the hash of no other one. *)
Lemma leaf_other c k1 k2 : inv c → k1 ≠ k2 → leaf k1 (view c k1) ## leaf k2 (view c k2).
Proof.
  intros Hi Hk h. rewrite !elem_leaf. intros (Es & E1 & N1 & ->) (_ & E2 & N2 & E). apply Hk. by apply (inv_inj c Hi).
Qed.

Lemma inv_leaves c : (m_Temporary = false → ∀ key, m_DB c !! key = if decide (view c key = []) then None else Some (view c key)) →
  (∀ key, leaf key (view c key) ⊆ m_Contract c) → (∀ k1 k2, k1 ≠ k2 → leaf k1 (view c k1) ## leaf k2 (view c k2)) →
  (m_Temporary = false → ∀ pos, m_ContractLogs c ≤ pos → m_DBLogs c !! pos = None) → 0 ≤ m_ContractLogs c →
  (∀ key, #(view c key) ≤ VarSize_4) → inv c.
Proof.
  intros H1 H2 H3 H4 H5 H6. split; try done.
  - intros key Es Ek Hn. apply (H2 key). by rewrite elem_leaf.
  - intros k1 k2 Es E1 E2 N1 N2 E. destruct (decide (k1 = k2)); [done|]. exfalso.
    apply (H3 k1 k2 ltac:(done) (get_HashContractVar k1 (view c k1))); rewrite elem_leaf; done.
Qed.

Lemma changed_inv c c' key new : inv c → changed key new c c' → #new ≤ VarSize_4 → inv c'.
Proof.
  intros Hi Hc Hs. apply inv_leaves.
  - intros Et k. rewrite (ch_db _ _ _ _ Hc), (ch_view _ _ _ _ Hc). unfold db_change. rewrite Et.
    destruct (decide (k = key)) as [->|Hk].
    + case_decide; [by rewrite lookup_delete_eq|by rewrite lookup_insert_eq].
    + rewrite <- (inv_db c Hi Et k). case_decide; [by rewrite lookup_delete_ne by done|by rewrite lookup_insert_ne by done].
  - intros k. rewrite (ch_view _ _ _ _ Hc), (ch_tree _ _ _ _ Hc). pose proof (ch_new _ _ _ _ Hc). pose proof (leaf_in c key Hi).
    case_decide as Ek; [subst; set_solver|]. pose proof (leaf_in c k Hi). pose proof (leaf_other c k key Hi Ek). set_solver.
  - pose proof (ch_new _ _ _ _ Hc) as Hnew.
    assert (Ho : ∀ k, k ≠ key → leaf k (view c k) ## leaf key new) by (intros k _; pose proof (leaf_in c k Hi); set_solver).
    intros k1 k2 Hk. rewrite !(ch_view _ _ _ _ Hc). destruct (decide (k1 = key)) as [->|], (decide (k2 = key)) as [->|]; [done| | |by apply leaf_other].
    + symmetry. by apply Ho.
    + by apply Ho.
  - intros Et pos. rewrite (ch_logs _ _ _ _ Hc), (ch_dblogs _ _ _ _ Hc). by apply inv_logs.
  - rewrite (ch_logs _ _ _ _ Hc). apply Hi.
  - intros k. rewrite (ch_view _ _ _ _ Hc). case_decide; [done|apply Hi].
Qed.

Lemma swap_back (N O T : gset blob) : N ## T → O ⊆ N ∪ T → T = (O ∪ (N ∪ T) ∖ O) ∖ N.
Proof.
  intros HN HO. rewrite <- (union_difference_L O (N ∪ T)) by done. rewrite difference_union_distr_l_L, difference_diag_L, (left_id_L ∅ (∪)).
  symmetry. apply difference_disjoint_L. by symmetry.
Qed.

(** Setting the old value again gives the old state. *)
Lemma change_back c c' d key new : inv c → view c key ≠ new → #new ≤ VarSize_4 → changed key new c c' → eqv (set_rollback c' (m_Rollback d)) d →
  ∃ d', change key (view c key) d = (d', inr ()) ∧ eqv (set_rollback c (m_Rollback d)) d'.
Proof.
  intros Hi Hne Hs Hc He. assert (Hi' : inv (set_rollback c' (m_Rollback d))) by (destruct (changed_inv c c' key new Hi Hc Hs); by split).
  pose proof (inv_eqv _ _ He Hi') as Hid.
  assert (Ev : view d key = new) by (rewrite <- (eq_view _ _ He); etrans; [apply (ch_view _ _ _ _ Hc)|by rewrite decide_True]).
  pose proof (ch_new _ _ _ _ Hc). pose proof (ch_old _ _ _ _ Hc). pose proof (ch_tree _ _ _ _ Hc) as Htree.
  change (m_Contract c') with (m_Contract (set_rollback c' (m_Rollback d))) in Htree. rewrite (eq_tree _ _ He) in Htree.
  destruct (change_spec d key (view c key) Hid) as [[Hd _]|[Hch E]]; [congruence|exfalso; apply Hd; set_solver|].
  rewrite E. eexists. split; [done|]. destruct He as [Hv Hdb _ Hdl Hl Hvl Hr Hcg]. destruct Hc as [Cv Cdb _ _ _ Cdl Cl Cvl Ccg].
  destruct Hch as [Dv Ddb _ _ Dt Ddl Dl Dvl Dcg]. pose proof (after_rollback d key (view c key)) as Dr.
  cbn [set_rollback m_DB m_Contract m_DBLogs m_ContractLogs m_vLogs m_Rollback m_ChargePerBlock] in *.
  split; cbn [set_rollback m_DB m_Contract m_DBLogs m_ContractLogs m_vLogs m_Rollback m_ChargePerBlock]; try congruence.
  - intros k. rewrite Dv, <- Hv. change (view (set_rollback c' (m_Rollback d)) k) with (view c' k). rewrite Cv. change (view (set_rollback c (m_Rollback d)) k) with (view c k). case_decide; by subst.
  - rewrite Ddb, <- Hdb, Cdb. unfold db_change. destruct m_Temporary eqn:Et; [done|]. pose proof (inv_db c Hi Et key) as Hk.
    apply map_eq. intros k. destruct (decide (view c key = [])), (decide (new = [])); [congruence|..];
      (destruct (decide (k = key)) as [->|]; [by simplify_map_eq|by simplify_map_eq]).
  - rewrite Dt, Htree, Ev. by apply swap_back.
Qed.

(** ** Chains of changes *)

Definition frame (r : Rec) : list Z := ser r ++ be 4 (u32 #(ser r)).

(** [c'] comes from [c] with the record [r], which takes it back. *)
Record step_back (r : Rec) (c c' : Ctx) : Prop := {
  sb_small : rec_small r;
  sb_rollback : m_Rollback c' = m_Rollback c ++ frame r;
  sb_undo d : eqv (set_rollback c' (m_Rollback d)) d →
    ∃ d', UndoRec r d = (d', inr false) ∧ eqv (set_rollback c (m_Rollback d)) d';
}.

(** The records of a chain, the last one first. *)
Inductive chain : list Rec → Ctx → Ctx → Prop :=
  | chain_nil c c' : eqv c c' → chain [] c c'
  | chain_cons r rs c c1 c' : chain rs c c1 → step_back r c1 c' → chain (r :: rs) c c'.

Lemma set_rollback_eqv c d rb : eqv c d → eqv (set_rollback c rb) (set_rollback d rb).
Proof. intros []. by split. Qed.

Lemma set_rollback_id c : set_rollback c (m_Rollback c) = c.
Proof. by destruct c. Qed.

Lemma chain_eqv rs c c' c'' : chain rs c c' → eqv c' c'' → chain rs c c''.
Proof.
  destruct 1 as [c c' He|r rs c c1 c' Hc Hs]; intros He'; [constructor; by etrans|]. econstructor; [done|].
  destruct Hs as [Hs1 Hs2 Hs3]. split; [done|by rewrite <- (eq_rollback _ _ He')|].
  intros d Hd. apply Hs3. etrans; [|done]. by apply set_rollback_eqv.
Qed.

Lemma chain_app rs1 rs2 c c1 c2 : chain rs1 c c1 → chain rs2 c1 c2 → chain (rs2 ++ rs1) c c2.
Proof.
  intros H1 H2. revert H1. induction H2 as [c1 c2 He|r rs c1 c3 c2 H2 IH Hs]; intros H1; cbn [app]; [by eapply chain_eqv|].
  econstructor; eauto.
Qed.

(** [UndoVars] takes a whole chain back, to the state before the terminator. *)
Lemma UndoVars_loop_chain rs c c' d n rb : chain rs c c' → eqv c' d → m_Rollback c = rb ++ frame RTerminator → (length rs < n)%nat →
  ∃ d', UndoVars_loop n d = (d', inr ()) ∧ eqv (set_rollback c rb) d'.
Proof.
  intros Hc. revert d n. induction Hc as [c c' He|r rs c c1 c' Hc IH Hs]; intros d n Hd Hrb Hn; (destruct n as [|n]; [lia|]); cbn [NodeVars.UndoVars_loop]; unfold bind.
  - rewrite (pop_push RTerminator d rb); [|done|by rewrite <- (eq_rollback _ _ Hd), <- (eq_rollback _ _ He)].
    eexists. split; [done|]. apply set_rollback_eqv. by etrans.
  - destruct Hs as [Hs1 Hs2 Hs3].
    assert (Er : m_Rollback d = m_Rollback c1 ++ frame r) by by rewrite <- (eq_rollback _ _ Hd).
    rewrite (pop_push r d (m_Rollback c1)) by done.
    destruct (Hs3 (set_rollback d (m_Rollback c1))) as (d2 & -> & He2); [by apply set_rollback_eqv|].
    cbn [set_rollback m_Rollback] in He2. fold (set_rollback c1 (m_Rollback c1)) in He2. rewrite set_rollback_id in He2.
    apply IH; [done|done|cbn in Hn; lia].
Qed.

Lemma chain_rollback rs c c' : chain rs c c' → (length (m_Rollback c) + length rs ≤ length (m_Rollback c'))%nat.
Proof.
  induction 1 as [c c' He|r rs c c1 c' Hc IH Hs]; [rewrite (eq_rollback _ _ He); cbn; lia|].
  rewrite (sb_rollback _ _ _ Hs), length_app. unfold frame. rewrite length_app, length_be. cbn. lia.
Qed.

Lemma UndoVars_chain rs c c' d rb : chain rs c c' → eqv c' d → m_Rollback c = rb ++ frame RTerminator →
  ∃ d', UndoVars d = (d', inr ()) ∧ eqv (set_rollback c rb) d'.
Proof.
  intros Hc Hd Hrb. unfold NodeVars.UndoVars. eapply UndoVars_loop_chain; try done.
  pose proof (chain_rollback _ _ _ Hc) as Hl. rewrite (eq_rollback _ _ Hd) in Hl. rewrite Hrb, length_app in Hl.
  unfold frame in Hl. rewrite length_app, length_be in Hl. lia.
Qed.

(** ** What does not touch the charge *)

Definition keeps_charge {A} (m : M A) : Prop :=
  ∀ c n, m (set_charge c n) = let '(c', r) := m c in (set_charge c' n, r).

Lemma keeps_ret {A} (a : A) : keeps_charge (ret a).
Proof. done. Qed.

Lemma keeps_bind {A B} (m : M A) (k : A → M B) : keeps_charge m → (∀ a, keeps_charge (k a)) → keeps_charge (bind m k).
Proof. intros Hm Hk c n. unfold bind. rewrite Hm. destruct (m c) as [c' [e|a]]; [done|]. apply Hk. Qed.

Lemma keeps_get key : keeps_charge (get_ContractVar key).
Proof. intros c n. unfold get_ContractVar. cbn. by destruct (m_ContractVars c !! key). Qed.

Lemma keeps_set key d : keeps_charge (set_Data key d).
Proof. done. Qed.

Lemma keeps_toggle key d b : keeps_charge (ToggleTree key d b).
Proof.
  unfold ContractDataToggleTree. destruct m_SkipDefinition; [apply keeps_ret|]. intros c n. unfold Toggle. cbn.
  destruct (negb (IsStored key)); [done|]. by destruct (Bool.eqb _ _).
Qed.

Lemma keeps_unless b m : keeps_charge m → keeps_charge (unless b m).
Proof. by destruct b. Qed.

Lemma keeps_db key d : keeps_charge (DB_ContractDataInsert key d) ∧ keeps_charge (DB_ContractDataUpdate key d) ∧
  keeps_charge (DB_ContractDataDel key).
Proof.
  split_and!; intros c n; unfold DB_ContractDataInsert, DB_ContractDataUpdate, DB_ContractDataDel; cbn; by destruct (m_DB c !! key).
Qed.

Lemma keeps_logdel pos : keeps_charge (DB_ContractLogDel pos).
Proof. intros c n. unfold DB_ContractLogDel. cbn. by destruct (m_DBLogs c !! pos). Qed.

Definition no_recharge (r : Rec) : Prop := match r with RRecharge _ => False | _ => True end.

Lemma keeps_undo r : no_recharge r → keeps_charge (UndoRec r).
Proof.
  destruct r as [|key data|key data|key|pos bMmr|]; intros Hr; cbn [NodeVars.UndoRec]; try done;
    repeat first [apply keeps_bind; [|intros ?]|apply keeps_ret|apply keeps_get|apply keeps_set|apply keeps_toggle|apply keeps_unless
      |apply keeps_db|apply keeps_logdel|done]; try apply []; destruct bMmr as [[]|]; done.
Qed.

Lemma step_back_charge r c c' n : no_recharge r → step_back r c c' → step_back r (set_charge c n) (set_charge c' n).
Proof.
  intros Hr [Hs1 Hs2 Hs3]. split; [done|done|]. intros d [Hv Hdb Ht Hdl Hl Hvl Hrb Hcg].
  destruct (Hs3 (set_charge d (m_ChargePerBlock c'))) as (d' & E & He); [by split|].
  assert (Ed : d = set_charge (set_charge d (m_ChargePerBlock c')) n) by (destruct d; cbn in *; by subst).
  exists (set_charge d' n). split.
  - rewrite Ed at 1. rewrite (keeps_undo r Hr). by rewrite E.
  - destruct He. by split.
Qed.

Lemma chain_charge rs c c' n : Forall no_recharge rs → chain rs c c' → chain rs (set_charge c n) (set_charge c' n).
Proof.
  intros Hr Hc. induction Hc as [c c' He|r rs c c1 c' Hc IH Hs]; [constructor; destruct He; by split|].
  apply Forall_cons in Hr as [Hr Hrs]. econstructor; [by apply IH|by apply step_back_charge].
Qed.

(** ** The operations *)

(** The record that takes a variable back to the value [old]. *)
Definition rec_back (key old new : blob) : Rec :=
  if decide (new = []) then RInsert key old else if decide (old = []) then RDelete key else RUpdate key old.

Lemma SaveVar_change key data c : inv c → view c key ≠ data →
  SaveVar key data c =
    match change key data c with
    | (c1, inr _) => (set_rollback c1 (m_Rollback c1 ++ frame (rec_back key (view c key) data)), inr (u32 #(view c key)))
    | (c1, inl e) => (c1, inl e)
    end.
Proof.
  intros Hi Hne. unfold NodeVars.SaveVar, change, bind, rec_back. rewrite get_ContractVar_eq. rewrite decide_False by done.
  pose proof (inv_size c Hi key) as Hs. unfold VarSize_4 in Hs. rewrite u32_small by lia.
  assert (E0 : (#(view c key) =? 0) = bool_decide (view c key = [])).
  { destruct (view c key); [done|]. rewrite bool_decide_eq_false_2 by done. apply Z.eqb_neq. cbn. lia. }
  rewrite E0. destruct (decide (data = [])) as [->|Hd]; [rewrite bool_decide_eq_false_2 by auto|rewrite bool_decide_eq_true_2 by done].
  - by destruct (DataDel key (view c key) (cached c key)) as [c0 [e|[]]].
  - destruct (decide (view c key = [])) as [E|E]; [rewrite bool_decide_eq_true_2 by done|rewrite bool_decide_eq_false_2 by done]; cbn [negb].
    + by destruct (DataInsert key data (cached c key)) as [c0 [e|[]]].
    + by destruct (DataUpdate key data (view c key) (cached c key)) as [c0 [e|[]]].
Qed.

Lemma UndoRec_change key old new d : old ≠ new → view d key = new →
  UndoRec (rec_back key old new) d = match change key old d with (d1, inr _) => (d1, inr false) | (d1, inl e) => (d1, inl e) end.
Proof.
  intros Hne Hv. unfold rec_back, change, bind. rewrite get_ContractVar_eq, Hv.
  destruct (decide (new = [])) as [->|Hn]; [|destruct (decide (old = [])) as [->|Ho]]; cbn [NodeVars.UndoRec]; unfold bind; rewrite ?get_ContractVar_eq, ?Hv.
  - rewrite decide_False by done. by destruct (DataInsert key old (cached d key)) as [c0 [e|[]]].
  - by destruct (DataDel key new (cached d key)) as [c0 [e|[]]].
  - by destruct (DataUpdate key old new (cached d key)) as [c0 [e|[]]].
Qed.

Lemma rec_back_recharge key old new : no_recharge (rec_back key old new).
Proof. unfold rec_back. by repeat case_decide. Qed.

Lemma rec_back_small key old new : #key ≤ VarKeyMax → #old ≤ VarSize_4 → rec_small (rec_back key old new).
Proof. intros. unfold rec_back. repeat case_decide; done. Qed.

Lemma SaveVar_chain key data c : inv c → #key ≤ VarKeyMax → #data ≤ VarSize_4 →
  ∃ rs c' res, SaveVar key data c = (c', res) ∧ chain rs c c' ∧ Forall no_recharge rs ∧ inv c' ∧ m_ContractLogs c' = m_ContractLogs c ∧
    m_ChargePerBlock c' = m_ChargePerBlock c ∧ res ≠ inl Corruption.
Proof.
  intros Hi Hk Hd. pose proof (cached_eqv c key) as Hce. destruct (decide (view c key = data)) as [E|E].
  - exists [], (cached c key), (inr (u32 #(view c key))). unfold NodeVars.SaveVar, bind. rewrite get_ContractVar_eq, decide_True by done.
    split_and!; [done|by constructor|by constructor|by eapply inv_eqv|by destruct Hce|by destruct Hce|done].
  - rewrite SaveVar_change by done. destruct (change_spec c key data Hi E) as [[_ ->]|[Hc ->]].
    + exists [], (cached c key), (inl WasmFail). split_and!; [done|by constructor|by constructor|by eapply inv_eqv|by destruct Hce|by destruct Hce|done].
    + set (r := rec_back key (view c key) data). pose proof (changed_inv _ _ _ _ Hi Hc Hd) as Hi'. set (c1 := after c key data) in *.
      exists [r], (set_rollback c1 (m_Rollback c1 ++ frame r)), (inr (u32 #(view c key))).
      split_and!; [done| |by constructor; [apply rec_back_recharge|constructor]|by destruct Hi'|apply Hc|apply Hc|done].
      apply (chain_cons r [] c c); [by constructor|]. split; [by apply rec_back_small; [|apply Hi]|cbn [set_rollback m_Rollback]; unfold c1; by rewrite after_rollback|].
      intros d Hed.
      assert (Hvd : view d key = data) by (rewrite <- (eq_view _ _ Hed); etrans; [apply (ch_view _ _ _ _ Hc)|by rewrite decide_True]).
      unfold r. rewrite UndoRec_change by done. destruct (change_back c c1 d key data Hi E Hd Hc Hed) as (d' & -> & He'). by exists d'.
Qed.

Lemma OnLog_chain key v c : inv c → m_ContractLogs c + 1 < 2 ^ 32 →
  ∃ rs c', OnLog key v c = (c', inr (m_ContractLogs c)) ∧ chain rs c c' ∧ Forall no_recharge rs ∧ inv c' ∧ m_ContractLogs c' = m_ContractLogs c + 1 ∧
    m_ChargePerBlock c' = m_ChargePerBlock c.
Proof.
  intros Hi Hl. pose proof (inv_pos c Hi) as Hp. set (pos := m_ContractLogs c) in *.
  set (r := RLog pos (if m_SkipDefinition then None else Some (IsStored key))).
  set (vl := if m_SkipDefinition || negb (IsStored key) then m_vLogs c else m_vLogs c ++ [get_HashContractLog key v pos]).
  set (dl := if m_Temporary then m_DBLogs c else <[pos := (key, v)]> (m_DBLogs c)).
  set (c' := mkCtx (m_ContractVars c) (m_DB c) (m_Contract c) dl (pos + 1) vl (m_Rollback c ++ frame r) (m_ChargePerBlock c)).
  assert (Hfresh : m_Temporary = false → m_DBLogs c !! pos = None) by (intros Et; by apply (inv_logs c Hi Et); unfold pos).
  assert (E : OnLog key v c = (c', inr pos)).
  { unfold NodeVars.OnLog, bind, unless, DB_ContractLogInsert. fold pos. unfold c', vl, dl, r.
    destruct m_Temporary; [|rewrite Hfresh by done]; destruct m_SkipDefinition; cbn [orb]; try destruct (IsStored key);
      unfold ret, modify, NodeVars.push, modify, frame; cbn; rewrite (u32_small (pos + 1)) by lia; done. }
  exists [r], c'. split_and!; [done| |by repeat constructor| |done|done].
  - apply (chain_cons r [] c c); [by constructor|]. split; [done|done|]. intros d [Hv Hdb Ht Hdl Hlg Hvl _ Hcg].
    unfold r. cbn [NodeVars.UndoRec set_rollback c' m_DBLogs m_ContractLogs m_vLogs m_DB m_Contract m_ChargePerBlock] in *. unfold bind, modify, unless, DB_ContractLogDel.
    assert (Evl : m_vLogs c = if m_SkipDefinition || negb (IsStored key) then m_vLogs d else take (length (m_vLogs d) - 1) (m_vLogs d)).
    { rewrite <- Hvl. unfold vl. destruct (m_SkipDefinition || negb (IsStored key)); [done|]. rewrite length_app, Nat.add_sub. by rewrite take_app_length. }
    assert (Edl : m_Temporary = false → ∃ x, m_DBLogs d !! pos = Some x ∧ delete pos (m_DBLogs d) = m_DBLogs c).
    { intros Et. rewrite <- Hdl. unfold dl. rewrite Et. exists (key, v). rewrite lookup_insert_eq, delete_insert_id by auto. done. }
    destruct m_Temporary; [|destruct (Edl eq_refl) as (x & Ex & Ed); cbn [set_logs m_DBLogs]; rewrite Ex];
      destruct m_SkipDefinition; cbn [orb] in Evl; try destruct (IsStored key); cbn [negb] in Evl; (eexists; split; [done|]);
      split; cbn; try done; try congruence.
  - apply inv_leaves; cbn [c' m_DB m_Contract m_DBLogs m_ContractLogs]; [apply (inv_db c Hi)|intros k; exact (leaf_in c k Hi)|intros k1 k2 Hk; exact (leaf_other c k1 k2 Hi Hk)| |lia|apply Hi].
    intros Et p Hpos. unfold dl. rewrite Et, lookup_insert_ne by lia. apply (inv_logs c Hi Et). unfold pos in *. lia.
Qed.

(** ** Programs *)

(** A program that writes within the limits and makes [n] log entries at most. *)
Fixpoint prog_ok (n : nat) (p : Prog) : Prop :=
  match p with
  | PDone _ | PThrow _ => True
  | PLoad _ k => ∀ d, prog_ok n (k d)
  | PSave key data k => #key ≤ VarKeyMax ∧ #data ≤ VarSize_4 ∧ ∀ x, prog_ok n (k x)
  | PLog _ _ k => match n with O => False | S n => ∀ x, prog_ok n (k x) end
  end.

Lemma set_charge_inv c n : inv c → inv (set_charge c n).
Proof. intros []. by split. Qed.

Lemma set_rollback_inv c rb : inv c → inv (set_rollback c rb).
Proof. intros []. by split. Qed.

End Spec.
