(* ===== verification/NodeFind.v ===== *)
(** * node/processor.cpp: ordered search in the contract variables, and the end of a contract

    [FindVarEx] walks the keys of the cache and of the table together.  The two queries of
    node/db.cpp are parameters: they have no ORDER BY, so which row comes first is not theirs
    to say.  [EnsureNoVars] is the check after the destructor of a contract. *)

From stdpp Require Import base list numbers option gmap sets.
From S2P Require Import Prelude NodeVars NodeVarsSpec.
Local Open Scope Z_scope.

(** ** The order of the keys *)

(** [Blob::cmp]. *)
Definition Blob_cmp (a b : blob) : Z :=
  let n := Nat.min (length a) (length b) in
  let nRet := memcmp (take n a) (take n b) in
  if negb (nRet =? 0) then nRet
  else if #a <? #b then -1 else if #b <? #a then 1 else 0.

Definition blob_lt (a b : blob) : Prop := Blob_cmp a b < 0.

#[export] Instance blob_lt_dec a b : Decision (blob_lt a b).
Proof. unfold blob_lt. apply _. Defined.

Lemma Blob_cmp_cons x y a b :
  Blob_cmp (x :: a) (y :: b) = if x <? y then -1 else if y <? x then 1 else Blob_cmp a b.
Proof.
  unfold Blob_cmp. cbn [length Nat.min take memcmp]. destruct (x <? y); [done|]. destruct (y <? x); [done|].
  set (m := memcmp _ _). destruct (negb (m =? 0)); [done|].
  destruct (Z.ltb_spec (Z.of_nat (S (length a))) (Z.of_nat (S (length b)))), (Z.ltb_spec #a #b); try lia.
  destruct (Z.ltb_spec (Z.of_nat (S (length b))) (Z.of_nat (S (length a)))), (Z.ltb_spec #b #a); lia.
Qed.

Lemma Blob_cmp_nil_l b : Blob_cmp [] b = if decide (b = []) then 0 else -1.
Proof. destruct b; done. Qed.

Lemma Blob_cmp_nil_r a : Blob_cmp a [] = if decide (a = []) then 0 else 1.
Proof. destruct a; done. Qed.

(** ** [FindVarEx] *)

(** The next and the previous element of an ordered set. *)
Definition key_above (keys : list blob) (key : blob) : option blob :=
  foldr (λ k acc, if decide (blob_lt key k) then
                    match acc with Some a => if decide (blob_lt a k) then Some a else Some k | None => Some k end
                  else acc) None keys.

Definition key_below (keys : list blob) (key : blob) : option blob :=
  foldr (λ k acc, if decide (blob_lt k key) then
                    match acc with Some a => if decide (blob_lt k a) then Some a else Some k | None => Some k end
                  else acc) None keys.

Section Find.
Context (DB_FindNext DB_FindPrev : gmap blob blob → blob → option blob).

Fixpoint FindVarEx_loop (n : nat) (key : blob) (bBigger : bool) : M (option blob) :=
  match n with
  | O => throw StdExc
  | S n => λ c,
    let next := if bBigger then DB_FindNext (m_DB c) key else DB_FindPrev (m_DB c) key in
    ((match next with Some keyDB => _ <- get_ContractVar keyDB;; ret () | None => ret () end);;; λ c,
     let keys := (map_to_list (m_ContractVars c)).*1 in
     match (if bBigger then key_above keys key else key_below keys key) with
     | None => (c, inr None)
     | Some k =>
       match m_ContractVars c !! k with
       | Some (_ :: _) => (c, inr (Some k))
       | _ => FindVarEx_loop n k bBigger c
       end
     end) c
  end.

(** The key that was found.  Every iteration passes one key of the cache or of the table. *)
Definition FindVarEx (key : blob) (bExact bBigger : bool) : M (option blob) :=
  e <- get_ContractVar key;;
  if bool_decide (e = []) || negb bExact then
    λ c, FindVarEx_loop (S (size (m_ContractVars c) + size (m_DB c))) key bBigger c
  else ret (Some key).

(** The key and the value, both empty if there is none. *)
Definition LoadVarEx (key : blob) (bExact bBigger : bool) : M (blob * blob) :=
  r <- FindVarEx key bExact bBigger;;
  match r with
  | Some k => e <- get_ContractVar k;; ret (k, e)
  | None => ret ([], [])
  end.

Definition IsOwnedVar (cid key : blob) : bool :=
  bool_decide (length cid ≤ length key)%nat && bool_decide (cid = take (length cid) key).

Definition EnsureNoVars (cid : blob) : M bool :=
  r <- FindVarEx cid true true;;
  ret (match r with Some k => negb (IsOwnedVar cid k) | None => true end).

End Find.

(** ** The order is total *)

Lemma blob_lt_irrefl a : ¬ blob_lt a a.
Proof. unfold blob_lt. induction a as [|x a IH]; [change (¬ 0 < 0); lia|]. rewrite Blob_cmp_cons, Z.ltb_irrefl. lia. Qed.

Lemma blob_lt_nil_r a : ¬ blob_lt a [].
Proof. unfold blob_lt. rewrite Blob_cmp_nil_r. case_decide; lia. Qed.

Lemma blob_lt_nil_l x b : blob_lt [] (x :: b).
Proof. unfold blob_lt. rewrite Blob_cmp_nil_l. case_decide; [done|lia]. Qed.

Lemma blob_lt_cons x y a b : blob_lt (x :: a) (y :: b) ↔ x < y ∨ x = y ∧ blob_lt a b.
Proof.
  unfold blob_lt. rewrite Blob_cmp_cons. destruct (Z.ltb_spec x y), (Z.ltb_spec y x); lia.
Qed.

Lemma blob_lt_trans a b c : blob_lt a b → blob_lt b c → blob_lt a c.
Proof.
  revert b c. induction a as [|x a IH]; intros [|y b] [|z c] H1 H2;
    try (by apply blob_lt_nil_r in H1) || (by apply blob_lt_nil_r in H2) || apply blob_lt_nil_l.
  rewrite blob_lt_cons in *. destruct H1 as [|[-> H1]], H2 as [|[-> H2]]; [left; lia|by left|by left|right; eauto].
Qed.

Lemma blob_trichotomy a b : blob_lt a b ∨ a = b ∨ blob_lt b a.
Proof.
  revert b. induction a as [|x a IH]; intros [|y b]; [by right; left|left; apply blob_lt_nil_l|right; right; apply blob_lt_nil_l|].
  rewrite !blob_lt_cons. destruct (Z.lt_trichotomy x y) as [|[->|]]; [auto| |auto]. destruct (IH b) as [|[->|]]; auto.
Qed.

(** Keys between [cid] and a key that starts with [cid] start with it too. *)
Lemma blob_prefix cid k x : ¬ blob_lt k cid → ¬ blob_lt (cid ++ x) k → ∃ y, k = cid ++ y.
Proof.
  revert k. induction cid as [|z cid IH]; intros k H1 H2; [by exists k|]. destruct k as [|w k]; [by destruct H1; apply blob_lt_nil_l|].
  cbn [app] in H2. rewrite blob_lt_cons in H1, H2. assert (w = z) as -> by lia. destruct (IH k) as [y ->]; [tauto|tauto|]. by exists y.
Qed.

Lemma key_above_spec keys key :
  match key_above keys key with
  | None => ∀ k, k ∈ keys → ¬ blob_lt key k
  | Some a => a ∈ keys ∧ blob_lt key a ∧ ∀ k, k ∈ keys → blob_lt key k → ¬ blob_lt k a
  end.
Proof.
  induction keys as [|k keys IH]; cbn [key_above foldr]; [set_solver|]. fold (key_above keys key).
  destruct (key_above keys key) as [a|]; case_decide as Hk.
  - destruct IH as (Ha & Hka & Hmin). case_decide as Hak.
    + split_and!; [set_solver|done|]. intros k' [->|Hk']%elem_of_cons; [|by apply Hmin]. intros _ H. by eapply blob_lt_irrefl, blob_lt_trans.
    + split_and!; [set_solver|done|]. intros k' [->|Hk']%elem_of_cons Hlt; [apply blob_lt_irrefl|]. intros H.
      destruct (blob_trichotomy k a) as [Hka'|[->|?]]; [|by apply (Hmin k')|done]. apply (Hmin k' Hk' Hlt). by eapply blob_lt_trans.
  - destruct IH as (Ha & Hka & Hmin). split_and!; [set_solver|done|]. intros k' [->|Hk']%elem_of_cons Hlt; [done|by apply Hmin].
  - split_and!; [set_solver|done|]. intros k' [->|Hk']%elem_of_cons Hlt; [apply blob_lt_irrefl|by apply IH in Hk'].
  - intros k' [->|Hk']%elem_of_cons; [done|by apply IH].
Qed.

Lemma elem_of_map_keys (m : gmap blob blob) k : k ∈ (map_to_list m).*1 ↔ is_Some (m !! k).
Proof.
  rewrite list_elem_of_fmap. split.
  - intros ([k' v] & -> & H%elem_of_map_to_list). by eexists.
  - intros [v H]. exists (k, v). split; [done|]. by apply elem_of_map_to_list.
Qed.

(** ** The search finds the nearest variable *)

Section FindSpec.
Context (DB_FindNext DB_FindPrev : gmap blob blob → blob → option blob).

(** The row the query gives is the nearest one. *)
Hypothesis FindNext_nearest : ∀ db key,
  match DB_FindNext db key with
  | None => ∀ k, is_Some (db !! k) → ¬ blob_lt key k
  | Some a => is_Some (db !! a) ∧ blob_lt key a ∧ ∀ k, is_Some (db !! k) → blob_lt key k → ¬ blob_lt k a
  end.

Definition all_keys (c : Ctx) : gset blob := dom (m_ContractVars c) ∪ dom (m_DB c).

Lemma view_key c k : view c k ≠ [] → k ∈ all_keys c.
Proof.
  unfold view, all_keys. rewrite elem_of_union, !elem_of_dom. destruct (m_ContractVars c !! k) eqn:E; [naive_solver|].
  destruct (m_DB c !! k) eqn:E'; cbn; naive_solver.
Qed.

(** The key nearest above [key] in the cache, once the nearest of the table is cached. *)
Lemma next_cached c key : ∃ c1,
  (match DB_FindNext (m_DB c) key with Some keyDB => bind (get_ContractVar keyDB) (λ _, ret ()) | None => ret () end) c = (c1, inr ()) ∧
  eqv c c1 ∧ all_keys c1 = all_keys c ∧
  match key_above (map_to_list (m_ContractVars c1)).*1 key with
  | None => ∀ k, blob_lt key k → view c k = []
  | Some a => is_Some (m_ContractVars c1 !! a) ∧ a ∈ all_keys c ∧ blob_lt key a ∧ ∀ k, blob_lt key k → blob_lt k a → view c k = []
  end.
Proof.
  pose proof (FindNext_nearest (m_DB c) key) as HF.
  assert (Hex : ∃ c1, (match DB_FindNext (m_DB c) key with Some keyDB => bind (get_ContractVar keyDB) (λ _, ret ()) | None => ret () end) c = (c1, inr ()) ∧
    eqv c c1 ∧ all_keys c1 = all_keys c ∧ (∀ a, DB_FindNext (m_DB c) key = Some a → is_Some (m_ContractVars c1 !! a))).
  { destruct (DB_FindNext (m_DB c) key) as [kd|] eqn:E; [|by exists c]. exists (cached c kd). unfold bind. rewrite get_ContractVar_eq.
    pose proof (cached_eqv c kd) as He. split_and!; [done|done| |intros a [= <-]; rewrite cached_lookup, decide_True; by eauto].
    unfold all_keys. rewrite <- (eq_db _ _ He). destruct HF as (Hd & _). apply set_eq. intros k.
    rewrite !elem_of_union, !elem_of_dom, cached_lookup. case_decide; [subst; naive_solver|done]. }
  destruct Hex as (c1 & E & He & Hk & Hc). exists c1. split_and!; [done|done|done|].
  pose proof (key_above_spec (map_to_list (m_ContractVars c1)).*1 key) as HK.
  assert (Hnone : ∀ k, blob_lt key k → is_Some (m_ContractVars c1 !! k) ∨ is_Some (m_DB c !! k) ∨ view c k = []).
  { intros k _. destruct (decide (view c k = [])) as [|Hn]; [auto|]. apply view_key in Hn. rewrite <- Hk in Hn. unfold all_keys in Hn.
    rewrite elem_of_union, !elem_of_dom, <- (eq_db _ _ He) in Hn. naive_solver. }
  destruct (key_above _ key) as [a|].
  - destruct HK as (Ha & Hlt & Hmin). rewrite elem_of_map_keys in Ha. split_and!; [done| |done|].
    { rewrite <- Hk. unfold all_keys. rewrite elem_of_union, elem_of_dom. by left. }
    intros k Hk1 Hk2. destruct (Hnone k Hk1) as [Hc1|[Hd|]]; [|exfalso|done].
    + exfalso. apply (Hmin k); [by apply elem_of_map_keys|done|done].
    + destruct (DB_FindNext (m_DB c) key) as [kd|]; [|by apply (HF k)]. destruct HF as (_ & Hkd & HFm).
      specialize (HFm k Hd Hk1). specialize (Hmin kd). rewrite elem_of_map_keys in Hmin.
      destruct (blob_trichotomy kd a) as [?|[->|?]]; [by apply Hmin; auto|done|].
      destruct (blob_trichotomy kd k) as [Hx|[->|?]]; [|by eapply blob_lt_irrefl, blob_lt_trans|done].
      eapply blob_lt_irrefl. eapply blob_lt_trans; [exact Hx|]. by eapply blob_lt_trans.
  - intros k Hlt. destruct (Hnone k Hlt) as [Hc1|[Hd|]]; [exfalso|exfalso|done].
    + by apply (HK k); [apply elem_of_map_keys|].
    + destruct (DB_FindNext (m_DB c) key) as [kd|]; [|by apply (HF k)]. destruct HF as (_ & Hkd & _).
      apply (HK kd); [apply elem_of_map_keys; auto|done].
Qed.

Lemma FindVarEx_loop_spec n c key : (size (filter (λ k, blob_lt key k) (all_keys c)) < n)%nat →
  ∃ c' r, FindVarEx_loop DB_FindNext DB_FindPrev n key true c = (c', inr r) ∧ eqv c c' ∧
    match r with
    | None => ∀ k, blob_lt key k → view c k = []
    | Some a => blob_lt key a ∧ view c a ≠ [] ∧ ∀ k, blob_lt key k → blob_lt k a → view c k = []
    end.
Proof.
  revert c key. induction n as [|n IH]; intros c key Hn; [lia|]. cbn [FindVarEx_loop].
  destruct (next_cached c key) as (c1 & E & He & Hk & HK). unfold bind at 1. rewrite E.
  destruct (key_above _ key) as [a|]; [|by exists c1, None]. destruct HK as (Ha & Hin & Hlt & Hmin).
  assert (Hva : view c a = default [] (m_ContractVars c1 !! a)).
  { rewrite (eq_view _ _ He). unfold view. by destruct Ha as [x ->]. }
  destruct (m_ContractVars c1 !! a) as [[|x d]|]; cbn [default] in Hva.
  2: { exists c1, (Some a). split_and!; [done|done|done|by rewrite Hva|done]. }
  2: by destruct Ha.
  destruct (IH c1 a) as (c' & r & -> & He' & Hr).
  { rewrite Hk. eapply Nat.lt_le_trans; [apply subset_size|apply Nat.lt_succ_r, Hn]. split.
    - intros k. rewrite !elem_of_filter. intros [? ?]. split; [by eapply blob_lt_trans|done].
    - intros H. specialize (H a). rewrite !elem_of_filter in H. destruct H as [Hx _]; [done|]. by apply blob_lt_irrefl in Hx. }
  exists c', r. split_and!; [done|by etrans|].
  assert (Hmid : ∀ k, blob_lt key k → view c k = [] ∨ blob_lt a k).
  { intros k Hkk. destruct (blob_trichotomy k a) as [|[->|]]; [left; by apply Hmin|by left|by right]. }
  destruct r as [b|].
  - destruct Hr as (H1 & H2 & H3). rewrite <- (eq_view _ _ He) in H2. split_and!; [by eapply blob_lt_trans|done|].
    intros k Hkk Hkb. destruct (Hmid k Hkk); [done|]. rewrite (eq_view _ _ He). by apply H3.
  - intros k Hkk. destruct (Hmid k Hkk); [done|]. rewrite (eq_view _ _ He). by apply Hr.
Qed.

(** The variable with the least key from [key] on, or behind it. *)
Lemma FindVarEx_spec c key bExact :
  let from k := blob_lt key k ∨ bExact = true ∧ k = key in
  ∃ c' r, FindVarEx DB_FindNext DB_FindPrev key bExact true c = (c', inr r) ∧ eqv c c' ∧
    match r with
    | None => ∀ k, from k → view c k = []
    | Some a => from a ∧ view c a ≠ [] ∧ ∀ k, from k → blob_lt k a → view c k = []
    end.
Proof.
  intros from. unfold FindVarEx, bind. rewrite get_ContractVar_eq. pose proof (cached_eqv c key) as He.
  destruct (bool_decide (view c key = []) || negb bExact) eqn:Eb.
  - destruct (FindVarEx_loop_spec (S (size (m_ContractVars (cached c key)) + size (m_DB (cached c key)))) (cached c key) key) as (c' & r & -> & He' & Hr).
    { apply Nat.lt_succ_r. transitivity (size (all_keys (cached c key))); [apply subseteq_size; intros k; rewrite elem_of_filter; by intros [_ ?]|].
      unfold all_keys. rewrite size_union_alt. rewrite !size_dom. apply Nat.add_le_mono_l. rewrite <- (size_dom (D := gset blob) (m_DB (cached c key))).
      apply subseteq_size. set_solver. }
    exists c', r. split_and!; [done|by etrans|].
    assert (Hkey : bExact = true → view c key = []) by (intros ->; rewrite orb_false_r in Eb; by apply bool_decide_eq_true in Eb).
    destruct r as [a|].
    + destruct Hr as (H1 & H2 & H3). rewrite <- (eq_view _ _ He) in H2. split_and!; [by left|done|].
      intros k [Hlt|[Hx ->]] Hka; [rewrite (eq_view _ _ He); by apply H3|by apply Hkey].
    + intros k [Hlt|[Hx ->]]; [rewrite (eq_view _ _ He); by apply Hr|by apply Hkey].
  - apply orb_false_iff in Eb as [Ev Ex]. apply bool_decide_eq_false in Ev. destruct bExact; [|done].
    exists (cached c key), (Some key). split_and!; [done|done|by right|done|].
    intros k [Hlt|[_ ->]] Hka; [by destruct (blob_lt_irrefl key); eapply blob_lt_trans|by apply blob_lt_irrefl in Hka].
Qed.

(** The check after a destructor: no variable of the contract is left. *)
Lemma EnsureNoVars_spec c cid :
  ∃ c' b, EnsureNoVars DB_FindNext DB_FindPrev cid c = (c', inr b) ∧ eqv c c' ∧
    (b = true ↔ ∀ x, view c (cid ++ x) = []).
Proof.
  destruct (FindVarEx_spec c cid true) as (c' & r & E & He & Hr). unfold EnsureNoVars, bind. rewrite E.
  assert (Hfrom : ∀ x, blob_lt cid (cid ++ x) ∨ true = true ∧ cid ++ x = cid).
  { intros x. destruct (blob_trichotomy cid (cid ++ x)) as [|[Ex|Hx]]; [by left|right; auto|]. exfalso. clear -Hx.
    induction cid as [|z cid IH]; [by apply blob_lt_nil_r in Hx|]. cbn [app] in Hx. rewrite blob_lt_cons in Hx. destruct Hx as [|[_ Hx]]; [lia|auto]. }
  eexists c', _. split_and!; [done|done|]. destruct r as [a|]; [|split; [intros _ x; by apply Hr|done]].
  destruct Hr as (Ha & Hv & Hmin). rewrite negb_true_iff. unfold IsOwnedVar. split.
  - intros Hown x. destruct (decide (view c (cid ++ x) = [])) as [|Hx]; [done|]. exfalso.
    assert (Hle : ¬ blob_lt (cid ++ x) a) by (intros H; apply Hx; by apply Hmin).
    assert (Hge : ¬ blob_lt a cid) by (intros H; destruct Ha as [Hlt|[_ ->]]; [by eapply blob_lt_irrefl, blob_lt_trans|by apply blob_lt_irrefl in H]).
    destruct (blob_prefix cid a x Hge Hle) as [y ->]. rewrite take_app_length, length_app, bool_decide_eq_true_2 in Hown by lia.
    by rewrite bool_decide_eq_true_2 in Hown.
  - intros Hall. apply andb_false_iff. destruct (decide (length cid ≤ length a)%nat) as [Hl|Hl]; [right|left; by apply bool_decide_eq_false_2].
    apply bool_decide_eq_false_2. intros E1. apply Hv. rewrite <- (take_drop (length cid) a), <- E1. apply Hall.
Qed.

End FindSpec.
