(* ===== verification/NodeKernel.v ===== *)
(** * node/processor.cpp: the kernels that create, call and destroy a contract

    [HandleKernelType] for [TxKernelContractCreate] and [TxKernelContractInvoke], with
    [AddRemoveShader] of bvm/bvm2.cpp, which stores the code of a contract. *)

From stdpp Require Import base list numbers option gmap sets.
From S2P Require Import Prelude NodeVars NodeVarsSpec NodeFind.
Local Open Scope Z_scope.

Definition KeyTag_ShaderChange : Z := 4.
Definition KeyTag_SidCid : Z := 16.

Section Kernel.
Context (get_HashContractVar : blob → blob → blob) (get_HashContractLog : blob → blob → Z → blob).
Context (ser : Rec → list Z) (der : list Z → option Rec).
Context (m_Temporary m_SkipDefinition : bool).
Context (DB_FindNext DB_FindPrev : gmap blob blob → blob → option blob).
Context (get_ShaderID : blob → blob) (m_Height : Z) (IsPastHF4 : bool).

Local Notation SaveVar := (SaveVar get_HashContractVar ser m_Temporary m_SkipDefinition).
Local Notation OnLog := (OnLog get_HashContractLog ser m_Temporary m_SkipDefinition).
Local Notation UndoVars := (UndoVars get_HashContractVar der m_Temporary m_SkipDefinition).
Local Notation Invoke := (Invoke get_HashContractVar get_HashContractLog ser der m_Temporary m_SkipDefinition).
Local Notation EnsureNoVars := (EnsureNoVars DB_FindNext DB_FindPrev).

(** [BvmProcessor::get_Height]. *)
Definition get_Height : Z := m_Height - 1.

Definition ToggleSidEntry (sid cid : blob) (bSet : bool) : M () :=
  let key := zeros ContractID_nBytes ++ [KeyTag_SidCid] ++ sid ++ cid in
  _ <- (if bSet then SaveVar key (be 8 (u64 (get_Height + 1))) else SaveVar key []);; ret ().

Definition AddRemoveShader (cid : blob) (pCode : option blob) (bFireEvent : bool) : M () :=
  sid <- (match pCode with
          | Some code => _ <- SaveVar cid code;; ret (get_ShaderID code)
          | None => res <- LoadVar cid;; _ <- SaveVar cid [];; ret (get_ShaderID res)
          end);;
  ToggleSidEntry sid cid (bool_decide (is_Some pCode));;;
  if bFireEvent then
    _ <- OnLog (cid ++ [KeyTag_ShaderChange]) (match pCode with Some _ => sid | None => [] end);; ret ()
  else ret ().

(** [HandleKernelType(TxKernelContractCreate)] going forward; [p] is the constructor's run. *)
Definition HandleKernelType_Create (cid code : blob) (p : Prog) : M bool :=
  e <- get_ContractVar cid;;
  if bool_decide (e ≠ []) then ret false
  else
    Construct ser;;;
    AddRemoveShader cid (Some code) IsPastHF4;;;
    b <- Invoke p;;
    if negb b then ret false else ret true.

(** [HandleKernelType(TxKernelContractInvoke)] going forward. *)
Definition HandleKernelType_Invoke (cid : blob) (iMethod : Z) (p : Prog) : M bool :=
  if iMethod =? 0 then ret false
  else
    Construct ser;;;
    b <- Invoke p;;
    if negb b then ret false
    else if iMethod =? 1 then
      AddRemoveShader cid None IsPastHF4;;;
      ok <- EnsureNoVars cid;;
      if negb ok then UndoVars;;; ret false else ret true
    else ret true.

(** Both, going backward. *)
Definition HandleKernelType_Undo : M bool := UndoVars;;; ret true.

(** ** Every step can be taken back *)

Hypothesis der_ser : ∀ r, rec_small r → der (ser r) = Some r.
Hypothesis ser_size : ∀ r, rec_small r → #(ser r) < 2 ^ 32.
Hypothesis sid_size : ∀ code, length (get_ShaderID code) = 32%nat.

Local Notation inv := (inv get_HashContractVar m_Temporary m_SkipDefinition).
Local Notation chain := (chain get_HashContractVar ser m_Temporary m_SkipDefinition).
Local Notation run := (run get_HashContractVar get_HashContractLog ser m_Temporary m_SkipDefinition).

(** Code with [n] log entries at most, whose records take it back. *)
Definition good {A} (n : nat) (m : M A) : Prop := ∀ c, inv c → m_ContractLogs c + Z.of_nat n < 2 ^ 32 →
  ∃ rs c' res, m c = (c', res) ∧ chain rs c c' ∧ Forall no_recharge rs ∧ inv c' ∧
    m_ContractLogs c' ≤ m_ContractLogs c + Z.of_nat n ∧ m_ChargePerBlock c' = m_ChargePerBlock c ∧ res ≠ inl Corruption.

Lemma good_ret {A} (a : A) : good 0 (ret a).
Proof. intros c Hi _. exists [], c, (inr a). split_and!; try done; [by constructor|lia]. Qed.

(** Code that only gives results in [Q]. *)
Definition gives {A} (m : M A) (Q : A → Prop) : Prop := ∀ c c' a, m c = (c', inr a) → Q a.

Lemma good_bind_gives {A B} n k (m : M A) (f : A → M B) Q : good n m → gives m Q → (∀ a, Q a → good k (f a)) → good (n + k) (bind m f).
Proof.
  intros Hm HQ Hf c Hi Hl. destruct (Hm c Hi ltac:(lia)) as (rs & c1 & res & E & Hc & Hr & Hi1 & Hl1 & Hcg & Hn). unfold bind. rewrite E.
  destruct res as [e|a].
  - exists rs, c1, (inl e). split_and!; try done; [lia|]. intros [=->]. done.
  - destruct (Hf a (HQ _ _ _ E) c1 Hi1 ltac:(lia)) as (rs2 & c2 & res2 & -> & Hc2 & Hr2 & Hi2 & Hl2 & Hcg2 & Hn2).
    exists (rs2 ++ rs), c2, res2. split_and!; [done|by eapply chain_app|by apply Forall_app|done|lia|congruence|done].
Qed.

Lemma good_bind {A B} n k (m : M A) (f : A → M B) : good n m → (∀ a, good k (f a)) → good (n + k) (bind m f).
Proof. intros Hm Hf. by apply (good_bind_gives _ _ _ _ (λ _, True)). Qed.

Lemma good_get key : good 0 (get_ContractVar key).
Proof.
  intros c Hi _. rewrite get_ContractVar_eq. pose proof (cached_eqv c key) as He. exists [], (cached c key), (inr (view c key)).
  split_and!; [done|by constructor|done|by eapply inv_eqv|rewrite <- (eq_logs _ _ He); lia|by rewrite (eq_charge _ _ He)|done].
Qed.

Lemma good_save key data : #key ≤ VarKeyMax → #data ≤ VarSize_4 → good 0 (SaveVar key data).
Proof.
  intros Hk Hd c Hi _. destruct (SaveVar_chain _ get_HashContractLog _ _ _ _ der_ser ser_size key data c Hi Hk Hd)
    as (rs & c' & res & E & Hc & Hr & Hi' & Hl & Hcg & Hn).
  exists rs, c', res. split_and!; try done. lia.
Qed.

Lemma good_log key v : good 1 (OnLog key v).
Proof.
  intros c Hi Hl. destruct (OnLog_chain _ get_HashContractLog _ _ _ _ der_ser ser_size key v c Hi ltac:(lia))
    as (rs & c' & E & Hc & Hr & Hi' & Hl' & Hcg).
  exists rs, c', (inr (m_ContractLogs c)). split_and!; try done. lia.
Qed.

Lemma good_weaken {A} n n' (m : M A) : (n ≤ n')%nat → good n m → good n' m.
Proof.
  intros Hn Hm c Hi Hl. destruct (Hm c Hi ltac:(lia)) as (rs & c1 & res & ? & ? & ? & ? & ? & ? & ?). exists rs, c1, res. split_and!; try done. lia.
Qed.

Lemma good_run n p : prog_ok n p → good n (run p).
Proof.
  revert n. induction p as [charge|b|key k IH|key data k IH|key v k IH]; intros n Hp; cbn [NodeVars.run prog_ok] in *.
  - eapply good_weaken; [|apply good_ret]. lia.
  - intros c Hi _. exists [], c, (inl (if b then WasmFail else StdExc)). split_and!; try done; [by constructor|lia|by destruct b].
  - apply (good_bind 0 n); [apply good_get|intros; by apply IH].
  - destruct Hp as (? & ? & ?). apply (good_bind 0 n); [by apply good_save|intros; by apply IH].
  - destruct n as [|n]; [done|]. apply (good_bind 1 n); [apply good_log|intros; by apply IH].
Qed.

Lemma good_ToggleSidEntry sid cid b : length sid = 32%nat → length cid = ContractID_nBytes → good 0 (ToggleSidEntry sid cid b).
Proof.
  intros Hs Hc. unfold ToggleSidEntry. apply (good_bind 0 0); [|intros; apply good_ret].
  assert (Hk : #(zeros ContractID_nBytes ++ [KeyTag_SidCid] ++ sid ++ cid) ≤ VarKeyMax) by by rewrite !length_app, length_zeros, Hs, Hc.
  destruct b; by apply good_save.
Qed.

Lemma good_AddRemoveShader cid pCode b : length cid = ContractID_nBytes → (∀ code, pCode = Some code → #code ≤ VarSize_4) →
  good 1 (AddRemoveShader cid pCode b).
Proof.
  intros Hcid Hcode. assert (Hk : #cid ≤ VarKeyMax) by by rewrite Hcid. unfold AddRemoveShader.
  apply (good_bind_gives 0 1 _ _ (λ sid, length sid = 32%nat)).
  - destruct pCode as [code|].
    + apply (good_bind 0 0); [|intros; apply good_ret]. apply good_save; [done|by apply Hcode].
    + apply (good_bind 0 0); [apply good_get|intros res]. apply (good_bind 0 0); [|intros; apply good_ret]. by apply good_save.
  - intros c c' sid. unfold bind, NodeVars.LoadVar. destruct pCode as [code|].
    + destruct (SaveVar cid code c) as [c1 [e|x]]; [done|]. intros [= <- <-]. apply sid_size.
    + destruct (get_ContractVar cid c) as [c1 [e|res]]; [done|]. destruct (SaveVar cid [] c1) as [c2 [e|x]]; [done|]. intros [= <- <-]. apply sid_size.
  - intros sid Hsid. apply (good_bind 0 1); [by apply good_ToggleSidEntry|]. intros _.
    destruct b; [|eapply good_weaken; [|apply good_ret]; lia]. apply (good_bind 1 0); [apply good_log|intros; apply good_ret].
Qed.

(** ** Calls *)

(** The state with the charge of the block a call leaves; a temporary one is restored. *)
Definition charged (c c' : Ctx) : Ctx := if m_Temporary then c else set_charge c (m_ChargePerBlock c').

(** A call in a chain behind a terminator: it fails and takes the whole chain back, or extends it. *)
Lemma Invoke_chain p n rs0 c0 c rb : chain rs0 c0 c → Forall no_recharge rs0 → m_Rollback c0 = rb ++ frame ser RTerminator →
  inv c → prog_ok n p → m_ContractLogs c + Z.of_nat n < 2 ^ 32 →
  ∃ c' b, Invoke p c = (c', inr b) ∧
    (b = false → eqv (set_rollback c0 rb) c') ∧
    (b = true → inv c' ∧ m_ContractLogs c' ≤ m_ContractLogs c + Z.of_nat n ∧ ∃ rs, chain rs (charged c0 c') c').
Proof.
  intros Hc0 Hr0 Hrb Hi Hp Hn. destruct (good_run n p Hp c Hi Hn) as (rs & c1 & res & E & Hc & Hr & Hi1 & Hl & Hcg & Hne).
  pose proof (chain_app _ _ _ _ _ _ _ _ _ Hc0 Hc) as Hca. unfold NodeVars.Invoke. rewrite E. destruct res as [e|charge].
  - destruct (UndoVars_chain _ _ _ _ _ der_ser ser_size _ c0 c1 c1 rb Hca ltac:(done) Hrb) as (c2 & E2 & He).
    exists c2, false. destruct e; [| |done]; unfold bind; rewrite E2; by split_and!.
  - unfold bind, push, modify, charged. destruct m_Temporary eqn:Et.
    + set (r := RRecharge (m_ChargePerBlock c1)). set (c2 := set_charge (set_rollback c1 (m_Rollback c1 ++ frame ser r)) charge).
      exists c2, true. split_and!; [done|done|]. intros _. split; [by apply set_charge_inv, set_rollback_inv|]. split; [done|].
      exists (r :: rs ++ rs0). econstructor; [exact Hca|]. split; [done|done|]. intros d Hd. eexists. split; [done|].
      destruct Hd as [Hv Hdb Ht Hdl Hlg Hvl _ _]. split; [exact Hv|exact Hdb|exact Ht|exact Hdl|exact Hlg|exact Hvl|done|done].
    + exists (set_charge c1 charge), true. split_and!; [done|done|]. intros _. split; [by apply set_charge_inv|]. split; [done|].
      exists (rs ++ rs0). apply chain_charge; [by apply Forall_app|done].
Qed.

(** [UndoVars] from the end of a chain behind a terminator. *)
Lemma Undo_chain rs c0 c rb : chain rs c0 c → m_Rollback c0 = rb ++ frame ser RTerminator →
  ∃ c', UndoVars c = (c', inr ()) ∧ eqv (set_rollback c0 rb) c'.
Proof. intros Hc Hrb. by eapply UndoVars_chain. Qed.

Lemma Construct_eq c : Construct ser c = (set_rollback c (m_Rollback c ++ frame ser RTerminator), inr ()).
Proof. done. Qed.

(** What a kernel leaves behind: nothing if it fails, and what its undo takes back if it does not. *)
Definition reversible (c c' : Ctx) (b : bool) : Prop :=
  (b = false → ∃ n, (m_Temporary = true → n = m_ChargePerBlock c) ∧ eqv (set_charge c n) c') ∧
  (b = true → inv c' ∧ ∃ c'' n, HandleKernelType_Undo c' = (c'', inr true) ∧
     (m_Temporary = true → n = m_ChargePerBlock c) ∧ eqv (set_charge c n) c'').

Lemma reversible_same c c' : eqv c c' → reversible c c' false.
Proof.
  intros He. split; [intros _|done]. exists (m_ChargePerBlock c). split; [done|].
  by replace (set_charge c (m_ChargePerBlock c)) with c by by destruct c.
Qed.

Lemma charged_back c c1 rb : set_rollback (charged (set_rollback c rb) c1) (m_Rollback c) =
  set_charge c (if m_Temporary then m_ChargePerBlock c else m_ChargePerBlock c1).
Proof. unfold charged. destruct m_Temporary; by destruct c. Qed.

Lemma set_charge_eqv c d n : eqv c d → eqv (set_charge c n) (set_charge d n).
Proof. intros []. by split. Qed.

(** The end of a chain that starts with a terminator put into [c1]. *)
Lemma undo_charged c c1 c' rs x : eqv c c1 →
  chain rs (charged (set_rollback c1 (m_Rollback c1 ++ frame ser RTerminator)) x) c' →
  ∃ c'' n, UndoVars c' = (c'', inr ()) ∧ (m_Temporary = true → n = m_ChargePerBlock c) ∧ eqv (set_charge c n) c''.
Proof.
  intros He Hc. destruct (Undo_chain rs _ c' (m_Rollback c1) Hc) as (c5 & E5 & He5); [unfold charged; by destruct m_Temporary|].
  rewrite charged_back in He5. eexists c5, _. split; [done|]. split; [|etrans; [by apply set_charge_eqv|exact He5]].
  intros ->. symmetry. apply He.
Qed.

Lemma reversible_chain c c1 c' rs x : eqv c c1 → inv c' →
  chain rs (charged (set_rollback c1 (m_Rollback c1 ++ frame ser RTerminator)) x) c' → reversible c c' true.
Proof.
  intros He Hi Hc. split; [done|intros _]. split; [done|]. destruct (undo_charged c c1 c' rs x He Hc) as (c'' & n & E & Hn & He').
  exists c'', n. unfold HandleKernelType_Undo, bind. by rewrite E.
Qed.

Lemma HandleKernelType_Create_spec cid code p n c : inv c → prog_ok n p → m_ContractLogs c + Z.of_nat n + 1 < 2 ^ 32 →
  length cid = ContractID_nBytes → #code ≤ VarSize_4 →
  ∃ c' res, HandleKernelType_Create cid code p c = (c', res) ∧
    match res with
    | inr b => reversible c c' b
    | inl e => e ≠ Corruption ∧ ∃ c'', UndoVars c' = (c'', inr ()) ∧ eqv c c''
    end.
Proof.
  intros Hi Hp Hn Hcid Hcode. unfold HandleKernelType_Create, bind. rewrite get_ContractVar_eq. pose proof (cached_eqv c cid) as He.
  pose proof (inv_eqv _ _ _ _ _ He Hi) as Hi'. pose proof (eq_logs _ _ He) as El. case_bool_decide as Hv.
  { eexists _, _. split; [done|]. by apply reversible_same. }
  set (c1 := cached c cid) in *. rewrite Construct_eq. set (c2 := set_rollback c1 _).
  destruct (good_AddRemoveShader cid (Some code) IsPastHF4 Hcid ltac:(by intros ? [= <-]) c2) as (rs & c3 & res & E & Hc & Hr & Hi3 & Hl & Hcg & Hne);
    [by apply set_rollback_inv|cbn; lia|]. rewrite E.
  assert (Hback : eqv c (set_rollback c2 (m_Rollback c1))) by (etrans; [exact He|]; unfold c2; by destruct c1).
  destruct res as [e|[]].
  - destruct (Undo_chain rs c2 c3 (m_Rollback c1) Hc eq_refl) as (c4 & E4 & He4). eexists _, _. split; [done|]. split; [by intros ->|].
    exists c4. split; [done|]. by etrans.
  - destruct (Invoke_chain p n rs c2 c3 (m_Rollback c1) Hc Hr eq_refl Hi3 Hp) as (c4 & b & -> & Hf & Ht); [cbn in *; lia|].
    exists c4, (inr b). split; [by destruct b|]. destruct b.
    + destruct Ht as (Hi4 & _ & rs4 & Hc4); [done|]. by eapply reversible_chain.
    + apply reversible_same. etrans; [done|by apply Hf].
Qed.

(** The query for the next key gives the nearest one. *)
Hypothesis FindNext_nearest : ∀ db key,
  match DB_FindNext db key with
  | None => ∀ k, is_Some (db !! k) → ¬ blob_lt key k
  | Some a => is_Some (db !! a) ∧ blob_lt key a ∧ ∀ k, is_Some (db !! k) → blob_lt key k → ¬ blob_lt k a
  end.

Lemma HandleKernelType_Invoke_spec cid iMethod p n c : inv c → prog_ok n p → m_ContractLogs c + Z.of_nat n + 1 < 2 ^ 32 →
  length cid = ContractID_nBytes →
  ∃ c' res, HandleKernelType_Invoke cid iMethod p c = (c', res) ∧
    match res with
    | inr b => reversible c c' b ∧ (b = true → iMethod = 1 → ∀ x, view c' (cid ++ x) = [])
    | inl e => e ≠ Corruption ∧ ∃ c'' n, UndoVars c' = (c'', inr ()) ∧ (m_Temporary = true → n = m_ChargePerBlock c) ∧ eqv (set_charge c n) c''
    end.
Proof.
  intros Hi Hp Hn Hcid. unfold HandleKernelType_Invoke. destruct (Z.eqb_spec iMethod 0).
  { eexists _, _. split; [done|]. split; [by apply reversible_same|done]. }
  unfold bind at 1. rewrite Construct_eq. set (c2 := set_rollback c _). unfold bind at 1.
  destruct (Invoke_chain p n [] c2 c2 (m_Rollback c)) as (c4 & b & -> & Hf & Ht); [by constructor|done|done|by apply set_rollback_inv|done|cbn; lia|].
  destruct b; cbn [negb].
  2: { exists c4, (inr false). split; [done|]. split; [|done]. apply reversible_same. etrans; [|by apply Hf]. unfold c2. by destruct c. }
  destruct Ht as (Hi4 & Hl4 & rs4 & Hc4); [done|]. destruct (Z.eqb_spec iMethod 1) as [->|Hne1].
  2: { exists c4, (inr true). split; [done|]. split; [by eapply (reversible_chain c c)|done]. }
  destruct (good_AddRemoveShader cid None IsPastHF4 Hcid ltac:(done) c4 Hi4) as (rs & c5 & res & E & Hc & Hr & Hi5 & Hl & Hcg & Hne); [cbn in *; lia|].
  pose proof (chain_app _ _ _ _ _ _ _ _ _ Hc4 Hc) as Hca. unfold bind at 1. rewrite E. destruct res as [e|[]].
  { exists c5, (inl e). split; [done|]. split; [by intros ->|]. by eapply (undo_charged c c). }
  destruct (EnsureNoVars_spec DB_FindNext DB_FindPrev FindNext_nearest c5 cid) as (c6 & ok & E6 & He6 & Hok). unfold bind at 1. rewrite E6.
  pose proof (chain_eqv _ _ _ _ _ _ _ _ Hca He6) as Hc6. destruct ok; cbn [negb].
  - exists c6, (inr true). split; [done|]. split; [eapply (reversible_chain c c); [done|by eapply inv_eqv|done]|].
    intros _ _ x. rewrite <- (eq_view _ _ He6). by apply Hok.
  - destruct (undo_charged c c c6 _ c4 ltac:(done) Hc6) as (c7 & m & E7 & Hm & He7). unfold bind. rewrite E7.
    exists c7, (inr false). split; [done|]. split; [|done]. split; [intros _; by exists m|done].
Qed.

End Kernel.
