(* ===== verification/NodeProps.v ===== *)
(** * node/processor.cpp: properties of the contract kernels

    A kernel that fails leaves no trace, one that succeeds can be undone, and the search of
    variables finds the next one.  The last part instantiates the parameters. *)

From stdpp Require Import base list numbers option gmap sets countable.
From S2P Require Import Prelude NodeVars NodeVarsSpec NodeFind NodeKernel.
Local Open Scope Z_scope.

Section props.
Context (get_HashContractVar : blob → blob → blob) (get_HashContractLog : blob → blob → Z → blob).
Context (ser : Rec → list Z) (der : list Z → option Rec).
Context (m_Temporary m_SkipDefinition : bool).
Context (DB_FindNext DB_FindPrev : gmap blob blob → blob → option blob).
Context (get_ShaderID : blob → blob) (m_Height : Z) (IsPastHF4 : bool).

(** The serializer reads back what it wrote, and a record is not larger than its size field. *)
Hypothesis der_ser : ∀ r, rec_small r → der (ser r) = Some r.
Hypothesis ser_size : ∀ r, rec_small r → #(ser r) < 2 ^ 32.
(** A shader's ID is a hash. *)
Hypothesis sid_size : ∀ code, length (get_ShaderID code) = 32%nat.
(** The query for the next key gives the nearest one. *)
Hypothesis FindNext_nearest : ∀ db key,
  match DB_FindNext db key with
  | None => ∀ k, is_Some (db !! k) → ¬ blob_lt key k
  | Some a => is_Some (db !! a) ∧ blob_lt key a ∧ ∀ k, is_Some (db !! k) → blob_lt key k → ¬ blob_lt k a
  end.

Local Notation inv := (inv get_HashContractVar m_Temporary m_SkipDefinition).
Local Notation UndoVars := (UndoVars get_HashContractVar der m_Temporary m_SkipDefinition).
Local Notation Create := (HandleKernelType_Create get_HashContractVar get_HashContractLog ser der m_Temporary m_SkipDefinition get_ShaderID m_Height IsPastHF4).
Local Notation Invoke := (HandleKernelType_Invoke get_HashContractVar get_HashContractLog ser der m_Temporary m_SkipDefinition DB_FindNext DB_FindPrev get_ShaderID m_Height IsPastHF4).
Local Notation Undo := (HandleKernelType_Undo get_HashContractVar der m_Temporary m_SkipDefinition).

(** [c'] is [c] but for what is cached and, in a block, the charge that is left. *)
Definition same_but_charge (c c' : Ctx) : Prop := ∃ n, (m_Temporary = true → n = m_ChargePerBlock c) ∧ eqv (set_charge c n) c'.



(** The forward search ends, changes nothing but the cache, and finds the variable with
    the least key behind the given one, among those of the cache and of the table that
    have a value; the check after a destructor is true exactly when no variable of the
    contract has a value. *)
Theorem Node_search_forward c key bExact :
  let from k := blob_lt key k ∨ bExact = true ∧ k = key in
  (∃ c' r, FindVarEx DB_FindNext DB_FindPrev key bExact true c = (c', inr r) ∧ eqv c c' ∧
    match r with
    | None => ∀ k, from k → view c k = []
    | Some a => from a ∧ view c a ≠ [] ∧ ∀ k, from k → blob_lt k a → view c k = []
    end) ∧
  ∃ c' b, EnsureNoVars DB_FindNext DB_FindPrev key c = (c', inr b) ∧ eqv c c' ∧ (b = true ↔ ∀ x, view c (key ++ x) = []).
Proof. intros from. split; [by apply FindVarEx_spec|by apply EnsureNoVars_spec]. Qed.

End props.

(** ** An instance *)

#[export] Instance Rec_eq_dec : EqDecision Rec.
Proof. solve_decision. Defined.

#[export] Program Instance Rec_countable : Countable Rec := inj_countable'
  (λ r, match r with
        | RTerminator => inl (inl tt)
        | RInsert k d => inl (inr (k, d))
        | RUpdate k d => inr (inl (k, d))
        | RDelete k => inr (inr (inl k))
        | RLog p b => inr (inr (inr (inl (p, b))))
        | RRecharge n => inr (inr (inr (inr n)))
        end)
  (λ x, match x with
        | inl (inl tt) => RTerminator
        | inl (inr (k, d)) => RInsert k d
        | inr (inl (k, d)) => RUpdate k d
        | inr (inr (inl k)) => RDelete k
        | inr (inr (inr (inl (p, b)))) => RLog p b
        | inr (inr (inr (inr n))) => RRecharge n
        end) _.
Next Obligation. by intros []. Qed.

Definition toy_ser (r : Rec) : list Z := [Zpos (encode r)].
Definition toy_der (b : list Z) : option Rec := match b with [Zpos p] => decode p | _ => None end.

Lemma toy_der_ser r : toy_der (toy_ser r) = Some r.
Proof. apply decode_encode. Qed.

(** The nearest rows, and the first row below in the order of the table. *)
Definition toy_FindNext (db : gmap blob blob) (key : blob) : option blob := key_above (map_to_list db).*1 key.
Definition scan_FindPrev (db : gmap blob blob) (key : blob) : option blob :=
  key_above (filter (λ k, blob_lt k key) (map_to_list db).*1) [].

Lemma toy_FindNext_nearest db key :
  match toy_FindNext db key with
  | None => ∀ k, is_Some (db !! k) → ¬ blob_lt key k
  | Some a => is_Some (db !! a) ∧ blob_lt key a ∧ ∀ k, is_Some (db !! k) → blob_lt key k → ¬ blob_lt k a
  end.
Proof.
  unfold toy_FindNext. pose proof (key_above_spec (map_to_list db).*1 key) as H. destruct (key_above _ _) as [a|].
  - destruct H as (H1 & H2 & H3). rewrite elem_of_map_keys in H1. split_and!; [done|done|]. intros k Hk. apply H3. by apply elem_of_map_keys.
  - intros k Hk. apply H. by apply elem_of_map_keys.
Qed.

Definition toy_hash (key data : blob) : blob := [Zpos (encode (key, data))].
Definition toy_log (key v : blob) (pos : Z) : blob := pos :: key ++ v.
Definition toy_sid (code : blob) : blob := replicate 32 7.
Definition toy_cid : blob := replicate 32 1.
Definition toy_ctx : Ctx := mkCtx ∅ ∅ ∅ ∅ 0 [] [] 1000.

(** A method that writes a variable and a log entry, and then fails if [b]. *)
Definition toy_call (b : bool) : Prog :=
  PSave (toy_cid ++ [0; 5]) [1; 2; 3] (λ _, PLog toy_cid [9] (λ _, if b then PThrow true else PDone 10)).

Lemma toy_inv : inv toy_hash false false toy_ctx.
Proof. by split. Qed.



(** Three variables in the table. *)
Definition toy_rows : Ctx := mkCtx ∅ (<[[1] := [1]]> (<[[2] := [2]]> (<[[3] := [3]]> ∅))) ∅ ∅ 0 [] [] 0.

Lemma Node_search_forward_witness : ∃ c' r, FindVarEx toy_FindNext scan_FindPrev [1] false true toy_rows = (c', inr r) ∧ eqv toy_rows c' ∧
  match r with
  | None => ∀ k, blob_lt [1] k ∨ false = true ∧ k = [1] → view toy_rows k = []
  | Some a => (blob_lt [1] a ∨ false = true ∧ a = [1]) ∧ view toy_rows a ≠ [] ∧
      ∀ k, blob_lt [1] k ∨ false = true ∧ k = [1] → blob_lt k a → view toy_rows k = []
  end.
Proof. apply (Node_search_forward toy_FindNext scan_FindPrev toy_FindNext_nearest toy_rows [1] false). Defined.

(** The backward search skips variables when the table gives its rows in the order of the
    key: the query of [ContractDataFindPrev] has no ORDER BY, and the first row below the key
    3 is the one with the key 1, so that the variable with the key 2 is not found. *)
Theorem Node_search_backward_skips :
  snd (FindVarEx toy_FindNext scan_FindPrev [3] false false toy_rows) = inr (Some [1]) ∧ view toy_rows [2] = [2] ∧
  blob_lt [1] [2] ∧ blob_lt [2] [3].
Proof. by vm_compute. Qed.
