(* ===== verification/BvmHost.v ===== *)
(** * bvm/bvm2.cpp: the functions of the host that contracts call

    The variables of a contract, the funds it locks, the signatures it asks for and its
    references to other contracts ([ProcessorContract]).  Where the variables are kept is
    behind the class [VarStore], which the node's variables ([NodeVars]) and a plain map
    implement.  A call that fails has no result: the node takes back what it did
    ([NodeKernel]).  The charge for the calls is not modelled. *)

From stdpp Require Import base list numbers option gmap sets.
From S2P Require Import Prelude UintBig NodeVars NodeVarsSpec.
Local Open Scope Z_scope.

(** ** Where variables are kept *)

Class VarStore (S : Type) := {
  vs_load : S → blob → blob;
  vs_save : S → blob → blob → option S;
  vs_load_save s s' key v k : vs_save s key v = Some s' → vs_load s' k = if decide (k = key) then v else vs_load s k;
}.

(** A store that takes every write. *)
Class TotalStore (S : Type) `{!VarStore S} : Prop := vs_total : ∀ s key v, is_Some (vs_save s key v).

(** A map, in which an empty value is no value. *)
#[export] Program Instance gmap_store : VarStore (gmap blob blob) := {
  vs_load s key := default [] (s !! key);
  vs_save s key v := Some (if decide (v = []) then delete key s else <[key := v]> s);
}.
Next Obligation.
  intros s s' key v k [= <-]. destruct (decide (v = [])) as [->|]; destruct (decide (k = key)) as [->|]; by simplify_map_eq.
Qed.

#[export] Instance gmap_total : TotalStore (gmap blob blob).
Proof. intros s key v. by eexists. Qed.

(** ** The state of a call *)

Record Host (S : Type) := mkHost {
  h_vars : S;
  h_sigs : list blob;                 (* m_vPks, the keys that must sign *)
  h_FundsIO : gmap Z (list Z);        (* m_FundsIO.m_Map *)
  h_logs : list (blob * blob);
  h_FarCalls : list blob;             (* the contracts of m_FarCalls.m_Stack, the last one first *)
}.
Arguments mkHost {_} _ _ _ _ _.
Arguments h_vars {_} _.
Arguments h_sigs {_} _.
Arguments h_FundsIO {_} _.
Arguments h_logs {_} _.
Arguments h_FarCalls {_} _.

Definition HM (S A : Type) : Type := Host S → option (A * Host S).

#[export] Instance HM_ret {S} : MRet (HM S) := λ A a h, Some (a, h).
#[export] Instance HM_bind {S} : MBind (HM S) := λ A B f m h, match m h with Some (a, h) => f a h | None => None end.

(** [Wasm::Fail], [Env::Halt], and the tests that end in them. *)
Definition Fail {S A} : HM S A := λ _, None.
Definition Test {S} (b : bool) : HM S () := if b then mret () else Fail.
Definition Halt_if {S} (b : bool) : HM S () := if b then Fail else mret ().

(** A computation without effects that may fail. *)
Definition lift {S A} (o : option A) : HM S A := λ h, match o with Some a => Some (a, h) | None => None end.

Definition gets {S A} (f : Host S → A) : HM S A := λ h, Some (f h, h).
Definition upd {S} (f : Host S → Host S) : HM S () := λ h, Some ((), f h).

Definition KeyTag_Internal : Z := 0.
Definition KeyTag_LockedAmount : Z := 1.
Definition KeyTag_Refs : Z := 2.
Definition VarKeySize : Z := 256.

Section Host.
Context {S : Type} `{!VarStore S}.
(* IsPastHF4(); whether m_pSigValidate and m_pvSigs are set; ECC::Point::Native::ImportNnz *)
Context (IsPastHF4 m_pSigValidate m_pvSigs : bool) (ImportNnz : blob → bool).

Definition VarSizeMax : Z := if IsPastHF4 then 0x100000 else 0x2000.

(** ** Variables *)

Definition LoadVarRaw (key : blob) : HM S blob := gets (λ h, vs_load (h_vars h) key).

(** [SaveVar] of the store: the size of the value before. *)
Definition SaveVarRaw (key v : blob) : HM S Z := λ h,
  match vs_save (h_vars h) key v with
  | Some s => Some (#(vs_load (h_vars h) key), mkHost s (h_sigs h) (h_FundsIO h) (h_logs h) (h_FarCalls h))
  | None => None
  end.

(** [VarKey::Set] with the contract that runs, and [VarKey::Append]. *)
Definition SetVarKey (nTag : Z) (key : blob) : HM S blob :=
  stack ← gets h_FarCalls;
  cid ← lift (head stack);
  mret (cid ++ [nTag] ++ key).

Definition SetVarKeyFromShader (nTag : Z) (key : blob) (bW : bool) : HM S blob :=
  Test (#key <=? VarKeySize);;
  vk ← SetVarKey nTag key;
  (if bW then Test ((nTag =? KeyTag_Internal) || (nTag =? KeyTag_InternalStealth)) else mret ());;
  mret vk.

Definition OnHost_LoadVar (key : blob) (nType : Z) : HM S blob :=
  vk ← SetVarKeyFromShader nType key false;
  LoadVarRaw vk.

Definition OnHost_SaveVar (key v : blob) (nType : Z) : HM S Z :=
  Test (#v <=? VarSizeMax);;
  vk ← SetVarKeyFromShader nType key true;
  SaveVarRaw vk v.

Definition OnHost_EmitLog (key v : blob) (nType : Z) : HM S () :=
  Test (#v <=? VarSizeMax);;
  vk ← SetVarKeyFromShader nType key true;
  upd (λ h, mkHost (h_vars h) (h_sigs h) (h_FundsIO h) (h_logs h ++ [(vk, v)]) (h_FarCalls h)).

(** [LoadFixedOrZero] and [SaveNnz], for a number of [n] bytes. *)
Definition Load_T (vk : blob) (n : nat) : HM S (list Z) :=
  res ← LoadVarRaw vk;
  mret (if decide (length res = n) then res else zeros n).

Definition Save_T (vk : blob) (x : list Z) : HM S Z := SaveVarRaw vk (if memis0 x then [] else x).

(** ** Funds *)

Definition HandleAmountInner (amount aid : Z) (bLock : bool) : HM S () :=
  vk ← SetVarKey KeyTag_LockedAmount (be 4 aid);
  val0 ← Load_T vk 16;
  let v := be 8 amount in
  val0 ← (if bLock then
            val0 ← lift (uintBig_t.add_assign val0 v);
            Test (0 <=? uintBigImpl._Cmp val0 v);;
            mret val0
          else
            Test (0 <=? uintBigImpl._Cmp val0 v);;
            val0 ← lift (uintBig_t.Negate val0);
            val0 ← lift (uintBig_t.add_assign val0 v);
            lift (uintBig_t.Negate val0));
  Save_T vk val0;;
  mret ().

(** [FundsChangeMap::Add]. *)
Definition FundsChangeMap_Add (val aid : Z) (bSpend : bool) (m : gmap Z (list Z)) : option (gmap Z (list Z)) :=
  if val =? 0 then Some m
  else
    let valBig := zeros 8 ++ be 8 val in
    valBig ← (if bSpend then uintBig_t.Negate valBig else Some valBig);
    match m !! aid with
    | None => Some (<[aid := valBig]> m)
    | Some dst =>
      dst ← uintBig_t.add_assign dst valBig;
      Some (if memis0 dst then delete aid m else <[aid := dst]> m)
    end.

Definition HandleAmountOuter (amount aid : Z) (bLock : bool) : HM S () :=
  if m_pSigValidate || m_pvSigs then
    m ← gets h_FundsIO;
    m ← lift (FundsChangeMap_Add amount aid bLock m);
    upd (λ h, mkHost (h_vars h) (h_sigs h) m (h_logs h) (h_FarCalls h))
  else mret ().

Definition HandleAmount (amount aid : Z) (bLock : bool) : HM S () :=
  HandleAmountInner amount aid bLock;;
  HandleAmountOuter amount aid bLock.

Definition FundsLock (aid amount : Z) : HM S () := HandleAmount amount aid true.
Definition FundsUnlock (aid amount : Z) : HM S () := HandleAmount amount aid false.

(** ** Signatures, callers *)

Definition AddSigInternal (pk : blob) : HM S () :=
  upd (λ h, mkHost (h_vars h) (h_sigs h ++ [pk]) (h_FundsIO h) (h_logs h) (h_FarCalls h));;
  Test (ImportNnz pk).

(** [m_pvSigs] only collects the keys for display. *)
Definition OnHost_AddSig (pubKey : blob) : HM S () :=
  if m_pSigValidate then AddSigInternal pubKey else mret ().

Definition OnHost_get_CallerCid (iCaller : nat) : HM S blob :=
  stack ← gets h_FarCalls;
  lift (stack !! iCaller).

(** ** References between contracts *)

Definition HandleRefRaw (vk : blob) (bAdd : bool) : HM S bool :=
  refs ← Load_T vk 4;
  '(ret, refs) ← (if bAdd then
      let ret := memis0 refs in
      refs ← lift (uintBig_t.Inc refs);
      Test (negb (memis0 refs));;
      mret (ret, refs)
    else
      Test (negb (memis0 refs));;
      refs ← lift (uintBig_t.Negate refs);
      refs ← lift (uintBig_t.Inv refs);
      mret (memis0 refs, refs));
  Save_T vk refs;;
  mret (ret : bool).

Definition HandleRef (cid : blob) (bAdd : bool) : HM S bool :=
  vk ← SetVarKey KeyTag_Refs cid;
  b ← HandleRefRaw vk bAdd;
  if b : bool then
    exists_ ← (if bAdd then res ← LoadVarRaw cid; mret (bool_decide (res ≠ [])) else mret true);
    if exists_ : bool then
      HandleRefRaw (cid ++ [KeyTag_Refs]) bAdd;;
      mret true
    else
      HandleRefRaw vk false;;
      mret false
  else mret true.

End Host.

(** ** The node's variables as a store *)

Section NodeStore.
Context (get_HashContractVar : blob → blob → blob) (ser : Rec → list Z) (m_Temporary m_SkipDefinition : bool).

Local Notation SaveVar := (SaveVar get_HashContractVar ser m_Temporary m_SkipDefinition).

(** Code that changes neither the cache nor the rows of other keys. *)
Definition touches {A} (key : blob) (m : M A) : Prop := ∀ c,
  m_ContractVars (fst (m c)) = m_ContractVars c ∧ ∀ k, k ≠ key → m_DB (fst (m c)) !! k = m_DB c !! k.

Lemma touches_bind {A B} key (m : M A) (f : A → M B) : touches key m → (∀ a, touches key (f a)) → touches key (bind m f).
Proof.
  intros Hm Hf c. unfold bind. specialize (Hm c). destruct (m c) as [c1 [e|a]]; [done|]. cbn [fst] in Hm. destruct (Hf a c1) as [H1 H2].
  split; [by rewrite H1; apply Hm|]. intros k Hk. rewrite H2 by done. by apply Hm.
Qed.

Lemma touches_toggle key k d b : touches key (ContractDataToggleTree get_HashContractVar m_SkipDefinition k d b).
Proof.
  intros c. unfold ContractDataToggleTree, Toggle. destruct m_SkipDefinition; [done|]. destruct (negb (IsStored k)); [done|]. by destruct (Bool.eqb _ _).
Qed.

Lemma touches_db key d :
  touches key (DB_ContractDataInsert key d) ∧ touches key (DB_ContractDataUpdate key d) ∧ touches key (DB_ContractDataDel key).
Proof.
  split_and!; intros c; unfold DB_ContractDataInsert, DB_ContractDataUpdate, DB_ContractDataDel; destruct (m_DB c !! key); cbn; split; try done;
    intros k Hk; by rewrite ?lookup_insert_ne, ?lookup_delete_ne.
Qed.

Lemma touches_unless key b m : touches key m → touches key (unless b m).
Proof. by destruct b. Qed.

Lemma touches_push key r : touches key (push ser r).
Proof. done. Qed.

Lemma SaveVar_view key d c c' n k : SaveVar key d c = (c', inr n) → view c' k = if decide (k = key) then d else view c k.
Proof.
  unfold NodeVars.SaveVar, bind at 1. rewrite get_ContractVar_eq. pose proof (cached_eqv c key) as He. unfold bind at 1.
  destruct (decide (view c key = d)) as [<-|Hne].
  { intros [= <- _]. rewrite <- (eq_view _ _ He). by destruct (decide (k = key)) as [->|]. }
  unfold bind at 1. set (m := if bool_decide (d ≠ []) then _ else _).
  assert (Hm : touches key m).
  { unfold m, ContractDataUpdate, ContractDataInsert, ContractDataDel.
    destruct (bool_decide _); [destruct (negb _)|];
      repeat first [apply touches_bind; [|intros ?]|apply touches_toggle|apply touches_unless; apply (touches_db key d)|apply touches_push]. }
  specialize (Hm (cached c key)). destruct (m (cached c key)) as [c1 [e|[]]]; [done|]. cbn [fst] in Hm. destruct Hm as [H1 H2].
  unfold set_Data, modify, ret. intros [= <- _]. unfold view at 1. cbn [set_vars m_ContractVars m_DB]. case_decide; [by subst; rewrite lookup_insert_eq|].
  rewrite lookup_insert_ne, H1, H2 by done. rewrite (eq_view _ _ He). done.
Qed.

(** [BvmProcessor] as a store: [SaveVar] fails when the hash of the variable is taken. *)
Definition node_save (c : Ctx) (key v : blob) : option Ctx :=
  match SaveVar key v c with (c', inr _) => Some c' | (_, inl _) => None end.

Lemma node_load_save c c' key v k : node_save c key v = Some c' → view c' k = if decide (k = key) then v else view c k.
Proof. unfold node_save. destruct (SaveVar key v c) as [c1 [e|n]] eqn:E; [done|]. intros [= <-]. by eapply SaveVar_view. Qed.

Definition node_store : VarStore Ctx := {| vs_load := view; vs_save := node_save; vs_load_save := node_load_save |}.

End NodeStore.
