(* ===== verification/BvmHostSpec.v ===== *)
(** * bvm/bvm2.cpp: what the host functions do to the funds of a contract *)

From stdpp Require Import base list numbers option gmap sets.
From S2P Require Import Prelude UintBig NodeVars NodeVarsSpec BvmHost.
Local Open Scope Z_scope.

(** Unfolds the operations of the monad of the host. *)
Ltac hm := unfold Test, Halt_if, Fail, gets, upd, lift; unfold mbind, HM_bind, mret, HM_ret.

(** ** Numbers kept in variables *)

(** How [SaveNnz] keeps a number of [n] bytes, and what [LoadFixedOrZero] reads. *)
Definition enc_nnz (n : nat) (v : Z) : blob := if v =? 0 then [] else be n v.
Definition dec_nnz (n : nat) (b : blob) : Z := if decide (length b = n) then ⟦b⟧ else 0.

Lemma dec_enc_nnz n v : (0 < n)%nat → 0 ≤ v < 256 ^ Z.of_nat n → dec_nnz n (enc_nnz n v) = v.
Proof.
  intros Hn Hv. unfold dec_nnz, enc_nnz. destruct (Z.eqb_spec v 0) as [->|]; [case_decide; cbn in *; [lia|done]|].
  rewrite length_be, decide_True, val_be by done. done.
Qed.

(** ** Big numbers against integers *)

Lemma add16 x v : bytes x → length x = 16%nat → 0 ≤ v < 2 ^ 64 →
  ∃ y, uintBig_t.add_assign x (be 8 v) = Some y ∧ bytes y ∧ length y = 16%nat ∧ ⟦y⟧ = (⟦x⟧ + v) mod 2 ^ 128.
Proof.
  intros Hx Hl Hv. destruct (uintBig_t.add_assign_spec x (be 8 v) Hx (bytes_be _ _)) as (y & E & Hy & Hb & Hval). exists y.
  rewrite val_be in Hval by (change (256 ^ Z.of_nat 8) with (2 ^ 64); lia). rewrite Hl in Hval. change (256 ^ Z.of_nat 16) with (2 ^ 128) in Hval.
  split_and!; [done|done|lia|done].
Qed.

Lemma neg16 x : bytes x → length x = 16%nat →
  ∃ y, uintBig_t.Negate x = Some y ∧ bytes y ∧ length y = 16%nat ∧ ⟦y⟧ = (- ⟦x⟧) mod 2 ^ 128.
Proof.
  intros Hx Hl. destruct (uintBig_t.Negate_spec x Hx) as (y & E & Hy & Hb & Hval). exists y. rewrite Hl in Hval. split_and!; [done|done|lia|done].
Qed.

Lemma cmp_ge x v : bytes x → 0 ≤ v < 2 ^ 64 → (0 <=? uintBigImpl._Cmp x (be 8 v)) = (v <=? ⟦x⟧).
Proof.
  intros Hx Hv. rewrite uintBigImpl._Cmp_spec, val_be by (try apply bytes_be; change (256 ^ Z.of_nat 8) with (2 ^ 64); done || lia).
  destruct (Z.ltb_spec ⟦x⟧ v), (Z.ltb_spec v ⟦x⟧), (Z.leb_spec v ⟦x⟧); (lia || done).
Qed.

Lemma val16 x v : bytes x → length x = 16%nat → ⟦x⟧ = v → x = be 16 v.
Proof.
  intros Hx Hl <-. apply val_inj; [by rewrite length_be|done|apply bytes_be|]. pose proof (val_range x Hx) as R. rewrite Hl in R.
  by rewrite val_be.
Qed.

Lemma save16 x v : bytes x → length x = 16%nat → ⟦x⟧ = v → (if memis0 x then [] else x) = enc_nnz 16 v.
Proof. intros Hx Hl E. rewrite memis0_spec by done. unfold enc_nnz. rewrite E. destruct (v =? 0); [done|]. by apply val16. Qed.

Section Spec.
Context {S : Type} `{!VarStore S}.

(** ** Funds *)

Definition lock_key (cid : blob) (aid : Z) : blob := cid ++ [KeyTag_LockedAmount] ++ be 4 aid.

(** The amount of an asset a contract has locked. *)
Definition locked (h : Host S) (cid : blob) (aid : Z) : Z := dec_nnz 16 (vs_load (h_vars h) (lock_key cid aid)).

(** Variables hold bytes. *)
Definition bytes_vars (h : Host S) : Prop := ∀ key, bytes (vs_load (h_vars h) key).

Definition with_vars (h : Host S) (s : S) : Host S := mkHost s (h_sigs h) (h_FundsIO h) (h_logs h) (h_FarCalls h).

Lemma locked_range h cid aid : bytes_vars h → 0 ≤ locked h cid aid < 2 ^ 128.
Proof.
  intros Hb. unfold locked, dec_nnz. case_decide as Hl; [|lia]. pose proof (val_range _ (Hb (lock_key cid aid))) as R. by rewrite Hl in R.
Qed.

(** The amount grows or shrinks by what is moved, and never leaves 128 bits. *)
Lemma HandleAmountInner_eq amount aid bLock h cid rest : h_FarCalls h = cid :: rest → bytes_vars h → 0 ≤ amount < 2 ^ 64 →
  HandleAmountInner amount aid bLock h =
    let n := if bLock then locked h cid aid + amount else locked h cid aid - amount in
    if (0 <=? n) && (n <? 2 ^ 128) then
      (λ s, ((), with_vars h s)) <$> vs_save (h_vars h) (lock_key cid aid) (enc_nnz 16 n)
    else None.
Proof.
  intros Hst Hb Ha. unfold HandleAmountInner, SetVarKey, Load_T, LoadVarRaw. hm. rewrite Hst. cbn [head].
  fold (lock_key cid aid). pose proof (locked_range h cid aid Hb) as HR. unfold locked in *. set (b := vs_load (h_vars h) (lock_key cid aid)) in *.
  set (x := if decide (length b = 16%nat) then b else zeros 16).
  assert (Hx : bytes x ∧ length x = 16%nat ∧ ⟦x⟧ = dec_nnz 16 b).
  { unfold x, dec_nnz. case_decide; [split_and!; [apply Hb|done|done]|split_and!; [apply bytes_zeros|done|by rewrite val_zeros]]. }
  destruct Hx as (Hx & Hl & Hv). set (n0 := dec_nnz 16 b) in *.
  assert (Hsave : ∀ y n, bytes y → length y = 16%nat → ⟦y⟧ = n →
    match Save_T (lock_key cid aid) y h with Some (_, h1) => Some ((), h1) | None => None end =
    (λ s, ((), with_vars h s)) <$> vs_save (h_vars h) (lock_key cid aid) (enc_nnz 16 n)).
  { intros y n Hy Hly <-. unfold Save_T, SaveVarRaw. rewrite (save16 y ⟦y⟧) by done. by destruct (vs_save _ _ _). }
  destruct bLock; cbv zeta.
  - destruct (add16 x amount Hx Hl Ha) as (y & -> & Hy & Hly & Hvy). rewrite Hv in Hvy. rewrite cmp_ge by done. rewrite Hvy.
    rewrite (proj2 (Z.leb_le 0 (n0 + amount))) by lia. destruct (Z.ltb_spec (n0 + amount) (2 ^ 128)); cbn [andb].
    + rewrite Z.mod_small in Hvy |- * by lia. rewrite (proj2 (Z.leb_le amount (n0 + amount))) by lia. by apply Hsave.
    + replace ((n0 + amount) mod 2 ^ 128) with (n0 + amount - 2 ^ 128) by (apply (Z.mod_unique_pos _ _ 1); lia).
      by destruct (Z.leb_spec amount (n0 + amount - 2 ^ 128)); [lia|].
  - rewrite cmp_ge, Hv by done. destruct (Z.leb_spec amount n0), (Z.leb_spec 0 (n0 - amount)); try lia; [|done].
    rewrite (proj2 (Z.ltb_lt (n0 - amount) (2 ^ 128))) by lia. cbn [andb].
    destruct (neg16 x Hx Hl) as (y & -> & Hy & Hly & Hvy). destruct (add16 y amount Hy Hly Ha) as (z & -> & Hz & Hlz & Hvz).
    destruct (neg16 z Hz Hlz) as (w & -> & Hw & Hlw & Hvw). apply Hsave; [done|done|].
    rewrite Hvw, Hvz, Hvy, Hv. rewrite Z.add_mod_idemp_l, <- (Z.sub_0_l ((- n0 + amount) mod 2 ^ 128)), Zminus_mod_idemp_r by lia.
    rewrite Z.mod_small; lia.
Qed.

(** The change of funds a call reports, as a 128-bit two's complement number. *)
Definition funds (m : gmap Z (list Z)) (aid : Z) : Z := default 0 (val <$> m !! aid).
Definition wf_funds (m : gmap Z (list Z)) : Prop := ∀ aid x, m !! aid = Some x → bytes x ∧ length x = 16%nat.

Lemma FundsChangeMap_Add_spec v aid bSpend m : wf_funds m → 0 ≤ v < 2 ^ 64 →
  ∃ m', FundsChangeMap_Add v aid bSpend m = Some m' ∧ wf_funds m' ∧
    ∀ a, funds m' a mod 2 ^ 128 = (funds m a + (if decide (a = aid) then (if bSpend then - v else v) else 0)) mod 2 ^ 128.
Proof.
  intros Hm Hv. unfold FundsChangeMap_Add. destruct (Z.eqb_spec v 0) as [->|Hn].
  { exists m. split_and!; [done|done|]. intros a. f_equal. destruct (decide _), bSpend; lia. }
  assert (Hbig : ∃ x, (if bSpend then uintBig_t.Negate (zeros 8 ++ be 8 v) else Some (zeros 8 ++ be 8 v)) = Some x ∧
    bytes x ∧ length x = 16%nat ∧ ⟦x⟧ = (if bSpend then - v else v) mod 2 ^ 128).
  { assert (Hb : bytes (zeros 8 ++ be 8 v)) by (apply bytes_app; split; [apply bytes_zeros|apply bytes_be]).
    assert (Hl : length (zeros 8 ++ be 8 v) = 16%nat) by by rewrite length_app, length_zeros, length_be.
    assert (Ev : ⟦zeros 8 ++ be 8 v⟧ = v) by (rewrite val_app, val_zeros, val_be by (change (256 ^ Z.of_nat 8) with (2 ^ 64); lia); lia).
    destruct bSpend.
    - destruct (neg16 _ Hb Hl) as (y & -> & ? & ? & E). exists y. by rewrite Ev in E.
    - eexists. split_and!; [done|done|done|]. rewrite Ev, Z.mod_small; lia. }
  destruct Hbig as (x & -> & Hx & Hlx & Evx). cbn [mbind option_bind]. set (d := if bSpend then - v else v) in *.
  destruct (m !! aid) as [dst|] eqn:Ed.
  - destruct (Hm _ _ Ed) as [Hd Hld]. destruct (uintBig_t.add_assign_spec dst x Hd Hx) as (y & -> & Hly & Hy & Evy). cbn [mbind option_bind].
    rewrite Hld in Evy, Hly. change (256 ^ Z.of_nat 16) with (2 ^ 128) in Evy. rewrite Evx, Z.add_mod_idemp_r in Evy by lia.
    rewrite memis0_spec by done. eexists. split; [done|]. split.
    + intros a z. destruct (⟦y⟧ =? 0); [rewrite lookup_delete_Some; intros [_ ?]; by eapply Hm|].
      rewrite lookup_insert_Some. intros [[_ <-]|[_ ?]]; [done|by eapply Hm].
    + intros a. unfold funds. destruct (decide (a = aid)) as [->|Ha].
      * rewrite Ed. cbn [fmap option_fmap option_map default]. destruct (Z.eqb_spec ⟦y⟧ 0) as [E0|]; [rewrite lookup_delete_eq; cbn; by rewrite <- E0, Evy, Z.mod_mod by lia|].
        rewrite lookup_insert_eq. cbn. by rewrite Evy, Z.mod_mod by lia.
      * rewrite Z.add_0_r. destruct (⟦y⟧ =? 0); by rewrite ?lookup_delete_ne, ?lookup_insert_ne by done.
  - eexists. split; [done|]. split.
    + intros a z. rewrite lookup_insert_Some. intros [[_ <-]|[_ ?]]; [done|by eapply Hm].
    + intros a. unfold funds. destruct (decide (a = aid)) as [->|Ha].
      * rewrite lookup_insert_eq, Ed. cbn. by rewrite Evx, Z.mod_mod by lia.
      * by rewrite lookup_insert_ne, Z.add_0_r by done.
Qed.

End Spec.
