(* ===== verification/ShaderEnv.v ===== *)
(** * bvm/Shaders/common.h: the environment a contract sees

    The typed access to variables, and a small program logic for contract code: what holds
    when a call ends, and why it fails otherwise. *)

From stdpp Require Import base list numbers option gmap sets.
From S2P Require Import Prelude UintBig NodeVars NodeVarsSpec BvmHost BvmHostSpec.
Local Open Scope Z_scope.

Section Env.
Context {S : Type} `{!VarStore S}.
Context (IsPastHF4 : bool).

(** [Env::LoadVar_T], [SaveVar_T], [DelVar_T] and [EmitLog_T], for the bytes of the key and of
    the value; a value of another size is not loaded. *)
Definition LoadVar_T (key : blob) (n : nat) : HM S (option blob) :=
  res ← OnHost_LoadVar key KeyTag_Internal;
  mret (if decide (length res = n) then Some res else None).

Definition SaveVar_T (key v : blob) : HM S bool :=
  n ← OnHost_SaveVar IsPastHF4 key v KeyTag_Internal;
  mret (n =? #v).

Definition DelVar_T (key : blob) : HM S bool :=
  n ← OnHost_SaveVar IsPastHF4 key [] KeyTag_Internal;
  mret (negb (n =? 0)).

Definition EmitLog_T (key v : blob) : HM S () := OnHost_EmitLog IsPastHF4 key v KeyTag_Internal.

(** ** Outcomes *)

(** [m] ends with [Q], or fails; over a store that takes every write it fails only with [P]. *)
Definition outcome {A} (m : HM S A) (h : Host S) (Q : A → Host S → Prop) (P : Prop) : Prop :=
  match m h with Some (a, h') => Q a h' | None => TotalStore S → P end.

Lemma outcome_bind {A B} (m : HM S A) (f : A → HM S B) h Q P :
  outcome m h (λ a h', outcome (f a) h' Q P) P → outcome (m ≫= f) h Q P.
Proof. unfold outcome. hm. by destruct (m h) as [[a h']|]. Qed.

Lemma outcome_mono {A} (m : HM S A) h (Q Q' : A → Host S → Prop) (P P' : Prop) :
  outcome m h Q P → (∀ a h', Q a h' → Q' a h') → (P → P') → outcome m h Q' P'.
Proof. unfold outcome. destruct (m h) as [[a h']|]; auto. Qed.

Lemma outcome_ret {A} (a : A) h (Q : A → Host S → Prop) P : Q a h → outcome (mret a) h Q P.
Proof. done. Qed.

Lemma outcome_lift {A} (o : option A) h (Q : A → Host S → Prop) (P : Prop) :
  match o with Some a => Q a h | None => P end → outcome (lift o) h Q P.
Proof. unfold outcome, lift. by destruct o. Qed.

Lemma outcome_Halt_if b h Q (P : Prop) : (b = true → P) → (b = false → Q () h) → outcome (Halt_if b) h Q P.
Proof. unfold outcome, Halt_if, Fail. destruct b; cbn; auto. Qed.

(** The host changes, other than the variables, the log grows by [l]. *)
Definition with_log (h : Host S) (l : list (blob * blob)) : Host S :=
  mkHost (h_vars h) (h_sigs h) (h_FundsIO h) (h_logs h ++ l) (h_FarCalls h).

Definition var_key (cid key : blob) : blob := cid ++ [KeyTag_Internal] ++ key.

Lemma LoadVar_T_eq key n h cid rest : h_FarCalls h = cid :: rest → #key ≤ VarKeySize →
  LoadVar_T key n h =
    Some ((let res := vs_load (h_vars h) (var_key cid key) in if decide (length res = n) then Some res else None), h).
Proof.
  intros Hst Hk. unfold LoadVar_T, OnHost_LoadVar, SetVarKeyFromShader, SetVarKey, LoadVarRaw. hm.
  rewrite (proj2 (Z.leb_le _ _) Hk). cbv beta iota.
  rewrite Hst. done.
Qed.

Lemma VarSizeMax_ge : 0x2000 ≤ VarSizeMax IsPastHF4.
Proof. unfold VarSizeMax. destruct IsPastHF4; lia. Qed.

Lemma OnHost_SaveVar_eq key v h cid rest : h_FarCalls h = cid :: rest → #key ≤ VarKeySize → #v ≤ 0x2000 →
  OnHost_SaveVar IsPastHF4 key v KeyTag_Internal h =
    (λ s, (#(vs_load (h_vars h) (var_key cid key)), with_vars h s)) <$> vs_save (h_vars h) (var_key cid key) v.
Proof.
  intros Hst Hk Hv. pose proof VarSizeMax_ge. unfold OnHost_SaveVar, SetVarKeyFromShader, SetVarKey, SaveVarRaw. hm.
  rewrite (proj2 (Z.leb_le #v _)), (proj2 (Z.leb_le #key _) Hk) by lia. cbv beta iota. rewrite Hst. cbn. fold (var_key cid key). by destruct (vs_save _ _ _).
Qed.

Lemma OnHost_EmitLog_eq key v h cid rest : h_FarCalls h = cid :: rest → #key ≤ VarKeySize → #v ≤ 0x2000 →
  EmitLog_T key v h = Some ((), with_log h [(var_key cid key, v)]).
Proof.
  intros Hst Hk Hv. pose proof VarSizeMax_ge. unfold EmitLog_T, OnHost_EmitLog, SetVarKeyFromShader, SetVarKey. hm.
  rewrite (proj2 (Z.leb_le #v _)), (proj2 (Z.leb_le #key _) Hk) by lia. cbv beta iota. by rewrite Hst.
Qed.

(** Storing [v] at [key]. *)
Definition stored (h : Host S) (key v : blob) (s : S) : Prop :=
  ∀ k, vs_load s k = if decide (k = key) then v else vs_load (h_vars h) k.

Lemma outcome_save {A} (f : S → A * Host S) h key v (Q : A → Host S → Prop) P :
  (∀ s, stored h key v s → Q (f s).1 (f s).2) →
  match f <$> vs_save (h_vars h) key v with Some (a, h') => Q a h' | None => TotalStore S → P end.
Proof.
  intros HQ. destruct (vs_save _ _ _) as [s|] eqn:E; cbn.
  - specialize (HQ s). destruct (f s). apply HQ. intros k. by eapply vs_load_save.
  - intros Ht. destruct (vs_total (h_vars h) key v) as [? E']. congruence.
Qed.

Lemma outcome_LoadVar_T key n h cid rest (Q : option blob → Host S → Prop) P : h_FarCalls h = cid :: rest → #key ≤ VarKeySize →
  Q (let res := vs_load (h_vars h) (var_key cid key) in if decide (length res = n) then Some res else None) h →
  outcome (LoadVar_T key n) h Q P.
Proof. intros. unfold outcome. by erewrite LoadVar_T_eq. Qed.

Lemma outcome_SaveVar_T key v h cid rest (Q : bool → Host S → Prop) P : h_FarCalls h = cid :: rest → #key ≤ VarKeySize → #v ≤ 0x2000 →
  (∀ b s, stored h (var_key cid key) v s → Q b (with_vars h s)) → outcome (SaveVar_T key v) h Q P.
Proof.
  intros Hst Hk Hv HQ. apply outcome_bind. unfold outcome. erewrite OnHost_SaveVar_eq by done. apply outcome_save. intros s Hs. cbn. by apply HQ.
Qed.

Lemma outcome_DelVar_T key h cid rest (Q : bool → Host S → Prop) P : h_FarCalls h = cid :: rest → #key ≤ VarKeySize →
  (∀ b s, stored h (var_key cid key) [] s → Q b (with_vars h s)) → outcome (DelVar_T key) h Q P.
Proof.
  intros Hst Hk HQ. apply outcome_bind. unfold outcome. erewrite OnHost_SaveVar_eq by (done || (cbn; lia)). apply outcome_save. intros s Hs. cbn. by apply HQ.
Qed.

Lemma outcome_EmitLog_T key v h cid rest (Q : () → Host S → Prop) P : h_FarCalls h = cid :: rest → #key ≤ VarKeySize → #v ≤ 0x2000 →
  Q () (with_log h [(var_key cid key, v)]) → outcome (EmitLog_T key v) h Q P.
Proof. intros. unfold outcome. by erewrite OnHost_EmitLog_eq. Qed.

(** ** Funds *)

Context (m_pSigValidate m_pvSigs : bool).

Definition with_funds (h : Host S) (m : gmap Z (list Z)) : Host S := mkHost (h_vars h) (h_sigs h) m (h_logs h) (h_FarCalls h).

(** What a call says it takes from the transaction or gives to it. *)
Definition funds_moved (m m' : gmap Z (list Z)) (aid d : Z) : Prop :=
  wf_funds m' ∧ if m_pSigValidate || m_pvSigs then
    ∀ a, funds m' a mod 2 ^ 128 = (funds m a + (if decide (a = aid) then d else 0)) mod 2 ^ 128
  else m' = m.

Lemma outcome_HandleAmount amount aid (bLock : bool) h cid rest (Q : () → Host S → Prop) (P : Prop) :
  h_FarCalls h = cid :: rest → bytes_vars h → wf_funds (h_FundsIO h) → 0 ≤ amount < 2 ^ 64 →
  let n := locked h cid aid + (if bLock then amount else - amount) in
  (¬ 0 ≤ n < 2 ^ 128 → P) →
  (0 ≤ n < 2 ^ 128 → ∀ s m, stored h (lock_key cid aid) (enc_nnz 16 n) s →
    funds_moved (h_FundsIO h) m aid (if bLock then - amount else amount) → Q () (with_funds (with_vars h s) m)) →
  outcome (HandleAmount m_pSigValidate m_pvSigs amount aid bLock) h Q P.
Proof.
  intros Hst Hb Hf Ha n HP HQ. apply outcome_bind. unfold outcome at 1. erewrite HandleAmountInner_eq by done. cbv zeta.
  replace (if bLock then locked h cid aid + amount else locked h cid aid - amount) with n by (subst n; destruct bLock; lia).
  destruct ((0 <=? n) && (n <? 2 ^ 128)) eqn:E; [|intros _; apply HP; intros [?%Z.leb_le ?%Z.ltb_lt]; revert E; rewrite andb_false_iff; intuition congruence].
  apply andb_true_iff in E as [E1%Z.leb_le E2%Z.ltb_lt].
  apply outcome_save. intros s Hs. cbn [fst snd]. specialize (HQ (conj E1 E2) s). unfold HandleAmountOuter.
  destruct (m_pSigValidate || m_pvSigs) eqn:Eo.
  - destruct (FundsChangeMap_Add_spec amount aid bLock (h_FundsIO h) Hf Ha) as (m & Em & Hm & Hd).
    unfold outcome. hm. cbn. rewrite Em. apply HQ; [done|]. unfold funds_moved. by rewrite Eo.
  - apply (HQ (h_FundsIO h)); [done|]. unfold funds_moved. by rewrite Eo.
Qed.

(* ECC::Point::Native::ImportNnz *)
Context (ImportNnz : blob → bool).

Definition with_sig (h : Host S) (pk : blob) : Host S := mkHost (h_vars h) (h_sigs h ++ [pk]) (h_FundsIO h) (h_logs h) (h_FarCalls h).

Lemma outcome_AddSig pk h (Q : () → Host S → Prop) (P : Prop) :
  (m_pSigValidate = true → ImportNnz pk = false → P) →
  ((m_pSigValidate = true → ImportNnz pk = true) → Q () (if m_pSigValidate then with_sig h pk else h)) →
  outcome (OnHost_AddSig m_pSigValidate ImportNnz pk) h Q P.
Proof.
  intros HP HQ. unfold outcome, OnHost_AddSig, AddSigInternal. hm. destruct m_pSigValidate; [|by apply HQ].
  destruct (ImportNnz pk) eqn:E; [by apply HQ|by intros _; apply HP].
Qed.

End Env.

(** Steps through the program, with the host functions' rules. *)
Tactic Notation "step" uconstr(lem) := first [apply outcome_bind; eapply lem | eapply lem].
