(* ===== verification/Vault.v ===== *)
(** * bvm/Shaders/vault: the vault contract

    [Vault] translates [contract.h] and [contract.cpp]; [VaultSpec] shows that it implements a
    ledger of accounts whose funds are all locked in the contract. *)

From stdpp Require Import base list numbers option gmap sets.
From S2P Require Import Prelude UintBig NodeVars NodeVarsSpec BvmHost BvmHostSpec ShaderEnv ShaderFloat.
Local Open Scope Z_scope.

Module Vault.

Record Key := mkKey { m_Account : blob; m_Aid : Z }.
Record Request := mkRequest { r_Key : Key; m_Amount : Z }.

#[export] Instance Key_eq_dec : EqDecision Key.
Proof. solve_decision. Defined.

#[export] Program Instance Key_countable : Countable Key :=
  inj_countable' (λ k, (m_Account k, m_Aid k)) (λ p, mkKey p.1 p.2) _.
Next Obligation. by intros []. Qed.

(** The packed [Key], as the variable's key. *)
Definition Key_bytes (k : Key) : blob := m_Account k ++ le 4 (m_Aid k).

Section Contract.
Context {S : Type} `{!VarStore S}.
Context (IsPastHF4 m_pSigValidate m_pvSigs : bool) (ImportNnz : blob → bool).

Definition LoadAccount (key : Key) : HM S Z :=
  ret ← LoadVar_T (Key_bytes key) 8;
  mret (match ret with Some ret => of_le ret | None => 0 end).

Definition SaveAccount (key : Key) (amount : Z) : HM S () :=
  EmitLog_T IsPastHF4 (Key_bytes key) (le 8 amount);;
  (if negb (amount =? 0) then SaveVar_T IsPastHF4 (Key_bytes key) (le 8 amount)
   else DelVar_T IsPastHF4 (Key_bytes key));;
  mret ().

Definition Ctor : HM S () := mret ().
Definition Dtor : HM S () := mret ().

Definition Method_2 (r : Request) : HM S () :=
  total ← LoadAccount (r_Key r);
  total ← lift (Strict.Add total (m_Amount r));
  SaveAccount (r_Key r) total;;
  FundsLock m_pSigValidate m_pvSigs (m_Aid (r_Key r)) (m_Amount r).

Definition Method_3 (r : Request) : HM S () :=
  total ← LoadAccount (r_Key r);
  total ← lift (Strict.Sub total (m_Amount r));
  SaveAccount (r_Key r) total;;
  FundsUnlock m_pSigValidate m_pvSigs (m_Aid (r_Key r)) (m_Amount r);;
  OnHost_AddSig m_pSigValidate ImportNnz (m_Account (r_Key r)).

End Contract.
End Vault.

Module VaultSpec.
Import Vault.

(** ** The ledger *)

Notation Ledger := (gmap Key Z).

Definition bal (L : Ledger) (k : Key) : Z := default 0 (L !! k).

(** All that the accounts of an asset hold. *)
Definition total (L : Ledger) (aid : Z) : Z := map_fold (λ k v s, (if decide (m_Aid k = aid) then v else 0) + s) 0 L.

Definition deposit (L : Ledger) (r : Request) : option Ledger :=
  let b := bal L (r_Key r) + m_Amount r in
  if decide (b < 2 ^ 64 ∧ total L (m_Aid (r_Key r)) + m_Amount r < 2 ^ 128) then Some (<[r_Key r := b]> L) else None.

Definition withdraw (L : Ledger) (r : Request) : option Ledger :=
  if decide (m_Amount r ≤ bal L (r_Key r)) then Some (<[r_Key r := bal L (r_Key r) - m_Amount r]> L) else None.

Lemma total_insert_new L k v aid : L !! k = None → total (<[k := v]> L) aid = (if decide (m_Aid k = aid) then v else 0) + total L aid.
Proof. intros Hk. unfold total. rewrite map_fold_insert_L; [done| |done]. intros. lia. Qed.

Lemma total_insert L k v aid : total (<[k := v]> L) aid = total L aid + (if decide (m_Aid k = aid) then v - bal L k else 0).
Proof.
  unfold bal. destruct (L !! k) as [w|] eqn:E.
  - rewrite <- insert_delete_eq, total_insert_new by apply lookup_delete_eq.
    rewrite <- (insert_delete_id L k w E) at 2. rewrite total_insert_new by apply lookup_delete_eq. cbn. case_decide; lia.
  - rewrite total_insert_new by done. case_decide; cbn; lia.
Qed.

Lemma bal_insert L k v k' : bal (<[k := v]> L) k' = if decide (k' = k) then v else bal L k'.
Proof. unfold bal. case_decide; by simplify_map_eq. Qed.

Definition amounts (L : Ledger) : Prop := ∀ k v, L !! k = Some v → 0 ≤ v < 2 ^ 64.

Lemma bal_range L k : amounts L → 0 ≤ bal L k < 2 ^ 64.
Proof. intros HL. unfold bal. destruct (L !! k) eqn:E; [by eapply HL|cbn; lia]. Qed.

Lemma total_nonneg L aid : amounts L → 0 ≤ total L aid.
Proof.
  unfold total. intros HL. induction L as [|k v L Hk IH] using map_ind; [done|].
  rewrite map_fold_insert_L by (done || intros; lia).
  assert (Hv : 0 ≤ v < 2 ^ 64) by (apply (HL k v); by simplify_map_eq).
  assert (0 ≤ map_fold (λ (k : Key) v s, (if decide (m_Aid k = aid) then v else 0) + s) 0 L).
  { apply IH. intros k' v' E. apply (HL k' v'). rewrite lookup_insert_ne; [done|]. congruence. }
  case_decide; lia.
Qed.

(** An account never holds more than all accounts do. *)
Lemma bal_le_total L k : amounts L → bal L k ≤ total L (m_Aid k).
Proof.
  intros HL. assert (HL0 : amounts (<[k := 0]> L)).
  { intros k' v'. rewrite lookup_insert_Some. intros [[_ <-]|[_ E]]; [lia|by eapply HL]. }
  pose proof (total_nonneg _ (m_Aid k) HL0) as H. rewrite total_insert, decide_True in H by done. lia.
Qed.

(** ** The state of the contract as a ledger *)

Section Refinement.
Context {S : Type} `{!VarStore S}.
Context (IsPastHF4 m_pSigValidate m_pvSigs : bool) (ImportNnz : blob → bool).
Context (cid : blob).

Definition wf_Key (k : Key) : Prop := bytes (m_Account k) ∧ length (m_Account k) = 33%nat ∧ 0 ≤ m_Aid k < 2 ^ 32.
Definition wf_Request (r : Request) : Prop := wf_Key (r_Key r) ∧ 0 ≤ m_Amount r < 2 ^ 64.

Definition acc_key (k : Key) : blob := var_key cid (Key_bytes k).

Definition dec_amount (b : blob) : Z := if decide (length b = 8%nat) then of_le b else 0.
Definition enc_amount (v : Z) : blob := if v =? 0 then [] else le 8 v.

Definition balance (h : Host S) (k : Key) : Z := dec_amount (vs_load (h_vars h) (acc_key k)).

(** A host that runs the contract. *)
Definition runs (h : Host S) : Prop := (∃ rest, h_FarCalls h = cid :: rest) ∧ bytes_vars h ∧ wf_funds (h_FundsIO h).

(** The variables hold the accounts of [L], and all they hold is locked. *)
Record refines (h : Host S) (L : Ledger) : Prop := {
  ref_amounts : amounts L;
  ref_balance k : wf_Key k → balance h k = bal L k;
  ref_locked aid : 0 ≤ aid < 2 ^ 32 → locked h cid aid = total L aid;
}.

Lemma dec_enc_amount v : 0 ≤ v < 2 ^ 64 → dec_amount (enc_amount v) = v.
Proof.
  intros Hv. unfold dec_amount, enc_amount. destruct (Z.eqb_spec v 0) as [->|]; [done|]. rewrite length_le, decide_True by done. by apply of_le_le.
Qed.

Lemma bytes_enc_amount v : bytes (enc_amount v).
Proof. unfold enc_amount. case_match; [apply bytes_nil|apply bytes_le]. Qed.

Lemma bytes_enc_nnz n v : bytes (enc_nnz n v).
Proof. unfold enc_nnz. case_match; [apply bytes_nil|apply bytes_be]. Qed.

Lemma acc_key_inj k k' : wf_Key k → wf_Key k' → acc_key k = acc_key k' → k = k'.
Proof.
  destruct k as [a i], k' as [a' i']. intros (_ & Hl & Hi) (_ & Hl' & Hi') E%app_inv_head%app_inv_head. cbn in *. unfold Key_bytes in E. cbn [m_Account m_Aid] in E.
  apply app_inj_1 in E as [-> E]; [|lia]. f_equal. by apply (le_inj 4).
Qed.

Lemma acc_key_lock k aid : acc_key k ≠ lock_key cid aid.
Proof. intros E%app_inv_head. done. Qed.

Lemma lock_key_inj aid aid' : 0 ≤ aid < 2 ^ 32 → 0 ≤ aid' < 2 ^ 32 → lock_key cid aid = lock_key cid aid' → aid = aid'.
Proof. intros ? ? E%app_inv_head%app_inv_head. by apply (be_inj 4). Qed.

Lemma Key_bytes_size k : wf_Key k → #(Key_bytes k) ≤ VarKeySize.
Proof. intros (_ & Hl & _). unfold Key_bytes, VarKeySize. rewrite length_app, length_le, Hl. lia. Qed.

(** The two writes of a call keep the ledger when the account and the lock move alike. *)
Lemma refines_write h h' s L k d logs sigs rest m :
  wf_Key k → refines h L → 0 ≤ bal L k + d < 2 ^ 64 → 0 ≤ total L (m_Aid k) + d < 2 ^ 128 → wf_funds m → bytes_vars h →
  stored h (acc_key k) (enc_amount (bal L k + d)) s →
  stored (with_vars h s) (lock_key cid (m_Aid k)) (enc_nnz 16 (total L (m_Aid k) + d)) (h_vars h') →
  h' = mkHost (h_vars h') sigs m logs (cid :: rest) →
  runs h' ∧ refines h' (<[k := bal L k + d]> L).
Proof.
  intros Hk [Ha Hb Hl] Hd Ht Hm Hby H1 H2 Eh. assert (Hload : ∀ key, vs_load (h_vars h') key =
    if decide (key = lock_key cid (m_Aid k)) then enc_nnz 16 (total L (m_Aid k) + d)
    else if decide (key = acc_key k) then enc_amount (bal L k + d) else vs_load (h_vars h) key).
  { intros key. rewrite H2. case_decide; [done|]. apply H1. }
  split; [split_and!; [exists rest; by rewrite Eh| |by rewrite Eh]|split].
  - intros key. rewrite Hload. case_decide; [apply bytes_enc_nnz|]. case_decide; [apply bytes_enc_amount|apply Hby].
  - intros k' v. rewrite lookup_insert_Some. intros [[_ <-]|[_ E]]; [lia|by eapply Ha].
  - intros k' Hk'. unfold balance. rewrite Hload, decide_False, bal_insert by apply acc_key_lock.
    destruct (decide (k' = k)) as [->|Hn]; [rewrite decide_True, dec_enc_amount; [done|lia|done]|].
    rewrite decide_False; [by apply Hb|]. intros E. by apply Hn, acc_key_inj.
  - intros aid Haid. unfold locked. rewrite Hload, total_insert. destruct (decide (m_Aid k = aid)) as [<-|Hn].
    + rewrite decide_True, dec_enc_nnz by (done || lia). lia.
    + rewrite decide_False by (intros E%lock_key_inj; [congruence|done|apply Hk]).
      rewrite decide_False by (intros E; by apply (acc_key_lock k aid)). rewrite Z.add_0_r. by apply Hl.
Qed.

Lemma outcome_LoadAccount k h L (Q : Z → Host S → Prop) P : wf_Key k → runs h → refines h L →
  Q (bal L k) h → outcome (LoadAccount k) h Q P.
Proof.
  intros Hk ((rest & Hst) & _) [_ Hb _] HQ. unfold LoadAccount. step outcome_LoadVar_T; [done|by apply Key_bytes_size|].
  apply outcome_ret. rewrite <- Hb in HQ by done. unfold balance, dec_amount, acc_key in HQ. cbv zeta. by destruct (decide _).
Qed.

Lemma outcome_SaveAccount k v h (Q : () → Host S → Prop) P : wf_Key k → runs h →
  (∀ s, stored h (acc_key k) (enc_amount v) s → Q () (with_vars (with_log h [(acc_key k, le 8 v)]) s)) →
  outcome (SaveAccount IsPastHF4 k v) h Q P.
Proof.
  intros Hk ((rest & Hst) & _) HQ. pose proof (Key_bytes_size k Hk). unfold SaveAccount, enc_amount in *.
  assert (#(le 8 v) ≤ 0x2000) by (rewrite length_le; lia).
  step (outcome_EmitLog_T IsPastHF4); [done..|]. destruct (v =? 0); cbn [negb].
  - step (outcome_DelVar_T IsPastHF4); [done..|]. intros b s Hs. apply outcome_ret. by apply HQ.
  - step (outcome_SaveVar_T IsPastHF4); [done..|]. intros b s Hs. apply outcome_ret. by apply HQ.
Qed.

(** ** The methods implement the ledger *)

(** Nothing but the variables, the funds and the log changes, and [pks] are asked to sign. *)
Definition after (h h' : Host S) (r : Request) (d : Z) (pks : list blob) : Prop :=
  h_sigs h' = h_sigs h ++ pks ∧ h_FarCalls h' = h_FarCalls h ∧
  funds_moved m_pSigValidate m_pvSigs (h_FundsIO h) (h_FundsIO h') (m_Aid (r_Key r)) d.

Lemma Method_2_refines r h L : wf_Request r → runs h → refines h L →
  outcome (Method_2 IsPastHF4 m_pSigValidate m_pvSigs r) h
    (λ _ h', ∃ L', deposit L r = Some L' ∧ runs h' ∧ refines h' L' ∧ after h h' r (- m_Amount r) [])
    (deposit L r = None).
Proof.
  intros [Hk Ha] Hr HL. pose proof HL as [HA HB HT]. destruct Hr as ((rest & Hst) & Hby & Hf). unfold Method_2, deposit.
  pose proof (bal_range L (r_Key r) HA). pose proof (bal_le_total L (r_Key r) HA). pose proof (total_nonneg L (m_Aid (r_Key r)) HA).
  step outcome_LoadAccount; [done|split_and!; eauto|done|].
  step outcome_lift. rewrite Strict.Add_spec by done. destruct (Z.ltb_spec (bal L (r_Key r) + m_Amount r) (2 ^ 64)); [|rewrite decide_False by lia; done].
  step outcome_SaveAccount; [done|split_and!; eauto|]. intros s Hs.
  assert (Hlk : locked (with_vars (with_log h [(acc_key (r_Key r), le 8 (bal L (r_Key r) + m_Amount r))]) s) cid (m_Aid (r_Key r)) = total L (m_Aid (r_Key r))).
  { rewrite <- HT by apply Hk. unfold locked. cbn [h_vars with_vars]. rewrite Hs, decide_False; [done|]. intros E. by apply (acc_key_lock (r_Key r) (m_Aid (r_Key r))). }
  eapply outcome_HandleAmount; [exact Hst| |exact Hf|done| |].
  { intros key. cbn [h_vars with_vars]. rewrite Hs. case_decide; [apply bytes_enc_amount|apply Hby]. }
  { rewrite Hlk. intros Hn. rewrite decide_False; [done|]. lia. }
  rewrite Hlk. intros Hn s' m Hs' Hm. rewrite decide_True by lia. eexists. split; [done|].
  set (h' := with_funds _ m).
  edestruct (refines_write h h' s L (r_Key r) (m_Amount r) (h_logs h') (h_sigs h') rest m) as [R1 R2];
    [done|done|lia|lia|apply Hm|done|done|done|rewrite <- Hst; done|].
  split_and!; [exact R1|exact R2|]. split_and!; [cbn; by rewrite app_nil_r|done|done].
Qed.

Lemma Method_3_refines r h L : wf_Request r → runs h → refines h L →
  outcome (Method_3 IsPastHF4 m_pSigValidate m_pvSigs ImportNnz r) h
    (λ _ h', ∃ L', withdraw L r = Some L' ∧ runs h' ∧ refines h' L' ∧
      after h h' r (m_Amount r) (if m_pSigValidate then [m_Account (r_Key r)] else []))
    (withdraw L r = None ∨ m_pSigValidate = true ∧ ImportNnz (m_Account (r_Key r)) = false).
Proof.
  intros [Hk Ha] Hr HL. pose proof HL as [HA HB HT]. destruct Hr as ((rest & Hst) & Hby & Hf). unfold Method_3, withdraw.
  pose proof (bal_range L (r_Key r) HA). pose proof (bal_le_total L (r_Key r) HA).
  assert (Htot : total L (m_Aid (r_Key r)) < 2 ^ 128) by (rewrite <- HT by apply Hk; by apply locked_range).
  step outcome_LoadAccount; [done|split_and!; eauto|done|].
  step outcome_lift. rewrite Strict.Sub_spec by done. destruct (Z.ltb_spec (bal L (r_Key r)) (m_Amount r)); [left; rewrite decide_False by lia; done|].
  step outcome_SaveAccount; [done|split_and!; eauto|]. intros s Hs.
  assert (Hlk : locked (with_vars (with_log h [(acc_key (r_Key r), le 8 (bal L (r_Key r) - m_Amount r))]) s) cid (m_Aid (r_Key r)) = total L (m_Aid (r_Key r))).
  { rewrite <- HT by apply Hk. unfold locked. cbn [h_vars with_vars]. rewrite Hs, decide_False; [done|]. intros E. by apply (acc_key_lock (r_Key r) (m_Aid (r_Key r))). }
  apply outcome_bind. eapply outcome_HandleAmount; [exact Hst| |exact Hf|done| |].
  { intros key. cbn [h_vars with_vars]. rewrite Hs. case_decide; [apply bytes_enc_amount|apply Hby]. }
  { rewrite Hlk. lia. }
  rewrite Hlk. intros Hn s' m Hs' Hm. apply outcome_AddSig; [by right|]. intros _. rewrite decide_True by lia. eexists. split; [done|].
  set (h' := with_funds _ m).
  edestruct (refines_write h (if m_pSigValidate then with_sig h' (m_Account (r_Key r)) else h') s L (r_Key r) (- m_Amount r) (h_logs h') (if m_pSigValidate then h_sigs h' ++ [m_Account (r_Key r)] else h_sigs h') rest m) as [R1 R2];
    [done|done|lia|lia|apply Hm|done|done|by destruct m_pSigValidate|destruct m_pSigValidate; rewrite <- Hst; done|].
  split_and!; [exact R1|exact R2|].
  assert (E : ∀ b : bool, h_FundsIO (if b then with_sig h' (m_Account (r_Key r)) else h') = m) by by intros [].
  split_and!; [destruct m_pSigValidate; [done|cbn; by rewrite app_nil_r]|by destruct m_pSigValidate|by rewrite E].
Qed.

(** A contract that has no variables is the empty ledger. *)
Lemma refines_empty h : (∀ key, vs_load (h_vars h) (cid ++ key) = []) → refines h ∅.
Proof.
  intros He. split.
  - intros k v. by rewrite lookup_empty.
  - intros k _. unfold balance, acc_key, var_key, bal. by rewrite He, lookup_empty.
  - intros aid _. unfold locked, lock_key. by rewrite He.
Qed.

(** ** Any sequence of calls *)

Inductive call := Deposit (r : Request) | Withdraw (r : Request).

Definition call_request (c : call) : Request := match c with Deposit r | Withdraw r => r end.

Definition invoke (c : call) : HM S () :=
  match c with
  | Deposit r => Method_2 IsPastHF4 m_pSigValidate m_pvSigs r
  | Withdraw r => Method_3 IsPastHF4 m_pSigValidate m_pvSigs ImportNnz r
  end.

(** The states a contract gets to from one without variables; a call that fails is taken back. *)
Inductive reachable : Host S → Prop :=
  | reach_init h : runs h → (∀ key, vs_load (h_vars h) (cid ++ key) = []) → reachable h
  | reach_call h c h' : reachable h → wf_Request (call_request c) → invoke c h = Some ((), h') → reachable h'.

Lemma reachable_refines h : reachable h → runs h ∧ ∃ L, refines h L.
Proof.
  induction 1 as [h Hr He|h c h' _ [Hr [L HL]] Hw E]; [eauto using refines_empty|]. destruct c as [r|r]; cbn [invoke call_request] in *.
  - pose proof (Method_2_refines r h L Hw Hr HL) as H. unfold outcome in H. rewrite E in H. destruct H as (L' & _ & ? & ? & _). eauto.
  - pose proof (Method_3_refines r h L Hw Hr HL) as H. unfold outcome in H. rewrite E in H. destruct H as (L' & _ & ? & ? & _). eauto.
Qed.

(** Whatever was called before, the owner of an account can withdraw what it holds. *)
Lemma withdraw_possible r h : TotalStore S → reachable h → wf_Request r → m_Amount r ≤ balance h (r_Key r) →
  (m_pSigValidate = true → ImportNnz (m_Account (r_Key r)) = true) →
  is_Some (Method_3 IsPastHF4 m_pSigValidate m_pvSigs ImportNnz r h).
Proof.
  intros Ht Hh Hw Hb Hpk. apply reachable_refines in Hh as [Hr [L HL]]. pose proof (Method_3_refines r h L Hw Hr HL) as H. unfold outcome in H.
  destruct (Method_3 _ _ _ _ _ _) as [[]|]; [done|]. rewrite (ref_balance _ _ HL) in Hb by apply Hw. unfold withdraw in H. rewrite decide_True in H by done.
  destruct (H Ht) as [|[? E]]; [done|]. rewrite Hpk in E by done. done.
Qed.

End Refinement.
End VaultSpec.
