(* ===== verification/ShaderProps.v ===== *)
(** * bvm/Shaders/Math.h and Sort.h: properties

    What the arithmetic and the sorting of the contracts promise. *)

From stdpp Require Import base list numbers option gmap sorting.
From S2P Require Import Prelude ShaderMath ShaderMathSpec ShaderDiv ShaderFloat ShaderSort ShaderSortSpec.
Local Open Scope Z_scope.
Import MultiPrecision.

(** ** Integers of several words *)

Lemma add_val a b : words a → words b → length (add a b) = S (Nat.max (length a) (length b)) ∧ wval (add a b) = wval a + wval b.
Proof.
  intros Ha Hb. pose proof (wval_range a Ha). pose proof (wval_range b Hb). set (n := Nat.max (length a) (length b)).
  assert (Hn : pw (length a) ≤ pw n ∧ pw (length b) ≤ pw n) by (split; apply Z.pow_le_mono_r; lia).
  assert (Hs : ∀ x y, words x → words y → wval x + wval y = wval a + wval b → (length x ≤ n)%nat → (length y ≤ n)%nat →
    length (fst (SetAdd (S n) x y)) = S n ∧ wval (fst (SetAdd (S n) x y)) = wval a + wval b).
  { intros x y Hx Hy E Hlx Hly. pose proof (SetAdd_spec (S n) x y Hx Hy) as H1. destruct (SetAdd (S n) x y) as [r c]. destruct H1 as (Hl & Hw & Hc & Hv).
    cbn [fst]. split; [done|]. rewrite !take_ge in Hv by lia. rewrite E in Hv. pose proof (wval_range _ Hw) as R. rewrite Hl, pw_S in *.
    rewrite (no_carry (wval r) (2 ^ 32 * pw n) c (wval a + wval b)) in Hv by lia. lia. }
  unfold add. fold n. case_match; apply Hs; (done || lia).
Qed.

(** C29. Sums, products and comparisons of integers of any number of words are exact: the sum
    has one word more than the longer operand, the product as many as both together, so
    that no carry is lost. *)
Theorem UInt_exact a b : words a → words b →
  wval (add a b) = wval a + wval b ∧ wval (mul a b) = wval a * wval b ∧
  length (add a b) = S (Nat.max (length a) (length b)) ∧ length (mul a b) = (length a + length b)%nat ∧
  cmp a b = (if wval a <? wval b then -1 else if wval b <? wval a then 1 else 0).
Proof.
  intros Ha Hb. destruct (add_val a b Ha Hb), (mul_val a b Ha Hb) as (? & _ & ?). split_and!; [done..|]. by apply cmp_val.
Qed.

Lemma UInt_exact_witness : words [2 ^ 32 - 1; 5] ∧ words [7; 2 ^ 32 - 1] ∧
  wval (mul [2 ^ 32 - 1; 5] [7; 2 ^ 32 - 1]) = (6 * 2 ^ 32 - 1) * (2 ^ 64 - 2 ^ 32 + 7).
Proof.
  assert (H1 : words [2 ^ 32 - 1; 5]) by (repeat constructor; lia). assert (H2 : words [7; 2 ^ 32 - 1]) by (repeat constructor; lia).
  destruct (UInt_exact _ _ H1 H2) as (_ & E & _). split_and!; [done|done|]. rewrite E. reflexivity.
Defined.

(** C30. The division of integers of any number of words always ends.  For a divisor whose
    second word is smaller than its top word once shifted to the left end it gives the exact
    quotient and residue, when the quotient fits; divisors of one word are always such.
    Division by zero gives the largest quotient and leaves the dividend. *)
Theorem UInt_SetDivResid n resid b : words resid → words b → wval resid < pw n * wval b ∨ wval b = 0 →
  safe_divisor (normalized b) ∨ wval b < 2 ^ 32 →
  ∃ q r, SetDivResid n (length b) resid b = Some (q, r) ∧ length q = n ∧
    if decide (wval b = 0) then q = SetMax n ∧ r = resid
    else wval q = wval resid / wval b ∧ wval r = wval resid mod wval b.
Proof.
  intros Hr Hb HV Hs. pose proof (wval_range b Hb). case_decide as H0.
  - eexists _, _. split; [by apply SetDivResid_zero|]. split; [apply length_replicate|done].
  - destruct HV as [HV|?]; [|done]. destruct (SetDivResid_spec n resid b) as (q & r & E & Hl & _ & _ & _ & Hq & Hm); [done|done|lia| |done|by exists q, r].
    destruct Hs as [?|?]; [done|]. apply safe_word; [done|lia].
Qed.

Lemma UInt_SetDivResid_witness : ∃ q r, SetDivResid 2 2 [1; 2; 3] [5; 7] = Some (q, r) ∧ length q = 2%nat ∧
  wval q = (1 + 2 * 2 ^ 32 + 3 * 2 ^ 64) / (5 + 7 * 2 ^ 32) ∧ wval r = (1 + 2 * 2 ^ 32 + 3 * 2 ^ 64) mod (5 + 7 * 2 ^ 32).
Proof.
  destruct (UInt_SetDivResid 2 [1; 2; 3] [5; 7]) as (q & r & E & Hl & Hv).
  - repeat constructor; lia.
  - repeat constructor; lia.
  - left. vm_compute. reflexivity.
  - left. vm_compute. reflexivity.
  - rewrite decide_False in Hv by by vm_compute. exists q, r. split_and!; [done|done|apply Hv|apply Hv].
Defined.

(** ** Floating point *)

Import Float FloatSpec.



(** Counterexample to the division of normal numbers in general: the trial quotient of
    [DivOnceNormalized] is 2^32 + 1 here, which is cut to one word, and the result is not
    even a normal number. *)
Theorem Float_div_wrong :
  let x := mk 0x8000000080000000 0 in
  let b := mk 0x80000000FFFFFFFF 0 in
  norm x ∧ norm b ∧ div x b = Some (mk 8589934590 (-64)) ∧
  m_Num x * 2 ^ 64 / m_Num b = 18446744069414584323.
Proof. intros x b. split_and!; [split; by vm_compute|split; by vm_compute|by vm_compute|by vm_compute]. Qed.

(** An amount survives the conversion to floating point and back. *)
Theorem Float_Get_of_Z v : 0 ≤ v < 2 ^ 64 → Get (of_Z v) = v.
Proof. apply Get_of_Z. Qed.

Lemma Float_Get_of_Z_witness : Get (of_Z (2 ^ 64 - 1)) = 2 ^ 64 - 1.
Proof. apply Float_Get_of_Z. lia. Defined.

(** ** Shifts *)

(** [SetShifted] shifts to the right only by whole words: by 4 bits it shifts to the left
    by 28, since [nLShift %= nWordBits] is computed without sign. *)
Theorem SetShifted_right_wrong : SetShifted 2 [0x10; 0] (-32) = [0; 0] ∧ SetShifted 2 [0x12345678; 0] (-4) = [0x80000000; 0x1234567].
Proof. by vm_compute. Qed.

(** ** Sorting *)

Section sort.
Context {T : Type} (ltb : T → T → bool) `{!StrictWeak ltb}.

(** The merge sort ends, without an access out of bounds, with a sorted permutation of
    the input, for any strict weak order and up to 2^31 elements. *)
Theorem MergeSort_sorts (src tmp : list T) : #src ≤ 2 ^ 31 → length tmp = length src →
  ∃ r, MergeSort.Do ltb src tmp #src = Some r ∧ r ≡ₚ src ∧ Sorted (nondesc ltb) r.
Proof. by apply MergeSortSpec.Do_spec. Qed.

End sort.

Lemma MergeSort_sorts_witness : ∃ r, MergeSort.Do Z.ltb [3; 1; 2; 5; 4] [0; 0; 0; 0; 0] 5 = Some r ∧ r ≡ₚ [3; 1; 2; 5; 4] ∧ Sorted (nondesc Z.ltb) r.
Proof. apply (MergeSort_sorts Z.ltb); [by vm_compute|done]. Defined.

(** [PivotSplit] moves the elements below the pivot to the front, loses none, and
    returns how many they are; [MedianSearch] finds that place in any array that is split
    so. *)
Theorem PivotSplit_MedianSearch {T P : Type} (ltp : T → P → bool) (p : list T) (x : P) : #p < 2 ^ 32 →
  ∃ l h, PivotSplit ltp p #p x = Some (l ++ h, #l) ∧ l ++ h ≡ₚ p ∧
    Forall (λ y, ltp y x = true) l ∧ Forall (λ y, ltp y x = false) h ∧
    MedianSearch ltp (l ++ h) #(l ++ h) x = Some #l.
Proof.
  intros Hp. unfold PivotSplit. rewrite Nat2Z.id.
  destruct (PivotSplit_loop_spec ltp x (length p) [] p []) as (l & h & E & Hpm & Hl & Hh); [constructor|constructor|done|].
  rewrite app_nil_r in *. cbn [app length] in *. rewrite Z.add_0_l in E. exists l, h. split_and!; [done|done|done|done|].
  apply MedianSearch_correct; [by rewrite Hpm| |rewrite length_app; lia]. rewrite !Forall_lookup in *. split; intros j v Hj Hlt.
  - rewrite lookup_app_l in Hj by done. by eapply Hl.
  - rewrite lookup_app_r in Hj by done. by eapply Hh.
Qed.

Lemma PivotSplit_MedianSearch_witness : ∃ l h, PivotSplit Z.ltb [5; 1; 4; 2; 3] 5 3 = Some (l ++ h, #l) ∧ l ++ h ≡ₚ [5; 1; 4; 2; 3] ∧
  Forall (λ y, (y <? 3) = true) l ∧ Forall (λ y, (y <? 3) = false) h ∧ MedianSearch Z.ltb (l ++ h) #(l ++ h) 3 = Some #l.
Proof. apply (PivotSplit_MedianSearch Z.ltb [5; 1; 4; 2; 3] 3). by vm_compute. Defined.
