(* ===== verification/Oracle.v ===== *)
(** * bvm/Shaders/oracle: the oracle contract

    [Oracle] translates [contract.cpp]: providers publish values, and the contract keeps their
    median.  [OracleSpec] shows that the value is always the median of the last values of the
    providers, and that the destructor removes every variable. *)

From stdpp Require Import base list numbers option gmap sets sorting.
From S2P Require Import Prelude UintBig NodeVars NodeVarsSpec BvmHost BvmHostSpec ShaderEnv ShaderFloat ShaderSort ShaderSortSpec.
Local Open Scope Z_scope.

Module Oracle.

Record Create := mkCreate { m_Providers : Z; m_InitialValue : Z; m_pPk : list blob }.
Record Set_ := mkSet { m_iProvider : Z; r_Value : Z }.

(** The packed [Status] and [ProviderData]. *)
Definition Status_bytes (m_Value m_Count : Z) : blob := le 8 m_Value ++ le 4 m_Count.
Definition Status_m_Value (s : blob) : Z := of_le (take 8 s).
Definition Status_m_Count (s : blob) : Z := of_le (drop 8 s).
Definition ProviderData_bytes (m_Value : Z) (m_Pk : blob) : blob := le 8 m_Value ++ m_Pk.
Definition pd_m_Value (pd : blob) : Z := of_le (take 8 pd).
Definition pd_m_Pk (pd : blob) : blob := drop 8 pd.

Definition sizeof_Status : nat := 12.
Definition sizeof_ProviderData : nat := 41.
Definition sKey : blob := [0].

Section Contract.
Context {S : Type} `{!VarStore S}.
Context (IsPastHF4 m_pSigValidate : bool) (ImportNnz : blob → bool).
(* whether the stack has room for so many bytes, and what is in memory before it is written *)
Context (StackAlloc : Z → bool) (uninit : nat → list Z).

(** [Env::LoadVar_T] into a variable, when the size is not looked at. *)
Definition LoadInto (key buf : blob) : HM S blob :=
  res ← OnHost_LoadVar key KeyTag_Internal;
  mret (take (length buf) res ++ drop (length res) buf).

Definition AddSig (pk : blob) : HM S () := OnHost_AddSig m_pSigValidate ImportNnz pk.

Fixpoint Ctor_loop (n : nat) (i : Z) (r : Create) : HM S () :=
  match n with
  | O => mret ()
  | Datatypes.S n =>
    m_Pk ← lift (m_pPk r !! Z.to_nat i);
    AddSig m_Pk;;
    SaveVar_T IsPastHF4 (le 4 i) (ProviderData_bytes (m_InitialValue r) m_Pk);;
    Ctor_loop n (u32 (i + 1)) r
  end.

Definition Ctor (r : Create) : HM S () :=
  Halt_if (m_Providers r =? 0);;
  SaveVar_T IsPastHF4 sKey (Status_bytes (m_InitialValue r) (m_Providers r));;
  Ctor_loop (Z.to_nat (m_Providers r)) 0 r.

Fixpoint Dtor_loop (n : nat) (i : Z) : HM S () :=
  match n with
  | O => mret ()
  | Datatypes.S n =>
    pd ← LoadInto (le 4 i) (uninit sizeof_ProviderData);
    AddSig (pd_m_Pk pd);;
    DelVar_T IsPastHF4 (le 4 i);;
    Dtor_loop n (u32 (i + 1))
  end.

Definition Dtor : HM S () :=
  s ← LoadInto sKey (uninit sizeof_Status);
  DelVar_T IsPastHF4 sKey;;
  Dtor_loop (Z.to_nat (Status_m_Count s)) 0.

(** The values of the providers, [pd] being the buffer they are loaded into. *)
Fixpoint Method_2_load (n : nat) (i : Z) (r : Set_) (pd : blob) : HM S (list Z) :=
  match n with
  | O => mret []
  | Datatypes.S n =>
    if i =? m_iProvider r then
      l ← Method_2_load n (u32 (i + 1)) r pd;
      mret (r_Value r :: l)
    else
      pd ← LoadInto (le 4 i) pd;
      l ← Method_2_load n (u32 (i + 1)) r pd;
      mret (pd_m_Value pd :: l)
  end.

(** The median of a sorted array. *)
Definition Method_2_median (pData : list Z) (m_Count : Z) : option Z :=
  let iMid := m_Count / 2 in
  if Z.land 1 m_Count =? 0 then
    a ← rd pData iMid;
    b ← rd pData (iMid - 1);
    Some (Utils.AverageUnsigned a b)
  else rd pData iMid.

Definition Method_2 (r : Set_) : HM S () :=
  s ← LoadInto sKey (uninit sizeof_Status);
  let m_Count := Status_m_Count s in
  Halt_if (m_Count <=? m_iProvider r);;
  pd ← LoadInto (le 4 (m_iProvider r)) (uninit sizeof_ProviderData);
  AddSig (pd_m_Pk pd);;
  if pd_m_Value pd =? r_Value r then mret ()
  else
    let pd := ProviderData_bytes (r_Value r) (pd_m_Pk pd) in
    SaveVar_T IsPastHF4 (le 4 (m_iProvider r)) pd;;
    Test (StackAlloc (u32 (8 * u32 (m_Count * 2))));;
    pData ← Method_2_load (Z.to_nat m_Count) 0 r pd;
    pData ← lift (MergeSort.Do Z.ltb pData (uninit (Z.to_nat m_Count)) m_Count);
    m_Value ← lift (Method_2_median pData m_Count);
    SaveVar_T IsPastHF4 sKey (Status_bytes m_Value m_Count);;
    mret ().

Definition Method_3 : HM S Z :=
  s ← LoadInto sKey (uninit sizeof_Status);
  mret (Status_m_Value s).

End Contract.
End Oracle.

Module OracleSpec.
Import Oracle.

(** The median of some values: the middle one in order, or the mean of the middle two. *)
Definition is_median (vs : list Z) (m : Z) : Prop := ∃ l, l ≡ₚ vs ∧ Sorted Z.le l ∧
  let n := length vs in
  if Nat.odd n then l !! (n / 2)%nat = Some m
  else ∃ a b, l !! (n / 2)%nat = Some a ∧ l !! (n / 2 - 1)%nat = Some b ∧ m = (a + b) / 2.

Lemma is_median_const n v : (0 < n)%nat → is_median (replicate n v) v.
Proof.
  intros Hn. exists (replicate n v). split_and!; [done| |].
  { clear. induction n as [|n IH]; cbn; [constructor|]. constructor; [done|]. destruct n; cbn; constructor. lia. }
  rewrite length_replicate. cbv zeta. pose proof (Nat.div_mod_eq n 2). destruct (Nat.odd n) eqn:E.
  - apply lookup_replicate_2. apply Nat.div_lt; lia.
  - assert (n mod 2 = 0)%nat. { rewrite <- Nat.bit0_mod. rewrite Nat.bit0_odd. by rewrite E. }
    exists v, v. split_and!; [apply lookup_replicate_2; lia|apply lookup_replicate_2; lia|].
    replace (v + v) with (v * 2) by lia. by rewrite Z.div_mul.
Qed.

Lemma Sorted_nondesc l : Sorted (nondesc Z.ltb) l → Sorted Z.le l.
Proof.
  induction 1 as [|x l Hs IH Hh]; constructor; [done|]. destruct Hh as [|y l Hy]; constructor. unfold nondesc in Hy. by apply Z.ltb_ge in Hy.
Qed.

Lemma land_1_odd_nat n : (Z.land 1 (Z.of_nat n) =? 0) = negb (Nat.odd n).
Proof.
  rewrite Z.land_comm. change 1 with (Z.ones 1). rewrite Z.land_ones by lia. change (2 ^ 1) with (Z.of_nat 2). rewrite <- Nat2Z.inj_mod, <- Nat.bit0_mod, Nat.bit0_odd.
  by destruct (Nat.odd n).
Qed.

(** The code's median of the sorted values. *)
Lemma Method_2_median_spec vs l : (0 < length vs)%nat → Forall (λ v, 0 ≤ v < 2 ^ 64) vs → l ≡ₚ vs → Sorted (nondesc Z.ltb) l →
  ∃ m, Method_2_median l #vs = Some m ∧ is_median vs m ∧ 0 ≤ m < 2 ^ 64.
Proof.
  intros Hn Hvs Hp Hs. assert (Hl : length l = length vs) by by rewrite Hp. rewrite <- Hp in Hvs.
  unfold Method_2_median, is_median. set (n := length vs) in *. pose proof (Nat.div_mod_eq n 2).
  assert (Hm : ∀ i : nat, (i < n)%nat → ∃ v, l !! i = Some v ∧ rd l (Z.of_nat i) = Some v ∧ 0 ≤ v < 2 ^ 64).
  { intros i Hi. destruct (lookup_lt_is_Some_2 l i) as [v Ev]; [lia|]. exists v.
    split_and!; [done|by rewrite rd_lookup|apply (Forall_lookup_1 _ _ _ _ Hvs Ev)..]. }
  assert (Eh : Z.of_nat n / 2 = Z.of_nat (n / 2)) by (rewrite Nat2Z.inj_div; done). rewrite Eh, land_1_odd_nat.
  destruct (Hm (n / 2)%nat) as (a & Ea & Ra & Ba); [apply Nat.div_lt; lia|]. rewrite Ra.
  destruct (Nat.odd n) eqn:E; cbn [negb].
  - exists a. split_and!; [done| |lia|lia]. exists l. split_and!; [done|by apply Sorted_nondesc|done].
  - assert (n mod 2 = 0)%nat by (rewrite <- Nat.bit0_mod, Nat.bit0_odd; by rewrite E).
    destruct (Hm (n / 2 - 1)%nat) as (b & Eb & Rb & Bb); [lia|]. replace (Z.of_nat (n / 2) - 1) with (Z.of_nat (n / 2 - 1)) by lia.
    rewrite Rb. cbn [mbind option_bind]. rewrite Utils.AverageUnsigned_spec by done. eexists. split_and!; [done| |apply Z.div_pos; lia|apply Z.div_lt_upper_bound; lia].
    exists l. split_and!; [done|by apply Sorted_nondesc|]. by exists a, b.
Qed.

Section Spec.
Context {S : Type} `{!VarStore S}.
Context (IsPastHF4 m_pSigValidate : bool) (ImportNnz : blob → bool).
Context (StackAlloc : Z → bool) (uninit : nat → list Z).
Hypothesis uninit_size : ∀ n, length (uninit n) = n.
Context (cid : blob) (rest : list blob).

(** A provider: its last value and its key. *)
Notation provider := (Z * blob)%type.

Definition wf_provider (p : provider) : Prop := 0 ≤ p.1 < 2 ^ 64 ∧ length p.2 = 33%nat.

(** The variables are those of [ps] with the value [m]. *)
Record rep (h : Host S) (m : Z) (ps : list provider) : Prop := {
  rep_call : h_FarCalls h = cid :: rest;
  rep_range : 0 ≤ m < 2 ^ 64;
  rep_wf : Forall wf_provider ps;
  rep_size : 0 < #ps < 2 ^ 28;
  rep_status : vs_load (h_vars h) (var_key cid sKey) = Status_bytes m #ps;
  rep_provider (i : nat) p : ps !! i = Some p → vs_load (h_vars h) (var_key cid (le 4 (Z.of_nat i))) = ProviderData_bytes p.1 p.2;
}.

Lemma Status_fields m n : 0 ≤ m < 2 ^ 64 → 0 ≤ n < 2 ^ 32 →
  Status_m_Value (Status_bytes m n) = m ∧ Status_m_Count (Status_bytes m n) = n ∧ length (Status_bytes m n) = sizeof_Status.
Proof.
  intros Hm Hn. unfold Status_m_Value, Status_m_Count, Status_bytes. rewrite take_app_length', drop_app_length', !of_le_le by (rewrite ?length_le; done).
  by rewrite length_app, !length_le.
Qed.

Lemma ProviderData_fields v pk : 0 ≤ v < 2 ^ 64 → length pk = 33%nat →
  pd_m_Value (ProviderData_bytes v pk) = v ∧ pd_m_Pk (ProviderData_bytes v pk) = pk ∧ length (ProviderData_bytes v pk) = sizeof_ProviderData.
Proof.
  intros Hv Hl. unfold pd_m_Value, pd_m_Pk, ProviderData_bytes. rewrite take_app_length', drop_app_length', of_le_le by (rewrite ?length_le; done).
  by rewrite length_app, length_le, Hl.
Qed.

Lemma outcome_LoadInto key buf h (Q : blob → Host S → Prop) P : h_FarCalls h = cid :: rest → #key ≤ VarKeySize →
  length (vs_load (h_vars h) (var_key cid key)) = length buf →
  Q (vs_load (h_vars h) (var_key cid key)) h → outcome (LoadInto key buf) h Q P.
Proof.
  intros Hst Hk Hl HQ. unfold outcome, LoadInto, OnHost_LoadVar, SetVarKeyFromShader, SetVarKey, LoadVarRaw. hm.
  rewrite (proj2 (Z.leb_le _ _) Hk). cbv beta iota. rewrite Hst. cbn [head]. change (cid ++ [KeyTag_Internal] ++ key) with (var_key cid key).
  by rewrite <- Hl, take_ge, drop_ge, app_nil_r by lia.
Qed.

Lemma provider_key_inj (i j : nat) : Z.of_nat i < 2 ^ 32 → Z.of_nat j < 2 ^ 32 →
  var_key cid (le 4 (Z.of_nat i)) = var_key cid (le 4 (Z.of_nat j)) → i = j.
Proof. intros Hi Hj E%app_inv_head%app_inv_head. apply (le_inj 4) in E; lia. Qed.

Lemma provider_key_status (i : Z) : var_key cid (le 4 i) ≠ var_key cid sKey.
Proof. intros E%app_inv_head%app_inv_head. done. Qed.

Lemma sKey_size : #sKey ≤ VarKeySize.
Proof. done. Qed.

Lemma provider_key_size (i : Z) : #(le 4 i) ≤ VarKeySize.
Proof. by rewrite length_le. Qed.

(** ** How writes change the providers *)

Lemma rep_host h h' m ps : h_vars h' = h_vars h → h_FarCalls h' = h_FarCalls h → rep h m ps → rep h' m ps.
Proof. intros Ev Ec []. split; intros; rewrite ?Ev, ?Ec; eauto. Qed.

Lemma rep_store_provider h s m ps (i : nat) p : rep h m ps → (i < length ps)%nat → wf_provider p →
  stored h (var_key cid (le 4 (Z.of_nat i))) (ProviderData_bytes p.1 p.2) s → rep (with_vars h s) m (<[i := p]> ps).
Proof.
  intros [Hc Hr Hw Hn Hs Hp] Hi Hwp Hst. split; [done|done|by apply Forall_insert|by rewrite length_insert| |]; cbn [h_vars with_vars].
  - rewrite Hst, decide_False, length_insert by (apply not_eq_sym, provider_key_status). done.
  - intros j q. rewrite list_lookup_insert_Some. rewrite Hst. intros [(-> & -> & _)|[Hne Hj]]; [by rewrite decide_True|].
    rewrite decide_False; [by apply Hp|]. intros E. apply lookup_lt_Some in Hj. apply Hne. symmetry. apply provider_key_inj in E; lia.
Qed.

Lemma rep_store_status h s m m' ps : rep h m ps → 0 ≤ m' < 2 ^ 64 →
  stored h (var_key cid sKey) (Status_bytes m' #ps) s → rep (with_vars h s) m' ps.
Proof.
  intros [Hc Hr Hw Hn Hs Hp] Hm Hst. split; [done|done|done|done| |]; cbn [h_vars with_vars].
  - by rewrite Hst, decide_True.
  - intros i p Hi. rewrite Hst, decide_False by apply provider_key_status. by apply Hp.
Qed.

Lemma outcome_load_status h m ps (Q : blob → Host S → Prop) P : rep h m ps → Q (Status_bytes m #ps) h →
  outcome (LoadInto sKey (uninit sizeof_Status)) h Q P.
Proof.
  intros [Hc Hr Hw Hn Hs Hp] HQ. apply outcome_LoadInto; [done|apply sKey_size| |by rewrite Hs].
  rewrite Hs, uninit_size. apply Status_fields; lia.
Qed.

Lemma outcome_load_provider h m ps (i : nat) p buf (Q : blob → Host S → Prop) P : rep h m ps → ps !! i = Some p → length buf = sizeof_ProviderData →
  Q (ProviderData_bytes p.1 p.2) h → outcome (LoadInto (le 4 (Z.of_nat i)) buf) h Q P.
Proof.
  intros [Hc Hr Hw Hn Hs Hp] Hi Hl HQ. apply outcome_LoadInto; [done|apply provider_key_size| |by rewrite (Hp i p)].
  rewrite (Hp i p), Hl by done. pose proof (Forall_lookup_1 _ _ _ _ Hw Hi) as [? ?]. by apply ProviderData_fields.
Qed.

(** ** The methods *)

Lemma Method_2_load_spec n (i : nat) r pd h m ps P : rep h m ps → (i + n = length ps)%nat → length pd = sizeof_ProviderData →
  (∀ p, 0 ≤ m_iProvider r → ps !! Z.to_nat (m_iProvider r) = Some p → p.1 = r_Value r) →
  outcome (Method_2_load n (Z.of_nat i) r pd) h (λ l h', h' = h ∧ l = (drop i ps).*1) P.
Proof.
  intros Hrep Hn Hpd Hr. pose proof (rep_size _ _ _ Hrep). revert i pd Hn Hpd. induction n as [|n IH]; intros i pd Hn Hpd; cbn [Method_2_load].
  { apply outcome_ret. by rewrite drop_ge by lia. }
  destruct (lookup_lt_is_Some_2 ps i) as [p Hp]; [lia|]. pose proof (Forall_lookup_1 _ _ _ _ (rep_wf _ _ _ Hrep) Hp) as [Hv Hl].
  rewrite (drop_S ps p i Hp). replace (u32 (Z.of_nat i + 1)) with (Z.of_nat (Datatypes.S i)) by (rewrite u32_small; lia).
  destruct (ProviderData_fields p.1 p.2 Hv Hl) as (E1 & _ & E3). destruct (Z.eqb_spec (Z.of_nat i) (m_iProvider r)) as [Ei|Ei].
  - apply outcome_bind. eapply outcome_mono; [apply IH; [lia|done]| |done]. intros l h' [-> ->]. apply outcome_ret. split; [done|].
    cbn. f_equal. symmetry. apply Hr; [lia|]. by rewrite <- Ei, Nat2Z.id.
  - step outcome_load_provider; [done..|]. apply outcome_bind. eapply outcome_mono; [apply IH; [lia|done]| |done].
    intros l h' [-> ->]. apply outcome_ret. split; [done|]. by rewrite E1.
Qed.

(** Keys other than those of the providers from [i] up to [n]. *)
Definition other (i n : nat) (key : blob) : Prop := ∀ j : nat, (i ≤ j < n)%nat → key ≠ var_key cid (le 4 (Z.of_nat j)).

Definition asked (h h' : Host S) (pks : list blob) : Prop := h_sigs h' = h_sigs h ++ (if m_pSigValidate then pks else []).

(** A provider sets its value: the value of the contract becomes the median again. *)
Lemma Method_2_spec r h m ps : rep h m ps → is_median ps.*1 m → 0 ≤ m_iProvider r → 0 ≤ r_Value r < 2 ^ 64 →
  let i := Z.to_nat (m_iProvider r) in
  outcome (Method_2 IsPastHF4 m_pSigValidate ImportNnz StackAlloc uninit r) h
    (λ _ h', ∃ v pk m', ps !! i = Some (v, pk) ∧ rep h' m' (<[i := (r_Value r, pk)]> ps) ∧
      is_median (<[i := (r_Value r, pk)]> ps).*1 m' ∧ asked h h' [pk] ∧
      ∀ key, other 0 (length ps) key → key ≠ var_key cid sKey → vs_load (h_vars h') key = vs_load (h_vars h) key)
    (#ps ≤ m_iProvider r ∨ StackAlloc (16 * #ps) = false ∨
     ∃ v pk, ps !! i = Some (v, pk) ∧ m_pSigValidate = true ∧ ImportNnz pk = false).
Proof.
  intros Hrep Hmed Hi Hv i. pose proof (rep_size _ _ _ Hrep) as Hn. destruct (Status_fields m #ps (rep_range _ _ _ Hrep) ltac:(lia)) as (E1 & E2 & E3).
  unfold Method_2. step outcome_load_status; [done|]. rewrite E2. step outcome_Halt_if; [intros ?%Z.leb_le; by left|]. intros Hlt%Z.leb_gt.
  destruct (lookup_lt_is_Some_2 ps i) as [[v pk] Hp]; [unfold i; lia|]. assert (Ei : m_iProvider r = Z.of_nat i) by (unfold i; lia). rewrite Ei.
  pose proof (Forall_lookup_1 _ _ _ _ (rep_wf _ _ _ Hrep) Hp) as [Hwv Hwl]. cbn [fst snd] in Hwv, Hwl.
  destruct (ProviderData_fields v pk Hwv Hwl) as (F1 & F2 & F3).
  step outcome_load_provider; [done|done|by rewrite uninit_size|]. cbn [fst snd]. rewrite F1, F2.
  step outcome_AddSig; [intros; right; right; by exists v, pk|]. intros _. set (h1 := if m_pSigValidate then with_sig h pk else h).
  assert (Hrep1 : rep h1 m ps) by (apply (rep_host h); [by unfold h1; destruct m_pSigValidate..|done]).
  assert (Hask : asked h h1 [pk]) by (unfold asked, h1; destruct m_pSigValidate; cbn; by rewrite ?app_nil_r).
  destruct (Z.eqb_spec v (r_Value r)) as [<-|Hne].
  { apply outcome_ret. exists v, pk, m. rewrite (list_insert_id ps i) by done. split_and!; try done. intros key _ _. by unfold h1; destruct m_pSigValidate. }
  destruct (ProviderData_fields (r_Value r) pk Hv Hwl) as (G1 & G2 & G3).
  step (outcome_SaveVar_T IsPastHF4); [exact (rep_call _ _ _ Hrep1)|apply provider_key_size|rewrite G3; done|]. intros b s Hs.
  pose proof (rep_store_provider h1 s m ps i (r_Value r, pk) Hrep1 ltac:(unfold i; lia) (conj Hv Hwl) Hs) as Hrep2.
  set (ps' := <[i := (r_Value r, pk)]> ps) in *. assert (Hlen : length ps' = length ps) by apply length_insert.
  replace (u32 (8 * u32 (#ps * 2))) with (16 * #ps) by (rewrite (u32_small (#ps * 2)), u32_small; lia).
  destruct (StackAlloc (16 * #ps)); [|by right; left]. apply outcome_bind, outcome_ret. rewrite Nat2Z.id.
  apply outcome_bind. eapply outcome_mono; [apply (Method_2_load_spec _ 0 _ _ _ m ps'); [exact Hrep2|lia|done|]| |done].
  { intros p _. fold i. unfold ps'. rewrite list_lookup_insert_eq by (unfold i; lia). by intros [= <-]. }
  intros l h' [-> ->]. rewrite drop_0. step outcome_lift.
  destruct (MergeSortSpec.Do_spec Z.ltb ps'.*1 (uninit (length ps))) as (l & El & Hperm & Hsort); [apply _|rewrite length_fmap; lia|rewrite length_fmap, uninit_size; lia|].
  rewrite length_fmap, Hlen in El. rewrite El. step outcome_lift.
  destruct (Method_2_median_spec ps'.*1 l) as (m' & Em & Hm' & Hb); [rewrite length_fmap; lia| |done|done|].
  { apply Forall_fmap. eapply Forall_impl; [apply (rep_wf _ _ _ Hrep2)|]. by intros ? [? _]. }
  rewrite length_fmap, Hlen in Em. rewrite Em.
  destruct (Status_fields m' #ps Hb ltac:(lia)) as (_ & _ & I3).
  step (outcome_SaveVar_T IsPastHF4); [exact (rep_call _ _ _ Hrep2)|apply sKey_size|by rewrite I3|]. intros b' s' Hs'. apply outcome_ret.
  exists v, pk, m'. split_and!; [done|apply (rep_store_status (with_vars h1 s) s' m m' ps'); [done|done|by rewrite Hlen]|done|done|].
  intros key Hk Hk'. cbn [h_vars with_vars]. rewrite Hs', decide_False by done. cbn [h_vars with_vars]. rewrite Hs, decide_False by (apply Hk; unfold i; lia). by unfold h1; destruct m_pSigValidate.
Qed.

Lemma Method_3_spec h m ps : rep h m ps → outcome (Method_3 uninit) h (λ m' h', m' = m ∧ h' = h) False.
Proof.
  intros Hrep. unfold Method_3. step outcome_load_status; [done|]. apply outcome_ret. pose proof (rep_size _ _ _ Hrep). split; [|done].
  by destruct (Status_fields m #ps (rep_range _ _ _ Hrep) ltac:(lia)) as (-> & _).
Qed.

Lemma asked_sig h pk : asked h (if m_pSigValidate then with_sig h pk else h) [pk].
Proof. unfold asked. destruct m_pSigValidate; cbn; by rewrite ?app_nil_r. Qed.

Lemma asked_cons h1 h2 h3 pk pks : asked h1 h2 [pk] → asked h2 h3 pks → asked h1 h3 (pk :: pks).
Proof. unfold asked. intros E1 ->. rewrite E1. destruct m_pSigValidate; by rewrite <- app_assoc. Qed.

Lemma asked_nil h : asked h h [].
Proof. unfold asked. destruct m_pSigValidate; by rewrite app_nil_r. Qed.

Lemma other_next (i n : nat) : (i < n)%nat → Z.of_nat n < 2 ^ 32 → other (Datatypes.S i) n (var_key cid (le 4 (Z.of_nat i))).
Proof. intros Hi Hn j Hj E. apply provider_key_inj in E; lia. Qed.

Lemma other_weaken (i n : nat) key : other i n key → other (Datatypes.S i) n key.
Proof. intros Ho j Hj. apply Ho. lia. Qed.

(** The host after the variables of the providers from [i] on were written: [f] says what they hold. *)
Definition wrote (h h' : Host S) (i n : nat) (f : nat → blob) (pks : list blob) : Prop :=
  h_FarCalls h' = h_FarCalls h ∧ (∀ j : nat, (i ≤ j < n)%nat → vs_load (h_vars h') (var_key cid (le 4 (Z.of_nat j))) = f j) ∧
  (∀ key, other i n key → vs_load (h_vars h') key = vs_load (h_vars h) key) ∧ asked h h' pks.

Lemma wrote_nil h n f : wrote h h n n f [].
Proof. split_and!; [done|lia|done|apply asked_nil]. Qed.

Lemma wrote_cons h h' (i n : nat) f pk pks s : (i < n)%nat → Z.of_nat n < 2 ^ 32 →
  stored h (var_key cid (le 4 (Z.of_nat i))) (f i) s →
  wrote (with_vars (if m_pSigValidate then with_sig h pk else h) s) h' (Datatypes.S i) n f pks → wrote h h' i n f (pk :: pks).
Proof.
  intros Hi Hn Hs (Hc & Hw & Ho & Ha). split_and!.
  - rewrite Hc. by destruct m_pSigValidate.
  - intros j Hj. destruct (decide (j = i)) as [->|]; [|apply Hw; lia]. rewrite Ho by by apply other_next. cbn [h_vars with_vars]. by rewrite Hs, decide_True.
  - intros key Hk. rewrite Ho by by apply other_weaken. cbn [h_vars with_vars]. rewrite Hs, decide_False; [done|]. apply Hk. lia.
  - eapply asked_cons; [apply asked_sig|]. unfold asked in *. by rewrite Ha.
Qed.

(** A key that cannot be imported makes the call fail. *)
Definition bad_key (pks : list blob) : Prop := m_pSigValidate = true ∧ ∃ pk, pk ∈ pks ∧ ImportNnz pk = false.

Definition wf_Create (r : Create) : Prop :=
  m_Providers r = #(m_pPk r) ∧ #(m_pPk r) < 2 ^ 28 ∧ Forall (λ pk, length pk = 33%nat) (m_pPk r) ∧ 0 ≤ m_InitialValue r < 2 ^ 64.

Lemma Ctor_loop_spec n (i : nat) r h : wf_Create r → h_FarCalls h = cid :: rest → (i + n = length (m_pPk r))%nat →
  outcome (Ctor_loop IsPastHF4 m_pSigValidate ImportNnz n (Z.of_nat i) r) h
    (λ _ h', wrote h h' i (length (m_pPk r)) (λ j, ProviderData_bytes (m_InitialValue r) (default [] (m_pPk r !! j))) (drop i (m_pPk r)))
    (bad_key (m_pPk r)).
Proof.
  intros (Hnp & Hsz & Hpk & Hiv). revert i h. induction n as [|n IH]; intros i h Hc Hn; cbn [Ctor_loop].
  { apply outcome_ret. rewrite drop_ge by lia. replace i with (length (m_pPk r)) by lia. apply wrote_nil. }
  destruct (lookup_lt_is_Some_2 (m_pPk r) i) as [pk Ep]; [lia|]. pose proof (Forall_lookup_1 _ _ _ _ Hpk Ep) as Hl. cbn in Hl.
  step outcome_lift. rewrite Nat2Z.id, Ep. step outcome_AddSig.
  { intros E1 E2. split; [done|]. exists pk. split; [by eapply list_elem_of_lookup_2|done]. }
  intros _. destruct (ProviderData_fields (m_InitialValue r) pk Hiv Hl) as (_ & _ & Hs).
  step (outcome_SaveVar_T IsPastHF4); [by destruct m_pSigValidate|apply provider_key_size|by rewrite Hs|]. intros b s Hst.
  replace (u32 (Z.of_nat i + 1)) with (Z.of_nat (Datatypes.S i)) by (rewrite u32_small; lia).
  rewrite (drop_S _ _ _ Ep). eapply outcome_mono; [apply IH; [by destruct m_pSigValidate|lia]| |done].
  intros [] h' Hw. eapply wrote_cons; [lia|lia| |exact Hw]. rewrite Ep. by destruct m_pSigValidate.
Qed.

(** The constructor: every provider has the initial value, which is the median. *)
Lemma Ctor_spec r h : wf_Create r → h_FarCalls h = cid :: rest →
  outcome (Ctor IsPastHF4 m_pSigValidate ImportNnz r) h
    (λ _ h', let ps := (λ pk, (m_InitialValue r, pk)) <$> m_pPk r in
      rep h' (m_InitialValue r) ps ∧ is_median ps.*1 (m_InitialValue r) ∧ asked h h' (m_pPk r) ∧
      ∀ key, other 0 (length ps) key → key ≠ var_key cid sKey → vs_load (h_vars h') key = vs_load (h_vars h) key)
    (m_pPk r = [] ∨ bad_key (m_pPk r)).
Proof.
  intros Hwf Hc. pose proof Hwf as (Hnp & Hsz & Hpk & Hiv). unfold Ctor. step outcome_Halt_if.
  { rewrite Hnp. intros E%Z.eqb_eq. left. by apply length_zero_iff_nil; lia. }
  rewrite Hnp. intros Hne%Z.eqb_neq. destruct (Status_fields (m_InitialValue r) #(m_pPk r) Hiv ltac:(lia)) as (_ & _ & Hs).
  step (outcome_SaveVar_T IsPastHF4); [done|apply sKey_size|by rewrite Hs|]. intros b s Hst. rewrite Nat2Z.id.
  eapply outcome_mono; [apply (Ctor_loop_spec _ 0); [done|done|done]| |by right].
  intros [] h' (Hc' & Hw & Ho & Ha). set (ps := _ <$> m_pPk r).
  assert (Hlen : length ps = length (m_pPk r)) by apply length_fmap. rewrite drop_0 in Ha. split_and!; [split|..].
  - rewrite Hc'. done.
  - done.
  - apply Forall_fmap. eapply Forall_impl; [exact Hpk|]. intros pk Hl. by split.
  - rewrite Hlen. lia.
  - rewrite Hlen, Ho by (intros j _; apply not_eq_sym, provider_key_status). cbn [h_vars with_vars]. by rewrite Hst, decide_True.
  - intros i p. unfold ps. rewrite list_lookup_fmap_Some. intros (pk & -> & Hi). apply lookup_lt_Some in Hi as Hlt. rewrite Hw by lia. by rewrite Hi.
  - replace ps.*1 with (replicate (length (m_pPk r)) (m_InitialValue r)).
    { apply is_median_const. lia. }
    unfold ps. rewrite <- list_fmap_compose. clear. induction (m_pPk r) as [|pk l IH]; cbn; [done|]. by rewrite IH.
  - done.
  - intros key Hk Hk'. rewrite Ho by by rewrite <- Hlen. cbn [h_vars with_vars]. by rewrite Hst, decide_False.
Qed.

Lemma Dtor_loop_spec n (i : nat) h m ps : (∀ (j : nat) p, (i ≤ j)%nat → ps !! j = Some p →
    vs_load (h_vars h) (var_key cid (le 4 (Z.of_nat j))) = ProviderData_bytes p.1 p.2) →
  Forall wf_provider ps → Z.of_nat (length ps) < 2 ^ 28 → h_FarCalls h = cid :: rest → (i + n = length ps)%nat →
  outcome (Dtor_loop IsPastHF4 m_pSigValidate ImportNnz uninit n (Z.of_nat i)) h
    (λ _ h', wrote h h' i (length ps) (λ _, []) (drop i ps.*2)) (bad_key ps.*2 ∨ m).
Proof.
  intros Hp Hw Hsz. revert i h Hp. induction n as [|n IH]; intros i h Hp Hc Hn; cbn [Dtor_loop].
  { apply outcome_ret. rewrite drop_ge by (rewrite length_fmap; lia). replace i with (length ps) by lia. apply wrote_nil. }
  destruct (lookup_lt_is_Some_2 ps i) as [p Ep]; [lia|]. pose proof (Forall_lookup_1 _ _ _ _ Hw Ep) as [Hv Hl].
  destruct (ProviderData_fields p.1 p.2 Hv Hl) as (_ & E2 & Hs).
  step outcome_LoadInto; [done|apply provider_key_size|by rewrite (Hp i p), uninit_size|]. rewrite (Hp i p), E2 by done. step outcome_AddSig.
  { intros E1 E3. left. split; [done|]. exists p.2. split; [|done]. apply list_elem_of_fmap. exists p. split; [done|]. by eapply list_elem_of_lookup_2. }
  intros _. step (outcome_DelVar_T IsPastHF4); [by destruct m_pSigValidate|apply provider_key_size|]. intros b s Hst.
  replace (u32 (Z.of_nat i + 1)) with (Z.of_nat (Datatypes.S i)) by (rewrite u32_small; lia).
  assert (Ep2 : ps.*2 !! i = Some p.2) by by rewrite list_lookup_fmap, Ep. rewrite (drop_S _ _ _ Ep2).
  assert (Hst' : stored h (var_key cid (le 4 (Z.of_nat i))) [] s) by by destruct m_pSigValidate.
  eapply outcome_mono; [apply IH; [|by destruct m_pSigValidate|lia]| |done].
  - intros j q Hj Eq. cbn [h_vars with_vars]. apply lookup_lt_Some in Eq as Hlt. rewrite Hst', decide_False; [apply Hp; [lia|done]|].
    intros E. apply provider_key_inj in E; lia.
  - intros [] h' Hwr. eapply wrote_cons; [lia|lia|exact Hst'|exact Hwr].
Qed.

(** Nothing is stored but the status and [n] providers. *)
Definition only (h : Host S) (n : nat) : Prop := ∀ x, other 0 n (cid ++ x) → cid ++ x ≠ var_key cid sKey → vs_load (h_vars h) (cid ++ x) = [].

(** The destructor: the variables are gone, and every provider has to sign. *)
Lemma Dtor_spec h m ps : rep h m ps → only h (length ps) →
  outcome (Dtor IsPastHF4 m_pSigValidate ImportNnz uninit) h
    (λ _ h', (∀ x, vs_load (h_vars h') (cid ++ x) = []) ∧ asked h h' ps.*2) (bad_key ps.*2).
Proof.
  intros Hrep Hno. pose proof Hrep as [Hc Hr Hw Hn Hs Hp]. destruct (Status_fields m #ps Hr ltac:(lia)) as (_ & E2 & _). unfold Dtor.
  step outcome_load_status; [done|]. rewrite E2, Nat2Z.id. step (outcome_DelVar_T IsPastHF4); [done|apply sKey_size|]. intros b s Hst.
  eapply outcome_mono; [apply (Dtor_loop_spec _ 0 _ False ps); [|done|lia|done|done]| |by intros [?|[]]].
  - intros j p _ Hj. cbn [h_vars with_vars]. rewrite Hst, decide_False by apply provider_key_status. by apply Hp.
  - intros [] h' (_ & Hz & Ho & Ha). rewrite drop_0 in Ha. split; [|done]. intros x.
    destruct (decide (Exists (λ j, cid ++ x = var_key cid (le 4 (Z.of_nat j))) (seq 0 (length ps)))) as [He|He].
    + apply Exists_exists in He as (j & Hj & ->). rewrite elem_of_seq in Hj. apply Hz. lia.
    + assert (Hox : other 0 (length ps) (cid ++ x)) by (intros j Hj E; apply He, Exists_exists; exists j; rewrite elem_of_seq; split; [lia|done]).
      rewrite (Ho _ Hox). cbn [h_vars with_vars]. rewrite Hst. case_decide; [done|]. by apply Hno.
Qed.

End Spec.
End OracleSpec.
