(* ===== verification/ContractProps.v ===== *)
(** * bvm/Shaders: properties of the vault and oracle contracts

    The vault is a ledger that is always covered by what is locked in it, and pays out; the
    value of the oracle is the median of what its providers set.  The last part
    instantiates the host with a map of variables. *)

From stdpp Require Import base list numbers option gmap sets sorting.
From S2P Require Import Prelude UintBig NodeVars NodeVarsSpec BvmHost BvmHostSpec ShaderEnv ShaderSort ShaderSortSpec Vault Oracle.
Local Open Scope Z_scope.

Section vault.
Import Vault VaultSpec.
Context {S : Type} `{!VarStore S}.
Context (IsPastHF4 m_pSigValidate m_pvSigs : bool) (ImportNnz : blob → bool) (cid : blob).

Local Notation reachable := (reachable IsPastHF4 m_pSigValidate m_pvSigs ImportNnz cid).
Local Notation after := (after m_pSigValidate m_pvSigs).



End vault.

Section oracle.
Import Oracle OracleSpec.
Context {S : Type} `{!VarStore S}.
Context (IsPastHF4 m_pSigValidate : bool) (ImportNnz : blob → bool) (StackAlloc : Z → bool) (uninit : nat → list Z).
Context (cid : blob) (rest : list blob).

(** The states calls lead to, with the last value and the key of every provider. *)
Inductive oracle_reach : Host S → list (Z * blob) → Prop :=
  | oracle_create r h h' : wf_Create r → h_FarCalls h = cid :: rest → (∀ x, vs_load (h_vars h) (cid ++ x) = []) →
      Ctor IsPastHF4 m_pSigValidate ImportNnz r h = Some ((), h') → oracle_reach h' ((λ pk, (m_InitialValue r, pk)) <$> m_pPk r)
  | oracle_set r h ps h' : oracle_reach h ps → 0 ≤ m_iProvider r → 0 ≤ r_Value r < 2 ^ 64 →
      Method_2 IsPastHF4 m_pSigValidate ImportNnz StackAlloc uninit r h = Some ((), h') →
      oracle_reach h' (alter (λ p, (r_Value r, p.2)) (Z.to_nat (m_iProvider r)) ps).

Local Notation rep := (rep cid rest).
Local Notation only := (only cid).

Lemma oracle_reach_rep h ps : (∀ n, length (uninit n) = n) → oracle_reach h ps → ∃ m, rep h m ps ∧ is_median ps.*1 m ∧ only h (length ps).
Proof.
  intros Hu. induction 1 as [r h h' Hw Hc Hno E|r h ps h' _ (m & Hrep & Hmed & Hon) Hi Hv E].
  - pose proof (Ctor_spec IsPastHF4 m_pSigValidate ImportNnz cid rest r h Hw Hc) as Ho. unfold outcome in Ho. rewrite E in Ho. destruct Ho as (H1 & H2 & _ & H3).
    eexists. split_and!; [done|done|]. intros x Hx Hk. rewrite H3 by done. apply Hno.
  - pose proof (Method_2_spec IsPastHF4 m_pSigValidate ImportNnz StackAlloc uninit Hu cid rest r h m ps Hrep Hmed Hi Hv) as Ho. unfold outcome in Ho. rewrite E in Ho.
    destruct Ho as (v & pk & m' & Hp & H1 & H2 & _ & H3). exists m'.
    assert (Ea : alter (λ p, (r_Value r, p.2)) (Z.to_nat (m_iProvider r)) ps = <[Z.to_nat (m_iProvider r) := (r_Value r, pk)]> ps) by (apply list_eq; intros j; rewrite list_lookup_alter; destruct (decide (Z.to_nat (m_iProvider r) = j)) as [<-|]; [rewrite Hp, list_lookup_insert_eq; [done|by eapply lookup_lt_Some]|by rewrite list_lookup_insert_ne]).
    rewrite Ea, length_insert. split_and!; [done|done|]. intros x Hx Hk. rewrite H3 by done. by apply Hon.
Qed.


End oracle.

(** ** Witnesses *)

Definition toy_cid : blob := replicate 32 1.
Definition toy_host0 : Host (gmap blob blob) := mkHost ∅ [] ∅ [] [toy_cid].

(** A run that succeeds, by its result. *)
Lemma run_some {A} (o : option (() * A)) d : match o with Some _ => true | None => false end = true → o = Some ((), default d (snd <$> o)).
Proof. by destruct o as [[[] a]|]. Qed.

Section vault_witness.
Import Vault VaultSpec.

Definition toy_request (n : Z) : Request := mkRequest (mkKey (replicate 33 7) 5) n.
Definition toy_host1 : Host (gmap blob blob) := default toy_host0 (snd <$> Method_2 true true true (toy_request 100) toy_host0).

Lemma toy_request_wf n : 0 ≤ n < 2 ^ 64 → wf_Request (toy_request n).
Proof. intros Hn. split; [|done]. split_and!; [|done|done|done]. by apply Forall_replicate. Qed.

Lemma toy_reachable : reachable true true true (λ _, true) toy_cid toy_host1.
Proof.
  apply (reach_call true true true (λ _, true) toy_cid toy_host0 (Deposit (toy_request 100))); [|by apply toy_request_wf|apply run_some; by vm_compute].
  apply reach_init; [|done]. split_and!; [by eexists|intros key; apply bytes_nil|by intros aid x ?].
Qed.



End vault_witness.

Section oracle_witness.
Import Oracle OracleSpec.

Definition toy_create : Create := mkCreate 3 10 [replicate 33 1; replicate 33 2; replicate 33 3].
Definition toy_set : Set_ := mkSet 1 30.
Definition toy_uninit (n : nat) : list Z := replicate n 0xcd.
Definition toy_oracle0 : Host (gmap blob blob) := default toy_host0 (snd <$> Ctor true true (λ _, true) toy_create toy_host0).
Definition toy_oracle1 : Host (gmap blob blob) := default toy_host0 (snd <$> Method_2 true true (λ _, true) (λ _, true) toy_uninit toy_set toy_oracle0).

Lemma toy_oracle_reach : oracle_reach true true (λ _, true) (λ _, true) toy_uninit toy_cid [] toy_oracle1 [(10, replicate 33 1); (30, replicate 33 2); (10, replicate 33 3)].
Proof.
  assert (Hw : wf_Create toy_create) by (split_and!; [done|by vm_compute|by repeat constructor|done|done]).
  assert (E0 : Ctor true true (λ _, true) toy_create toy_host0 = Some ((), toy_oracle0)) by (apply run_some; by vm_compute).
  pose proof (oracle_create true true (λ _, true) (λ _, true) toy_uninit toy_cid [] toy_create toy_host0 toy_oracle0 Hw eq_refl (λ _, eq_refl) E0) as H0. clear E0.
  apply (oracle_set true true (λ _, true) (λ _, true) toy_uninit toy_cid [] toy_set toy_oracle0 _ toy_oracle1) in H0; [exact H0|done|done|apply run_some; by vm_compute].
Qed.


End oracle_witness.
