(* ===== verification/NodeAssets.v ===== *)
(** * node/db.cpp: the table of assets

    An asset's ID is its row; the ID of a destroyed asset stays taken, by a row of its own
    behind [s_AssetEmpty0], until it is given out again or until every asset above it is gone.
    Deleting and adding are inverse to each other, which the undo of a block relies on. *)

From stdpp Require Import base list numbers option gmap sets.
From S2P Require Import Prelude.
Local Open Scope Z_scope.

Module NodeDB.

Definition s_MaxCount : Z := Z.shiftl 1 30.
Definition s_AssetEmpty0 : Z := s_MaxCount.

(** [Asset::Info]; the metadata's hash is computed from its value. *)
Record Info := mkInfo { m_Value : list Z; m_Owner : list Z; m_LockHeight : Z; m_Metadata : list Z }.

(** The table, [None] being a row without values, and the parameters [AssetsCount] and [AssetsCountUsed]. *)
Record t := mk { rows : gmap Z (option Info); AssetsCount : Z; AssetsCountUsed : Z }.

Definition set_rows (d : t) (r : gmap Z (option Info)) : t := mk r (AssetsCount d) (AssetsCountUsed d).
Definition set_count (d : t) (n : Z) : t := mk (rows d) n (AssetsCountUsed d).
Definition set_used (d : t) (n : Z) : t := mk (rows d) (AssetsCount d) n.

(** The ID of the asset of an owner, or 0. *)
Definition AssetFindByOwner (d : t) (owner : list Z) : Z :=
  foldr (λ '(id, r) acc, match r with Some ai => if decide (m_Owner ai = owner) then id else acc | None => acc end)
    0 (map_to_list (rows d)).

(** [TestChanged1Row] throws if there is no row to delete, SQLite if there is one to insert. *)
Definition AssetDeleteRaw (d : t) (id : Z) : option t :=
  match rows d !! id with Some _ => Some (set_rows d (delete id (rows d))) | None => None end.

Definition AssetInsertRaw (d : t) (id : Z) (pAi : option Info) : option t :=
  match rows d !! id with Some _ => None | None => Some (set_rows d (<[id := pAi]> (rows d))) end.

Definition AssetFindMinFree (d : t) (nMin : Z) : Z :=
  foldr (λ k acc, if nMin <=? k then if acc =? 0 then k else Z.min k acc else acc) 0 (map_to_list (rows d)).*1.

Fixpoint AssetAdd_loop (n : nat) (d : t) (id aidMin : Z) : option (t * Z) :=
  match n with
  | O => Some (d, id)
  | S n =>
    if id <? aidMin then
      d ← AssetInsertRaw d (u32 (id + s_AssetEmpty0)) None;
      AssetAdd_loop n d (u32 (id + 1)) aidMin
    else Some (d, id)
  end.

Definition AssetAdd (d : t) (aidMin : Z) (ai : Info) : option (t * Z) :=
  let m_ID := AssetFindMinFree d (u32 (aidMin + s_AssetEmpty0)) in
  '(d, m_ID) ← (if negb (m_ID =? 0) then
                  d ← AssetDeleteRaw d m_ID;
                  Some (d, u32 (m_ID - s_AssetEmpty0))
                else
                  let m_ID := u32 (AssetsCount d + 1) in
                  '(d, m_ID) ← AssetAdd_loop (Z.to_nat (aidMin - m_ID)) d m_ID aidMin;
                  Some (set_count d m_ID, m_ID));
  d ← AssetInsertRaw d m_ID (Some ai);
  Some (set_used d (AssetsCountUsed d + 1), m_ID).

Fixpoint AssetDelete_loop (n : nat) (d : t) (nCount : Z) : option (t * Z) :=
  let nCount := u32 (nCount - 1) in
  if nCount =? 0 then Some (d, nCount)
  else
    let id := u32 (nCount + s_AssetEmpty0) in
    if AssetFindMinFree d id =? 0 then Some (d, nCount)
    else
      d ← AssetDeleteRaw d id;
      match n with S n => AssetDelete_loop n d nCount | O => None end.

(** The new count, too. *)
Definition AssetDelete (d : t) (id : Z) : option (t * Z) :=
  d ← AssetDeleteRaw d id;
  let nCount := u32 (AssetsCount d) in
  '(d, nCount) ← (if nCount =? id then
                    '(d, nCount) ← AssetDelete_loop (Z.to_nat nCount) d nCount;
                    Some (set_count d nCount, nCount)
                  else
                    d ← AssetInsertRaw d (u32 (id + s_AssetEmpty0)) None;
                    Some (d, nCount));
  Some (set_used d (AssetsCountUsed d - 1), nCount).

(** Throws on a row without values ([get_BlobStrict]); otherwise whether there is an asset. *)
Definition AssetGetSafe (d : t) (id : Z) : option (option Info) :=
  match rows d !! id with Some None => None | Some (Some ai) => Some (Some ai) | None => Some None end.

(** The next asset behind [id]. *)
Definition AssetGetNext (d : t) (id : Z) : option (option (Z * Info)) :=
  let m_ID := AssetFindMinFree d (u32 (id + 1)) in
  if s_MaxCount <? m_ID then Some None
  else match AssetGetSafe d m_ID with Some (Some ai) => Some (Some (m_ID, ai)) | Some None => Some None | None => None end.

(** Called for assets only. *)
Definition AssetSetValue (d : t) (id : Z) (val : list Z) (hLockHeight : Z) : option t :=
  match rows d !! id with
  | Some (Some ai) => Some (set_rows d (<[id := Some (mkInfo val (m_Owner ai) hLockHeight (m_Metadata ai))]> (rows d)))
  | _ => None
  end.

End NodeDB.

Module NodeDBSpec.
Import NodeDB.

(** ** The next row *)

Lemma AssetFindMinFree_spec d nMin : (∀ k, is_Some (rows d !! k) → 0 < k) →
  let r := AssetFindMinFree d nMin in
  (r = 0 ∧ ∀ k, is_Some (rows d !! k) → k < nMin) ∨
  (0 < r ∧ nMin ≤ r ∧ is_Some (rows d !! r) ∧ ∀ k, is_Some (rows d !! k) → nMin ≤ k → r ≤ k).
Proof.
  intros Hpos. unfold AssetFindMinFree. cbv zeta.
  assert (Hdom : ∀ k, k ∈ (map_to_list (rows d)).*1 ↔ is_Some (rows d !! k)).
  { intros k. rewrite list_elem_of_fmap. split; [intros ((k' & v) & -> & Hin); apply elem_of_map_to_list in Hin; cbn; eauto|].
    intros [v E]. exists (k, v). split; [done|]. by apply elem_of_map_to_list. }
  setoid_rewrite <- Hdom. assert (Hp : ∀ k, k ∈ (map_to_list (rows d)).*1 → 0 < k) by (intros k ?%Hdom; auto). clear Hdom Hpos.
  induction (map_to_list (rows d)).*1 as [|k l IH]; cbn [foldr]; [left; split; [done|]; intros k Hk; by apply not_elem_of_nil in Hk|].
  set (acc := foldr _ 0 l) in *. assert (Hk : 0 < k) by (apply Hp; left).
  destruct IH as [[E0 Hall]|(Hr0 & Hr1 & Hr2 & Hr3)]; [intros k' Hk'; apply Hp; by right|..].
  - rewrite E0. cbn [Z.eqb]. destruct (Z.leb_spec nMin k).
    + right. split_and!; [done|done|left|]. intros k' [->|Hk']%elem_of_cons Hm; [lia|]. specialize (Hall k' Hk'). lia.
    + left. split; [done|]. intros k' [->|Hk']%elem_of_cons; [done|auto].
  - right. destruct (Z.eqb_spec acc 0); [lia|]. destruct (Z.leb_spec nMin k).
    + split_and!; [lia|lia|destruct (Z.min_spec k acc) as [[_ ->]|[_ ->]]; [left|by right]|].
      intros k' [->|Hk']%elem_of_cons Hm; [lia|]. specialize (Hr3 k' Hk' Hm). lia.
    + split_and!; [done|done|by right|]. intros k' [->|Hk']%elem_of_cons Hm; [lia|auto].
Qed.

(** ** The invariant of the table *)

(** Every ID up to the count is an asset or free, the last one is an asset, and there are no other rows. *)
Record wf (d : t) : Prop := {
  wf_count : 0 ≤ AssetsCount d ≤ s_MaxCount;
  wf_asset k ai : rows d !! k = Some (Some ai) → 1 ≤ k ≤ AssetsCount d;
  wf_free k : rows d !! k = Some None → s_AssetEmpty0 < k < s_AssetEmpty0 + AssetsCount d ∧ rows d !! (k - s_AssetEmpty0) = None;
  wf_each i : 1 ≤ i ≤ AssetsCount d → rows d !! i = None → rows d !! (s_AssetEmpty0 + i) = Some None;
  wf_last : 0 < AssetsCount d → rows d !! AssetsCount d ≠ None;
}.

Lemma wf_pos d k : wf d → is_Some (rows d !! k) → 0 < k.
Proof.
  intros [H1 H2 H3 _ _] [[ai|] E]; [specialize (H2 k ai E); lia|]. specialize (H3 k E). unfold s_AssetEmpty0, s_MaxCount in *. cbn in *. lia.
Qed.

Lemma wf_used_row d k : wf d → k ≤ s_AssetEmpty0 → is_Some (rows d !! k) → ∃ ai, rows d !! k = Some (Some ai).
Proof. intros [_ _ H3 _ _] Hk [[ai|] E]; [eauto|]. specialize (H3 k E). lia. Qed.

Lemma wf_free_row d k : wf d → s_AssetEmpty0 < k → is_Some (rows d !! k) → rows d !! k = Some None ∧ k < s_AssetEmpty0 + AssetsCount d.
Proof.
  intros [H1 H2 H3 _ _] Hk [[ai|] E]; [specialize (H2 k ai E); unfold s_AssetEmpty0 in *; lia|]. split; [done|]. by apply H3.
Qed.

Lemma set_rows_id d r : r = rows d → set_rows d r = d.
Proof. intros ->. by destruct d. Qed.

Lemma MaxCount_eq : s_MaxCount = 2 ^ 30.
Proof. done. Qed.

Lemma t_eq (d d' : t) : (∀ k, rows d !! k = rows d' !! k) → AssetsCount d = AssetsCount d' → AssetsCountUsed d = AssetsCountUsed d' → d = d'.
Proof. destruct d, d'. cbn. intros H -> ->. f_equal. by apply map_eq. Qed.

(** ** Adding behind the last ID *)

Lemma AssetAdd_loop_spec n d a : (∀ i, a ≤ i < a + Z.of_nat n → rows d !! (s_AssetEmpty0 + i) = None) →
  0 ≤ a → a + Z.of_nat n ≤ s_MaxCount →
  ∃ d', AssetAdd_loop n d a (a + Z.of_nat n) = Some (d', a + Z.of_nat n) ∧ AssetsCount d' = AssetsCount d ∧ AssetsCountUsed d' = AssetsCountUsed d ∧
    ∀ k, rows d' !! k = if decide (s_AssetEmpty0 + a ≤ k < s_AssetEmpty0 + a + Z.of_nat n) then Some None else rows d !! k.
Proof.
  unfold s_AssetEmpty0. rewrite MaxCount_eq. revert d a. induction n as [|n IH]; intros d a Hno Ha Hm; cbn [AssetAdd_loop].
  { exists d. rewrite Z.add_0_r. split_and!; [done|done|done|]. intros k. case_decide; [lia|done]. }
  destruct (Z.ltb_spec a (a + Z.of_nat (S n))); [|lia]. unfold AssetInsertRaw. unfold s_AssetEmpty0. rewrite MaxCount_eq.
  rewrite (u32_small (a + 2 ^ 30)), (Z.add_comm a (2 ^ 30)), (Hno a), (u32_small (a + 1)) by lia. cbn [mbind option_bind].
  destruct (IH (set_rows d (<[2 ^ 30 + a := None]> (rows d))) (a + 1)) as (d' & E & E1 & E2 & E3); [|lia|lia|].
  { intros i Hi. cbn. rewrite lookup_insert_ne by lia. apply Hno. lia. }
  replace (a + 1 + Z.of_nat n) with (a + Z.of_nat (S n)) in E by lia. exists d'. split_and!; [done|done|done|].
  intros k. rewrite E3. cbn [rows set_rows]. destruct (decide (k = 2 ^ 30 + a)) as [->|].
  - rewrite (decide_False (P := (2 ^ 30 + (a + 1) ≤ _ < _))), decide_True, lookup_insert_eq by lia. done.
  - rewrite lookup_insert_ne by done. repeat case_decide; done || lia.
Qed.

(** ** Deleting the last ID *)

(** The rows when the last of [c] IDs was deleted. *)
Record pre (d : t) (c : Z) : Prop := {
  pre_asset k ai : rows d !! k = Some (Some ai) → 1 ≤ k < c;
  pre_free k : rows d !! k = Some None → s_AssetEmpty0 < k < s_AssetEmpty0 + c ∧ rows d !! (k - s_AssetEmpty0) = None;
  pre_each i : 1 ≤ i < c → rows d !! i = None → rows d !! (s_AssetEmpty0 + i) = Some None;
}.

Lemma pre_pos d c k : pre d c → is_Some (rows d !! k) → 0 < k.
Proof. intros [H1 H2 _] [[ai|] E]; [specialize (H1 k ai E); lia|]. specialize (H2 k E). unfold s_AssetEmpty0 in *. rewrite MaxCount_eq in *. lia. Qed.

Lemma AssetDelete_loop_spec n d c : pre d c → 1 ≤ c ≤ s_MaxCount → c ≤ Z.of_nat n + 1 →
  ∃ d' m, AssetDelete_loop n d c = Some (d', m) ∧ AssetsCount d' = AssetsCount d ∧ AssetsCountUsed d' = AssetsCountUsed d ∧
    0 ≤ m < c ∧ (0 < m → rows d !! m ≠ None) ∧ (∀ i, m < i < c → rows d !! i = None ∧ rows d !! (s_AssetEmpty0 + i) = Some None) ∧
    ∀ k, rows d' !! k = if decide (s_AssetEmpty0 + m < k < s_AssetEmpty0 + c) then None else rows d !! k.
Proof.
  unfold s_AssetEmpty0 in *. rewrite MaxCount_eq. revert d c. induction n as [|n IH]; intros d c Hpre Hc Hn; cbn [AssetDelete_loop]; rewrite (u32_small (c - 1)) by lia.
  { destruct (Z.eqb_spec (c - 1) 0); [|lia]. exists d, (c - 1). split_and!; try done; try lia. intros k. case_decide; [lia|done]. }
  destruct (Z.eqb_spec (c - 1) 0) as [E0|E0].
  { exists d, (c - 1). split_and!; try done; try lia. intros k. case_decide; [lia|done]. }
  unfold s_AssetEmpty0. rewrite MaxCount_eq, (u32_small (c - 1 + 2 ^ 30)), (Z.add_comm (c - 1)) by lia. pose proof Hpre as [P1 P2 P3]. unfold s_AssetEmpty0 in *. rewrite MaxCount_eq in *.
  destruct (AssetFindMinFree_spec d (2 ^ 30 + (c - 1)) (λ k, pre_pos d c k Hpre)) as [[-> Hall]|(Hr0 & Hr1 & Hr2 & Hr3)].
  - cbn [Z.eqb]. exists d, (c - 1). assert (rows d !! (c - 1) ≠ None).
    { intros E%P3; [|lia]. specialize (Hall (2 ^ 30 + (c - 1)) ltac:(by eexists)). lia. }
    split_and!; try done; try lia. intros k. case_decide; [lia|done].
  - destruct (Z.eqb_spec (AssetFindMinFree d (2 ^ 30 + (c - 1))) 0); [lia|].
    assert (Hrow : rows d !! (2 ^ 30 + (c - 1)) = Some None ∧ rows d !! (c - 1) = None).
    { destruct Hr2 as [[ai|] E]; [specialize (P1 _ _ E); lia|]. pose proof (P2 _ E) as [? E'].
      replace (AssetFindMinFree d (2 ^ 30 + (c - 1))) with (2 ^ 30 + (c - 1)) in E, E' by lia. split; [done|].
      by replace (2 ^ 30 + (c - 1) - 2 ^ 30) with (c - 1) in E' by lia. }
    destruct Hrow as [Hf Hz]. unfold AssetDeleteRaw. rewrite Hf. cbn [mbind option_bind].
    destruct (IH (set_rows d (delete (2 ^ 30 + (c - 1)) (rows d))) (c - 1)) as (d' & m & E & E1 & E2 & Hm & Hm1 & Hm2 & Hm3); [split|lia|lia|].
    + cbn [rows set_rows]. intros k ai. rewrite lookup_delete_Some. intros [_ E]. specialize (P1 _ _ E). assert (k ≠ c - 1) by congruence. lia.
    + cbn [rows set_rows]. unfold s_AssetEmpty0. rewrite MaxCount_eq. intros k. rewrite lookup_delete_Some. intros [Hne E]. pose proof (P2 _ E) as [? E'].
      split; [lia|]. by rewrite lookup_delete_ne by lia.
    + cbn [rows set_rows]. unfold s_AssetEmpty0. rewrite MaxCount_eq. intros i Hi. rewrite !lookup_delete_ne by lia. apply P3. lia.
    + exists d', m. cbn [rows set_rows AssetsCount AssetsCountUsed] in *. split_and!; [done|done|done|lia|lia| | |].
      * intros Hm0. specialize (Hm1 Hm0). by rewrite lookup_delete_ne in Hm1 by lia.
      * intros i Hi. destruct (decide (i = c - 1)) as [->|]; [done|]. specialize (Hm2 i ltac:(lia)). by rewrite !lookup_delete_ne in Hm2 by lia.
      * intros k. rewrite Hm3. destruct (decide (k = 2 ^ 30 + (c - 1))) as [->|]; [rewrite lookup_delete_eq, (decide_True (P := (_ < _ < 2 ^ 30 + c))) by lia; by case_decide|].
        rewrite lookup_delete_ne by done. repeat case_decide; done || lia.
Qed.

(** ** Deleting and adding are inverse *)

(** [d'] is [d] without its last ID and the free ones before it, down to [m]. *)
Record cut (d d' : t) (m : Z) : Prop := {
  cut_range : 0 ≤ m < AssetsCount d;
  cut_count : AssetsCount d' = m;
  cut_used : AssetsCountUsed d' = AssetsCountUsed d - 1;
  cut_rows k : rows d' !! k = if decide (k = AssetsCount d ∨ s_AssetEmpty0 + m < k) then None else rows d !! k;
  cut_free i : m < i < AssetsCount d → rows d !! i = None ∧ rows d !! (s_AssetEmpty0 + i) = Some None;
  cut_last : 0 < m → rows d !! m ≠ None;
}.

Lemma AssetDelete_cut d ai : wf d → rows d !! AssetsCount d = Some (Some ai) →
  ∃ d' m, AssetDelete d (AssetsCount d) = Some (d', m) ∧ cut d d' m.
Proof.
  intros Hwf Hai. pose proof Hwf as [W1 W2 W3 W4 W5]. pose proof (W2 _ _ Hai) as Hc. set (c := AssetsCount d) in *.
  unfold AssetDelete, AssetDeleteRaw. rewrite Hai. cbn [mbind option_bind].
  change (AssetsCount (set_rows _ _)) with c. unfold s_AssetEmpty0 in *. rewrite MaxCount_eq in *. rewrite u32_small by lia. rewrite Z.eqb_refl.
  set (d1 := set_rows d (delete c (rows d))).
  assert (Hpre : pre d1 c).
  { split; cbn [rows set_rows d1]; unfold s_AssetEmpty0; rewrite ?MaxCount_eq.
    - intros k x. rewrite lookup_delete_Some. intros [? E]. specialize (W2 _ _ E). lia.
    - intros k. rewrite lookup_delete_Some. intros [? E]. pose proof (W3 _ E) as [? E']. split; [lia|]. by rewrite lookup_delete_ne by lia.
    - intros i Hi. rewrite !lookup_delete_ne by lia. apply W4. lia. }
  destruct (AssetDelete_loop_spec (Z.to_nat c) d1 c Hpre ltac:(rewrite MaxCount_eq; lia) ltac:(lia)) as (d2 & m & -> & E1 & E2 & Hm & Hm1 & Hm2 & Hm3).
  cbn [mbind option_bind]. unfold s_AssetEmpty0 in *. rewrite MaxCount_eq in *. exists (set_used (set_count d2 m) (AssetsCountUsed d2 - 1)), m. split; [done|].
  split; cbn [AssetsCount set_used set_count rows AssetsCountUsed]; unfold s_AssetEmpty0; rewrite ?MaxCount_eq; fold c; [done|done|by rewrite E2|..].
  - intros k. rewrite Hm3. cbn [rows set_rows d1]. destruct (decide (k = c)) as [->|].
    + rewrite lookup_delete_eq. repeat case_decide; done || lia.
    + rewrite lookup_delete_ne by done. repeat case_decide; try (done || lia).
      destruct (rows d !! k) as [[x|]|] eqn:Ek; [specialize (W2 _ _ Ek); lia|pose proof (W3 _ Ek); lia|done].
  - intros i Hi. specialize (Hm2 i Hi). cbn [rows set_rows d1] in Hm2. by rewrite !lookup_delete_ne in Hm2 by lia.
  - intros Hm0. specialize (Hm1 Hm0). cbn [rows set_rows d1] in Hm1. by rewrite lookup_delete_ne in Hm1 by lia.
Qed.

Lemma cut_wf d d' m : wf d → cut d d' m → wf d'.
Proof.
  intros [W1 W2 W3 W4 W5] [C1 C2 C3 C4 C5 C6]. unfold s_AssetEmpty0 in *. rewrite MaxCount_eq in *.
  split; rewrite ?C2; unfold s_AssetEmpty0; rewrite ?MaxCount_eq.
  - lia.
  - intros k x. rewrite C4. case_decide as Hd; [done|]. intros Ek. pose proof (W2 _ _ Ek). destruct (decide (m < k)); [|lia]. destruct (C5 k ltac:(lia)). congruence.
  - intros k. rewrite C4. case_decide as Hd; [done|]. intros Ek. pose proof (W3 _ Ek) as [? E']. split.
    + destruct (decide (m = 0)); [lia|]. destruct (decide (k = 2 ^ 30 + m)) as [->|]; [|lia]. exfalso. apply C6; [lia|].
      by replace (2 ^ 30 + m - 2 ^ 30) with m in E' by lia.
    + rewrite C4. by case_decide.
  - intros i Hi. rewrite !C4. repeat case_decide; try lia. apply W4. lia.
  - intros Hm0. rewrite C4. case_decide; [lia|]. by apply C6.
Qed.

Lemma AssetAdd_cut d d' m ai : wf d → cut d d' m → rows d !! AssetsCount d = Some (Some ai) →
  AssetAdd d' (AssetsCount d) ai = Some (d, AssetsCount d).
Proof.
  intros Hwf Hcut Hai. pose proof (cut_wf _ _ _ Hwf Hcut) as Hwf'. destruct Hwf as [W1 W2 W3 W4 W5], Hcut as [C1 C2 C3 C4 C5 C6].
  set (c := AssetsCount d) in *. unfold s_AssetEmpty0 in *. rewrite MaxCount_eq in *. unfold AssetAdd, s_AssetEmpty0. rewrite MaxCount_eq, (u32_small (c + 2 ^ 30)) by lia.
  destruct (AssetFindMinFree_spec d' (c + 2 ^ 30) (λ k, wf_pos _ k Hwf')) as [[-> _]|(_ & Hr1 & [x Hr2] & _)].
  2: { rewrite C4 in Hr2. case_decide; [done|lia]. }
  cbn [Z.eqb negb]. rewrite C2, (u32_small (m + 1)) by lia.
  destruct (AssetAdd_loop_spec (Z.to_nat (c - (m + 1))) d' (m + 1)) as (d3 & E3 & F1 & F2 & F3); [|lia|rewrite MaxCount_eq; lia|].
  { intros i Hi. unfold s_AssetEmpty0. rewrite MaxCount_eq, C4. case_decide; [done|lia]. }
  replace (m + 1 + Z.of_nat (Z.to_nat (c - (m + 1)))) with c in E3 by lia. cbv zeta. rewrite E3. cbn [mbind option_bind].
  unfold s_AssetEmpty0 in F3. rewrite MaxCount_eq in F3. unfold AssetInsertRaw. cbn [rows set_count].
  assert (Hz : rows d3 !! c = None) by (rewrite F3, C4; repeat case_decide; done || lia).
  rewrite Hz. cbn [mbind option_bind]. do 2 f_equal. apply t_eq; cbn [rows AssetsCount AssetsCountUsed set_used set_count set_rows]; [|done|lia].
  intros k. destruct (decide (k = c)) as [->|]; [by rewrite lookup_insert_eq|]. rewrite lookup_insert_ne, F3, C4 by done.
  repeat case_decide; try (done || lia).
  - replace k with (2 ^ 30 + (k - 2 ^ 30)) by lia. symmetry. apply C5. lia.
  - destruct (rows d !! k) as [[x|]|] eqn:Ek; [specialize (W2 _ _ Ek); lia|pose proof (W3 _ Ek); lia|done].
Qed.

Lemma AssetDelete_mid d id ai : wf d → rows d !! id = Some (Some ai) → id < AssetsCount d →
  AssetDelete d id = Some (mk (<[s_AssetEmpty0 + id := None]> (delete id (rows d))) (AssetsCount d) (AssetsCountUsed d - 1), AssetsCount d).
Proof.
  intros Hwf Hai Hlt. pose proof Hwf as [W1 W2 W3 W4 W5]. pose proof (W2 _ _ Hai) as Hid. unfold AssetDelete, AssetDeleteRaw. rewrite Hai. cbn [mbind option_bind].
  cbn [AssetsCount set_rows]. unfold s_AssetEmpty0 in *. rewrite MaxCount_eq in *. rewrite (u32_small (AssetsCount d)) by lia.
  destruct (Z.eqb_spec (AssetsCount d) id); [lia|]. unfold AssetInsertRaw, s_AssetEmpty0. rewrite ?MaxCount_eq, (u32_small (id + 2 ^ 30)), (Z.add_comm id) by lia. cbn [rows set_rows].
  rewrite lookup_delete_ne by lia. destruct (rows d !! (2 ^ 30 + id)) as [[x|]|] eqn:E; [specialize (W2 _ _ E); lia| |done].
  destruct (W3 _ E) as [_ E']. replace (2 ^ 30 + id - 2 ^ 30) with id in E' by lia. congruence.
Qed.

(** Whatever asset is deleted, adding it again under its ID gives the same table. *)
Lemma AssetDelete_spec d id ai : wf d → rows d !! id = Some (Some ai) →
  ∃ d', AssetDelete d id = Some (d', AssetsCount d') ∧ wf d' ∧ AssetsCountUsed d' = AssetsCountUsed d - 1 ∧ AssetsCount d' ≤ AssetsCount d ∧
    (∀ k, k ≤ s_AssetEmpty0 → rows d' !! k = if decide (k = id) then None else rows d !! k) ∧ AssetAdd d' id ai = Some (d, id).
Proof.
  intros Hwf Hai. pose proof (wf_asset _ Hwf _ _ Hai) as Hid. destruct (decide (id = AssetsCount d)) as [->|Hne].
  { destruct (AssetDelete_cut d ai Hwf Hai) as (d' & m & E & Hcut). pose proof (cut_wf _ _ _ Hwf Hcut) as Hwf'. pose proof (cut_range _ _ _ Hcut).
    exists d'. rewrite E, <- (cut_count _ _ _ Hcut). split_and!; [done|done|by eapply cut_used|rewrite (cut_count _ _ _ Hcut); lia| |by eapply AssetAdd_cut].
    intros k Hk. rewrite (cut_rows _ _ _ Hcut). repeat case_decide; done || lia. }
  assert (Hlt : id < AssetsCount d) by lia. rewrite (AssetDelete_mid _ _ _ Hwf Hai Hlt). pose proof Hwf as [W1 W2 W3 W4 W5].
  unfold s_AssetEmpty0 in *. rewrite MaxCount_eq in *.
  set (r := <[2 ^ 30 + id := None]> (delete id (rows d))). exists (mk r (AssetsCount d) (AssetsCountUsed d - 1)). split; [done|]. cbn [AssetsCount AssetsCountUsed rows].
  assert (Hr : ∀ k, r !! k = if decide (k = id) then None else if decide (k = 2 ^ 30 + id) then Some None else rows d !! k).
  { intros k. unfold r. destruct (decide (k = 2 ^ 30 + id)) as [->|]; [by rewrite lookup_insert_eq, decide_False by lia|].
    rewrite lookup_insert_ne by done. destruct (decide (k = id)) as [->|]; [by rewrite lookup_delete_eq|by rewrite lookup_delete_ne]. }
  assert (Hwf' : wf (mk r (AssetsCount d) (AssetsCountUsed d - 1))).
  { split; cbn [AssetsCount rows]; unfold s_AssetEmpty0; rewrite ?MaxCount_eq.
    - lia.
    - intros k x. rewrite Hr. repeat case_decide; try done. by apply W2.
    - intros k. rewrite (Hr k). case_decide; [done|]. destruct (decide (k = 2 ^ 30 + id)) as [->|].
      + intros _. split; [lia|]. rewrite Hr, decide_True by lia. done.
      + intros E. destruct (W3 _ E). split; [lia|]. rewrite Hr. repeat case_decide; done || lia.
    - intros i Hi. rewrite !Hr. repeat case_decide; subst; try done; try lia. by apply W4.
    - intros Hc. rewrite Hr. repeat case_decide; try done; try lia. by apply W5. }
  split_and!; [done|done|lia|intros k Hk; rewrite Hr; repeat case_decide; done || lia|].
  unfold AssetAdd, s_AssetEmpty0. rewrite MaxCount_eq, (u32_small (id + 2 ^ 30)), (Z.add_comm id) by lia.
  assert (Hin : is_Some (r !! (2 ^ 30 + id))) by (rewrite Hr, decide_False, decide_True by lia; by eexists).
  destruct (AssetFindMinFree_spec (mk r (AssetsCount d) (AssetsCountUsed d - 1)) (2 ^ 30 + id) (λ k, wf_pos _ k Hwf')) as [[_ Ha]|(H0 & H1 & H2 & H3)]; cbn [rows] in *.
  { specialize (Ha _ Hin). lia. }
  specialize (H3 _ Hin ltac:(lia)). replace (AssetFindMinFree _ _) with (2 ^ 30 + id) by lia. destruct (Z.eqb_spec (2 ^ 30 + id) 0); [lia|]. cbn [negb].
  unfold AssetDeleteRaw. cbn [rows]. destruct Hin as [x ->]. cbn [mbind option_bind]. rewrite u32_small by lia. replace (2 ^ 30 + id - 2 ^ 30) with id by lia.
  unfold AssetInsertRaw. cbn [rows set_rows]. rewrite lookup_delete_ne, Hr, decide_True by lia. cbn [mbind option_bind]. do 2 f_equal.
  apply t_eq; cbn [rows AssetsCount AssetsCountUsed set_used set_rows]; [|done|lia]. intros k. destruct (decide (k = id)) as [->|]; [by rewrite lookup_insert_eq|].
  rewrite lookup_insert_ne by done. destruct (decide (k = 2 ^ 30 + id)) as [->|]; [rewrite lookup_delete_eq|by rewrite lookup_delete_ne, Hr, !decide_False by done].
  destruct (rows d !! (2 ^ 30 + id)) as [[y|]|] eqn:E; [specialize (W2 _ _ E); lia| |done].
  destruct (W3 _ E) as [_ E']. replace (2 ^ 30 + id - 2 ^ 30) with id in E' by lia. congruence.
Qed.

(** A new asset gets a free ID, the least one or the one behind the last; deleting it again gives the same table. *)
Lemma AssetAdd_reuse d ai r : wf d → rows d !! r = Some None →
  let d' := mk (<[r - s_AssetEmpty0 := Some ai]> (delete r (rows d))) (AssetsCount d) (AssetsCountUsed d + 1) in
  wf d' ∧ AssetDelete d' (r - s_AssetEmpty0) = Some (d, AssetsCount d).
Proof.
  intros Hwf Hr d'. pose proof Hwf as [W1 W2 W3 W4 W5]. pose proof (W3 _ Hr) as [Hb Hz].
  assert (Hrows : ∀ k, rows d' !! k = if decide (k = r - s_AssetEmpty0) then Some (Some ai) else if decide (k = r) then None else rows d !! k).
  { intros k. cbn [rows d']. destruct (decide (k = r - s_AssetEmpty0)) as [->|]; [by rewrite lookup_insert_eq|]. rewrite lookup_insert_ne by done.
    destruct (decide (k = r)) as [->|]; [by rewrite lookup_delete_eq|by rewrite lookup_delete_ne]. }
  unfold s_AssetEmpty0 in *. rewrite MaxCount_eq in *. assert (Hwf' : wf d').
  { split; unfold s_AssetEmpty0; rewrite ?MaxCount_eq; change (AssetsCount d') with (AssetsCount d).
    - lia.
    - intros k x. rewrite Hrows. repeat case_decide; try done; [lia|]. by apply W2.
    - intros k. rewrite (Hrows k). repeat case_decide; try done. intros E. destruct (W3 _ E). split; [lia|]. rewrite Hrows. repeat case_decide; done || lia.
    - intros i Hi. rewrite !Hrows. repeat case_decide; try done; try lia. by apply W4.
    - intros Hc. rewrite Hrows. repeat case_decide; try done; try lia. by apply W5. }
  split; [done|]. rewrite (AssetDelete_mid d' _ ai); [|done|by rewrite Hrows, decide_True|cbn; lia]. do 2 f_equal.
  apply t_eq; cbn [rows AssetsCount AssetsCountUsed d']; [|done|lia]. unfold s_AssetEmpty0. rewrite MaxCount_eq. intros k.
  replace (2 ^ 30 + (r - 2 ^ 30)) with r by lia. destruct (decide (k = r)) as [->|]; [by rewrite lookup_insert_eq|]. rewrite lookup_insert_ne by done.
  destruct (decide (k = r - 2 ^ 30)) as [->|]; [by rewrite lookup_delete_eq|]. by rewrite lookup_delete_ne, lookup_insert_ne, lookup_delete_ne by done.
Qed.

Lemma AssetAdd_new d ai : wf d → AssetsCount d < s_MaxCount → (∀ k, rows d !! k ≠ Some None) →
  let d' := mk (<[AssetsCount d + 1 := Some ai]> (rows d)) (AssetsCount d + 1) (AssetsCountUsed d + 1) in
  wf d' ∧ AssetDelete d' (AssetsCount d + 1) = Some (d, AssetsCount d).
Proof.
  intros Hwf Hc Hno d'. pose proof Hwf as [W1 W2 W3 W4 W5]. set (c := AssetsCount d) in *.
  assert (Hnew : rows d !! (c + 1) = None).
  { destruct (rows d !! (c + 1)) as [[x|]|] eqn:E; [specialize (W2 _ _ E); lia|by apply Hno in E|done]. }
  assert (Hwf' : wf d').
  { split; cbn [AssetsCount rows d'].
    - lia.
    - intros k x. rewrite lookup_insert_Some. intros [[<- _]|[_ E]]; [lia|]. specialize (W2 _ _ E). lia.
    - intros k. rewrite lookup_insert_Some. intros [[_ ?]|[_ E]]; [done|]. by apply Hno in E.
    - intros i Hi E. destruct (decide (i = c + 1)) as [->|]; [by rewrite lookup_insert_eq in E|]. rewrite lookup_insert_ne in E by lia.
      apply W4 in E; [|lia]. by apply Hno in E.
    - intros _. by rewrite lookup_insert_eq. }
  split; [done|]. destruct (AssetDelete_cut d' ai Hwf') as (d2 & m & E & [C1 C2 C3 C4 C5 C6]); [cbn; apply lookup_insert_eq|].
  change (AssetsCount d') with (c + 1) in *. rewrite E.
  assert (m = c) as ->.
  { destruct (decide (m = c)); [done|]. destruct (C5 c ltac:(lia)) as [E1 _]. cbn [rows d'] in E1. rewrite lookup_insert_ne in E1 by lia. by apply W5 in E1; [|lia]. }
  do 2 f_equal. apply t_eq; [|done|cbn in C3; lia]. intros k. rewrite C4. cbn [rows d']. case_decide as Hk.
  - destruct Hk as [->|Hk]; [done|]. destruct (rows d !! k) as [[x|]|] eqn:Ek; [specialize (W2 _ _ Ek); unfold s_AssetEmpty0 in *; lia|by apply Hno in Ek|done].
  - rewrite lookup_insert_ne; [done|]. intros <-. by apply Hk; left.
Qed.

Lemma AssetAdd_spec d ai : wf d → AssetsCount d < s_MaxCount →
  ∃ d' id, AssetAdd d 0 ai = Some (d', id) ∧ wf d' ∧ 1 ≤ id ≤ AssetsCount d' ∧ AssetsCountUsed d' = AssetsCountUsed d + 1 ∧
    AssetsCount d ≤ AssetsCount d' ≤ AssetsCount d + 1 ∧ rows d !! id = None ∧
    (∀ k, k ≤ s_AssetEmpty0 → rows d' !! k = if decide (k = id) then Some (Some ai) else rows d !! k) ∧
    AssetDelete d' id = Some (d, AssetsCount d).
Proof.
  intros Hwf Hc. pose proof Hwf as [W1 W2 W3 W4 W5]. unfold AssetAdd, s_AssetEmpty0 in *. rewrite MaxCount_eq in *. rewrite Z.add_0_l, (u32_small (2 ^ 30)) by lia.
  destruct (AssetFindMinFree_spec d (2 ^ 30) (λ k, wf_pos _ k Hwf)) as [[-> Hall]|(Hr0 & Hr1 & Hr2 & _)].
  - assert (Hno : ∀ k, rows d !! k ≠ Some None) by (intros k E; specialize (Hall k ltac:(by eexists)); pose proof (W3 _ E); lia).
    pose proof (AssetAdd_new d ai Hwf ltac:(rewrite MaxCount_eq; lia) Hno) as [Hwf' Hdel]. cbn [Z.eqb negb]. cbv zeta. rewrite (u32_small (AssetsCount d + 1)) by lia.
    replace (Z.to_nat (0 - (AssetsCount d + 1))) with 0%nat by lia. cbn [AssetAdd_loop mbind option_bind]. unfold AssetInsertRaw. cbn [rows set_count].
    assert (Hnew : rows d !! (AssetsCount d + 1) = None) by (destruct (rows d !! (AssetsCount d + 1)) as [[x|]|] eqn:E; [specialize (W2 _ _ E); lia|by apply Hno in E|done]).
    rewrite Hnew. cbn [mbind option_bind]. eexists _, _. split; [done|]. cbn [set_used set_rows set_count rows AssetsCount AssetsCountUsed].
    split_and!; [done|lia|lia|done|lia|lia|done| |done]. intros k _. case_decide; [subst; by rewrite lookup_insert_eq|by rewrite lookup_insert_ne].
  - set (r := AssetFindMinFree d (2 ^ 30)) in *. destruct (Z.eqb_spec r 0); [lia|]. cbn [negb].
    assert (Hfr : rows d !! r = Some None) by (destruct Hr2 as [[x|] E]; [specialize (W2 _ _ E); lia|done]).
    pose proof (W3 _ Hfr) as [Hb Hz]. pose proof (AssetAdd_reuse d ai r Hwf Hfr) as [Hwf' Hdel]. unfold s_AssetEmpty0 in *. rewrite MaxCount_eq in *.
    unfold AssetDeleteRaw. rewrite Hfr. cbn [mbind option_bind]. rewrite u32_small by lia. unfold AssetInsertRaw. cbn [rows set_rows].
    rewrite lookup_delete_ne, Hz by lia. cbn [mbind option_bind]. eexists _, _. split; [done|]. cbn [set_used set_rows rows AssetsCount AssetsCountUsed].
    split_and!; [done|lia|lia|done|lia|lia|done| |done]. intros k Hk. case_decide; [subst; by rewrite lookup_insert_eq|]. by rewrite lookup_insert_ne, lookup_delete_ne by lia.
Qed.

(** ** The number of assets *)

Definition reals (d : t) : gmap Z Info := omap id (rows d).

(** [AssetsCountUsed] is the number of assets. *)
Definition counted (d : t) : Prop := AssetsCountUsed d = Z.of_nat (size (reals d)).

Lemma lookup_reals d k : reals d !! k = rows d !! k ≫= id.
Proof. apply lookup_omap. Qed.

Lemma reals_upd d d' i (x : option Info) : wf d → wf d' → i ≤ s_AssetEmpty0 →
  (∀ k, k ≤ s_AssetEmpty0 → rows d' !! k = if decide (k = i) then Some <$> x else rows d !! k) →
  reals d' = partial_alter (λ _, x) i (reals d).
Proof.
  intros Hwf Hwf' Hi Hrows. apply map_eq. intros k. rewrite lookup_reals. destruct (decide (k ≤ s_AssetEmpty0)) as [Hk|Hk].
  - rewrite Hrows by done. case_decide as E; [subst; rewrite lookup_partial_alter_eq; by destruct x|].
    by rewrite lookup_partial_alter_ne, lookup_reals by done.
  - rewrite lookup_partial_alter_ne, lookup_reals by lia. pose proof (wf_count _ Hwf). pose proof (wf_count _ Hwf'). unfold s_AssetEmpty0 in *.
    transitivity (None (A := Info)); [|symmetry].
    + destruct (rows d' !! k) as [[y|]|] eqn:E; [|done..]. pose proof (wf_asset _ Hwf' _ _ E). lia.
    + destruct (rows d !! k) as [[y|]|] eqn:E; [|done..]. pose proof (wf_asset _ Hwf _ _ E). lia.
Qed.

Lemma counted_add d d' i ai : wf d → wf d' → i ≤ s_AssetEmpty0 → rows d !! i = None → AssetsCountUsed d' = AssetsCountUsed d + 1 →
  (∀ k, k ≤ s_AssetEmpty0 → rows d' !! k = if decide (k = i) then Some (Some ai) else rows d !! k) → counted d → counted d'.
Proof.
  intros Hwf Hwf' Hi Hnew Hu Hrows Hc. unfold counted in *. rewrite (reals_upd d d' i (Some ai)), Hu, Hc by done.
  change (partial_alter _ i _) with (<[i := ai]> (reals d)). rewrite map_size_insert_None; [lia|]. by rewrite lookup_reals, Hnew.
Qed.

Lemma counted_del d d' i ai : wf d → wf d' → i ≤ s_AssetEmpty0 → rows d !! i = Some (Some ai) → AssetsCountUsed d' = AssetsCountUsed d - 1 →
  (∀ k, k ≤ s_AssetEmpty0 → rows d' !! k = if decide (k = i) then None else rows d !! k) → counted d → counted d' ∧ 0 < AssetsCountUsed d.
Proof.
  intros Hwf Hwf' Hi Hold Hu Hrows Hc. unfold counted in *. rewrite (reals_upd d d' i None), Hu, Hc by done.
  assert (Hr : reals d !! i = Some ai) by by rewrite lookup_reals, Hold.
  change (partial_alter _ i _) with (delete i (reals d)). rewrite map_size_delete_Some by by eexists.
  assert (size (reals d) ≠ 0%nat) by (rewrite map_size_ne_0_lookup; by exists i, ai). lia.
Qed.

Lemma counted_range d : wf d → counted d → 0 ≤ AssetsCountUsed d ≤ AssetsCount d.
Proof.
  intros Hwf ->. split; [lia|]. rewrite <- size_dom. pose proof (wf_count _ Hwf).
  assert (Hsub : dom (reals d) ⊆ list_to_set (C := gset Z) (seqZ 1 (AssetsCount d))).
  { intros k [x Hk]%elem_of_dom. rewrite lookup_reals in Hk. apply elem_of_list_to_set, elem_of_seqZ. destruct (rows d !! k) as [[y|]|] eqn:E; [|done..].
    pose proof (wf_asset _ Hwf _ _ E). lia. }
  apply subseteq_size in Hsub. rewrite size_list_to_set, length_seqZ in Hsub by apply NoDup_seqZ. lia.
Qed.

End NodeDBSpec.
