(* ===== verification/NodeStream.v ===== *)
(** * node/db.cpp: mountain ranges kept in the database

    [NodeDB::StreamMmr] keeps the nodes of a mountain range in a stream, a table of blobs of
    1 MB, with a cache of the last node used on every level.  The cache is transparent, so
    that the stream is a store for [Merkle.Mmr]. *)

From stdpp Require Import base list numbers option gmap.
From S2P Require Import Prelude Merkle MerkleStores.
Local Open Scope Z_scope.

Module StreamMmr.
Section stream.

Context {Hash : Type} `{Hasher Hash}.
Context (m_hStoreFrom : nat).

(** The blobs of the stream, hash by hash; what was not written is zero. *)
Record t := mk {
  m_Blobs : Z;
  m_Stream : gmap Z Hash;
  m_pCache : list (Z * Hash);
  m_LastOut : Position * Hash;
}.

Definition s_StreamBlob : Z := 1024 * 1024.
Definition nHashBytes : Z := 32.
Definition no_X : Z := u64 (-1).

(** The constructor; [uninit] is what the entries hold at first. *)
Definition init (uninit : Hash) : t := mk 0 ∅ (replicate 64 (no_X, uninit)) (mkPos HMax no_X, uninit).

Definition set_stream (s : t) (m : gmap Z Hash) : t := mk (m_Blobs s) m (m_pCache s) (m_LastOut s).

(** [StreamIO] of one hash: it lies within one blob, which has to exist. *)
Definition StreamRead (s : t) (i : Z) : option Hash :=
  if i * nHashBytes / s_StreamBlob <? m_Blobs s then Some (default hZero (m_Stream s !! i)) else None.

Definition StreamWrite (s : t) (i : Z) (hv : Hash) : option t :=
  if i * nHashBytes / s_StreamBlob <? m_Blobs s then Some (set_stream s (<[i := hv]> (m_Stream s))) else None.

(** New blobs are zero; the first blob to be inserted must not exist, and those to be deleted
    must.  (Blobs inserted behind a missing one are left out: [None].) *)
Definition StreamResize (s : t) (n n0 : Z) : option t :=
  let nBlobs0 := (n0 + s_StreamBlob - 1) / s_StreamBlob in
  let nBlobs1 := (n + s_StreamBlob - 1) / s_StreamBlob in
  if decide (nBlobs0 = nBlobs1) then Some s
  else if decide (m_Blobs s = nBlobs0) then
    Some (mk nBlobs1 (filter (λ '(i, _), i * nHashBytes / s_StreamBlob < nBlobs1) (m_Stream s)) (m_pCache s) (m_LastOut s))
  else None.

Definition CacheFind (s : t) (pos : Position) : option Hash :=
  match m_pCache s !! pos_H pos with
  | Some (m_X, m_Value) =>
    if m_X =? pos_X pos then Some m_Value
    else if decide (fst (m_LastOut s) = pos) then Some (snd (m_LastOut s)) else None
  | None => if decide (fst (m_LastOut s) = pos) then Some (snd (m_LastOut s)) else None
  end.

Definition CacheAdd (s : t) (hv : Hash) (pos : Position) : t :=
  match m_pCache s !! pos_H pos with
  | Some (m_X, m_Value) =>
    mk (m_Blobs s) (m_Stream s) (<[pos_H pos := (pos_X pos, hv)]> (m_pCache s))
       (if negb (m_X =? pos_X pos) && negb (m_X =? no_X) then (mkPos (pos_H pos) m_X, m_Value) else m_LastOut s)
  | None => s
  end.

Definition LoadElement (s : t) (pos : Position) : option (Hash * t) :=
  match CacheFind s pos with
  | Some hv => Some (hv, s)
  | None =>
    i ← FlatMmr.Pos2Idx pos m_hStoreFrom;
    hv ← StreamRead s i;
    Some (hv, CacheAdd s hv pos)
  end.

Definition SaveElement (s : t) (hv : Hash) (pos : Position) : option t :=
  i ← FlatMmr.Pos2Idx pos m_hStoreFrom;
  s ← StreamWrite s i hv;
  Some (CacheAdd s hv pos).

(** The stream as a store: what a load leaves in the cache is not looked at, see [load_transparent]. *)
#[local] Instance StreamMmr_store : MmrStore Hash t | 100 := {
  Merkle.LoadElement s pos := fst <$> LoadElement s pos;
  Merkle.SaveElement := SaveElement;
}.

Definition ResizeTo (m : Mmr.t t) (nCount : Z) : option (Mmr.t t) :=
  n ← FlatMmr.get_TotalHashes nCount m_hStoreFrom;
  n0 ← FlatMmr.get_TotalHashes (Mmr.m_Count m) m_hStoreFrom;
  s ← StreamResize (Mmr.m_Store m) (n * nHashBytes) (n0 * nHashBytes);
  Some (Mmr.mk nCount s).

Definition Append (m : Mmr.t t) (hv : Hash) : option (Mmr.t t) :=
  let n := Mmr.m_Count m in
  m ← ResizeTo m (u64 (n + 1));
  Mmr.Replace m n hv.

Definition ShrinkTo (m : Mmr.t t) (nCount : Z) : option (Mmr.t t) := ResizeTo m nCount.

End stream.
#[global] Arguments t _ : clear implicits.

(** All levels are stored, as for the assets. *)
#[global] Instance StreamMmr_store0 {Hash} `{Hasher Hash} : MmrStore Hash (t Hash) := StreamMmr_store 0.
End StreamMmr.

Module StreamMmrSpec.
Import StreamMmr.
Section spec.

Context {Hash : Type} `{Hasher Hash}.
Notation t := (t Hash).

(** What the stream holds, past the cache. *)
Definition stored (s : t) (p : Position) : option Hash := i ← FlatMmr.Pos2Idx p 0; StreamRead s i.

(** The cache agrees with the stream at the positions of [N] elements other than [bad]; the
    last element that left it may be older if it is in the cache again. *)
Record coherent (s : t) (N : Z) (bad : Position → Prop) : Prop := {
  co_size : length (m_pCache s) = 64%nat;
  co_cache h x v : m_pCache s !! h = Some (x, v) → fits N (mkPos h x) → ¬ bad (mkPos h x) → stored s (mkPos h x) = Some v;
  co_last : let p := fst (m_LastOut s) in fits N p → ¬ bad p →
    (∃ v, m_pCache s !! pos_H p = Some (pos_X p, v)) ∨ stored s p = Some (snd (m_LastOut s));
}.

(** Blobs for [N] elements. *)
Definition capacity (s : t) (N : Z) : Prop := 0 ≤ N ≤ 2 ^ 62 ∧ total N 0 * nHashBytes ≤ m_Blobs s * s_StreamBlob.

(** Nothing is stored outside the blobs. *)
Definition in_blobs (s : t) : Prop := map_Forall (λ i _, i * nHashBytes / s_StreamBlob < m_Blobs s) (m_Stream s).

Definition stream_room (s : t) (N : Z) (bad : Position → Prop) : Prop := (capacity s N ∧ in_blobs s) ∧ coherent s N bad.

Lemma coherent_mono s N (bad bad' : Position → Prop) : (∀ q, fits N q → bad q → bad' q) → coherent s N bad → coherent s N bad'.
Proof. intros Hb [Hs Hc Hl]. split; [done|intros h x v E Hf Hn; apply Hc; auto|intros p Hf Hn; apply Hl; auto]. Qed.

Lemma capacity_mono s N n : capacity s N → 0 ≤ n → n ≤ N → capacity s n.
Proof. intros [HN Hc] ? ?. split; [lia|]. pose proof (total_mono n N 0 ltac:(lia)). unfold nHashBytes in *. lia. Qed.

Lemma capacity_idx s N p : capacity s N → fits N p →
  ∃ i, FlatMmr.Pos2Idx p 0 = Some i ∧ (i * nHashBytes / s_StreamBlob <? m_Blobs s) = true.
Proof.
  intros [HN Hc] Hp. destruct (Pos2Idx_fits N p 0) as (i & Ei & Hi); [lia|done|lia|]. exists i. split; [done|]. apply Z.ltb_lt.
  unfold nHashBytes, s_StreamBlob in *. apply Z.div_lt_upper_bound; lia.
Qed.

Lemma fits_H N p : 0 ≤ N ≤ 2 ^ 62 → fits N p → (pos_H p < 64)%nat ∧ pos_X p ≠ no_X.
Proof.
  intros HN [Hx Hp]. assert (2 ^ Z.of_nat (pos_H p) ≤ N) by (pose proof (pow2_pos (pos_H p)); nia). split.
  - destruct (decide (pos_H p < 64)%nat); [done|]. assert (2 ^ 64 ≤ 2 ^ Z.of_nat (pos_H p)) by (apply Z.pow_le_mono_r; lia). lia.
  - intros E. rewrite E in Hp. change no_X with (2 ^ 64 - 1) in Hp. pose proof (pow2_pos (pos_H p)). nia.
Qed.

(** What the cache gives is what the stream holds. *)
Lemma CacheFind_stored s N bad p v : stream_room s N bad → fits N p → ¬ bad p → CacheFind s p = Some v → stored s p = Some v.
Proof.
  intros [[Hcap _] [Hs Hc Hl]] Hp Hb. unfold CacheFind. destruct p as [h x]. cbn [pos_H pos_X].
  assert (Hlast : ∀ e, m_pCache s !! h = e → (∀ w, e ≠ Some (x, w)) →
    (if decide (fst (m_LastOut s) = mkPos h x) then Some (snd (m_LastOut s)) else None) = Some v → stored s (mkPos h x) = Some v).
  { intros e Ee Hne. case_decide as E; [|done]. intros [= <-]. rewrite <- E in *. destruct (Hl Hp Hb) as [[w Ew]|Hst]; [|done].
    rewrite E in Ew. cbn in Ew. rewrite Ee in Ew. by apply Hne in Ew. }
  destruct (m_pCache s !! h) as [[X V]|] eqn:E; [|by apply (Hlast None)]. destruct (Z.eqb_spec X x) as [->|Hn].
  - intros [= <-]. by apply (Hc h x V).
  - apply (Hlast (Some (X, V))); [done|]. congruence.
Qed.

(** Whatever the cache holds of [p], it is right once [p] is added. *)
Lemma CacheAdd_coherent s N bad p hv : capacity s N → fits N p → stored s p = Some hv → coherent s N (λ q, bad q ∨ q = p) →
  coherent (CacheAdd s hv p) N (λ q, bad q ∧ q ≠ p).
Proof.
  intros Hcap Hp Hst [Hs Hc Hl]. destruct (fits_H N p (proj1 Hcap) Hp) as [HH HX]. unfold CacheAdd.
  destruct (lookup_lt_is_Some_2 (m_pCache s) (pos_H p)) as [[X V] E]; [lia|]. rewrite E.
  assert (Hstored : ∀ c l q, stored (mk (m_Blobs s) (m_Stream s) c l) q = stored s q) by done.
  assert (Hgood : ∀ q, ¬ (bad q ∧ q ≠ p) → q ≠ p → ¬ (bad q ∨ q = p)) by tauto.
  split; cbn [m_pCache m_LastOut].
  - by rewrite length_insert.
  - intros h x v. rewrite Hstored, list_lookup_insert_Some. intros [(<- & [= <- <-] & _)|[Hne Ev]] Hf Hn; [by destruct p|].
    apply Hc; [done|done|]. apply Hgood; [done|]. intros <-. done.
  - set (b := negb (X =? pos_X p) && negb (X =? no_X)). destruct b eqn:Eb; cbn [fst snd].
    + apply andb_true_iff in Eb as [E1%negb_true_iff E2%negb_true_iff]. apply Z.eqb_neq in E1, E2. intros Hf Hn. right. rewrite Hstored. apply (Hc _ _ V); [done|done|].
      apply Hgood; [done|]. intros Ep. apply E1. by rewrite <- Ep.
    + intros Hf Hn. destruct (decide (fst (m_LastOut s) = p)) as [->|Hne]; [left; exists hv; by rewrite list_lookup_insert_eq by lia|].
      destruct (Hl Hf) as [[v Ev]|?]; [by apply Hgood| |by right]. destruct (decide (pos_H (fst (m_LastOut s)) = pos_H p)) as [EH|EH].
      * exfalso. rewrite EH, E in Ev. injection Ev as EX _. apply andb_false_iff in Eb. rewrite !negb_false_iff, !Z.eqb_eq in Eb. destruct Eb as [Eb|Eb].
        -- apply Hne. destruct (fst (m_LastOut s)), p. cbn in *. congruence.
        -- destruct (fits_H N _ (proj1 Hcap) Hf) as [_ HX']. congruence.
      * left. exists v. by rewrite list_lookup_insert_ne.
Qed.

Lemma stored_CacheAdd s hv p q : stored (CacheAdd s hv p) q = stored s q.
Proof. unfold CacheAdd. by destruct (m_pCache s !! pos_H p) as [[]|]. Qed.

Lemma CacheAdd_blobs s hv p N : capacity s N ∧ in_blobs s → capacity (CacheAdd s hv p) N ∧ in_blobs (CacheAdd s hv p).
Proof. unfold CacheAdd. by destruct (m_pCache s !! pos_H p) as [[]|]. Qed.

(** Loads see the stream and leave the store as good as it was. *)
Lemma load_transparent s N bad p : stream_room s N bad → fits N p → ¬ bad p →
  ∃ hv s', StreamMmr.LoadElement 0 s p = Some (hv, s') ∧ stored s p = Some hv ∧ stream_room s' N bad ∧ ∀ q, stored s' q = stored s q.
Proof.
  intros Hr Hp Hb. unfold StreamMmr.LoadElement. destruct (CacheFind s p) as [v|] eqn:E.
  { exists v, s. by rewrite (CacheFind_stored s N bad p v). }
  pose proof Hr as [[Hcap Hib] Hco]. destruct (capacity_idx s N p Hcap Hp) as (i & Ei & Hi). unfold stored at 1. rewrite Ei. cbn [mbind option_bind].
  unfold StreamRead. rewrite Hi. cbn [mbind option_bind]. eexists _, _. split; [done|]. split; [done|].
  split; [|intros q; apply stored_CacheAdd]. split; [by apply CacheAdd_blobs|]. eapply (coherent_mono _ _ (λ q, bad q ∧ q ≠ p)); [by intros q _ [? _]|].
  apply CacheAdd_coherent; [done|done|unfold stored, StreamRead; rewrite Ei; cbn [mbind option_bind]; by rewrite Hi|].
  eapply coherent_mono; [|exact Hco]. tauto.
Qed.

Lemma stored_write s N p q i hv : capacity s N → fits N p → fits N q → q ≠ p → FlatMmr.Pos2Idx p 0 = Some i →
  stored (set_stream s (<[i := hv]> (m_Stream s))) q = stored s q.
Proof.
  intros [HN _] Hp Hq Hne Ei. unfold stored. destruct (Pos2Idx_fits N q 0) as (j & Ej & _); [lia|done|lia|]. rewrite Ej. cbn [mbind option_bind].
  unfold StreamRead. cbn [m_Blobs m_Stream set_stream]. rewrite lookup_insert_ne; [done|]. intros ->. apply Hne. apply (Pos2Idx_inj N q p 0 j); (done || lia).
Qed.

Lemma save_stream s N bad p hv : stream_room s N bad → fits N p →
  ∃ s', SaveElement 0 s hv p = Some s' ∧ stream_room s' N (λ q, bad q ∧ q ≠ p) ∧ stored s' p = Some hv ∧ ∀ q, fits N q → q ≠ p → stored s' q = stored s q.
Proof.
  intros [[Hcap Hib] [Hs Hc Hl]] Hp. destruct (capacity_idx s N p Hcap Hp) as (i & Ei & Hi). unfold SaveElement, StreamWrite. rewrite Ei. cbn [mbind option_bind].
  rewrite Hi. cbn [mbind option_bind]. set (s1 := set_stream s _).
  assert (H1 : stored s1 p = Some hv).
  { unfold stored, StreamRead. rewrite Ei. cbn [mbind option_bind m_Blobs m_Stream s1 set_stream]. by rewrite Hi, lookup_insert_eq. }
  assert (H2 : ∀ q, fits N q → q ≠ p → stored s1 q = stored s q) by (intros; by apply (stored_write s N p)).
  exists (CacheAdd s1 hv p). split_and!; [done|split|by rewrite stored_CacheAdd|intros; rewrite stored_CacheAdd; auto].
  - apply CacheAdd_blobs. split; [done|]. apply map_Forall_insert_2; [by apply Z.ltb_lt|done].
  - apply CacheAdd_coherent; [done|done|done|]. split; [done|..].
    + intros h x v Ev Hf Hn. rewrite H2 by (done || tauto). apply (Hc h x v); [done|done|tauto].
    + intros q Hf Hn. rewrite H2 by (done || tauto). apply Hl; [done|tauto].
Qed.

Lemma load_stored s N bad p : stream_room s N bad → fits N p → ¬ bad p → Merkle.LoadElement s p = stored s p.
Proof.
  intros Hr Hp Hb. destruct (load_transparent s N bad p Hr Hp Hb) as (hv & s' & E & -> & _). cbn [Merkle.LoadElement StreamMmr_store0 StreamMmr_store]. by rewrite E.
Qed.

#[export] Instance StreamMmr_ok : MmrStoreOk Hash t.
Proof.
  refine {| room_but := stream_room |}.
  - intros s n bad bad' Hb [? Hc]. split; [done|]. eapply coherent_mono; [|exact Hc]. auto.
  - intros s N bad hv p Hr Hp. destruct (save_stream s N bad p hv Hr Hp) as (s' & E & Hr' & H1 & H2).
    exists s'. split_and!; [done|done|rewrite (load_stored s' N _ _ Hr'); [done|done|tauto]|].
    intros q Hq Hb Hne. rewrite (load_stored s' N _ _ Hr'), (load_stored s N bad), H2; [done|done|done|done|done|done|done|tauto].
Defined.

(** ** Resizing *)

Definition blobs (n : Z) : Z := (total n 0 * nHashBytes + s_StreamBlob - 1) / s_StreamBlob.

(** More elements than there can be assets. *)
Definition nMax : Z := 2 ^ 40.

Lemma blobs_capacity n s : 0 ≤ n ≤ 2 ^ 62 → m_Blobs s = blobs n → capacity s n.
Proof.
  intros Hn E. split; [done|]. rewrite E. unfold blobs. pose proof (Z.div_mod (total n 0 * nHashBytes + s_StreamBlob - 1) s_StreamBlob). pose proof (Z.mod_pos_bound (total n 0 * nHashBytes + s_StreamBlob - 1) s_StreamBlob).
  unfold s_StreamBlob in *. lia.
Qed.

Lemma blobs_mono a b : a ≤ b → blobs a ≤ blobs b.
Proof. intros Hab. pose proof (total_mono a b 0 Hab). unfold blobs, nHashBytes, s_StreamBlob. apply Z.div_le_mono; lia. Qed.

(** The stream after a resize: what does not fit both sizes is not relied on. *)
Definition resized (s : t) (n : Z) : t :=
  mk (blobs n) (filter (λ '(i, _), i * nHashBytes / s_StreamBlob < blobs n) (m_Stream s)) (m_pCache s) (m_LastOut s).

Lemma ResizeTo_spec (m : Mmr.t t) nCount : 0 ≤ Mmr.m_Count m ≤ 2 ^ 62 → 0 ≤ nCount ≤ 2 ^ 62 → m_Blobs (Mmr.m_Store m) = blobs (Mmr.m_Count m) → in_blobs (Mmr.m_Store m) →
  ResizeTo 0 m nCount = Some (Mmr.mk nCount (resized (Mmr.m_Store m) nCount)).
Proof.
  intros Hc Hn Hb Hall. unfold ResizeTo. rewrite !get_TotalHashes_spec by lia. cbn [mbind option_bind].
  unfold StreamResize. fold (blobs nCount). fold (blobs (Mmr.m_Count m)). case_decide as Eb; [|by rewrite Hb, decide_True].
  cbn [mbind option_bind]. do 2 f_equal. unfold resized. rewrite <- Eb, <- Hb. destruct (Mmr.m_Store m) as [b st c l]. cbn in *. f_equal. symmetry. apply map_filter_id. intros i x Hx. by apply (Hall i x).
Qed.

Lemma stored_resized s n k p : 0 ≤ k ≤ 2 ^ 62 → k ≤ n → capacity s k → fits k p → stored (resized s n) p = stored s p.
Proof.
  intros Hk Hkn Hcap Hp. destruct (capacity_idx s k p Hcap Hp) as (i & Ei & Hi). assert (Hcap' : capacity (mk (blobs k) ∅ [] (m_LastOut s)) k) by by apply blobs_capacity.
  destruct (capacity_idx _ k p Hcap' Hp) as (i' & Ei' & Hi'). rewrite Ei in Ei'. injection Ei' as <-. cbn in Hi'. pose proof (blobs_mono k n Hkn).
  unfold stored, StreamRead, resized. rewrite Ei. cbn [mbind option_bind m_Blobs m_Stream]. rewrite Hi. apply Z.ltb_lt in Hi'.
  rewrite (proj2 (Z.ltb_lt _ _)) by lia. destruct (m_Stream s !! i) as [x|] eqn:E.
  - by rewrite (map_lookup_filter_Some_2 _ _ i x) by (done || lia).
  - by rewrite map_lookup_filter, E.
Qed.

Lemma resized_room s n0 n : 0 ≤ n0 ≤ 2 ^ 62 → 0 ≤ n ≤ 2 ^ 62 → stream_room s n0 (λ _, False) → stream_room (resized s n) n (λ q, ¬ fits (Z.min n0 n) q).
Proof.
  intros H0 Hn [[Hcap Hib] [Hs Hc Hl]]. assert (Hst : ∀ q, fits n q → ¬ ¬ fits (Z.min n0 n) q → fits n0 q ∧ stored (resized s n) q = stored s q).
  { intros q Hq Hnn. assert (Hf : fits (Z.min n0 n) q) by (unfold fits in *; lia). split; [by eapply fits_mono; [|exact Hf]; lia|].
    apply (stored_resized _ _ (Z.min n0 n)); [lia|lia|by apply (capacity_mono _ n0); [..|lia|lia]|done]. }
  split; [split|split].
  - by apply blobs_capacity.
  - intros i x. unfold resized. cbn. by intros [_ ?]%map_lookup_filter_Some.
  - done.
  - intros h x v E Hf Hb. destruct (Hst _ Hf Hb) as [Hf0 ->]. by apply Hc; [..|tauto].
  - intros q Hf Hb. destruct (Hst _ Hf Hb) as [Hf0 ->]. by apply Hl; [..|tauto].
Qed.

(** ** Ranges *)

(** The range [m] keeps the [n] elements [leaf]. *)
Record mmr_inv (m : Mmr.t t) (n : Z) (leaf : Z → Hash) : Prop := {
  mi_count : Mmr.m_Count m = n;
  mi_range : 0 ≤ n ≤ nMax;
  mi_room : stream_room (Mmr.m_Store m) n (λ _, False);
  mi_blobs : m_Blobs (Mmr.m_Store m) = blobs n;
  mi_holds : holds (Mmr.m_Store m) n leaf;
}.

Lemma mmr_root m n leaf : mmr_inv m n leaf → Mmr.get_Hash m = Some (root leaf n).
Proof. intros [Hc Hr _ _ Hh]. rewrite <- Hc. apply get_Hash_spec; [by rewrite Hc|]. unfold nMax in *. lia. Qed.

Lemma mmr_init uninit leaf : mmr_inv (Mmr.mk 0 (init uninit)) 0 leaf.
Proof.
  assert (Hno : ∀ p, ¬ fits 0 p) by (intros p [? ?]; pose proof (pow2_pos (pos_H p)); nia).
  split; [done|done| |done|intros p Hp; by apply Hno in Hp]. split; [split; [by apply blobs_capacity|by intros i x ?]|split; [done|intros h x v _ Hf; by apply Hno in Hf|intros p Hf; by apply Hno in Hf]].
Qed.

Lemma mmr_ext m n leaf leaf' : (∀ i, 0 ≤ i < n → leaf i = leaf' i) → mmr_inv m n leaf → mmr_inv m n leaf'.
Proof.
  intros He [Hc Hr Hroom Hb Hh]. split; [done..|]. intros p [Hx Hp]. rewrite Hh by done. f_equal. apply node_ext. intros i Hi. apply He.
  pose proof (pow2_pos (pos_H p)). nia.
Qed.

(** Saving does not touch the number of blobs. *)
Lemma Replace_blobs fuel h x n hv (s s' : t) : Mmr.Replace_loop fuel h x n hv s = Some s' → m_Blobs s' = m_Blobs s.
Proof.
  revert h x n hv s. induction fuel as [|fuel IH]; intros h x n hv s; cbn [Mmr.Replace_loop]; [done|].
  destruct (Merkle.SaveElement s hv (mkPos h x)) as [s1|] eqn:E; cbn [mbind option_bind]; [|done].
  assert (E1 : m_Blobs s1 = m_Blobs s).
  { cbn [Merkle.SaveElement StreamMmr_store0 StreamMmr_store] in E. unfold SaveElement in E. destruct (FlatMmr.Pos2Idx _ _); cbn in E; [|done].
    unfold StreamWrite in E. destruct (_ <? _); cbn in E; [|done]. injection E as <-. unfold CacheAdd. by destruct (_ !! _) as [[]|]. }
  destruct (n <=? Z.lxor x 1); [by intros [= <-]|]. destruct (Merkle.LoadElement s1 _); cbn [mbind option_bind]; [|done]. intros E2. by rewrite (IH _ _ _ _ _ E2).
Qed.

Lemma mmr_replace_from m n leaf i hv bad : Mmr.m_Count m = n → 0 ≤ n ≤ nMax → 0 ≤ i < n → stream_room (Mmr.m_Store m) n bad → m_Blobs (Mmr.m_Store m) = blobs n →
  (∀ q, fits n q → bad q → pos_X q = lvl i (pos_H q)) →
  (∀ p, fits n p → pos_X p ≠ lvl i (pos_H p) → Merkle.LoadElement (Mmr.m_Store m) p = Some (node leaf (pos_H p) (pos_X p))) →
  ∃ m', Mmr.Replace m i hv = Some m' ∧ mmr_inv m' n (upd leaf i hv).
Proof.
  intros Hc Hn Hi Hr Hb Hbad Hs. destruct (Replace_stale m leaf n i hv bad) as (m' & E & E1 & E2 & E3); rewrite ?Hc; try done; [unfold nMax in *; lia|].
  rewrite Hc in *. exists m'. split; [done|]. split; [done|done| | |done].
  - destruct E2 as [E2 E2']. split; [done|]. eapply coherent_mono; [|exact E2']. tauto.
  - unfold Mmr.Replace in E. destruct (Mmr.Replace_loop _ _ _ _ _ _) eqn:El; cbn in E; [|done]. injection E as <-. cbn. by rewrite (Replace_blobs _ _ _ _ _ _ _ El).
Qed.

Lemma mmr_replace m n leaf i hv : mmr_inv m n leaf → 0 ≤ i < n →
  ∃ m', Mmr.Replace m i hv = Some m' ∧ mmr_inv m' n (upd leaf i hv).
Proof. intros [Hc Hr Hroom Hb Hh] Hi. eapply mmr_replace_from; try done. intros p Hp _. by apply Hh. Qed.

(** The elements that fit both sizes are still there. *)
Lemma mmr_resize m n leaf n' : mmr_inv m n leaf → 0 ≤ n' ≤ nMax → ResizeTo 0 m n' = Some (Mmr.mk n' (resized (Mmr.m_Store m) n')) ∧
  ∀ p, fits (Z.min n n') p → Merkle.LoadElement (resized (Mmr.m_Store m) n') p = Some (node leaf (pos_H p) (pos_X p)).
Proof.
  intros [Hc Hr Hroom Hb Hh] Hn. unfold nMax in *. split; [apply ResizeTo_spec; [lia|lia|congruence|apply Hroom]|].
  intros p Hp. pose proof (resized_room _ n n' ltac:(lia) ltac:(lia) Hroom) as Hroom'.
  rewrite (load_stored _ _ _ _ Hroom'); [|by eapply fits_mono; [|exact Hp]; lia|tauto]. assert (Hp0 : fits n p) by (eapply fits_mono; [|exact Hp]; lia).
  rewrite (stored_resized _ _ (Z.min n n')), <- (load_stored _ n (λ _, False)); [by apply Hh|done|done|tauto|lia|lia| |done].
  apply (capacity_mono _ n); [|lia..]. apply Hroom.
Qed.

Lemma mmr_shrink m n leaf n' : mmr_inv m n leaf → 0 ≤ n' ≤ n → ∃ m', ResizeTo 0 m n' = Some m' ∧ mmr_inv m' n' leaf.
Proof.
  intros Hm Hn. pose proof Hm as [Hc Hr Hroom Hb Hh]. destruct (mmr_resize m n leaf n' Hm ltac:(lia)) as [E Hload]. eexists. split; [done|].
  rewrite Z.min_r in Hload by lia. unfold nMax in *. split; cbn; [done|unfold nMax; lia| |done|done].
  destruct (resized_room _ n n' ltac:(lia) ltac:(lia) Hroom) as [H1 H2]. split; [done|]. eapply coherent_mono; [|exact H2]. intros q Hq Hnq. cbn in Hnq. by rewrite Z.min_r in Hnq by lia.
Qed.

(** Growing by one and writing the new element. *)
Lemma mmr_append m n leaf hv : mmr_inv m n leaf → n + 1 ≤ nMax →
  ∃ m1 m', ResizeTo 0 m (n + 1) = Some m1 ∧ Mmr.Replace m1 n hv = Some m' ∧ mmr_inv m' (n + 1) (upd leaf n hv).
Proof.
  intros Hm Hn. pose proof Hm as [Hc Hr Hroom Hb Hh]. destruct (mmr_resize m n leaf (n + 1) Hm ltac:(lia)) as [E Hload]. rewrite Z.min_l in Hload by lia. eexists.
  assert (Hpath : ∀ p, fits (n + 1) p → ¬ fits n p → pos_X p = lvl n (pos_H p)).
  { intros [h x] [Hx Hp] Hnf. cbn in *. unfold fits in Hnf. cbn in Hnf. pose proof (pow2_pos h). symmetry. apply lvl_unique. lia. }
  unfold nMax in *. destruct (mmr_replace_from (Mmr.mk (n + 1) (resized (Mmr.m_Store m) (n + 1))) (n + 1) leaf n hv (λ q, ¬ fits n q)) as (m' & E' & Hm'); try done; [unfold nMax; lia|lia| | |by exists m'].
  - pose proof (resized_room _ n (n + 1) ltac:(lia) ltac:(lia) Hroom) as Hx. by rewrite Z.min_l in Hx by lia.
  - intros p Hp Hne. apply Hload. destruct (decide (fits n p)); [done|]. by destruct Hne; apply Hpath.
Qed.

End spec.
End StreamMmrSpec.
