(* ===== verification/NodeAssetKernel.v ===== *)
(** * node/processor.cpp: assets created, emitted and destroyed by a block

    [HandleAssetCreate], [HandleAssetEmit] and [HandleAssetDestroy], forward and backward,
    over the table of assets ([NodeAssets]) and the mountain range of their hashes
    ([NodeStream]).  The recovery records are kept as values; their frame in the buffer is
    that of [NodeVars.push] and [NodeVars.pop]. *)

From stdpp Require Import base list numbers option gmap sets.
From S2P Require Import Prelude UintBig Merkle MerkleStores NodeAssets NodeStream.
Local Open Scope Z_scope.
Import NodeDB.

Section Kernel.
Context {Hash : Type} `{Hasher Hash}.
(* Asset::Full::get_Hash; the flags of BlockInterpretCtx; Rules::CA.LockPeriod *)
Context (get_Hash : Z → Info → Hash).
Context (m_AlreadyValidated m_Temporary m_SkipDefinition : bool) (m_Height LockPeriod : Z).

Inductive ARec :=
  | ACreate (m_ID : Z)
  | ADestroy (m_Metadata : list Z) (m_LockHeight : Z)
  | AEmit (m_LockHeight : Z)
  | ADepCtx (hvPrev : list Z).   (* HandleKernelTypeAny *)

Record ACtx := mkACtx {
  a_DB : NodeDB.t;
  a_Mmr : Mmr.t (StreamMmr.t Hash);   (* m_Mmr.m_Assets *)
  a_Used : Z;                         (* m_AssetsUsed *)
  a_Rollback : list ARec;             (* m_Rollback, the last record first *)
  a_Evts : list (Z * list Z);         (* the events inserted, ID and body *)
}.

Definition set_db (c : ACtx) d := mkACtx d (a_Mmr c) (a_Used c) (a_Rollback c) (a_Evts c).
Definition set_mmr (c : ACtx) m := mkACtx (a_DB c) m (a_Used c) (a_Rollback c) (a_Evts c).
Definition set_used (c : ACtx) n := mkACtx (a_DB c) (a_Mmr c) n (a_Rollback c) (a_Evts c).
Definition push_rec (c : ACtx) r := mkACtx (a_DB c) (a_Mmr c) (a_Used c) (r :: a_Rollback c) (a_Evts c).
Definition pop_rec (c : ACtx) : option (ARec * ACtx) :=
  match a_Rollback c with r :: l => Some (r, mkACtx (a_DB c) (a_Mmr c) (a_Used c) l (a_Evts c)) | [] => None end.

(** [AssetEvtInsert]; the height and the index of the event are those of the kernel. *)
Definition AssetEvtInsert (c : ACtx) (id : Z) (body : list Z) : ACtx :=
  mkACtx (a_DB c) (a_Mmr c) (a_Used c) (a_Rollback c) (a_Evts c ++ [(id, body)]).

Definition EnsureAssetsUsed (c : ACtx) : ACtx :=
  if a_Used c =? s_MaxCount + 1 then set_used c (u32 (AssetsCountUsed (a_DB c))) else c.

Definition InternalAssetAdd (c : ACtx) (id : Z) (ai : Info) (bMmr : bool) : option (ACtx * Z) :=
  let ai := mkInfo (zeros 16) (m_Owner ai) (m_LockHeight ai) (m_Metadata ai) in
  '(d, id) ← AssetAdd (a_DB c) id ai;
  if bMmr then
    m ← (if Mmr.m_Count (a_Mmr c) <? id then StreamMmr.ResizeTo 0 (a_Mmr c) id else Some (a_Mmr c));
    m ← Mmr.Replace m (id - 1) (get_Hash id ai);
    Some (set_mmr (set_db c d) m, id)
  else Some (set_db c d, id).

Definition InternalAssetDel (c : ACtx) (nAssetID : Z) (bMmr : bool) : option ACtx :=
  '(d, nCount) ← AssetDelete (a_DB c) nAssetID;
  if bMmr then
    m ← (if nCount <? Mmr.m_Count (a_Mmr c) then StreamMmr.ResizeTo 0 (a_Mmr c) nCount
         else Mmr.Replace (a_Mmr c) (nAssetID - 1) hZero);
    Some (set_mmr (set_db c d) m)
  else Some (set_db c d).

(** Forward: the new ID if it succeeds. *)
Definition HandleAssetCreate_fwd (pidOwner md : list Z) (c : ACtx) : option (option Z * ACtx) :=
  let c := if m_AlreadyValidated then c else EnsureAssetsUsed c in
  if negb m_AlreadyValidated && (negb (AssetFindByOwner (a_DB c) pidOwner =? 0) || (s_MaxCount <=? a_Used c)) then Some (None, c)
  else
    let c := if m_AlreadyValidated then c else set_used c (u32 (a_Used c + 1)) in
    '(c, m_ID) ← InternalAssetAdd c 0 (mkInfo [] pidOwner m_Height md) (negb m_SkipDefinition);
    let c := push_rec c (ACreate m_ID) in
    let c := if m_Temporary then c else AssetEvtInsert c (m_ID + s_MaxCount) (pidOwner ++ md) in
    Some (Some m_ID, c).

Definition HandleAssetCreate_bwd (c : ACtx) : option ACtx :=
  let c := if m_AlreadyValidated then c else let c := EnsureAssetsUsed c in set_used c (u32 (a_Used c - 1)) in
  '(r, c) ← pop_rec c;
  match r with
  | ACreate aid => InternalAssetDel c aid (negb m_SkipDefinition)
  | _ => None
  end.

Definition HandleAssetDestroy_fwd (pidOwner : list Z) (aid : Z) (c : ACtx) : option (bool * ACtx) :=
  let c := if m_AlreadyValidated then c else EnsureAssetsUsed c in
  match AssetGetSafe (a_DB c) aid with
  | None => None
  | Some None => Some (false, c)
  | Some (Some ai) =>
    if negb m_AlreadyValidated &&
       (negb (bool_decide (m_Owner ai = pidOwner)) || negb (memis0 (m_Value ai)) || (m_Height <? u64 (m_LockHeight ai + LockPeriod)))
    then Some (false, c)
    else
      let c := if m_AlreadyValidated then c else set_used c (u32 (a_Used c - 1)) in
      c ← InternalAssetDel c aid (negb m_SkipDefinition);
      let c := push_rec c (ADestroy (m_Metadata ai) (m_LockHeight ai)) in
      let c := if m_Temporary then c else AssetEvtInsert c (aid + s_MaxCount) [] in
      Some (true, c)
  end.

Definition HandleAssetDestroy_bwd (pidOwner : list Z) (aid : Z) (c : ACtx) : option ACtx :=
  let c := if m_AlreadyValidated then c else EnsureAssetsUsed c in
  '(r, c) ← pop_rec c;
  match r with
  | ADestroy md lock =>
    '(c, m_ID) ← InternalAssetAdd c aid (mkInfo [] pidOwner lock md) (negb m_SkipDefinition);
    if decide (m_ID = aid) then Some (if m_AlreadyValidated then c else set_used c (u32 (a_Used c + 1))) else None
  | _ => None
  end.

(** The value with [val] added or taken away, if it does not overflow. *)
Definition emit_value (m_Value : list Z) (val : Z) (bFwd : bool) : option (option (list Z)) :=
  let bAdd := 0 <=? val in
  let valUns := u64 val in
  let valUns := if bAdd then valUns else u64 (0 - valUns) in
  let valBig := zeros 8 ++ be 8 valUns in
  let bAdd := if bFwd then bAdd else negb bAdd in
  if bAdd then
    v ← uintBig_t.add_assign m_Value valBig;
    Some (if uintBigImpl._Cmp v valBig <? 0 then None else Some v)
  else if uintBigImpl._Cmp m_Value valBig <? 0 then Some None
  else
    valBig ← uintBig_t.Negate valBig;
    v ← uintBig_t.add_assign m_Value valBig;
    Some (Some v).

Definition HandleAssetEmit (bFwd : bool) (pidOwner : list Z) (aid val : Z) (c : ACtx) : option (bool * ACtx) :=
  match AssetGetSafe (a_DB c) aid with
  | None => None
  | Some None => Some (false, c)
  | Some (Some ai) =>
    if bFwd && negb m_AlreadyValidated && negb (bool_decide (m_Owner ai = pidOwner)) then Some (false, c)
    else
      match emit_value (m_Value ai) val bFwd with
      | None => None
      | Some None => Some (false, c)
      | Some (Some v) =>
        '(lock, c) ← (if Bool.eqb (memis0 v) (memis0 (m_Value ai)) then Some (m_LockHeight ai, c)
                      else if bFwd then Some (m_Height, push_rec c (AEmit (m_LockHeight ai)))
                      else '(r, c) ← pop_rec c; match r with AEmit lock => Some (lock, c) | _ => None end);
        let ai := mkInfo v (m_Owner ai) lock (m_Metadata ai) in
        d ← AssetSetValue (a_DB c) aid v lock;
        let c := set_db c d in
        c ← (if m_SkipDefinition then Some c
             else m ← Mmr.Replace (a_Mmr c) (aid - 1) (get_Hash aid ai); Some (set_mmr c m));
        Some (true, if bFwd && negb m_Temporary then AssetEvtInsert c aid (v ++ be 8 lock) else c)
      end
  end.

End Kernel.
