(* ===== verification/NodeAssetSpec.v ===== *)
(** * node/processor.cpp: assets are undone exactly

    Creating, emitting and destroying keep the table and the range of hashes in step, and
    interpreting backward restores them. *)

From stdpp Require Import base list numbers option gmap sets.
From S2P Require Import Prelude UintBig Merkle MerkleStores BvmHostSpec NodeAssets NodeStream NodeAssetKernel.
Local Open Scope Z_scope.
Import NodeDB NodeDBSpec StreamMmrSpec.

(** ** The value of an asset *)

Definition signed (bFwd : bool) (val : Z) : Z := if bFwd then val else - val.

(** Emission is exact, and refused when the value would leave 128 bits. *)
Lemma emit_value_spec v val bFwd : bytes v → length v = 16%nat → - 2 ^ 63 ≤ val < 2 ^ 63 →
  (∃ v', emit_value v val bFwd = Some (Some v') ∧ bytes v' ∧ length v' = 16%nat ∧ ⟦v'⟧ = ⟦v⟧ + signed bFwd val) ∨
  (emit_value v val bFwd = Some None ∧ ¬ 0 ≤ ⟦v⟧ + signed bFwd val < 2 ^ 128).
Proof.
  intros Hv Hl Hval. unfold emit_value. set (valUns := if 0 <=? val then u64 val else u64 (0 - u64 val)).
  assert (Hu : valUns = Z.abs val).
  { unfold valUns, u64. destruct (Z.leb_spec 0 val); [rewrite Z.mod_small; lia|]. rewrite Zminus_mod_idemp_r, Z.mod_small; lia. }
  clearbody valUns. subst valUns. set (B := zeros 8 ++ be 8 (Z.abs val)).
  assert (HB : bytes B) by (apply bytes_app; split; [apply bytes_zeros|apply bytes_be]). assert (HBl : length B = 16%nat) by done.
  assert (HBv : ⟦B⟧ = Z.abs val) by (unfold B; rewrite val_app, val_zeros, val_be by (change (256 ^ Z.of_nat 8) with (2 ^ 64); lia); lia).
  clearbody B. pose proof (val_range v Hv) as Rv. rewrite Hl in Rv. change (256 ^ Z.of_nat 16) with (2 ^ 128) in Rv.
  assert (Hcmp : ∀ x, bytes x → (uintBigImpl._Cmp x B <? 0) = (⟦x⟧ <? Z.abs val)).
  { intros x Hx. rewrite uintBigImpl._Cmp_spec, HBv by done. by destruct (Z.ltb_spec ⟦x⟧ (Z.abs val)), (Z.ltb_spec (Z.abs val) ⟦x⟧). }
  assert (Hadd : ∀ b, bytes b → ∃ y, uintBig_t.add_assign v b = Some y ∧ bytes y ∧ length y = 16%nat ∧ ⟦y⟧ = (⟦v⟧ + ⟦b⟧) mod 2 ^ 128).
  { intros b Hb. destruct (uintBig_t.add_assign_spec v b Hv Hb) as (y & E & Hy & Hyl & Hyv). rewrite Hl in Hyv. exists y. split_and!; try done. lia. }
  destruct (if bFwd then 0 <=? val else negb (0 <=? val)) eqn:Ea.
  - assert (Es : signed bFwd val = Z.abs val) by (unfold signed; destruct bFwd, (Z.leb_spec 0 val); cbn in Ea; (done || lia)).
    destruct (Hadd B HB) as (y & -> & Hy & Hyl & Hyv). cbn [mbind option_bind]. rewrite Hcmp, Hyv, HBv, Es by done.
    destruct (decide (⟦v⟧ + Z.abs val < 2 ^ 128)).
    + left. exists y. rewrite HBv, Z.mod_small in Hyv by lia. rewrite Z.mod_small by lia. destruct (Z.ltb_spec (⟦v⟧ + Z.abs val) (Z.abs val)); [lia|]. by split_and!.
    + right. replace ((⟦v⟧ + Z.abs val) mod 2 ^ 128) with (⟦v⟧ + Z.abs val - 2 ^ 128) by (rewrite <- (Z_mod_plus_full _ (-1)), Z.mod_small; lia).
      destruct (Z.ltb_spec (⟦v⟧ + Z.abs val - 2 ^ 128) (Z.abs val)); [|lia]. split; [done|lia].
  - assert (Es : signed bFwd val = - Z.abs val) by (unfold signed; destruct bFwd, (Z.leb_spec 0 val); cbn in Ea; (done || lia)).
    rewrite Hcmp, Es by done. destruct (Z.ltb_spec ⟦v⟧ (Z.abs val)); [right; split; [done|lia]|left].
    destruct (neg16 B HB HBl) as (nb & -> & Hnb & Hnbl & Hnbv). cbn [mbind option_bind]. destruct (Hadd nb Hnb) as (y & -> & Hy & Hyl & Hyv). exists y. split_and!; try done.
    rewrite Hyv, Hnbv, HBv, Zplus_mod_idemp_r, Z.mod_small; lia.
Qed.

Section Spec.
Context {Hash : Type} `{Hasher Hash}.
Context (get_Hash : Z → Info → Hash).
Context (m_AlreadyValidated m_Temporary m_SkipDefinition : bool) (m_Height LockPeriod : Z).

Local Notation ACtx := (ACtx (Hash := Hash)).

(** The elements of the range: the hash of the asset, or zero for a free ID. *)
Definition leaf_of (d : NodeDB.t) (i : Z) : Hash :=
  match rows d !! (i + 1) with Some (Some ai) => get_Hash (i + 1) ai | _ => hZero end.

(** Amounts are 16 bytes. *)
Definition amounts_ok (d : NodeDB.t) : Prop := ∀ k ai, rows d !! k = Some (Some ai) → bytes (m_Value ai) ∧ length (m_Value ai) = 16%nat.

Record assets_inv (c : ACtx) : Prop := {
  as_wf : wf (a_DB c);
  as_amounts : amounts_ok (a_DB c);
  as_mmr : m_SkipDefinition = false → mmr_inv (a_Mmr c) (AssetsCount (a_DB c)) (leaf_of (a_DB c));
}.

Definition bMmr : bool := negb m_SkipDefinition.

Lemma leaf_of_upd d d' id hv n : n ≤ s_AssetEmpty0 →
  (∀ k, k ≤ s_AssetEmpty0 → k ≠ id → rows d' !! k = rows d !! k) →
  match rows d' !! id with Some (Some ai) => get_Hash id ai | _ => hZero end = hv →
  ∀ i, 0 ≤ i < n → upd (leaf_of d) (id - 1) hv i = leaf_of d' i.
Proof.
  intros Hn Hk Hid i Hi. destruct (decide (i = id - 1)) as [->|Hne].
  - rewrite upd_eq. unfold leaf_of. by replace (id - 1 + 1) with id by lia.
  - rewrite upd_ne by done. unfold leaf_of. rewrite (Hk (i + 1)) by lia. done.
Qed.

(** The owner of an asset. *)
Definition owner_at (d : NodeDB.t) (k : Z) : option (list Z) := match rows d !! k with Some (Some ai) => Some (m_Owner ai) | _ => None end.

Lemma owner_at_upd d d' id x : wf d → wf d' → id ≤ s_AssetEmpty0 → (∀ k, k ≤ s_AssetEmpty0 → rows d' !! k = if decide (k = id) then x else rows d !! k) →
  ∀ k, owner_at d' k = if decide (k = id) then match x with Some (Some ai) => Some (m_Owner ai) | _ => None end else owner_at d k.
Proof.
  intros Hwf Hwf' Hid Hr k. assert (Hhigh : ∀ d, wf d → s_AssetEmpty0 < k → owner_at d k = None).
  { clear. intros d Hwf Hk. unfold owner_at. destruct (rows d !! k) as [[ai|]|] eqn:E; [|done..]. pose proof (wf_asset _ Hwf _ _ E). pose proof (wf_count _ Hwf). unfold s_AssetEmpty0 in *. lia. }
  destruct (decide (s_AssetEmpty0 < k)) as [Hk|Hk]; [rewrite !Hhigh, decide_False by (done || lia); done|]. unfold owner_at. rewrite Hr by lia. by destruct (decide (k = id)).
Qed.

(** ** Adding *)

(** [d'] is [d] with the asset [id], and the range follows. *)
Lemma add_mmr c d' id ai : m_SkipDefinition = false → assets_inv c → wf d' →
  AssetsCount (a_DB c) ≤ AssetsCount d' ≤ AssetsCount (a_DB c) + 1 → 1 ≤ id ≤ AssetsCount d' → (AssetsCount d' = AssetsCount (a_DB c) + 1 → id = AssetsCount d') →
  (∀ k, k ≤ s_AssetEmpty0 → rows d' !! k = if decide (k = id) then Some (Some ai) else rows (a_DB c) !! k) →
  ∃ m1 m', (if Mmr.m_Count (a_Mmr c) <? id then StreamMmr.ResizeTo 0 (a_Mmr c) id else Some (a_Mmr c)) = Some m1 ∧
    Mmr.Replace m1 (id - 1) (get_Hash id ai) = Some m' ∧ mmr_inv m' (AssetsCount d') (leaf_of d').
Proof.
  intros Hskip [Hwf _ Hm] Hwf' Hc Hid Hlast Hrows. specialize (Hm Hskip). pose proof (mi_count _ _ _ Hm) as Hcount.
  pose proof (wf_count _ Hwf') as Hmax. assert (HE : s_AssetEmpty0 = s_MaxCount) by done. assert (HM : s_MaxCount < nMax) by done. assert (Hupd : ∀ i, 0 ≤ i < AssetsCount d' → upd (leaf_of (a_DB c)) (id - 1) (get_Hash id ai) i = leaf_of d' i).
  { apply leaf_of_upd; [lia|intros k Hk Hne; by rewrite Hrows, decide_False|]. by rewrite Hrows, decide_True by lia. }
  rewrite Hcount. destruct (Z.ltb_spec (AssetsCount (a_DB c)) id) as [Hlt|Hge].
  - assert (Hn : AssetsCount d' = AssetsCount (a_DB c) + 1) by lia. assert (Eid : id = AssetsCount (a_DB c) + 1) by (rewrite (Hlast Hn); lia).
    destruct (mmr_append (a_Mmr c) _ _ (get_Hash id ai) Hm) as (m1 & m' & E1 & E2 & Hm'); [lia|]. rewrite <- Eid in *.
    replace (AssetsCount (a_DB c)) with (id - 1) in E2, Hm' by lia. exists m1, m'. rewrite E1. split_and!; [done|done|].
    replace (AssetsCount d') with id by lia. eapply mmr_ext; [|exact Hm']. intros i Hi. apply Hupd. lia.
  - assert (Hn : AssetsCount d' = AssetsCount (a_DB c)). { destruct (decide (AssetsCount d' = AssetsCount (a_DB c) + 1)) as [E|]; [specialize (Hlast E); lia|lia]. }
    destruct (mmr_replace (a_Mmr c) _ _ (id - 1) (get_Hash id ai) Hm) as (m' & E2 & Hm'); [lia|]. eexists _, m'. split_and!; [done|done|].
    rewrite Hn. eapply mmr_ext; [|exact Hm']. intros i Hi. apply Hupd. lia.
Qed.

(** ** Deleting *)

Lemma del_mmr c d' id ai : m_SkipDefinition = false → assets_inv c → wf d' → rows (a_DB c) !! id = Some (Some ai) → AssetsCount d' ≤ AssetsCount (a_DB c) →
  (∀ k, k ≤ s_AssetEmpty0 → rows d' !! k = if decide (k = id) then None else rows (a_DB c) !! k) →
  ∃ m', (if AssetsCount d' <? Mmr.m_Count (a_Mmr c) then StreamMmr.ResizeTo 0 (a_Mmr c) (AssetsCount d') else Mmr.Replace (a_Mmr c) (id - 1) hZero) = Some m' ∧
    mmr_inv m' (AssetsCount d') (leaf_of d').
Proof.
  intros Hskip [Hwf _ Hm] Hwf' Hid Hc Hrows. specialize (Hm Hskip). pose proof (mi_count _ _ _ Hm) as Hcount. pose proof (wf_count _ Hwf) as Hmax. pose proof (wf_count _ Hwf') as Hmax'.
  assert (HE : s_AssetEmpty0 = s_MaxCount) by done. pose proof (wf_asset _ Hwf _ _ Hid) as Hidr. rewrite Hcount. destruct (Z.ltb_spec (AssetsCount d') (AssetsCount (a_DB c))) as [Hlt|Hge].
  - assert (Eid : id = AssetsCount (a_DB c)).
    { destruct (decide (id = AssetsCount (a_DB c))) as [|Hne]; [done|]. exfalso. pose proof (wf_last _ Hwf ltac:(lia)) as Hl.
      destruct (rows (a_DB c) !! AssetsCount (a_DB c)) as [[x|]|] eqn:E; [|by pose proof (wf_free _ Hwf _ E); lia|done].
      assert (E' : rows d' !! AssetsCount (a_DB c) = Some (Some x)) by (rewrite Hrows, decide_False by (done || lia); done). pose proof (wf_asset _ Hwf' _ _ E'). lia. }
    destruct (mmr_shrink (a_Mmr c) _ _ (AssetsCount d') Hm) as (m' & E & Hm'); [lia|]. exists m'. split; [done|]. eapply mmr_ext; [|exact Hm'].
    intros i Hi. unfold leaf_of. by rewrite Hrows, decide_False by lia.
  - destruct (mmr_replace (a_Mmr c) _ _ (id - 1) hZero Hm) as (m' & E & Hm'); [lia|]. exists m'. split; [done|]. replace (AssetsCount d') with (AssetsCount (a_DB c)) by lia.
    eapply mmr_ext; [|exact Hm']. apply leaf_of_upd; [lia|intros k Hk Hne; by rewrite Hrows, decide_False|]. by rewrite Hrows, decide_True by lia.
Qed.

(** Nothing but the table and the range is touched. *)
Definition kept (c c' : ACtx) : Prop :=
  a_Used c' = a_Used c ∧ a_Rollback c' = a_Rollback c ∧ a_Evts c' = a_Evts c ∧ (m_SkipDefinition = true → a_Mmr c' = a_Mmr c).

(** The info as [InternalAssetAdd] stores it. *)
Definition fresh (ai : Info) : Info := mkInfo (zeros 16) (m_Owner ai) (m_LockHeight ai) (m_Metadata ai).

Lemma amounts_add d d' id ai : amounts_ok d → wf d' → (∀ k, k ≤ s_AssetEmpty0 → rows d' !! k = if decide (k = id) then Some (Some (fresh ai)) else rows d !! k) →
  amounts_ok d'.
Proof.
  intros Ha Hwf' Hr k x E. pose proof (wf_asset _ Hwf' _ _ E) as Hk. pose proof (wf_count _ Hwf'). rewrite Hr in E by (unfold s_AssetEmpty0; lia).
  case_decide; [|by eapply Ha]. injection E as <-. split; [apply bytes_zeros|done].
Qed.

Lemma InternalAssetAdd_from c aid ai d' id : assets_inv c → AssetAdd (a_DB c) aid (fresh ai) = Some (d', id) → wf d' →
  AssetsCount (a_DB c) ≤ AssetsCount d' → (m_SkipDefinition = false → AssetsCount d' ≤ AssetsCount (a_DB c) + 1) → 1 ≤ id ≤ AssetsCount d' →
  (AssetsCount d' = AssetsCount (a_DB c) + 1 → id = AssetsCount d') →
  (∀ k, k ≤ s_AssetEmpty0 → rows d' !! k = if decide (k = id) then Some (Some (fresh ai)) else rows (a_DB c) !! k) →
  ∃ c', InternalAssetAdd get_Hash c aid ai bMmr = Some (c', id) ∧ a_DB c' = d' ∧ assets_inv c' ∧ kept c c'.
Proof.
  intros Hinv E Hwf' Hge Hle Hid Hlast Hrows. unfold InternalAssetAdd, bMmr. fold (fresh ai). rewrite E. cbn [mbind option_bind].
  assert (Ham : amounts_ok d') by (eapply amounts_add; [by apply Hinv|done|exact Hrows]). destruct m_SkipDefinition eqn:Es; cbn [negb].
  - exists (set_db c d'). split_and!; [done|done|split; [done|done|congruence]|by split_and!].
  - destruct (add_mmr c d' id (fresh ai)) as (m1 & m' & -> & E2 & Hm'); try done; [split; [lia|by apply Hle]|]. cbn [mbind option_bind]. rewrite E2. cbn [mbind option_bind].
    exists (set_mmr (set_db c d') m'). split_and!; [done|done|by split|]. split_and!; [done..|congruence].
Qed.

Lemma InternalAssetAdd_new c ai : assets_inv c → AssetsCount (a_DB c) < s_MaxCount →
  ∃ c' id, InternalAssetAdd get_Hash c 0 ai bMmr = Some (c', id) ∧ assets_inv c' ∧ kept c c' ∧ rows (a_DB c) !! id = None ∧
    rows (a_DB c') !! id = Some (Some (fresh ai)) ∧ (∀ k, owner_at (a_DB c') k = if decide (k = id) then Some (m_Owner ai) else owner_at (a_DB c) k) ∧
    AssetDelete (a_DB c') id = Some (a_DB c, AssetsCount (a_DB c)) ∧ AssetsCountUsed (a_DB c') = AssetsCountUsed (a_DB c) + 1 ∧ (counted (a_DB c) → counted (a_DB c')).
Proof.
  intros Hinv Hc. pose proof (as_wf _ Hinv) as Hwf. destruct (AssetAdd_spec (a_DB c) (fresh ai) Hwf Hc) as (d' & id & E & Hwf' & Hid & Hused & Hcount & Hnew & Hrows & Hdel).
  assert (Hlast : AssetsCount d' = AssetsCount (a_DB c) + 1 → id = AssetsCount d').
  { intros Hn. pose proof (wf_last _ Hwf' ltac:(pose proof (wf_count _ Hwf); lia)) as Hl. pose proof (wf_count _ Hwf'). destruct (decide (AssetsCount d' = id)) as [|Hne]; [done|exfalso].
    rewrite Hrows, decide_False in Hl by (unfold s_AssetEmpty0; done || lia). destruct (rows (a_DB c) !! AssetsCount d') as [[x|]|] eqn:Ex; [|by pose proof (wf_free _ Hwf _ Ex); unfold s_AssetEmpty0 in *; lia|done].
    pose proof (wf_asset _ Hwf _ _ Ex). lia. }
  destruct (InternalAssetAdd_from c 0 ai d' id) as (c' & E' & <- & Hinv' & Hk); try done; [lia|lia|].
  exists c', id. split_and!; try done; try apply Hk.
  - rewrite Hrows, decide_True; [done|done|]. pose proof (wf_count _ Hwf'). unfold s_AssetEmpty0. lia.
  - apply (owner_at_upd _ _ id (Some (Some (fresh ai)))); [done|done| |done]. pose proof (wf_count _ Hwf'). unfold s_AssetEmpty0. lia.
  - apply (counted_add _ _ id (fresh ai)); try done. pose proof (wf_count _ Hwf'). unfold s_AssetEmpty0. lia.
Qed.

Lemma InternalAssetDel_spec c id ai : assets_inv c → rows (a_DB c) !! id = Some (Some ai) →
  ∃ c', InternalAssetDel c id bMmr = Some c' ∧ assets_inv c' ∧ kept c c' ∧ AssetDelete (a_DB c) id = Some (a_DB c', AssetsCount (a_DB c')) ∧
    AssetAdd (a_DB c') id ai = Some (a_DB c, id) ∧ AssetsCount (a_DB c') ≤ AssetsCount (a_DB c) ∧
    (∀ k, k ≤ s_AssetEmpty0 → rows (a_DB c') !! k = if decide (k = id) then None else rows (a_DB c) !! k) ∧
    AssetsCountUsed (a_DB c') = AssetsCountUsed (a_DB c) - 1 ∧ (counted (a_DB c) → counted (a_DB c') ∧ 0 < AssetsCountUsed (a_DB c)).
Proof.
  intros Hinv Hid. pose proof (as_wf _ Hinv) as Hwf. destruct (AssetDelete_spec (a_DB c) id ai Hwf Hid) as (d' & E & Hwf' & Hused & Hle & Hrows & Hadd).
  assert (Hcnt : counted (a_DB c) → counted d' ∧ 0 < AssetsCountUsed (a_DB c)).
  { apply (counted_del _ _ id ai); try done. pose proof (wf_asset _ Hwf _ _ Hid). pose proof (wf_count _ Hwf). unfold s_AssetEmpty0. lia. }
  assert (Ham : amounts_ok d').
  { intros k x Ek. pose proof (wf_asset _ Hwf' _ _ Ek). pose proof (wf_count _ Hwf'). rewrite Hrows in Ek by (unfold s_AssetEmpty0; lia).
    case_decide; [done|]. by apply (as_amounts _ Hinv k). }
  unfold InternalAssetDel, bMmr. rewrite E. cbn [mbind option_bind]. destruct m_SkipDefinition eqn:Es; cbn [negb].
  - exists (set_db c d'). split_and!; try done. split; [done|done|congruence].
  - destruct (del_mmr c d' id ai) as (m' & -> & Hm'); try done. cbn [mbind option_bind].
    exists (set_mmr (set_db c d') m'). split_and!; try done; first [by split|split_and!; try done; congruence].
Qed.

(** ** The kernels *)

(** [m_AssetsUsed] once it was read from the table. *)
Definition used0 (c : ACtx) : Z := if m_AlreadyValidated then a_Used c else a_Used (EnsureAssetsUsed c).

Record full_inv (c : ACtx) : Prop := {
  fi_inv : assets_inv c;
  fi_counted : counted (a_DB c);
  fi_used : m_AlreadyValidated = false → used0 c = AssetsCountUsed (a_DB c);
}.

(** States that cannot be told apart: the same table, records, count of assets, and ranges
    with the same elements. *)
Definition alike (c c' : ACtx) : Prop :=
  full_inv c ∧ full_inv c' ∧ a_DB c' = a_DB c ∧ a_Rollback c' = a_Rollback c ∧ used0 c' = used0 c ∧ (m_SkipDefinition = true → a_Mmr c' = a_Mmr c).

(** Whatever looks like [c'] is taken back to something that looks like [c]. *)
Definition assets_back (bwd : ACtx → option ACtx) (c c' : ACtx) : Prop := ∀ x, alike c' x → ∃ c'', bwd x = Some c'' ∧ alike c c''.

(** The records of the asset kernels themselves. *)
Definition asset_rec (r : ARec) : bool := match r with ADepCtx _ => false | _ => true end.

Definition grows (c c' : ACtx) : Prop := ∃ l, a_Rollback c' = l ++ a_Rollback c ∧ Forall (λ r, asset_rec r = true) l.

Lemma inv_frame (c c' : ACtx) : a_DB c' = a_DB c → a_Mmr c' = a_Mmr c → assets_inv c → assets_inv c'.
Proof. intros Ed Em []. split; by rewrite ?Ed, ?Em. Qed.

Lemma Ensure_frame (c : ACtx) : a_DB (EnsureAssetsUsed c) = a_DB c ∧ a_Mmr (EnsureAssetsUsed c) = a_Mmr c ∧ a_Rollback (EnsureAssetsUsed c) = a_Rollback c.
Proof. unfold EnsureAssetsUsed. by destruct (_ =? _). Qed.

Lemma used0_small (c : ACtx) : (m_AlreadyValidated = false → 0 ≤ a_Used c ≤ s_MaxCount) → used0 c = a_Used c.
Proof.
  intros Hu. unfold used0, EnsureAssetsUsed. destruct m_AlreadyValidated; [done|]. specialize (Hu eq_refl).
  destruct (Z.eqb_spec (a_Used c) (s_MaxCount + 1)); [lia|done].
Qed.

Lemma used_range (c : ACtx) : full_inv c → m_AlreadyValidated = false → 0 ≤ used0 c ≤ s_MaxCount.
Proof. intros [Hi Hc Hu] Ea. rewrite (Hu Ea). pose proof (counted_range _ (as_wf _ Hi) Hc). pose proof (wf_count _ (as_wf _ Hi)). lia. Qed.

Lemma alike_frame (c c' : ACtx) : full_inv c → a_DB c' = a_DB c → a_Mmr c' = a_Mmr c → a_Rollback c' = a_Rollback c → used0 c' = used0 c → alike c c'.
Proof.
  intros Hf Ed Em Er Eu. pose proof Hf as [Hi Hc Hu]. split_and!; try done. split; [by eapply inv_frame|by rewrite Ed|]. intros Ea. rewrite Eu, Ed. by apply Hu.
Qed.

(** Reading the number of assets used. *)
Lemma Ensure_alike (c : ACtx) : full_inv c → let c1 := if m_AlreadyValidated then c else EnsureAssetsUsed c in alike c c1 ∧ a_Used c1 = used0 c.
Proof.
  intros Hf c1. pose proof (Ensure_frame c) as (D & M & R). assert (Hu : a_Used c1 = used0 c) by (unfold c1, used0; by destruct m_AlreadyValidated).
  split; [|done]. apply alike_frame; [done|unfold c1; by destruct m_AlreadyValidated..|]. rewrite used0_small; [done|]. intros Ea. rewrite Hu. by apply used_range.
Qed.

Lemma alike_sym c c' : alike c c' → alike c' c.
Proof. intros (? & ? & ? & ? & ? & HM). split_and!; try done. intros Es. by rewrite HM. Qed.

Lemma alike_trans c c' c'' : alike c c' → alike c' c'' → alike c c''.
Proof. intros (? & ? & E1 & E2 & E3 & E4) (? & ? & F1 & F2 & F3 & F4). split_and!; [done..| | | |]; [congruence..|]. intros Es. by rewrite F4, E4. Qed.

Lemma last_asset d : wf d → 1 ≤ AssetsCount d → ∃ x, rows d !! AssetsCount d = Some (Some x).
Proof.
  intros Hwf Hn. pose proof (wf_last _ Hwf ltac:(lia)) as Hl.
  destruct (rows d !! AssetsCount d) as [[x|]|] eqn:E; [by exists x| |done]. pose proof (wf_free _ Hwf _ E). pose proof (wf_count _ Hwf). unfold s_AssetEmpty0 in *. lia.
Qed.

Lemma FindByOwner_none d owner : wf d → AssetFindByOwner d owner = 0 → ∀ k, owner_at d k ≠ Some owner.
Proof.
  intros Hwf E k. unfold owner_at. destruct (rows d !! k) as [[ai|]|] eqn:Ek; [|done..]. intros [= Eo]. pose proof (wf_asset _ Hwf _ _ Ek) as Hk.
  assert (Hpos : ∀ k v, (k, v) ∈ map_to_list (rows d) → 0 < k) by (intros k' v Hin%elem_of_map_to_list; eapply wf_pos; [exact Hwf|by eexists]).
  apply elem_of_map_to_list in Ek. unfold AssetFindByOwner in E. revert Hpos Ek E. generalize (map_to_list (rows d)). intros l Hpos Hin E.
  induction l as [|[j [aj|]] l IH]; cbn in *; [by apply not_elem_of_nil in Hin|..].
  - destruct (decide (m_Owner aj = owner)) as [|Hno]; [specialize (Hpos j (Some aj) ltac:(left)); lia|]. apply elem_of_cons in Hin as [[= -> ->]|Hin]; [done|]. apply IH; [|done..]. intros. eapply Hpos. by right.
  - apply elem_of_cons in Hin as [?|Hin]; [done|]. apply IH; [|done..]. intros. eapply Hpos. by right.
Qed.

Lemma HandleAssetCreate_spec pidOwner md c : full_inv c → AssetsCount (a_DB c) < s_MaxCount →
  ∃ r c', HandleAssetCreate_fwd get_Hash m_AlreadyValidated m_Temporary m_SkipDefinition m_Height pidOwner md c = Some (r, c') ∧
    match r with
    | None => alike c c'
    | Some id => full_inv c' ∧ rows (a_DB c) !! id = None ∧ AssetGetSafe (a_DB c') id = Some (Some (mkInfo (zeros 16) pidOwner m_Height md)) ∧
        (∀ k, owner_at (a_DB c') k = if decide (k = id) then Some pidOwner else owner_at (a_DB c) k) ∧ (m_AlreadyValidated = false → ∀ k, owner_at (a_DB c) k ≠ Some pidOwner) ∧
        grows c c' ∧ assets_back (HandleAssetCreate_bwd m_AlreadyValidated m_SkipDefinition) c c'
    end.
Proof.
  intros Hf Hc. unfold HandleAssetCreate_fwd. destruct (Ensure_alike c Hf) as [HA U1]. cbn zeta in HA, U1. set (c1 := if m_AlreadyValidated then c else EnsureAssetsUsed c) in *.
  destruct (negb m_AlreadyValidated && _) eqn:Eb; [by exists None, c1|].
  pose proof HA as (_ & [I1 _ _] & D1 & R1 & _ & M1). set (c2 := if m_AlreadyValidated then c1 else NodeAssetKernel.set_used c1 (u32 (a_Used c1 + 1))).
  assert (Hc2 : a_DB c2 = a_DB c ∧ a_Mmr c2 = a_Mmr c1 ∧ a_Rollback c2 = a_Rollback c ∧ a_Used c2 = used0 c + (if m_AlreadyValidated then 0 else 1) ∧ (m_AlreadyValidated = false → 0 ≤ used0 c < s_MaxCount)).
  { pose proof (used_range c Hf) as Hu. unfold c2. destruct m_AlreadyValidated; cbn [andb negb] in Eb; [split_and!; try done; lia|]. specialize (Hu eq_refl). apply orb_false_iff in Eb as [_ Eb%Z.leb_gt]. rewrite U1 in Eb.
    cbn. rewrite MaxCount_eq in *. rewrite U1, u32_small by lia. split_and!; try done; intros _; lia. }
  destruct Hc2 as (D2 & M2 & R2 & U2 & HU). destruct (InternalAssetAdd_new c2 (mkInfo [] pidOwner m_Height md)) as (c3 & id & E3 & I3 & (K1 & K2 & _ & K4) & Hnew & Hid & Hkeep & Hdel & Hused & Hcnt);
    [eapply inv_frame; [| |exact I1]; congruence|by rewrite D2..|]. unfold bMmr in E3. rewrite E3. cbn [mbind option_bind]. eexists (Some id), _. split; [done|]. rewrite D2 in *.
  set (c5 := if m_Temporary then _ else _).
  assert (Hc5 : a_DB c5 = a_DB c3 ∧ a_Mmr c5 = a_Mmr c3 ∧ a_Used c5 = a_Used c3 ∧ a_Rollback c5 = ACreate id :: a_Rollback c3) by by unfold c5; destruct m_Temporary.
  destruct Hc5 as (D5 & M5 & U5 & R5). clearbody c5. assert (U0 : used0 c5 = used0 c + (if m_AlreadyValidated then 0 else 1)).
  { rewrite used0_small; [by rewrite U5, K1, U2|]. intros Ea. rewrite U5, K1, U2, Ea. specialize (HU Ea). lia. }
  split_and!; [|done|unfold AssetGetSafe; by rewrite D5, Hid|by rewrite D5| |exists [ACreate id]; split; [by rewrite R5, K2, R2|by repeat constructor]|].
  { split; [by eapply inv_frame|rewrite D5; by apply Hcnt, Hf|]. intros Ea. rewrite U0, Ea, D5, Hused, (fi_used _ Hf Ea). lia. }
  { intros Ea. rewrite Ea in Eb. cbn [negb andb] in Eb. apply orb_false_iff in Eb as [Eb%negb_false_iff%Z.eqb_eq _]. rewrite D1 in Eb. by apply FindByOwner_none; [apply Hf|]. }
  intros x (_ & Hfx & Dx & Rx & Ux & Mx). unfold HandleAssetCreate_bwd. set (c6 := if m_AlreadyValidated then x else _). destruct (Ensure_frame x) as (Dx' & Mx' & Rx').
  assert (Hc6 : a_DB c6 = a_DB c3 ∧ a_Mmr c6 = a_Mmr x ∧ a_Rollback c6 = ACreate id :: a_Rollback c ∧ a_Used c6 = used0 c).
  { rewrite R5, K2, R2 in Rx. rewrite U0 in Ux. rewrite D5 in Dx. unfold used0 in Ux at 1. unfold c6. destruct m_AlreadyValidated; [split_and!; try done; lia|]. specialize (HU eq_refl). rewrite MaxCount_eq in *.
    cbn. rewrite Dx', Mx', Rx', Ux, u32_small by lia. split_and!; try done. lia. }
  clearbody c6. destruct Hc6 as (D6 & M6 & R6 & U6). unfold pop_rec. rewrite R6. cbn [mbind option_bind]. set (c7 := mkACtx _ _ _ _ _).
  destruct (InternalAssetDel_spec c7 id (fresh (mkInfo [] pidOwner m_Height md))) as (c8 & E8 & I8 & (L1 & L2 & _ & L4) & Hd8 & _).
  - eapply inv_frame; [..|exact (fi_inv _ Hfx)]; cbn; congruence.
  - cbn. by rewrite D6.
  - exists c8. split; [exact E8|]. cbn in Hd8, L1, L2, L4. rewrite D6, Hdel in Hd8. injection Hd8 as Hd8 _.
    assert (U8 : used0 c8 = used0 c) by (rewrite used0_small; [congruence|]; intros Ea; specialize (HU Ea); rewrite L1, U6; lia).
    split_and!; [done| |done|done|done|intros Es; rewrite (L4 Es), M6, (Mx Es), M5, (K4 Es), M2; by apply M1].
    split; [done|rewrite <- Hd8; apply Hf|]. intros Ea. rewrite U8, <- Hd8. by apply Hf.
Qed.

(** No free IDs right below the last asset. *)
Definition no_gap (d : NodeDB.t) (aid : Z) : Prop := aid = AssetsCount d → aid = 1 ∨ ∃ x, rows d !! (aid - 1) = Some (Some x).

Lemma memis0_zeros v : memis0 v = true → v = zeros (length v).
Proof. unfold memis0, zeros. induction v as [|b v IH]; cbn; [done|]. intros [E1 E2]%andb_true_iff. destruct b; [|done..]. f_equal. by apply IH. Qed.

(** The last ID after deleting [aid]. *)
Lemma count_after_del d d' aid ai : wf d → wf d' → rows d !! aid = Some (Some ai) →
  (∀ k, k ≤ s_AssetEmpty0 → rows d' !! k = if decide (k = aid) then None else rows d !! k) →
  (AssetsCount d = AssetsCount d' + 1 → aid = AssetsCount d) ∧ (no_gap d aid → AssetsCount d ≤ AssetsCount d' + 1).
Proof.
  intros Hwf Hwf' Hid Hrows. pose proof (wf_count _ Hwf). pose proof (wf_asset _ Hwf _ _ Hid).
  assert (Hin : ∀ k x, k ≠ aid → rows d !! k = Some (Some x) → k ≤ AssetsCount d').
  { intros k x Hne E. pose proof (wf_asset _ Hwf _ _ E). assert (E' : rows d' !! k = Some (Some x)) by (rewrite Hrows, decide_False by (unfold s_AssetEmpty0; done || lia); done).
    pose proof (wf_asset _ Hwf' _ _ E'). lia. }
  destruct (last_asset d Hwf ltac:(lia)) as [x Ex]. destruct (decide (aid = AssetsCount d)) as [E|Hne].
  - split; [done|]. intros Hgap. pose proof (wf_count _ Hwf'). destruct (Hgap E) as [?|[y Ey]]; [lia|]. apply Hin in Ey; lia.
  - apply Hin in Ex; lia.
Qed.

Lemma HandleAssetDestroy_spec pidOwner aid c : full_inv c → AssetGetSafe (a_DB c) aid ≠ None →
  ∃ r c', HandleAssetDestroy_fwd m_AlreadyValidated m_Temporary m_SkipDefinition m_Height LockPeriod pidOwner aid c = Some (r, c') ∧
    if r : bool then full_inv c' ∧ AssetGetSafe (a_DB c') aid = Some None ∧ (∀ k, owner_at (a_DB c') k = if decide (k = aid) then None else owner_at (a_DB c) k) ∧ grows c c' ∧
      ((m_AlreadyValidated = true → ∀ ai, rows (a_DB c) !! aid = Some (Some ai) → m_Owner ai = pidOwner ∧ memis0 (m_Value ai) = true) →
       (m_SkipDefinition = false → no_gap (a_DB c) aid) →
       assets_back (HandleAssetDestroy_bwd get_Hash m_AlreadyValidated m_SkipDefinition pidOwner aid) c c')
    else alike c c'.
Proof.
  intros Hf Hsafe. unfold HandleAssetDestroy_fwd. destruct (Ensure_alike c Hf) as [HA U1]. cbn zeta in HA, U1. set (c1 := if m_AlreadyValidated then c else EnsureAssetsUsed c) in *.
  pose proof HA as (_ & [I1 _ _] & D1 & R1 & _ & M1). rewrite D1. destruct (AssetGetSafe (a_DB c) aid) as [[ai|]|] eqn:Eg; [|by exists false, c1|done]. clear Hsafe.
  assert (Hid : rows (a_DB c) !! aid = Some (Some ai)) by (unfold AssetGetSafe in Eg; by destruct (rows (a_DB c) !! aid) as [[]|]; simplify_eq).
  destruct (negb m_AlreadyValidated && _) eqn:Eb; [by exists false, c1|].
  set (c2 := if m_AlreadyValidated then c1 else NodeAssetKernel.set_used c1 (u32 (a_Used c1 - 1))).
  assert (Hc2 : a_DB c2 = a_DB c ∧ a_Mmr c2 = a_Mmr c1 ∧ a_Rollback c2 = a_Rollback c ∧ a_Used c2 = (if m_AlreadyValidated then used0 c else u32 (used0 c - 1))).
  { unfold c2. destruct m_AlreadyValidated; [done|]. cbn. by rewrite U1. }
  destruct Hc2 as (D2 & M2 & R2 & U2). pose proof (fi_inv _ Hf) as Hinv. destruct (InternalAssetDel_spec c2 aid ai) as (c3 & E3 & I3 & (K1 & K2 & _ & K4) & _ & Hadd & Hle & Hrows & Hused & Hcnt);
    [eapply inv_frame; [| |exact I1]; congruence|by rewrite D2|]. unfold bMmr in E3. rewrite E3. cbn [mbind option_bind]. eexists true, _. split; [done|]. rewrite D2 in *.
  destruct (Hcnt (fi_counted _ Hf)) as [Hcnt' Hpos]. clear Hcnt.
  assert (HU : m_AlreadyValidated = false → 0 < used0 c ≤ s_MaxCount) by (intros Ea; pose proof (used_range c Hf Ea); rewrite (fi_used _ Hf Ea) in *; lia).
  set (c5 := if m_Temporary then _ else _).
  assert (Hc5 : a_DB c5 = a_DB c3 ∧ a_Mmr c5 = a_Mmr c3 ∧ a_Used c5 = a_Used c3 ∧ a_Rollback c5 = ADestroy (m_Metadata ai) (m_LockHeight ai) :: a_Rollback c3) by by unfold c5; destruct m_Temporary.
  destruct Hc5 as (D5 & M5 & U5 & R5). clearbody c5. assert (U0 : used0 c5 = used0 c - (if m_AlreadyValidated then 0 else 1)).
  { assert (Ea : a_Used c5 = used0 c - (if m_AlreadyValidated then 0 else 1)).
    { rewrite U5, K1, U2. destruct m_AlreadyValidated; [lia|]. specialize (HU eq_refl). rewrite MaxCount_eq in HU. rewrite u32_small; lia. }
    rewrite used0_small; [done|]. intros E. rewrite Ea, E. specialize (HU E). lia. }
  pose proof (wf_asset _ (as_wf _ Hinv) _ _ Hid) as Hr. pose proof (wf_count _ (as_wf _ Hinv)) as Hct.
  split_and!; [|unfold AssetGetSafe; rewrite D5, Hrows, decide_True by (unfold s_AssetEmpty0; done || lia); done|rewrite D5; apply (owner_at_upd _ _ aid None); [apply Hinv|apply I3|unfold s_AssetEmpty0; lia|done]|eexists [_]; split; [by rewrite R5, K2, R2|by repeat constructor]|].
  { split; [by eapply inv_frame|by rewrite D5|]. intros Ea. rewrite U0, Ea, D5, Hused, (fi_used _ Hf Ea). lia. }
  intros Hval Hmmr x (_ & Hfx & Dx & Rx & Ux & Mx).
  assert (Hai : m_Owner ai = pidOwner ∧ memis0 (m_Value ai) = true).
  { destruct m_AlreadyValidated; [by apply Hval|]. cbn in Eb. rewrite !orb_false_iff, !negb_false_iff, bool_decide_eq_true in Eb. tauto. }
  unfold HandleAssetDestroy_bwd. destruct (Ensure_alike x Hfx) as [(_ & [I6 _ _] & D6 & R6 & _ & M6) U6]. cbn zeta in D6, R6, M6, U6, I6.
  set (c6 := if m_AlreadyValidated then x else EnsureAssetsUsed x) in *. rewrite Rx, R5, K2, R2 in R6. rewrite Dx, D5 in D6. rewrite Ux, U0 in U6. clearbody c6.
  unfold pop_rec. rewrite R6. cbn [mbind option_bind]. set (c7 := mkACtx _ _ _ _ _). set (ai' := mkInfo [] pidOwner (m_LockHeight ai) (m_Metadata ai)).
  assert (Eai : fresh ai' = ai).
  { destruct Hai as [Ho Hz]. apply memis0_zeros in Hz. destruct (as_amounts _ Hinv _ _ Hid) as [_ Hl]. rewrite Hl in Hz. unfold fresh. destruct ai; cbn in *. by subst. }
  destruct (count_after_del (a_DB c) (a_DB c3) aid ai) as [Hlast Hgap]; [apply Hinv|apply I3|done|done|].
  destruct (InternalAssetAdd_from c7 aid ai' (a_DB c) aid) as (c8 & E8 & D8 & I8 & (L1 & L2 & _ & L4)).
  all: cbn [c7 a_DB]; rewrite ?Eai, ?D6; try done.
  - by eapply inv_frame; [..|exact I6].
  - by apply Hinv.
  - intros Es. by apply Hgap, Hmmr.
  - intros k Hk. rewrite Hrows by done. by destruct (decide (k = aid)) as [->|].
  - unfold bMmr in E8. rewrite E8. cbn [mbind option_bind]. rewrite decide_True by done. eexists. split; [done|]. cbn in L1, L2, L4.
    set (c9 := if m_AlreadyValidated then c8 else _). assert (Hc9 : a_DB c9 = a_DB c ∧ a_Mmr c9 = a_Mmr c8 ∧ a_Rollback c9 = a_Rollback c ∧ a_Used c9 = used0 c).
    { unfold c9. destruct m_AlreadyValidated; [split_and!; try done; rewrite L1, U6; lia|]. specialize (HU eq_refl). rewrite MaxCount_eq in HU. cbn. rewrite L1, U6, u32_small by lia. split_and!; try done. lia. }
    clearbody c9. destruct Hc9 as (D9 & M9 & R9 & U9). assert (U9' : used0 c9 = used0 c) by (rewrite used0_small; [done|]; intros Ea; specialize (HU Ea); rewrite U9; lia).
    split_and!; [done| |done|done|done|intros Es; rewrite M9, (L4 Es), (M6 Es), (Mx Es), M5, (K4 Es), M2; by apply M1].
    split; [eapply inv_frame; [| |exact I8]; congruence|rewrite D9; apply Hf|]. intros Ea. rewrite U9', D9. by apply Hf.
Qed.

(** ** Emission *)

Definition put (d : NodeDB.t) (aid : Z) (ai : Info) : NodeDB.t := set_rows d (<[aid := Some ai]> (rows d)).

Lemma wf_put d aid ai ai' : wf d → rows d !! aid = Some (Some ai) → wf (put d aid ai').
Proof.
  intros [H1 H2 H3 H4 H5] E. split; cbn [put rows set_rows AssetsCount].
  - done.
  - intros k x. rewrite lookup_insert_Some. intros [[<- _]|[_ Ek]]; [by eapply H2|by eapply H2].
  - intros k. rewrite lookup_insert_Some. intros [[_ ?]|[Hne Ek]]; [done|]. destruct (H3 _ Ek) as [? Ek']. split; [done|]. rewrite lookup_insert_ne; [done|congruence].
  - intros i Hi. rewrite lookup_insert_None. intros [Ei Hne]. rewrite lookup_insert_ne; [by apply H4|]. pose proof (H2 _ _ E). unfold s_AssetEmpty0. lia.
  - intros Hc. specialize (H5 Hc). rewrite lookup_insert_None. tauto.
Qed.

Lemma put_put d aid ai ai' : rows d !! aid = Some (Some ai) → put (put d aid ai') aid ai = d.
Proof. intros E. unfold put, set_rows. cbn. rewrite insert_insert_eq, insert_id by done. by destruct d. Qed.

(** Storing the value and the lock height of an asset. *)
Lemma AssetSetValue_mmr (c : ACtx) aid ai v lock : assets_inv c → rows (a_DB c) !! aid = Some (Some ai) → bytes v → length v = 16%nat →
  let ai' := mkInfo v (m_Owner ai) lock (m_Metadata ai) in let c1 := set_db c (put (a_DB c) aid ai') in
  ∃ c', AssetSetValue (a_DB c) aid v lock = Some (put (a_DB c) aid ai') ∧
    (if m_SkipDefinition then Some c1 else m ← Mmr.Replace (a_Mmr c1) (aid - 1) (get_Hash aid ai'); Some (set_mmr c1 m)) = Some c' ∧
    assets_inv c' ∧ kept c c' ∧ a_DB c' = put (a_DB c) aid ai'.
Proof.
  intros Hinv Hid Hv Hl ai' c1. pose proof (as_wf _ Hinv) as Hwf. assert (Hwf' : wf (put (a_DB c) aid ai')) by by eapply wf_put.
  assert (Ham : amounts_ok (put (a_DB c) aid ai')).
  { intros k x. cbn. rewrite lookup_insert_Some. intros [[_ [= <-]]|[_ Ek]]; [done|by apply (as_amounts _ Hinv k)]. }
  unfold AssetSetValue. rewrite Hid. cbn [c1 a_Mmr set_db]. destruct m_SkipDefinition eqn:Es.
  - exists c1. split_and!; [done|done|split; [done|done|congruence]|by split_and!|done].
  - pose proof (as_mmr _ Hinv Es) as Hm. pose proof (wf_asset _ Hwf _ _ Hid) as Hr. destruct (mmr_replace (a_Mmr c) _ _ (aid - 1) (get_Hash aid ai') Hm) as (m' & -> & Hm'); [lia|].
    eexists. split_and!; [done|done| |by split_and!; try done; congruence|done]. split; [done|done|]. intros _. eapply mmr_ext; [|exact Hm'].
    apply leaf_of_upd; [cbn; by apply Hwf|intros k _ Hne; cbn; by rewrite lookup_insert_ne|]. cbn. by rewrite lookup_insert_eq.
Qed.

(** The lock height, as [HandleAssetEmit] updates it. *)
Definition emit_lock (bFwd : bool) (v : list Z) (ai : Info) (c : ACtx) : option (Z * ACtx) :=
  if Bool.eqb (memis0 v) (memis0 (m_Value ai)) then Some (m_LockHeight ai, c)
  else if bFwd then Some (m_Height, push_rec c (AEmit (m_LockHeight ai)))
  else '(r, c) ← pop_rec c; match r with AEmit lock => Some (lock, c) | _ => None end.

Lemma Emit_step bFwd pidOwner aid val c ai v lock c1 : assets_inv c → rows (a_DB c) !! aid = Some (Some ai) →
  bFwd && negb m_AlreadyValidated && negb (bool_decide (m_Owner ai = pidOwner)) = false →
  emit_value (m_Value ai) val bFwd = Some (Some v) → bytes v → length v = 16%nat → emit_lock bFwd v ai c = Some (lock, c1) →
  ∃ c', HandleAssetEmit get_Hash m_AlreadyValidated m_Temporary m_SkipDefinition m_Height bFwd pidOwner aid val c = Some (true, c') ∧
    assets_inv c' ∧ a_DB c' = put (a_DB c) aid (mkInfo v (m_Owner ai) lock (m_Metadata ai)) ∧ a_Rollback c' = a_Rollback c1 ∧ a_Used c' = a_Used c ∧
    (m_SkipDefinition = true → a_Mmr c' = a_Mmr c).
Proof.
  intros Hinv Hid Hg Ev Hv Hl Elock. assert (H1 : a_DB c1 = a_DB c ∧ a_Mmr c1 = a_Mmr c ∧ a_Used c1 = a_Used c).
  { unfold emit_lock, pop_rec in Elock. destruct (Bool.eqb _ _), bFwd; simplify_eq; try done. by destruct (a_Rollback c) as [|[]]; simplify_eq/=. }
  destruct H1 as (D1 & M1 & U1). destruct (AssetSetValue_mmr c1 aid ai v lock) as (c' & Es & Em & Hinv' & (K1 & K2 & K3 & K4) & Hdb); [by eapply inv_frame|by rewrite D1|done..|].
  unfold HandleAssetEmit, AssetGetSafe. rewrite Hid, Hg, Ev. unfold emit_lock in Elock. rewrite Elock. cbn [mbind option_bind]. rewrite Es. cbn [mbind option_bind]. cbn [mbind option_bind] in Em. rewrite Em. cbn [mbind option_bind].
  eexists. split; [done|]. rewrite D1 in Hdb. destruct (bFwd && negb m_Temporary); cbn; (split_and!; [|congruence..|intros Esk; rewrite K4 by done; congruence]); [by eapply inv_frame; [..|exact Hinv']|done].
Qed.

Lemma used0_eq (c c' : ACtx) : a_DB c' = a_DB c ∨ AssetsCountUsed (a_DB c') = AssetsCountUsed (a_DB c) → a_Used c' = a_Used c → used0 c' = used0 c.
Proof.
  intros Hd Eu. assert (Ed : AssetsCountUsed (a_DB c') = AssetsCountUsed (a_DB c)) by (destruct Hd as [->|]; done).
  unfold used0, EnsureAssetsUsed. destruct m_AlreadyValidated; [done|]. rewrite Eu. destruct (_ =? _); [cbn; by rewrite Ed|done].
Qed.

Lemma counted_put d aid ai ai' : rows d !! aid = Some (Some ai) → counted d → counted (put d aid ai').
Proof.
  intros E Hc. unfold counted in *. cbn [put set_rows AssetsCountUsed]. rewrite Hc. unfold reals. cbn [put set_rows rows].
  rewrite (omap_insert_Some id (rows d) aid (Some ai') ai') by done. rewrite map_size_insert_Some; [done|]. by rewrite lookup_omap, E.
Qed.

Lemma HandleAssetEmit_spec pidOwner aid val c : full_inv c → - 2 ^ 63 ≤ val < 2 ^ 63 → AssetGetSafe (a_DB c) aid ≠ None →
  let emit := HandleAssetEmit get_Hash m_AlreadyValidated m_Temporary m_SkipDefinition m_Height in
  ∃ r c', emit true pidOwner aid val c = Some (r, c') ∧
    if r : bool then
      full_inv c' ∧
      (∃ ai ai', AssetGetSafe (a_DB c) aid = Some (Some ai) ∧ AssetGetSafe (a_DB c') aid = Some (Some ai') ∧ ⟦m_Value ai'⟧ = ⟦m_Value ai⟧ + val ∧
        m_Owner ai' = m_Owner ai ∧ m_Metadata ai' = m_Metadata ai ∧ (m_AlreadyValidated = false → m_Owner ai = pidOwner)) ∧
      (∀ k, owner_at (a_DB c') k = owner_at (a_DB c) k) ∧ grows c c' ∧ assets_back (λ x, '(r, x) ← emit false pidOwner aid val x; if r : bool then Some x else None) c c'
    else c' = c ∧ ∀ ai, AssetGetSafe (a_DB c) aid = Some (Some ai) → m_Owner ai ≠ pidOwner ∨ ¬ 0 ≤ ⟦m_Value ai⟧ + val < 2 ^ 128.
Proof.
  intros Hf Hval Hsafe emit. pose proof (fi_inv _ Hf) as Hinv. destruct (AssetGetSafe (a_DB c) aid) as [[ai|]|] eqn:Eg; [|by exists false, c; unfold emit, HandleAssetEmit; rewrite Eg|done]. clear Hsafe.
  assert (Hid : rows (a_DB c) !! aid = Some (Some ai)) by (unfold AssetGetSafe in Eg; by destruct (rows (a_DB c) !! aid) as [[]|]; simplify_eq).
  destruct (true && negb m_AlreadyValidated && negb (bool_decide (m_Owner ai = pidOwner))) eqn:Eb.
  { exists false, c. split_and!; [unfold emit, HandleAssetEmit; by rewrite Eg, Eb|done|]. intros x [= <-]. left. rewrite !andb_true_iff, !negb_true_iff, bool_decide_eq_false in Eb. tauto. }
  destruct (as_amounts _ Hinv _ _ Hid) as [Hvb Hvl]. destruct (emit_value_spec (m_Value ai) val true Hvb Hvl Hval) as [(v & Eev & Hv & Hl & Ev)|[Eev Hov]].
  2: { exists false, c. split_and!; [unfold emit, HandleAssetEmit; by rewrite Eg, Eb, Eev|done|]. intros x [= <-]. by right. }
  assert (Hlk : ∃ lock c1, emit_lock true v ai c = Some (lock, c1)) by (unfold emit_lock; destruct (Bool.eqb _ _); eauto). destruct Hlk as (lock & c1 & Elk).
  destruct (Emit_step true pidOwner aid val c ai v lock c1) as (c' & E' & I' & D' & R' & U' & M'); try done.
  set (ai' := mkInfo v (m_Owner ai) lock (m_Metadata ai)) in *.
  assert (Hid' : rows (a_DB c') !! aid = Some (Some ai')) by (rewrite D'; apply lookup_insert_eq).
  assert (U0 : used0 c' = used0 c) by (apply used0_eq; [right; by rewrite D'|done]).
  exists true, c'. split_and!; [done|..].
  - split; [done|rewrite D'; by eapply counted_put, Hf|]. intros Ea. rewrite U0, D'. by apply Hf.
  - exists ai, ai'. unfold AssetGetSafe. rewrite Hid'. split_and!; try done. intros Ea. rewrite Ea in Eb. cbn in Eb. by rewrite negb_false_iff, bool_decide_eq_true in Eb.
  - intros k. rewrite D'. unfold owner_at, put. cbn [rows set_rows]. destruct (decide (k = aid)) as [->|]; [by rewrite lookup_insert_eq, Hid|by rewrite lookup_insert_ne].
  - unfold emit_lock in Elk. destruct (Bool.eqb _ _); injection Elk as <- <-; [by exists []|eexists [_]; split; [by rewrite R'|by repeat constructor]].
  - intros x (_ & Hfx & Dx & Rx & Ux & Mx). assert (Ev' : emit_value v val false = Some (Some (m_Value ai))).
    { destruct (emit_value_spec v val false Hv Hl Hval) as [(v' & -> & Hv' & Hl' & Ev')|[_ Hov]].
      - do 2 f_equal. apply val_inj; [congruence|done..|]. cbn in Ev, Ev'. lia.
      - exfalso. apply Hov. pose proof (val_range _ Hvb) as Rv. rewrite Hvl in Rv. change (256 ^ Z.of_nat 16) with (2 ^ 128) in Rv. cbn in Ev |- *. lia. }
    assert (Hlk' : ∃ c2, emit_lock false (m_Value ai) ai' x = Some (m_LockHeight ai, c2) ∧ a_Rollback c2 = a_Rollback c).
    { rewrite R' in Rx. unfold emit_lock in Elk |- *. cbn [m_Value ai' m_LockHeight]. destruct (memis0 v), (memis0 (m_Value ai)); cbn [Bool.eqb] in *; injection Elk as <- <-; unfold pop_rec; rewrite ?Rx; cbn; eauto. }
    destruct Hlk' as (c2 & Elk' & R2). destruct (Emit_step false pidOwner aid val x ai' (m_Value ai) (m_LockHeight ai) c2) as (c'' & E'' & I'' & D'' & R'' & U'' & M''); try done; [apply Hfx|by rewrite Dx|].
    exists c''. unfold emit. rewrite E''. cbn [mbind option_bind]. assert (Dc : a_DB c'' = a_DB c) by (rewrite D'', Dx, D'; cbn [ai' m_Owner m_Metadata]; rewrite put_put; by destruct ai).
    assert (U9 : used0 c'' = used0 c) by (rewrite (used0_eq x c''); [congruence| |done]; right; by rewrite Dc, Dx, D').
    split; [done|]. split_and!; [done| |done|congruence|done|intros Es; rewrite M'', Mx, M' by done; done].
    split; [done|rewrite Dc; apply Hf|]. intros Ea. rewrite U9, Dc. by apply Hf.
Qed.

End Spec.
