(* ===== verification/NodeBlock.v ===== *)
(** * node/processor.cpp: interpreting a transaction, forward and backward

    The drivers [HandleElementVecFwd], [HandleElementVecBwd], [HandleValidatedTx],
    [HandleKernel] and [DependentContextSwitch], over any state and any handlers of inputs,
    outputs and kernels.  What they need of a handler is the class [Undoable]: going
    backward it undoes what it did going forward, and when it refuses it has done nothing.
    The drivers promise the same of themselves. *)

From Stdlib Require Import RelationClasses.
From stdpp Require Import base list numbers option gmap countable.
From S2P Require Import Prelude.
Local Open Scope Z_scope.

(** [BlockInterpretCtx]: the direction, the index of the kernel and what the handlers work on. *)
Record Bic (C : Type) := mkBic { m_Fwd : bool; m_nKrnIdx : Z; m_State : C }.
Arguments mkBic {C} _ _ _.
Arguments m_Fwd {C} _.
Arguments m_nKrnIdx {C} _.
Arguments m_State {C} _.

Definition set_Fwd {C} (b : Bic C) (f : bool) : Bic C := mkBic f (m_nKrnIdx b) (m_State b).
Definition set_KrnIdx {C} (b : Bic C) (i : Z) : Bic C := mkBic (m_Fwd b) i (m_State b).
Definition set_State {C} (b : Bic C) (s : C) : Bic C := mkBic (m_Fwd b) (m_nKrnIdx b) s.

(** [HandleBlockElement]: whether it succeeds, the element (an input keeps what it found in
    [m_Internal]) and the context.  [None] is an exception. *)
Definition Handler (C E : Type) : Type := E → Bic C → option (bool * E * Bic C).

Section Driver.
Context {C : Type}.

Definition HandleElementVecFwd {E} (HandleBlockElement : Handler C E) : list E → Bic C → nat → option (bool * list E * Bic C * nat) :=
  fix go vec bic n :=
    match vec with
    | [] => Some (true, [], bic, n)
    | v :: vec =>
      '(ok, v, bic) ← HandleBlockElement v bic;
      if ok : bool then
        '(ok, vec, bic, n) ← go vec bic (S n);
        Some (ok, v :: vec, bic, n)
      else Some (false, v :: vec, bic, n)
    end.

(** The first [n] elements, the last of them first. *)
Definition HandleElementVecBwd {E} (HandleBlockElement : Handler C E) : list E → Bic C → nat → option (list E * Bic C) :=
  fix go vec bic n :=
    match n, vec with
    | O, _ => Some (vec, bic)
    | S n, v :: vec =>
      '(vec, bic) ← go vec bic n;
      '(ok, v, bic) ← HandleBlockElement v bic;
      if ok : bool then Some (v :: vec, bic) else None
    | S _, [] => None
    end.

Record TxVectors (I O K : Type) := mkTx { m_vInputs : list I; m_vOutputs : list O; m_vKernels : list K }.
Arguments mkTx {I O K} _ _ _.
Arguments m_vInputs {I O K} _.
Arguments m_vOutputs {I O K} _.
Arguments m_vKernels {I O K} _.

(** [HandleElementVecFwd(...) &&]: when the elements before were refused, none is handled. *)
Definition and_then {E} (h : Handler C E) (ok : bool) (vec : list E) (bic : Bic C) : option (bool * list E * Bic C * nat) :=
  if ok then HandleElementVecFwd h vec bic 0 else Some (false, vec, bic, O).

Definition HandleValidatedTx {I O K} (hI : Handler C I) (hO : Handler C O) (hK : Handler C K) : Handler C (TxVectors I O K) := λ (txv : TxVectors I O K) (bic : Bic C),
  let bFwd := m_Fwd bic in
  '(bOk, txv, bic, pN) ←
    (if bFwd then
       '(bOk, vI, bic, n0) ← and_then hI true (m_vInputs txv) bic;
       '(bOk, vO, bic, n1) ← and_then hO bOk (m_vOutputs txv) bic;
       '(bOk, vK, bic, n2) ← and_then hK bOk (m_vKernels txv) bic;
       Some (bOk, mkTx vI vO vK, if bOk : bool then bic else set_Fwd bic false, (n0, n1, n2))
     else Some (true, txv, bic, (length (m_vInputs txv), length (m_vOutputs txv), length (m_vKernels txv))));
  if bOk && bFwd then Some (true, txv, bic)
  else
    let '(n0, n1, n2) := pN in
    '(vK, bic) ← HandleElementVecBwd hK (m_vKernels txv) bic n2;
    '(vO, bic) ← HandleElementVecBwd hO (m_vOutputs txv) bic n1;
    '(vI, bic) ← HandleElementVecBwd hI (m_vInputs txv) bic n0;
    Some (bOk, mkTx vI vO vK, if bOk : bool then bic else set_Fwd bic true).

(** A kernel with the nested ones. *)
Inductive TxKernel (K : Type) := Krn (krn : K) (m_vNested : list (TxKernel K)).
Arguments Krn {K} _ _.

(** A kernel is not changed by its handler. *)
Definition unchanged {E} (h : E → Bic C → option (bool * Bic C)) : Handler C E := λ v bic, '(ok, bic) ← h v bic; Some (ok, v, bic).

Fixpoint HandleKernel {K} (HandleKernelTypeAny : K → Bic C → option (bool * Bic C)) (v : TxKernel K) (bic : Bic C) {struct v} : option (bool * Bic C) :=
  match v with
  | Krn krn m_vNested =>
    '(bOk, bic, n) ←
      (if m_Fwd bic then
         '(bOk, _, bic, n) ← HandleElementVecFwd (unchanged (HandleKernel HandleKernelTypeAny)) m_vNested bic 0;
         Some (bOk, bic, n)
       else Some (true, set_KrnIdx bic (u32 (m_nKrnIdx bic - 1)), length m_vNested));
    '(bOk, bic) ← (if bOk : bool then HandleKernelTypeAny krn bic else Some (false, bic));
    bic ← (if bOk : bool then Some (if m_Fwd bic then set_KrnIdx bic (u32 (m_nKrnIdx bic + 1)) else bic)
           else if m_Fwd bic then Some (set_Fwd bic false) else None);
    bic ← (if m_Fwd bic then Some bic
           else '(_, bic) ← HandleElementVecBwd (unchanged (HandleKernel HandleKernelTypeAny)) m_vNested bic n; Some bic);
    Some (bOk, if bOk : bool then bic else set_Fwd bic true)
  end.

(** ** DependentContextSwitch *)

(** [TxPool::Dependent::Element]: a transaction and the one it depends on. *)
Inductive Element (T : Type) := El (m_pValue : T) (m_pParent : option (Element T)).
Arguments El {T} _ _.

Fixpoint Convert_count {T} (p : Element T) : nat :=
  match p with El _ q => S (match q with Some q => Convert_count q | None => O end) end.

(** [vec[--n] = p] up the chain; the vector has [n] places. *)
Fixpoint Convert_fill {T} (p : Element T) (n : nat) (vec : list T) : list T :=
  match p with
  | El v q => let n := pred n in let vec := <[n := v]> vec in match q with Some q => Convert_fill q n vec | None => vec end
  end.

Definition Convert {T} (pTop : Element T) : list T :=
  let n := Convert_count pTop in
  Convert_fill pTop n (replicate n (match pTop with El v _ => v end)).

(** [Apply]: the outcome, the transactions, the context and [m_Applied]. *)
Definition Apply {T} (HandleTx : Handler C T) (pTop : Element T) (bic : Bic C) : option (bool * list T * Bic C * nat) :=
  HandleElementVecFwd HandleTx (Convert pTop) bic 0.

(** The loop of the destructor: the outcome of [HandleValidatedTx] is ignored. *)
Definition undo_applied {T} (HandleTx : Handler C T) : list T → Bic C → nat → option (Bic C) :=
  fix go vec bic n :=
    match n, vec with
    | O, _ => Some bic
    | S n, v :: vec => bic ← go vec bic n; '(_, _, bic) ← HandleTx v bic; Some bic
    | S _, [] => None
    end.

(** [m_Prev] is the tip, [m_setContexts] the contexts of the pool, and [wrk] works on the
    processor. *)
Definition ExecInDependentContext {T} (HandleTx : Handler C T) (m_Prev : list Z) (m_setContexts : gmap (list Z) (Element T))
    (wrk : C → option C) (pCtx : option (list Z)) (s : C) : option (bool * C) :=
  match pCtx with
  | None => s ← wrk s; Some (true, s)
  | Some ctx =>
    if decide (m_Prev = ctx) then s ← wrk s; Some (true, s)
    else
      match m_setContexts !! ctx with
      | None => Some (false, s)
      | Some pTop =>
        '(ok, vec, bic, m_Applied) ← Apply HandleTx pTop (mkBic true 0 s);
        bic ← (if ok : bool then s ← wrk (m_State bic); Some (set_State bic s) else Some bic);
        bic ← undo_applied HandleTx vec (set_Fwd bic false) m_Applied;
        Some (ok, m_State bic)
      end
  end.

End Driver.

Arguments mkTx {I O K} _ _ _.
Arguments m_vInputs {I O K} _.
Arguments m_vOutputs {I O K} _.
Arguments m_vKernels {I O K} _.
Arguments Krn {K} _ _.
Arguments El {T} _ _.
