(* ===== verification/NodeBlockSpec.v ===== *)
(** * node/processor.cpp: the drivers undo what they do

    Whatever handlers of inputs, outputs and kernels are undoable, so is the transaction
    made of them: a transaction that is refused leaves no trace, and one that was applied is
    undone exactly. *)

From Stdlib Require Import RelationClasses.
From stdpp Require Import base list numbers option.
From S2P Require Import Prelude NodeBlock.
Local Open Scope Z_scope.

Section Laws.
Context {C : Type} (R : relation C) `{!RelationClasses.PER R}.

(** Contexts that cannot be told apart; a state is valid when it is related to itself. *)
Definition bic_rel (b b' : Bic C) : Prop :=
  m_Fwd b = m_Fwd b' ∧ m_nKrnIdx b = m_nKrnIdx b' ∧ 0 ≤ m_nKrnIdx b < 2 ^ 32 ∧ R (m_State b) (m_State b').

Local Infix "≈" := bic_rel (at level 70).

#[export] Instance bic_rel_per : RelationClasses.PER bic_rel.
Proof.
  split.
  - intros b b' (E1 & E2 & E3 & E4). split_and!; [done|done|lia..|by symmetry].
  - intros b b' b'' (E1 & E2 & E3 & E4) (F1 & F2 & F3 & F4). split_and!; [congruence|congruence|lia..|by etransitivity].
Qed.

#[export] Instance set_Fwd_proper : Proper (bic_rel ==> eq ==> bic_rel) set_Fwd.
Proof. intros b b' (E1 & E2 & E3 & E4) f _ <-. done. Qed.

Lemma rel_self b b' : b ≈ b' → b ≈ b ∧ b' ≈ b'.
Proof. intros Hb. split; (etransitivity; [|by symmetry]); done || by symmetry. Qed.

(** [h e] takes whatever looks like [b'] back to something that looks like [b]. *)
Definition takes_back {E} (h : Handler C E) (e : E) (b b' : Bic C) : Prop :=
  ∀ x, set_Fwd b' false ≈ x → ∃ e' x', h e x = Some (true, e', x') ∧ set_Fwd b false ≈ x'.

(** Going forward on [e], a handler ends; it can be undone, and if it refuses it has changed
    nothing. *)
Definition undoable_at {E} (h : Handler C E) (ok : E → Bic C → Prop) (e : E) : Prop :=
  ∀ b, m_Fwd b = true → b ≈ b → ok e b →
    ∃ r e' b', h e b = Some (r, e', b') ∧ if r : bool then m_Fwd b' = true ∧ b' ≈ b' ∧ takes_back h e' b b' else b ≈ b'.

(** What the drivers need of a handler. *)
Class Undoable {E} (h : Handler C E) (ok : E → Bic C → Prop) : Prop := undoable e : undoable_at h ok e.

(** Every element is acceptable where it is reached. *)
Definition vec_ok {E} (h : Handler C E) (ok : E → Bic C → Prop) : list E → Bic C → Prop :=
  fix go vec b :=
    match vec with
    | [] => True
    | e :: vec => ok e b ∧ ∀ e' b', h e b = Some (true, e', b') → go vec b'
    end.

(** ** Vectors *)

Definition takes_back_vec {E} (h : Handler C E) (vec : list E) (n : nat) (b b' : Bic C) : Prop :=
  ∀ x, set_Fwd b' false ≈ x → ∃ vec' x', HandleElementVecBwd h vec x n = Some (vec', x') ∧ set_Fwd b false ≈ x'.

Lemma VecFwd_at {E} (h : Handler C E) ok vec b n : Forall (undoable_at h ok) vec → m_Fwd b = true → b ≈ b → vec_ok h ok vec b →
  ∃ r vec' b' n', HandleElementVecFwd h vec b n = Some (r, vec', b', (n + n')%nat) ∧ m_Fwd b' = true ∧ b' ≈ b' ∧
    (r = true → n' = length vec') ∧ takes_back_vec h vec' n' b b'.
Proof.
  revert b n. induction vec as [|e vec IH]; intros b n Hall Hf Hb Hok; cbn [HandleElementVecFwd].
  { exists true, [], b, O. rewrite Nat.add_0_r. split_and!; try done. intros x Hx. by exists [], x. }
  apply Forall_cons_1 in Hall as [Hund Hall]. destruct Hok as [He Hrest]. destruct (Hund b Hf Hb He) as ([] & e' & b1 & E1 & Hr); rewrite E1; cbn [mbind option_bind].
  - destruct Hr as (Hf1 & Hb1 & Hback). destruct (IH b1 (S n) Hall Hf1 Hb1 (Hrest _ _ E1)) as (r & vec' & b' & n' & -> & Hf' & Hb' & Hn & Hback').
    cbn [mbind option_bind]. exists r, (e' :: vec'), b', (S n'). rewrite Nat.add_succ_r. split_and!; try done; [cbn; intros E0; by rewrite Hn|].
    intros x Hx. destruct (Hback' x Hx) as (vec'' & x1 & E2 & Hx1). destruct (Hback x1 Hx1) as (e'' & x' & E3 & Hx').
    exists (e'' :: vec''), x'. cbn [HandleElementVecBwd]. rewrite E2. cbn [mbind option_bind]. by rewrite E3.
  - exists false, (e' :: vec), b1, O. rewrite Nat.add_0_r. destruct (rel_self _ _ Hr). pose proof Hr as (Ef & _). split_and!; try done; [congruence|].
    intros x Hx. exists (e' :: vec), x. split; [done|]. etransitivity; [|exact Hx]. by apply set_Fwd_proper.
Qed.

Lemma VecFwd_spec {E} (h : Handler C E) ok `{!Undoable h ok} vec b n : m_Fwd b = true → b ≈ b → vec_ok h ok vec b →
  ∃ r vec' b' n', HandleElementVecFwd h vec b n = Some (r, vec', b', (n + n')%nat) ∧ m_Fwd b' = true ∧ b' ≈ b' ∧
    (r = true → n' = length vec') ∧ takes_back_vec h vec' n' b b'.
Proof. apply VecFwd_at. apply Forall_true. apply undoable. Qed.

Lemma unchanged_eq {E} (h : E → Bic C → option (bool * Bic C)) v b : unchanged h v b = '(ok, b) ← h v b; Some (ok, v, b).
Proof. done. Qed.

Lemma VecFwd_unchanged {E} (h : E → Bic C → option (bool * Bic C)) vec b n r vec' b' n' :
  HandleElementVecFwd (unchanged h) vec b n = Some (r, vec', b', n') → vec' = vec.
Proof.
  revert b n vec' n'. induction vec as [|e vec IH]; intros b n vec' n'; cbn [HandleElementVecFwd]; [congruence|]. rewrite unchanged_eq.
  destruct (h e b) as [[[] b1]|]; cbn [mbind option_bind]; [|by intros [= <- <- <- <-]|done].
  destruct (HandleElementVecFwd _ vec b1 (S n)) as [[[[? vec1] ?] ?]|] eqn:E1; cbn; [|done]. intros [= -> <- -> ->]. f_equal. by eapply IH.
Qed.

(** ** Transactions *)

Lemma and_then_spec {E} (h : Handler C E) ok `{!Undoable h ok} r0 vec b : m_Fwd b = true → b ≈ b → (r0 = true → vec_ok h ok vec b) →
  ∃ r vec' b' n', and_then h r0 vec b = Some (r, vec', b', n') ∧ m_Fwd b' = true ∧ b' ≈ b' ∧
    (r = true → n' = length vec' ∧ r0 = true) ∧ takes_back_vec h vec' n' b b'.
Proof.
  intros Hf Hb Hok. destruct r0; cbn [and_then].
  - destruct (VecFwd_spec h ok vec b 0 Hf Hb (Hok eq_refl)) as (r & vec' & b' & n' & E1 & Hf' & Hb' & Hn & Hback).
    exists r, vec', b', n'. split_and!; try done. intros ->. split; [by apply Hn|done].
  - exists false, vec, b, O. split_and!; try done. intros x Hx. exists vec, x. by destruct vec.
Qed.

Section Tx.
Context {I O K : Type} (hI : Handler C I) (hO : Handler C O) (hK : Handler C K).
Context (okI : I → Bic C → Prop) (okO : O → Bic C → Prop) (okK : K → Bic C → Prop).
Context `{!Undoable hI okI, !Undoable hO okO, !Undoable hK okK}.

Definition tx_ok (txv : TxVectors I O K) (b : Bic C) : Prop :=
  vec_ok hI okI (m_vInputs txv) b ∧
  ∀ vI b1 n0, HandleElementVecFwd hI (m_vInputs txv) b 0 = Some (true, vI, b1, n0) →
    vec_ok hO okO (m_vOutputs txv) b1 ∧
    ∀ vO b2 n1, HandleElementVecFwd hO (m_vOutputs txv) b1 0 = Some (true, vO, b2, n1) → vec_ok hK okK (m_vKernels txv) b2.

(** The three vectors, the last one first. *)
Lemma bwd_vectors vI vO vK n0 n1 n2 b b1 b2 b3 : takes_back_vec hI vI n0 b b1 → takes_back_vec hO vO n1 b1 b2 → takes_back_vec hK vK n2 b2 b3 →
  ∀ x, set_Fwd b3 false ≈ x → ∃ vK' x2 vO' x1 vI' x', HandleElementVecBwd hK vK x n2 = Some (vK', x2) ∧ HandleElementVecBwd hO vO x2 n1 = Some (vO', x1) ∧
    HandleElementVecBwd hI vI x1 n0 = Some (vI', x') ∧ set_Fwd b false ≈ x'.
Proof.
  intros B0 B1 B2 x Hx. destruct (B2 x Hx) as (vK' & x2 & E2 & H2). destruct (B1 x2 H2) as (vO' & x1 & E1 & H1). destruct (B0 x1 H1) as (vI' & x' & E0 & H0).
  by exists vK', x2, vO', x1, vI', x'.
Qed.

#[export] Instance HandleValidatedTx_undoable : Undoable (HandleValidatedTx hI hO hK) tx_ok.
Proof.
  intros [I0 O0 K0] b Hf Hb [Hok0 Hok]. unfold HandleValidatedTx. rewrite Hf. cbn [m_vInputs m_vOutputs m_vKernels] in *.
  destruct (and_then_spec hI okI true I0 b Hf Hb (λ _, Hok0)) as (r0 & vI & b1 & n0 & E0 & Hf1 & Hb1 & Hn0 & B0). rewrite E0. cbn [mbind option_bind].
  destruct (and_then_spec hO okO r0 O0 b1 Hf1 Hb1) as (r1 & vO & b2 & n1 & E1 & Hf2 & Hb2 & Hn1 & B1).
  { intros ->. cbn [and_then] in E0. by apply (Hok _ _ _ E0). }
  rewrite E1. cbn [mbind option_bind]. destruct (and_then_spec hK okK r1 K0 b2 Hf2 Hb2) as (r2 & vK & b3 & n2 & E2 & Hf3 & Hb3 & Hn2 & B2).
  { intros ->. destruct (Hn1 eq_refl) as [_ ->]. cbn [and_then] in E0, E1. by apply (proj2 (Hok _ _ _ E0) _ _ _ E1). }
  rewrite E2. cbn [mbind option_bind]. pose proof (bwd_vectors _ _ _ _ _ _ _ _ _ _ B0 B1 B2) as HB. destruct r2; cbn [andb mbind option_bind m_vInputs m_vOutputs m_vKernels].
  - exists true, (mkTx vI vO vK), b3. split_and!; try done. intros x Hx. pose proof Hx as (Ex & _). cbn in Ex. unfold HandleValidatedTx. rewrite <- Ex. cbn [mbind option_bind andb m_vInputs m_vOutputs m_vKernels].
    destruct (Hn2 eq_refl) as [<- ->]. destruct (Hn1 eq_refl) as [<- ->]. destruct (Hn0 eq_refl) as [<- _].
    destruct (HB x Hx) as (vK' & x2 & vO' & x1 & vI' & x' & -> & F1 & F0 & H0). cbn [mbind option_bind]. rewrite F1. cbn [mbind option_bind]. rewrite F0. cbn [mbind option_bind].
    by eexists _, _.
  - assert (Hx : set_Fwd b3 false ≈ set_Fwd b3 false) by by apply set_Fwd_proper. destruct (HB _ Hx) as (vK' & x2 & vO' & x1 & vI' & x' & -> & F1 & F0 & H0). cbn [mbind option_bind]. rewrite F1. cbn [mbind option_bind]. rewrite F0. cbn [mbind option_bind].
    eexists false, _, _. split; [done|]. destruct b as [f i s]. cbn in Hf. subst f. by destruct H0 as (_ & ? & ? & ?).
Qed.

End Tx.

(** ** Kernels with nested ones *)

Section Kernel.
Context {K : Type} (T : K → Bic C → option (bool * Bic C)) (okT : K → Bic C → Prop).
Context `{!Undoable (unchanged T) okT}.

Local Notation hN := (unchanged (HandleKernel T)).

Fixpoint krn_ok (v : TxKernel K) (b : Bic C) {struct v} : Prop :=
  match v with
  | Krn krn nested => vec_ok hN krn_ok nested b ∧
      ∀ vec b1 n, HandleElementVecFwd hN nested b 0 = Some (true, vec, b1, n) → okT krn b1
  end.

Lemma TxKernel_nested_ind (P : TxKernel K → Prop) : (∀ krn nested, Forall P nested → P (Krn krn nested)) → ∀ v, P v.
Proof. intros Hstep. fix IH 1. intros [krn nested]. apply Hstep. induction nested; constructor; [apply IH|done]. Qed.

(** The leaf of a kernel: what [HandleKernelTypeAny] does. *)
Lemma leaf_spec krn b : m_Fwd b = true → b ≈ b → okT krn b →
  ∃ r b', T krn b = Some (r, b') ∧ if r : bool then m_Fwd b' = true ∧ b' ≈ b' ∧ (∀ x, set_Fwd b' false ≈ x → ∃ x', T krn x = Some (true, x') ∧ set_Fwd b false ≈ x') else b ≈ b'.
Proof.
  intros Hf Hb Hok. destruct (undoable krn b Hf Hb Hok) as (r & e' & b' & E1 & Hr). unfold unchanged in E1.
  destruct (T krn b) as [[r1 b1]|]; [|done]. cbn in E1. injection E1 as -> <- ->. exists r, b'. split; [done|]. destruct r; [|done].
  destruct Hr as (H1 & H2 & H3). split_and!; try done. intros x Hx. destruct (H3 x Hx) as (e'' & x' & E2 & Hx'). unfold unchanged in E2.
  destruct (T krn x) as [[r2 b2]|]; [|done]. cbn in E2. injection E2 as -> _ ->. by exists x'.
Qed.

Lemma KrnIdx_back b' x : set_Fwd (set_KrnIdx b' (u32 (m_nKrnIdx b' + 1))) false ≈ x → b' ≈ b' → set_Fwd b' false ≈ set_KrnIdx x (u32 (m_nKrnIdx x - 1)).
Proof.
  intros (Hf & Hi & Hr & Hs) (_ & _ & Hr' & _). cbn in *. split_and!; cbn; try done; [|lia..]. rewrite <- Hi. unfold u32 in *. rewrite Zminus_mod_idemp_l.
  replace (m_nKrnIdx b' + 1 - 1) with (m_nKrnIdx b') by lia. rewrite Z.mod_small; lia.
Qed.

#[export] Instance HandleKernel_undoable : Undoable hN krn_ok.
Proof.
  intros v. induction v as [krn nested IH] using TxKernel_nested_ind. intros b Hf Hb [Hok HokT]. rewrite unchanged_eq. cbn [HandleKernel]. rewrite Hf.
  destruct (VecFwd_at hN krn_ok nested b 0 IH Hf Hb Hok) as (r & vec & b1 & n & E1 & Hf1 & Hb1 & Hn & Hback). rewrite E1. cbn [mbind option_bind Nat.add].
  pose proof (VecFwd_unchanged _ _ _ _ _ _ _ _ E1) as ->.
  (* the nested kernels are undone when the kernel is refused *)
  assert (Hundo : ∀ x, b1 ≈ x → ∃ vec x', HandleElementVecBwd hN nested (set_Fwd x false) n = Some (vec, x') ∧ b ≈ set_Fwd x' true).
  { intros x Hx. destruct (Hback (set_Fwd x false)) as (vec & x' & E2 & Hx'); [by apply set_Fwd_proper|]. exists vec, x'. split; [done|].
    destruct b as [f i s]. cbn in Hf. subst f. by destruct Hx' as (_ & ? & ? & ?). }
  destruct r.
  2: { cbn [mbind option_bind]. rewrite Hf1. cbn [set_Fwd m_Fwd mbind option_bind]. destruct (Hundo b1 Hb1) as (vec & x' & E2 & Hx'). rewrite E2. cbn [mbind option_bind].
       by eexists _, _, _. }
  destruct (leaf_spec krn b1 Hf1 Hb1 (HokT _ _ _ E1)) as ([] & b2 & -> & Hr); cbn [mbind option_bind].
  - destruct Hr as (Hf2 & Hb2 & Hback2). rewrite Hf2. cbn [mbind option_bind m_Fwd set_KrnIdx]. rewrite Hf2. cbn [mbind option_bind].
    eexists true, (Krn krn nested), _. split; [done|]. split_and!; [done|..].
    { destruct Hb2 as (H1 & H2 & H3 & H4). split_and!; try done; cbn; unfold u32; apply Z.mod_pos_bound; lia. }
    intros x Hx. pose proof (KrnIdx_back b2 x Hx Hb2) as Hx1. rewrite unchanged_eq. cbn [HandleKernel]. pose proof Hx as (Ex & _). cbn in Ex. rewrite <- Ex. cbn [mbind option_bind].
    destruct (Hback2 _ Hx1) as (x2 & E3 & Hx2). rewrite E3. cbn [mbind option_bind]. pose proof Hx2 as (Ex2 & _). cbn in Ex2. rewrite <- Ex2. cbn [mbind option_bind]. rewrite <- Ex2.
    destruct (Hback x2 Hx2) as (vec & x' & E4 & Hx'). rewrite Hn in E4 by done. rewrite E4. cbn [mbind option_bind]. by eexists _, _.
  - pose proof Hr as (Ef & _). rewrite <- Ef, Hf1. cbn [set_Fwd m_Fwd mbind option_bind]. destruct (Hundo b2 Hr) as (vec & x' & E2 & Hx'). rewrite E2. cbn [mbind option_bind].
    by eexists _, _, _.
Qed.

End Kernel.

(** ** Dependent contexts *)

Lemma undo_applied_Bwd {T} (h : Handler C T) vec b n vec' b' : HandleElementVecBwd h vec b n = Some (vec', b') → undo_applied h vec b n = Some b'.
Proof.
  revert b n vec' b'. induction vec as [|e vec IH]; intros b [|n] vec' b'; cbn [HandleElementVecBwd undo_applied]; try congruence.
  destruct (HandleElementVecBwd h vec b n) as [[vec1 b1]|] eqn:E1; [|done]. cbn [mbind option_bind]. rewrite (IH _ _ _ _ E1). cbn [mbind option_bind].
  destruct (h e b1) as [[[[] e1] b2]|]; cbn; congruence.
Qed.

(** Working in the context of pending transactions leaves the state as it was. *)
Lemma ExecInDependentContext_spec {T} (h : Handler C T) ok `{!Undoable h ok} m_Prev m_setContexts wrk pCtx s : R s s →
  (∀ ctx pTop, pCtx = Some ctx → m_setContexts !! ctx = Some pTop → vec_ok h ok (Convert pTop) (mkBic true 0 s)) →
  (∀ x, R x x → ∃ x', wrk x = Some x' ∧ R x x') →
  ∃ r s', ExecInDependentContext h m_Prev m_setContexts wrk pCtx s = Some (r, s') ∧ R s s'.
Proof.
  intros Hs Hok Hwrk. unfold ExecInDependentContext, Apply. assert (Hdo : ∃ r s', (s ← wrk s; Some (true, s)) = Some (r, s') ∧ R s s').
  { destruct (Hwrk s Hs) as (x' & -> & Hx). by eexists _, _. }
  destruct pCtx as [ctx|]; [|done]. case_decide; [done|]. destruct (m_setContexts !! ctx) as [pTop|] eqn:Ec; [|by eexists _, _].
  set (b := mkBic true 0 s). assert (Hb : b ≈ b) by done.
  destruct (VecFwd_spec h ok (Convert pTop) b 0 eq_refl Hb (Hok _ _ eq_refl Ec)) as (r & vec & b1 & n & -> & Hf1 & Hb1 & _ & Hback). cbn [mbind option_bind Nat.add].
  assert (Hw : ∃ x, (if r then s ← wrk (m_State b1); Some (set_State b1 s) else Some b1) = Some x ∧ b1 ≈ x).
  { destruct r; [|by exists b1]. pose proof Hb1 as (E1 & E2 & E3 & E4). destruct (Hwrk (m_State b1) E4) as (x' & -> & Hx). by eexists. }
  destruct Hw as (x & -> & Hx). cbn [mbind option_bind].
  destruct (Hback (set_Fwd x false)) as (vec' & x' & E2 & Hx'); [by apply set_Fwd_proper|]. rewrite (undo_applied_Bwd _ _ _ _ _ _ E2). cbn. eexists _, _. split; [done|]. apply Hx'.
Qed.

End Laws.

(** The chain of parents, from the top. *)
Fixpoint chain {T} (p : Element T) : list T := match p with El v q => v :: match q with Some q => chain q | None => [] end end.

Lemma Convert_count_chain {T} (p : Element T) : Convert_count p = length (chain p).
Proof. revert p. fix IH 1. intros [v [q|]]; cbn; [by rewrite IH|done]. Qed.

Lemma Convert_fill_spec {T} (p : Element T) vec : (length (chain p) ≤ length vec)%nat →
  Convert_fill p (length (chain p)) vec = rev (chain p) ++ drop (length (chain p)) vec.
Proof.
  revert p vec. fix IH 1. intros [v [q|]] vec Hl; cbn [Convert_fill chain length pred rev] in *.
  - rewrite IH by (rewrite length_insert; lia). rewrite <- app_assoc. f_equal. rewrite (drop_S (<[_ := v]> vec) v (length (chain q))) by (apply list_lookup_insert_eq; lia).
    cbn. f_equal. by rewrite drop_insert_lt by lia.
  - destruct vec as [|x vec]; [cbn in Hl; lia|]. done.
Qed.

(** The transactions a context depends on, the oldest first. *)
Lemma Convert_spec {T} (p : Element T) : Convert p = rev (chain p).
Proof.
  unfold Convert. rewrite Convert_count_chain, Convert_fill_spec by by rewrite length_replicate. by rewrite drop_ge, app_nil_r by by rewrite length_replicate.
Qed.
