(* ===== verification/NodeUtxo.v ===== *)
(** * node/processor.cpp: the inputs and outputs of a transaction

    [HandleBlockElement] for [Input] and [Output], forward and backward, over the UTXO tree
    and the counter of the outputs, [m_Extra.m_Txos]. *)

From stdpp Require Import base list numbers option gmap.
From S2P Require Import Prelude Merkle RadixTree RadixTreeSpec RadixHash RadixMap RadixTraverse UtxoTree NodeBlock.
Local Open Scope Z_scope.
Import RadixTree UtxoTree.

Definition HeightGenesis : Z := 1.

(** Heights saturate. *)
Definition HeightAdd (trg val : Z) : Z :=
  let trg := u64 (trg + val) in
  if trg <? val then u64 (-1) else trg.

(** An input: the commitment, and what [m_Internal] remembers of the output it spends. *)
Record Input := mkInput { in_X : list Z; in_Y : Z; in_Maturity : Z; in_ID : Z }.

(** An output: the commitment, the begin of the range of its asset proof if it has one. *)
Record Output := mkOutput { out_X : list Z; out_Y : Z; m_Coinbase : bool; m_Incubation : Z; m_pAsset : option Z }.

Section Utxo.
Context {Hash : Type} (uninit : Hash) (junk : Z).
(* Rules::Maturity; the flags of BlockInterpretCtx *)
Context (Maturity_Coinbase Maturity_Std : Z).
Context (m_SkipInOuts m_SkipDefinition : bool) (m_Height m_AssetHi : Z).

Local Notation tree := (tree IDs Hash).

Record UState := mkU { m_Utxo : tree; m_Txos : Z }.

Definition set_Utxo (u : UState) (t : tree) : UState := mkU t (m_Txos u).
Definition set_Txos (u : UState) (n : Z) : UState := mkU (m_Utxo u) n.

Definition get_MinMaturity (v : Output) (h : Z) : Z :=
  let h := HeightAdd h (if m_Coinbase v then Maturity_Coinbase else Maturity_Std) in
  HeightAdd h (m_Incubation v).

Definition ValidateAssetRange (p : option Z) : bool :=
  match p with None => true | Some m_Begin => m_Begin <=? m_AssetHi end.

(** The traveler of the input: it stops at the first leaf; the cursor is left there. *)
Definition first_leaf (t : tree) (kMin kMax : list Z) : option (bool * option (CursorBase * addr)) :=
  Traverse t (λ _ cu a, (false, Some (cu, a))) (Some kMin, Some kMax) None.

Definition HandleInput_fwd (v : Input) (u : UState) : option (bool * Input * UState) :=
  let t := m_Utxo u in
  kMin ← Key.Key_assign (Key.mkData (in_X v) (in_Y v) (HeightGenesis - 1));
  kMax ← Key.Key_assign (Key.mkData (in_X v) (in_Y v) (u64 (m_Height - 1)));
  '(all, cu) ← first_leaf t kMin kMax;
  if all : bool then Some (false, v, u)
  else
    '(cu, p) ← cu;
    lf ← rt_Leaves t !! p;
    d ← Key.Data_assign (lf_Key lf);
    '(nID, t) ← match lf_Data lf with
      | OneID m_ID => t ← Delete t cu; Some (m_ID, t)
      | Queue _ _ => '(nID, x) ← PopID (lf_Data lf); t ← Modify t cu p x; Some (nID, t)
      end;
    Some (true, mkInput (in_X v) (in_Y v) (Key.m_Maturity d) nID, set_Utxo u t).

Definition HandleInput_bwd (v : Input) (u : UState) : option (bool * Input * UState) :=
  key ← Key.Key_assign (Key.mkData (in_X v) (in_Y v) (in_Maturity v));
  '(t, cu, bCreate, r) ← Find (OneID junk) uninit (m_Utxo u) key Key.s_Bits true;
  p ← r;
  t ← (if bCreate : bool then Some (set_Data t p (OneID (in_ID v)))
       else lf ← rt_Leaves t !! p; Modify t cu p (PushID (in_ID v) (lf_Data lf)));
  Some (true, v, set_Utxo u t).

Definition HandleInput (v : Input) (bic : Bic UState) : option (bool * Input * Bic UState) :=
  if m_SkipInOuts then Some (true, v, bic)
  else
    '(ok, v, u) ← (if m_Fwd bic then HandleInput_fwd else HandleInput_bwd) v (m_State bic);
    Some (ok, v, set_State bic u).

(** The cursor is invalidated before the direction and the asset are looked at. *)
Definition HandleOutput (v : Output) (bic : Bic UState) : option (bool * Output * Bic UState) :=
  if m_SkipInOuts then Some (true, v, bic)
  else
    let u := m_State bic in
    let m_Maturity := if m_SkipDefinition then u64 (m_Height - 1) else get_MinMaturity v m_Height in
    key ← Key.Key_assign (Key.mkData (out_X v) (out_Y v) m_Maturity);
    '(t, cu, bCreate, r) ← Find (OneID junk) uninit (m_Utxo u) key Key.s_Bits true;
    p ← r;
    t ← Invalidate t cu;
    lf ← rt_Leaves t !! p;
    let u := set_Utxo u t in
    if m_Fwd bic then
      if negb (ValidateAssetRange (m_pAsset v)) then Some (false, v, set_State bic u)
      else
        let nID := m_Txos u in
        if bCreate : bool then
          Some (true, v, set_State bic (mkU (set_Data t p (OneID nID)) (u64 (m_Txos u + 1))))
        else if u32 (get_Count (lf_Data lf) + 1) =? 0 then Some (false, v, set_State bic u)
        else Some (true, v, set_State bic (mkU (set_Data t p (PushID nID (lf_Data lf))) (u64 (m_Txos u + 1))))
    else
      let u := set_Txos u (u64 (m_Txos u - 1)) in
      t ← (if negb (IsExt (lf_Data lf)) then Delete t cu
           else '(_, x) ← PopID (lf_Data lf); Some (set_Data t p x));
      Some (true, v, set_State bic (set_Utxo u t)).

End Utxo.
