(* ===== verification/NodeUtxoSpec.v ===== *)
(** * node/processor.cpp: inputs and outputs are undone exactly

    An input spends the coin of its commitment with the least maturity, an output adds a
    coin, and both are undone; an output whose asset is out of range is the exception. *)

From Stdlib Require Import RelationClasses.
From stdpp Require Import base list numbers option gmap sorting.
From S2P Require Import Prelude Merkle RadixTree RadixTreeSpec RadixHash RadixMap RadixTraverse UtxoTree UtxoTreeSpec UtxoSerial.
From S2P Require Import NodeBlock NodeBlockSpec NodeUtxo.
Local Open Scope Z_scope.
Import RadixTree UtxoTree.

#[local] Arguments kbits : simpl never.

(** ** Keys *)

Definition data_ok (d : Key.Data) : Prop :=
  length (Key.m_X d) = 32%nat ∧ bytes (Key.m_X d) ∧ 0 ≤ Key.m_Y d ≤ 1 ∧ 0 ≤ Key.m_Maturity d < 2 ^ 64.

Definition commitment_ok (X : list Z) (Y : Z) : Prop := length X = 32%nat ∧ bytes X ∧ 0 ≤ Y ≤ 1.

Definition key_num (d : Key.Data) : Z := ((⟦Key.m_X d⟧ * 2 + Key.m_Y d) * 2 ^ 64 + Key.m_Maturity d) * 2 ^ 7.

Lemma key_of d : data_ok d → ∃ k, Key.Key_assign d = Some k ∧ wf_key k ∧ Key.Data_assign k = Some d ∧ ⟦k⟧ = key_num d.
Proof. intros (H1 & H2 & H3 & H4). by apply Key_roundtrip. Qed.

Lemma wf_key_bits key : wf_key key → key_ok Key.s_Bits key.
Proof. intros (Hl & _). unfold key_ok. rewrite Hl. vm_compute. lia. Qed.

Lemma wf_key_take key : wf_key key → take (Nat.shiftr (Key.s_Bits + 7) 3) key = key.
Proof. intros (Hl & _). apply take_ge. by rewrite Hl. Qed.

(** Keys with the same bits are the same. *)
Lemma kbits_wf_inj a b : wf_key a → wf_key b → kbits Key.s_Bits a = kbits Key.s_Bits b → a = b.
Proof.
  intros Ha Hb E. pose proof (blt_wf_key a b Ha Hb) as [_ H1]. pose proof (blt_wf_key b a Hb Ha) as [_ H2].
  rewrite E, blt_irrefl in H1, H2. destruct Ha as (La & Ba & _), Hb as (Lb & Bb & _). apply val_inj; [congruence|done..|].
  destruct (Z.lt_trichotomy ⟦a⟧ ⟦b⟧) as [Hlt|[?|Hlt]]; [by specialize (H1 Hlt)|done|by specialize (H2 Hlt)].
Qed.

(** The keys between the bounds of an input are those of its commitment, up to a maturity. *)
Lemma within_commitment X Y H kMin kMax key : commitment_ok X Y → 0 ≤ H < 2 ^ 64 → wf_key key →
  Key.Key_assign (Key.mkData X Y 0) = Some kMin → Key.Key_assign (Key.mkData X Y H) = Some kMax →
  inb Key.s_Bits (Some kMin, Some kMax) (kbits Key.s_Bits key) = true ↔
  ∃ M, 0 ≤ M ≤ H ∧ Key.Key_assign (Key.mkData X Y M) = Some key.
Proof.
  intros (HX & HbX & HY) HH Hk Emin Emax.
  destruct (key_of (Key.mkData X Y 0)) as (k0 & E0 & W0 & _ & V0); [done|]. rewrite Emin in E0. injection E0 as <-.
  destruct (key_of (Key.mkData X Y H)) as (k1 & E1 & W1 & _ & V1); [done|]. rewrite Emax in E1. injection E1 as <-.
  unfold inb. cbn [fst snd]. rewrite andb_true_iff, !negb_true_iff, <- !not_true_iff_false, !blt_wf_key, V0, V1 by done. unfold key_num. cbn [Key.m_X Key.m_Y Key.m_Maturity]. split.
  - intros [H1 H2]. destruct (Data_roundtrip key Hk) as ([X' Y' M] & _ & Ek & HX' & HbX' & HY' & HM). cbn in *.
    destruct (key_of (Key.mkData X' Y' M)) as (k2 & E2 & _ & _ & V2); [done|]. rewrite Ek in E2. injection E2 as <-. unfold key_num in V2. cbn in V2. rewrite V2 in H1, H2.
    assert (⟦X'⟧ = ⟦X⟧ ∧ Y' = Y ∧ M ≤ H) as (EX & -> & HMH) by lia. exists M. split; [lia|]. assert (X' = X) as <- by (apply val_inj; [congruence|done..]). done.
  - intros (M & HM & Ek). destruct (key_of (Key.mkData X Y M)) as (k2 & E2 & _ & _ & V2); [by split_and!; cbn; try done; lia|]. rewrite Ek in E2. injection E2 as <-.
    unfold key_num in V2. cbn in V2. lia.
Qed.

Section Spec.
Context {Hash : Type} `{Hasher Hash} (uninit : Hash) (junk : Z) (get_LeafHash : Leaf IDs → Hash).
Context (Maturity_Coinbase Maturity_Std : Z) (m_SkipInOuts m_SkipDefinition : bool) (m_Height m_AssetHi : Z).
Hypothesis Height_range : 1 ≤ m_Height < 2 ^ 64.

Local Notation tree := (tree IDs Hash).
Local Notation UState := (UState (Hash := Hash)).
Local Notation represents := (represents get_LeafHash Key.s_Bits).

Definition leaf_wf (lf : Leaf IDs) : Prop := wf_key (lf_Key lf) ∧ ids_ok (lf_Data lf).

(** The tree stands for the map [m] of well-formed leaves. *)
Definition stands (t : tree) (m : gmap (list bool) (Leaf IDs)) : Prop := represents t m ∧ ∀ k lf, m !! k = Some lf → leaf_wf lf.

(** The same coins, and the same number of outputs so far. *)
Definition same_utxo (u u' : UState) : Prop :=
  m_Txos u = m_Txos u' ∧ 0 ≤ m_Txos u < 2 ^ 64 ∧ ∃ m, stands (m_Utxo u) m ∧ represents (m_Utxo u') m.

#[export] Instance same_utxo_per : RelationClasses.PER same_utxo.
Proof.
  split.
  - intros u u' (E & R & m & [H1 H2] & H3). split_and!; [done|lia..|by exists m].
  - intros u u' u'' (E & R & m & [H1 H2] & H3) (E' & _ & m' & [H1' _] & H3'). split_and!; [congruence|lia..|].
    rewrite (represents_fun _ _ _ _ _ H1' H3) in H3'. by exists m.
Qed.

Lemma same_utxo_intro t t' n m : stands t m → represents t' m → 0 ≤ n < 2 ^ 64 → same_utxo (mkU t n) (mkU t' n).
Proof. intros Hst Hr Hn. split_and!; cbn; [done|lia..|by exists m]. Qed.

Lemma stands_key t m k lf : stands t m → m !! k = Some lf → kbits Key.s_Bits (lf_Key lf) = k.
Proof.
  intros [(E & Ht & _ & _ & Hm) _] Hk. apply (represents_lookup t m E) in Hk as (a & Ha & Hl); [|done].
  destruct Ht as (_ & _ & HR). destruct (rt_Root t) as [n|]; [|subst; by apply elem_of_nil in Ha]. destruct HR as (lt & Hr & ->).
  destruct (rel_elem _ _ _ _ _ _ Hr Ha) as (lf' & Hl' & _ & Ek). change (rt_Leaves t !! a = Some lf') in Hl'. rewrite Hl in Hl'. injection Hl' as <-. exact Ek.
Qed.

Lemma stands_insert t m key x : represents t (<[kbits Key.s_Bits key := mkLeaf key x]> m) → wf_key key → ids_ok x →
  (∀ k lf, m !! k = Some lf → leaf_wf lf) → stands t (<[kbits Key.s_Bits key := mkLeaf key x]> m).
Proof. intros Hr Hk Hx Hm. split; [done|]. intros k lf [[<- <-]|[_ E]]%lookup_insert_Some; [done|by eapply Hm]. Qed.

(** The map with the coins of [key] set to [x], or none. *)
Definition set_coins (m : gmap (list bool) (Leaf IDs)) (key : list Z) (x : option IDs) : gmap (list bool) (Leaf IDs) :=
  partial_alter (λ _, mkLeaf key <$> x) (kbits Key.s_Bits key) m.

(** The IDs with one more. *)
Definition add_coin (id : Z) (x : option IDs) : IDs := match x with None => OneID id | Some x => PushID id x end.

Definition coins_ok (x : option IDs) : Prop := match x with None => True | Some x => ids_ok x ∧ #(ids x) + 1 < 2 ^ 32 end.

#[export] Instance coins_ok_dec x : Decision (coins_ok x).
Proof. destruct x as [[]|]; unfold coins_ok, ids_ok; apply _. Defined.

Lemma add_coin_ok id x : coins_ok x → ids_ok (add_coin id x).
Proof. destruct x; [|done]. intros [? ?]. by apply PushID_ids. Qed.

Lemma set_coins_lookup m key x : set_coins m key x !! kbits Key.s_Bits key = mkLeaf key <$> x.
Proof. apply lookup_partial_alter_eq. Qed.

Lemma set_coins_twice m key x y : set_coins (set_coins m key x) key y = set_coins m key y.
Proof. unfold set_coins. apply map_eq. intros k. destruct (decide (k = kbits Key.s_Bits key)) as [->|]; [by rewrite !lookup_partial_alter_eq|by rewrite !lookup_partial_alter_ne]. Qed.

Lemma set_coins_id m key x : m !! kbits Key.s_Bits key = mkLeaf key <$> x → set_coins m key x = m.
Proof. intros E. unfold set_coins. apply map_eq. intros k. destruct (decide (k = kbits Key.s_Bits key)) as [->|]; [by rewrite lookup_partial_alter_eq|by rewrite lookup_partial_alter_ne]. Qed.

Lemma set_coins_Some m key x : set_coins m key (Some x) = <[kbits Key.s_Bits key := mkLeaf key x]> m.
Proof. done. Qed.

Lemma set_coins_wf m key x : wf_key key → (∀ y, x = Some y → ids_ok y) → (∀ k lf, m !! k = Some lf → leaf_wf lf) → ∀ k lf, set_coins m key x !! k = Some lf → leaf_wf lf.
Proof.
  intros Hk Hx Hm k lf. unfold set_coins. destruct (decide (k = kbits Key.s_Bits key)) as [->|]; [|rewrite lookup_partial_alter_ne by done; apply Hm].
  rewrite lookup_partial_alter_eq. destruct x; [|done]. intros [= <-]. split; [done|]. by apply Hx.
Qed.

(** The coins of a key: what the map holds at its bits. *)
Lemma coins_at t m key : stands t m → wf_key key → m !! kbits Key.s_Bits key = mkLeaf key <$> (lf_Data <$> m !! kbits Key.s_Bits key).
Proof.
  intros Hs Hk. destruct (m !! kbits Key.s_Bits key) as [lf|] eqn:E; [|done]. pose proof (stands_key _ _ _ _ Hs E) as Eb. destruct (proj2 Hs _ _ E) as [Hw _].
  apply kbits_wf_inj in Eb; [|done..]. cbn. destruct lf. cbn in *. by subst.
Qed.

Lemma mput_set_coins m key x v : m !! kbits Key.s_Bits key = mkLeaf key <$> x → wf_key key → mput Key.s_Bits m key v = set_coins m key (Some v).
Proof. intros E Hk. unfold mput. rewrite E, set_coins_Some. f_equal. destruct x; cbn; [done|]. by rewrite wf_key_take. Qed.

(** [Find] of a key, then a change: what the handlers do. *)
Lemma Find_change t m key x : stands t m → wf_key key → m !! kbits Key.s_Bits key = mkLeaf key <$> x →
  ∃ t1 cu p t2, Find (OneID junk) uninit t key Key.s_Bits true = Some (t1, cu, bool_decide (x = None), Some p) ∧
    rt_Leaves t1 !! p = Some (mkLeaf key (default (OneID junk) x)) ∧ Invalidate t1 cu = Some t2 ∧ rt_Leaves t2 = rt_Leaves t1 ∧
    (∀ v, Modify t1 cu p v = Some (set_Data t2 p v) ∧ represents (set_Data t2 p v) (set_coins m key (Some v))) ∧
    (x ≠ None → ∃ t3, Delete t2 cu = Some t3 ∧ represents t3 (set_coins m key None)).
Proof.
  intros [Hr Hm] Hk Ex. pose proof (wf_key_bits _ Hk) as Hkb. destruct (Find_leaf (OneID junk) uninit get_LeafHash _ s_Bits_pos t m key Hr Hkb) as (t1 & cu & bC & p & Ef & Hl & Hcase).
  assert (HP : ∀ v, ∃ t', Modify t1 cu p v = Some t' ∧ represents t' (set_coins m key (Some v))).
  { intros v. destruct (Put_spec (OneID junk) uninit get_LeafHash _ s_Bits_pos t m key v Hr Hkb) as (t' & Ep & Hr'). unfold Put in Ep. rewrite Ef in Ep. cbn [mbind option_bind] in Ep.
    exists t'. split; [done|]. by rewrite (mput_set_coins m key x v Ex Hk) in Hr'. }
  destruct (Invalidate t1 cu) as [t2|] eqn:Ei.
  2: { destruct (HP (OneID 0)) as (t' & E' & _). by rewrite Modify_eq, Ei in E'. }
  exists t1, cu, p, t2. split; [|split; [|split; [done|split; [|split]]]].
  - rewrite Ef. do 3 f_equal. rewrite Ex in Hcase. destruct x; cbn in Hcase; [by destruct Hcase as [-> _]|by rewrite Hcase].
  - rewrite Hl, Ex. destruct x; cbn; [done|]. by rewrite wf_key_take.
  - unfold Invalidate in Ei. destruct (rt_Root t1); [|done]. cbn in Ei. destruct (cu_pp cu); [|done]. cbn in Ei. destruct (InvalidateElement _ _) as [[]|]; [|done]. cbn in Ei. by injection Ei as <-.
  - intros v. destruct (HP v) as (t' & E' & Hr'). rewrite Modify_eq, Ei in E' |- *. cbn in *. by injection E' as <-.
  - intros Hx. rewrite Ex in Hcase, Hl. destruct x as [x|]; [|done]. destruct Hcase as [_ ->]. destruct Hr as (E & Ht & Hc & Hh & Hp). cbn in Hl, Ex.
    apply (represents_lookup t m E) in Ex as (a & Ha & Hla); [|done]. destruct (Find_found (OneID junk) uninit _ s_Bits_pos t E key true a Ht Hkb Ha) as (cu' & Ef' & Hcu).
    rewrite Ef in Ef'. injection Ef' as <- _ <-. destruct (Invalidate_spec get_LeafHash _ s_Bits_pos t E cu p _ _ Ht Hc Hh Hcu Ha Hla) as (t2' & Ei' & El & Ht2 & Hc2 & Hh2 & Hcu2).
    rewrite Ei in Ei'. injection Ei' as <-. apply (Delete_represents get_LeafHash _ t2 m E cu _ p (mkLeaf key x)); try done; by rewrite El.
Qed.

Lemma set_Data_id (t : tree) p lf : rt_Leaves t !! p = Some lf → set_Data t p (lf_Data lf) = t.
Proof.
  intros Hl. destruct t as [r lv]. unfold set_Data. cbn in *. f_equal. apply map_eq. intros q. destruct (decide (p = q)) as [->|]; [|by rewrite lookup_alter_ne].
  rewrite lookup_alter_eq, Hl. by destruct lf.
Qed.

(** ** Inputs *)

Lemma filter_first {A} (lt : A → A → Prop) (P : A → Prop) `{!∀ x, Decision (P x)} l x F : StronglySorted lt l → filter P l = x :: F →
  x ∈ l ∧ P x ∧ ∀ y, y ∈ l → P y → y = x ∨ lt x y.
Proof.
  intros Hs E. assert (Hx : x ∈ filter P l) by (rewrite E; left). apply list_elem_of_filter in Hx as [HP Hx]. split_and!; try done.
  induction Hs as [|z l Hs IH Hall]; [done|]. rewrite filter_cons in E. intros y Hy HPy. destruct (decide (P z)) as [Hz|Hz].
  - injection E as <- <-. apply elem_of_cons in Hy as [->|Hy]; [by left|right]. rewrite Forall_forall in Hall. by apply Hall.
  - apply elem_of_cons in Hy as [->|Hy]; [done|]. apply elem_of_cons in Hx as [->|Hx]; [done|]. by apply IH.
Qed.

Lemma sorted_by_fst {A B} (lt : A → A → Prop) (l : list (A * B)) : StronglySorted lt l.*1 → StronglySorted (λ x y, lt x.1 y.1) l.
Proof.
  induction l as [|x l IH]; [constructor|]. rewrite fmap_cons. intros [Hs Hall]%StronglySorted_inv. constructor; [by apply IH|]. rewrite Forall_forall. rewrite Forall_forall in Hall. intros y Hy. by apply Hall, list_elem_of_fmap_2.
Qed.

(** There is no coin of the commitment with a maturity below [H]. *)
Definition no_coin (m : gmap (list bool) (Leaf IDs)) (X : list Z) (Y H : Z) : Prop :=
  ∀ M key, 0 ≤ M < H → Key.Key_assign (Key.mkData X Y M) = Some key → m !! kbits Key.s_Bits key = None.

Lemma first_leaf_spec t m X Y kMin kMax h : stands t m → commitment_ok X Y → 0 ≤ h < 2 ^ 64 →
  Key.Key_assign (Key.mkData X Y 0) = Some kMin → Key.Key_assign (Key.mkData X Y h) = Some kMax →
  (no_coin m X Y (h + 1) ∧ first_leaf t kMin kMax = Some (true, None)) ∨
  ∃ M key lf cu p E, 0 ≤ M ≤ h ∧ Key.Key_assign (Key.mkData X Y M) = Some key ∧ wf_key key ∧ m !! kbits Key.s_Bits key = Some lf ∧ no_coin m X Y M ∧
    first_leaf t kMin kMax = Some (false, Some (cu, p)) ∧
    tree_ok Key.s_Bits t E ∧ tree_clean t ∧ tree_hash (lhof get_LeafHash (rt_Leaves t)) t ∧ map_to_list m ≡ₚ leaves_of (rt_Leaves t) E ∧
    cursor_at Key.s_Bits t cu p ∧ (kbits Key.s_Bits key, p) ∈ E ∧ rt_Leaves t !! p = Some lf.
Proof.
  intros Hst HC Hh Emin Emax. pose proof HC as (HX & HbX & HY). pose proof Hst as [(E & Ht & Hc & Hha & Hm) Hwf].
  assert (Hkey : ∀ M key, 0 ≤ M ≤ h → Key.Key_assign (Key.mkData X Y M) = Some key → wf_key key ∧ ⟦key⟧ = key_num (Key.mkData X Y M)).
  { intros M key HM Ek. destruct (key_of (Key.mkData X Y M)) as (k & Ek' & Hw & _ & Hv); [by split_and!; cbn; try done; lia|]. rewrite Ek in Ek'. by injection Ek' as <-. }
  set (bs := (Some kMin, Some kMax)).
  assert (Hin : ∀ M key lf, 0 ≤ M ≤ h → Key.Key_assign (Key.mkData X Y M) = Some key → m !! kbits Key.s_Bits key = Some lf →
    inb Key.s_Bits bs (kbits Key.s_Bits key) = true).
  { intros M key lf HM Ek El. destruct (Hkey M key HM Ek) as [Hw _]. apply (within_commitment X Y h kMin kMax key HC Hh Hw Emin Emax). by exists M. }
  destruct (Traverse_visits_cursor Key.s_Bits (λ _ cu a, (false, Some (cu, a))) t E bs None Ht) as (f & Hf & Etr).
  { intros b [[= <-]|[= <-]]; apply wf_key_bits; [apply (Hkey 0 kMin); [lia|done]|apply (Hkey h kMax); [lia|done]]. }
  unfold first_leaf. fold bs. unfold within in Etr. destruct (filter (λ e, inb Key.s_Bits bs e.1 = true) E) as [|[k p] F] eqn:EF; cbn in Etr.
  - left. split; [|done]. intros M key HM Ek. destruct (m !! kbits Key.s_Bits key) as [lf|] eqn:El; [|done]. exfalso.
    assert (HM' : 0 ≤ M ≤ h) by lia. pose proof (Hin M key lf HM' Ek El) as Hb. apply (represents_lookup t m E) in El as (a & Ha & _); [|done].
    assert (Hx : (kbits Key.s_Bits key, a) ∈ filter (λ e, inb Key.s_Bits bs e.1 = true) E) by (by apply list_elem_of_filter). rewrite EF in Hx. by apply elem_of_nil in Hx.
  - right. assert (Hsort : StronglySorted (λ e e', blt e.1 e'.1 = true) E).
    { destruct Ht as (_ & _ & HR). destruct (rt_Root t); [|subst; constructor]. destruct HR as (lt & _ & ->). apply (sorted_by_fst (λ x y, blt x y = true)), lelems_sorted. }
    destruct (filter_first _ _ _ _ _ Hsort EF) as (Hp & Hpb & Hmin). cbn in Hpb. destruct (tree_ok_leaf _ _ _ p Ht) as [lf Hl]; [by apply (list_elem_of_fmap_2 snd) in Hp|].
    assert (Hk : m !! k = Some lf) by (apply (represents_lookup t m E); eauto). pose proof (stands_key _ _ _ _ Hst Hk) as Ekb. destruct (Hwf _ _ Hk) as [Hw _].
    rewrite <- Ekb in *. apply (within_commitment X Y h kMin kMax (lf_Key lf) HC Hh Hw Emin Emax) in Hpb as (M & HM & Ek).
    exists M, (lf_Key lf), lf, (f p), p, E. split_and!; try done || lia; [|by apply Hf, (list_elem_of_fmap_2 snd _ _ Hp)].
    intros M' key' HM' Ek'. destruct (m !! kbits Key.s_Bits key') as [lf'|] eqn:El'; [|done]. exfalso. assert (HM'' : 0 ≤ M' ≤ h) by lia.
    pose proof (Hin M' key' lf' HM'' Ek' El') as Hb'. apply (represents_lookup t m E) in El' as (a' & Ha' & _); [|done].
    destruct (Hkey _ _ HM'' Ek') as [Hw' Hv']. destruct (Hkey _ _ HM Ek) as [_ Hv]. unfold key_num in Hv, Hv'. cbn in Hv, Hv'.
    destruct (Hmin _ Ha' Hb') as [E1|E1].
    + apply (f_equal fst) in E1. change (kbits Key.s_Bits key' = kbits Key.s_Bits (lf_Key lf)) in E1. apply kbits_wf_inj in E1; [|done..]. rewrite E1 in Hv'. lia.
    + apply (blt_wf_key _ _ Hw Hw') in E1. lia.
Qed.

Local Notation HandleInput_fwd := (HandleInput_fwd (Hash := Hash) m_Height).
Local Notation HandleInput_bwd := (HandleInput_bwd uninit junk).

(** An input spends the last ID of the coin of least maturity, or is refused if there is
    none that is mature. *)
Lemma HandleInput_fwd_spec v u m : stands (m_Utxo u) m → commitment_ok (in_X v) (in_Y v) →
  (no_coin m (in_X v) (in_Y v) m_Height ∧ HandleInput_fwd v u = Some (false, v, u)) ∨
  ∃ M key id x t', 0 ≤ M < m_Height ∧ Key.Key_assign (Key.mkData (in_X v) (in_Y v) M) = Some key ∧ wf_key key ∧ coins_ok x ∧
    m !! kbits Key.s_Bits key = Some (mkLeaf key (add_coin id x)) ∧ no_coin m (in_X v) (in_Y v) M ∧
    HandleInput_fwd v u = Some (true, mkInput (in_X v) (in_Y v) M id, set_Utxo u t') ∧ represents t' (set_coins m key x).
Proof.
  intros Hst HC. pose proof HC as (HX & HbX & HY). assert (Eh : u64 (m_Height - 1) = m_Height - 1) by (apply u64_small; lia).
  destruct (key_of (Key.mkData (in_X v) (in_Y v) 0)) as (kMin & Emin & _); [done|].
  destruct (key_of (Key.mkData (in_X v) (in_Y v) (m_Height - 1))) as (kMax & Emax & _); [by split_and!; cbn; try done; lia|].
  unfold NodeUtxo.HandleInput_fwd. change (HeightGenesis - 1) with 0. rewrite Emin. cbn [mbind option_bind]. rewrite Eh, Emax. cbn [mbind option_bind].
  destruct (first_leaf_spec _ _ _ _ kMin kMax (m_Height - 1) Hst HC ltac:(lia) Emin Emax) as [[Hno ->]|(M & key & lf & cu & p & E & HM & Ek & Hw & Hl & Hno & -> & Ht & Hc & Hh & Hm & Hcu & Hp & Hlf)]; cbn [mbind option_bind].
  { left. split; [|done]. by replace (m_Height - 1 + 1) with m_Height in Hno by lia. }
  right. rewrite Hlf. cbn [mbind option_bind]. destruct (proj2 Hst _ _ Hl) as [Hw' Hids]. pose proof (stands_key _ _ _ _ Hst Hl) as Ekb.
  apply kbits_wf_inj in Ekb; [|done..]. destruct (key_of (Key.mkData (in_X v) (in_Y v) M)) as (key' & Ek' & _ & Ed & _); [by split_and!; cbn; try done; lia|].
  rewrite Ek in Ek'. injection Ek' as <-. destruct lf as [key0 dat]. cbn [lf_Key lf_Data] in *. subst key0. rewrite Ed. cbn [mbind option_bind].
  destruct dat as [id|l c].
  - destruct (Delete_represents get_LeafHash _ _ m E cu (kbits Key.s_Bits key) p (mkLeaf key (OneID id)) Ht Hc Hh Hm Hcu Hp Hlf) as (t' & -> & Hr). cbn [mbind option_bind].
    exists M, key, id, None, t'. split_and!; try done; lia.
  - destruct (PushID_PopID (Queue l c) Hids eq_refl) as (id & x & -> & Hx & Hn & Epush). cbn [mbind option_bind].
    destruct (Modify_represents get_LeafHash _ s_Bits_pos _ m E cu (kbits Key.s_Bits key) p (mkLeaf key (Queue l c)) x Ht Hc Hh Hm Hcu Hp Hlf) as (t' & -> & Hr). cbn [mbind option_bind].
    exists M, key, id, (Some x), t'. cbn [add_coin]. rewrite Epush. split_and!; try done; lia.
Qed.

Lemma HandleInput_bwd_spec v u m key x : stands (m_Utxo u) m → Key.Key_assign (Key.mkData (in_X v) (in_Y v) (in_Maturity v)) = Some key → wf_key key →
  m !! kbits Key.s_Bits key = mkLeaf key <$> x →
  ∃ t', HandleInput_bwd v u = Some (true, v, set_Utxo u t') ∧ represents t' (set_coins m key (Some (add_coin (in_ID v) x))).
Proof.
  intros Hst Ek Hw Ex. destruct (Find_change _ _ _ _ Hst Hw Ex) as (t1 & cu & p & t2 & Ef & Hl & Ei & Ei' & Hch & _). unfold NodeUtxo.HandleInput_bwd. rewrite Ek. cbn [mbind option_bind].
  rewrite Ef. cbn [mbind option_bind]. destruct x as [x|].
  - rewrite bool_decide_false by done. rewrite Hl. cbn [mbind option_bind default lf_Data id]. destruct (Hch (PushID (in_ID v) x)) as [-> Hr]. cbn [mbind option_bind]. by eexists.
  - rewrite bool_decide_true by done. cbn [mbind option_bind].
    destruct (Create_spec (OneID junk) uninit get_LeafHash _ s_Bits_pos (m_Utxo u) m key (OneID (in_ID v)) (proj1 Hst) (wf_key_bits _ Hw) Ex) as (t1' & cu' & p' & Ef' & Hr).
    rewrite Ef in Ef'. injection Ef' as <- <- <-. eexists. split; [done|]. rewrite wf_key_take in Hr by done. exact Hr.
Qed.

Definition okI (v : Input) (_ : Bic UState) : Prop := commitment_ok (in_X v) (in_Y v).

#[export] Instance HandleInput_undoable : Undoable same_utxo (HandleInput uninit junk m_SkipInOuts m_Height) okI.
Proof.
  intros v b Hf Hb HC. unfold HandleInput. destruct m_SkipInOuts.
  { exists true, v, b. split; [done|]. split_and!; try done. intros x Hx. by exists v, x. }
  rewrite Hf. pose proof Hb as (_ & _ & Hi & HT & HTr & m & Hst & _).
  destruct (HandleInput_fwd_spec v (m_State b) m Hst HC) as [[_ ->]|(M & key & id & x & t' & HM & Ek & Hw & Hx & Hl & _ & -> & Hr)]; cbn [mbind option_bind].
  { exists false, v, (set_State b (m_State b)). by destruct b. }
  assert (Hst' : stands t' (set_coins m key x)) by (split; [done|]; apply set_coins_wf; [done|intros y ->; apply Hx|apply Hst]).
  eexists true, _, _. split; [done|]. split_and!; [done|split_and!; cbn; try done; try lia; by eapply same_utxo_intro; [..|lia]|].
  intros y (Ef & Ei & _ & Et & _ & m' & [Hm' _] & Hy). cbn in Ef, Ei, Et, Hm'. rewrite <- Ef. rewrite (represents_fun _ _ _ _ _ Hm' Hr) in Hy.
  assert (Hsty : stands (m_Utxo (m_State y)) (set_coins m key x)) by (split; [done|apply Hst']).
  destruct (HandleInput_bwd_spec (mkInput (in_X v) (in_Y v) M id) (m_State y) _ key x Hsty Ek Hw) as (t'' & E2 & Hr''); [apply set_coins_lookup|].
  rewrite E2. cbn [mbind option_bind]. eexists _, _. split; [done|]. rewrite set_coins_twice, set_coins_id in Hr'' by exact Hl.
  split_and!; try done; cbn; try lia; unfold set_Utxo; rewrite <- Et; destruct (m_State b) as [t0 n0]; cbn in *; by apply (same_utxo_intro _ _ _ m).
Qed.

(** ** Outputs *)

Lemma HeightAdd_range h v : 0 ≤ HeightAdd h v < 2 ^ 64.
Proof. unfold HeightAdd, u64. destruct (_ <? _); apply Z.mod_pos_bound; lia. Qed.

Definition out_data (v : Output) : Key.Data :=
  Key.mkData (out_X v) (out_Y v) (if m_SkipDefinition then u64 (m_Height - 1) else get_MinMaturity Maturity_Coinbase Maturity_Std v m_Height).

Lemma out_data_ok v : commitment_ok (out_X v) (out_Y v) → data_ok (out_data v).
Proof.
  intros (? & ? & ?). unfold data_ok, out_data. cbn. split_and!; try done || lia; (destruct m_SkipDefinition; [unfold u64; apply Z.mod_pos_bound; lia|apply HeightAdd_range]).
Qed.

Local Notation HandleOutput := (HandleOutput uninit junk Maturity_Coinbase Maturity_Std m_SkipInOuts m_SkipDefinition m_Height m_AssetHi).

(** Forward: a coin is added, unless the asset is out of range or the count would overflow.
    In the first case a leaf may be left in the tree. *)
Lemma HandleOutput_fwd_spec v b m : m_SkipInOuts = false → m_Fwd b = true → stands (m_Utxo (m_State b)) m → commitment_ok (out_X v) (out_Y v) →
  ∃ key x t', Key.Key_assign (out_data v) = Some key ∧ wf_key key ∧ m !! kbits Key.s_Bits key = mkLeaf key <$> x ∧
    if ValidateAssetRange m_AssetHi (m_pAsset v) then
      if decide (coins_ok x) then
        HandleOutput v b = Some (true, v, set_State b (mkU t' (u64 (m_Txos (m_State b) + 1)))) ∧ represents t' (set_coins m key (Some (add_coin (m_Txos (m_State b)) x)))
      else HandleOutput v b = Some (false, v, set_State b (set_Utxo (m_State b) t')) ∧ represents t' m
    else HandleOutput v b = Some (false, v, set_State b (set_Utxo (m_State b) t')) ∧ represents t' (set_coins m key (Some (default (OneID junk) x))).
Proof.
  intros Es Hf Hst HC. destruct (key_of _ (out_data_ok v HC)) as (key & Ek & Hw & _). pose proof (coins_at _ _ key Hst Hw) as Ex.
  set (x := lf_Data <$> m !! kbits Key.s_Bits key) in Ex. exists key, x. assert (Hids : ∀ y, x = Some y → ids_ok y).
  { intros y Ey. rewrite Ey in Ex. cbn in Ex. by apply (proj2 Hst) in Ex as [_ ?]. }
  clearbody x. destruct (Find_change _ _ _ _ Hst Hw Ex) as (t1 & cu & p & t2 & Ef & Hl & Ei & El & Hch & _).
  unfold NodeUtxo.HandleOutput. rewrite Es, Hf. unfold out_data in Ek |- *. rewrite Ek. cbn [mbind option_bind]. rewrite Ef. cbn [mbind option_bind]. rewrite Ei. cbn [mbind option_bind]. rewrite El, Hl. cbn [mbind option_bind lf_Data].
  assert (Hsame : set_Data t2 p (default (OneID junk) x) = t2) by (rewrite <- (set_Data_id t2 p (mkLeaf key (default (OneID junk) x))) at 2; [done|by rewrite El]).
  destruct (ValidateAssetRange m_AssetHi (m_pAsset v)); cbn [negb].
  2: { exists t2. split_and!; try done. rewrite <- Hsame. apply Hch. }
  destruct x as [x|]; cbn [default id].
  - rewrite bool_decide_false by done. specialize (Hids x eq_refl). rewrite (get_Count_ids x Hids).
    assert (Hn : 0 ≤ #(ids x) < 2 ^ 32) by (split; [lia|]; destruct x; cbn in *; lia).
    destruct (decide (coins_ok (Some x))) as [Hok|Hno].
    + exists (set_Data t2 p (add_coin (m_Txos (m_State b)) (Some x))). split_and!; try done; [|apply Hch]. destruct Hok as [_ Hok]. rewrite u32_small by lia. by destruct (Z.eqb_spec (#(ids x) + 1) 0); [lia|].
    + exists t2. assert (E32 : #(ids x) + 1 = 2 ^ 32) by (destruct (decide (#(ids x) + 1 < 2 ^ 32)); [by destruct Hno|lia]). rewrite E32. split_and!; try done.
      rewrite <- (set_coins_id m key (Some x) Ex). rewrite <- Hsame. apply Hch.
  - exists (set_Data t2 p (OneID (m_Txos (m_State b)))). split_and!; try done. destruct (decide (coins_ok None)) as [_|Hno]; [|by destruct Hno]. split; [done|apply Hch].
Qed.

Lemma HandleOutput_bwd_spec v b m key nID x : m_SkipInOuts = false → m_Fwd b = false → stands (m_Utxo (m_State b)) m →
  Key.Key_assign (out_data v) = Some key → wf_key key → coins_ok x → m !! kbits Key.s_Bits key = Some (mkLeaf key (add_coin nID x)) →
  ∃ t', HandleOutput v b = Some (true, v, set_State b (mkU t' (u64 (m_Txos (m_State b) - 1)))) ∧ represents t' (set_coins m key x).
Proof.
  intros Es Hf Hst Ek Hw Hx Hl0. destruct (Find_change _ _ key (Some (add_coin nID x)) Hst Hw Hl0) as (t1 & cu & p & t2 & Ef & Hl & Ei & El & Hch & Hdel).
  unfold NodeUtxo.HandleOutput. rewrite Es, Hf. unfold out_data in Ek. rewrite Ek. cbn [mbind option_bind]. rewrite Ef. cbn [mbind option_bind]. rewrite Ei. cbn [mbind option_bind]. rewrite El, Hl. cbn [mbind option_bind lf_Data default id].
  destruct x as [x|]; cbn [add_coin].
  - destruct Hx as [Hx Hn]. assert (Eext : IsExt (PushID nID x) = true) by (unfold PushID; by destruct (PushIDRaw nID _)). rewrite Eext. cbn [negb]. destruct (PopID_PushID nID x Hx Hn) as [-> _]. cbn [mbind option_bind].
    eexists. split; [done|]. apply Hch.
  - cbn [IsExt negb]. destruct Hdel as (t3 & -> & Hr); [done|]. cbn [mbind option_bind]. by eexists.
Qed.

Definition okO (v : Output) (_ : Bic UState) : Prop := commitment_ok (out_X v) (out_Y v) ∧ ValidateAssetRange m_AssetHi (m_pAsset v) = true.

#[export] Instance HandleOutput_undoable : Undoable same_utxo HandleOutput okO.
Proof.
  intros v b Hf Hb [HC Hval]. destruct m_SkipInOuts eqn:Es.
  { exists true, v, b. split; [done|]. split_and!; try done. intros x Hx. by exists v, x. }
  rewrite <- Es. pose proof Hb as (_ & _ & Hi & HT & HTr & m & Hst & Hrm).
  destruct (HandleOutput_fwd_spec v b m Es Hf Hst HC) as (key & x & t' & Ek & Hw & Hl & Hcase). rewrite Hval in Hcase.
  destruct (decide (coins_ok x)) as [Hx|_]; destruct Hcase as [-> Hr].
  2: { eexists false, _, _. split; [done|]. split_and!; cbn; try done; try lia; destruct (m_State b); by apply (same_utxo_intro _ _ _ m). }
  set (n := m_Txos (m_State b)) in *. assert (Hst' : stands t' (set_coins m key (Some (add_coin n x)))).
  { split; [done|]. apply set_coins_wf; [done| |apply Hst]. intros y [= <-]. by apply add_coin_ok. }
  assert (Hn' : 0 ≤ u64 (n + 1) < 2 ^ 64) by (unfold u64; apply Z.mod_pos_bound; lia).
  eexists true, _, _. split; [done|]. split_and!; [done|split_and!; cbn; try done; try lia; by eapply same_utxo_intro|].
  intros y (Ef & Ei & _ & Et & _ & m' & [Hm' _] & Hy). cbn in Ef, Ei, Et, Hm'. rewrite (represents_fun _ _ _ _ _ Hm' Hr) in Hy.
  assert (Hsty : stands (m_Utxo (m_State y)) (set_coins m key (Some (add_coin n x)))) by (split; [done|apply Hst']).
  destruct (HandleOutput_bwd_spec v y _ key n x Es (eq_sym Ef) Hsty Ek Hw Hx) as (t'' & -> & Hr''); [apply set_coins_lookup|].
  eexists _, _. split; [done|]. rewrite set_coins_twice, set_coins_id in Hr'' by exact Hl. rewrite <- Et.
  assert (En : u64 (u64 (n + 1) - 1) = n) by (unfold u64; rewrite Zminus_mod_idemp_l; replace (n + 1 - 1) with n by lia; apply Z.mod_small; lia). rewrite En.
  split_and!; cbn; try done; try lia. unfold n. destruct (m_State b). by apply (same_utxo_intro _ _ _ m).
Qed.

End Spec.
