(* ===== verification/NodeTx.v ===== *)
(** * node/processor.cpp: the kernels of a transaction, and the whole transaction

    [HandleBlockElement] for [TxKernel]: the identifiers of the kernels seen
    ([FindVisibleKernel], [ManageKrnID] with the table of kernels in the database), the
    context a kernel leaves for the ones that depend on it ([HandleKernelTypeAny]), and the
    kernels [TxKernelStd], [TxKernelAssetCreate], [TxKernelAssetEmit] and
    [TxKernelAssetDestroy].  A transaction works on the coins and on what the kernels work
    on, and a block counts its outputs. *)

From stdpp Require Import base list numbers option gmap gmultiset countable.
From S2P Require Import Prelude UintBig Merkle MerkleStores NodeAssets NodeStream NodeAssetKernel NodeBlock NodeUtxo.
Local Open Scope Z_scope.

Inductive KrnType :=
  | KStd (m_pRelativeLock : option (list Z * Z))
  | KAssetCreate (m_Owner m_MetaData : list Z)
  | KAssetEmit (m_Owner : list Z) (m_AssetID m_Value : Z)
  | KAssetDestroy (m_Owner : list Z) (m_AssetID : Z).

Record KrnBody := mkKrn { k_Type : KrnType; m_CanEmbed : bool; k_ID : list Z }.

(** ** The table of kernels: pairs of an identifier and a height *)

Notation KrnTable := (gmultiset (list Z * Z)).

Definition InsertKernel (t : KrnTable) (key : list Z) (h : Z) : KrnTable := t ⊎ {[+ (key, h) +]}.

(** [while (--nRows) InsertKernel(key, h)]. *)
Fixpoint InsertKernels (n : nat) (t : KrnTable) (key : list Z) (h : Z) : KrnTable :=
  match n with O => t | S n => InsertKernels n (InsertKernel t key h) key h end.

(** All the rows are deleted, the duplicates are inserted again. *)
Definition DeleteKernel (t : KrnTable) (key : list Z) (h : Z) : option KrnTable :=
  let nRows := multiplicity (key, h) t in
  let t := t ∖ (nRows *: {[+ (key, h) +]}) in
  match nRows with O => None | S n => Some (InsertKernels n t key h) end.

(** The largest height of the rows of [key]. *)
Definition FindKernel (t : KrnTable) (key : list Z) : Z :=
  foldr (λ '(k, h) acc, if decide (k = key) then Z.max h acc else acc) (HeightGenesis - 1) (elements t).

Section Krn.
Context {Hash : Type} `{Hasher Hash}.
(* Asset::Full::get_Hash; DependentContext::get_Ancestor; m_Cursor.m_Full.m_Prev *)
Context (get_Hash : Z → NodeDB.Info → Hash) (get_Ancestor : list Z → list Z → list Z) (m_Prev : list Z).
(* the flags of BlockInterpretCtx; Rules *)
Context (m_AlreadyValidated m_Temporary m_SkipDefinition : bool) (m_Height LockPeriod Fork2 MaxKernelValidityDH : Z).

Local Notation ACtx := (ACtx (Hash := Hash)).

Record KState := mkK {
  k_Kernels : KrnTable;           (* the table *)
  m_KrnIDs : gmultiset (list Z);  (* mirrors it in temporary mode *)
  m_hvDependentCtx : list Z;
  m_DependentCtxSet : bool;
  k_Assets : ACtx;
}.

Definition set_Kernels (s : KState) t := mkK t (m_KrnIDs s) (m_hvDependentCtx s) (m_DependentCtxSet s) (k_Assets s).
Definition set_KrnIDs (s : KState) t := mkK (k_Kernels s) t (m_hvDependentCtx s) (m_DependentCtxSet s) (k_Assets s).
Definition set_DepCtx (s : KState) hv b := mkK (k_Kernels s) (m_KrnIDs s) hv b (k_Assets s).
Definition set_Assets (s : KState) a := mkK (k_Kernels s) (m_KrnIDs s) (m_hvDependentCtx s) (m_DependentCtxSet s) a.

(** The height the kernel was seen at, or 0. *)
Definition FindVisibleKernel (s : KState) (id : list Z) : Z :=
  if m_Temporary && bool_decide (id ∈ m_KrnIDs s) then m_Height
  else
    let h := FindKernel (k_Kernels s) id in
    if (HeightGenesis <=? h) && (Fork2 <=? m_Height) && (MaxKernelValidityDH <? u64 (m_Height - h)) then 0 else h.

Definition ManageKrnID (bic : Bic KState) (key : list Z) : option (Bic KState) :=
  let s := m_State bic in
  if m_Height <? HeightGenesis then Some bic
  else if m_Temporary then
    if m_AlreadyValidated then Some bic
    else if m_Fwd bic then Some (set_State bic (set_KrnIDs s (m_KrnIDs s ⊎ {[+ key +]})))
    else if decide (key ∈ m_KrnIDs s) then Some (set_State bic (set_KrnIDs s (m_KrnIDs s ∖ {[+ key +]})))
    else None
  else if m_Fwd bic then Some (set_State bic (set_Kernels s (InsertKernel (k_Kernels s) key m_Height)))
  else t ← DeleteKernel (k_Kernels s) key m_Height; Some (set_State bic (set_Kernels s t)).

(** ** The types of kernels *)

Definition HandleKernelType_Std (m_pRelativeLock : option (list Z * Z)) (bic : Bic KState) : bool :=
  match m_pRelativeLock with
  | Some (m_ID, m_LockHeight) =>
    if m_Fwd bic && negb m_AlreadyValidated then
      let h0 := FindVisibleKernel (m_State bic) m_ID in
      if h0 <? HeightGenesis then false else negb (m_Height <? HeightAdd h0 m_LockHeight)
    else true
  | None => true
  end.

Definition HandleKernelType (krn : KrnType) (bic : Bic KState) : option (bool * Bic KState) :=
  let s := m_State bic in
  let set a := set_State bic (set_Assets s a) in
  match krn with
  | KStd lock => Some (HandleKernelType_Std lock bic, bic)
  | KAssetCreate owner md =>
    if m_Fwd bic then
      '(r, a) ← HandleAssetCreate_fwd get_Hash m_AlreadyValidated m_Temporary m_SkipDefinition m_Height owner md (k_Assets s);
      Some (bool_decide (is_Some r), set a)
    else a ← HandleAssetCreate_bwd m_AlreadyValidated m_SkipDefinition (k_Assets s); Some (true, set a)
  | KAssetEmit owner aid val =>
    '(r, a) ← HandleAssetEmit get_Hash m_AlreadyValidated m_Temporary m_SkipDefinition m_Height (m_Fwd bic) owner aid val (k_Assets s);
    Some (r, set a)
  | KAssetDestroy owner aid =>
    if m_Fwd bic then
      '(r, a) ← HandleAssetDestroy_fwd m_AlreadyValidated m_Temporary m_SkipDefinition m_Height LockPeriod owner aid (k_Assets s);
      Some (r, set a)
    else a ← HandleAssetDestroy_bwd get_Hash m_AlreadyValidated m_SkipDefinition owner aid (k_Assets s); Some (true, set a)
  end.

(** The context the next kernels depend on. *)
Definition dep_ctx (s : KState) : list Z := if m_DependentCtxSet s then m_hvDependentCtx s else m_Prev.

Definition HandleKernelTypeAny (krn : KrnBody) (bic : Bic KState) : option (bool * Bic KState) :=
  let bContextChange := negb (m_CanEmbed krn) && match k_Type krn with KStd _ => false | _ => true end in
  bic ← (if bContextChange && negb (m_Fwd bic) && m_Temporary then
           '(r, a) ← pop_rec (k_Assets (m_State bic));
           match r with
           | ADepCtx hv => Some (set_State bic (set_Assets (set_DepCtx (m_State bic) hv (m_DependentCtxSet (m_State bic))) a))
           | _ => None
           end
         else Some bic);
  '(ok, bic) ← HandleKernelType (k_Type krn) bic;
  if negb ok then Some (false, bic)
  else if bContextChange && m_Fwd bic then
    let s := m_State bic in
    let hvPrev := dep_ctx s in
    let s := if m_Temporary then set_Assets s (push_rec (k_Assets s) (ADepCtx hvPrev)) else s in
    Some (true, set_State bic (set_DepCtx s (get_Ancestor hvPrev (k_ID krn)) true))
  else Some (true, bic).

(** ** The kernel as an element of the block *)

Definition krn_id (v : TxKernel KrnBody) : list Z := match v with Krn b _ => k_ID b end.

Definition HandleBlockElement (v : TxKernel KrnBody) (bic : Bic KState) : option (bool * Bic KState) :=
  if m_Fwd bic && (Fork2 <=? m_Height) && negb m_AlreadyValidated && (HeightGenesis <=? FindVisibleKernel (m_State bic) (krn_id v))
  then Some (false, bic)
  else
    bic ← (if m_Fwd bic then Some bic else ManageKrnID bic (krn_id v));
    '(ok, bic) ← HandleKernel HandleKernelTypeAny v bic;
    if negb ok then if m_Fwd bic then Some (false, bic) else None
    else
      bic ← (if m_Fwd bic then ManageKrnID bic (krn_id v) else Some bic);
      Some (true, bic).

End Krn.

(** ** Part of the state *)

Definition on_fst {A B E} (h : Handler A E) : Handler (A * B) E := λ e bic,
  '(ok, e, b) ← h e (mkBic (m_Fwd bic) (m_nKrnIdx bic) (fst (m_State bic)));
  Some (ok, e, mkBic (m_Fwd b) (m_nKrnIdx b) (m_State b, snd (m_State bic))).

Definition on_snd {A B E} (h : Handler B E) : Handler (A * B) E := λ e bic,
  '(ok, e, b) ← h e (mkBic (m_Fwd bic) (m_nKrnIdx bic) (snd (m_State bic)));
  Some (ok, e, mkBic (m_Fwd b) (m_nKrnIdx b) (fst (m_State bic), m_State b)).

(** ** The block *)

Definition HandleValidatedBlock {Hash B T} (HandleTx : Handler (UState (Hash := Hash) * B) T) : Handler (UState (Hash := Hash) * B) T := λ block bic,
  let add d (bic : Bic (UState * B)) := let '(u, k) := m_State bic in set_State bic (set_Txos u (u64 (m_Txos u + d)), k) in
  let bic := if m_Fwd bic then bic else add (-1) bic in
  '(ok, block, bic) ← HandleTx block bic;
  if negb ok then Some (false, block, bic)
  else Some (true, block, if m_Fwd bic then add 1 bic else bic).

(** The overloads of [HandleBlockElement] together: inputs and outputs work on the coins, kernels on the rest. *)
Section Tx.
Context {Hash : Type} `{Hasher Hash} (uninit : Hash) (junk : Z).
Context (get_Hash : Z → NodeDB.Info → Hash) (get_Ancestor : list Z → list Z → list Z) (m_Prev : list Z).
Context (m_AlreadyValidated m_Temporary m_SkipInOuts m_SkipDefinition : bool).
Context (m_Height m_AssetHi LockPeriod Fork2 MaxKernelValidityDH Maturity_Coinbase Maturity_Std : Z).

Definition HandleTx : Handler (UState (Hash := Hash) * KState (Hash := Hash)) (TxVectors Input Output (TxKernel KrnBody)) :=
  HandleValidatedTx (on_fst (HandleInput uninit junk m_SkipInOuts m_Height))
    (on_fst (HandleOutput uninit junk Maturity_Coinbase Maturity_Std m_SkipInOuts m_SkipDefinition m_Height m_AssetHi))
    (on_snd (unchanged (HandleBlockElement get_Hash get_Ancestor m_Prev m_AlreadyValidated m_Temporary m_SkipDefinition m_Height LockPeriod Fork2 MaxKernelValidityDH))).

Definition HandleBlock : Handler (UState (Hash := Hash) * KState (Hash := Hash)) (TxVectors Input Output (TxKernel KrnBody)) := HandleValidatedBlock HandleTx.

End Tx.
