(* ===== verification/NodeTxSpec.v ===== *)
(** * node/processor.cpp: a transaction is applied as a whole or not at all

    The kernels meet what the drivers of [NodeBlock] need, so do the coins, and with them
    transactions and blocks. *)

From Stdlib Require Import RelationClasses.
From stdpp Require Import base list numbers option gmap gmultiset countable.
From S2P Require Import Prelude UintBig Merkle MerkleStores RadixTree UtxoTree NodeAssets NodeStream NodeAssetKernel NodeAssetSpec.
From S2P Require Import NodeBlock NodeBlockSpec NodeUtxo NodeUtxoSpec NodeTx.
Local Open Scope Z_scope.
Import RadixTree UtxoTree.

(** ** The table of kernels *)

Lemma InsertKernels_spec n t key h : InsertKernels n t key h = t ⊎ n *: {[+ (key, h) +]}.
Proof. revert t. induction n as [|n IH]; intros t; cbn [InsertKernels]; [multiset_solver|]. rewrite IH. unfold InsertKernel. multiset_solver. Qed.

(** Deleting a kernel takes back one insertion, also when the kernel is there twice. *)
Lemma DeleteKernel_InsertKernel t key h : DeleteKernel (InsertKernel t key h) key h = Some t.
Proof.
  unfold DeleteKernel. cbn zeta. assert (Em : multiplicity (key, h) (InsertKernel t key h) = S (multiplicity (key, h) t)).
  { unfold InsertKernel. rewrite multiplicity_disj_union, multiplicity_singleton, decide_True by done. lia. }
  rewrite Em. f_equal. rewrite InsertKernels_spec. unfold InsertKernel.
  apply gmultiset_eq. intros x. rewrite multiplicity_disj_union, multiplicity_difference, !multiplicity_scalar_mul, multiplicity_disj_union.
  rewrite multiplicity_singleton. destruct (decide _) as [<-|]; lia.
Qed.

Section Spec.
Context {Hash : Type} `{Hasher Hash}.
Context (get_Hash : Z → NodeDB.Info → Hash) (get_Ancestor : list Z → list Z → list Z) (m_Prev : list Z).
Context (m_AlreadyValidated m_Temporary m_SkipDefinition : bool) (m_Height LockPeriod Fork2 MaxKernelValidityDH : Z).

Local Notation KState := (KState (Hash := Hash)).
Local Notation alike := (alike get_Hash m_AlreadyValidated m_SkipDefinition).
Local Notation full_inv := (full_inv get_Hash m_AlreadyValidated m_SkipDefinition).
Local Notation HandleKernelType := (HandleKernelType get_Hash m_AlreadyValidated m_Temporary m_SkipDefinition m_Height LockPeriod Fork2 MaxKernelValidityDH).
Local Notation HandleKernelTypeAny := (HandleKernelTypeAny get_Hash get_Ancestor m_Prev m_AlreadyValidated m_Temporary m_SkipDefinition m_Height LockPeriod Fork2 MaxKernelValidityDH).
Local Notation HandleBlockElement := (HandleBlockElement get_Hash get_Ancestor m_Prev m_AlreadyValidated m_Temporary m_SkipDefinition m_Height LockPeriod Fork2 MaxKernelValidityDH).
Local Notation ManageKrnID := (ManageKrnID m_AlreadyValidated m_Temporary m_Height).

(** The same kernels seen and the same assets; the same context in temporary mode, which is
    the one that is undone. *)
Definition krn_eq (s s' : KState) : Prop :=
  k_Kernels s = k_Kernels s' ∧ m_KrnIDs s = m_KrnIDs s' ∧ (m_Temporary = true → dep_ctx m_Prev s = dep_ctx m_Prev s') ∧ alike (k_Assets s) (k_Assets s').

(** No context was saved before one was set. *)
Definition ctx_ok (s : KState) : Prop := m_DependentCtxSet s = false → Forall (λ r, asset_rec r = true) (a_Rollback (k_Assets s)).

Definition same_krn (s s' : KState) : Prop := krn_eq s s' ∧ ctx_ok s ∧ ctx_ok s'.

Lemma same_krn_intro s s' : k_Kernels s = k_Kernels s' → m_KrnIDs s = m_KrnIDs s' → (m_Temporary = true → dep_ctx m_Prev s = dep_ctx m_Prev s') → alike (k_Assets s) (k_Assets s') →
  ctx_ok s → ctx_ok s' → same_krn s s'.
Proof. intros. split; [by split_and!|done]. Qed.

#[export] Instance same_krn_per : RelationClasses.PER same_krn.
Proof.
  split.
  - intros s s' ((E1 & E2 & E3 & E4) & C1 & C2). apply same_krn_intro; [done|done|intros Et; by rewrite E3|by apply alike_sym|done..].
  - intros s s' s'' ((E1 & E2 & E3 & E4) & C1 & _) ((F1 & F2 & F3 & F4) & _ & C2). apply same_krn_intro; [congruence|congruence|intros Et; by rewrite E3, F3|by eapply alike_trans|done..].
Qed.

Local Notation "b ≈ b'" := (bic_rel same_krn b b') (at level 70).

(** Goals of [bic_rel]: componentwise. *)
Ltac componentwise := split_and!; cbn; try done; try (match goal with Hr : 0 ≤ _ < _ |- _ => cbn in Hr end; lia); apply same_krn_intro; cbn; try done.

(** What the handler of an asset kernel needs. *)
Definition okT (krn : KrnBody) (b : Bic KState) : Prop :=
  let c := k_Assets (m_State b) in
  match k_Type krn with
  | KStd _ => True
  | KAssetCreate _ _ => NodeDB.AssetsCount (a_DB c) < NodeDB.s_MaxCount
  | KAssetEmit _ aid val => - 2 ^ 63 ≤ val < 2 ^ 63 ∧ NodeDB.AssetGetSafe (a_DB c) aid ≠ None
  | KAssetDestroy owner aid => NodeDB.AssetGetSafe (a_DB c) aid ≠ None ∧
      (m_AlreadyValidated = true → ∀ ai, NodeDB.rows (a_DB c) !! aid = Some (Some ai) → NodeDB.m_Owner ai = owner ∧ memis0 (NodeDB.m_Value ai) = true) ∧
      (m_SkipDefinition = false → no_gap (a_DB c) aid)
  end.

Lemma full_alike c : full_inv c → alike c c.
Proof. intros Hf. by split_and!. Qed.

(** States that differ in the assets. *)
Definition with_assets (b : Bic KState) a : Bic KState := set_State b (set_Assets (m_State b) a).

Lemma same_assets b x a a' : b ≈ x → alike a a' → ctx_ok (set_Assets (m_State b) a) → ctx_ok (set_Assets (m_State x) a') → with_assets b a ≈ with_assets x a'.
Proof. intros (E1 & E2 & E3 & (F1 & F2 & F3 & _) & _) Ha C1 C2. componentwise. Qed.

Lemma ctx_ok_grows s a : ctx_ok s → grows (k_Assets s) a → ctx_ok (set_Assets s a).
Proof. intros Hs (l & E & Hl) Ef. cbn in *. rewrite E. apply Forall_app. split; [done|by apply Hs]. Qed.

Lemma ctx_ok_shrinks s (c a c' : ACtx (Hash := Hash)) : ctx_ok s → a_Rollback (k_Assets s) = a_Rollback a → grows c a → a_Rollback c' = a_Rollback c → ctx_ok (set_Assets s c').
Proof. intros Hs Ea (l & E & Hl) Ec Ef. cbn in *. rewrite Ec. specialize (Hs Ef). rewrite Ea, E in Hs. by apply Forall_app in Hs as [_ ?]. Qed.

Lemma ctx_ok_same s (a : ACtx (Hash := Hash)) : ctx_ok s → a_Rollback a = a_Rollback (k_Assets s) → ctx_ok (set_Assets s a).
Proof. intros Hs E Ef. cbn in *. rewrite E. by apply Hs. Qed.

(** A handler of the assets that grows the records and can be taken back, as a kernel. *)
Lemma assets_undo b (bwd : ACtx (Hash := Hash) → option ACtx) c' : b ≈ b → full_inv c' → grows (k_Assets (m_State b)) c' → assets_back get_Hash m_AlreadyValidated m_SkipDefinition bwd (k_Assets (m_State b)) c' →
  with_assets b c' ≈ with_assets b c' ∧
  ∀ x, set_Fwd (with_assets b c') false ≈ x → ∃ c'', bwd (k_Assets (m_State x)) = Some c'' ∧ set_Fwd b false ≈ with_assets x c''.
Proof.
  intros Hb Hf' Hgr Hback. pose proof Hb as (_ & _ & _ & (_ & _ & _ & Ha) & Hc & _). pose proof (ctx_ok_grows _ _ Hc Hgr) as Hc'. split; [by apply same_assets; [..|apply full_alike| |]|].
  intros x (Ef & Ei & Hi & (T1 & T2 & T3 & T4) & T5 & T6). destruct (Hback _ T4) as (c'' & E2 & Hc''). exists c''. split; [done|]. cbn in *.
  componentwise. eapply ctx_ok_shrinks; [done| |exact Hgr|by destruct Hc'' as (_ & _ & _ & ? & _)]. by destruct T4 as (_ & _ & _ & ? & _).
Qed.

(** The types of kernels: going back undoes, refusing changes nothing. *)
Lemma HandleKernelType_undo krn b : m_Fwd b = true → b ≈ b → okT krn b →
  ∃ r b', HandleKernelType (k_Type krn) b = Some (r, b') ∧
    if r : bool then m_Fwd b' = true ∧ b' ≈ b' ∧ (∀ x, set_Fwd b' false ≈ x → ∃ x', HandleKernelType (k_Type krn) x = Some (true, x') ∧ set_Fwd b false ≈ x') else b ≈ b'.
Proof.
  intros Hf Hb Hok. pose proof Hb as (_ & _ & _ & (_ & _ & _ & (Hinv & _)) & Hc & _).
  assert (Hrefused : ∀ c', alike (k_Assets (m_State b)) c' → b ≈ with_assets b c').
  { intros c' Ha. destruct Hb as (? & ? & ? & (? & ? & ? & _) & ? & _). componentwise. apply ctx_ok_same; [done|]. by destruct Ha as (_ & _ & _ & ? & _). }
  unfold okT in Hok. destruct (k_Type krn) as [lock|owner md|owner aid val|owner aid]; cbn [NodeTx.HandleKernelType].
  - eexists _, b. split; [done|]. destruct (HandleKernelType_Std _ _ _ _ _ _ _); [|done]. split_and!; [done..|].
    intros x Hx. exists x. split; [|done]. destruct Hx as (Ex & _). cbn in Ex. unfold HandleKernelType_Std. rewrite <- Ex. by destruct lock as [[]|].
  - rewrite Hf. destruct (HandleAssetCreate_spec get_Hash m_AlreadyValidated m_Temporary m_SkipDefinition m_Height owner md _ Hinv Hok) as (r & c' & -> & Hr).
    cbn [mbind option_bind]. eexists _, _. split; [done|]. destruct r as [id|]; [|rewrite bool_decide_false by (by intros [? ?]); by apply Hrefused].
    destruct Hr as (Hf' & _ & _ & _ & _ & Hgr & Hback). rewrite bool_decide_true by done. destruct (assets_undo b _ c' Hb Hf' Hgr Hback) as [H1 H2]. split_and!; [done..|].
    intros x Hx. destruct (H2 x Hx) as (c'' & E2 & Hc''). pose proof Hx as (Ex & _). cbn in Ex. rewrite <- Ex, E2. by eexists.
  - rewrite Hf. destruct Hok as [Hv Hs]. destruct (HandleAssetEmit_spec get_Hash m_AlreadyValidated m_Temporary m_SkipDefinition m_Height owner aid val _ Hinv Hv Hs) as (r & c' & -> & Hr).
    cbn [mbind option_bind]. eexists _, _. split; [done|]. destruct r; [|destruct Hr as [-> _]; by apply Hrefused, full_alike].
    destruct Hr as (Hf' & _ & _ & Hgr & Hback). destruct (assets_undo b _ c' Hb Hf' Hgr Hback) as [H1 H2]. split_and!; [done..|].
    intros x Hx. destruct (H2 x Hx) as (c'' & E2 & Hc''). pose proof Hx as (Ex & _). cbn in Ex. rewrite <- Ex.
    destruct (HandleAssetEmit _ _ _ _ _ false owner aid val _) as [[[] c2]|]; [|done..]. cbn in E2. injection E2 as ->. by eexists.
  - rewrite Hf. destruct Hok as (Hs & Hv & Hm). destruct (HandleAssetDestroy_spec get_Hash m_AlreadyValidated m_Temporary m_SkipDefinition m_Height LockPeriod owner aid _ Hinv Hs) as (r & c' & -> & Hr).
    cbn [mbind option_bind]. eexists _, _. split; [done|]. destruct r; [|by apply Hrefused].
    destruct Hr as (Hf' & _ & _ & Hgr & Hback). destruct (assets_undo b _ c' Hb Hf' Hgr (Hback Hv Hm)) as [H1 H2]. split_and!; [done..|].
    intros x Hx. destruct (H2 x Hx) as (c'' & E2 & Hc''). pose proof Hx as (Ex & _). cbn in Ex. rewrite <- Ex, E2. by eexists.
Qed.

Lemma full_frame c c' : full_inv c → a_DB c' = a_DB c → a_Mmr c' = a_Mmr c → a_Used c' = a_Used c → full_inv c'.
Proof.
  intros [Hi Hc Hu] Ed Em Eu. split; [by eapply inv_frame|by rewrite Ed|]. intros Ea. rewrite (used0_eq _ c c'), Ed by (done || by left). by apply Hu.
Qed.

Lemma push_alike c r x : alike (push_rec c r) x → ∃ y, pop_rec x = Some (r, y) ∧ alike c y ∧ a_Rollback x = r :: a_Rollback y.
Proof.
  intros (Hc & Hx & Ed & Er & Eu & Em). unfold pop_rec. rewrite Er. cbn. eexists. split; [done|]. split; [|done]. split_and!; cbn.
  - by eapply full_frame; [exact Hc|..].
  - by eapply full_frame; [exact Hx|..].
  - done.
  - done.
  - rewrite (used0_eq _ x), Eu by (done || by left). by apply used0_eq; [left|].
  - done.
Qed.

(** The context is saved and taken back in temporary mode. *)
#[export] Instance HandleKernelTypeAny_undoable : Undoable same_krn (unchanged HandleKernelTypeAny) okT.
Proof.
  intros krn b Hf Hb Hok. rewrite unchanged_eq. unfold NodeTx.HandleKernelTypeAny. set (chg := negb (m_CanEmbed krn) && _). rewrite Hf. cbn [negb]. rewrite andb_false_r. cbn [andb mbind option_bind].
  destruct (HandleKernelType_undo krn b Hf Hb Hok) as (r & b1 & -> & Hr). cbn [mbind option_bind]. destruct r; cbn [negb].
  2: { by eexists _, _, _. }
  destruct Hr as (Hf1 & Hb1 & Hback). rewrite Hf1, andb_true_r.
  (* the kernel itself is undone last *)
  assert (Hlast : ∀ x x1, m_Fwd x = false → (if chg && true && m_Temporary then '(r, a) ← pop_rec (k_Assets (m_State x));
        match r with ADepCtx hv => Some (set_State x (set_Assets (set_DepCtx (m_State x) hv (m_DependentCtxSet (m_State x))) a)) | _ => None end else Some x) = Some x1 →
      set_Fwd b1 false ≈ x1 → ∃ e x', unchanged HandleKernelTypeAny krn x = Some (true, e, x') ∧ set_Fwd b false ≈ x').
  { intros x x1 Hfx Ex Hx. rewrite unchanged_eq. unfold NodeTx.HandleKernelTypeAny. fold chg. rewrite Hfx. cbn [negb]. rewrite Ex. cbn [mbind option_bind].
    destruct (Hback x1 Hx) as (x' & -> & Hx'). cbn [mbind option_bind negb]. pose proof Hx' as (Ef & _). cbn in Ef. rewrite <- Ef, andb_false_r. by eexists _, _. }
  destruct chg eqn:Echg.
  2: { eexists true, krn, _. split; [done|]. split_and!; [done..|]. intros x Hx. pose proof Hx as (Ef & _). by apply (Hlast x x). }
  pose proof Hb1 as (_ & Hi & Hir & (T1 & T2 & T3 & T4) & C1 & _). destruct m_Temporary eqn:Et.
  - eexists true, krn, _. split; [done|]. split_and!; [done| |].
    { componentwise; by apply full_alike; eapply full_frame; [apply T4|..]. }
    intros x (Ef & Ei & _ & (F1 & F2 & F3 & F4) & D1 & D2). cbn in Ef, Ei, F1, F2, F4. destruct (push_alike _ _ _ F4) as (y & Ey & Hy & Ery).
    eapply (Hlast x); [done|cbn [andb]; rewrite Ey; done|]. assert (Hset : m_DependentCtxSet (m_State x) = true).
    { destruct (m_DependentCtxSet (m_State x)) eqn:E; [done|]. specialize (D2 E). rewrite Ery in D2. by apply Forall_cons_1 in D2 as [? _]. }
    componentwise; [intros _; unfold dep_ctx at 2; cbn; by rewrite Hset|]. intros E. cbn in E. congruence.
  - eexists true, krn, _. split; [done|]. split_and!; [done|componentwise|].
    intros x (Ef & Ei & _ & (F1 & F2 & F3 & F4) & D1 & D2). cbn in Ef, Ei, F1, F2, F4. eapply (Hlast x x); [done|done|]. componentwise. by rewrite Et.
Qed.

(** ** Identifiers *)

Lemma ManageKrnID_undo b key : m_Fwd b = true → b ≈ b →
  ∃ b', ManageKrnID b key = Some b' ∧ m_Fwd b' = true ∧ b' ≈ b' ∧ (∀ x, set_Fwd b' false ≈ x → ∃ x', ManageKrnID x key = Some x' ∧ set_Fwd b false ≈ x').
Proof.
  intros Hf Hb. unfold NodeTx.ManageKrnID. rewrite Hf. pose proof Hb as (_ & _ & Hi & (_ & _ & _ & Ha) & Hc & _).
  assert (Hskip : ∀ x, set_Fwd b false ≈ x → ∃ x', Some x = Some x' ∧ set_Fwd b false ≈ x') by eauto.
  destruct (m_Height <? HeightGenesis); [by exists b|]. destruct m_Temporary eqn:Et.
  - destruct m_AlreadyValidated eqn:Ea; [by exists b|]. eexists. split_and!; [done|done|componentwise; by rewrite Ea|].
    intros x (Ef & Ei & _ & (F1 & F2 & F3 & F4) & D1 & D2). cbn in Ef, Ei, F1, F2, F3, F4. rewrite <- Ef, <- F2. rewrite decide_True by multiset_solver. eexists. split; [done|]. componentwise. multiset_solver.
  - eexists. split_and!; [done|done|componentwise|].
    intros x (Ef & Ei & _ & (F1 & F2 & F3 & F4) & D1 & D2). cbn in Ef, Ei, F1, F2, F3, F4. rewrite <- Ef, <- F1, DeleteKernel_InsertKernel. cbn [mbind option_bind]. eexists. split; [done|]. componentwise.
Qed.

(** ** The element *)

Definition okK (v : TxKernel KrnBody) (b : Bic KState) : Prop := krn_ok HandleKernelTypeAny okT v b.

#[export] Instance HandleBlockElement_undoable : Undoable same_krn (unchanged HandleBlockElement) okK.
Proof.
  intros v b Hf Hb Hok. rewrite unchanged_eq. unfold NodeTx.HandleBlockElement. rewrite Hf. cbn [andb].
  destruct ((Fork2 <=? m_Height) && negb m_AlreadyValidated && _); [by eexists false, v, b|]. cbn [mbind option_bind].
  destruct (HandleKernel_undoable same_krn HandleKernelTypeAny okT v b Hf Hb Hok) as (r & e & b1 & E1 & Hr). rewrite unchanged_eq in E1.
  destruct (HandleKernel HandleKernelTypeAny v b) as [[r1 b1']|]; [|done]. cbn in E1. injection E1 as -> <- ->. cbn [mbind option_bind]. destruct r; cbn [negb].
  2: { pose proof Hr as (Ef & _). rewrite <- Ef, Hf. cbn. by eexists _, _, _. }
  destruct Hr as (Hf1 & Hb1 & Hback). rewrite Hf1. destruct (ManageKrnID_undo b1 (krn_id v) Hf1 Hb1) as (b2 & -> & Hf2 & Hb2 & Hback2). cbn [mbind option_bind].
  eexists true, v, b2. split; [done|]. split_and!; [done..|]. intros x Hx. pose proof Hx as (Ef & _). cbn in Ef. rewrite unchanged_eq. unfold NodeTx.HandleBlockElement. rewrite <- Ef. cbn [andb].
  destruct (Hback2 x Hx) as (x1 & -> & Hx1). cbn [mbind option_bind]. destruct (Hback x1 Hx1) as (e' & x2 & E2 & Hx2). rewrite unchanged_eq in E2.
  destruct (HandleKernel HandleKernelTypeAny v x1) as [[r2 x2']|]; [|done]. cbn in E2. injection E2 as -> _ ->. cbn [mbind option_bind negb]. pose proof Hx2 as (Ef2 & _). cbn in Ef2. rewrite <- Ef2. by eexists _, _.
Qed.

End Spec.

(** ** Transactions and blocks: coins and kernels together *)

Section Both.
Context {A B : Type} (RA : relation A) (RB : relation B) `{!RelationClasses.PER RA, !RelationClasses.PER RB}.

Definition both (s s' : A * B) : Prop := RA s.1 s'.1 ∧ RB s.2 s'.2.

#[export] Instance both_per : RelationClasses.PER both.
Proof. split; [by intros s s' [? ?]; split; symmetry|by intros s s' s'' [? ?] [? ?]; split; etransitivity]. Qed.

Definition part_fst (b : Bic (A * B)) : Bic A := mkBic (m_Fwd b) (m_nKrnIdx b) (m_State b).1.
Definition part_snd (b : Bic (A * B)) : Bic B := mkBic (m_Fwd b) (m_nKrnIdx b) (m_State b).2.

Lemma both_rel b b' : bic_rel both b b' ↔ bic_rel RA (part_fst b) (part_fst b') ∧ RB (m_State b).2 (m_State b').2.
Proof. unfold bic_rel, both. cbn. tauto. Qed.

Lemma both_rel_snd b b' : bic_rel both b b' ↔ bic_rel RB (part_snd b) (part_snd b') ∧ RA (m_State b).1 (m_State b').1.
Proof. unfold bic_rel, both. cbn. tauto. Qed.

#[export] Instance on_fst_undoable {E} (h : Handler A E) ok `{HU : !Undoable RA h ok} : Undoable both (on_fst h) (λ e b, ok e (part_fst b)).
Proof.
  intros e b Hf Hb Hok. apply both_rel in Hb as [Hb Hs]. destruct (HU e (part_fst b) Hf Hb Hok) as (r & e' & b' & E1 & Hr). unfold on_fst. fold (part_fst b). rewrite E1. cbn [mbind option_bind].
  eexists r, e', _. split; [done|]. destruct r; [|apply both_rel; by destruct b' as [? ? ?]]. destruct Hr as (Hf' & Hb' & Hback). split_and!; [done|apply both_rel; by destruct b' as [? ? ?]|].
  intros x Hx. apply both_rel in Hx as [Hx Hxs]. destruct (Hback (part_fst x)) as (e'' & x' & E2 & Hx'); [by destruct b' as [? ? ?]|].
  fold (part_fst x). rewrite E2. cbn [mbind option_bind]. eexists _, _. split; [done|]. apply both_rel. by destruct x'.
Qed.

#[export] Instance on_snd_undoable {E} (h : Handler B E) ok `{HU : !Undoable RB h ok} : Undoable both (on_snd h) (λ e b, ok e (part_snd b)).
Proof.
  intros e b Hf Hb Hok. apply both_rel_snd in Hb as [Hb Hs]. destruct (HU e (part_snd b) Hf Hb Hok) as (r & e' & b' & E1 & Hr). unfold on_snd. fold (part_snd b). rewrite E1. cbn [mbind option_bind].
  eexists r, e', _. split; [done|]. destruct r; [|apply both_rel_snd; by destruct b' as [? ? ?]]. destruct Hr as (Hf' & Hb' & Hback). split_and!; [done|apply both_rel_snd; by destruct b' as [? ? ?]|].
  intros x Hx. apply both_rel_snd in Hx as [Hx Hxs]. destruct (Hback (part_snd x)) as (e'' & x' & E2 & Hx'); [by destruct b' as [? ? ?]|].
  fold (part_snd x). rewrite E2. cbn [mbind option_bind]. eexists _, _. split; [done|]. apply both_rel_snd. by destruct x'.
Qed.

End Both.

Section Block.
Context {Hash : Type} `{Hasher Hash} (get_LeafHash : Leaf IDs → Hash) {B : Type} (RB : relation B) `{!RelationClasses.PER RB}.

Local Notation same := (both (same_utxo get_LeafHash) RB).

(** The outputs of the block are counted once more. *)
Lemma Txos_step u u' d : same_utxo get_LeafHash u u' → same_utxo get_LeafHash (set_Txos u (u64 (m_Txos u + d))) (set_Txos u' (u64 (m_Txos u' + d))).
Proof. intros (E & Hr & m & Hm & Hm'). rewrite E. split_and!; [done|unfold u64; cbn; apply Z.mod_pos_bound; lia..|by exists m]. Qed.

Lemma Txos_back u u' : same_utxo get_LeafHash (set_Txos u (u64 (m_Txos u + 1))) u' → 0 ≤ m_Txos u < 2 ^ 64 → same_utxo get_LeafHash u (set_Txos u' (u64 (m_Txos u' + -1))).
Proof.
  intros (E & _ & m & Hm & Hm') Hu. cbn in *. rewrite <- E. split_and!; [|lia..|by exists m]. cbn. unfold u64. rewrite Zplus_mod_idemp_l. replace (m_Txos u + 1 + -1) with (m_Txos u) by lia. by rewrite Z.mod_small.
Qed.

#[export] Instance HandleValidatedBlock_undoable {T} (h : Handler (UState * B) T) ok `{HU : !Undoable same h ok} : Undoable same (HandleValidatedBlock h) ok.
Proof.
  intros e b Hf Hb Hok. unfold HandleValidatedBlock. rewrite Hf. destruct (HU e b Hf Hb Hok) as (r & e' & b' & -> & Hr). cbn [mbind option_bind]. destruct r; cbn [negb].
  2: { by eexists _, _, _. }
  destruct Hr as (Hf' & Hb' & Hback). rewrite Hf'. destruct b' as [f n [u k]]. cbn in Hf'. subst f. pose proof Hb' as (_ & _ & Hi & Hu & Hk). cbn in Hi, Hu, Hk.
  eexists _, _, _. split; [done|]. split_and!; [done|apply both_rel; split; [split_and!; cbn; try done; try lia; by apply Txos_step|done]|].
  intros [f x [ux kx]] (Ef & Ei & _ & Hux & Hkx). cbn in Ef, Ei, Hux, Hkx. subst f x. cbn [m_Fwd]. cbn beta iota zeta.
  match goal with |- context [h e' ?y] => destruct (Hback y) as (e'' & x' & -> & Hx') end.
  { apply both_rel. split; [|done]. split_and!; cbn; try lia; try done. apply Txos_back; [done|]. by destruct Hu as (_ & ? & _). }
  cbn [mbind option_bind negb]. pose proof Hx' as (Ef' & _). cbn in Ef'. rewrite <- Ef'. by eexists _, _.
Qed.

End Block.
