(* ===== verification/NodeTxProps.v ===== *)
(** * node/processor.cpp: properties of transactions, blocks and assets

    A block is applied as a whole or not at all, and what was applied can be undone.  The
    last part instantiates the parameters, and shows where the code fails. *)

From Stdlib Require Import RelationClasses.
From stdpp Require Import base list numbers option gmap gmultiset countable.
From S2P Require Import Prelude UintBig Merkle MerkleStores RadixTree RadixTreeSpec RadixHash RadixMap UtxoTree UtxoTreeSpec NodeAssets NodeStream NodeAssetKernel NodeAssetSpec.
From S2P Require Import NodeBlock NodeBlockSpec NodeUtxo NodeUtxoSpec NodeTx NodeTxSpec.
Local Open Scope Z_scope.
Import RadixTree UtxoTree.

Section props.
Context {Hash : Type} `{Hasher Hash} (uninit : Hash) (junk : Z) (get_LeafHash : Leaf IDs → Hash).
Context (get_Hash : Z → NodeDB.Info → Hash) (get_Ancestor : list Z → list Z → list Z) (m_Prev : list Z).
Context (m_AlreadyValidated m_Temporary m_SkipInOuts m_SkipDefinition : bool).
Context (m_Height m_AssetHi LockPeriod Fork2 MaxKernelValidityDH Maturity_Coinbase Maturity_Std : Z).

Notation State := (UState (Hash := Hash) * KState (Hash := Hash))%type.
Notation Tx := (TxVectors Input Output (TxKernel KrnBody)).

Local Notation HandleInput := (HandleInput uninit junk m_SkipInOuts m_Height).
Local Notation HandleOutput := (HandleOutput uninit junk Maturity_Coinbase Maturity_Std m_SkipInOuts m_SkipDefinition m_Height m_AssetHi).
Local Notation HandleBlockElement := (HandleBlockElement get_Hash get_Ancestor m_Prev m_AlreadyValidated m_Temporary m_SkipDefinition m_Height LockPeriod Fork2 MaxKernelValidityDH).
Local Notation HandleTx := (HandleTx uninit junk get_Hash get_Ancestor m_Prev m_AlreadyValidated m_Temporary m_SkipInOuts m_SkipDefinition m_Height m_AssetHi LockPeriod Fork2 MaxKernelValidityDH Maturity_Coinbase Maturity_Std).
Local Notation HandleBlock := (HandleBlock uninit junk get_Hash get_Ancestor m_Prev m_AlreadyValidated m_Temporary m_SkipInOuts m_SkipDefinition m_Height m_AssetHi LockPeriod Fork2 MaxKernelValidityDH Maturity_Coinbase Maturity_Std).

(** The same coins, kernels and assets. *)
Definition same_state : State → State → Prop := both (same_utxo get_LeafHash) (same_krn get_Hash m_Prev m_AlreadyValidated m_Temporary m_SkipDefinition).

Local Notation "b ≈ b'" := (bic_rel same_state b b') (at level 70).

(** Every element can be handled where it is reached: commitments have their size, the asset
    of an output is in range, and [okT] for the asset kernels. *)
Definition elements_ok : Tx → Bic State → Prop :=
  tx_ok (on_fst HandleInput) (on_fst HandleOutput) (on_snd (unchanged HandleBlockElement))
    (λ v b, okI v (part_fst b)) (λ v b, okO m_AssetHi v (part_fst b))
    (λ v b, okK get_Hash get_Ancestor m_Prev m_AlreadyValidated m_Temporary m_SkipDefinition m_Height LockPeriod Fork2 MaxKernelValidityDH v (part_snd b)).

Lemma HandleTx_undoable : 1 ≤ m_Height < 2 ^ 64 → Undoable same_state HandleTx elements_ok.
Proof.
  intros Hh. apply HandleValidatedTx_undoable; [apply _|..].
  - apply on_fst_undoable; [apply _..|]. by apply HandleInput_undoable.
  - apply on_fst_undoable; [apply _..|]. by apply HandleOutput_undoable.
  - apply on_snd_undoable; [apply _..|]. apply HandleBlockElement_undoable.
Qed.



(** ** Inputs *)

(** C25. An input spends the coin of its commitment that has the least maturity, if that is
    below the height, and takes one of its IDs; otherwise it is refused and nothing
    changes. *)
Theorem Node_input_least_maturity v u m : 1 ≤ m_Height < 2 ^ 64 → stands get_LeafHash (m_Utxo u) m → commitment_ok (in_X v) (in_Y v) →
  (no_coin m (in_X v) (in_Y v) m_Height ∧ HandleInput_fwd m_Height v u = Some (false, v, u)) ∨
  ∃ M key id x t', 0 ≤ M < m_Height ∧ Key.Key_assign (Key.mkData (in_X v) (in_Y v) M) = Some key ∧ no_coin m (in_X v) (in_Y v) M ∧
    m !! kbits Key.s_Bits key = Some (mkLeaf key (add_coin id x)) ∧
    HandleInput_fwd m_Height v u = Some (true, mkInput (in_X v) (in_Y v) M id, set_Utxo u t') ∧ represents get_LeafHash Key.s_Bits t' (set_coins m key x).
Proof.
  intros Hh Hst HC. destruct (HandleInput_fwd_spec get_LeafHash m_Height Hh v u m Hst HC) as [?|(M & key & id & x & t' & HM & Ek & _ & _ & Hl & Hno & E & Hr)]; [by left|].
  right. by exists M, key, id, x, t'.
Qed.

(** ** Assets *)

(** C28. Adding to the table of assets and deleting from it end, and are inverse.  A new asset
    gets a free ID, and deleting it gives the table as it was; deleting any asset and
    adding it again under its ID gives the table as it was.  The loop of [AssetDelete],
    which has no condition of its own, ends after at most as many steps as there are IDs. *)
Theorem Node_asset_table d ai : NodeDBSpec.wf d →
  (NodeDB.AssetsCount d < NodeDB.s_MaxCount → ∃ d' id, NodeDB.AssetAdd d 0 ai = Some (d', id) ∧ NodeDBSpec.wf d' ∧ NodeDB.rows d !! id = None ∧
    NodeDB.rows d' !! id = Some (Some ai) ∧ NodeDB.AssetDelete d' id = Some (d, NodeDB.AssetsCount d)) ∧
  (∀ id, NodeDB.rows d !! id = Some (Some ai) → ∃ d', NodeDB.AssetDelete d id = Some (d', NodeDB.AssetsCount d') ∧ NodeDBSpec.wf d' ∧
    NodeDB.AssetGetSafe d' id = Some None ∧ NodeDB.AssetAdd d' id ai = Some (d, id)).
Proof.
  intros Hwf. pose proof (NodeDBSpec.wf_count _ Hwf) as Hc. split.
  - intros Hm. destruct (NodeDBSpec.AssetAdd_spec d ai Hwf Hm) as (d' & id & E & Hwf' & Hid & _ & _ & Hnew & Hr & Hdel). exists d', id. split_and!; try done.
    pose proof (NodeDBSpec.wf_count _ Hwf'). rewrite Hr, decide_True; [done|done|]. unfold NodeDB.s_AssetEmpty0. lia.
  - intros id Hid. pose proof (NodeDBSpec.wf_asset _ Hwf _ _ Hid). destruct (NodeDBSpec.AssetDelete_spec d id ai Hwf Hid) as (d' & E & Hwf' & _ & _ & Hr & Hadd). exists d'. split_and!; try done.
    unfold NodeDB.AssetGetSafe. rewrite Hr, decide_True; [done|done|]. unfold NodeDB.s_AssetEmpty0. lia.
Qed.

Notation ACtx := (ACtx (Hash := Hash)).
Local Notation Create := (HandleAssetCreate_fwd get_Hash m_AlreadyValidated m_Temporary m_SkipDefinition m_Height).
Local Notation Emit := (HandleAssetEmit get_Hash m_AlreadyValidated m_Temporary m_SkipDefinition m_Height true).
Local Notation Destroy := (HandleAssetDestroy_fwd m_AlreadyValidated m_Temporary m_SkipDefinition m_Height LockPeriod).
Local Notation full_inv := (full_inv get_Hash m_AlreadyValidated m_SkipDefinition).

Definition no_assets : ACtx := mkACtx (NodeDB.mk ∅ 0 0) (Mmr.mk 0 (StreamMmr.init uninit)) (NodeDB.s_MaxCount + 1) [] [].

(** The states that kernels lead to, whether they were accepted or refused. *)
Inductive asset_reach : ACtx → Prop :=
  | reach_none : asset_reach no_assets
  | reach_create owner md c r c' : asset_reach c → NodeDB.AssetsCount (a_DB c) < NodeDB.s_MaxCount → Create owner md c = Some (r, c') → asset_reach c'
  | reach_emit owner aid val c r c' : asset_reach c → - 2 ^ 63 ≤ val < 2 ^ 63 → Emit owner aid val c = Some (r, c') → asset_reach c'
  | reach_destroy owner aid c r c' : asset_reach c → Destroy owner aid c = Some (r, c') → asset_reach c'.

(** No two assets have the same owner. *)
Definition owners_differ (d : NodeDB.t) : Prop := ∀ j k o, owner_at d j = Some o → owner_at d k = Some o → j = k.

Lemma no_assets_inv : full_inv no_assets.
Proof.
  split; [split|..]; cbn.
  - split; cbn; intros; try done; lia.
  - by intros k ai ?.
  - intros _. apply StreamMmrSpec.mmr_init.
  - done.
  - intros Ea. unfold used0. by rewrite Ea.
Qed.

Lemma alike_owners c c' : alike get_Hash m_AlreadyValidated m_SkipDefinition c c' → full_inv c' ∧ a_DB c' = a_DB c.
Proof. by intros (_ & ? & ? & _). Qed.

Lemma asset_reach_inv c : asset_reach c → full_inv c ∧ (m_AlreadyValidated = false → owners_differ (a_DB c)).
Proof.
  induction 1 as [|owner md c r c' _ [Hf Ho] Hc E|owner aid val c r c' _ [Hf Ho] Hv E|owner aid c r c' _ [Hf Ho] E].
  - split; [apply no_assets_inv|]. by intros _ j k o ?.
  - destruct (HandleAssetCreate_spec get_Hash m_AlreadyValidated m_Temporary m_SkipDefinition m_Height owner md c Hf Hc) as (r' & c2 & E2 & Hr). rewrite E in E2. injection E2 as <- <-.
    destruct r as [id|]; [|apply alike_owners in Hr as [? ->]; done]. destruct Hr as (Hf' & _ & _ & Hat & Hnew & _). split; [done|]. intros Ea j k o. specialize (Ho Ea). specialize (Hnew Ea). rewrite !Hat.
    destruct (decide (j = id)), (decide (k = id)); subst; intros Hj Hk; simplify_eq; try done; [by apply Hnew in Hk|by apply Hnew in Hj|by eapply Ho].
  - destruct (HandleAssetEmit_spec get_Hash m_AlreadyValidated m_Temporary m_SkipDefinition m_Height owner aid val c Hf Hv) as (r' & c2 & E2 & Hr).
    { unfold HandleAssetEmit in E. by destruct (NodeDB.AssetGetSafe _ _). }
    rewrite E in E2. injection E2 as <- <-. destruct r; [|destruct Hr as [-> _]; done]. destruct Hr as (Hf' & _ & Hat & _). split; [done|]. intros Ea j k o. rewrite !Hat. by apply Ho.
  - destruct (HandleAssetDestroy_spec get_Hash m_AlreadyValidated m_Temporary m_SkipDefinition m_Height LockPeriod owner aid c Hf) as (r' & c2 & E2 & Hr).
    { unfold HandleAssetDestroy_fwd in E. destruct m_AlreadyValidated; [|destruct (Ensure_frame c) as (<- & _)]; by destruct (NodeDB.AssetGetSafe _ _). }
    rewrite E in E2. injection E2 as <- <-. destruct r; [|apply alike_owners in Hr as [? ->]; done]. destruct Hr as (Hf' & _ & Hat & _). split; [done|]. intros Ea j k o. rewrite !Hat.
    destruct (decide (j = aid)), (decide (k = aid)); intros Hj Hk; try done. by eapply Ho.
Qed.



End props.

(** ** Witnesses *)

Section witness.

#[local] Instance tx_hasher : Hasher Z := {| combine := λ a b, (a * 31 + b * 17 + 1) mod 1000003; hZero := 0 |}.

Definition toy_get_Hash (id : Z) (ai : NodeDB.Info) : Z := (id * 101 + ⟦NodeDB.m_Owner ai⟧ * 7 + ⟦NodeDB.m_Value ai⟧ + NodeDB.m_LockHeight ai) mod 1000003.
Definition toy_leaf_hash (lf : Leaf IDs) : Z := (⟦lf_Key lf⟧ * 7 + get_Count (lf_Data lf)) mod 1000003.
Definition toy_Ancestor (a b : list Z) : list Z := a ++ b.

Definition toy_bic : Bic (UState (Hash := Z) * KState (Hash := Z)) :=
  mkBic true 0 (mkU (RadixTree.mk None ∅) 0, mkK ∅ ∅ [] false (no_assets 0)).

Definition toy_output (asset : option Z) : Output := mkOutput (replicate 32 7) 1 false 0 asset.
Definition toy_tx (asset : option Z) : TxVectors Input Output (TxKernel KrnBody) :=
  mkTx [] [toy_output asset] [Krn (mkKrn (KStd None) false [1]) []; Krn (mkKrn (KAssetCreate [9] [8]) false [2]) []].

Local Notation toy_HandleTx := (HandleTx 0 0 toy_get_Hash toy_Ancestor [0] false true false false 10 5 100 1 1000 240 0).
Local Notation toy_HandleBlock := (HandleBlock 0 0 toy_get_Hash toy_Ancestor [0] false true false false 10 5 100 1 1000 240 0).
Local Notation toy_same := (same_state toy_leaf_hash toy_get_Hash [0] false true false).

Lemma toy_bic_valid : bic_rel toy_same toy_bic toy_bic.
Proof.
  split_and!; try done. split; cbn.
  - split_and!; try done. exists ∅. split; [split; [apply represents_empty|done]|apply represents_empty].
  - split; [|by split; intros _; constructor]. split_and!; try done. apply full_alike, no_assets_inv.
Qed.

Lemma toy_tx_ok : elements_ok 0 0 toy_get_Hash toy_Ancestor [0] false true false false 10 5 100 1 1000 240 0 (toy_tx None) toy_bic.
Proof.
  split; [done|]. intros vI b1 n0 [= <- <- <-]. split.
  - split; [|done]. split; [|done]. split_and!; try done. by apply Forall_replicate.
  - intros vO b2 n1 E. vm_compute in E. injection E as <- <- <-. split.
    + split; [done|]. by intros vec b3 n [= <- <- <-].
    + intros e' b3 E. vm_compute in E. injection E as <- <-. split; [|done]. split; [done|]. intros vec b4 n [= <- <- <-]. by vm_compute.
Qed.



(** *** Inputs *)

Lemma toy_coin : ∃ t m, stands toy_leaf_hash t m ∧ m ≠ ∅.
Proof.
  assert (HC : commitment_ok (replicate 32 7) 1) by (split_and!; try done; by apply Forall_replicate).
  assert (Hst : stands toy_leaf_hash (RadixTree.mk None ∅) ∅) by (split; [apply represents_empty|done]).
  destruct (HandleOutput_fwd_spec 0 0 toy_leaf_hash 240 0 false false 10 5 (toy_output None) (part_fst toy_bic) ∅ eq_refl eq_refl Hst HC) as (key & x & t' & _ & Hw & Hx & Hr).
  destruct x as [x|]; [done|]. rewrite decide_True in Hr by done. destruct Hr as [_ Hr]. exists t'. eexists. split; [split; [exact Hr|]|].
  - apply (set_coins_wf _ _ _ Hw); [|done]. by intros y [= <-].
  - intros E. apply (f_equal (lookup (kbits Key.s_Bits key))) in E. by rewrite set_coins_lookup, lookup_empty in E.
Qed.

Lemma Node_input_least_maturity_witness : ∃ t m, m ≠ ∅ ∧ let v := mkInput (replicate 32 7) 1 0 0 in let u := mkU t 1 in
  (no_coin m (in_X v) (in_Y v) 20 ∧ HandleInput_fwd 20 v u = Some (false, v, u)) ∨
  ∃ M key id x t', 0 ≤ M < 20 ∧ Key.Key_assign (Key.mkData (in_X v) (in_Y v) M) = Some key ∧ no_coin m (in_X v) (in_Y v) M ∧
    m !! kbits Key.s_Bits key = Some (mkLeaf key (add_coin id x)) ∧
    HandleInput_fwd 20 v u = Some (true, mkInput (in_X v) (in_Y v) M id, set_Utxo u t') ∧ represents toy_leaf_hash Key.s_Bits t' (set_coins m key x).
Proof.
  destruct toy_coin as (t & m & Hst & Hm). exists t, m. split; [exact Hm|]. intros v u.
  apply (Node_input_least_maturity toy_leaf_hash 20 v u m); [lia|exact Hst|]. split_and!; try done. by apply Forall_replicate.
Defined.

(** *** Outputs *)


(** *** Assets *)

Local Notation Create := (HandleAssetCreate_fwd toy_get_Hash false true false 10).
Local Notation Destroy := (HandleAssetDestroy_fwd false true false 10 0).
Local Notation Emit := (HandleAssetEmit toy_get_Hash false true false 10 true).
Local Notation toy_reach := (asset_reach 0 toy_get_Hash false true false 10 0).

Definition toy_step (c : NodeAssetKernel.ACtx (Hash := Z)) (k : KrnType) : NodeAssetKernel.ACtx :=
  match k with
  | KAssetCreate o md => if NodeDB.AssetsCount (a_DB c) <? NodeDB.s_MaxCount then default c (snd <$> Create o md c) else c
  | KAssetDestroy o id => default c (snd <$> Destroy o id c)
  | _ => c
  end.

(** Three assets, the second of which was destroyed. *)
Definition toy_assets : NodeAssetKernel.ACtx (Hash := Z) := foldl toy_step (no_assets 0) [KAssetCreate [1] []; KAssetCreate [2] []; KAssetCreate [3] []; KAssetDestroy [2] 2].

Lemma toy_step_reach c ks : toy_reach c → toy_reach (foldl toy_step c ks).
Proof.
  revert c. induction ks as [|k ks IH]; intros c Hc; cbn [foldl]; [done|]. apply IH. destruct k as [|o md| |o id]; cbn [toy_step]; try done.
  - destruct (Z.ltb_spec (NodeDB.AssetsCount (a_DB c)) NodeDB.s_MaxCount); [|done]. destruct (Create o md c) as [[r c']|] eqn:E; [|done]. by eapply reach_create.
  - destruct (Destroy o id c) as [[r c']|] eqn:E; [|done]. by eapply reach_destroy.
Qed.

Lemma toy_assets_reach : toy_reach toy_assets.
Proof. apply toy_step_reach. constructor. Qed.

Lemma Node_asset_table_witness : ∃ d', NodeDB.AssetDelete (a_DB toy_assets) 3 = Some (d', NodeDB.AssetsCount d') ∧ NodeDBSpec.wf d' ∧
  NodeDB.AssetGetSafe d' 3 = Some None ∧ NodeDB.AssetAdd d' 3 (NodeDB.mkInfo (zeros 16) [3] 10 []) = Some (a_DB toy_assets, 3).
Proof.
  assert (Hwf : NodeDBSpec.wf (a_DB toy_assets)) by apply (asset_reach_inv 0 toy_get_Hash false true false 10 0 toy_assets toy_assets_reach).
  apply (Node_asset_table (a_DB toy_assets) (NodeDB.mkInfo (zeros 16) [3] 10 []) Hwf). by vm_compute.
Defined.



(** A kernel that names the row of a free ID makes the node throw: the second of three
    assets was destroyed, and its ID is kept by the row [s_AssetEmpty0 + 2], which has no
    values.  Emitting or destroying an asset of that ID is not refused, [AssetGetSafe]
    throws on the columns. *)
Theorem Node_asset_free_throws : ∃ c, toy_reach c ∧ NodeDB.AssetGetSafe (a_DB c) (NodeDB.s_AssetEmpty0 + 2) = None ∧
  Emit [3] (NodeDB.s_AssetEmpty0 + 2) 1 c = None ∧ Destroy [3] (NodeDB.s_AssetEmpty0 + 2) c = None.
Proof. exists toy_assets. split; [apply toy_assets_reach|]. by vm_compute. Qed.


End witness.
