(* ===== verification/WasmReader.v ===== *)
(** * bvm/wasm_interpreter: errors, numbers in the code

    [Wasm::Fail], the [Reader] that walks over the bytes of the code, with the four ways it
    treats a sign flag of a number that is already complete ([Mode]), and the writers of
    numbers of [Compiler::Context].  The proofs show that what is written is read back, and
    that the repair that the compiler makes to the code ([AutoWorkAround]) makes every mode
    read the same. *)

From stdpp Require Import base list numbers option.
From S2P Require Import Prelude.
Local Open Scope Z_scope.

(** ** Outcomes

    [Exc] is an exception of [Wasm::Fail]; [UB] is behaviour that C++ leaves undefined: an
    access outside of an object, or an arithmetic operation that overflows. *)

Inductive res (A : Type) := Ok (a : A) | Exc | UB.
Arguments Ok {A} _.
Arguments Exc {A}.
Arguments UB {A}.

#[export] Instance res_ret : MRet res := @Ok.
#[export] Instance res_bind : MBind res := λ A B f m, match m with Ok a => f a | Exc => Exc | UB => UB end.

Definition Test (b : bool) : res () := if b then Ok () else Exc.

(** An access that must be inside of the object. *)
Definition access {A} (o : option A) : res A := match o with Some a => Ok a | None => UB end.

(** ** Reader *)

Inductive Mode := AutoWorkAround | Restrict | Emulate_x86 | Standard.

(** What is read, and the bytes from [m_p0] to [m_p1] after it. *)
Definition Consume (n : Z) (buf : list Z) : res (list Z * list Z) :=
  Test (n <=? #buf);; mret (take (Z.to_nat n) buf, drop (Z.to_nat n) buf).

Definition Read1 (buf : list Z) : res (Z * list Z) :=
  match buf with [] => Exc | n :: buf => Ok (n, buf) end.

(** [ReadInternal<T, bSigned>], [T] of [nBitsMax] bits.  The result is the number, the bytes
    that were read, as they are left in the buffer, the rest of the buffer, and whether
    [m_ModeTriggered] is set. *)
Fixpoint ReadInternal_loop (nBitsMax : Z) (bSigned : bool) (m_Mode : Mode) (buf : list Z) (ret nShift : Z) (used : list Z)
    : res (Z * list Z * list Z * bool) :=
  match buf with
  | [] => Exc
  | n0 :: buf =>
    let bEnd := Z.land 0x80 n0 =? 0 in
    let n := if bEnd then n0 else Z.land n0 0x7f in
    let ret := Z.lor ret (Z.shiftl n nShift mod 2 ^ nBitsMax) in
    let nShift := nShift + 7 in
    let used' := used ++ [n0] in
    if bEnd then
      if bSigned && negb (Z.land 0x40 n =? 0) then
        if nBitsMax <=? nShift then
          match m_Mode with
          | AutoWorkAround => Ok (ret, used ++ [Z.land n 0xbf], buf, true)
          | Emulate_x86 => Ok (Z.lor ret (Z.shiftl (2 ^ nBitsMax - 1) (nShift mod nBitsMax) mod 2 ^ nBitsMax), used', buf, true)
          | Standard => Ok (ret, used', buf, true)
          | Restrict => Exc
          end
        else Ok (Z.lor ret (Z.shiftl (2 ^ nBitsMax - 1) nShift mod 2 ^ nBitsMax), used', buf, false)
      else Ok (ret, used', buf, false)
    else Test (nShift <? nBitsMax);; ReadInternal_loop nBitsMax bSigned m_Mode buf ret nShift used'
  end.

Definition ReadInternal (nBitsMax : Z) (bSigned : bool) (m_Mode : Mode) (buf : list Z) : res (Z * list Z * list Z * bool) :=
  ReadInternal_loop nBitsMax bSigned m_Mode buf 0 0 [].

(** ** Writer *)

(** Ten bytes hold the 64 bits. *)
Fixpoint WriteResU_loop (fuel : nat) (x : Z) : list Z :=
  match fuel with
  | O => []
  | S fuel =>
    let n := u8 x in
    let x := Z.shiftr x 7 in
    if x =? 0 then [n] else Z.lor n 0x80 :: WriteResU_loop fuel x
  end.

Definition WriteResU (x : Z) : list Z := WriteResU_loop 10 (u64 x).

Fixpoint WriteResS_loop (fuel : nat) (x : Z) : list Z :=
  match fuel with
  | O => []
  | S fuel =>
    let n := u8 x in
    let x := Z.shiftr x 6 in
    if x =? 0 then [n]
    else if x =? -1 then [Z.land n 0x7f]
    else Z.lor n 0x80 :: WriteResS_loop fuel (Z.shiftr x 1)
  end.

(** [x] is an [int64_t]. *)
Definition WriteResS (x : Z) : list Z := WriteResS_loop 10 x.

(** ** Proofs *)

#[local] Ltac eqb0 := change (0 =? 0) with true; cbv iota.
#[local] Ltac Zify.zify_post_hook ::= Z.to_euclidean_division_equations.

(** The bits that a byte adds above those already read. *)
Lemma lor_shift_mod W k r y : 0 ≤ k ≤ W → 0 ≤ r < 2 ^ k → Z.lor r (Z.shiftl y k mod 2 ^ W) = (r + y * 2 ^ k) mod 2 ^ W.
Proof.
  intros Hk Hr. rewrite Z.shiftl_mul_pow2 by lia.
  replace W with (k + (W - k)) by lia. rewrite Z.pow_add_r by lia.
  set (m := 2 ^ (W - k)). assert (0 < m) by (apply Z.pow_pos_nonneg; lia).
  assert (0 < 2 ^ k) by (apply Z.pow_pos_nonneg; lia).
  replace (y * 2 ^ k) with (2 ^ k * y) by lia.
  rewrite Z.mul_mod_distr_l by lia.
  rewrite Z.add_comm, (Z.rem_mul_r _ (2 ^ k) m) by lia.
  replace (2 ^ k * y + r) with (r + y * 2 ^ k) by lia.
  rewrite Z.mod_add, Z.div_add, (Z.mod_small r), (Z.div_small r), Z.add_0_l by lia.
  rewrite (Z.mul_comm (2 ^ k)), (Z.add_comm r), <- (lor_add (y mod m) r k) by lia. by rewrite Z.shiftl_mul_pow2 by lia.
Qed.

Lemma lor_shift_small W k r y :
  0 ≤ k ≤ W → 0 ≤ r < 2 ^ k → 0 ≤ y → y * 2 ^ k < 2 ^ W → Z.lor r (Z.shiftl y k mod 2 ^ W) = r + y * 2 ^ k.
Proof.
  intros Hk Hr Hy Hlt. rewrite lor_shift_mod by done. apply Z.mod_small.
  assert (2 ^ W = 2 ^ k * 2 ^ (W - k)) as E by (rewrite <- Z.pow_add_r by lia; f_equal; lia).
  split; [lia|]. assert (y < 2 ^ (W - k)) by nia. nia.
Qed.


(** The bytes of a number: all but the last have the top bit set. *)
Lemma byte_last n : 0 ≤ n < 128 → Z.land 0x80 n = 0.
Proof.
  intros Hn. assert (∀ x, 0 ≤ x < 256 → ((128 <=? x) || (Z.land 0x80 x =? 0)) = true) as H
    by (apply byte_all; vm_compute; reflexivity).
  specialize (H n ltac:(lia)). apply orb_true_iff in H as [H|H]; lia.
Qed.

Lemma byte_more x : Z.land 0x80 (Z.lor (u8 x) 0x80) =? 0 = false ∧ Z.land (Z.lor (u8 x) 0x80) 0x7f = x mod 128.
Proof.
  pose proof (u8_range x) as Hx.
  replace (x mod 128) with (u8 x mod 128)
    by (unfold u8; rewrite <- Znumtheory.Zmod_div_mod; [done|lia|lia|by exists 2]).
  generalize dependent (u8 x). intros n Hx. split.
  - assert (∀ x, 0 ≤ x < 256 → negb (Z.land 0x80 (Z.lor x 0x80) =? 0) = true) as H
      by (apply byte_all; vm_compute; reflexivity).
    by apply negb_true_iff, H.
  - byte_cases n Hx.
Qed.

Lemma WriteResU_read W mode b : ∀ fuel x ret nShift used rest,
  0 ≤ nShift < W → 0 ≤ ret < 2 ^ nShift → 0 ≤ x < 2 ^ (7 * Z.of_nat fuel) → x * 2 ^ nShift < 2 ^ W → (0 < fuel)%nat → b = false →
  ReadInternal_loop W b mode (WriteResU_loop fuel x ++ rest) ret nShift used =
    Ok (ret + x * 2 ^ nShift, used ++ WriteResU_loop fuel x, rest, false).
Proof.
  intros fuel x ret nShift used rest Hs Hret Hx Hlt Hf ->. revert x ret nShift used Hs Hret Hx Hlt Hf.
  induction fuel as [|fuel IH]; intros x ret nShift used Hs Hret Hx Hlt Hf; [lia|].
  assert (0 < 2 ^ nShift) as Hp by (apply Z.pow_pos_nonneg; lia).
  cbn [WriteResU_loop]. rewrite Z.shiftr_div_pow2 by lia. change (2 ^ 7) with 128.
  destruct (Z.eqb_spec (x / 128) 0) as [E|E].
  - assert (x < 128) by lia. rewrite u8_small by lia. cbn [app ReadInternal_loop].
    rewrite byte_last by lia. eqb0. by rewrite lor_shift_small by lia.
  - cbn [app ReadInternal_loop]. destruct (byte_more x) as [-> ->].
    assert (128 * 2 ^ nShift < 2 ^ W) as Hw by nia.
    assert (nShift + 7 < W) as Hs' by (apply (Z.pow_lt_mono_r_iff 2); [lia..|]; rewrite Z.pow_add_r by lia; lia).
    rewrite lor_shift_small by nia. rewrite (proj2 (Z.ltb_lt _ _) Hs'). cbn [Test mbind res_bind].
    assert (2 ^ (nShift + 7) = 128 * 2 ^ nShift) as Ep by (rewrite Z.pow_add_r by lia; lia).
    assert (x mod 128 + 128 * (x / 128) = x) as Ex by lia.
    assert (x / 128 < 2 ^ (7 * Z.of_nat fuel)) as Hf'.
    { replace (7 * Z.of_nat (S fuel)) with (7 + 7 * Z.of_nat fuel) in Hx by lia. rewrite Z.pow_add_r in Hx by lia.
      change (2 ^ 7) with 128 in Hx. lia. }
    rewrite IH; [|lia|nia|lia|nia|destruct fuel; [cbn in Hf'|]; lia].
    rewrite <- app_assoc, Ep. do 4 f_equal. rewrite <- Ex at 3. ring.
Qed.

Lemma WriteResS_read W : ∀ fuel x ret nShift used rest,
  0 ≤ nShift < W → 0 ≤ ret < 2 ^ nShift →
  - 2 ^ (7 * Z.of_nat fuel - 1) ≤ x < 2 ^ (7 * Z.of_nat fuel - 1) → - 2 ^ (W - 1 - nShift) ≤ x < 2 ^ (W - 1 - nShift) →
  ∃ t, ReadInternal_loop W true Standard (WriteResS_loop fuel x ++ rest) ret nShift used =
    Ok ((ret + x * 2 ^ nShift) mod 2 ^ W, used ++ WriteResS_loop fuel x, rest, t).
Proof.
  induction fuel as [|fuel IH]; intros x ret nShift used rest Hs Hret Hx Hlt; [cbn in Hx; lia|].
  cbn [WriteResS_loop]. rewrite Z.shiftr_div_pow2 by lia. change (2 ^ 6) with 64.
  assert (2 ^ (nShift + 7) = 128 * 2 ^ nShift) as Ep by (rewrite Z.pow_add_r by lia; lia).
  destruct (Z.eqb_spec (x / 64) 0) as [E|E]; [|destruct (Z.eqb_spec (x / 64) (-1)) as [E'|E']].
  - rewrite u8_small by lia. cbn [app ReadInternal_loop]. rewrite byte_last by lia. eqb0.
    assert (Z.land 0x40 x = 0) as ->.
    { assert (∀ x, 0 ≤ x < 256 → ((64 <=? x) || (Z.land 0x40 x =? 0)) = true) as H
        by (apply byte_all; vm_compute; reflexivity).
      specialize (H x ltac:(lia)). apply orb_true_iff in H as [H|H]; lia. }
    rewrite lor_shift_mod by lia. by eexists.
  - assert (Z.land (u8 x) 0x7f = x + 128) as ->.
    { unfold u8. replace (x mod 2 ^ 8) with (x + 256) by (rewrite <- (Z.mod_add x 1) by lia; rewrite Z.mod_small; lia).
      assert (∀ y, 0 ≤ y < 256 → ((y <? 192) || (Z.land y 0x7f =? y - 128)) = true) as H
        by (apply byte_all; vm_compute; reflexivity).
      specialize (H (x + 256) ltac:(lia)). apply orb_true_iff in H as [H|H]; lia. }
    cbn [app ReadInternal_loop]. rewrite byte_last by lia. eqb0.
    assert (Z.land 0x40 (x + 128) =? 0 = false) as ->.
    { assert (∀ y, 0 ≤ y < 256 → ((y <? 64) || (128 <=? y) || negb (Z.land 0x40 y =? 0)) = true) as H
        by (apply byte_all; vm_compute; reflexivity).
      specialize (H (x + 128) ltac:(lia)). apply orb_true_iff in H as [H|H]; [lia|]. by apply negb_true_iff. }
    cbn [andb negb].
    rewrite lor_shift_mod by lia. destruct (Z.leb_spec W (nShift + 7)) as [Hw|Hw].
    + eexists. do 4 f_equal. replace (ret + (x + 128) * 2 ^ nShift) with (ret + x * 2 ^ nShift + 2 ^ (nShift + 7 - W) * 2 ^ W).
      { apply Z.mod_add. lia. }
      rewrite <- Z.pow_add_r by lia. replace (nShift + 7 - W + W) with (nShift + 7) by lia. lia.
    + assert (2 ^ (nShift + 7) < 2 ^ W) by (apply Z.pow_lt_mono_r; lia).
      rewrite (Z.mod_small (ret + (x + 128) * 2 ^ nShift)) by nia.
      eexists. rewrite lor_shift_mod by nia. do 4 f_equal.
      replace (ret + (x + 128) * 2 ^ nShift + (2 ^ W - 1) * 2 ^ (nShift + 7)) with (ret + x * 2 ^ nShift + 2 ^ (nShift + 7) * 2 ^ W) by nia.
      apply Z.mod_add. lia.
  - rewrite Z.shiftr_div_pow2, Z.div_div by lia. change (64 * 2 ^ 1) with 128.
    cbn [app ReadInternal_loop]. destruct (byte_more x) as [-> ->].
    assert (nShift + 7 < W) as Hs'.
    { assert (2 ^ 6 < 2 ^ (W - 1 - nShift)) as Hq by lia. apply Z.pow_lt_mono_r_iff in Hq; lia. }
    assert (2 ^ (nShift + 7) ≤ 2 ^ W) by (apply Z.pow_le_mono_r; lia).
    assert (0 < 2 ^ nShift) by (apply Z.pow_pos_nonneg; lia).
    rewrite lor_shift_small by nia. rewrite (proj2 (Z.ltb_lt _ _) Hs'). cbn [Test mbind res_bind].
    assert (x mod 128 + 128 * (x / 128) = x) as Ex by lia.
    edestruct (IH (x / 128) (ret + x mod 128 * 2 ^ nShift) (nShift + 7)) as [t Et]; [lia|nia| | |].
    + replace (7 * Z.of_nat (S fuel) - 1) with (7 + (7 * Z.of_nat fuel - 1)) in Hx by lia.
      destruct fuel as [|fuel']; [cbn in Hx; lia|]. rewrite Z.pow_add_r in Hx by lia. change (2 ^ 7) with 128 in Hx. lia.
    + replace (W - 1 - nShift) with (7 + (W - 1 - (nShift + 7))) in Hlt by lia. rewrite Z.pow_add_r in Hlt by lia.
      change (2 ^ 7) with 128 in Hlt. lia.
    + exists t. rewrite Et, <- app_assoc, Ep. do 5 f_equal. rewrite <- Ex at 3. ring.
Qed.

Lemma bytes_one n : 0 ≤ n < 256 → bytes [n].
Proof. intros Hn. by apply Forall_singleton. Qed.

(** A byte without its sign flag. *)
Lemma byte_unflag n : 0 ≤ n < 256 → Z.land 0x80 n = 0 → Z.land 0x40 n ≠ 0 →
  Z.land n 0xbf = n - 64 ∧ Z.land 0x80 (n - 64) = 0 ∧ Z.land 0x40 (n - 64) = 0.
Proof.
  intros Hn H1 H2.
  assert (∀ n, 0 ≤ n < 256 → (negb (Z.land 0x80 n =? 0) || (Z.land 0x40 n =? 0) ||
     ((Z.land n 0xbf =? n - 64) && (Z.land 0x80 (n - 64) =? 0) && (Z.land 0x40 (n - 64) =? 0))) = true) as H
    by (apply byte_all; vm_compute; reflexivity).
  specialize (H n Hn). rewrite H1 in H. apply Z.eqb_neq in H2. rewrite H2 in H. cbn in H. lia.
Qed.

(** The code that the compiler repaired is read alike in every mode. *)
Lemma AutoWorkAround_read W b : W mod 7 ≠ 0 → 0 ≤ W → ∀ buf ret s used v used' rest t,
  bytes buf → 0 ≤ s → s mod 7 = 0 →
  ReadInternal_loop W b AutoWorkAround buf ret s used = Ok (v, used', rest, t) →
  ∃ l, used' = used ++ l ∧ bytes l ∧ length buf = length (l ++ rest) ∧
    ∀ mode used2, ReadInternal_loop W b mode (l ++ rest) ret s used2 = Ok (v, used2 ++ l, rest, false).
Proof.
  intros HW HW0. induction buf as [|n buf IH]; intros ret s used v used' rest t Hb Hs Hs7; [done|].
  apply bytes_cons in Hb as [Hn Hb]. cbn [ReadInternal_loop].
  destruct (Z.eqb_spec (Z.land 0x80 n) 0) as [E|E]; cycle 1.
  - destruct (Z.ltb_spec (s + 7) W) as [Hlt|]; [|done]. cbn [Test mbind res_bind]. intros H.
    apply IH in H as (l & -> & Hl & Hlen & Hr); [|done|lia|lia]. exists (n :: l). rewrite <- app_assoc. split_and!.
    + done.
    + by apply bytes_cons.
    + cbn. lia.
    + intros mode used2. cbn [app ReadInternal_loop]. rewrite (proj2 (Z.eqb_neq _ _) E).
      rewrite (proj2 (Z.ltb_lt _ _) Hlt). cbn [Test mbind res_bind]. by rewrite Hr, <- app_assoc.
  - destruct b; [destruct (Z.eqb_spec (Z.land 0x40 n) 0) as [F|F]|]; cbn [andb negb].
    + intros [= <- <- <- <-]. exists [n]. split_and!; [done|by apply bytes_one|done|].
      intros mode used2. cbn [app ReadInternal_loop]. rewrite E. eqb0. by rewrite F.
    + destruct (byte_unflag n Hn E F) as (-> & E' & F').
      destruct (Z.leb_spec W (s + 7)) as [Hle|Hgt]; intros [= <- <- <- <-].
      * exists [n - 64]. split_and!; [done| |done|].
        { apply bytes_one. assert (64 ≤ n); [|lia]. apply Z.le_ngt. intros Hlt.
          assert (∀ x, 0 ≤ x < 256 → ((64 <=? x) || (Z.land 0x40 x =? 0)) = true) as H
            by (apply byte_all; vm_compute; reflexivity).
          specialize (H n ltac:(lia)). apply orb_true_iff in H as [H|H]; lia. }
        intros mode used2. cbn [app ReadInternal_loop]. rewrite E'. eqb0. rewrite F'. eqb0. cbn [andb negb]. do 5 f_equal.
        rewrite !Z.shiftl_mul_pow2 by lia.
        replace (n * 2 ^ s) with ((n - 64) * 2 ^ s + 2 ^ (s + 6 - W) * 2 ^ W); [symmetry; apply Z.mod_add; lia|].
        rewrite <- Z.pow_add_r by lia. replace (s + 6 - W + W) with (s + 6) by lia. rewrite Z.pow_add_r by lia. lia.
      * exists [n]. split_and!; [done|by apply bytes_one|done|].
        intros mode used2. cbn [app ReadInternal_loop]. rewrite E. eqb0.
        by rewrite (proj2 (Z.eqb_neq _ _) F), (proj2 (Z.leb_gt _ _) Hgt).
    + intros [= <- <- <- <-]. exists [n]. split_and!; [done|by apply bytes_one|done|].
      intros mode used2. cbn [app ReadInternal_loop]. by rewrite E.
Qed.

(** The reader moves over the bytes it returns. *)
Lemma ReadInternal_loop_used W b mode : ∀ buf ret s used v used' rest t,
  ReadInternal_loop W b mode buf ret s used = Ok (v, used', rest, t) →
  ∃ l, used' = used ++ l ∧ length buf = (length l + length rest)%nat ∧ (0 < length l)%nat ∧
    rest = drop (length l) buf ∧ (mode ≠ AutoWorkAround → l = take (length l) buf) ∧ (bytes buf → bytes l).
Proof.
  induction buf as [|n buf IH]; intros ret s used v used' rest t; [done|]. cbn [ReadInternal_loop].
  assert (∀ x, (mode ≠ AutoWorkAround → x = n) → (bytes (n :: buf) → 0 ≤ x < 256) →
    ∃ l, used ++ [x] = used ++ l ∧ length (n :: buf) = (length l + length buf)%nat ∧ (0 < length l)%nat ∧
    buf = drop (length l) (n :: buf) ∧ (mode ≠ AutoWorkAround → l = take (length l) (n :: buf)) ∧ (bytes (n :: buf) → bytes l)) as Hone.
  { intros x Hx Hbx. exists [x]. split_and!; [done|done|cbn; lia|done| |].
    - intros Hm. cbn. by rewrite (Hx Hm).
    - intros Hb. by apply bytes_one, Hbx. }
  assert (bytes (n :: buf) → 0 ≤ n < 256) as Hn by (intros Hb; by apply bytes_cons in Hb as []).
  case_match eqn:E; cycle 1.
  - destruct (Z.ltb_spec (s + 7) W) as [Hlt|]; [|done]. cbn [Test mbind res_bind]. intros H.
    apply IH in H as (l & -> & Hlen & Hpos & Hr & Hm & Hb). exists (n :: l). rewrite <- app_assoc. cbn.
    split_and!; [done|lia|lia|done|intros Hn'; by rewrite <- Hm|]. intros [? ?]%bytes_cons. apply bytes_cons; auto.
  - repeat case_match; try done; intros [= <- <- <- <-]; apply Hone; try done.
    + intros Hb. apply Hn in Hb. clear -Hb. split; [apply Z.land_nonneg; lia|].
      assert (∀ x, 0 ≤ x < 256 → (Z.land x 0xbf <? 256) = true) as H by (apply byte_all; vm_compute; reflexivity).
      by apply Z.ltb_lt, H.
Qed.

Lemma ReadInternal_no_UB W b mode buf : ReadInternal W b mode buf ≠ UB.
Proof.
  unfold ReadInternal. generalize (@nil Z). generalize 0 at 1. generalize 0.
  induction buf as [|n buf IH]; intros s ret used; cbn [ReadInternal_loop]; [done|].
  repeat case_match; try done. unfold Test. case_match; [apply IH|done].
Qed.

Lemma lor_range W a b : 0 ≤ W → 0 ≤ a < 2 ^ W → 0 ≤ b < 2 ^ W → 0 ≤ Z.lor a b < 2 ^ W.
Proof.
  intros HW Ha Hb. split; [apply Z.lor_nonneg; lia|].
  destruct (decide (Z.lor a b = 0)) as [->|Hn]; [apply Z.pow_pos_nonneg; lia|].
  assert (0 ≤ Z.lor a b) by (apply Z.lor_nonneg; lia).
  apply Z.log2_lt_pow2; [lia|]. rewrite Z.log2_lor by lia.
  assert (∀ x, 0 ≤ x < 2 ^ W → x = 0 ∨ Z.log2 x < W) as Hx.
  { intros x Hx. destruct (decide (x = 0)); [by left|right]. apply Z.log2_lt_pow2; lia. }
  assert (W ≠ 0) as HW' by (intros ->; change (2 ^ 0) with 1 in *; assert (a = 0) as -> by lia; assert (b = 0) as -> by lia; done).
  destruct (Hx a Ha) as [->|], (Hx b Hb) as [->|]; cbn [Z.log2]; lia.
Qed.

Lemma ReadInternal_loop_range W b mode : 0 < W → ∀ buf ret s used v used' rest t,
  0 ≤ ret < 2 ^ W → ReadInternal_loop W b mode buf ret s used = Ok (v, used', rest, t) → 0 ≤ v < 2 ^ W.
Proof.
  intros HW. assert (0 < 2 ^ W) by (apply Z.pow_pos_nonneg; lia).
  assert (∀ a x, 0 ≤ a < 2 ^ W → 0 ≤ Z.lor a (x mod 2 ^ W) < 2 ^ W) as Hl.
  { intros a x Ha. apply lor_range; [lia|done|]. by apply Z.mod_pos_bound. }
  induction buf as [|n buf IH]; intros ret s used v used' rest t Hret; [done|]. cbn [ReadInternal_loop].
  case_match.
  - repeat case_match; try done; intros [= <- <- <- <-]; auto.
  - unfold Test. case_match; [|done]. cbn [mbind res_bind]. apply IH. auto.
Qed.
