(* ===== verification/WasmProcessor.v ===== *)
(** * bvm/wasm_interpreter: the processor

    [Wasm::Processor]: the operand stack and the alias stack, which grow towards each other
    in one array, the three kinds of memory, and every instruction of [RunOncePlus].  An
    access outside of an array is [UB], as is a signed division that overflows.  The words of
    the stack are kept as their bytes, in the order of a little-endian machine: the memory of
    kind [Stack] is the same array.

    The buffer of the code belongs to the derived class (it is a variable of the node, or a
    copy); [CodeMem] is how it is read and written.  The data section is part of it. *)

From stdpp Require Import base list numbers option.
From S2P Require Import Prelude WasmReader.
Local Open Scope Z_scope.

(** ** Arrays of bytes *)

Definition rdn (b : list Z) (off n : Z) : option (list Z) :=
  if (0 <=? off) && (0 <=? n) && (off + n <=? #b) then Some (take (Z.to_nat n) (drop (Z.to_nat off) b)) else None.

Definition wrn (b : list Z) (off : Z) (data : list Z) : option (list Z) :=
  if (0 <=? off) && (off + #data <=? #b)
  then Some (take (Z.to_nat off) b ++ data ++ drop (Z.to_nat off + length data) b) else None.

(** ** Types *)

Definition i32_code : Z := 0x7f.
Definition i64_code : Z := 0x7e.
Definition f32_code : Z := 0x7d.
Definition f64_code : Z := 0x7c.
Definition s_Base : Z := 0x7c.

Definition Words (t : Z) : res Z :=
  if (t =? i32_code) || (t =? f32_code) then Ok 1
  else if (t =? i64_code) || (t =? f64_code) then Ok 2
  else Exc.

(** [Type::SignedFrom], for numbers of [W] bits. *)
Definition SignedFrom (W x : Z) : Z := if x <? 2 ^ (W - 1) then x else x - 2 ^ W.

(** [Type::Extend] of a number of [V] bits, with its sign or without. *)
Definition Extend (W V : Z) (bSigned : bool) (x : Z) : Z := if bSigned then SignedFrom V x mod 2 ^ W else x.

(** ** Instructions *)

Inductive relop := R_eq | R_ne | R_lt_s | R_lt_u | R_gt_s | R_gt_u | R_le_s | R_le_u | R_ge_s | R_ge_u.
Inductive binop := B_add | B_sub | B_mul | B_div_s | B_div_u | B_rem_s | B_rem_u | B_and | B_or | B_xor | B_shl | B_shr_s | B_shr_u | B_rotl | B_rotr.

(** [I_load W n s]: [n] bytes, extended to [W] bits with their sign if [s]. *)
Inductive Instruction :=
  | I_drop | I_select | I_local_get | I_local_set | I_local_tee | I_global_get | I_global_set
  | I_i32_wrap_i64 | I_i64_extend_i32_s | I_i64_extend_i32_u
  | I_call | I_call_indirect | I_br | I_br_if | I_br_table | I_ret | I_i32_const | I_i64_const
  | I_prolog | I_call_ext | I_global_get_imp | I_global_set_imp
  | I_eqz (W : Z) | I_rel (W : Z) (o : relop) | I_bin (W : Z) (o : binop)
  | I_load (W n : Z) (bSigned : bool) | I_store (W n : Z).

Definition Instruction_of (b : Z) : option Instruction :=
  match b with
  | 0x1a => Some I_drop | 0x1b => Some I_select
  | 0x20 => Some I_local_get | 0x21 => Some I_local_set | 0x22 => Some I_local_tee
  | 0x23 => Some I_global_get | 0x24 => Some I_global_set
  | 0xa7 => Some I_i32_wrap_i64 | 0xac => Some I_i64_extend_i32_s | 0xad => Some I_i64_extend_i32_u
  | 0x10 => Some I_call | 0x11 => Some I_call_indirect
  | 0x0c => Some I_br | 0x0d => Some I_br_if | 0x0e => Some I_br_table | 0x0f => Some I_ret
  | 0x41 => Some I_i32_const | 0x42 => Some I_i64_const
  | 0xf1 => Some I_prolog | 0xf3 => Some I_call_ext | 0xf8 => Some I_global_get_imp | 0xf9 => Some I_global_set_imp
  | 0x45 => Some (I_eqz 32) | 0x50 => Some (I_eqz 64)
  | 0x46 => Some (I_rel 32 R_eq) | 0x51 => Some (I_rel 64 R_eq)
  | 0x47 => Some (I_rel 32 R_ne) | 0x52 => Some (I_rel 64 R_ne)
  | 0x48 => Some (I_rel 32 R_lt_s) | 0x53 => Some (I_rel 64 R_lt_s)
  | 0x49 => Some (I_rel 32 R_lt_u) | 0x54 => Some (I_rel 64 R_lt_u)
  | 0x4a => Some (I_rel 32 R_gt_s) | 0x55 => Some (I_rel 64 R_gt_s)
  | 0x4b => Some (I_rel 32 R_gt_u) | 0x56 => Some (I_rel 64 R_gt_u)
  | 0x4c => Some (I_rel 32 R_le_s) | 0x57 => Some (I_rel 64 R_le_s)
  | 0x4d => Some (I_rel 32 R_le_u) | 0x58 => Some (I_rel 64 R_le_u)
  | 0x4e => Some (I_rel 32 R_ge_s) | 0x59 => Some (I_rel 64 R_ge_s)
  | 0x4f => Some (I_rel 32 R_ge_u) | 0x5a => Some (I_rel 64 R_ge_u)
  | 0x6a => Some (I_bin 32 B_add) | 0x7c => Some (I_bin 64 B_add)
  | 0x6b => Some (I_bin 32 B_sub) | 0x7d => Some (I_bin 64 B_sub)
  | 0x6c => Some (I_bin 32 B_mul) | 0x7e => Some (I_bin 64 B_mul)
  | 0x6d => Some (I_bin 32 B_div_s) | 0x7f => Some (I_bin 64 B_div_s)
  | 0x6e => Some (I_bin 32 B_div_u) | 0x80 => Some (I_bin 64 B_div_u)
  | 0x6f => Some (I_bin 32 B_rem_s) | 0x81 => Some (I_bin 64 B_rem_s)
  | 0x70 => Some (I_bin 32 B_rem_u) | 0x82 => Some (I_bin 64 B_rem_u)
  | 0x71 => Some (I_bin 32 B_and) | 0x83 => Some (I_bin 64 B_and)
  | 0x72 => Some (I_bin 32 B_or) | 0x84 => Some (I_bin 64 B_or)
  | 0x73 => Some (I_bin 32 B_xor) | 0x85 => Some (I_bin 64 B_xor)
  | 0x74 => Some (I_bin 32 B_shl) | 0x86 => Some (I_bin 64 B_shl)
  | 0x75 => Some (I_bin 32 B_shr_s) | 0x87 => Some (I_bin 64 B_shr_s)
  | 0x76 => Some (I_bin 32 B_shr_u) | 0x88 => Some (I_bin 64 B_shr_u)
  | 0x77 => Some (I_bin 32 B_rotl) | 0x89 => Some (I_bin 64 B_rotl)
  | 0x78 => Some (I_bin 32 B_rotr) | 0x8a => Some (I_bin 64 B_rotr)
  | 0x36 => Some (I_store 32 4) | 0x37 => Some (I_store 64 8)
  | 0x3a => Some (I_store 32 1) | 0x3b => Some (I_store 32 2)
  | 0x3c => Some (I_store 64 1) | 0x3d => Some (I_store 64 2) | 0x3e => Some (I_store 64 4)
  | 0x28 => Some (I_load 32 4 false) | 0x29 => Some (I_load 64 8 false)
  | 0x2c => Some (I_load 32 1 true) | 0x2d => Some (I_load 32 1 false)
  | 0x2e => Some (I_load 32 2 true) | 0x2f => Some (I_load 32 2 false)
  | 0x30 => Some (I_load 64 1 true) | 0x31 => Some (I_load 64 1 false)
  | 0x32 => Some (I_load 64 2 true) | 0x33 => Some (I_load 64 2 false)
  | 0x34 => Some (I_load 64 4 true) | 0x35 => Some (I_load 64 4 false)
  | _ => None
  end.

(** ** Arithmetic on numbers of [W] bits *)

Definition b2z (b : bool) : Z := if b then 1 else 0.

Definition Eval_eqz (x : Z) : Z := b2z (x =? 0).

Definition Eval_rel (o : relop) (W a b : Z) : Z :=
  let sa := SignedFrom W a in
  let sb := SignedFrom W b in
  b2z (match o with
       | R_eq => a =? b | R_ne => negb (a =? b)
       | R_lt_s => sa <? sb | R_gt_s => sb <? sa | R_le_s => sa <=? sb | R_ge_s => sb <=? sa
       | R_lt_u => a <? b | R_gt_u => b <? a | R_le_u => a <=? b | R_ge_u => b <=? a
       end).

(** The quotient of the least number by -1 does not fit: the division is undefined. *)
Definition div_overflows (W a b : Z) : bool := (SignedFrom W a =? - 2 ^ (W - 1)) && (SignedFrom W b =? -1).

Definition Eval_bin (o : binop) (W a b : Z) : res Z :=
  let wrap x := x mod 2 ^ W in
  match o with
  | B_add => Ok (wrap (a + b))
  | B_sub => Ok (wrap (a - b))
  | B_mul => Ok (wrap (a * b))
  | B_div_s =>
    Test (negb (b =? 0));;
    if div_overflows W a b then UB else Ok (wrap (Z.quot (SignedFrom W a) (SignedFrom W b)))
  | B_div_u => Test (negb (b =? 0));; Ok (a / b)
  | B_rem_s =>
    Test (negb (b =? 0));;
    if div_overflows W a b then UB else Ok (wrap (Z.rem (SignedFrom W a) (SignedFrom W b)))
  | B_rem_u => Test (negb (b =? 0));; Ok (a mod b)
  | B_and => Ok (Z.land a b)
  | B_or => Ok (Z.lor a b)
  | B_xor => Ok (Z.lxor a b)
  | B_shl => Test (b <? W);; Ok (wrap (Z.shiftl a b))
  | B_shr_s => Test (b <? W);; Ok (wrap (Z.shiftr (SignedFrom W a) b))
  | B_shr_u => Test (b <? W);; Ok (Z.shiftr a b)
  | B_rotl => Test (b <? W);; Ok (if b =? 0 then a else Z.lor (wrap (Z.shiftl a b)) (Z.shiftr a (W - b)))
  | B_rotr => Test (b <? W);; Ok (if b =? 0 then a else Z.lor (Z.shiftr a b) (wrap (Z.shiftl a (W - b))))
  end.

(** ** State *)

Record Stack_t := mkStack {
  m_pPtr : list Z;          (* the bytes of the words *)
  m_Pos : Z;
  m_PosMin : Z;
  m_BytesMax : Z;           (* total stack size *)
  m_BytesCurrent : Z;       (* operand stack remaining, before it collides with alias stack *)
}.

Record Processor (X : Type) := mkProcessor {
  p_ext : X;                (* the derived class, with the buffer of the code *)
  m_Data : Z * Z;           (* the data section: its offset in the code, and its size *)
  m_prTable0 : Z;
  m_prData0 : Z;
  m_LinearMem : list Z;
  m_Ip : Z;                 (* m_Instruction.m_p0, as the offset in the code; m_p1 is its end *)
  m_Mode : Mode;
  m_ModeTriggered : bool;
  m_Stack : Stack_t;
}.
Arguments mkProcessor {X} _ _ _ _ _ _ _ _ _.
Arguments p_ext {X} _.
Arguments m_Data {X} _.
Arguments m_prTable0 {X} _.
Arguments m_prData0 {X} _.
Arguments m_LinearMem {X} _.
Arguments m_Ip {X} _.
Arguments m_Mode {X} _.
Arguments m_ModeTriggered {X} _.
Arguments m_Stack {X} _.

(** The buffer that [m_Code] points to. *)
Class CodeMem (X : Type) := {
  get_Code : X → list Z;
  set_Code : list Z → X → X;
}.

Class CodeMemOk (X : Type) `{!CodeMem X} : Prop := {
  set_get_Code x : set_Code (get_Code x) x = x;
  get_set_Code c x : length c = length (get_Code x) → get_Code (set_Code c x) = c;
  set_set_Code c c' x : set_Code c (set_Code c' x) = set_Code c x;
}.

Definition PM (X A : Type) : Type := Processor X → res (A * Processor X).

#[export] Instance PM_ret {X} : MRet (PM X) := λ A a p, Ok (a, p).
#[export] Instance PM_bind {X} : MBind (PM X) := λ A B f m p, match m p with Ok (a, p) => f a p | Exc => Exc | UB => UB end.

Section Methods.
Context {X : Type} `{!CodeMem X}.

Definition lift {A} (r : res A) : PM X A := λ p, match r with Ok a => Ok (a, p) | Exc => Exc | UB => UB end.
Definition gets {A} (f : Processor X → A) : PM X A := λ p, Ok (f p, p).
Definition upd (f : Processor X → Processor X) : PM X () := λ p, Ok ((), f p).
Definition test (b : bool) : PM X () := lift (Test b).

Definition m_Code (p : Processor X) : list Z := get_Code (p_ext p).

Definition set_stack (s : Stack_t) (p : Processor X) : Processor X :=
  mkProcessor (p_ext p) (m_Data p) (m_prTable0 p) (m_prData0 p) (m_LinearMem p) (m_Ip p) (m_Mode p) (m_ModeTriggered p) s.
Definition set_ip (ip : Z) (p : Processor X) : Processor X :=
  mkProcessor (p_ext p) (m_Data p) (m_prTable0 p) (m_prData0 p) (m_LinearMem p) ip (m_Mode p) (m_ModeTriggered p) (m_Stack p).
Definition set_mem (m : list Z) (p : Processor X) : Processor X :=
  mkProcessor (p_ext p) (m_Data p) (m_prTable0 p) (m_prData0 p) m (m_Ip p) (m_Mode p) (m_ModeTriggered p) (m_Stack p).
Definition set_ext (x : X) (p : Processor X) : Processor X :=
  mkProcessor x (m_Data p) (m_prTable0 p) (m_prData0 p) (m_LinearMem p) (m_Ip p) (m_Mode p) (m_ModeTriggered p) (m_Stack p).
Definition set_code (c : list Z) (p : Processor X) : Processor X := set_ext (set_Code c (p_ext p)) p.
Definition set_triggered (t : bool) (p : Processor X) : Processor X :=
  mkProcessor (p_ext p) (m_Data p) (m_prTable0 p) (m_prData0 p) (m_LinearMem p) (m_Ip p) (m_Mode p) (m_ModeTriggered p || t) (m_Stack p).

Definition set_Pos (n : Z) (s : Stack_t) : Stack_t := mkStack (m_pPtr s) n (m_PosMin s) (m_BytesMax s) (m_BytesCurrent s).
Definition set_PosMin (n : Z) (s : Stack_t) : Stack_t := mkStack (m_pPtr s) (m_Pos s) n (m_BytesMax s) (m_BytesCurrent s).
Definition set_BytesMax (n : Z) (s : Stack_t) : Stack_t := mkStack (m_pPtr s) (m_Pos s) (m_PosMin s) n (m_BytesCurrent s).
Definition set_BytesCurrent (n : Z) (s : Stack_t) : Stack_t := mkStack (m_pPtr s) (m_Pos s) (m_PosMin s) (m_BytesMax s) n.
Definition set_pPtr (b : list Z) (s : Stack_t) : Stack_t := mkStack b (m_Pos s) (m_PosMin s) (m_BytesMax s) (m_BytesCurrent s).

(** ** Stack *)

(** [m_pPtr[i]]. *)
Definition rd_word (i : Z) : PM X Z := λ p,
  match rdn (m_pPtr (m_Stack p)) (4 * i) 4 with Some w => Ok (of_le w, p) | None => UB end.
Definition wr_word (i x : Z) : PM X () := λ p,
  match wrn (m_pPtr (m_Stack p)) (4 * i) (le 4 x) with
  | Some b => Ok ((), set_stack (set_pPtr b (m_Stack p)) p)
  | None => UB
  end.
Definition on_stack (f : Stack_t → Stack_t) : PM X () := upd (λ p, set_stack (f (m_Stack p)) p).

Definition Pop1 : PM X Z :=
  s ← gets m_Stack;
  test (m_PosMin s <? m_Pos s);;
  on_stack (set_Pos (m_Pos s - 1));;
  rd_word (m_Pos s - 1).

Definition Push1 (x : Z) : PM X () :=
  s ← gets m_Stack;
  test (m_Pos s <? m_BytesCurrent s / 4);;
  wr_word (m_Pos s) x;;
  on_stack (set_Pos (m_Pos s + 1)).

Definition Pop2 : PM X Z := lo ← Pop1; hi ← Pop1; mret (Z.lor lo (Z.shiftl hi 32)).
Definition Push2 (x : Z) : PM X () := Push1 (Z.shiftr x 32);; Push1 (u32 x).

(** [Pop<T>] and [Push<T>], [T] of [W] bits. *)
Definition Pop (W : Z) : PM X Z := if W <=? 32 then Pop1 else Pop2.
Definition Push (W x : Z) : PM X () := if W <=? 32 then Push1 x else Push2 x.

Definition s_Alignment : Z := 16.
Definition AlignUp (n : Z) : Z := Z.land (u32 (n + s_Alignment - 1)) (u32 (Z.lnot (s_Alignment - 1))).
Definition TestAlignmentPower (n : Z) : PM X () := test (n <=? 4).

Definition MemoryType_Data : Z := 0.
Definition MemoryType_Global : Z := 2 ^ 30.
Definition MemoryType_Stack : Z := 2 ^ 31.
Definition MemoryType_Mask : Z := 3 * 2 ^ 30.
Definition MemoryType_Offs : Z := 2 ^ 30 - 1.    (* ~Mask *)

Definition TestSelf : PM X () :=
  s ← gets m_Stack;
  test (m_BytesCurrent s <=? m_BytesMax s);;
  test (m_Pos s <=? m_BytesCurrent s / 4).

Definition get_AlasSp : PM X Z := s ← gets m_Stack; mret (Z.lor MemoryType_Stack (m_BytesCurrent s)).

Definition set_AlasSp (x : Z) : PM X () :=
  test (Z.land MemoryType_Mask x =? MemoryType_Stack);;
  on_stack (set_BytesCurrent (Z.land x MemoryType_Offs));;
  TestSelf.

Definition AliasAlloc (nSize : Z) : PM X () :=
  let nSize := AlignUp nSize in
  s ← gets m_Stack;
  test (nSize <=? m_BytesCurrent s);;
  on_stack (set_BytesCurrent (m_BytesCurrent s - nSize));;
  TestSelf.

Definition AliasFree (nSize : Z) : PM X () :=
  let nSize := AlignUp nSize in
  s ← gets m_Stack;
  let n := u32 (m_BytesCurrent s + nSize) in
  on_stack (set_BytesCurrent n);;
  test (nSize <=? n);;
  TestSelf.

Definition PushAlias (b : list Z) : PM X () :=
  AliasAlloc #b;;
  s ← gets m_Stack;
  m ← lift (access (wrn (m_pPtr s) (m_BytesCurrent s) b));
  on_stack (set_pPtr m).

(** ** Memory *)

(** An address: the array, and the offset in it. *)
Inductive Region := InData | InGlobal | InStack.

Definition buffer (r : Region) (p : Processor X) : list Z :=
  match r with InData => m_Code p | InGlobal => m_LinearMem p | InStack => m_pPtr (m_Stack p) end.

Definition set_buffer (r : Region) (b : list Z) (p : Processor X) : Processor X :=
  match r with
  | InData => set_code b p
  | InGlobal => set_mem b p
  | InStack => set_stack (set_pPtr b (m_Stack p)) p
  end.

(** A pointer; [None] is null, from which nothing is read. *)
Definition rd_mem (a : option (Region * Z)) (n : Z) : PM X (list Z) :=
  match a with
  | Some (r, off) => b ← gets (buffer r); lift (access (rdn b off n))
  | None => if n =? 0 then mret [] else lift UB
  end.
Definition wr_mem (a : option (Region * Z)) (data : list Z) : PM X () :=
  match a with
  | Some (r, off) => b ← gets (buffer r); b ← lift (access (wrn b off data)); upd (set_buffer r b)
  | None => if #data =? 0 then mret () else lift UB
  end.

(** The address, and how many bytes there are from it on. *)
Definition get_AddrExVar (nOffset : Z) : PM X ((Region * Z) * Z) :=
  let nMemType := Z.land MemoryType_Mask nOffset in
  let nOffset := Z.land nOffset MemoryType_Offs in
  p ← gets id;
  if nMemType =? MemoryType_Global then
    test (nOffset <=? #(m_LinearMem p));; mret ((InGlobal, nOffset), #(m_LinearMem p) - nOffset)
  else if nMemType =? MemoryType_Data then
    let '(d0, n) := m_Data p in
    let nOffset := u32 (nOffset - m_prData0 p) in
    test (nOffset <=? n);; mret ((InData, d0 + nOffset), n - nOffset)
  else if nMemType =? MemoryType_Stack then
    let s := m_Stack p in
    (if nOffset <? m_BytesCurrent s then test (m_Pos s <=? nOffset / 4) else mret ());;
    test (nOffset <=? m_BytesMax s);; mret ((InStack, nOffset), m_BytesMax s - nOffset)
  else lift Exc.

Definition get_AddrEx (nOffset nSize : Z) : PM X (option (Region * Z)) :=
  if nSize =? 0 then mret None
  else
    '(a, nSizeOut) ← get_AddrExVar nOffset;
    test (nSize <=? nSizeOut);; mret (Some a).

End Methods.

(** ** Instructions

    The methods that [ProcessorContract] overrides. *)

Class Virtuals (X : Type) := {
  InvokeExt : Z → PM X ();
  OnCall : Z → PM X ();
  OnRet : Z → PM X ();
}.

Section Run.
Context {X : Type} `{!CodeMem X, !Virtuals X}.
Implicit Types p : Processor X.

(** *** The reader of the code *)

Definition rest_of p : list Z := drop (Z.to_nat (m_Ip p)) (m_Code p).

Definition Consume_code (n : Z) : PM X (list Z) :=
  p ← gets id;
  '(l, _) ← lift (Consume n (rest_of p));
  upd (set_ip (m_Ip p + n));; mret l.

Definition Read1_code : PM X Z :=
  p ← gets id;
  '(b, _) ← lift (Read1 (rest_of p));
  upd (set_ip (m_Ip p + 1));; mret b.

(** [m_Instruction.Read<T>()], [T] of [W] bits; the bytes are left as the reader leaves them. *)
Definition Read_code (W : Z) (bSigned : bool) : PM X Z :=
  p ← gets id;
  '(x, used, rest, t) ← lift (ReadInternal W bSigned (m_Mode p) (rest_of p));
  upd (set_code (take (Z.to_nat (m_Ip p)) (m_Code p) ++ used ++ rest));;
  upd (set_triggered t);;
  upd (set_ip (m_Ip p + #used));;
  mret x.

Definition ReadAddr : PM X Z := l ← Consume_code 4; mret (of_le l).

Definition Jmp (ip : Z) : PM X () :=
  c ← gets m_Code; test (ip <? #c);; upd (set_ip ip).

(** *** Locals and operands *)

(** [for (i = 0; i < n; i++) pDst[i] = pSrc[i];] *)
Fixpoint copy_words (n : nat) (dst src : Z) : PM X () :=
  match n with
  | O => mret ()
  | S n => x ← rd_word src; wr_word dst x;; copy_words n (dst + 1) (src + 1)
  end.

Definition OnLocal (bSet bGet : bool) : PM X () :=
  nOffset ← Read_code 32 false;
  let nType := s_Base + Z.land 3 (u32 (nOffset - s_Base)) in
  nWords ← lift (Words nType);
  let nOffset := nOffset / 4 in
  s ← gets m_Stack;
  test ((nWords <=? nOffset) && (nOffset <=? u32 (m_Pos s - m_PosMin s)));;
  if negb bSet then
    let n := u32 (m_Pos s + nWords) in
    on_stack (set_Pos n);;
    test (n <=? m_BytesCurrent s / 4);;
    copy_words (Z.to_nat nWords) (m_Pos s) (m_Pos s - nOffset)
  else
    (if negb bGet then on_stack (set_Pos (m_Pos s - nWords)) else mret ());;
    copy_words (Z.to_nat nWords) (m_Pos s - nOffset) (m_Pos s - nWords).

Definition OnGlobal : PM X () := lift Exc.

(** [OnGlobalVar]; the stack pointer is the only variable. *)
Definition OnGlobalVar (iVar : Z) (bGet : bool) : PM X () :=
  if iVar =? 0 then
    if bGet then sp ← get_AlasSp; Push 32 sp
    else val ← Pop 32; test (AlignUp val =? val);; set_AlasSp val
  else lift Exc.

Definition OnGlobalImp (bGet : bool) : PM X () := iVar ← Read_code 32 false; OnGlobalVar iVar bGet.

Definition MemArgEx (nSize : Z) : PM X (option (Region * Z)) :=
  nAlign ← Read_code 32 false;
  TestAlignmentPower nAlign;;
  nOffs ← Read_code 32 false;
  a ← Pop 32;
  get_AddrEx (u32 (nOffs + a)) nSize.

Definition On_drop : PM X () :=
  t ← Read1_code;
  nWords ← lift (Words t);
  s ← gets m_Stack;
  test (nWords <=? u32 (m_Pos s - m_PosMin s));;
  on_stack (set_Pos (m_Pos s - nWords)).

Definition On_select : PM X () :=
  t ← Read1_code;
  nWords ← lift (Words t);
  nSel ← Pop 32;
  s ← gets m_Stack;
  test (2 * nWords <=? u32 (m_Pos s - m_PosMin s));;
  let n := m_Pos s - nWords in
  on_stack (set_Pos n);;
  if nSel =? 0 then copy_words (Z.to_nat nWords) (n - nWords) n else mret ().

(** *** Control *)

Definition On_br_if : PM X () := addr ← ReadAddr; c ← Pop 32; if negb (c =? 0) then Jmp addr else mret ().

Definition On_br_table : PM X () :=
  nLabels ← Read_code 32 false;
  nOperand ← Pop 32;
  let nOperand := Z.min nOperand nLabels in
  let nLabels := u32 (nLabels + 1) in
  let nSize := u32 (4 * nLabels) in
  test (nSize / 4 =? nLabels);;
  pAddrs ← gets m_Ip;
  Consume_code nSize;;
  c ← gets m_Code;
  a ← lift (access (rdn c (pAddrs + 4 * nOperand) 4));
  Jmp (of_le a).

Definition On_call : PM X () := nAddr ← ReadAddr; nRetAddr ← gets m_Ip; Push 32 nRetAddr;; OnCall nAddr.

Definition On_call_ext : PM X () := iExt ← Read_code 32 false; InvokeExt iExt.

Definition ReadTable (iItem : Z) : PM X Z :=
  let iItem := u32 (iItem - 1) in
  p ← gets id;
  test (iItem <? u32 (#(m_Code p) - m_prTable0 p) / 4);;
  a ← lift (access (rdn (m_Code p) (m_prTable0 p + 4 * iItem) 4));
  mret (of_le a).

Definition On_call_indirect : PM X () :=
  iFunc ← Pop 32;
  nAddr ← ReadTable iFunc;
  nRetAddr ← gets m_Ip;
  Push 32 nRetAddr;; OnCall nAddr.

Fixpoint push_zeros (n : nat) : PM X () :=
  match n with O => mret () | S n => Push1 0;; push_zeros n end.

Definition On_prolog : PM X () := nWords ← Read_code 32 false; push_zeros (Z.to_nat nWords).

Definition On_ret : PM X () :=
  nRets ← Read_code 32 false;
  nLocals ← Read_code 32 false;
  nArgs ← Read_code 32 false;
  s ← gets m_Stack;
  let nPosRetSrc := u32 (m_Pos s - nRets) in
  test (nPosRetSrc <=? m_Pos s);;
  let nPosAddr := u32 (nPosRetSrc - u32 (nLocals + 1)) in
  test (nPosAddr <? nPosRetSrc);;
  let nPosRetDst := u32 (nPosAddr - nArgs) in
  test (nPosRetDst <=? nPosAddr);;
  test (m_PosMin s <=? nPosRetDst);;
  nRetAddr ← rd_word nPosAddr;
  copy_words (Z.to_nat nRets) nPosRetDst nPosRetSrc;;
  on_stack (set_Pos (u32 (nPosRetDst + nRets)));;
  OnRet nRetAddr.

(** *** RunOncePlus *)

Definition On_instruction (i : Instruction) : PM X () :=
  match i with
  | I_drop => On_drop
  | I_select => On_select
  | I_local_get => OnLocal false true
  | I_local_set => OnLocal true false
  | I_local_tee => OnLocal true true
  | I_global_get | I_global_set => OnGlobal
  | I_i32_wrap_i64 => val ← Pop 64; Push 32 (u32 val)
  | I_i64_extend_i32_s => val ← Pop 32; Push 64 (Extend 64 32 true val)
  | I_i64_extend_i32_u => val ← Pop 32; Push 64 (Extend 64 32 false val)
  | I_call => On_call
  | I_call_indirect => On_call_indirect
  | I_br => addr ← ReadAddr; Jmp addr
  | I_br_if => On_br_if
  | I_br_table => On_br_table
  | I_ret => On_ret
  | I_i32_const => x ← Read_code 32 true; Push 32 x
  | I_i64_const => x ← Read_code 64 true; Push 64 x
  | I_prolog => On_prolog
  | I_call_ext => On_call_ext
  | I_global_get_imp => OnGlobalImp true
  | I_global_set_imp => OnGlobalImp false
  | I_eqz W => x ← Pop W; Push 32 (Eval_eqz x)
  | I_rel W o => b ← Pop W; a ← Pop W; Push 32 (Eval_rel o W a b)
  | I_bin W o => b ← Pop W; a ← Pop W; x ← lift (Eval_bin o W a b); Push W x
  | I_load W n bSigned =>
    a ← MemArgEx n; l ← rd_mem a n; Push W (Extend W (8 * n) bSigned (of_le l))
  | I_store W n => val ← Pop W; a ← MemArgEx n; wr_mem a (le (Z.to_nat n) val)
  end.

Definition RunOnce : PM X () :=
  b ← Read1_code;
  match Instruction_of b with Some i => On_instruction i | None => lift Exc end.

End Run.
