(* ===== verification/WasmSafety.v ===== *)
(** * The processor stays inside of its memory

    An invariant of [Wasm::Processor] and what one instruction may change.  Whatever the
    bytes of the code are, an instruction throws or keeps the invariant, and it does not
    touch the words of the operand stack below [m_PosMin] nor the alias stack above
    [m_BytesMax].  Two instructions escape: a signed division of the least number by -1, and a
    [br_table] of 2^32 - 1 labels. *)

From stdpp Require Import base list numbers option.
From S2P Require Import Prelude WasmReader WasmProcessor.
Local Open Scope Z_scope.

#[local] Ltac Zify.zify_post_hook ::= Z.to_euclidean_division_equations.

(** ** Arrays *)

Lemma rdn_Some b off n : 0 ≤ off → 0 ≤ n → off + n ≤ #b →
  ∃ l, rdn b off n = Some l ∧ #l = n ∧ (bytes b → bytes l).
Proof.
  intros Ho Hn Hb. unfold rdn. rewrite !(proj2 (Z.leb_le _ _)) by lia. eexists. split; [done|]. split.
  - rewrite length_take, length_drop. lia.
  - auto with beam.
Qed.

Lemma rdn_inv b off n l : rdn b off n = Some l → 0 ≤ off ∧ 0 ≤ n ∧ off + n ≤ #b.
Proof. unfold rdn. case_match eqn:E; [|done]. intros _. lia. Qed.

Lemma wrn_Some b off data : 0 ≤ off → off + #data ≤ #b →
  ∃ b', wrn b off data = Some b' ∧ length b' = length b ∧ (bytes b → bytes data → bytes b') ∧
    (∀ k, (Z.of_nat k ≤ off)%Z → take k b' = take k b) ∧ (∀ k, (off + #data ≤ Z.of_nat k)%Z → drop k b' = drop k b).
Proof.
  intros Ho Hb. unfold wrn. rewrite !(proj2 (Z.leb_le _ _)) by lia. eexists. split; [done|].
  assert (length (take (Z.to_nat off) b) = Z.to_nat off) as Ht by (rewrite length_take; lia). split_and!.
  - rewrite !length_app, Ht, length_drop. lia.
  - intros H1 H2. rewrite !bytes_app. auto with beam.
  - intros k Hk. rewrite take_app_le by lia. rewrite take_take. f_equal. lia.
  - intros k Hk. rewrite drop_app_ge by lia. rewrite drop_app_ge by lia. rewrite Ht, drop_drop. f_equal. lia.
Qed.

Lemma of_le_range l : bytes l → 0 ≤ of_le l < 256 ^ #l.
Proof.
  induction l as [|x l IH]; [cbn; lia|]. intros [Hx Hl]%bytes_cons. specialize (IH Hl). cbn [of_le length].
  rewrite pow256_S. lia.
Qed.

Section Safety.
Context {X : Type} `{!CodeMem X, !CodeMemOk X}.
Implicit Types p : Processor X.
Implicit Types s : Stack_t.

(** ** The invariant *)

Record sinv s : Prop := {
  si_min : 0 ≤ m_PosMin s ≤ m_Pos s;
  si_pos : 4 * m_Pos s ≤ m_BytesCurrent s;
  si_cur : m_BytesCurrent s ≤ m_BytesMax s;
  si_max : m_BytesMax s ≤ #(m_pPtr s);
  si_size : #(m_pPtr s) ≤ 2 ^ 30;
  si_bytes : bytes (m_pPtr s);
}.

Record cinv p : Prop := {
  ci_bytes : bytes (m_Code p);
  ci_size : #(m_Code p) < 2 ^ 32;
  ci_ip : 0 ≤ m_Ip p ≤ #(m_Code p);
  ci_data : 0 ≤ (m_Data p).1 ∧ 0 ≤ (m_Data p).2 ∧ (m_Data p).1 + (m_Data p).2 ≤ #(m_Code p);
  ci_table : 0 ≤ m_prTable0 p ≤ #(m_Code p);
  ci_mem : bytes (m_LinearMem p);
  ci_memsize : #(m_LinearMem p) < 2 ^ 32;
}.

Definition pinv p : Prop := sinv (m_Stack p) ∧ cinv p.

(** ** What is kept *)

Record sframe s s' : Prop := {
  sf_min : m_PosMin s' = m_PosMin s;
  sf_max : m_BytesMax s' = m_BytesMax s;
  sf_len : length (m_pPtr s') = length (m_pPtr s);
  sf_low : take (Z.to_nat (4 * m_PosMin s)) (m_pPtr s') = take (Z.to_nat (4 * m_PosMin s)) (m_pPtr s);
  sf_high : drop (Z.to_nat (m_BytesMax s)) (m_pPtr s') = drop (Z.to_nat (m_BytesMax s)) (m_pPtr s);
}.

Record frame p p' : Prop := {
  fr_stack : sframe (m_Stack p) (m_Stack p');
  fr_data : m_Data p' = m_Data p ∧ m_prTable0 p' = m_prTable0 p ∧ m_prData0 p' = m_prData0 p;
  fr_mem : length (m_LinearMem p') = length (m_LinearMem p);
  fr_mode : m_Mode p' = m_Mode p;
  fr_ext : ∃ c, p_ext p' = set_Code c (p_ext p) ∧ length c = length (m_Code p);
}.

#[global] Instance sframe_preorder : PreOrder sframe.
Proof.
  split; [intros s; by split|]. intros s1 s2 s3 [] []. split; try congruence.
Qed.

Lemma frame_code p p' : frame p p' → length (m_Code p') = length (m_Code p).
Proof. intros [? _ _ _ (c & E & L)]. unfold m_Code in *. rewrite E, get_set_Code; done. Qed.

#[global] Instance frame_preorder : PreOrder frame.
Proof.
  split.
  - intros p. split; [done..|]. exists (m_Code p). split; [|done]. unfold m_Code. by rewrite set_get_Code.
  - intros p1 p2 p3 H1 H2. pose proof (frame_code _ _ H1) as Hl. destruct H1 as [S1 D1 M1 O1 (c1 & E1 & L1)], H2 as [S2 D2 M2 O2 (c2 & E2 & L2)].
    split; [by etrans|naive_solver congruence|congruence|congruence|]. exists c2. split; [|congruence]. by rewrite E2, E1, set_set_Code.
Qed.

Lemma set_stack_frame p s : sframe (m_Stack p) s → frame p (set_stack s p).
Proof. intros H. split; [done..|]. exists (m_Code p). split; [|done]. cbn. unfold m_Code. by rewrite set_get_Code. Qed.

Lemma set_stack_pinv p s : pinv p → sinv s → pinv (set_stack s p).
Proof. intros [_ [C1 C2 C3 C4 C5 C6 C7]] Hs. split; [done|]. by split. Qed.

Lemma set_ip_step p ip : pinv p → 0 ≤ ip ≤ #(m_Code p) → pinv (set_ip ip p) ∧ frame p (set_ip ip p).
Proof.
  intros [S [C1 C2 C3 C4 C5 C6 C7]] Hip. split; [by split; [|split]|].
  split; [done..|]. exists (m_Code p). split; [|done]. cbn. unfold m_Code. by rewrite set_get_Code.
Qed.

Lemma set_code_step p c : pinv p → bytes c → length c = length (m_Code p) → pinv (set_code c p) ∧ frame p (set_code c p).
Proof.
  intros [S [C1 C2 C3 C4 C5 C6 C7]] Hc Hl. assert (m_Code (set_code c p) = c) as E.
  { unfold m_Code, set_code, set_ext. cbn. by apply get_set_Code. }
  split.
  - split; [done|]. split; rewrite ?E, ?Hl; cbn; done.
  - split; [done..|]. by exists c.
Qed.

Lemma set_mem_step p m : pinv p → bytes m → length m = length (m_LinearMem p) → pinv (set_mem m p) ∧ frame p (set_mem m p).
Proof.
  intros [S [C1 C2 C3 C4 C5 C6 C7]] Hc Hl. split.
  - split; [done|]. split; try done. cbn. by rewrite Hl.
  - split; [done|done|done|done|]. exists (m_Code p). split; [|done]. cbn. unfold m_Code. by rewrite set_get_Code.
Qed.

Lemma set_triggered_step p t : pinv p → pinv (set_triggered t p) ∧ frame p (set_triggered t p).
Proof.
  intros [S [C1 C2 C3 C4 C5 C6 C7]]. split; [by split; [|split]|].
  split; [done..|]. exists (m_Code p). split; [|done]. cbn. unfold m_Code. by rewrite set_get_Code.
Qed.

(** ** Weakest preconditions

    [wp U m p Q]: from [p] the method throws, or ends as [Q] says; it is undefined only if [U]. *)

Definition wp {A} (U : Prop) (m : PM X A) p (Q : A → Processor X → Prop) : Prop :=
  match m p with Ok (a, p') => Q a p' | Exc => True | UB => U end.

Lemma wp_ret {A} U (a : A) p Q : Q a p → wp U (mret a) p Q.
Proof. done. Qed.

Lemma wp_bind {A B} U (m : PM X A) (f : A → PM X B) p Q : wp U m p (λ a p', wp U (f a) p' Q) → wp U (m ≫= f) p Q.
Proof. unfold wp, mbind, PM_bind. by destruct (m p) as [[a p']| |]. Qed.

Lemma wp_mono {A} U (m : PM X A) p (Q Q' : A → Processor X → Prop) : wp U m p Q → (∀ a p', Q a p' → Q' a p') → wp U m p Q'.
Proof. unfold wp. destruct (m p) as [[a p']| |]; auto. Qed.

Lemma wp_eqn {A} U (m : PM X A) p (Q : A → Processor X → Prop) :
  wp U m p (λ a p', m p = Ok (a, p') → Q a p') → wp U m p Q.
Proof. unfold wp. destruct (m p) as [[a p']| |]; auto. Qed.

Lemma wp_test U b p Q : (b = true → Q () p) → wp U (test b) p Q.
Proof. unfold wp, test, lift, Test. destruct b; auto. Qed.

Lemma wp_gets {A} U (f : Processor X → A) p Q : Q (f p) p → wp U (gets f) p Q.
Proof. done. Qed.

Lemma wp_upd U f p Q : Q () (f p) → wp U (upd f) p Q.
Proof. done. Qed.

Lemma wp_exc {A} U p (Q : A → Processor X → Prop) : wp U (lift Exc) p Q.
Proof. done. Qed.

Lemma wp_lift {A} U (r : res A) p (Q : A → Processor X → Prop) : (∀ a, r = Ok a → Q a p) → (r = UB → U) → wp U (lift r) p Q.
Proof. unfold wp, lift. destruct r; auto. Qed.

(** The steps that keep the invariant. *)
Definition good p p' : Prop := pinv p' ∧ frame p p'.

Lemma good_trans p1 p2 p3 : good p1 p2 → good p2 p3 → good p1 p3.
Proof. intros [_ F1] [I2 F2]. split; [done|]. by etrans. Qed.

Lemma good_refl p : pinv p → good p p.
Proof. by split. Qed.

Lemma good_pinv p p' : good p p' → pinv p'.
Proof. by intros []. Qed.

(** *** Stack *)

(** A change of the stack that keeps its array outside of what the operands may use. *)
Lemma set_stack_good p s : pinv p → sinv s → sframe (m_Stack p) s → good p (set_stack s p).
Proof. intros Hp Hs Hf. split; [by apply set_stack_pinv|by apply set_stack_frame]. Qed.

Lemma set_Pos_good p n : pinv p → m_PosMin (m_Stack p) ≤ n → 4 * n ≤ m_BytesCurrent (m_Stack p) →
  good p (set_stack (set_Pos n (m_Stack p)) p).
Proof. intros [[] C] H1 H2. apply set_stack_good; [by split|split; cbn; try done; lia|by split]. Qed.

Lemma wp_rd_word U i p Q : pinv p → 0 ≤ i → 4 * i + 4 ≤ #(m_pPtr (m_Stack p)) →
  (∀ x, 0 ≤ x < 2 ^ 32 → Q x p) → wp U (rd_word i) p Q.
Proof.
  intros [[] _] Hi Hl HQ. unfold wp, rd_word. destruct (rdn_Some (m_pPtr (m_Stack p)) (4 * i) 4) as (l & -> & El & Hb); [lia..|].
  apply HQ. pose proof (of_le_range l (Hb ltac:(done))) as Hr. rewrite El in Hr. done.
Qed.

Lemma wp_wr_word U i x p Q : pinv p → m_PosMin (m_Stack p) ≤ i → 4 * i + 4 ≤ m_BytesMax (m_Stack p) →
  (∀ b, good p (set_stack (set_pPtr b (m_Stack p)) p) → Q () (set_stack (set_pPtr b (m_Stack p)) p)) → wp U (wr_word i x) p Q.
Proof.
  intros Hp Hi Hl HQ. unfold wp, wr_word. pose proof Hp as [[] _].
  destruct (wrn_Some (m_pPtr (m_Stack p)) (4 * i) (le 4 x)) as (b & -> & El & Hb & Ht & Hd); [lia|rewrite length_le; lia|].
  apply HQ. apply set_stack_good; [done| |].
  - split; cbn; try done; try lia. apply Hb; [done|apply bytes_le].
  - split; cbn; try done; [apply Ht; lia|apply Hd; rewrite length_le; lia].
Qed.

Lemma wp_Pop1 U p Q : pinv p →
  (m_PosMin (m_Stack p) < m_Pos (m_Stack p) →
   let p' := set_stack (set_Pos (m_Pos (m_Stack p) - 1) (m_Stack p)) p in
   good p p' → ∀ x, 0 ≤ x < 2 ^ 32 → Q x p') → wp U Pop1 p Q.
Proof.
  intros Hp HQ. pose proof Hp as [[] _]. unfold Pop1.
  apply wp_bind, wp_gets, wp_bind, wp_test. intros Ht. apply wp_bind, wp_upd.
  assert (good p (set_stack (set_Pos (m_Pos (m_Stack p) - 1) (m_Stack p)) p)) as Hg by (apply set_Pos_good; [done|lia..]).
  apply wp_rd_word; [apply Hg|lia|cbn; lia|]. intros x Hx. apply HQ; [lia|done|done].
Qed.

Lemma wp_Push1 U x p Q : pinv p →
  (∀ p', good p p' → m_Pos (m_Stack p') = m_Pos (m_Stack p) + 1 → Q () p') → wp U (Push1 x) p Q.
Proof.
  intros Hp HQ. pose proof Hp as [[] _]. unfold Push1.
  apply wp_bind, wp_gets, wp_bind, wp_test. intros Ht. apply Z.ltb_lt in Ht.
  apply wp_bind. apply wp_wr_word; [done|lia|lia|]. intros b Hg. apply wp_upd.
  apply HQ; [|done]. eapply good_trans; [exact Hg|]. apply set_Pos_good; [apply Hg|cbn; lia|cbn; lia].
Qed.

(** A push writes one word, whatever the code is. *)
Lemma wp_Push1_stack U x p Q : sinv (m_Stack p) →
  (∀ s', sinv s' → sframe (m_Stack p) s' → m_Pos s' = m_Pos (m_Stack p) + 1 → m_BytesCurrent s' = m_BytesCurrent (m_Stack p) →
     take (Z.to_nat (4 * m_Pos (m_Stack p))) (m_pPtr s') = take (Z.to_nat (4 * m_Pos (m_Stack p))) (m_pPtr (m_Stack p)) →
     drop (Z.to_nat (m_BytesCurrent (m_Stack p))) (m_pPtr s') = drop (Z.to_nat (m_BytesCurrent (m_Stack p))) (m_pPtr (m_Stack p)) →
     Q () (set_stack s' p)) → wp U (Push1 x) p Q.
Proof.
  intros [] HQ. unfold Push1. apply wp_bind, wp_gets, wp_bind, wp_test. intros Ht. apply Z.ltb_lt in Ht.
  apply wp_bind. unfold wp at 1, wr_word.
  destruct (wrn_Some (m_pPtr (m_Stack p)) (4 * m_Pos (m_Stack p)) (le 4 x)) as (b & -> & El & Hb & Htk & Hd); [lia|rewrite length_le; lia|].
  rewrite length_le in Hd. apply wp_upd. cbn.
  apply (HQ (mkStack b (m_Pos (m_Stack p) + 1) (m_PosMin (m_Stack p)) (m_BytesMax (m_Stack p)) (m_BytesCurrent (m_Stack p)))); cbn; try done.
  - split; cbn; try done; try lia. apply Hb; [done|apply bytes_le].
  - split; cbn; try done; [apply Htk; lia|apply Hd; lia].
  - apply Htk. lia.
  - apply Hd. lia.
Qed.

Lemma wp_Pop U W p Q : pinv p → 0 ≤ W ≤ 64 →
  (∀ p' x, good p p' → 0 ≤ x < 2 ^ 64 → (W ≤ 32 → 0 ≤ x < 2 ^ 32) →
     p' = set_stack (set_Pos (m_Pos (m_Stack p')) (m_Stack p)) p → Q x p') → wp U (Pop W) p Q.
Proof.
  intros Hp HW HQ. unfold Pop. destruct (Z.leb_spec W 32).
  - apply wp_Pop1; [done|]. intros _ p' Hg x Hx. apply HQ; [done|lia|done|done].
  - unfold Pop2. apply wp_bind, wp_Pop1; [done|]. intros _ p1 Hg1 lo Hlo.
    apply wp_bind, wp_Pop1; [apply Hg1|]. intros _ p2 Hg2 hi Hhi. apply wp_ret.
    apply HQ; [by eapply good_trans| |lia|done].
    rewrite lor_add by lia. nia.
Qed.

Lemma wp_Push U W x p Q : pinv p → (∀ p', good p p' → Q () p') → wp U (Push W x) p Q.
Proof.
  intros Hp HQ. unfold Push. case_match.
  - apply wp_Push1; [done|]. auto.
  - unfold Push2. apply wp_bind, wp_Push1; [done|]. intros p1 Hg1 _. apply wp_Push1; [apply Hg1|].
    intros p2 Hg2 _. apply HQ. by eapply good_trans.
Qed.

(** *** The reader *)

Lemma wp_Consume_code U n p Q : pinv p → 0 ≤ n →
  (∀ l, let p' := set_ip (m_Ip p + n) p in good p p' → m_Ip p + n ≤ #(m_Code p) → #l = n → bytes l → Q l p') → wp U (Consume_code n) p Q.
Proof.
  intros Hp Hn HQ. pose proof Hp as [_ []]. unfold Consume_code. apply wp_bind, wp_gets, wp_bind. cbn [id].
  unfold Consume, Test, rest_of. destruct (Z.leb_spec n #(drop (Z.to_nat (m_Ip p)) (m_Code p))) as [Hl|]; [|done].
  cbn. rewrite length_drop in Hl. apply (HQ _).
  - apply set_ip_step; [done|lia].
  - lia.
  - rewrite length_take, length_drop. lia.
  - auto with beam.
Qed.

Lemma wp_Read1_code U p Q : pinv p →
  (∀ b rest, rest_of p = b :: rest → let p' := set_ip (m_Ip p + 1) p in good p p' → rest_of p' = rest → Q b p') → wp U Read1_code p Q.
Proof.
  intros Hp HQ. pose proof Hp as [_ []]. unfold Read1_code. apply wp_bind, wp_gets, wp_bind. cbn [id].
  destruct (rest_of p) as [|b rest] eqn:E; [done|]. cbn. unfold rest_of in E.
  assert (length (m_Code p) = Z.to_nat (m_Ip p) + S (length rest))%nat as El.
  { assert (length (drop (Z.to_nat (m_Ip p)) (m_Code p)) = S (length rest)) by (by rewrite E). rewrite length_drop in *. lia. }
  apply (HQ _ rest); [done|apply set_ip_step; [done|lia]|].
  unfold rest_of. cbn. replace (Z.to_nat (m_Ip p + 1)) with (Z.to_nat (m_Ip p) + 1)%nat by lia.
  change (m_Code (set_ip (m_Ip p + 1) p)) with (m_Code p). rewrite <- drop_drop, E. done.
Qed.

Lemma wp_Read_code U W b p Q : pinv p → 0 < W →
  (∀ x p' used rest t, good p p' → 0 ≤ x < 2 ^ W → m_Stack p' = m_Stack p →
     ReadInternal W b (m_Mode p) (rest_of p) = Ok (x, used, rest, t) → Q x p') → wp U (Read_code W b) p Q.
Proof.
  intros Hp HW HQ. unfold Read_code. apply wp_bind, wp_gets, wp_bind. cbn [id].
  apply wp_lift; [|intros E; by apply ReadInternal_no_UB in E].
  intros [[[x used] rest] t] E. apply wp_bind, wp_upd, wp_bind, wp_upd, wp_bind, wp_upd, wp_ret.
  pose proof E as Er. pose proof E as Eu. unfold ReadInternal in Er, Eu.
  apply ReadInternal_loop_range in Er; [|done|split; [lia|apply Z.pow_pos_nonneg; lia]].
  apply ReadInternal_loop_used in Eu as (l & -> & Hlen & _ & Hrest & _ & Hb). cbn [app] in *.
  pose proof Hp as [_ []]. unfold rest_of in *. rewrite length_drop in Hlen.
  set (c := take _ _ ++ l ++ rest). assert (length c = length (m_Code p)) as Hc.
  { unfold c. rewrite !length_app, length_take. lia. }
  assert (bytes c) as Hbc.
  { unfold c. rewrite Hrest, !bytes_app. auto with beam. }
  destruct (set_code_step p c Hp Hbc Hc) as [I1 F1].
  destruct (set_triggered_step _ t I1) as [I2 F2].
  assert (length (m_Code (set_triggered t (set_code c p))) = length (m_Code p)) as Hc2.
  { rewrite (frame_code _ _ F2). by rewrite (frame_code _ _ F1). }
  destruct (set_ip_step _ (m_Ip p + #l) I2) as [I3 F3]; [lia|].
  eapply HQ; [|done|done|done]. split; [done|]. etrans; [exact F1|]. by etrans.
Qed.

Lemma wp_Jmp U ip p Q : pinv p → 0 ≤ ip → (∀ p', good p p' → m_Stack p' = m_Stack p → Q () p') → wp U (Jmp ip) p Q.
Proof.
  intros Hp Hip HQ. unfold Jmp. apply wp_bind, wp_gets, wp_bind, wp_test. intros Ht. apply wp_upd.
  apply HQ; [|done]. apply set_ip_step; [done|lia].
Qed.

Lemma wp_ReadAddr U p Q : pinv p → (∀ x p', good p p' → 0 ≤ x < 2 ^ 32 → m_Stack p' = m_Stack p → Q x p') → wp U ReadAddr p Q.
Proof.
  intros Hp HQ. unfold ReadAddr. apply wp_bind, wp_Consume_code; [done|lia|]. intros l p' Hg _ Hl Hb. apply wp_ret.
  apply HQ; [done| |done]. pose proof (of_le_range l Hb) as H. rewrite Hl in H. done.
Qed.

(** *** Copies of words *)

Lemma wp_copy_words U n dst src p Q : pinv p → m_PosMin (m_Stack p) ≤ dst → 4 * (dst + Z.of_nat n) ≤ m_BytesMax (m_Stack p) →
  0 ≤ src → 4 * (src + Z.of_nat n) ≤ #(m_pPtr (m_Stack p)) →
  (∀ b, let p' := set_stack (set_pPtr b (m_Stack p)) p in good p p' → Q () p') → wp U (copy_words n dst src) p Q.
Proof.
  revert dst src p. induction n as [|n IH]; intros dst src p Hp Hd Hd' Hs Hs' HQ; cbn [copy_words].
  - apply wp_ret. pose proof (HQ (m_pPtr (m_Stack p))) as H. destruct p as [? ? ? ? ? ? ? ? []]. apply H. by apply good_refl.
  - apply wp_bind, wp_rd_word; [done|lia|lia|]. intros x _. apply wp_bind, wp_wr_word; [done|lia|lia|].
    intros b Hg. pose proof Hg as [I1 F1]. pose proof (fr_stack _ _ F1) as [].
    apply IH; cbn; [done|lia|lia|lia|cbn in *; lia|]. intros b' Hg'. apply HQ. by eapply good_trans.
Qed.

(** *** Memory *)

(** Where [n] bytes may be read and written: above the operands, if on the stack. *)
Definition addr_ok p (a : Region * Z) (n : Z) : Prop :=
  match a with
  | (InData, off) => (m_Data p).1 ≤ off ∧ off + n ≤ (m_Data p).1 + (m_Data p).2
  | (InGlobal, off) => 0 ≤ off ∧ off + n ≤ #(m_LinearMem p)
  | (InStack, off) => 4 * m_Pos (m_Stack p) ≤ off ∧ off + n ≤ m_BytesMax (m_Stack p)
  end.

Lemma wp_get_AddrExVar U nOffset p Q : pinv p →
  (∀ a n, 0 ≤ n → addr_ok p a n → Q (a, n) p) → wp U (get_AddrExVar nOffset) p Q.
Proof.
  intros [[] []] HQ. unfold get_AddrExVar. apply wp_bind, wp_gets. cbn [id].
  assert (0 ≤ Z.land nOffset MemoryType_Offs) by (apply Z.land_nonneg; right; done).
  case_match; [|case_match; [|case_match; [|by apply wp_exc]]].
  - apply wp_bind, wp_test. intros Ht. apply wp_ret, HQ; cbn; lia.
  - destruct (m_Data p) as [d0 n] eqn:Ed. cbn [fst snd] in *. apply wp_bind, wp_test. intros Ht.
    match type of Ht with (u32 ?x <=? _) = _ => pose proof (u32_range x) end.
    apply wp_ret, HQ; cbn; [lia|]. rewrite Ed. cbn. lia.
  - assert (∀ Q', (4 * m_Pos (m_Stack p) ≤ Z.land nOffset MemoryType_Offs → Q' () p) →
      wp U (if Z.land nOffset MemoryType_Offs <? m_BytesCurrent (m_Stack p)
            then test (m_Pos (m_Stack p) <=? Z.land nOffset MemoryType_Offs / 4) else mret ()) p Q') as Hif.
    { intros Q' HQ'. destruct (Z.ltb_spec (Z.land nOffset MemoryType_Offs) (m_BytesCurrent (m_Stack p))).
      - apply wp_test. intros Ht. apply HQ'. lia.
      - apply wp_ret, HQ'. lia. }
    apply wp_bind, Hif. intros Hlow. apply wp_bind, wp_test. intros Ht. apply wp_ret, HQ; cbn; lia.
Qed.

(** A pointer to [n] bytes. *)
Definition ptr_ok p (a : option (Region * Z)) (n : Z) : Prop := match a with Some a => addr_ok p a n | None => n = 0 end.

Lemma wp_get_AddrEx U nOffset nSize p Q : pinv p → (∀ a, ptr_ok p a nSize → Q a p) → wp U (get_AddrEx nOffset nSize) p Q.
Proof.
  intros Hp HQ. unfold get_AddrEx. destruct (Z.eqb_spec nSize 0); [by apply wp_ret, HQ|].
  apply wp_bind, wp_get_AddrExVar; [done|]. intros a n' Hn Ha.
  apply wp_bind, wp_test. intros Ht. apply wp_ret, HQ. destruct a as [[] off]; cbn in *; lia.
Qed.

Lemma addr_buffer p a n : pinv p → addr_ok p a n → 0 ≤ a.2 ∧ a.2 + n ≤ #(buffer a.1 p) ∧ bytes (buffer a.1 p).
Proof. intros [[] []] Ha. destruct a as [[] off]; cbn in *; split_and!; try done; lia. Qed.

Lemma wp_rd_mem U a n p Q : pinv p → 0 ≤ n → ptr_ok p a n → (∀ l, #l = n → bytes l → Q l p) → wp U (rd_mem a n) p Q.
Proof.
  intros Hp Hn Ha HQ. destruct a as [[r off]|]; cbn [ptr_ok] in Ha; unfold rd_mem.
  - destruct (addr_buffer p _ n Hp Ha) as (H0 & H1 & Hb). cbn in H0, H1, Hb.
    apply wp_bind, wp_gets. destruct (rdn_Some (buffer r p) off n) as (l & -> & El & Hl); [done..|]. cbn. auto.
  - subst n. apply wp_ret, HQ; [done|apply bytes_nil].
Qed.

(** A write in memory changes no operand. *)
Lemma wp_wr_mem U a data p Q : pinv p → ptr_ok p a #data → bytes data →
  (∀ p', good p p' → m_Pos (m_Stack p') = m_Pos (m_Stack p) →
     take (Z.to_nat (4 * m_Pos (m_Stack p))) (m_pPtr (m_Stack p')) = take (Z.to_nat (4 * m_Pos (m_Stack p))) (m_pPtr (m_Stack p)) →
     Q () p') → wp U (wr_mem a data) p Q.
Proof.
  intros Hp Ha Hbd HQ. destruct a as [[r off]|]; cbn [ptr_ok] in Ha; unfold wr_mem; cycle 1.
  { rewrite Ha. apply wp_ret, HQ; [by apply good_refl|done..]. }
  destruct (addr_buffer p _ _ Hp Ha) as (H0 & H1 & Hb). cbn in H0, H1, Hb.
  apply wp_bind, wp_gets. destruct (wrn_Some (buffer r p) off data) as (b & -> & El & Hb' & Ht & Hd); [done..|]. cbn.
  specialize (Hb' Hb Hbd). pose proof Hp as [[] _]. destruct r; cbn [buffer set_buffer] in *; apply HQ; try done.
  - by apply set_code_step.
  - by apply set_mem_step.
  - cbn in Ha. apply set_stack_good; [done| |]; split; cbn; try done; try lia; [apply Ht; lia|apply Hd; lia].
  - cbn in *. apply Ht. lia.
Qed.

(** The value of a number is never undefined, but for a division. *)
Lemma Eval_bin_UB o W a b : Eval_bin o W a b = UB → (o = B_div_s ∨ o = B_rem_s) ∧ div_overflows W a b = true.
Proof. destruct o; cbn; unfold Test; repeat case_match; try done; auto. Qed.

(** *** Instructions *)

Lemma wp_OnLocal U bSet bGet p Q : pinv p → (∀ p', good p p' → Q () p') → wp U (OnLocal bSet bGet) p Q.
Proof.
  intros Hp HQ. unfold OnLocal. apply wp_bind, wp_Read_code; [done|lia|]. intros nOff p1 used rest t Hg1 Hx Es _.
  apply wp_bind, wp_lift; [|unfold Words; by repeat case_match]. intros nWords HW.
  assert (nWords = 1 ∨ nWords = 2) as HW' by (revert HW; unfold Words; repeat case_match; intros [= <-]; auto).
  apply wp_bind, wp_gets, wp_bind, wp_test. intros [Ht1 Ht2]%andb_true_iff. apply Z.leb_le in Ht1, Ht2.
  pose proof (good_pinv _ _ Hg1) as I1. pose proof I1 as [[] _]. rewrite u32_small in Ht2 by lia.
  destruct bSet; cbn [negb].
  - assert (∀ Q', (∀ n, m_PosMin (m_Stack p1) ≤ n ≤ m_Pos (m_Stack p1) → Q' () (set_stack (set_Pos n (m_Stack p1)) p1)) →
      wp U (if negb bGet then on_stack (set_Pos (m_Pos (m_Stack p1) - nWords)) else mret ()) p1 Q') as Hif.
    { intros Q' HQ'. destruct bGet; cbn [negb].
      - apply wp_ret. pose proof (HQ' (m_Pos (m_Stack p1)) ltac:(lia)) as H. by destruct p1 as [? ? ? ? ? ? ? ? []].
      - apply wp_upd, HQ'. lia. }
    apply wp_bind, Hif. intros n Hn. assert (good p1 (set_stack (set_Pos n (m_Stack p1)) p1)) as Hg2 by (apply set_Pos_good; [done|lia..]).
    apply wp_copy_words; cbn; [apply Hg2|lia..|]. intros b Hg3. apply HQ. eapply good_trans; [exact Hg1|]. by eapply good_trans.
  - apply wp_bind, wp_upd, wp_bind, wp_test. intros Ht. apply Z.leb_le in Ht. rewrite u32_small in * by lia.
    assert (good p1 (set_stack (set_Pos (m_Pos (m_Stack p1) + nWords) (m_Stack p1)) p1)) as Hg2 by (apply set_Pos_good; [done|lia..]).
    apply wp_copy_words; cbn; [apply Hg2|lia..|]. intros b Hg3. apply HQ. eapply good_trans; [exact Hg1|]. by eapply good_trans.
Qed.

Lemma wp_set_AlasSp U x p Q : pinv p → (∀ p', good p p' → Q () p') → wp U (set_AlasSp x) p Q.
Proof.
  intros Hp HQ. pose proof Hp as [[] _]. unfold set_AlasSp. apply wp_bind, wp_test. intros _. apply wp_bind, wp_upd. unfold TestSelf.
  apply wp_bind, wp_gets, wp_bind, wp_test. intros Ht1. apply wp_test. intros Ht2. apply Z.leb_le in Ht1, Ht2. cbn in Ht1, Ht2.
  apply HQ. apply set_stack_good; [done|split; cbn; try done; lia|by split].
Qed.

Lemma wp_OnGlobalVar U iVar bGet p Q : pinv p → (∀ p', good p p' → Q () p') → wp U (OnGlobalVar iVar bGet) p Q.
Proof.
  intros Hp HQ. unfold OnGlobalVar. case_match; [|by apply wp_exc]. destruct bGet.
  - apply wp_bind. unfold get_AlasSp. apply wp_bind, wp_gets, wp_ret, wp_Push; [done|]. auto.
  - apply wp_bind, wp_Pop; [done|lia|]. intros p1 v Hg1 _ _ _. apply wp_bind, wp_test. intros _.
    apply wp_set_AlasSp; [apply Hg1|]. intros p2 Hg2. apply HQ. by eapply good_trans.
Qed.

Lemma wp_MemArgEx U n p Q : pinv p → (∀ a p', good p p' → ptr_ok p' a n → Q a p') → wp U (MemArgEx n) p Q.
Proof.
  intros Hp HQ. unfold MemArgEx. apply wp_bind, wp_Read_code; [done|lia|]. intros ? p1 ? ? ? Hg1 _ _ _.
  apply wp_bind, wp_test. intros _. apply wp_bind, wp_Read_code; [apply Hg1|lia|]. intros ? p2 ? ? ? Hg2 _ _ _.
  apply wp_bind, wp_Pop; [apply Hg2|lia|]. intros p3 v Hg3 _ _ _. apply wp_get_AddrEx; [apply Hg3|]. intros a Ha.
  apply HQ; [|done]. eapply good_trans; [exact Hg1|]. by eapply good_trans.
Qed.

Lemma wp_Words U t p Q : (∀ n, n = 1 ∨ n = 2 → Q n p) → wp U (lift (Words t)) p Q.
Proof.
  intros HQ. apply wp_lift; [|unfold Words; by repeat case_match].
  intros n. unfold Words. repeat case_match; intros [= <-]; auto.
Qed.

Lemma wp_On_drop U p Q : pinv p → (∀ p', good p p' → Q () p') → wp U On_drop p Q.
Proof.
  intros Hp HQ. unfold On_drop. apply wp_bind, wp_Read1_code; [done|]. intros t rest _ p1 Hg1 _.
  apply wp_bind, wp_Words. intros nWords HW. apply wp_bind, wp_gets, wp_bind, wp_test. intros Ht. apply Z.leb_le in Ht.
  pose proof (good_pinv _ _ Hg1) as I1. pose proof I1 as [[] _]. rewrite u32_small in Ht by lia.
  apply wp_upd, HQ. eapply good_trans; [exact Hg1|]. apply set_Pos_good; [done|lia..].
Qed.

Lemma wp_On_select U p Q : pinv p → (∀ p', good p p' → Q () p') → wp U On_select p Q.
Proof.
  intros Hp HQ. unfold On_select. apply wp_bind, wp_Read1_code; [done|]. intros t rest _ p1 Hg1 _.
  apply wp_bind, wp_Words. intros nWords HW. apply wp_bind, wp_Pop; [apply Hg1|lia|]. intros p2 nSel Hg2 _ _ _.
  apply wp_bind, wp_gets, wp_bind, wp_test. intros Ht. apply Z.leb_le in Ht.
  pose proof (good_pinv _ _ Hg2) as I2. pose proof I2 as [[] _]. rewrite u32_small in Ht by lia.
  apply wp_bind, wp_upd.
  assert (good p2 (set_stack (set_Pos (m_Pos (m_Stack p2) - nWords) (m_Stack p2)) p2)) as Hg3 by (apply set_Pos_good; [done|lia..]).
  pose proof (good_trans _ _ _ Hg1 (good_trans _ _ _ Hg2 Hg3)) as Hg. case_match.
  - apply wp_copy_words; cbn; [apply Hg3|lia..|]. intros b Hg4. apply HQ. by eapply good_trans.
  - by apply wp_ret, HQ.
Qed.

Lemma wp_On_br_if U p Q : pinv p → (∀ p', good p p' → Q () p') → wp U On_br_if p Q.
Proof.
  intros Hp HQ. unfold On_br_if. apply wp_bind, wp_ReadAddr; [done|]. intros addr p1 Hg1 Ha _.
  apply wp_bind, wp_Pop; [apply Hg1|lia|]. intros p2 c Hg2 _ _ _. case_match.
  - apply wp_Jmp; [apply Hg2|lia|]. intros p3 Hg3 _. apply HQ. eapply good_trans; [exact Hg1|]. by eapply good_trans.
  - apply wp_ret, HQ. by eapply good_trans.
Qed.

(** [br_table] with 2^32 - 1 labels, whose number wraps to 0 with the default one. *)
Definition table_trap p : Prop :=
  ∃ used rest t, ReadInternal 32 false (m_Mode p) (rest_of p) = Ok (2 ^ 32 - 1, used, rest, t).

Lemma wp_On_br_table U p Q : pinv p → (table_trap p → U) → (∀ p', good p p' → Q () p') → wp U On_br_table p Q.
Proof.
  intros Hp HU HQ. unfold On_br_table. apply wp_bind, wp_Read_code; [done|lia|]. intros nLabels p1 used rest t Hg1 Hn _ Er.
  apply wp_bind, wp_Pop; [apply Hg1|lia|]. intros p2 op Hg2 _ Hop _. specialize (Hop ltac:(lia)).
  apply wp_bind, wp_test. intros Ht. apply Z.eqb_eq in Ht.
  apply wp_bind, wp_gets. apply wp_bind, wp_Consume_code; [apply Hg2|apply u32_range|]. intros l p3 Hg3 Hl3 _ _.
  apply wp_bind, wp_gets. pose proof (good_pinv _ _ Hg2) as [_ []].
  assert (∀ a p', (rdn (m_Code p2) (m_Ip p2 + 4 * Z.min op nLabels) 4 = Some a → bytes a → #a = 4 → good p3 p' → Q () p')) as HQ'.
  { intros a p' _ _ _ Hg4. apply HQ. do 2 (eapply good_trans; [eassumption|]). by eapply good_trans. }
  destruct (rdn (m_Code p3) (m_Ip p2 + 4 * Z.min op nLabels) 4) as [a|] eqn:Ea; change (m_Code p3) with (m_Code p2) in Ea.
  - pose proof (rdn_inv _ _ _ _ Ea) as (A1 & A2 & A3).
    destruct (rdn_Some (m_Code p2) (m_Ip p2 + 4 * Z.min op nLabels) 4) as (a' & Ea' & La & Ba); [lia..|].
    rewrite Ea in Ea'. injection Ea' as <-. apply wp_bind. cbn.
    pose proof (of_le_range a (Ba ltac:(done))) as Hr. apply wp_Jmp; [apply Hg3|lia|]. intros p4 Hg4 _. eapply HQ'; eauto.
  - apply wp_bind. cbn. apply HU. exists used, rest, t. rewrite Er. do 4 f_equal.
    destruct (decide (nLabels = 2 ^ 32 - 1)) as [->|Hne]; [done|exfalso].
    rewrite (u32_small (nLabels + 1)) in Ht, Hl3 by lia. unfold u32 in Ht, Hl3.
    destruct (rdn_Some (m_Code p2) (m_Ip p2 + 4 * Z.min op nLabels) 4) as (a' & Ea' & _); [lia..| |by rewrite Ea in Ea'].
    lia.
Qed.

Lemma wp_ReadTable U iItem p Q : pinv p → (∀ x, 0 ≤ x < 2 ^ 32 → Q x p) → wp U (ReadTable iItem) p Q.
Proof.
  intros Hp HQ. pose proof Hp as [_ []]. unfold ReadTable. apply wp_bind, wp_gets, wp_bind, wp_test. intros Ht. apply Z.ltb_lt in Ht.
  cbn [id] in *. rewrite (u32_small (#(m_Code p) - m_prTable0 p)) in Ht by lia. pose proof (u32_range (iItem - 1)).
  destruct (rdn_Some (m_Code p) (m_prTable0 p + 4 * u32 (iItem - 1)) 4) as (a & -> & La & Ba); [lia..|].
  apply wp_bind. cbn. apply HQ. pose proof (of_le_range a (Ba ltac:(done))) as Hr. by rewrite La in Hr.
Qed.

Lemma wp_push_zeros U n p Q : pinv p → (∀ p', good p p' → Q () p') → wp U (push_zeros n) p Q.
Proof.
  revert p. induction n as [|n IH]; intros p Hp HQ; cbn [push_zeros].
  - by apply wp_ret, HQ, good_refl.
  - apply wp_bind, wp_Push1; [done|]. intros p1 Hg1 _. apply IH; [apply Hg1|]. intros p2 Hg2. apply HQ. by eapply good_trans.
Qed.

Context `{!Virtuals X}.

Lemma wp_On_ret U p Q : pinv p →
  (∀ n p', good p p' → 0 ≤ n < 2 ^ 32 → wp U (OnRet n) p' Q) → wp U On_ret p Q.
Proof.
  intros Hp HQ. unfold On_ret. apply wp_bind, wp_Read_code; [done|lia|]. intros nRets p1 ? ? ? Hg1 H1 _ _.
  apply wp_bind, wp_Read_code; [apply Hg1|lia|]. intros nLocals p2 ? ? ? Hg2 H2 _ _.
  apply wp_bind, wp_Read_code; [apply Hg2|lia|]. intros nArgs p3 ? ? ? Hg3 H3 _ _.
  pose proof (good_trans _ _ _ Hg1 (good_trans _ _ _ Hg2 Hg3)) as Hg. pose proof (good_pinv _ _ Hg) as I3. pose proof I3 as [[] _].
  apply wp_bind, wp_gets. set (src := u32 (m_Pos (m_Stack p3) - nRets)).
  apply wp_bind, wp_test. intros T1. apply Z.leb_le in T1.
  assert (src = m_Pos (m_Stack p3) - nRets) as Es by (unfold src, u32 in *; lia).
  set (addr := u32 (src - u32 (nLocals + 1))). apply wp_bind, wp_test. intros T2. apply Z.ltb_lt in T2.
  assert (0 ≤ addr) by apply u32_range.
  set (dst := u32 (addr - nArgs)). apply wp_bind, wp_test. intros T3. apply Z.leb_le in T3. apply wp_bind, wp_test. intros T4. apply Z.leb_le in T4.
  apply wp_bind, wp_rd_word; [done|lia|lia|]. intros nRet Hr.
  apply wp_bind, wp_copy_words; [done|lia..|]. intros b p4 Hg4.
  apply wp_bind, wp_upd. apply HQ; [|done]. eapply good_trans; [exact Hg|]. eapply good_trans; [exact Hg4|].
  rewrite u32_small by lia. apply set_Pos_good; [apply Hg4|cbn; lia..].
Qed.

(** ** One instruction *)

Definition div_trap p : Prop :=
  ∃ W o a b p1 p2, (∃ c, head (rest_of p) = Some c ∧ Instruction_of c = Some (I_bin W o)) ∧ (o = B_div_s ∨ o = B_rem_s) ∧
    Pop W (set_ip (m_Ip p + 1) p) = Ok (b, p1) ∧ Pop W p1 = Ok (a, p2) ∧ div_overflows W a b = true.

Definition traps p : Prop := div_trap p ∨ (head (rest_of p) = Some 0x0e ∧ table_trap (set_ip (m_Ip p + 1) p)).

(** The next instruction calls the function [n] of the host. *)
Definition ext_call p (n : Z) : Prop :=
  ∃ c, head (rest_of p) = Some c ∧ Instruction_of c = Some I_call_ext ∧
    ∃ used rest t, ReadInternal 32 false (m_Mode p) (rest_of (set_ip (m_Ip p + 1) p)) = Ok (n, used, rest, t).

Lemma Instruction_of_width b i : Instruction_of b = Some i →
  match i with
  | I_eqz W | I_rel W _ | I_bin W _ => W = 32 ∨ W = 64
  | I_load W n _ | I_store W n => (W = 32 ∨ W = 64) ∧ 1 ≤ n ≤ 8
  | I_br_table => b = 0x0e
  | _ => True
  end.
Proof.
  intros E. unfold Instruction_of in E.
  repeat match type of E with (match ?x with _ => _ end) = _ => destruct x; try discriminate E end;
  injection E as <-; auto; lia.
Qed.

(** An instruction takes the processor to a good state, from which the methods of the derived
    class go on. *)
Lemma wp_RunOnce U p Q : pinv p → (traps p → U) →
  (∀ p', good p p' → Q () p') →
  (∀ n p', good p p' → 0 ≤ n < 2 ^ 32 → wp U (OnCall n) p' Q) →
  (∀ n p', good p p' → 0 ≤ n < 2 ^ 32 → wp U (OnRet n) p' Q) →
  (∀ n p', good p p' → 0 ≤ n < 2 ^ 32 → m_Stack p' = m_Stack p → ext_call p n → wp U (InvokeExt n) p' Q) →
  wp U RunOnce p Q.
Proof.
  intros Hp HU HQ HC HR HE. unfold RunOnce. apply wp_bind, wp_Read1_code; [done|]. intros c rest Ec p1 Hg1 _.
  assert (head (rest_of p) = Some c) as Hc by (by rewrite Ec).
  pose proof (good_pinv _ _ Hg1) as I1.
  assert (∀ p', good p1 p' → Q () p') as HQ1 by (intros; apply HQ; by eapply good_trans).
  destruct (Instruction_of c) as [i|] eqn:Ei; [|done]. pose proof (Instruction_of_width _ _ Ei) as Hw.
  assert (∀ W, W = 32 ∨ W = 64 → 0 ≤ W ≤ 64) as HW by (intros ? [->| ->]; lia).
  destruct i; cbn [On_instruction].
  - by apply wp_On_drop.
  - by apply wp_On_select.
  - by apply wp_OnLocal.
  - by apply wp_OnLocal.
  - by apply wp_OnLocal.
  - done.
  - done.
  - apply wp_bind, wp_Pop; [done|lia|]. intros p2 x Hg2 _ _ _. apply wp_Push; [apply Hg2|]. intros. apply HQ1. by eapply good_trans.
  - apply wp_bind, wp_Pop; [done|lia|]. intros p2 x Hg2 _ _ _. apply wp_Push; [apply Hg2|]. intros. apply HQ1. by eapply good_trans.
  - apply wp_bind, wp_Pop; [done|lia|]. intros p2 x Hg2 _ _ _. apply wp_Push; [apply Hg2|]. intros. apply HQ1. by eapply good_trans.
  - unfold On_call. apply wp_bind, wp_ReadAddr; [done|]. intros x p2 Hg2 Hx _. apply wp_bind, wp_gets, wp_bind, wp_Push; [apply Hg2|].
    intros p3 Hg3. apply HC; [|done]. do 2 (eapply good_trans; [eassumption|]). done.
  - unfold On_call_indirect. apply wp_bind, wp_Pop; [done|lia|]. intros p2 x Hg2 _ _ _. apply wp_bind, wp_ReadTable; [apply Hg2|].
    intros a Ha. apply wp_bind, wp_gets, wp_bind, wp_Push; [apply Hg2|].
    intros p3 Hg3. apply HC; [|done]. do 2 (eapply good_trans; [eassumption|]). done.
  - apply wp_bind, wp_ReadAddr; [done|]. intros x p2 Hg2 Hx _. apply wp_Jmp; [apply Hg2|lia|]. intros. apply HQ1. by eapply good_trans.
  - by apply wp_On_br_if.
  - apply wp_On_br_table; [done| |done]. intros Ht. apply HU. right. by rewrite Hw in Hc.
  - apply wp_On_ret; [done|]. intros n p2 Hg2 Hn. apply HR; [|done]. by eapply good_trans.
  - apply wp_bind, wp_Read_code; [done|lia|]. intros x p2 ? ? ? Hg2 _ _ _. apply wp_Push; [apply Hg2|]. intros. apply HQ1. by eapply good_trans.
  - apply wp_bind, wp_Read_code; [done|lia|]. intros x p2 ? ? ? Hg2 _ _ _. apply wp_Push; [apply Hg2|]. intros. apply HQ1. by eapply good_trans.
  - unfold On_prolog. apply wp_bind, wp_Read_code; [done|lia|]. intros x p2 ? ? ? Hg2 _ _ _. apply wp_push_zeros; [apply Hg2|].
    intros. apply HQ1. by eapply good_trans.
  - unfold On_call_ext. apply wp_bind, wp_Read_code; [done|lia|]. intros x p2 used rest' t Hg2 Hx Es Er. apply HE; [by eapply good_trans|done|done|].
    exists c. split_and!; [done|done|]. by exists used, rest', t.
  - unfold OnGlobalImp. apply wp_bind, wp_Read_code; [done|lia|]. intros x p2 ? ? ? Hg2 _ _ _. apply wp_OnGlobalVar; [apply Hg2|].
    intros. apply HQ1. by eapply good_trans.
  - unfold OnGlobalImp. apply wp_bind, wp_Read_code; [done|lia|]. intros x p2 ? ? ? Hg2 _ _ _. apply wp_OnGlobalVar; [apply Hg2|].
    intros. apply HQ1. by eapply good_trans.
  - apply wp_bind, wp_Pop; [done|auto|]. intros p2 x Hg2 _ _ _. apply wp_Push; [apply Hg2|]. intros. apply HQ1. by eapply good_trans.
  - apply wp_bind, wp_Pop; [done|auto|]. intros p2 b Hg2 _ _ _. apply wp_bind, wp_Pop; [apply Hg2|auto|]. intros p3 a Hg3 _ _ _.
    apply wp_Push; [apply Hg3|]. intros. apply HQ1. do 2 (eapply good_trans; [eassumption|]). done.
  - apply wp_bind, (wp_eqn U (Pop W)), wp_Pop; [done|auto|]. intros p2 b Hg2 _ _ _ Eb.
    apply wp_bind, (wp_eqn U (Pop W)), wp_Pop; [apply Hg2|auto|]. intros p3 a Hg3 _ _ _ Ea.
    apply wp_bind, wp_lift; cycle 1.
    { intros [Ho Hd]%Eval_bin_UB. apply HU. left. exists W, o, a, b, p2, p3. split_and!; [by exists c|done..]. }
    intros x _. apply wp_Push; [apply Hg3|]. intros. apply HQ1. do 2 (eapply good_trans; [eassumption|]). done.
  - destruct Hw as [Hw Hn]. apply wp_bind, wp_MemArgEx; [done|]. intros a p2 Hg2 Ha.
    apply wp_bind, wp_rd_mem; [apply Hg2|lia|done|]. intros l _ _. apply wp_Push; [apply Hg2|]. intros. apply HQ1. by eapply good_trans.
  - destruct Hw as [Hw Hn]. apply wp_bind, wp_Pop; [done|auto|]. intros p2 x Hg2 _ _ _.
    apply wp_bind, wp_MemArgEx; [apply Hg2|]. intros a p3 Hg3 Ha.
    apply wp_wr_mem; [apply Hg3|rewrite length_le, Z2Nat.id by lia; done|apply bytes_le|]. intros p4 Hg4 _ _.
    apply HQ1. do 2 (eapply good_trans; [eassumption|]). done.
Qed.

End Safety.
