(* ===== verification/BvmHeap.v ===== *)
(** * bvm/bvm2.cpp: the heap of a contract

    [Processor::Heap].  The entries are objects that are allocated and deleted: they are kept
    by their address, and to use one that was deleted is [UB].  The three intrusive multisets
    hold addresses in the order of their keys; an insertion goes behind the equal keys, a
    search returns the first of them. *)

From stdpp Require Import base list numbers option gmap.
From S2P Require Import Prelude WasmReader.
Local Open Scope Z_scope.

Module Heap.

Record Entry := mkEntry { m_Pos : Z; m_Size : Z }.
#[export] Instance Entry_inhabited : Inhabited Entry := populate (mkEntry 0 0).
#[export] Instance Entry_eq_dec : EqDecision Entry.
Proof. solve_decision. Defined.

Record t := mk {
  h_Entries : gmap nat Entry;      (* the objects that live *)
  h_Next : nat;                    (* the address of the next one *)
  m_mapSize : list nat;
  m_mapFree : list nat;
  m_mapAllocated : list nat;
}.

Definition empty : t := mk ∅ 0 [] [] [].

(** ** Multisets *)

Section multiset.
Context (key : nat → Z).

Fixpoint ms_insert (i : nat) (l : list nat) : list nat :=
  match l with
  | [] => [i]
  | j :: l' => if key i <? key j then i :: l else j :: ms_insert i l'
  end.

Fixpoint ms_lower_bound (k : Z) (l : list nat) : option nat :=
  match l with [] => None | j :: l => if k <=? key j then Some j else ms_lower_bound k l end.

Definition ms_find (k : Z) (l : list nat) : option nat :=
  match ms_lower_bound k l with Some j => if key j =? k then Some j else None | None => None end.

(** The one before [upper_bound(k)]. *)
Fixpoint ms_before_upper (k : Z) (l : list nat) : option nat :=
  match l with
  | [] => None
  | j :: l => if k <? key j then None else match ms_before_upper k l with Some i => Some i | None => Some j end
  end.

End multiset.

Fixpoint ms_erase (i : nat) (l : list nat) : list nat :=
  match l with [] => [] | j :: l => if decide (i = j) then l else j :: ms_erase i l end.

(** The one before the iterator to [i]; [None] at the beginning. *)
Fixpoint ms_prev_from (prev : option nat) (i : nat) (l : list nat) : option nat :=
  match l with [] => None | j :: l => if decide (i = j) then prev else ms_prev_from (Some j) i l end.

Definition ms_prev (i : nat) (l : list nat) : option nat := ms_prev_from None i l.

(** ** Entries *)

Definition pos_of (h : t) (i : nat) : Z := m_Pos (h_Entries h !!! i).
Definition size_of (h : t) (i : nat) : Z := m_Size (h_Entries h !!! i).

(** A reference to the object [i]. *)
Definition deref (h : t) (i : nat) : res Entry := access (h_Entries h !! i).

Definition set_Entry (h : t) (i : nat) (e : Entry) : t :=
  mk (<[i := e]> (h_Entries h)) (h_Next h) (m_mapSize h) (m_mapFree h) (m_mapAllocated h).

(** ** Operations *)

Definition Insert (h : t) (i : nat) (bFree : bool) : t :=
  if bFree then
    mk (h_Entries h) (h_Next h) (ms_insert (size_of h) i (m_mapSize h)) (ms_insert (pos_of h) i (m_mapFree h)) (m_mapAllocated h)
  else
    mk (h_Entries h) (h_Next h) (m_mapSize h) (m_mapFree h) (ms_insert (pos_of h) i (m_mapAllocated h)).

Definition Remove (h : t) (i : nat) (bFree : bool) : t :=
  if bFree then
    mk (h_Entries h) (h_Next h) (ms_erase i (m_mapSize h)) (ms_erase i (m_mapFree h)) (m_mapAllocated h)
  else
    mk (h_Entries h) (h_Next h) (m_mapSize h) (m_mapFree h) (ms_erase i (m_mapAllocated h)).

Definition Delete (h : t) (i : nat) (bFree : bool) : t :=
  let h := Remove h i bFree in
  mk (delete i (h_Entries h)) (h_Next h) (m_mapSize h) (m_mapFree h) (m_mapAllocated h).

Definition Create (h : t) (nPos nSize : Z) (bFree : bool) : t :=
  let p := h_Next h in
  Insert (mk (<[p := mkEntry nPos nSize]> (h_Entries h)) (S p) (m_mapSize h) (m_mapFree h) (m_mapAllocated h)) p bFree.

Definition UpdateSizeFree (h : t) (i : nat) (newVal : Z) : res t :=
  e ← deref h i;
  let h := mk (h_Entries h) (h_Next h) (ms_erase i (m_mapSize h)) (m_mapFree h) (m_mapAllocated h) in
  let h := set_Entry h i (mkEntry (m_Pos e) newVal) in
  mret (mk (h_Entries h) (h_Next h) (ms_insert (size_of h) i (m_mapSize h)) (m_mapFree h) (m_mapAllocated h)).

Definition TryMerge (h : t) (i : nat) : res t :=
  e ← deref h i;
  match ms_find (pos_of h) (u32 (m_Pos e + m_Size e)) (m_mapFree h) with
  | Some i2 =>
    e2 ← deref h i2;
    h ← UpdateSizeFree h i (u32 (m_Size e + m_Size e2));
    mret (Delete h i2 true)
  | None => mret h
  end.

(** The position, if there is room. *)
Definition Alloc (h : t) (size : Z) : res (option Z * t) :=
  match ms_lower_bound (size_of h) size (m_mapSize h) with
  | None => mret (None, h)
  | Some i =>
    e ← deref h i;
    let retVal := m_Pos e in
    if m_Size e =? size then mret (Some retVal, Insert (Remove h i true) i false)
    else
      let h := Create h (m_Pos e) size false in
      let h := set_Entry h i (mkEntry (u32 (m_Pos e + size)) (m_Size e)) in
      h ← UpdateSizeFree h i (u32 (m_Size e - size));
      mret (Some retVal, h)
  end.

Definition Free (h : t) (ptr : Z) : res t :=
  match ms_find (pos_of h) ptr (m_mapAllocated h) with
  | None => Exc
  | Some i =>
    let h := Insert (Remove h i false) i true in
    h ← TryMerge h i;
    _ ← deref h i;
    match ms_prev i (m_mapFree h) with
    | Some j => TryMerge h j
    | None => mret h
    end
  end.

Definition Test (h : t) (ptr size : Z) : res () :=
  match ms_before_upper (pos_of h) ptr (m_mapAllocated h) with
  | None => Exc
  | Some i =>
    e ← deref h i;
    let ptr := u32 (ptr + size) in
    WasmReader.Test ((size <=? ptr) && (ptr <=? u32 (m_Pos e + m_Size e)))
  end.

Definition Clear (h : t) : t :=
  foldl (λ h i, Delete h i false) (foldl (λ h i, Delete h i true) h (m_mapFree h)) (m_mapAllocated h).

Definition get_UnusedAtEnd (h : t) (nEnd : Z) : res Z :=
  match last (m_mapFree h) with
  | Some i => e ← deref h i; mret (if u32 (m_Pos e + m_Size e) =? nEnd then m_Size e else 0)
  | None => mret 0
  end.

Definition OnGrow (h : t) (nOld nNew : Z) : res t :=
  match last (m_mapFree h) with
  | Some i =>
    e ← deref h i;
    if u32 (m_Pos e + m_Size e) =? nOld then UpdateSizeFree h i (u32 (nNew - m_Pos e))
    else mret (Create h nOld (u32 (nNew - nOld)) true)
  | None => mret (Create h nOld (u32 (nNew - nOld)) true)
  end.

End Heap.
