(* ===== verification/BvmHeapSpec.v ===== *)
(** * The heap is an allocator

    The entries of [Heap] tile the memory, no two free ones are adjacent, and the multisets
    are the free and the allocated ones in their order.  Under this invariant the heap is a
    map from the allocated addresses to their sizes: [Alloc] finds room whenever there is
    some, [Free] and [Test] know exactly what is allocated. *)

From stdpp Require Import base list numbers option gmap sorting.
From S2P Require Import Prelude WasmReader BvmHeap.
Import Heap.
Local Open Scope Z_scope.

(** ** Multisets *)

Section multiset.
Context (key : nat → Z).
Implicit Types l A B : list nat.

Definition sortedk l : Prop := Sorted (λ i j, key i ≤ key j) l.

#[local] Instance key_trans : Transitive (λ i j : nat, key i ≤ key j).
Proof. intros i j k. lia. Qed.

Lemma ms_insert_split i A B : (∀ j, j ∈ A → key j ≤ key i) → (∀ j, j ∈ B → key i < key j) → ms_insert key i (A ++ B) = A ++ i :: B.
Proof.
  intros HA HB. induction A as [|a A IH]; cbn.
  - destruct B as [|b B]; [done|]. cbn. rewrite (proj2 (Z.ltb_lt _ _)); [done|]. apply HB. left.
  - rewrite (proj2 (Z.ltb_ge _ _)) by (apply HA; left). f_equal. apply IH. intros j Hj. apply HA. by right.
Qed.

Lemma ms_insert_perm i l : ms_insert key i l ≡ₚ i :: l.
Proof. induction l as [|j l IH]; cbn; [done|]. case_match; [done|]. rewrite IH. constructor. Qed.

Lemma ms_insert_sorted i l : sortedk l → sortedk (ms_insert key i l).
Proof.
  unfold sortedk. induction 1 as [|j l Hl IH Hj]; cbn; [by repeat constructor|].
  destruct (Z.ltb_spec (key i) (key j)) as [Hlt|Hge].
  - constructor; [by constructor|]. constructor. lia.
  - constructor; [done|]. destruct l as [|j' l]; cbn in *; [by constructor|]. case_match; constructor; [lia|]. by inversion Hj.
Qed.

Lemma ms_lower_bound_Some k l j : ms_lower_bound key k l = Some j →
  j ∈ l ∧ k ≤ key j ∧ (sortedk l → ∀ j', j' ∈ l → k ≤ key j' → key j ≤ key j').
Proof.
  induction l as [|a l IH]; cbn; [done|]. destruct (Z.leb_spec k (key a)) as [Hle|Hgt].
  - intros [= <-]. split_and!; [left|done|]. intros Hs j' [->|Hj']%elem_of_cons _; [done|].
    apply Sorted_StronglySorted in Hs; [|apply _]. inversion Hs as [|? ? _ HF]; subst. rewrite Forall_forall in HF. by apply HF.
  - intros Hj. destruct (IH Hj) as (H1 & H2 & H3). split_and!; [by right|done|].
    intros Hs j' [->|Hj']%elem_of_cons Hk; [lia|]. apply H3; [by inversion Hs|done..].
Qed.

Lemma ms_lower_bound_None k l : ms_lower_bound key k l = None → ∀ j, j ∈ l → key j < k.
Proof.
  induction l as [|a l IH]; cbn; [intros _ j Hj; by apply elem_of_nil in Hj|].
  destruct (Z.leb_spec k (key a)); [done|]. intros Hn j [->|Hj]%elem_of_cons; [done|]. by apply IH.
Qed.

Lemma ms_find_split k i A B : (∀ j, j ∈ A → key j < k) → key i = k → ms_find key k (A ++ i :: B) = Some i.
Proof.
  intros HA Hi. unfold ms_find. assert (ms_lower_bound key k (A ++ i :: B) = Some i) as ->.
  { induction A as [|a A IH]; cbn; [by rewrite (proj2 (Z.leb_le _ _)) by lia|].
    rewrite (proj2 (Z.leb_gt _ _)); [|apply HA; left]. apply IH. intros j Hj. apply HA. by right. }
  by rewrite (proj2 (Z.eqb_eq _ _)).
Qed.

Lemma ms_find_None k l : (∀ j, j ∈ l → key j ≠ k) → ms_find key k l = None.
Proof.
  intros Hl. unfold ms_find. destruct (ms_lower_bound key k l) as [j|] eqn:E; [|done].
  apply ms_lower_bound_Some in E as (Hj & _). rewrite (proj2 (Z.eqb_neq _ _)); [done|]. by apply Hl.
Qed.

Lemma ms_before_upper_split k i A B : (∀ j, j ∈ A → key j ≤ k) → key i ≤ k → (∀ j, j ∈ B → k < key j) →
  ms_before_upper key k (A ++ i :: B) = Some i.
Proof.
  intros HA Hi HB. induction A as [|a A IH]; cbn.
  - rewrite (proj2 (Z.ltb_ge _ _)) by done. destruct B as [|b B]; [done|]. cbn.
    rewrite (proj2 (Z.ltb_lt _ _)); [done|]. apply HB. left.
  - rewrite (proj2 (Z.ltb_ge _ _)) by (apply HA; left). rewrite IH; [done|]. intros j Hj. apply HA. by right.
Qed.

Lemma ms_before_upper_None k l : (∀ j, j ∈ l → k < key j) → ms_before_upper key k l = None.
Proof. intros Hl. destruct l as [|a l]; [done|]. cbn. rewrite (proj2 (Z.ltb_lt _ _)); [done|]. apply Hl. left. Qed.

End multiset.

Lemma ms_insert_ext key key' i l : (∀ j, j ∈ i :: l → key j = key' j) → ms_insert key i l = ms_insert key' i l.
Proof.
  intros E. induction l as [|j l IH]; cbn; [done|]. rewrite (E i), (E j) by set_solver. case_match; [done|].
  f_equal. apply IH. set_solver.
Qed.

Lemma sortedk_ext key key' l : (∀ j, j ∈ l → key j = key' j) → sortedk key l → sortedk key' l.
Proof.
  unfold sortedk. intros E Hs. induction Hs as [|j l Hl IH Hj]; constructor; [apply IH; set_solver|].
  destruct Hj as [|j' l Hj]; constructor. rewrite <- !E by set_solver. done.
Qed.

Lemma ms_erase_split i (A B : list nat) : i ∉ A → ms_erase i (A ++ i :: B) = A ++ B.
Proof.
  induction A as [|a A IH]; cbn; [by rewrite decide_True|]. intros [Hn Hi]%not_elem_of_cons.
  rewrite decide_False by done. by rewrite IH.
Qed.

Lemma ms_erase_perm i (l : list nat) : i ∈ l → l ≡ₚ i :: ms_erase i l.
Proof.
  induction l as [|j l IH]; [by intros ?%elem_of_nil|]. cbn. intros [->|Hi]%elem_of_cons; [by rewrite decide_True|].
  case_decide as E; [by subst|]. rewrite (IH Hi) at 1. constructor.
Qed.

Lemma ms_erase_sorted key i l : sortedk key l → sortedk key (ms_erase i l).
Proof.
  unfold sortedk. induction 1 as [|j l Hl IH Hj]; cbn; [constructor|]. case_decide; [done|]. constructor; [done|].
  destruct l as [|j' l]; cbn; [constructor|]. case_decide; [|constructor; by inversion Hj].
  destruct l as [|j'' l]; constructor. inversion Hj; subst. inversion Hl as [|? ? _ Hj'']; subst. inversion Hj''; subst. lia.
Qed.

Lemma ms_prev_from_split pr i (A B : list nat) : i ∉ A → ms_prev_from pr i (A ++ i :: B) = match last A with Some j => Some j | None => pr end.
Proof.
  revert pr. induction A as [|a A IH]; intros pr; cbn; [by rewrite decide_True|]. intros [Hn Hi]%not_elem_of_cons.
  rewrite decide_False by done. rewrite IH by done. rewrite last_cons. by destruct (last A).
Qed.

(** ** Tiles *)

Record block := mkB { b_id : nat; b_e : Entry; b_free : bool }.
Implicit Types b : block.
Implicit Types bl : list block.

Notation b_pos b := (m_Pos (b_e b)).
Notation b_size b := (m_Size (b_e b)).
Notation b_end b := (m_Pos (b_e b) + m_Size (b_e b)).

(** The blocks cover the addresses from [a] to [c]. *)
Fixpoint tiles (a : Z) bl (c : Z) : Prop :=
  match bl with [] => a = c | b :: bl => b_pos b = a ∧ 0 < b_size b ∧ tiles (a + b_size b) bl c end.

Lemma tiles_app a l1 l2 c : tiles a (l1 ++ l2) c ↔ ∃ m, tiles a l1 m ∧ tiles m l2 c.
Proof.
  revert a. induction l1 as [|b l1 IH]; intros a; cbn; [naive_solver|]. rewrite IH. naive_solver.
Qed.

Lemma tiles_le a bl c : tiles a bl c → a ≤ c.
Proof. revert a. induction bl as [|b bl IH]; intros a; cbn; [lia|]. intros (_ & Hs & H). apply IH in H. lia. Qed.

Lemma tiles_in a bl c b : tiles a bl c → b ∈ bl → a ≤ b_pos b ∧ 0 < b_size b ∧ b_end b ≤ c.
Proof.
  revert a. induction bl as [|b' bl IH]; intros a; cbn; [by intros _ ?%elem_of_nil|].
  intros (Hp & Hs & H) [->|Hb]%elem_of_cons; [apply tiles_le in H; lia|]. specialize (IH _ H Hb). lia.
Qed.

(** Every address is in one of them. *)
Lemma tiles_find a bl c r : tiles a bl c → a ≤ r < c → ∃ l1 b l2, bl = l1 ++ b :: l2 ∧ b_pos b ≤ r < b_end b.
Proof.
  revert a. induction bl as [|b bl IH]; intros a; cbn; [lia|]. intros (Hp & Hs & H) Hr.
  destruct (decide (r < a + b_size b)); [exists [], b, bl; split; [done|lia]|].
  destruct (IH _ H) as (l1 & b' & l2 & -> & Hb'); [lia|]. by exists (b :: l1), b', l2.
Qed.

(** The two sides of a block. *)
Lemma tiles_split a l1 b l2 c : tiles a (l1 ++ b :: l2) c →
  tiles a l1 (b_pos b) ∧ 0 < b_size b ∧ tiles (b_end b) l2 c ∧
  (∀ x, x ∈ l1 → a ≤ b_pos x ∧ 0 < b_size x ∧ b_end x ≤ b_pos b) ∧ (∀ x, x ∈ l2 → b_end b ≤ b_pos x ∧ 0 < b_size x ∧ b_end x ≤ c).
Proof.
  intros (m & H1 & Hb & Hs & H2)%tiles_app. cbn in *. subst m. split_and!; try done.
  - intros x Hx. by apply (tiles_in _ _ _ _ H1).
  - intros x Hx. by apply (tiles_in _ _ _ _ H2).
Qed.

(** No two free blocks are neighbours. *)
Fixpoint coalesced bl : Prop :=
  match bl with
  | b :: bl' => match bl' with b' :: _ => ¬ (b_free b = true ∧ b_free b' = true) | [] => True end ∧ coalesced bl'
  | [] => True
  end.

(** The neighbours of the cut are not both free. *)
Definition apart l1 l2 : Prop := ∀ b b', last l1 = Some b → head l2 = Some b' → ¬ (b_free b = true ∧ b_free b' = true).

Lemma coalesced_app l1 l2 : coalesced (l1 ++ l2) ↔ coalesced l1 ∧ coalesced l2 ∧ apart l1 l2.
Proof.
  unfold apart. induction l1 as [|b l1 IH]; [cbn; naive_solver|]. destruct l1 as [|b' l1].
  - cbn. destruct l2; cbn; naive_solver.
  - change ((b :: b' :: l1) ++ l2) with (b :: b' :: (l1 ++ l2)). cbn [coalesced].
    change (b' :: (l1 ++ l2)) with ((b' :: l1) ++ l2) in *. cbn [app] in IH |- *. cbn [coalesced] in IH.
    change (last (b :: b' :: l1)) with (last (b' :: l1)). tauto.
Qed.

(** ** The invariant *)

Definition ids (f : bool) bl : list nat := b_id <$> filter (λ b, b_free b = f) bl.

Record repr (h : t) bl (n : Z) : Prop := {
  re_tiles : tiles 0 bl n;
  re_size : n < 2 ^ 32;
  re_nodup : NoDup (b_id <$> bl);
  re_live : ∀ b, b ∈ bl → h_Entries h !! b_id b = Some (b_e b);
  re_next : ∀ i, is_Some (h_Entries h !! i) → (i < h_Next h)%nat;
  re_free : m_mapFree h = ids true bl;
  re_alloc : m_mapAllocated h = ids false bl;
  re_perm : m_mapSize h ≡ₚ m_mapFree h;
  re_sorted : sortedk (size_of h) (m_mapSize h);
}.

Lemma ids_app f l1 l2 : ids f (l1 ++ l2) = ids f l1 ++ ids f l2.
Proof. unfold ids. by rewrite filter_app, fmap_app. Qed.

Lemma ids_cons f b l : ids f (b :: l) = if decide (b_free b = f) then b_id b :: ids f l else ids f l.
Proof. unfold ids. rewrite filter_cons. by case_decide. Qed.

Lemma elem_of_ids f bl i : i ∈ ids f bl ↔ ∃ b, b ∈ bl ∧ b_free b = f ∧ b_id b = i.
Proof. unfold ids. rewrite list_elem_of_fmap. setoid_rewrite list_elem_of_filter. naive_solver. Qed.

Section with_repr.
Context (h : t) (bl : list block) (n : Z) (R : repr h bl n).

Lemma repr_pos b : b ∈ bl → pos_of h (b_id b) = b_pos b.
Proof. intros Hb. unfold pos_of. by rewrite (lookup_total_correct _ _ _ (re_live _ _ _ R b Hb)). Qed.

Lemma repr_sizeof b : b ∈ bl → size_of h (b_id b) = b_size b.
Proof. intros Hb. unfold size_of. by rewrite (lookup_total_correct _ _ _ (re_live _ _ _ R b Hb)). Qed.

Lemma repr_deref b : b ∈ bl → deref h (b_id b) = Ok (b_e b).
Proof. intros Hb. unfold deref. by rewrite (re_live _ _ _ R b Hb). Qed.

Lemma repr_fresh : h_Entries h !! h_Next h = None ∧ h_Next h ∉ b_id <$> bl.
Proof.
  assert (h_Entries h !! h_Next h = None) as E.
  { destruct (h_Entries h !! h_Next h) eqn:E; [|done]. pose proof (re_next _ _ _ R (h_Next h)) as H. rewrite E in H.
    specialize (H ltac:(done)). lia. }
  split; [done|]. intros (b & Eb & Hb)%list_elem_of_fmap. pose proof (re_live _ _ _ R b Hb) as H. by rewrite <- Eb, E in H.
Qed.

Lemma repr_notin l1 b l2 : bl = l1 ++ b :: l2 → b_id b ∉ b_id <$> l1 ++ l2.
Proof.
  intros ->. pose proof (re_nodup _ _ _ R) as Hn. rewrite fmap_app, fmap_cons in Hn.
  apply NoDup_app in Hn as (_ & H1 & H2). apply NoDup_cons in H2 as [H2 _]. rewrite fmap_app, elem_of_app.
  intros [H|H]; [|done]. apply (H1 _ H). left.
Qed.

Lemma ids_sub f l1 l2 i : i ∈ ids f (l1 ++ l2) → i ∈ b_id <$> l1 ++ l2.
Proof. rewrite elem_of_ids. intros (b & Hb & _ & <-). by apply list_elem_of_fmap_2. Qed.

Lemma repr_notin_ids f l1 b l2 : bl = l1 ++ b :: l2 → b_id b ∉ ids f l1 ∧ b_id b ∉ ids f l2.
Proof.
  intros E. pose proof (repr_notin _ _ _ E) as H. split; intros Hi; apply H; apply (ids_sub f); rewrite ids_app; set_solver.
Qed.

(** The block with an address. *)
Lemma repr_id_split i f : i ∈ ids f bl → ∃ l1 b l2, bl = l1 ++ b :: l2 ∧ b_id b = i ∧ b_free b = f.
Proof. intros (b & Hb & Hf & <-)%elem_of_ids. apply list_elem_of_split in Hb as (l1 & l2 & ->). by exists l1, b, l2. Qed.

End with_repr.

(** ** Operations *)

(** The sizes that [size_of] reads from the entries [E]. *)
Definition sizes (E : gmap nat Entry) (i : nat) : Z := m_Size (E !!! i).

Lemma sizes_insert_ne E i e (l : list nat) : i ∉ l → ∀ j, j ∈ l → sizes E j = sizes (<[i := e]> E) j.
Proof. intros Hi j Hj. unfold sizes. rewrite lookup_total_insert_ne; [done|]. by intros ->. Qed.

Lemma UpdateSizeFree_spec h i e v : h_Entries h !! i = Some e → NoDup (m_mapSize h) → i ∈ m_mapSize h →
  sortedk (size_of h) (m_mapSize h) →
  ∃ ms, UpdateSizeFree h i v = Ok (mk (<[i := mkEntry (m_Pos e) v]> (h_Entries h)) (h_Next h) ms (m_mapFree h) (m_mapAllocated h)) ∧
    ms ≡ₚ m_mapSize h ∧ sortedk (sizes (<[i := mkEntry (m_Pos e) v]> (h_Entries h))) ms.
Proof.
  intros He Hn Hi Hs. unfold UpdateSizeFree, deref. rewrite He. cbn.
  assert (m_mapSize h ≡ₚ i :: ms_erase i (m_mapSize h)) as Hp by (by apply ms_erase_perm).
  assert (i ∉ ms_erase i (m_mapSize h)) as Hni by (rewrite Hp in Hn; by apply NoDup_cons in Hn as []).
  eexists. split; [done|]. split.
  - rewrite ms_insert_perm. by symmetry.
  - apply ms_insert_sorted. eapply (sortedk_ext (size_of h)); [|by apply ms_erase_sorted].
    intros j Hj. by apply (sizes_insert_ne _ _ _ (ms_erase i (m_mapSize h))).
Qed.

Lemma repr_nodup_ids h bl n f : repr h bl n → NoDup (ids f bl).
Proof.
  intros R. pose proof (re_nodup _ _ _ R) as Hn. clear R. induction bl as [|b bl IH]; [constructor|].
  apply NoDup_cons in Hn as [Hb Hn]. rewrite ids_cons. case_decide; [|by apply IH].
  apply NoDup_cons. split; [|by apply IH]. intros (x & Hx & _ & E)%elem_of_ids. apply Hb. rewrite <- E. by apply list_elem_of_fmap_2.
Qed.

Lemma repr_nodup_size h bl n : repr h bl n → NoDup (m_mapSize h).
Proof. intros R. rewrite (re_perm _ _ _ R), (re_free _ _ _ R). by apply (repr_nodup_ids h bl n). Qed.

(** Two neighbours that are free become one. *)
Lemma TryMerge_merges h l1 b b2 l2 n : repr h (l1 ++ b :: b2 :: l2) n → b_free b = true → b_free b2 = true →
  ∃ h', TryMerge h (b_id b) = Ok h' ∧ repr h' (l1 ++ mkB (b_id b) (mkEntry (b_pos b) (b_size b + b_size b2)) true :: l2) n.
Proof.
  intros R Fb Fb2. set (bl := l1 ++ b :: b2 :: l2) in *.
  assert (b ∈ bl) as Hb by (unfold bl; set_solver). assert (b2 ∈ bl) as Hb2 by (unfold bl; set_solver).
  pose proof (re_tiles _ _ _ R) as T. pose proof (re_size _ _ _ R) as Hn32.
  destruct (tiles_split _ _ _ _ _ T) as (T1 & Sb & T2 & A1 & A2). cbn in T2. destruct T2 as (P2 & Sb2 & T2).
  pose proof (tiles_in _ _ _ _ T Hb) as Ib. pose proof (tiles_in _ _ _ _ T Hb2) as Ib2.
  unfold TryMerge. rewrite (repr_deref _ _ _ R b Hb). cbn [mbind res_bind]. rewrite u32_small by lia.
  assert (m_mapFree h = (ids true l1 ++ [b_id b]) ++ b_id b2 :: ids true l2) as EF.
  { rewrite (re_free _ _ _ R). unfold bl. rewrite ids_app, !ids_cons, Fb, Fb2, !decide_True by done. by rewrite <- app_assoc. }
  rewrite EF, (ms_find_split _ _ (b_id b2)); cycle 1.
  { intros j [(x & Hx & _ & <-)%elem_of_ids| ->%list_elem_of_singleton]%elem_of_app.
    - rewrite (repr_pos _ _ _ R) by (unfold bl; set_solver). specialize (A1 x Hx). lia.
    - rewrite (repr_pos _ _ _ R) by done. lia. }
  { by rewrite (repr_pos _ _ _ R). }
  rewrite (repr_deref _ _ _ R b2 Hb2). cbn [mbind res_bind]. rewrite u32_small by lia.
  assert (b_id b ∈ m_mapSize h) as Him by (rewrite (re_perm _ _ _ R), EF; set_solver).
  destruct (UpdateSizeFree_spec h (b_id b) (b_e b) (b_size b + b_size b2)) as (ms & -> & Pms & Sms);
    [by apply (re_live _ _ _ R)|by apply (repr_nodup_size _ _ _ R)|done|apply (re_sorted _ _ _ R)|].
  cbn [mbind res_bind]. eexists. split; [done|].
  pose proof (re_nodup _ _ _ R) as Hnd. unfold bl in Hnd. rewrite fmap_app, !fmap_cons in Hnd.
  assert (b_id b ≠ b_id b2) as Hne.
  { apply NoDup_app in Hnd as (_ & _ & Hnd). apply NoDup_cons in Hnd as [Hnd _]. set_solver. }
  assert (b_id b2 ∉ b_id <$> l1 ++ l2 ∧ b_id b ∉ b_id <$> l1 ++ l2) as [Hni2 Hni].
  { rewrite fmap_app, !elem_of_app. apply NoDup_app in Hnd as (_ & Hd & [Hc [Hd2 _]%NoDup_cons]%NoDup_cons). set_solver. }
  assert (NoDup ms) as Nms by (rewrite Pms; by apply (repr_nodup_size _ _ _ R)).
  assert (b_id b2 ∈ ms) as Hi2 by (rewrite Pms, (re_perm _ _ _ R), EF; set_solver).
  pose proof (ms_erase_perm _ _ Hi2) as Pe.
  assert (b_id b2 ∉ ms_erase (b_id b2) ms) as Hnie by (rewrite Pe in Nms; by apply NoDup_cons in Nms as []).
  split; cbn [Delete Remove h_Entries h_Next m_mapSize m_mapFree m_mapAllocated].
  - apply tiles_app. exists (b_pos b). split; [done|]. cbn. split_and!; [done|lia|]. by rewrite Z.add_assoc.
  - done.
  - rewrite fmap_app, fmap_cons. cbn. eapply sublist_NoDup; [exact Hnd|]. apply sublist_app; [done|]. apply sublist_skip, sublist_cons. done.
  - intros x Hx. apply elem_of_app in Hx as [Hx|[->|Hx]%elem_of_cons]; cbn.
    + rewrite lookup_delete_ne, lookup_insert_ne; [apply (re_live _ _ _ R); unfold bl; set_solver|set_solver|set_solver].
    + by rewrite lookup_delete_ne, lookup_insert_eq by done.
    + rewrite lookup_delete_ne, lookup_insert_ne; [apply (re_live _ _ _ R); unfold bl; set_solver|set_solver|set_solver].
  - intros i [e He]. apply lookup_delete_Some in He as [_ He]. apply (re_next _ _ _ R).
    destruct (decide (i = b_id b)) as [->|Hd]; [by eexists; apply (re_live _ _ _ R)|]. rewrite lookup_insert_ne in He by done. by eexists.
  - rewrite EF, ms_erase_split; [by rewrite ids_app, ids_cons, decide_True, <- app_assoc by done|].
    rewrite elem_of_app, list_elem_of_singleton. intros [Hi|Hi]; [|done]. apply Hni2. apply (ids_sub true).
    rewrite ids_app. set_solver.
  - rewrite (re_alloc _ _ _ R). unfold bl. rewrite !ids_app, !ids_cons, Fb, Fb2. by rewrite !decide_False.
  - rewrite EF, ms_erase_split.
    + apply (Permutation_cons_inv (a := b_id b2)). rewrite <- Pe, Pms, (re_perm _ _ _ R), EF. by rewrite Permutation_middle.
    + rewrite elem_of_app, list_elem_of_singleton. intros [Hi|Hi]; [|done]. apply Hni2. apply (ids_sub true). rewrite ids_app. set_solver.
  - eapply sortedk_ext; [|apply ms_erase_sorted; exact Sms]. intros j Hj. unfold sizes, size_of. cbn.
    rewrite lookup_total_delete_ne; [done|]. by intros <-.
Qed.

Lemma TryMerge_alone h l1 b l2 n : repr h (l1 ++ b :: l2) n → (∀ x, head l2 = Some x → b_free x = false) → TryMerge h (b_id b) = Ok h.
Proof.
  intros R Hh. set (bl := l1 ++ b :: l2) in *. assert (b ∈ bl) as Hb by (unfold bl; set_solver).
  pose proof (re_tiles _ _ _ R) as T. pose proof (re_size _ _ _ R) as Hn32.
  destruct (tiles_split _ _ _ _ _ T) as (T1 & Sb & T2 & A1 & A2). pose proof (tiles_in _ _ _ _ T Hb) as Ib.
  unfold TryMerge. rewrite (repr_deref _ _ _ R b Hb). cbn [mbind res_bind]. rewrite u32_small by lia.
  rewrite ms_find_None; [done|]. intros j Hj. rewrite (re_free _ _ _ R) in Hj. apply elem_of_ids in Hj as (x & Hx & Fx & <-).
  rewrite (repr_pos _ _ _ R) by done. unfold bl in Hx. apply elem_of_app in Hx as [Hx|[->|Hx]%elem_of_cons].
  - specialize (A1 x Hx). lia.
  - lia.
  - destruct l2 as [|b2 l2]; [by apply elem_of_nil in Hx|]. cbn in T2. destruct T2 as (P2 & S2 & T2).
    apply elem_of_cons in Hx as [->|Hx]; [by rewrite (Hh b2) in Fx|]. pose proof (tiles_in _ _ _ _ T2 Hx). lia.
Qed.

(** What [Free] makes of the freed block and the blocks behind it, and then of the one before. *)
Definition merge_right b l2 : list block :=
  match l2 with
  | b2 :: l2' => if b_free b2 then mkB (b_id b) (mkEntry (b_pos b) (b_size b + b_size b2)) true :: l2' else b :: l2
  | [] => [b]
  end.

Lemma merge_right_cons b l2 : b_free b = true →
  ∃ c l2', merge_right b l2 = c :: l2' ∧ b_id c = b_id b ∧ b_pos c = b_pos b ∧ b_free c = true.
Proof. intros Fb. unfold merge_right. destruct l2 as [|b2 l2]; [by eauto 10|]. destruct (b_free b2); eauto 10. Qed.

Lemma TryMerge_spec h l1 b l2 n : repr h (l1 ++ b :: l2) n → b_free b = true →
  ∃ h', TryMerge h (b_id b) = Ok h' ∧ repr h' (l1 ++ merge_right b l2) n.
Proof.
  intros R Fb. unfold merge_right. destruct l2 as [|b2 l2].
  - exists h. split; [|done]. by eapply TryMerge_alone.
  - destruct (b_free b2) eqn:F2; [by apply TryMerge_merges|]. exists h. split; [|done]. eapply TryMerge_alone; [done|].
    intros x [= <-]. done.
Qed.

(** A block changes its kind: the sets follow. *)
Lemma to_free h l1 b l2 n : repr h (l1 ++ b :: l2) n → b_free b = false →
  repr (Insert (Remove h (b_id b) false) (b_id b) true) (l1 ++ mkB (b_id b) (b_e b) true :: l2) n.
Proof.
  intros R Fb. set (bl := l1 ++ b :: l2) in *. assert (b ∈ bl) as Hb by (unfold bl; set_solver).
  pose proof (re_tiles _ _ _ R) as T. destruct (tiles_split _ _ _ _ _ T) as (T1 & Sb & T2 & A1 & A2).
  destruct (repr_notin_ids _ _ _ R false l1 b l2 eq_refl) as [N1 N2].
  assert (m_mapFree h = ids true l1 ++ ids true l2) as EF.
  { rewrite (re_free _ _ _ R). unfold bl. rewrite ids_app, ids_cons, Fb. by rewrite decide_False. }
  assert (ms_insert (pos_of h) (b_id b) (m_mapFree h) = ids true l1 ++ b_id b :: ids true l2) as EI.
  { rewrite EF. apply ms_insert_split; intros j (x & Hx & _ & <-)%elem_of_ids; rewrite !(repr_pos _ _ _ R) by (unfold bl; set_solver).
    - specialize (A1 x Hx). lia.
    - specialize (A2 x Hx). lia. }
  split; cbn [Insert Remove h_Entries h_Next m_mapSize m_mapFree m_mapAllocated].
  - apply tiles_app. exists (b_pos b). split; [done|]. by cbn.
  - apply (re_size _ _ _ R).
  - pose proof (re_nodup _ _ _ R) as Hnd. unfold bl in Hnd. rewrite fmap_app, fmap_cons in *. done.
  - intros x Hx. apply elem_of_app in Hx as [Hx|[->|Hx]%elem_of_cons]; cbn; apply (re_live _ _ _ R); unfold bl; set_solver.
  - apply (re_next _ _ _ R).
  - rewrite ids_app, ids_cons, decide_True by done. exact EI.
  - rewrite (re_alloc _ _ _ R). unfold bl. rewrite !ids_app, !ids_cons, Fb. cbn [b_free].
    rewrite decide_True, decide_False by done. by rewrite ms_erase_split.
  - change (pos_of _) with (pos_of h). change (size_of _) with (size_of h). rewrite EI, ms_insert_perm, (re_perm _ _ _ R), EF.
    by rewrite Permutation_middle.
  - apply ms_insert_sorted, (re_sorted _ _ _ R).
Qed.

Lemma to_alloc h l1 b l2 n : repr h (l1 ++ b :: l2) n → b_free b = true →
  repr (Insert (Remove h (b_id b) true) (b_id b) false) (l1 ++ mkB (b_id b) (b_e b) false :: l2) n.
Proof.
  intros R Fb. set (bl := l1 ++ b :: l2) in *. assert (b ∈ bl) as Hb by (unfold bl; set_solver).
  pose proof (re_tiles _ _ _ R) as T. destruct (tiles_split _ _ _ _ _ T) as (T1 & Sb & T2 & A1 & A2).
  destruct (repr_notin_ids _ _ _ R true l1 b l2 eq_refl) as [N1 N2].
  assert (m_mapFree h = ids true l1 ++ b_id b :: ids true l2) as EF.
  { rewrite (re_free _ _ _ R). unfold bl. rewrite ids_app, ids_cons, Fb. by rewrite decide_True. }
  assert (b_id b ∈ m_mapSize h) as Hi by (rewrite (re_perm _ _ _ R), EF; set_solver).
  split; cbn [Insert Remove h_Entries h_Next m_mapSize m_mapFree m_mapAllocated].
  - apply tiles_app. exists (b_pos b). split; [done|]. by cbn.
  - apply (re_size _ _ _ R).
  - pose proof (re_nodup _ _ _ R) as Hnd. unfold bl in Hnd. rewrite fmap_app, fmap_cons in *. done.
  - intros x Hx. apply elem_of_app in Hx as [Hx|[->|Hx]%elem_of_cons]; cbn; apply (re_live _ _ _ R); unfold bl; set_solver.
  - apply (re_next _ _ _ R).
  - rewrite EF, ms_erase_split by done. by rewrite ids_app, ids_cons.
  - rewrite (re_alloc _ _ _ R). unfold bl. rewrite !ids_app, !ids_cons, Fb. cbn [b_free b_id].
    rewrite decide_False, decide_True by done. change (pos_of _) with (pos_of h).
    apply ms_insert_split; intros j (x & Hx & _ & <-)%elem_of_ids; rewrite !(repr_pos _ _ _ R) by (unfold bl; set_solver).
    + specialize (A1 x Hx). lia.
    + specialize (A2 x Hx). lia.
  - rewrite EF, ms_erase_split by done. apply (Permutation_cons_inv (a := b_id b)).
    rewrite <- ms_erase_perm by done. rewrite (re_perm _ _ _ R), EF. by rewrite Permutation_middle.
  - apply ms_erase_sorted, (re_sorted _ _ _ R).
Qed.

(** ** Free *)

(** What is allocated, as the contract sees it. *)
Definition models bl (M : gmap Z Z) : Prop :=
  ∀ q s, M !! q = Some s ↔ ∃ b, b ∈ bl ∧ b_free b = false ∧ b_pos b = q ∧ b_size b = s.

Lemma merge_right_alloc b l2 x : b_free b = true → x ∈ merge_right b l2 ∧ b_free x = false ↔ x ∈ l2 ∧ b_free x = false.
Proof.
  intros Fb. unfold merge_right. destruct l2 as [|b2 l2].
  - rewrite list_elem_of_singleton, elem_of_nil. naive_solver congruence.
  - destruct (b_free b2) eqn:F2; rewrite !elem_of_cons; naive_solver congruence.
Qed.

Lemma merge_right_coalesced b l2 : b_free b = true → coalesced l2 → coalesced (merge_right b l2).
Proof.
  intros Fb. unfold merge_right. destruct l2 as [|b2 l2]; [done|]. intros Hc. destruct (b_free b2) eqn:F2.
  - destruct Hc as [Hh Hc]. cbn. destruct l2 as [|b3 l2]; [done|]. split; [|done]. cbn. rewrite F2 in Hh. naive_solver.
  - cbn. split; [|done]. rewrite F2. naive_solver.
Qed.

Lemma last_ids_split bl j : last (ids true bl) = Some j →
  ∃ k1 b k2, bl = k1 ++ b :: k2 ∧ b_id b = j ∧ b_free b = true ∧ ∀ x, x ∈ k2 → b_free x = false.
Proof.
  induction bl as [|b bl IH] using rev_ind; [done|]. rewrite ids_app, ids_cons. change (ids true []) with (@nil nat). case_decide as F.
  - rewrite last_snoc. intros [= <-]. exists bl, b, []. split_and!; [done..|]. by intros x ?%elem_of_nil.
  - rewrite app_nil_r. intros H. destruct (IH H) as (k1 & c & k2 & -> & Hj & Fc & Hk).
    exists k1, c, (k2 ++ [b]). split_and!; [by rewrite <- app_assoc|done|done|].
    intros x [Hx| ->%list_elem_of_singleton]%elem_of_app; [by apply Hk|]. by destruct (b_free b).
Qed.

Lemma all_alloc_coalesced k : (∀ x, x ∈ k → b_free x = false) → coalesced k.
Proof.
  induction k as [|b k IH]; [done|]. intros H. split; [|apply IH; set_solver].
  destruct k; [done|]. rewrite (H b) by set_solver. naive_solver.
Qed.

Lemma Free_spec h l1 b l2 n : repr h (l1 ++ b :: l2) n → coalesced (l1 ++ b :: l2) → b_free b = false →
  ∃ h' bl', Free h (b_pos b) = Ok h' ∧ repr h' bl' n ∧ coalesced bl' ∧
    ∀ x, x ∈ bl' ∧ b_free x = false ↔ (x ∈ l1 ∨ x ∈ l2) ∧ b_free x = false.
Proof.
  intros R Hc Fb. assert (b ∈ l1 ++ b :: l2) as Hb by set_solver.
  pose proof (re_tiles _ _ _ R) as T. destruct (tiles_split _ _ _ _ _ T) as (_ & Sb & _ & A1 & A2).
  unfold Free. rewrite (re_alloc _ _ _ R), ids_app, ids_cons, decide_True by done.
  rewrite ms_find_split; cycle 1.
  { intros j (x & Hx & _ & <-)%elem_of_ids. rewrite (repr_pos _ _ _ R) by set_solver. specialize (A1 x Hx). lia. }
  { by rewrite (repr_pos _ _ _ R). }
  pose proof (to_free _ _ _ _ _ R Fb) as R1. set (b' := mkB (b_id b) (b_e b) true) in *.
  destruct (TryMerge_spec _ _ b' _ _ R1 eq_refl) as (h2 & E2 & R2). change (b_id b') with (b_id b) in E2. rewrite E2. cbn [mbind res_bind].
  apply coalesced_app in Hc as (C1 & [_ C2] & Ap).
  pose proof (merge_right_coalesced b' l2 eq_refl C2) as C3.
  pose proof (λ x, merge_right_alloc b' l2 x eq_refl) as M3.
  destruct (merge_right_cons b' l2 eq_refl) as (c & l2' & Ec & Ic & Pc & Fc). rewrite Ec in *.
  change (b_id b') with (b_id b) in Ic. rewrite <- Ic.
  rewrite (repr_deref _ _ _ R2 c) by set_solver. cbn [mbind res_bind].
  destruct (repr_notin_ids _ _ _ R2 true l1 c l2' eq_refl) as [N1 _].
  rewrite (re_free _ _ _ R2), ids_app, ids_cons, decide_True by done. unfold ms_prev. rewrite ms_prev_from_split by done.
  destruct (last (ids true l1)) as [j|] eqn:El.
  - destruct (last_ids_split _ _ El) as (k1 & bk & k2 & -> & <- & Fk & Hk2). rewrite <- app_assoc in R2. cbn [app] in R2.
    destruct (TryMerge_spec _ _ _ _ _ R2 Fk) as (h3 & E3 & R3). exists h3. eexists. split; [done|]. split; [done|]. split.
    + apply coalesced_app in C1 as (Ck1 & Ck2 & Apk). apply coalesced_app. split_and!; [done| |].
      * apply merge_right_coalesced; [done|]. apply coalesced_app. split_and!; [by apply all_alloc_coalesced|done|].
        intros x y Hx _. apply last_Some in Hx as [k3 ->]. rewrite (Hk2 x) by set_solver. naive_solver.
      * intros x y Hx Hy. destruct (merge_right_cons bk (k2 ++ c :: l2') Fk) as (d & l' & Ed & _ & _ & Fd). rewrite Ed in Hy. injection Hy as <-.
        intros [Fx _]. by apply (Apk x bk Hx eq_refl).
    + intros x. pose proof (merge_right_alloc bk (k2 ++ c :: l2') x Fk). specialize (M3 x).
      assert (x = bk → b_free x ≠ false) by (intros ->; congruence).
      rewrite !elem_of_app, !elem_of_cons in *. tauto.
  - exists h2, (l1 ++ c :: l2'). split_and!; [done|done| |].
    + apply coalesced_app. split_and!; [done..|]. intros x y Hx _ [Fx _]. apply last_Some in Hx as [k ->].
      rewrite ids_app, ids_cons, decide_True in El by done. by rewrite (last_snoc (b_id x)) in El.
    + intros x. specialize (M3 x). rewrite !elem_of_app in *. tauto.
Qed.

(** ** Alloc *)

Lemma Alloc_split h l1 b l2 n size : repr h (l1 ++ b :: l2) n → b_free b = true → 0 < size < b_size b →
  let h1 := Create h (b_pos b) size false in
  let h2 := set_Entry h1 (b_id b) (mkEntry (b_pos b + size) (b_size b)) in
  ∃ h', UpdateSizeFree h2 (b_id b) (b_size b - size) = Ok h' ∧
    repr h' (l1 ++ mkB (h_Next h) (mkEntry (b_pos b) size) false :: mkB (b_id b) (mkEntry (b_pos b + size) (b_size b - size)) true :: l2) n.
Proof.
  intros R Fb Hs h1 h2. set (bl := l1 ++ b :: l2) in *. assert (b ∈ bl) as Hb by (unfold bl; set_solver).
  pose proof (re_tiles _ _ _ R) as T. destruct (tiles_split _ _ _ _ _ T) as (T1 & Sb & T2 & A1 & A2).
  destruct (repr_fresh _ _ _ R) as [Hf Hfid]. set (p := h_Next h) in *.
  assert (b_id b ≠ p) as Hne by (intros E; apply Hfid; rewrite <- E; by apply list_elem_of_fmap_2).
  assert (∀ x, x ∈ bl → b_id x ≠ p) as Hnp by (intros x Hx E; apply Hfid; rewrite <- E; by apply list_elem_of_fmap_2).
  assert (m_mapFree h = ids true l1 ++ b_id b :: ids true l2) as EF.
  { rewrite (re_free _ _ _ R). unfold bl. rewrite ids_app, ids_cons, Fb. by rewrite decide_True. }
  pose proof (re_live _ _ _ R b Hb) as Lb.
  assert (∀ j, j ∈ m_mapSize h → size_of h j = size_of h2 j) as Esz.
  { intros j Hj. rewrite (re_perm _ _ _ R), (re_free _ _ _ R) in Hj. apply elem_of_ids in Hj as (x & Hx & _ & <-).
    unfold size_of. cbn. destruct (decide (b_id x = b_id b)) as [E|E].
    - rewrite E, lookup_total_insert_eq. by rewrite (lookup_total_correct _ _ _ Lb).
    - rewrite !lookup_total_insert_ne; [done|by apply not_eq_sym, Hnp|done]. }
  destruct (UpdateSizeFree_spec h2 (b_id b) (mkEntry (b_pos b + size) (b_size b)) (b_size b - size)) as (ms & E & Pms & Sms).
  { cbn. by rewrite lookup_insert_eq. }
  { by apply (repr_nodup_size _ _ _ R). }
  { change (m_mapSize h2) with (m_mapSize h). rewrite (re_perm _ _ _ R), EF. set_solver. }
  { eapply sortedk_ext; [exact Esz|apply (re_sorted _ _ _ R)]. }
  rewrite E. eexists. split; [done|]. cbn [m_Pos].
  assert (∀ x, x ∈ l1 ∨ x ∈ l2 → b_id x ≠ b_id b) as Hnb.
  { intros x Hx Ex. apply (repr_notin _ _ _ R l1 b l2 eq_refl). rewrite <- Ex. apply list_elem_of_fmap_2, elem_of_app. done. }
  assert (∀ x, x ∈ l1 ∨ x ∈ l2 → x ∈ bl) as Hin by (unfold bl; set_solver).
  split; cbn [h_Entries h_Next m_mapSize m_mapFree m_mapAllocated h1 h2 set_Entry Create Insert].
  - apply tiles_app. exists (b_pos b). split; [done|]. cbn. split_and!; [done|lia|done|lia|].
    by replace (b_pos b + size + (b_size b - size)) with (b_end b) by lia.
  - apply (re_size _ _ _ R).
  - pose proof (re_nodup _ _ _ R) as Hnd. unfold bl in Hnd, Hfid. rewrite fmap_app, fmap_cons in *. cbn.
    rewrite <- Permutation_middle. apply NoDup_cons. done.
  - intros x Hx. assert (x ∈ l1 ∨ x ∈ l2 → <[b_id b:=mkEntry (b_pos b + size) (b_size b - size)]>
        (<[b_id b:=mkEntry (b_pos b + size) (b_size b)]> (<[p:=mkEntry (b_pos b) size]> (h_Entries h))) !! b_id x = Some (b_e x)) as Hold.
    { intros Hx'. rewrite !lookup_insert_ne; [by apply (re_live _ _ _ R), Hin|..]; apply not_eq_sym; auto. }
    apply elem_of_app in Hx as [Hx|[->|[->|Hx]%elem_of_cons]%elem_of_cons]; [by apply Hold; left| | |by apply Hold; right]; cbn.
    + by rewrite !lookup_insert_ne, lookup_insert_eq by done.
    + by rewrite lookup_insert_eq.
  - intros i [e He]. destruct (decide (i = p)) as [->|Hip]; [cbn; lia|].
    assert (i < p)%nat; [|cbn; lia]. apply (re_next _ _ _ R). destruct (decide (i = b_id b)) as [->|Hib]; [by eexists|].
    rewrite !lookup_insert_ne in He by done. by eexists.
  - rewrite EF, ids_app, !ids_cons. cbn [b_free b_id]. by rewrite decide_False, decide_True by done.
  - rewrite (re_alloc _ _ _ R). unfold bl. rewrite !ids_app, !ids_cons, Fb. cbn [b_free b_id].
    rewrite decide_False, decide_True by done.
    rewrite (ms_insert_ext _ (λ j, if decide (j = p) then b_pos b else pos_of h j)); cycle 1.
    { intros j _. unfold pos_of. cbn. case_decide as D; [subst; by rewrite lookup_total_insert_eq|]. by rewrite lookup_total_insert_ne. }
    assert (∀ x, x ∈ l1 ∨ x ∈ l2 → (if decide (b_id x = p) then b_pos b else pos_of h (b_id x)) = b_pos x) as Ex.
    { intros x Hx. rewrite decide_False by auto. apply (repr_pos _ _ _ R). auto. }
    apply ms_insert_split; intros j (x & Hx & _ & <-)%elem_of_ids; rewrite (decide_True (P := p = p)) by done; rewrite Ex by auto.
    + specialize (A1 x Hx). lia.
    + specialize (A2 x Hx). lia.
  - rewrite Pms. apply (re_perm _ _ _ R).
  - cbn in Sms. eapply sortedk_ext; [|exact Sms]. done.
Qed.

(** ** Growth *)

Lemma Create_free h bl n n' : repr h bl n → n < n' → n' < 2 ^ 32 →
  repr (Create h n (n' - n) true) (bl ++ [mkB (h_Next h) (mkEntry n (n' - n)) true]) n'.
Proof.
  intros R Hn Hn'. destruct (repr_fresh _ _ _ R) as [Hf Hfid]. set (p := h_Next h) in *.
  pose proof (re_tiles _ _ _ R) as T.
  assert (∀ x, x ∈ bl → b_id x ≠ p) as Hnp by (intros x Hx E; apply Hfid; rewrite <- E; by apply list_elem_of_fmap_2).
  assert (∀ j, j ∈ ids true bl → j ≠ p) as Hnj by (intros j (x & Hx & _ & <-)%elem_of_ids; auto).
  assert (∀ k l, (∀ j, j ∈ l → j ≠ p) → sortedk (size_of h) l →
    sortedk (size_of (mk (<[p:=k]> (h_Entries h)) (S p) (m_mapSize h) (m_mapFree h) (m_mapAllocated h))) l) as Hsz.
  { intros k l Hl. apply sortedk_ext. intros j Hj. unfold size_of. cbn. rewrite lookup_total_insert_ne; [done|]. apply not_eq_sym. auto. }
  split; cbn [Create Insert h_Entries h_Next m_mapSize m_mapFree m_mapAllocated].
  - apply tiles_app. exists n. split; [done|]. cbn. split_and!; [done|lia|lia].
  - done.
  - rewrite fmap_app. cbn. rewrite <- Permutation_cons_append. apply NoDup_cons. split; [done|apply (re_nodup _ _ _ R)].
  - intros x [Hx| ->%list_elem_of_singleton]%elem_of_app; cbn.
    + rewrite lookup_insert_ne; [by apply (re_live _ _ _ R)|]. apply not_eq_sym. auto.
    + by rewrite lookup_insert_eq.
  - intros i [e He]. destruct (decide (i = p)) as [->|Hip]; [cbn; lia|]. assert (i < p)%nat; [|cbn; lia].
    apply (re_next _ _ _ R). rewrite lookup_insert_ne in He by done. by eexists.
  - rewrite (re_free _ _ _ R), ids_app, ids_cons, decide_True by done. change (ids true []) with (@nil nat).
    rewrite (ms_insert_ext _ (λ j, m_Pos (<[p:=mkEntry n (n' - n)]> (h_Entries h) !!! j))) by done.
    rewrite <- (app_nil_r (ids true bl)) at 1. apply ms_insert_split; [|by intros j ?%elem_of_nil].
    intros j (x & Hx & _ & <-)%elem_of_ids. rewrite lookup_total_insert_eq, lookup_total_insert_ne by (apply not_eq_sym; auto).
    rewrite (lookup_total_correct _ _ _ (re_live _ _ _ R x Hx)). pose proof (tiles_in _ _ _ _ T Hx). cbn. lia.
  - rewrite (re_alloc _ _ _ R), ids_app, ids_cons, decide_False by done. by rewrite app_nil_r.
  - rewrite !ms_insert_perm. by rewrite (re_perm _ _ _ R).
  - apply ms_insert_sorted. apply Hsz; [|apply (re_sorted _ _ _ R)].
    intros j Hj. rewrite (re_perm _ _ _ R), (re_free _ _ _ R) in Hj. auto.
Qed.

(** The last block gets larger. *)
Lemma grow_last h l1 b n n' : repr h (l1 ++ [b]) n → b_free b = true → n < n' → n' < 2 ^ 32 →
  ∃ h', UpdateSizeFree h (b_id b) (n' - b_pos b) = Ok h' ∧ repr h' (l1 ++ [mkB (b_id b) (mkEntry (b_pos b) (n' - b_pos b)) true]) n'.
Proof.
  intros R Fb Hn Hn'. assert (b ∈ l1 ++ [b]) as Hb by set_solver.
  pose proof (re_tiles _ _ _ R) as T. destruct (tiles_split _ _ _ _ _ T) as (T1 & Sb & T2 & A1 & _). cbn in T2.
  assert (m_mapFree h = ids true l1 ++ [b_id b]) as EF.
  { rewrite (re_free _ _ _ R), ids_app, ids_cons, Fb. by rewrite decide_True. }
  pose proof (repr_notin _ _ _ R l1 b [] eq_refl) as Hni. rewrite app_nil_r in Hni.
  destruct (UpdateSizeFree_spec h (b_id b) (b_e b) (n' - b_pos b)) as (ms & -> & Pms & Sms).
  { by apply (re_live _ _ _ R). }
  { by apply (repr_nodup_size _ _ _ R). }
  { rewrite (re_perm _ _ _ R), EF. set_solver. }
  { apply (re_sorted _ _ _ R). }
  eexists. split; [done|]. split; cbn [h_Entries h_Next m_mapSize m_mapFree m_mapAllocated].
  - apply tiles_app. exists (b_pos b). split; [done|]. cbn. split_and!; [done|lia|lia].
  - done.
  - pose proof (re_nodup _ _ _ R) as Hnd. by rewrite fmap_app in *.
  - intros x [Hx| ->%list_elem_of_singleton]%elem_of_app; cbn; [|by rewrite lookup_insert_eq].
    rewrite lookup_insert_ne; [apply (re_live _ _ _ R); set_solver|]. intros E. apply Hni. rewrite E. by apply list_elem_of_fmap_2.
  - intros i [e He]. apply (re_next _ _ _ R). destruct (decide (i = b_id b)) as [->|Hd]; [by eexists; apply (re_live _ _ _ R)|].
    rewrite lookup_insert_ne in He by done. by eexists.
  - by rewrite EF, ids_app, ids_cons, decide_True by done.
  - rewrite (re_alloc _ _ _ R), !ids_app, !ids_cons, Fb. cbn [b_free]. by rewrite !decide_False by done.
  - rewrite Pms. apply (re_perm _ _ _ R).
  - eapply sortedk_ext; [|exact Sms]. done.
Qed.

(** The last free block reaches the end, or the last block is allocated. *)
Lemma last_free h bl n i : repr h bl n → coalesced bl → last (m_mapFree h) = Some i →
  ∃ l1 b k, bl = l1 ++ b :: k ∧ b_id b = i ∧ b_free b = true ∧ (∀ x, x ∈ k → b_free x = false) ∧ b_end b ≤ n ∧ (b_end b = n ↔ k = []).
Proof.
  intros R Hc. rewrite (re_free _ _ _ R). intros (l1 & b & k & -> & Hi & Fb & Hk)%last_ids_split. exists l1, b, k. split_and!; try done.
  - pose proof (re_tiles _ _ _ R) as T. apply (tiles_in _ _ _ b T). set_solver.
  - pose proof (re_tiles _ _ _ R) as T. destruct (tiles_split _ _ _ _ _ T) as (_ & _ & T2 & _ & A2). split.
    + intros E. destruct k as [|x k]; [done|]. specialize (A2 x). pose proof (A2 ltac:(left)). lia.
    + intros ->. done.
Qed.

Lemma OnGrow_spec h bl n n' : repr h bl n → coalesced bl → n < n' → n' < 2 ^ 32 →
  ∃ h' bl', OnGrow h n n' = Ok h' ∧ repr h' bl' n' ∧ coalesced bl' ∧ ∀ x, x ∈ bl' ∧ b_free x = false ↔ x ∈ bl ∧ b_free x = false.
Proof.
  intros R Hc Hn Hn'. pose proof (tiles_le _ _ _ (re_tiles _ _ _ R)) as Hn0. unfold OnGrow.
  assert ((∀ x, last bl = Some x → b_free x = false) → ∃ h' bl', mret (M := res) (Create h n (u32 (n' - n)) true) = Ok h' ∧ repr h' bl' n' ∧ coalesced bl' ∧
    ∀ x, x ∈ bl' ∧ b_free x = false ↔ x ∈ bl ∧ b_free x = false) as Hnew.
  { intros Hl. rewrite u32_small by lia. eexists _, _. split; [done|]. split; [by apply Create_free|]. split.
    - apply coalesced_app. split_and!; [done|done|]. intros x y Hx _. rewrite (Hl x Hx). naive_solver.
    - intros x. rewrite elem_of_app, list_elem_of_singleton. split; [|tauto]. intros [[Hx| ->] Fx]; [done|done]. }
  destruct (last (m_mapFree h)) as [i|] eqn:El.
  - destruct (last_free _ _ _ _ R Hc El) as (l1 & b & k & -> & <- & Fb & Hk & He & Hend).
    rewrite (repr_deref _ _ _ R b) by set_solver. cbn [mbind res_bind].
    assert (0 ≤ b_pos b ∧ 0 < b_size b) as Hp by (pose proof (re_tiles _ _ _ R) as T; pose proof (tiles_in _ _ _ b T ltac:(set_solver)); lia).
    rewrite u32_small by lia. destruct (Z.eqb_spec (b_end b) n) as [E|E].
    + rewrite (proj1 Hend E) in *. rewrite u32_small by lia.
      destruct (grow_last h l1 b n n' R Fb Hn Hn') as (h' & -> & R'). eexists _, _. split; [done|]. split; [done|]. split.
      * apply coalesced_app in Hc as (C1 & _ & Ap). apply coalesced_app. split_and!; [done|done|].
        intros x y Hx [= <-]. intros [Fx _]. by apply (Ap x b Hx eq_refl).
      * intros x. rewrite !elem_of_app, !list_elem_of_singleton. split; intros [[Hx| ->] Fx]; try tauto; by rewrite ?Fb in Fx.
    + apply Hnew. intros x Hx. rewrite last_app_cons in Hx. destruct k as [|y k]; [by rewrite (proj2 Hend eq_refl) in E|].
      apply Hk. cbn in Hx. apply last_Some_elem_of. done.
  - apply Hnew. intros x Hx. destruct (b_free x) eqn:Fx; [|done]. apply last_Some in Hx as [l' ->].
    rewrite (re_free _ _ _ R), ids_app, ids_cons, decide_True in El by done. by rewrite (last_snoc (b_id x)) in El.
Qed.

(** ** The heap as a map *)

Definition heap_rel (h : t) (n : Z) (M : gmap Z Z) : Prop := ∃ bl, repr h bl n ∧ coalesced bl ∧ models bl M.

Lemma heap_rel_empty : heap_rel empty 0 ∅.
Proof.
  exists []. split_and!; [|done|].
  - split; try done; [apply NoDup_nil_2|by intros b ?%elem_of_nil|intros i [e He]; cbn in He; by apply lookup_empty_Some in He|constructor].
  - intros q s. rewrite lookup_empty. split; [done|]. intros (b & Hb & _). by apply elem_of_nil in Hb.
Qed.

(** A block of its own: neither inside nor across of another. *)
Definition apart_from (M : gmap Z Z) (r size : Z) : Prop := ∀ q s, M !! q = Some s → q + s ≤ r ∨ r + size ≤ q.

Lemma models_insert bl bl' M r size : models bl M → (∀ x, x ∈ bl' ∧ b_free x = false ↔
    (x ∈ bl ∧ b_free x = false) ∨ (b_free x = false ∧ b_pos x = r ∧ b_size x = size ∧ x ∈ bl')) →
  (∃ x, x ∈ bl' ∧ b_free x = false ∧ b_pos x = r ∧ b_size x = size) → (∀ x, x ∈ bl → b_free x = false → b_pos x ≠ r) →
  models bl' (<[r := size]> M).
Proof.
  intros HM Hx (y & Hy) Hr q s. destruct (decide (q = r)) as [->|Hq].
  - rewrite lookup_insert_eq. split; [intros [= <-]; by exists y|]. intros (b & Hb & Fb & Pb & Sb).
    destruct (proj1 (Hx b) (conj Hb Fb)) as [[H1 H2]|(_ & _ & H3 & _)]; [by destruct (Hr b)|congruence].
  - rewrite lookup_insert_ne by done. rewrite (HM q s). split; intros (b & Hb & Fb & Pb & Sb); exists b.
    + split_and!; try done. apply (Hx b). by left.
    + destruct (proj1 (Hx b) (conj Hb Fb)) as [[H1 H2]|(_ & H3 & _)]; [done|congruence].
Qed.

Lemma Alloc_spec h n M size : heap_rel h n M → 0 < size →
  match Alloc h size with
  | Ok (Some r, h') => M !! r = None ∧ 0 ≤ r ∧ r + size ≤ n ∧ apart_from M r size ∧ heap_rel h' n (<[r := size]> M)
  | Ok (None, h') => h' = h ∧ ∀ r, 0 ≤ r → r + size ≤ n → ¬ apart_from M r size
  | _ => False
  end.
Proof.
  intros (bl & R & Hc & HM) Hsize. unfold Alloc. pose proof (re_tiles _ _ _ R) as T. pose proof (re_size _ _ _ R) as Hn32.
  destruct (ms_lower_bound (size_of h) size (m_mapSize h)) as [i|] eqn:El.
  - apply ms_lower_bound_Some in El as (Hi & Hle & _). rewrite (re_perm _ _ _ R), (re_free _ _ _ R) in Hi.
    apply (repr_id_split h bl n R) in Hi as (l1 & b & l2 & -> & <- & Fb). assert (b ∈ l1 ++ b :: l2) as Hb by set_solver.
    rewrite (repr_deref _ _ _ R b Hb). cbn [mbind res_bind]. rewrite (repr_sizeof _ _ _ R b Hb) in Hle.
    destruct (tiles_split _ _ _ _ _ T) as (T1 & Sb & T2 & A1 & A2). pose proof (tiles_in _ _ _ _ T Hb) as Ib.
    assert (∀ x, x ∈ l1 ++ b :: l2 → b_free x = false → b_end x ≤ b_pos b ∨ b_end b ≤ b_pos x) as Hapart.
    { intros x [Hx|[->|Hx]%elem_of_cons]%elem_of_app Fx; [left; by apply A1|congruence|right; by apply A2]. }
    assert (M !! b_pos b = None) as HMr.
    { destruct (M !! b_pos b) as [s|] eqn:EM; [|done]. apply HM in EM as (x & Hx & Fx & Px & _).
      pose proof (tiles_in _ _ _ _ T Hx). destruct (Hapart x Hx Fx); lia. }
    assert (apart_from M (b_pos b) size) as HMa.
    { intros q s (x & Hx & Fx & <- & <-)%HM. destruct (Hapart x Hx Fx); lia. }
    assert (∀ x, x ∈ l1 ++ b :: l2 → b_free x = false → b_pos x ≠ b_pos b) as Hpos.
    { intros x Hx Fx. pose proof (tiles_in _ _ _ _ T Hx). destruct (Hapart x Hx Fx); lia. }
    apply coalesced_app in Hc as (C1 & C2 & Ap).
    destruct (Z.eqb_spec (b_size b) size) as [E|E]; cbv [mret res_ret].
    + split_and!; [done|lia|lia|done|]. eexists. split; [by apply to_alloc|]. split.
      * apply coalesced_app. split_and!; [done| |].
        { destruct C2 as [_ C2]. split; [|done]. destruct l2; [done|]. cbn. naive_solver. }
        { intros x y _ [= <-]. cbn. naive_solver. }
      * eapply models_insert; [done| |eexists (mkB (b_id b) (b_e b) false); split_and!; [set_solver|done..]|done].
        intros x. rewrite !elem_of_app, !elem_of_cons. split; [|intros [[Hx Fx]|Hx]; [split; [|done]|tauto]].
        { intros [[Hx|[->|Hx]] Fx]; [tauto| |tauto]. right. split_and!; [done|done|done|]. tauto. }
        { destruct Hx as [Hx|[->|Hx]]; [tauto|congruence|tauto]. }
    + rewrite (u32_small (b_pos b + size)), (u32_small (b_size b - size)) by lia.
      destruct (Alloc_split h l1 b l2 n size R Fb ltac:(lia)) as (h' & E' & R'). cbn zeta in E'. unfold mbind, res_bind. rewrite E'.
      split_and!; [done|lia|lia|done|]. eexists. split; [exact R'|]. split.
      * apply coalesced_app. split_and!; [done| |].
        { destruct C2 as [C3 C2]. cbn. split; [naive_solver|]. split; [|done]. destruct l2; [done|]. rewrite Fb in C3. done. }
        { intros x y _ [= <-]. cbn. naive_solver. }
      * eapply models_insert; [done| |eexists (mkB (h_Next h) (mkEntry (b_pos b) size) false); split_and!; [set_solver|done..]|done].
        intros x. rewrite !elem_of_app, !elem_of_cons. split; [|intros [[Hx Fx]|Hx]; [split; [|done]|tauto]].
        { intros [[Hx|[->|[->|Hx]]] Fx]; [tauto| |done|tauto]. right. split_and!; [done|done|done|]. tauto. }
        { destruct Hx as [Hx|[->|Hx]]; [tauto|congruence|tauto]. }
  - split; [done|]. intros r Hr Hrn Ha. pose proof (ms_lower_bound_None _ _ _ El) as Hsm.
    destruct (tiles_find _ _ _ r T) as (l1 & b & l2 & -> & Hbr); [lia|]. assert (b ∈ l1 ++ b :: l2) as Hb by set_solver.
    destruct (b_free b) eqn:Fb; cycle 1.
    + assert (M !! b_pos b = Some (b_size b)) as EM by (apply HM; by exists b). apply Ha in EM. lia.
    + assert (b_size b < size) as Hbs.
      { rewrite <- (repr_sizeof _ _ _ R b Hb). apply Hsm. rewrite (re_perm _ _ _ R), (re_free _ _ _ R). apply elem_of_ids. by exists b. }
      destruct (tiles_split _ _ _ _ _ T) as (_ & _ & T2 & _ & _). destruct l2 as [|b2 l2]; cbn in T2; [lia|]. destruct T2 as (P2 & S2 & _).
      apply coalesced_app in Hc as (_ & [C2 _] & _). assert (b_free b2 = false) as F2 by (destruct (b_free b2); [by destruct C2|done]).
      assert (M !! b_pos b2 = Some (b_size b2)) as EM by (apply HM; exists b2; split_and!; [set_solver|done..]). apply Ha in EM. lia.
Qed.

Lemma Free_rel h n M ptr : heap_rel h n M →
  match M !! ptr with
  | Some _ => ∃ h', Free h ptr = Ok h' ∧ heap_rel h' n (delete ptr M)
  | None => Free h ptr = Exc
  end.
Proof.
  intros (bl & R & Hc & HM). pose proof (re_tiles _ _ _ R) as T. destruct (M !! ptr) as [s|] eqn:EM.
  - apply HM in EM as (b & Hb & Fb & <- & _). apply list_elem_of_split in Hb as (l1 & l2 & ->).
    destruct (Free_spec h l1 b l2 n R Hc Fb) as (h' & bl' & -> & R' & Hc' & Hx). eexists. split; [done|]. exists bl'. split_and!; [done..|].
    destruct (tiles_split _ _ _ _ _ T) as (_ & Sb & _ & A1 & A2).
    intros q s'. rewrite lookup_delete_Some, (HM q s'). split.
    + intros (Hq & x & [Hxl|[->|Hxl]%elem_of_cons]%elem_of_app & Fx & Px & Sx); [|done|]; exists x; split_and!; try done; apply (Hx x); tauto.
    + intros (x & Hxb & Fx & Px & Sx). destruct (proj1 (Hx x) (conj Hxb Fx)) as [Hxl _]. split.
      * intros <-. destruct Hxl as [Hxl|Hxl]; [specialize (A1 x Hxl)|specialize (A2 x Hxl)]; lia.
      * exists x. split_and!; try done. set_solver.
  - unfold Free. rewrite ms_find_None; [done|]. rewrite (re_alloc _ _ _ R). intros j (x & Hx & Fx & <-)%elem_of_ids.
    rewrite (repr_pos _ _ _ R x Hx). intros Px. assert (M !! ptr = Some (b_size x)) as E by (apply HM; by exists x). congruence.
Qed.

Lemma OnGrow_rel h n n' M : heap_rel h n M → n < n' → n' < 2 ^ 32 → ∃ h', OnGrow h n n' = Ok h' ∧ heap_rel h' n' M.
Proof.
  intros (bl & R & Hc & HM) Hn Hn'. destruct (OnGrow_spec h bl n n' R Hc Hn Hn') as (h' & bl' & -> & R' & Hc' & Hx).
  eexists. split; [done|]. exists bl'. split_and!; [done..|]. intros q s. rewrite (HM q s).
  split; intros (x & Hxb & Fx & P); exists x; (split; [|done]); by apply (Hx x).
Qed.

(** The last allocated block that starts at [ptr] or before. *)
Lemma before_upper_split bl ptr : (∀ x, x ∈ bl → b_free x = false → ptr < b_pos x) ∨
  ∃ l1 b l2, bl = l1 ++ b :: l2 ∧ b_free b = false ∧ b_pos b ≤ ptr ∧ ∀ x, x ∈ l2 → b_free x = false → ptr < b_pos x.
Proof.
  induction bl as [|b bl IH] using rev_ind; [left; by intros x ?%elem_of_nil|].
  destruct (decide (b_free b = false ∧ b_pos b ≤ ptr)) as [[Fb Pb]|Hn].
  - right. exists bl, b, []. split_and!; [done..|]. by intros x ?%elem_of_nil.
  - destruct IH as [IH|(l1 & c & l2 & -> & Fc & Pc & Hc)].
    + left. intros x [Hx| ->%list_elem_of_singleton]%elem_of_app Fx; [by apply IH|]. destruct (decide (b_pos b ≤ ptr)); [tauto|lia].
    + right. exists l1, c, (l2 ++ [b]). split_and!; [by rewrite <- app_assoc|done|done|].
      intros x [Hx| ->%list_elem_of_singleton]%elem_of_app Fx; [by apply Hc|]. destruct (decide (b_pos b ≤ ptr)); [tauto|lia].
Qed.

Lemma Test_rel h n M ptr size : heap_rel h n M → 0 ≤ ptr < 2 ^ 32 → 0 ≤ size < 2 ^ 32 →
  (Test h ptr size = Ok () ∧ ∃ q s, M !! q = Some s ∧ q ≤ ptr ∧ ptr + size ≤ q + s) ∨
  (Test h ptr size = Exc ∧ ¬ ∃ q s, M !! q = Some s ∧ q ≤ ptr ∧ ptr + size ≤ q + s).
Proof.
  intros (bl & R & Hc & HM) Hp Hs. pose proof (re_tiles _ _ _ R) as T. pose proof (re_size _ _ _ R) as Hn.
  unfold Test. rewrite (re_alloc _ _ _ R). destruct (before_upper_split bl ptr) as [Hall|(l1 & b & l2 & -> & Fb & Pb & Hl2)].
  - right. rewrite ms_before_upper_None; cycle 1.
    { intros j (x & Hx & Fx & <-)%elem_of_ids. rewrite (repr_pos _ _ _ R x Hx). by apply Hall. }
    split; [done|]. intros (q & s & (x & Hx & Fx & <- & <-)%HM & Hq & _). specialize (Hall x Hx Fx). lia.
  - assert (b ∈ l1 ++ b :: l2) as Hb by set_solver. destruct (tiles_split _ _ _ _ _ T) as (_ & Sb & _ & A1 & A2).
    pose proof (tiles_in _ _ _ _ T Hb) as Ib. rewrite ids_app, ids_cons, decide_True by done.
    rewrite ms_before_upper_split; cycle 1.
    { intros j (x & Hx & Fx & <-)%elem_of_ids. rewrite (repr_pos _ _ _ R) by set_solver. specialize (A1 x Hx). lia. }
    { by rewrite (repr_pos _ _ _ R). }
    { intros j (x & Hx & Fx & <-)%elem_of_ids. rewrite (repr_pos _ _ _ R) by set_solver. by apply Hl2. }
    rewrite (repr_deref _ _ _ R b Hb). cbn [mbind res_bind]. rewrite (u32_small (b_end b)) by lia.
    assert (M !! b_pos b = Some (b_size b)) as EM by (apply HM; by exists b).
    destruct (decide (ptr + size ≤ b_end b)) as [Hle|Hgt].
    + left. rewrite u32_small by lia. rewrite !(proj2 (Z.leb_le _ _)) by lia. split; [done|]. by exists (b_pos b), (b_size b).
    + right. assert ((size <=? u32 (ptr + size)) && (u32 (ptr + size) <=? b_end b) = false) as ->.
      { apply andb_false_iff. destruct (decide (ptr + size < 2 ^ 32)); [right; rewrite u32_small by lia; lia|left].
        unfold u32. rewrite <- (Z.mod_add (ptr + size) (-1)) by lia. rewrite Z.mod_small by lia. lia. }
      split; [done|]. intros (q & s & (x & Hx & Fx & <- & <-)%HM & Hq & Hqs). apply elem_of_app in Hx as [Hx|[->|Hx]%elem_of_cons].
      * specialize (A1 x Hx). lia.
      * lia.
      * specialize (Hl2 x Hx Fx). lia.
Qed.

(** The room at the end, when nothing fits: all of it is free, and less than asked for. *)
Lemma get_UnusedAtEnd_rel h n M : heap_rel h n M →
  ∃ r, get_UnusedAtEnd h n = Ok r ∧ 0 ≤ r ≤ n ∧ ∀ q s, M !! q = Some s → q + s ≤ n - r.
Proof.
  intros (bl & R & Hc & HM). pose proof (re_tiles _ _ _ R) as T. pose proof (re_size _ _ _ R) as Hn. pose proof (tiles_le _ _ _ T) as H0.
  assert (∀ q s, M !! q = Some s → q + s ≤ n) as Hin by (intros q s (x & Hx & _ & <- & <-)%HM; by apply (tiles_in _ _ _ _ T)).
  unfold get_UnusedAtEnd. destruct (last (m_mapFree h)) as [i|] eqn:El; [|exists 0; split_and!; [done|lia|lia|]; intros q s Hq; specialize (Hin q s Hq); lia].
  destruct (last_free _ _ _ _ R Hc El) as (l1 & b & k & -> & <- & Fb & Hk & He & Hend).
  assert (b ∈ l1 ++ b :: k) as Hb by set_solver. pose proof (tiles_in _ _ _ _ T Hb) as Ib.
  rewrite (repr_deref _ _ _ R b Hb). cbn [mbind res_bind]. rewrite u32_small by lia. eexists. split; [done|].
  destruct (Z.eqb_spec (b_end b) n) as [E|E].
  - rewrite (proj1 Hend E) in *. split; [lia|]. intros q s (x & Hx & Fx & <- & <-)%HM.
    destruct (tiles_split _ _ _ _ _ T) as (_ & _ & _ & A1 & _). apply elem_of_app in Hx as [Hx| ->%list_elem_of_singleton]; [|congruence].
    specialize (A1 x Hx). lia.
  - split; [lia|]. intros q s Hq. specialize (Hin q s Hq). lia.
Qed.
