(* ===== verification/BvmProcessor.v ===== *)
(** * bvm/bvm2.cpp: ProcessorContract

    The processor of a contract: calls between contracts ([CallFar], [OnRetFar]), the header of
    the code ([ParseMod]), the charge, and the functions of the host that work on the memory of
    the contract: copies and comparisons, strings, the alias stack, the heap, and the
    variables.  The buffer of the code is the variable of the contract itself, where [LoadVar]
    finds it, until the contract is returned to from a call; then it is the copy [m_Body]. *)

From stdpp Require Import base list numbers option gmap.
From S2P Require Import Prelude WasmReader WasmProcessor BvmHeap.
Local Open Scope Z_scope.

(** ** Limits and costs *)

Definition FarCallDepth : Z := 32.
Definition VarKeySize : Z := 256.
Definition VarSize_0 : Z := 0x2000.
Definition VarSize_4 : Z := 0x100000.
Definition StackSize : Z := 0x10000.
Definition HeapSize : Z := 0x100000.

Definition BlockCharge : Z := 100 * 1000 * 1000.
Definition ChargeFor (nMaxOps : Z) : Z := (BlockCharge + nMaxOps - 1) / nMaxOps.
Definition Cost_Cycle : Z := ChargeFor (20 * 1000 * 1000).
Definition Cost_MemOpPerByte : Z := ChargeFor (50 * 1000 * 1000).
Definition Cost_HeapOp : Z := ChargeFor (1000 * 1000).
Definition Cost_LoadVar : Z := ChargeFor (20 * 1000).
Definition Cost_LoadVarPerByte : Z := ChargeFor (2 * 1000 * 1000).
Definition Cost_SaveVar : Z := ChargeFor (5 * 1000).
Definition Cost_SaveVarPerByte : Z := ChargeFor (1000 * 1000).
Definition Cost_CallFar : Z := ChargeFor (10 * 1000).
Definition LoadVar_For (nValSize : Z) : Z := u32 (Cost_LoadVar + Cost_LoadVarPerByte * nValSize).
Definition SaveVar_For (nValSize : Z) : Z := u32 (Cost_SaveVar + Cost_SaveVarPerByte * nValSize).

(** ** State *)

Record Frame := mkFrame {
  m_Cid : list Z;
  m_Body : list Z;
  m_FarRetAddr : Z;
  m_StackPosMin : Z;
  m_StackBytesMax : Z;
  m_StackBytesRet : Z;
  m_Local : list (Z * Z);       (* m_CallerIp and m_Addr, the last call first *)
  m_Missing : Z;
}.

(** Where [m_Code] points to: the variable of a contract, or the body in the last frame. *)
Inductive CodeAt := InVar (cid : list Z) | InBody.

Record Contract := mkContract {
  m_FarCalls : list Frame;      (* the last call first *)
  m_SaveLocal : bool;
  m_Vars : gmap (list Z) (list Z);
  m_CodeAt : CodeAt;
  m_Charge : Z;
  m_Heap : Heap.t;
}.

Definition set_Body (b : list Z) (f : Frame) : Frame :=
  mkFrame (m_Cid f) b (m_FarRetAddr f) (m_StackPosMin f) (m_StackBytesMax f) (m_StackBytesRet f) (m_Local f) (m_Missing f).
Definition set_Cid (cid : list Z) (f : Frame) : Frame :=
  mkFrame cid (m_Body f) (m_FarRetAddr f) (m_StackPosMin f) (m_StackBytesMax f) (m_StackBytesRet f) (m_Local f) (m_Missing f).
Definition set_Local (l : list (Z * Z)) (n : Z) (f : Frame) : Frame :=
  mkFrame (m_Cid f) (m_Body f) (m_FarRetAddr f) (m_StackPosMin f) (m_StackBytesMax f) (m_StackBytesRet f) l n.

Definition set_FarCalls (fs : list Frame) (x : Contract) : Contract :=
  mkContract fs (m_SaveLocal x) (m_Vars x) (m_CodeAt x) (m_Charge x) (m_Heap x).
Definition set_Vars (v : gmap (list Z) (list Z)) (x : Contract) : Contract :=
  mkContract (m_FarCalls x) (m_SaveLocal x) v (m_CodeAt x) (m_Charge x) (m_Heap x).
Definition set_CodeAt (a : CodeAt) (x : Contract) : Contract :=
  mkContract (m_FarCalls x) (m_SaveLocal x) (m_Vars x) a (m_Charge x) (m_Heap x).
Definition set_Charge (n : Z) (x : Contract) : Contract :=
  mkContract (m_FarCalls x) (m_SaveLocal x) (m_Vars x) (m_CodeAt x) n (m_Heap x).
Definition set_Heap (h : Heap.t) (x : Contract) : Contract :=
  mkContract (m_FarCalls x) (m_SaveLocal x) (m_Vars x) (m_CodeAt x) (m_Charge x) h.

(** [LoadVar(key)]: a variable that does not exist is empty. *)
Definition load (x : Contract) (key : list Z) : list Z := default [] (m_Vars x !! key).

#[export] Instance Contract_code : CodeMem Contract := {
  get_Code x :=
    match m_CodeAt x with
    | InVar cid => load x cid
    | InBody => match m_FarCalls x with f :: _ => m_Body f | [] => [] end
    end;
  set_Code c x :=
    match m_CodeAt x with
    | InVar cid => match m_Vars x !! cid with Some _ => set_Vars (<[cid := c]> (m_Vars x)) x | None => x end
    | InBody => match m_FarCalls x with f :: fs => set_FarCalls (set_Body c f :: fs) x | [] => x end
    end;
}.

#[export] Instance Contract_code_ok : CodeMemOk Contract.
Proof.
  split.
  - intros x. destruct x as [fs sl v [cid|] ch hp]; cbn; unfold load; cbn.
    + destruct (v !! cid) as [c|] eqn:E; [|done]. cbn. unfold set_Vars. cbn. by rewrite insert_id.
    + destruct fs as [|[] fs]; done.
  - intros c x. destruct x as [fs sl v [cid|] ch hp]; cbn; unfold load; cbn.
    + destruct (v !! cid) as [c'|] eqn:E; cbn; [by rewrite lookup_insert_eq|]. rewrite E. cbn. by intros ->%nil_length_inv.
    + destruct fs as [|[] fs]; cbn; [by intros ->%nil_length_inv|done].
  - intros c c' x. destruct x as [fs sl v [cid|] ch hp]; cbn.
    + destruct (v !! cid) as [c''|] eqn:E; cbn; [|by rewrite E]. rewrite lookup_insert_eq. unfold set_Vars. cbn. by rewrite insert_insert_eq.
    + destruct fs as [|[] fs]; done.
Qed.

Notation CM := (PM Contract).

Definition gets_x {A} (f : Contract → A) : CM A := gets (λ p, f (p_ext p)).
Definition upd_x (f : Contract → Contract) : CM () := upd (λ p, set_ext (f (p_ext p)) p).

Definition DischargeUnits (n : Z) : CM () :=
  c ← gets_x m_Charge;
  test (n <=? c);; upd_x (set_Charge (c - n)).

Definition DischargeMemOp (size : Z) : CM () := DischargeUnits (u32 (size * Cost_MemOpPerByte)).

(** ** The header of the code *)

Definition s_Version : Z := 2.
Definition s_MethodsMin : Z := 2.
Definition s_MethodsMax : Z := 2 ^ 28.
Definition sizeof_Header : Z := 24.

(** The word at an offset of the header. *)
Definition hdr_at (c : list Z) (off : nat) : Z := of_le (take 4 (drop off c)).

Definition set_mod (d : Z * Z) (t0 d0 : Z) (p : Processor Contract) : Processor Contract :=
  mkProcessor (p_ext p) d t0 d0 (m_LinearMem p) (m_Ip p) (m_Mode p) (m_ModeTriggered p) (m_Stack p).

(** Returns [m_NumMethods]. *)
Definition ParseMod : CM Z :=
  c ← gets m_Code;
  test (sizeof_Header <=? #c);;
  test (hdr_at c 0 =? s_Version);;
  let nMethods := hdr_at c 4 in
  test (u32 (nMethods - s_MethodsMin) <=? s_MethodsMax - s_MethodsMin);;
  let nHdrSize := sizeof_Header + 4 * u32 (nMethods - s_MethodsMin) in
  test (nHdrSize <=? #c);;
  upd (set_mod (nHdrSize, #c - nHdrSize) (hdr_at c 12) (hdr_at c 8));;
  test (hdr_at c 12 <=? #c);;
  mret nMethods.

(** ** Calls *)

Definition s_MaxEntries : nat := 256.

Definition OnCall_c (nAddr : Z) : CM () :=
  x ← gets p_ext;
  (if m_SaveLocal x then
     match m_FarCalls x with
     | [] => lift UB
     | f :: fs =>
       ip ← gets m_Ip;
       upd_x (set_FarCalls
         ((if (length (m_Local f) <? s_MaxEntries)%nat
           then set_Local ((match m_Local f with [] => m_FarRetAddr f | _ => ip end, nAddr) :: m_Local f) (m_Missing f) f
           else set_Local (m_Local f) (u32 (m_Missing f + 1)) f) :: fs))
     end
   else mret ());;
  Jmp nAddr.

(** [get_Ip()] is 0 before the first call, when there is no code. *)
Definition CallFar (cid : list Z) (iMethod pArgs : Z) (bInheritContext : bool) : CM () :=
  DischargeUnits Cost_CallFar;;
  nRetAddr ← gets m_Ip;
  fs ← gets_x m_FarCalls;
  test (#fs <? FarCallDepth);;
  s ← gets m_Stack;
  body ← gets_x (λ x, load x cid);
  upd_x (λ x, set_CodeAt (InVar cid)
    (set_FarCalls (mkFrame cid body nRetAddr (m_PosMin s) (m_BytesMax s) (m_BytesCurrent s) [] 0 :: fs) x));;
  on_stack (set_PosMin (m_Pos s));;
  nMethods ← ParseMod;
  test (iMethod <? nMethods);;
  (if bInheritContext then
     match fs with
     | [] => lift UB
     | pPrev :: _ => upd_x (λ x, match m_FarCalls x with f :: fs => set_FarCalls (set_Cid (m_Cid pPrev) f :: fs) x | [] => x end)
     end
   else mret ());;
  Push 32 pArgs;;
  Push 32 0;;
  c ← gets m_Code;
  a ← lift (access (rdn c (16 + 4 * iMethod) 4));
  OnCall_c (of_le a).

Definition OnRetFar : CM () :=
  s ← gets m_Stack;
  test (m_Pos s =? m_PosMin s);;
  fs ← gets_x m_FarCalls;
  match fs with
  | [] => lift UB
  | x :: fs =>
    test (m_BytesCurrent s =? m_StackBytesRet x);;
    on_stack (set_PosMin (m_StackPosMin x));;
    on_stack (set_BytesMax (m_StackBytesMax x));;
    upd_x (set_FarCalls fs);;
    match fs with
    | [] => mret ()
    | _ =>
      upd_x (set_CodeAt InBody);;
      ParseMod;;
      Jmp (m_FarRetAddr x)
    end
  end.

Definition OnRet_c (nRetAddr : Z) : CM () :=
  fs ← gets_x m_FarCalls;
  match fs with
  | [] => lift UB
  | x :: fs =>
    upd_x (set_FarCalls
      ((if negb (m_Missing x =? 0) then set_Local (m_Local x) (m_Missing x - 1) x
        else set_Local (tail (m_Local x)) (m_Missing x) x) :: fs));;
    if negb (nRetAddr =? 0) then Jmp nRetAddr else OnRetFar
  end.

(** ** Memory functions

    The parameters are popped from the last to the first; a result is pushed. *)

Definition PopU8 : CM Z := x ← Pop 32; mret (u8 x).

Definition Method_Memcpy : CM () :=
  size ← Pop 32; pSrc ← Pop 32; pDst ← Pop 32;
  d ← get_AddrEx pDst size;
  s ← get_AddrEx pSrc size;
  DischargeMemOp size;;
  l ← rd_mem s size;
  wr_mem d l;;
  Push 32 pDst.

Definition Method_Memset : CM () :=
  size ← Pop 32; val ← PopU8; pDst ← Pop 32;
  d ← get_AddrEx pDst size;
  DischargeMemOp size;;
  wr_mem d (replicate (Z.to_nat size) val);;
  Push 32 pDst.

(** The sign of the result is all that [memcmp] promises. *)
Definition Method_Memcmp : CM () :=
  size ← Pop 32; p2 ← Pop 32; p1 ← Pop 32;
  a ← get_AddrEx p1 size;
  b ← get_AddrEx p2 size;
  DischargeMemOp size;;
  la ← rd_mem a size;
  lb ← rd_mem b size;
  Push 32 (u32 (memcmp la lb)).

Definition Method_Memis0 : CM () :=
  size ← Pop 32; p ← Pop 32;
  a ← get_AddrEx p size;
  DischargeMemOp size;;
  l ← rd_mem a size;
  Push 32 (b2z (memis0 l)).

(** The characters up to the first zero. *)
Fixpoint until0 (l : list Z) : option (list Z) :=
  match l with [] => None | x :: l => if x =? 0 then Some [] else cons x <$> until0 l end.

Definition RealizeStr (sz : Z) : CM (list Z) :=
  '(a, n) ← get_AddrExVar sz;
  l ← rd_mem (Some a) n;
  match until0 l with
  | Some str => DischargeMemOp (u32 (#str + 1));; mret str
  | None => lift Exc
  end.

Definition Method_Strlen : CM () := sz ← Pop 32; s ← RealizeStr sz; Push 32 #s.

Definition Method_Strcmp : CM () :=
  sz2 ← Pop 32; sz1 ← Pop 32;
  s1 ← RealizeStr sz1; s2 ← RealizeStr sz2;
  Push 32 (u32 (memcmp (s1 ++ [0]) (s2 ++ [0]))).

Definition Method_StackAlloc : CM () := size ← Pop 32; AliasAlloc size;; sp ← get_AlasSp; Push 32 sp.
Definition Method_StackFree : CM () := size ← Pop 32; AliasFree size.

(** ** Heap *)

Definition on_heap {A} (f : Heap.t → res (A * Heap.t)) : CM A :=
  h ← gets_x m_Heap; '(a, h) ← lift (f h); upd_x (set_Heap h);; mret a.

(** [m_vHeap.resize(n, 0)]; the linear memory is all of [m_vHeap]. *)
Definition HeapReserveStrict (n : Z) : CM () :=
  m ← gets m_LinearMem;
  upd (set_mem (take (Z.to_nat n) (m ++ zeros (Z.to_nat n - length m))));;
  on_heap (λ h, h ← Heap.OnGrow h #m n; mret ((), h)).

Definition HeapAllocEx (size : Z) : CM (option Z) :=
  DischargeUnits Cost_HeapOp;;
  DischargeMemOp size;;
  r ← on_heap (λ h, Heap.Alloc h size);
  match r with
  | Some r => mret (Some r)
  | None =>
    nSizeOld ← gets (λ p, #(m_LinearMem p));
    nReserve ← on_heap (λ h, n ← Heap.get_UnusedAtEnd h nSizeOld; mret (n, h));
    let nSizeNew := u32 (nSizeOld + size - nReserve) in
    let nHeapMax := HeapSize in
    if nHeapMax <? nSizeNew then mret None
    else
      let nSizeNew := Z.max nSizeNew 0x1000 in
      let nSizeNew := Z.max nSizeNew (u32 (nSizeOld * 2)) in
      let nSizeNew := Z.min nSizeNew nHeapMax in
      HeapReserveStrict nSizeNew;;
      on_heap (λ h, Heap.Alloc h size)
  end.

Definition HeapFreeEx (ptr : Z) : CM () :=
  DischargeUnits Cost_HeapOp;;
  on_heap (λ h, h ← Heap.Free h ptr; mret ((), h)).

Definition Method_Heap_Alloc : CM () :=
  size ← Pop 32;
  r ← HeapAllocEx (AlignUp size);
  Push 32 (match r with Some val => Z.lor MemoryType_Global val | None => 0 end).

Definition Method_Heap_Free : CM () := pPtr ← Pop 32; HeapFreeEx (Z.lxor pPtr MemoryType_Global).

(** ** Variables *)

Section Host.
Context (IsPastHF4 : bool) (OnHost : Z → CM ()).

Definition Tag_Internal : Z := 0.
Definition Tag_InternalStealth : Z := 8.

Definition SetVarKeyFromShader (nTag : Z) (key : list Z) (bW : bool) : CM (list Z) :=
  test (#key <=? VarKeySize);;
  fs ← gets_x m_FarCalls;
  match fs with
  | [] => lift UB
  | f :: _ =>
    test (negb bW || (nTag =? Tag_Internal) || (nTag =? Tag_InternalStealth));;
    mret (m_Cid f ++ [nTag] ++ key)
  end.

Definition Method_LoadVar : CM () :=
  nType ← PopU8; nVal ← Pop 32; pVal ← Pop 32; nKey ← Pop 32; pKey ← Pop 32;
  k ← get_AddrEx pKey nKey;
  v ← get_AddrEx pVal nVal;
  key ← rd_mem k nKey;
  vk ← SetVarKeyFromShader nType key false;
  res ← gets_x (λ x, load x vk);
  let n := Z.min nVal #res in
  (if n =? 0 then mret () else wr_mem v (take (Z.to_nat n) res));;
  DischargeUnits (LoadVar_For n);;
  Push 32 #res.

Definition Method_SaveVar : CM () :=
  nType ← PopU8; nVal ← Pop 32; pVal ← Pop 32; nKey ← Pop 32; pKey ← Pop 32;
  DischargeUnits (SaveVar_For nVal);;
  k ← get_AddrEx pKey nKey;
  v ← get_AddrEx pVal nVal;
  test (nVal <=? (if IsPastHF4 then VarSize_4 else VarSize_0));;
  key ← rd_mem k nKey;
  vk ← SetVarKeyFromShader nType key true;
  val ← rd_mem v nVal;
  nOldSize ← gets_x (λ x, #(load x vk));
  upd_x (λ x, set_Vars (match val with [] => delete vk (m_Vars x) | _ => <[vk := val]> (m_Vars x) end) x);;
  Push 32 nOldSize.

(** ** Calls between contracts *)

Definition Method_CallFar : CM () :=
  bInheritContext ← PopU8; nArgs ← Pop 32; pArgs ← Pop 32; iMethod ← Pop 32; cid ← Pop 32;
  let bInheritContext := negb (bInheritContext =? 0) in
  s ← gets m_Stack;
  sp ← get_AlasSp;
  '(pArgs, nCalleeStackMax) ←
    (if bInheritContext then mret (pArgs, m_BytesCurrent s)
     else
       test (2 <=? iMethod);;
       if negb (nArgs =? 0) then
         test (Z.land MemoryType_Mask pArgs =? MemoryType_Stack);;
         '(_, nSize) ← get_AddrExVar pArgs;
         test (sp <=? pArgs);;
         mret (pArgs, u32 (Z.land pArgs (u32 (Z.lnot MemoryType_Stack)) + Z.min nArgs nSize))
       else mret (sp, m_BytesCurrent s));
  nDepth ← gets_x (λ x, #(m_FarCalls x));
  a ← get_AddrEx cid 32;
  id ← rd_mem a 32;
  CallFar id iMethod pArgs bInheritContext;;
  n ← gets_x (λ x, #(m_FarCalls x));
  if negb bInheritContext && (nDepth <? n) then on_stack (set_BytesMax nCalleeStackMax) else mret ().

Definition Method_get_CallDepth : CM () := n ← gets_x (λ x, #(m_FarCalls x)); Push 32 n.

Definition Method_get_CallerCid : CM () :=
  cid ← Pop 32; iCaller ← Pop 32;
  a ← get_AddrEx cid 32;
  fs ← gets_x m_FarCalls;
  match fs !! Z.to_nat iCaller with
  | Some f => wr_mem a (m_Cid f)
  | None => lift Exc
  end.

Definition InvokeExt_c (nBinding : Z) : CM () :=
  match nBinding with
  | 0x10 => Method_Memcpy
  | 0x11 => Method_Memset
  | 0x12 => Method_Memcmp
  | 0x13 => Method_Memis0
  | 0x14 => Method_Strlen
  | 0x15 => Method_Strcmp
  | 0x18 => Method_StackAlloc
  | 0x19 => Method_StackFree
  | 0x1a => Method_Heap_Alloc
  | 0x1b => Method_Heap_Free
  | 0x20 => Method_LoadVar
  | 0x21 => Method_SaveVar
  | 0x23 => Method_CallFar
  | 0x24 => Method_get_CallDepth
  | 0x25 => Method_get_CallerCid
  | 0x28 => lift Exc
  | _ => OnHost nBinding
  end.

#[local] Instance Contract_virtuals : Virtuals Contract := {
  InvokeExt := InvokeExt_c;
  OnCall := OnCall_c;
  OnRet := OnRet_c;
}.

(** ** A call of the node

    [InitStackPlus], and the loop of [Invoke].  A cycle costs at least one unit, so the charge
    bounds the number of cycles. *)

Definition InitStackPlus (m_vStack : list Z) (vars : gmap (list Z) (list Z)) (mode : Mode) (charge nStackBytes : Z) (bSaveLocal : bool)
    : Processor Contract :=
  let n := u32 (StackSize + nStackBytes) in
  let words := Z.to_nat (4 * ((n + 3) / 4)) in
  mkProcessor (mkContract [] bSaveLocal vars InBody charge Heap.empty) (0, 0) 0 0 [] 0 mode false
    (mkStack (take words (m_vStack ++ zeros (words - length m_vStack))) 0 0 n n).

Definition IsDone (p : Processor Contract) : bool := match m_FarCalls (p_ext p) with [] => true | _ => false end.

(** A cycle. *)
Definition cycle : CM () := DischargeUnits Cost_Cycle;; RunOnce.

(** The loop, [fuel] cycles of it; whether it ended. *)
Fixpoint run_loop (fuel : nat) : CM bool :=
  p ← gets id;
  if IsDone p then mret true
  else
    match fuel with
    | O => mret false
    | S fuel => cycle;; run_loop fuel
    end.

Definition Invoke_call (cid args : list Z) (iMethod : Z) : CM () := PushAlias args;; sp ← get_AlasSp; CallFar cid iMethod sp false.

Definition Invoke_run (cid args : list Z) (iMethod : Z) : CM bool :=
  Invoke_call cid args iMethod;;
  c ← gets_x m_Charge;
  run_loop (S (Z.to_nat c)).

End Host.
