(* ===== verification/BvmSafety.v ===== *)
(** * Contracts stay inside of their memory and do not touch their callers

    The invariant of [ProcessorContract], kept by every instruction and by the functions of the
    host, and what a step does to the stack and to the frames of the calls.  A called contract
    cannot change the operand stack of its caller, nor the caller's alias stack beyond the
    arguments; when it returns, the caller's stack pointers are as before. *)

From stdpp Require Import base list numbers option gmap.
From S2P Require Import Prelude WasmReader WasmProcessor WasmSafety BvmHeap BvmHeapSpec BvmProcessor.
Local Open Scope Z_scope.

#[local] Ltac Zify.zify_post_hook ::= Z.to_euclidean_division_equations.

Implicit Types p : Processor Contract.

(** ** The invariant *)

Definition var_ok (c : list Z) : Prop := bytes c ∧ #c < 2 ^ 32.
Definition vars_ok (v : gmap (list Z) (list Z)) : Prop := ∀ k c, v !! k = Some c → var_ok c.

(** The frames keep the limits of the callers, each within those of its own caller. *)
Fixpoint frames_ok (nPosMin nBytesMax nSize : Z) (fs : list Frame) : Prop :=
  match fs with
  | [] => True
  | f :: fs =>
    0 ≤ m_StackPosMin f ≤ nPosMin ∧ nBytesMax ≤ m_StackBytesMax f ≤ nSize ∧
    4 * nPosMin ≤ m_StackBytesRet f ≤ m_StackBytesMax f ∧
    0 ≤ m_FarRetAddr f ∧ #(m_Cid f) = 32 ∧ bytes (m_Cid f) ∧ var_ok (m_Body f) ∧
    frames_ok (m_StackPosMin f) (m_StackBytesMax f) nSize fs
  end.

Definition code_at_ok (x : Contract) : Prop := match m_CodeAt x with InVar cid => #cid = 32 | InBody => True end.

Record xinv p : Prop := {
  xi_frames : frames_ok (m_PosMin (m_Stack p)) (m_BytesMax (m_Stack p)) #(m_pPtr (m_Stack p)) (m_FarCalls (p_ext p));
  xi_vars : vars_ok (m_Vars (p_ext p));
  xi_charge : 0 ≤ m_Charge (p_ext p);
  xi_heap : ∃ M, heap_rel (m_Heap (p_ext p)) #(m_LinearMem p) M;
  xi_limit : #(m_LinearMem p) ≤ HeapSize;
  xi_code : code_at_ok (p_ext p);
}.

Definition cpinv p : Prop := pinv p ∧ xinv p.

(** What a frame keeps of the caller. *)
Definition fkey (f : Frame) : list Z * Z * Z * Z * Z :=
  (m_Cid f, m_FarRetAddr f, m_StackPosMin f, m_StackBytesMax f, m_StackBytesRet f).
Definition fkeys p : list (list Z * Z * Z * Z * Z) := fkey <$> m_FarCalls (p_ext p).

(** A step inside of a contract. *)
Definition cgood p p' : Prop :=
  cpinv p' ∧ sframe (m_Stack p) (m_Stack p') ∧ fkeys p' = fkeys p ∧ m_Charge (p_ext p') ≤ m_Charge (p_ext p).

Lemma cgood_refl p : cpinv p → cgood p p.
Proof. done. Qed.

Lemma cgood_trans p1 p2 p3 : cgood p1 p2 → cgood p2 p3 → cgood p1 p3.
Proof. intros (_ & S1 & F1 & C1) (I2 & S2 & F2 & C2). split_and!; [done|by etrans|congruence|lia]. Qed.

Lemma cgood_inv p p' : cgood p p' → cpinv p'.
Proof. by intros []. Qed.

(** Frames with the same keys: only bodies and the lists for debugging may differ. *)
Lemma frames_ok_keys fs fs' a b n : fkey <$> fs' = fkey <$> fs → Forall (λ f, var_ok (m_Body f)) fs' →
  frames_ok a b n fs → frames_ok a b n fs'.
Proof.
  revert fs' a b. induction fs as [|f fs IH]; intros [|f' fs'] a b Ek Hb; try done. cbn in Ek.
  injection Ek as K1 K2 K3 K4 K5 Ek. apply Forall_cons in Hb as [Hb Hbs]. cbn. rewrite K1, K2, K3, K4, K5.
  intros (H1 & H2 & H3 & H4 & H5 & H6 & _ & H8). split_and!; try done; try lia. by apply IH.
Qed.

Lemma frames_ok_bodies a b n fs : frames_ok a b n fs → Forall (λ f, var_ok (m_Body f)) fs.
Proof. revert a b. induction fs as [|f fs IH]; intros a b; [constructor|]. cbn. intros H. constructor; [tauto|]. eapply IH. apply H. Qed.

(** An instruction inside of the contract: the code is all it may change of the derived class. *)
Lemma good_cgood p p' : xinv p → good p p' → cgood p p'.
Proof.
  intros [X1 X2 X3 X4 X5 X6] [Hi Hf]. pose proof Hf as [Hs _ Hm _ (c & Ee & Lc)]. pose proof Hi as [_ [Cb Csz _ _ _ _ _]].
  assert (m_Code p' = c) as Ec by (unfold m_Code; rewrite Ee; by apply get_set_Code). rewrite Ec in Cb, Csz.
  assert (fkeys p' = fkeys p) as Ek.
  { unfold fkeys. rewrite Ee. destruct (p_ext p) as [fs sl v [cid|] ch hp]; cbn; [by destruct (v !! cid)|by destruct fs as [|[] fs]]. }
  assert (m_Charge (p_ext p') = m_Charge (p_ext p)) as Eh.
  { rewrite Ee. destruct (p_ext p) as [fs sl v [cid|] ch hp]; cbn; [by destruct (v !! cid)|by destruct fs as [|[] fs]]. }
  split_and!; [|done|done|lia]. split; [done|]. pose proof (sf_min _ _ Hs) as E1. pose proof (sf_max _ _ Hs) as E2. pose proof (sf_len _ _ Hs) as E3.
  split.
  - rewrite E1, E2, E3. eapply frames_ok_keys; [exact Ek| |exact X1]. apply frames_ok_bodies in X1.
    rewrite Ee. destruct (p_ext p) as [fs sl v [cid|] ch hp]; cbn; [by destruct (v !! cid)|].
    destruct fs as [|[] fs]; [done|]. cbn in *. inversion X1; subst. by constructor.
  - rewrite Ee. destruct (p_ext p) as [fs sl v [cid|] ch hp]; cbn; [|by destruct fs as [|[] fs]].
    destruct (v !! cid) eqn:Ev; [|done]. cbn. intros k c' [[<- <-]|[_ Hk]]%lookup_insert_Some; [done|by eapply X2].
  - rewrite Ee. destruct (p_ext p) as [fs sl v [cid|] ch hp]; cbn; [by destruct (v !! cid)|by destruct fs as [|[] fs]].
  - destruct X4 as [M HM]. exists M. rewrite Hm. replace (m_Heap (p_ext p')) with (m_Heap (p_ext p)); [done|].
    rewrite Ee. destruct (p_ext p) as [fs sl v [cid|] ch hp]; cbn; [by destruct (v !! cid)|by destruct fs as [|[] fs]].
  - by rewrite Hm.
  - rewrite Ee. destruct (p_ext p) as [fs sl v [cid|] ch hp]; cbn; [by destruct (v !! cid)|by destruct fs as [|[] fs]].
Qed.

(** The code of a contract is one of its variables or the body of the last frame. *)
Lemma code_ok p : xinv p → var_ok (m_Code p).
Proof.
  intros [X1 X2 _ _ _ _]. unfold m_Code. cbn. destruct (p_ext p) as [fs sl v [cid|] ch hp]; cbn in *.
  - unfold load. cbn. destruct (v !! cid) eqn:Ev; cbn; [by eapply X2|]. split; [apply bytes_nil|done].
  - destruct fs as [|f fs]; [by split; [apply bytes_nil|]|]. apply frames_ok_bodies in X1. by inversion X1.
Qed.

(** ** Rules for the methods *)

Section rules.
Context (U : Prop).

Lemma cwp_Pop p (Q : Z → Processor Contract → Prop) : cpinv p →
  (∀ x p', cgood p p' → 0 ≤ x < 2 ^ 32 → p' = set_stack (set_Pos (m_Pos (m_Stack p')) (m_Stack p)) p → m_Pos (m_Stack p') = m_Pos (m_Stack p) - 1 → Q x p') →
  wp U (Pop 32) p Q.
Proof.
  intros [Hp Hx] HQ. unfold Pop. change (32 <=? 32) with true. cbv iota. apply wp_Pop1; [done|].
  intros Hlt p' Hg x Hr. apply HQ; [by apply good_cgood|done|done|]. cbn. lia.
Qed.

Lemma cwp_Push x p (Q : () → Processor Contract → Prop) : cpinv p → (∀ p', cgood p p' → Q () p') → wp U (Push 32 x) p Q.
Proof. intros [Hp Hx] HQ. apply wp_Push; [done|]. intros p' Hg. apply HQ. by apply good_cgood. Qed.

Lemma cwp_wr_mem a data p (Q : () → Processor Contract → Prop) : cpinv p → ptr_ok p a #data → bytes data →
  (∀ p', cgood p p' → Q () p') → wp U (wr_mem a data) p Q.
Proof. intros [Hp Hx] Ha Hd HQ. apply wp_wr_mem; [done..|]. intros p' Hg _ _. apply HQ. by apply good_cgood. Qed.

Lemma cwp_Jmp ip p (Q : () → Processor Contract → Prop) : cpinv p → 0 ≤ ip → (∀ p', cgood p p' → m_Stack p' = m_Stack p → Q () p') → wp U (Jmp ip) p Q.
Proof. intros [Hp Hx] Hip HQ. apply wp_Jmp; [done..|]. intros p' Hg Es. apply HQ; [|done]. by apply good_cgood. Qed.

(** A change of the derived class that keeps frames and code. *)
Lemma set_ext_cgood p x : cpinv p → fkey <$> m_FarCalls x = fkeys p → Forall (λ f, var_ok (m_Body f)) (m_FarCalls x) →
  vars_ok (m_Vars x) → 0 ≤ m_Charge x ≤ m_Charge (p_ext p) → (∃ M, heap_rel (m_Heap x) #(m_LinearMem p) M) → code_at_ok x → length (get_Code x) = length (m_Code p) →
  cgood p (set_ext x p).
Proof.
  intros [[Hs [C1 C2 C3 C4 C5 C6 C7]] [X1 X2 X3 X4 X5 X6]] Hk Hb Hv Hc Hh Ha Hl.
  assert (xinv (set_ext x p)) as Hx.
  { split; cbn; try done; [by eapply frames_ok_keys|lia]. }
  pose proof (code_ok _ Hx) as [Hcb Hcs]. split_and!; [|done|done|cbn; lia]. split; [|done]. split; [done|].
  unfold m_Code in *. cbn in *. split; cbn; try done; unfold m_Code; cbn; rewrite ?Hl; done.
Qed.

Lemma cwp_Discharge n p (Q : () → Processor Contract → Prop) : cpinv p →
  (n ≤ m_Charge (p_ext p) → (0 ≤ n → cgood p (set_ext (set_Charge (m_Charge (p_ext p) - n) (p_ext p)) p)) →
   Q () (set_ext (set_Charge (m_Charge (p_ext p) - n) (p_ext p)) p)) → wp U (DischargeUnits n) p Q.
Proof.
  intros Hp HQ. unfold DischargeUnits. apply wp_bind, wp_gets, wp_bind, wp_test. intros Ht. apply Z.leb_le in Ht. apply wp_upd.
  apply HQ; [done|]. intros Hn. pose proof Hp as [_ [X1 X2 X3 X4 X5 X6]]. apply set_ext_cgood; cbn; try done; [by eapply frames_ok_bodies|lia].
Qed.

Lemma cwp_DischargeMemOp n p (Q : () → Processor Contract → Prop) : cpinv p →
  (∀ c, cgood p (set_ext (set_Charge c (p_ext p)) p) → Q () (set_ext (set_Charge c (p_ext p)) p)) → wp U (DischargeMemOp n) p Q.
Proof. intros Hp HQ. apply cwp_Discharge; [done|]. intros Hc Hg. apply HQ, Hg. apply u32_range. Qed.

End rules.

(** ** The functions of the host *)

(** Joins the steps made so far, and closes side conditions about the state reached. *)
Ltac cjoin :=
  repeat match goal with
  | H1 : cgood ?a ?b, H2 : cgood ?b ?c |- _ => pose proof (cgood_trans _ _ _ H1 H2); clear H2
  end.
Ltac cinv := first [eassumption | eapply proj1; eassumption | eapply cgood_inv; eassumption | eapply proj1, cgood_inv; eassumption].
Tactic Notation "cpop" ident(x) := apply wp_bind, cwp_Pop; [cinv|]; intros x ? ? ? _ _.

Section host.
Context (U : Prop).
Implicit Types Q : () → Processor Contract → Prop.

Lemma cwp_PopU8 p (Q : Z → Processor Contract → Prop) : cpinv p →
  (∀ x p', cgood p p' → 0 ≤ x < 256 → p' = set_stack (set_Pos (m_Pos (m_Stack p')) (m_Stack p)) p → m_Pos (m_Stack p') = m_Pos (m_Stack p) - 1 → Q x p') →
  wp U PopU8 p Q.
Proof.
  intros Hp HQ. unfold PopU8. apply wp_bind, cwp_Pop; [done|]. intros x p' Hg Hx E Hl. apply wp_ret, HQ; try done. apply u8_range.
Qed.

Lemma cwp_Memcpy p Q : cpinv p → (∀ p', cgood p p' → Q () p') → wp U Method_Memcpy p Q.
Proof.
  intros Hp HQ. unfold Method_Memcpy. cpop size. cpop pSrc. cpop pDst.
  apply wp_bind, wp_get_AddrEx; [cinv|]. intros d Hd. apply wp_bind, wp_get_AddrEx; [cinv|]. intros s Hs.
  apply wp_bind, cwp_DischargeMemOp; [cinv|]. intros c Hg. apply wp_bind, wp_rd_mem; [cinv|lia|done|]. intros l Hl Hb.
  apply wp_bind, cwp_wr_mem; [cinv|rewrite Hl; done|done|]. intros q' Hg'. apply cwp_Push; [cinv|]. intros q'' Hg''.
  apply HQ. by cjoin.
Qed.

Lemma cwp_Memset p Q : cpinv p → (∀ p', cgood p p' → Q () p') → wp U Method_Memset p Q.
Proof.
  intros Hp HQ. unfold Method_Memset. cpop size. apply wp_bind, cwp_PopU8; [cinv|]. intros val ? ? ? _ _. cpop pDst.
  apply wp_bind, wp_get_AddrEx; [cinv|]. intros d Hd.
  apply wp_bind, cwp_DischargeMemOp; [cinv|]. intros c Hg.
  apply wp_bind, cwp_wr_mem; [cinv|rewrite length_replicate, Z2Nat.id by lia; done|by apply Forall_replicate|]. intros q' Hg'.
  apply cwp_Push; [cinv|]. intros q'' Hg''. apply HQ. by cjoin.
Qed.

Lemma cwp_Memcmp p Q : cpinv p → (∀ p', cgood p p' → Q () p') → wp U Method_Memcmp p Q.
Proof.
  intros Hp HQ. unfold Method_Memcmp. cpop size. cpop p2. cpop p1.
  apply wp_bind, wp_get_AddrEx; [cinv|]. intros a Ha. apply wp_bind, wp_get_AddrEx; [cinv|]. intros b Hb.
  apply wp_bind, cwp_DischargeMemOp; [cinv|]. intros c Hg.
  apply wp_bind, wp_rd_mem; [cinv|lia|done|]. intros la _ _. apply wp_bind, wp_rd_mem; [cinv|lia|done|]. intros lb _ _.
  apply cwp_Push; [cinv|]. intros q'' Hg''. apply HQ. by cjoin.
Qed.

Lemma cwp_Memis0 p Q : cpinv p → (∀ p', cgood p p' → Q () p') → wp U Method_Memis0 p Q.
Proof.
  intros Hp HQ. unfold Method_Memis0. cpop size. cpop p1. apply wp_bind, wp_get_AddrEx; [cinv|]. intros a Ha.
  apply wp_bind, cwp_DischargeMemOp; [cinv|]. intros c Hg. apply wp_bind, wp_rd_mem; [cinv|lia|done|]. intros la _ _.
  apply cwp_Push; [cinv|]. intros q'' Hg''. apply HQ. by cjoin.
Qed.

Lemma cwp_RealizeStr sz p (Q : list Z → Processor Contract → Prop) : cpinv p → (∀ l p', cgood p p' → Q l p') → wp U (RealizeStr sz) p Q.
Proof.
  intros Hp HQ. unfold RealizeStr. apply wp_bind, wp_get_AddrExVar; [cinv|]. intros a n Hn Ha.
  apply wp_bind, wp_rd_mem; [cinv|done|exact Ha|]. intros l _ _. destruct (until0 l); [|done].
  apply wp_bind, cwp_DischargeMemOp; [done|]. intros c Hg. apply wp_ret. auto.
Qed.

Lemma cwp_Strlen p Q : cpinv p → (∀ p', cgood p p' → Q () p') → wp U Method_Strlen p Q.
Proof.
  intros Hp HQ. unfold Method_Strlen. cpop sz. apply wp_bind, cwp_RealizeStr; [cinv|]. intros l p1 Hg1.
  apply cwp_Push; [cinv|]. intros p2 Hg2. apply HQ. by cjoin.
Qed.

Lemma cwp_Strcmp p Q : cpinv p → (∀ p', cgood p p' → Q () p') → wp U Method_Strcmp p Q.
Proof.
  intros Hp HQ. unfold Method_Strcmp. cpop sz2. cpop sz1. apply wp_bind, cwp_RealizeStr; [cinv|]. intros l1 q1 Hg1.
  apply wp_bind, cwp_RealizeStr; [cinv|]. intros l2 q2 Hg2. apply cwp_Push; [cinv|]. intros p2 Hg3. apply HQ. by cjoin.
Qed.

(** A change of the alias stack pointer, within its limits. *)
Lemma set_BytesCurrent_cgood p n : cpinv p → n ≤ m_BytesMax (m_Stack p) → m_Pos (m_Stack p) ≤ n / 4 →
  cgood p (set_stack (set_BytesCurrent n (m_Stack p)) p).
Proof.
  intros [Hp Hx] H1 H2. apply good_cgood; [done|]. pose proof Hp as [[] _].
  apply set_stack_good; [done|split; cbn; try done; lia|by split].
Qed.

Lemma cwp_StackAlloc p Q : cpinv p → (∀ p', cgood p p' → Q () p') → wp U Method_StackAlloc p Q.
Proof.
  intros Hp HQ. unfold Method_StackAlloc. cpop size. apply wp_bind. unfold AliasAlloc. apply wp_bind, wp_gets, wp_bind, wp_test. intros Ht.
  apply wp_bind, wp_upd. unfold TestSelf. apply wp_bind, wp_gets, wp_bind, wp_test. intros H1%Z.leb_le. apply wp_test. intros H2%Z.leb_le.
  cbn in H1, H2. apply wp_bind. unfold get_AlasSp. apply wp_bind, wp_gets, wp_ret.
  apply cwp_Push; [eapply cgood_inv, set_BytesCurrent_cgood; [cinv|done..]|]. intros p2 Hg2. apply HQ.
  eapply cgood_trans; [eassumption|]. eapply cgood_trans; [|exact Hg2]. apply set_BytesCurrent_cgood; [cinv|done..].
Qed.

Lemma cwp_StackFree p Q : cpinv p → (∀ p', cgood p p' → Q () p') → wp U Method_StackFree p Q.
Proof.
  intros Hp HQ. unfold Method_StackFree. cpop size. unfold AliasFree. apply wp_bind, wp_gets, wp_bind, wp_upd, wp_bind, wp_test. intros Ht.
  unfold TestSelf. apply wp_bind, wp_gets, wp_bind, wp_test. intros H1%Z.leb_le. apply wp_test. intros H2%Z.leb_le.
  cbn in H1, H2. apply HQ. eapply cgood_trans; [eassumption|]. apply set_BytesCurrent_cgood; [cinv|done..].
Qed.

(** *** Heap *)

(** A change of the heap and of the size of the memory. *)
Lemma set_heap_cgood p h m M : cpinv p → heap_rel h #m M → bytes m → #m ≤ HeapSize →
  cgood p (set_ext (set_Heap h (p_ext p)) (set_mem m p)).
Proof.
  intros [[Hs [C1 C2 C3 C4 C5 C6 C7]] [X1 X2 X3 X4 X5 X6]] Hh Hb Hm. split_and!; [|done|done|done]. split.
  - split; [done|]. split; try done. cbn. unfold HeapSize in Hm. lia.
  - split; cbn; try done. by exists M.
Qed.

(** The heap knows its memory: [M] is what is allocated. *)
Lemma cwp_on_Alloc p size (Q : option Z → Processor Contract → Prop) : cpinv p → 0 < size →
  (∀ r, r = None →
     (∀ M q, heap_rel (m_Heap (p_ext p)) #(m_LinearMem p) M → 0 ≤ q → q + size ≤ #(m_LinearMem p) → ¬ apart_from M q size) →
     Q r (set_ext (set_Heap (m_Heap (p_ext p)) (p_ext p)) p)) →
  (∀ r h, is_Some r → cgood p (set_ext (set_Heap h (p_ext p)) p) → Q r (set_ext (set_Heap h (p_ext p)) p)) →
  wp U (on_heap (λ h, Heap.Alloc h size)) p Q.
Proof.
  intros Hp Hs HN HS. pose proof Hp as [_ [X1 X2 X3 [M HM] X5 X6]]. unfold on_heap. apply wp_bind, wp_gets.
  pose proof (Alloc_spec _ _ _ size HM Hs) as HA. destruct (Heap.Alloc (m_Heap (p_ext p)) size) as [[r h']| |] eqn:E; [|done..].
  apply wp_bind. cbn. destruct r as [r|].
  - destruct HA as (_ & _ & _ & _ & HR). apply HS; [by eexists|]. apply (set_heap_cgood p h' (m_LinearMem p) _ Hp HR); [apply Hp|done].
  - destruct HA as [-> HA]. apply HN; [done|]. intros M' q HM' Hq Hqs.
    pose proof (Alloc_spec _ _ _ size HM' Hs) as HA'. rewrite E in HA'. by apply HA'.
Qed.

Definition heap_bad p (size : Z) : Prop := size = 0 ∨ 2 ^ 32 ≤ #(m_LinearMem p) + size.

Lemma bytes_zero_ext m n : bytes m → bytes (take n (m ++ zeros (n - length m))).
Proof. intros Hm. apply bytes_take, bytes_app. auto with beam. Qed.

Lemma set_Heap_id p : set_ext (set_Heap (m_Heap (p_ext p)) (p_ext p)) p = p.
Proof. by destruct p as [[] ? ? ? ? ? ? ? ?]. Qed.

Lemma cwp_HeapAllocEx p size (Q : option Z → Processor Contract → Prop) : cpinv p → 0 ≤ size → ¬ heap_bad p size →
  (∀ r p', cgood p p' → Q r p') → wp U (HeapAllocEx size) p Q.
Proof.
  intros Hp Hsz HU HQ. unfold heap_bad in HU. assert (0 < size) as Hpos by lia. unfold HeapAllocEx.
  apply wp_bind, cwp_Discharge; [done|]. intros _ Hg1. specialize (Hg1 ltac:(done)).
  apply wp_bind, cwp_DischargeMemOp; [cinv|]. intros c Hg2. cbn in Hg2. set (p1 := set_ext _ (set_ext _ p)) in *.
  pose proof (cgood_trans _ _ _ Hg1 Hg2) as Hg. pose proof (cgood_inv _ _ Hg) as I1.
  apply wp_bind, cwp_on_Alloc; [done|done| |]; cycle 1.
  { intros r h [v ->] Hg3. apply wp_ret, HQ. by eapply cgood_trans. }
  intros r -> Hno. rewrite set_Heap_id. pose proof I1 as [_ [_ _ _ [M HM] Hlim _]].
  destruct (get_UnusedAtEnd_rel _ _ _ HM) as (nR & ER & HR & HRM).
  apply wp_bind, wp_gets. apply wp_bind. unfold on_heap at 1. apply wp_bind, wp_gets. rewrite ER. cbn [mbind res_bind]. apply wp_bind. cbn [lift].
  apply wp_bind, wp_upd, wp_ret. rewrite set_Heap_id.
  assert (nR < size) as HRs.
  { apply Z.nle_gt. intros Hle. apply (Hno M (#(m_LinearMem p1) - nR) HM); [lia|lia|]. intros q s Hq. left. by apply HRM. }
  change (m_LinearMem p) with (m_LinearMem p1) in HU. rewrite (u32_small (#(m_LinearMem p1) + size - nR)) by lia. destruct (Z.ltb_spec HeapSize (#(m_LinearMem p1) + size - nR)) as [|Hle].
  { by apply wp_ret, HQ. }
  set (n := Z.min _ HeapSize). assert (#(m_LinearMem p1) < n ≤ HeapSize) as Hn by (unfold n, HeapSize in *; lia).
  apply wp_bind. unfold HeapReserveStrict. apply wp_bind, wp_gets, wp_bind, wp_upd.
  set (m := take _ _). assert (#m = n) as Em.
  { unfold m. rewrite length_take, length_app, length_zeros. lia. }
  unfold on_heap at 1. apply wp_bind, wp_gets. cbn [m_LinearMem set_mem p_ext].
  destruct (OnGrow_rel _ _ n M HM) as (h' & EG & HM'); [lia|unfold HeapSize in *; lia|].
  change (p_ext (set_mem m p1)) with (p_ext p1). rewrite EG. cbn [mbind res_bind]. apply wp_bind. cbn [lift]. apply wp_bind, wp_upd, wp_ret.
  assert (cgood p1 (set_ext (set_Heap h' (p_ext p1)) (set_mem m p1))) as Hg3.
  { apply (set_heap_cgood p1 h' m M I1); [by rewrite Em| |lia]. apply bytes_zero_ext, I1. }
  apply cwp_on_Alloc; [cinv|done| |].
  - intros r -> _. rewrite set_Heap_id. apply HQ. by eapply cgood_trans.
  - intros r h _ Hg4. apply HQ. eapply cgood_trans; [exact Hg|]. by eapply cgood_trans.
Qed.

Lemma cwp_Heap_Alloc p Q : cpinv p → (∀ x q, Pop 32 p = Ok (x, q) → ¬ heap_bad p (AlignUp x)) → (∀ p', cgood p p' → Q () p') →
  wp U Method_Heap_Alloc p Q.
Proof.
  intros Hp HU HQ. unfold Method_Heap_Alloc. apply wp_bind, wp_eqn, cwp_Pop; [done|]. intros x q Hg Hx E _ Ep.
  specialize (HU _ _ Ep). assert (#(m_LinearMem q) = #(m_LinearMem p)) as El by (by rewrite E).
  apply wp_bind, cwp_HeapAllocEx; [cinv|apply Z.land_nonneg; left; apply u32_range|unfold heap_bad in *; by rewrite El|].
  intros r q2 Hg2. apply cwp_Push; [cinv|]. intros q3 Hg3. apply HQ. by cjoin.
Qed.

Lemma cwp_Heap_Free p Q : cpinv p → (∀ p', cgood p p' → Q () p') → wp U Method_Heap_Free p Q.
Proof.
  intros Hp HQ. unfold Method_Heap_Free. cpop pPtr. unfold HeapFreeEx.
  apply wp_bind, cwp_Discharge; [cinv|]. intros _ Hg1. specialize (Hg1 ltac:(done)). unfold on_heap.
  set (p1 := set_ext _ p') in *. assert (cgood p p1) as Hg by (by eapply cgood_trans).
  apply wp_bind, wp_gets. pose proof (cgood_inv _ _ Hg) as I1. pose proof I1 as [_ [_ _ _ [M HM] Hlim _]].
  pose proof (Free_rel _ _ _ (Z.lxor pPtr MemoryType_Global) HM) as HF.
  destruct (M !! _).
  - destruct HF as (h' & -> & HM'). cbn [mbind res_bind]. apply wp_bind. cbn [lift]. apply wp_bind, wp_upd, wp_ret. apply HQ.
    eapply cgood_trans; [exact Hg|]. apply (set_heap_cgood p1 h' (m_LinearMem p1) _ I1 HM'); [apply I1|done].
  - rewrite HF. done.
Qed.

(** *** Variables *)

Lemma load_ok p key : xinv p → var_ok (load (p_ext p) key).
Proof.
  intros [_ X2 _ _ _ _]. unfold load. destruct (m_Vars (p_ext p) !! key) eqn:E; cbn; [by eapply X2|]. split; [apply bytes_nil|done].
Qed.

Lemma cwp_SetVarKey nTag key bW p (Q : list Z → Processor Contract → Prop) : cpinv p → fkeys p ≠ [] →
  (∀ cid, #cid = 32 → Q (cid ++ [nTag] ++ key) p) → wp U (SetVarKeyFromShader nTag key bW) p Q.
Proof.
  intros [_ [X1 _ _ _ _ _]] Hf HQ. unfold SetVarKeyFromShader. apply wp_bind, wp_test. intros _. apply wp_bind, wp_gets.
  unfold fkeys in Hf. destruct (m_FarCalls (p_ext p)) as [|f fs]; [done|]. apply wp_bind, wp_test. intros _. apply wp_ret, HQ. apply X1.
Qed.

Lemma ptr_ok_le p a n m : ptr_ok p a n → 0 < m ≤ n → ptr_ok p a m.
Proof. destruct a as [[[] off]|]; cbn; lia. Qed.

Lemma cwp_LoadVar p Q : cpinv p → fkeys p ≠ [] → (∀ p', cgood p p' → Q () p') → wp U Method_LoadVar p Q.
Proof.
  intros Hp Hf HQ. unfold Method_LoadVar. apply wp_bind, cwp_PopU8; [cinv|]. intros nType ? ? ? _ _. cpop nVal. cpop pVal. cpop nKey. cpop pKey.
  apply wp_bind, wp_get_AddrEx; [cinv|]. intros k Hk. apply wp_bind, wp_get_AddrEx; [cinv|]. intros v Hv.
  apply wp_bind, wp_rd_mem; [cinv|lia|done|]. intros key _ _. cjoin.
  match goal with H : cgood p ?q |- wp _ _ ?q _ => set (q0 := q) in *; assert (cgood p q0) as Hg by exact H; clear H; clearbody q0 end.
  assert (fkeys q0 ≠ []) as Hf0 by (destruct Hg as (_ & _ & -> & _); done).
  apply wp_bind, cwp_SetVarKey; [cinv|done|]. intros cid _. apply wp_bind, wp_gets.
  destruct (load_ok q0 (cid ++ [nType] ++ key) (proj2 (cgood_inv _ _ Hg))) as [Hrb _]. set (r := load _ _) in *.
  assert (∀ Q', (∀ q1, cgood q0 q1 → Q' () q1) → wp U (if Z.min nVal #r =? 0 then mret () else wr_mem v (take (Z.to_nat (Z.min nVal #r)) r)) q0 Q') as Hw.
  { intros Q' HQ'. destruct (Z.eqb_spec (Z.min nVal #r) 0); [apply wp_ret, HQ', cgood_refl; cinv|].
    apply cwp_wr_mem; [cinv| |auto with beam|done]. rewrite length_take. eapply ptr_ok_le; [done|]. lia. }
  apply wp_bind, Hw. intros q1 Hg1. apply wp_bind, cwp_Discharge; [cinv|]. intros _ Hg2. specialize (Hg2 (proj1 (u32_range _))).
  apply cwp_Push; [cinv|]. intros q3 Hg3. apply HQ. by cjoin.
Qed.

Lemma cwp_SaveVar hf4 p Q : cpinv p → fkeys p ≠ [] → (∀ p', cgood p p' → Q () p') → wp U (Method_SaveVar hf4) p Q.
Proof.
  intros Hp Hf HQ. unfold Method_SaveVar. apply wp_bind, cwp_PopU8; [cinv|]. intros nType ? ? ? _ _. cpop nVal. cpop pVal. cpop nKey. cpop pKey.
  apply wp_bind, cwp_Discharge; [cinv|]. intros _ Hgd. specialize (Hgd (proj1 (u32_range _))).
  apply wp_bind, wp_get_AddrEx; [cinv|]. intros k Hk. apply wp_bind, wp_get_AddrEx; [cinv|]. intros v Hv.
  apply wp_bind, wp_test. intros Hvs. apply wp_bind, wp_rd_mem; [cinv|lia|done|]. intros key _ _. cjoin.
  match goal with H : cgood p ?q |- wp _ _ ?q _ => set (q0 := q) in *; assert (cgood p q0) as Hg by exact H; clear H; clearbody q0 end.
  assert (fkeys q0 ≠ []) as Hf0 by (destruct Hg as (_ & _ & -> & _); done).
  apply wp_bind, cwp_SetVarKey; [cinv|done|]. intros cid Hcid.
  apply wp_bind, wp_rd_mem; [cinv|lia|done|]. intros val Hval Hvb. apply wp_bind, wp_gets, wp_bind, wp_upd.
  set (vk := cid ++ [nType] ++ key). pose proof (cgood_inv _ _ Hg) as I0. pose proof I0 as [_ [X1 X2 X3 X4 X5 X6]].
  match goal with |- wp _ _ (set_ext ?x q0) _ => assert (cgood q0 (set_ext x q0)) as Hg1 end.
  { apply set_ext_cgood; cbn; try done; [by eapply frames_ok_bodies| |].
    - intros k' c Hc. destruct val as [|b val]; [apply lookup_delete_Some in Hc as [_ Hc]; by eapply X2|].
      apply lookup_insert_Some in Hc as [[_ <-]|[_ Hc]]; [|by eapply X2]. split; [done|]. rewrite Hval. lia.
    - unfold m_Code. cbn. unfold code_at_ok in X6. destruct (m_CodeAt (p_ext q0)) as [cid'|]; [|done].
      assert (vk ≠ cid') as Hne by (intros <-; unfold vk in X6; rewrite !length_app in X6; cbn in X6; lia).
      unfold load. cbn. destruct val; [by rewrite lookup_delete_ne|by rewrite lookup_insert_ne]. }
  apply cwp_Push; [cinv|]. intros q3 Hg3. apply HQ. by cjoin.
Qed.

Lemma cwp_get_CallDepth p Q : cpinv p → (∀ p', cgood p p' → Q () p') → wp U Method_get_CallDepth p Q.
Proof. intros Hp HQ. unfold Method_get_CallDepth. apply wp_bind, wp_gets, cwp_Push; done. Qed.

Lemma frames_ok_cid a b n fs i f : frames_ok a b n fs → fs !! i = Some f → #(m_Cid f) = 32 ∧ bytes (m_Cid f).
Proof.
  revert a b i. induction fs as [|g fs IH]; intros a b [|i]; cbn; try done; [intros H [= <-]; tauto|]. intros H. eapply IH. apply H.
Qed.

Lemma cwp_get_CallerCid p Q : cpinv p → (∀ p', cgood p p' → Q () p') → wp U Method_get_CallerCid p Q.
Proof.
  intros Hp HQ. unfold Method_get_CallerCid. cpop cid. cpop iCaller. apply wp_bind, wp_get_AddrEx; [cinv|]. intros a Ha.
  apply wp_bind, wp_gets. cjoin. destruct (m_FarCalls _ !! _) as [f|] eqn:E; [|done].
  match goal with H : cgood p ?q |- wp _ _ ?q _ => pose proof (cgood_inv _ _ H) as [_ [X1 _ _ _ _ _]] end.
  destruct (frames_ok_cid _ _ _ _ _ _ X1 E) as [Hl Hb].
  apply cwp_wr_mem; [cinv|by rewrite Hl|done|]. intros q Hg. apply HQ. by cjoin.
Qed.
End host.
