(* ===== verification/BvmCalls.v ===== *)
(** * Calls between contracts

    What [CallFar] and [OnRetFar] do to the stack and the frames, one step of a contract
    ([cstep]), and runs of them: the invariant holds all along, and a called contract leaves
    its caller's part of the stack as it was. *)

From stdpp Require Import base list numbers option gmap.
From S2P Require Import Prelude WasmReader WasmProcessor WasmSafety BvmHeap BvmHeapSpec BvmProcessor BvmSafety.
Local Open Scope Z_scope.

#[local] Ltac Zify.zify_post_hook ::= Z.to_euclidean_division_equations.

Implicit Types p : Processor Contract.

(** ** Between two codes

    The invariant without what depends on the code that runs. *)
Record binv p : Prop := {
  bi_stack : sinv (m_Stack p);
  bi_mem : bytes (m_LinearMem p);
  bi_ext : xinv p;
}.

Definition mod_ok p : Prop :=
  (0 ≤ (m_Data p).1 ∧ 0 ≤ (m_Data p).2 ∧ (m_Data p).1 + (m_Data p).2 ≤ #(m_Code p)) ∧ 0 ≤ m_prTable0 p ≤ #(m_Code p).

Lemma binv_cpinv p : binv p → mod_ok p → 0 ≤ m_Ip p ≤ #(m_Code p) → cpinv p.
Proof.
  intros [Hs Hm Hx] [Hd Ht] Hip. split; [|done]. split; [done|]. destruct (code_ok p Hx). pose proof (xi_limit _ Hx) as Hl. unfold HeapSize in Hl.
  split; try done. lia.
Qed.

Lemma cpinv_binv p : cpinv p → binv p.
Proof. intros [[Hs []] Hx]. by split. Qed.

Lemma hdr_at_range c off : bytes c → 0 ≤ hdr_at c off < 2 ^ 32.
Proof.
  intros Hc. unfold hdr_at. assert (bytes (take 4 (drop off c))) as Hb by auto with beam. pose proof (of_le_range _ Hb) as H.
  rewrite length_take in H. assert (256 ^ Z.of_nat (4 `min` length (drop off c)) ≤ 256 ^ 4); [|lia]. apply Z.pow_le_mono_r; lia.
Qed.

Section calls.
Context (U : Prop).

Lemma wp_ParseMod p (Q : Z → Processor Contract → Prop) : var_ok (m_Code p) →
  (∀ n d t0 d0, let p' := set_mod d t0 d0 p in mod_ok p' → 2 ≤ n → 16 + 4 * n ≤ #(m_Code p) → Q n p') → wp U ParseMod p Q.
Proof.
  intros [Hb Hsz] HQ. unfold ParseMod. apply wp_bind, wp_gets. set (c := m_Code p) in *.
  apply wp_bind, wp_test. intros H1%Z.leb_le. apply wp_bind, wp_test. intros _. apply wp_bind, wp_test. intros H2%Z.leb_le.
  apply wp_bind, wp_test. intros H3%Z.leb_le. apply wp_bind, wp_upd, wp_bind, wp_test. intros H4%Z.leb_le. apply wp_ret.
  pose proof (hdr_at_range c 4 Hb) as R4. pose proof (hdr_at_range c 12 Hb) as R12.
  set (n := hdr_at c 4) in *. set (t0 := hdr_at c 12) in *. clearbody n t0.
  assert (2 ≤ n ∧ u32 (n - s_MethodsMin) = n - 2) as [Hn En].
  { unfold s_MethodsMin, s_MethodsMax in *. destruct (Z.ltb_spec n 2); [rewrite u32_neg in H2 by lia; lia|]. rewrite u32_small by lia. lia. }
  rewrite En in *. unfold sizeof_Header in *. apply HQ; [|lia..].
  unfold mod_ok. change (m_Code (set_mod ?[d] ?[t0] ?[d0] p)) with c. cbn [m_Data m_prTable0 set_mod fst snd]. lia.
Qed.

Lemma set_ip_cpinv p ip : binv p → mod_ok p → 0 ≤ ip ≤ #(m_Code p) → cpinv (set_ip ip p).
Proof. intros [Hs Hm []] Hmod Hip. apply binv_cpinv; [|done|done]. split; [done|done|]. by split. Qed.

Lemma wp_Jmp_b ip p (Q : () → Processor Contract → Prop) : binv p → mod_ok p → 0 ≤ ip →
  (cpinv (set_ip ip p) → Q () (set_ip ip p)) → wp U (Jmp ip) p Q.
Proof.
  intros Hb Hm Hip HQ. unfold Jmp. apply wp_bind, wp_gets, wp_bind, wp_test. intros Ht%Z.ltb_lt. apply wp_upd, HQ. apply set_ip_cpinv; [done..|lia].
Qed.

(** A change of the frames that keeps their keys and bodies. *)
Lemma set_frames_binv p fs : binv p → mod_ok p → fkey <$> fs = fkeys p → m_Body <$> fs = m_Body <$> m_FarCalls (p_ext p) →
  let p' := set_ext (set_FarCalls fs (p_ext p)) p in binv p' ∧ mod_ok p' ∧ m_Code p' = m_Code p ∧ fkeys p' = fkeys p.
Proof.
  intros [Hs Hm [X1 X2 X3 X4 X5 X6]] Hmod Hk Hb p'.
  assert (m_Code p' = m_Code p) as Ec.
  { unfold m_Code, p'. cbn. destruct (m_CodeAt (p_ext p)); [done|]. destruct fs as [|f fs], (m_FarCalls (p_ext p)) as [|g gs]; try done. by injection Hb. }
  assert (binv p') as Hb'.
  { split; [done|done|]. split; cbn; try done. eapply frames_ok_keys; [exact Hk| |exact X1].
    apply frames_ok_bodies in X1. rewrite Forall_forall in *. intros f Hf. apply (list_elem_of_fmap_2 m_Body) in Hf. rewrite Hb in Hf.
    apply list_elem_of_fmap in Hf as (g & -> & Hg). by apply X1. }
  split_and!; [done| |done|done]. unfold mod_ok. rewrite Ec. done.
Qed.

Lemma wp_OnCall_b n p (Q : () → Processor Contract → Prop) : binv p → mod_ok p → fkeys p ≠ [] → 0 ≤ n →
  (∀ p', cpinv p' → fkeys p' = fkeys p → m_Stack p' = m_Stack p → m_Charge (p_ext p') = m_Charge (p_ext p) → Q () p') → wp U (OnCall_c n) p Q.
Proof.
  intros Hb Hm Hf Hn HQ. unfold OnCall_c. apply wp_bind, wp_gets. destruct (m_SaveLocal (p_ext p)); cycle 1.
  { apply wp_bind, wp_ret. apply wp_Jmp_b; [done..|]. intros Hp. by apply HQ. }
  destruct (m_FarCalls (p_ext p)) as [|f fs] eqn:Ef; [unfold fkeys in Hf; by rewrite Ef in Hf|].
  apply wp_bind, wp_bind, wp_gets, wp_upd. match goal with |- wp _ _ (set_ext (set_FarCalls ?l _) p) _ => set (fs' := l) end.
  destruct (set_frames_binv p fs') as (B' & M' & _ & K'); [done|done| | |].
  { unfold fkeys. rewrite Ef. unfold fs'. by destruct (_ <? _)%nat. }
  { rewrite Ef. unfold fs'. by destruct (_ <? _)%nat. }
  apply wp_Jmp_b; [done..|]. intros Hp. by apply HQ.
Qed.

(** ** CallFar *)

(** A contract was called: its frame keeps the caller's limits, and what is below and above of
    its own part of the stack is as it was. *)
Record called p p' : Prop := {
  ca_keys : ∃ cid ra, fkeys p' = (cid, ra, m_PosMin (m_Stack p), m_BytesMax (m_Stack p), m_BytesCurrent (m_Stack p)) :: fkeys p;
  ca_min : m_PosMin (m_Stack p') = m_Pos (m_Stack p);
  ca_max : m_BytesCurrent (m_Stack p) ≤ m_BytesMax (m_Stack p') ≤ m_BytesMax (m_Stack p);
  ca_charge : m_Charge (p_ext p') ≤ m_Charge (p_ext p);
  ca_len : length (m_pPtr (m_Stack p')) = length (m_pPtr (m_Stack p));
  ca_low : take (Z.to_nat (4 * m_Pos (m_Stack p))) (m_pPtr (m_Stack p')) = take (Z.to_nat (4 * m_Pos (m_Stack p))) (m_pPtr (m_Stack p));
  ca_high : drop (Z.to_nat (m_BytesCurrent (m_Stack p))) (m_pPtr (m_Stack p')) = drop (Z.to_nat (m_BytesCurrent (m_Stack p))) (m_pPtr (m_Stack p));
}.

Lemma take_eq_le {A} (n m : nat) (a b : list A) : (n ≤ m)%nat → take m a = take m b → take n a = take n b.
Proof. intros H E. apply (f_equal (take n)) in E. by rewrite !take_take, !Nat.min_l in E. Qed.

Lemma drop_eq_le {A} (n m : nat) (a b : list A) : (n ≤ m)%nat → drop n a = drop n b → drop m a = drop m b.
Proof. intros H E. replace m with (n + (m - n))%nat by lia. by rewrite <- !drop_drop, E. Qed.

Lemma set_stack_binv p s : binv p → sinv s → m_PosMin s = m_PosMin (m_Stack p) → m_BytesMax s = m_BytesMax (m_Stack p) →
  length (m_pPtr s) = length (m_pPtr (m_Stack p)) → binv (set_stack s p).
Proof. intros [Hs Hm [X1 X2 X3 X4 X5 X6]] Hs' E1 E2 E3. split; [done|done|]. split; try done. cbn. by rewrite E1, E2, E3. Qed.

Lemma CallFar_enter p cid nRet : cpinv p → #cid = 32 → bytes cid → 0 ≤ nRet →
  let s := m_Stack p in
  let f := mkFrame cid (load (p_ext p) cid) nRet (m_PosMin s) (m_BytesMax s) (m_BytesCurrent s) [] 0 in
  binv (set_stack (set_PosMin (m_Pos s) s) (set_ext (set_CodeAt (InVar cid) (set_FarCalls (f :: m_FarCalls (p_ext p)) (p_ext p))) p)).
Proof.
  intros [[Hs []] Hx] Hc Hcb Hr s f. pose proof (load_ok p cid Hx) as Hl. destruct Hx as [X1 X2 X3 X4 X5 X6]. pose proof Hs as [].
  subst s f. split; [split; cbn; try done; lia|done|]. split; cbn; try done.
Qed.

Lemma wp_CallFar cid iMethod pArgs bInh p (Q : () → Processor Contract → Prop) :
  cpinv p → #cid = 32 → bytes cid → 0 ≤ iMethod → (bInh = true → fkeys p ≠ []) →
  (∀ p', cpinv p' → called p p' → m_BytesMax (m_Stack p') = m_BytesMax (m_Stack p) → m_BytesCurrent (m_Stack p') = m_BytesCurrent (m_Stack p) →
     m_Pos (m_Stack p') = m_Pos (m_Stack p) + 2 → Q () p') →
  wp U (CallFar cid iMethod pArgs bInh) p Q.
Proof.
  intros Hp Hc Hcb Hi Hinh HQ. unfold CallFar. apply wp_bind, cwp_Discharge; [done|]. intros _ Hg. specialize (Hg ltac:(done)).
  pose proof (cgood_inv _ _ Hg) as I1. set (p1 := set_ext _ p) in *.
  assert (m_Stack p1 = m_Stack p) as Es by done. assert (m_Charge (p_ext p1) ≤ m_Charge (p_ext p)) as Ech by apply Hg. assert (fkeys p1 = fkeys p) as Ek by done. clearbody p1.
  apply wp_bind, wp_gets, wp_bind, wp_gets, wp_bind, wp_test. intros _. apply wp_bind, wp_gets, wp_bind, wp_gets, wp_bind, wp_upd, wp_bind, wp_upd.
  assert (0 ≤ m_Ip p1) as Hip by (destruct I1 as [[_ []] _]; lia).
  pose proof (CallFar_enter p1 cid (m_Ip p1) I1 Hc Hcb Hip) as B3. cbn zeta in B3. cbn [m_Stack set_ext].
  set (p3 := set_stack _ (set_ext _ p1)) in *.
  assert (fkeys p3 = (cid, m_Ip p1, m_PosMin (m_Stack p1), m_BytesMax (m_Stack p1), m_BytesCurrent (m_Stack p1)) :: fkeys p1) as K3 by done.
  assert (m_Stack p3 = set_PosMin (m_Pos (m_Stack p1)) (m_Stack p1)) as S3 by done.
  apply wp_bind, wp_ParseMod; [apply code_ok, B3|]. intros n d t0 d0 p4 M4 Hn Hsz. apply wp_bind, wp_test. intros Him%Z.ltb_lt.
  assert (binv p4) as B4 by (destruct B3 as [? ? []]; by split; [| |split]).
  assert (∀ Q', (∀ p5, binv p5 → mod_ok p5 → m_Stack p5 = m_Stack p4 → m_Code p5 = m_Code p4 → m_Charge (p_ext p5) = m_Charge (p_ext p1) →
      (∃ cid', fkeys p5 = (cid', m_Ip p1, m_PosMin (m_Stack p1), m_BytesMax (m_Stack p1), m_BytesCurrent (m_Stack p1)) :: fkeys p1) → Q' () p5) →
    wp U (if bInh then match m_FarCalls (p_ext p1) with
          | [] => lift UB
          | pPrev :: _ => upd_x (λ x, match m_FarCalls x with f :: fs => set_FarCalls (set_Cid (m_Cid pPrev) f :: fs) x | [] => x end)
          end else mret ()) p4 Q') as Hif.
  { intros Q' HQ'. destruct bInh; [|apply wp_ret, HQ'; [done..|by eexists]].
    destruct (m_FarCalls (p_ext p1)) as [|g gs] eqn:Eg; [specialize (Hinh eq_refl); unfold fkeys in Ek, Hinh; rewrite Eg in Ek; by rewrite <- Ek in Hinh|].
    apply wp_upd. cbn. apply HQ'; [|done|done|done|done|].
    - destruct I1 as [_ [X1 _ _ _ _ _]]. rewrite Eg in X1. cbn in X1.
      destruct B4 as [B41 B42 [Y1 Y2 Y3 Y4 Y5 Y6]]. cbn in Y1. split; [done|done|]. split; try done. cbn. tauto.
    - eexists. unfold fkeys. cbn. by rewrite Eg. }
  apply wp_bind, Hif. intros p5 B5 M5 S5 C5 H5 [cid' K5]. clear Hif.
  assert (m_Stack p5 = set_PosMin (m_Pos (m_Stack p1)) (m_Stack p1)) as S5' by (by rewrite S5).
  apply wp_bind. unfold Push at 1. change (32 <=? 32) with true. cbv iota. apply wp_Push1_stack; [apply B5|]. rewrite S5'. cbn.
  intros s6 I6 F6 P6 Cu6 T6 D6. destruct F6 as [f61 f62 f63 _ _]. cbn in f61, f62, f63, P6, Cu6, T6, D6.
  apply wp_bind. unfold Push. change (32 <=? 32) with true. cbv iota. apply wp_Push1_stack; [done|]. cbn.
  intros s7 I7 F7 P7 Cu7 T7 D7. destruct F7 as [f71 f72 f73 _ _].
  apply wp_bind, wp_gets. change (m_Code (set_stack s7 (set_stack s6 p5))) with (m_Code p5). rewrite C5. change (m_Code p4) with (m_Code p3).
  destruct (code_ok p3 (bi_ext _ B3)) as [Cb Cs].
  destruct (rdn_Some (m_Code p3) (16 + 4 * iMethod) 4) as (a & -> & La & Ba); [lia..|]. apply wp_bind. cbn.
  pose proof (of_le_range a (Ba Cb)) as Ra.
  change (set_stack s7 (set_stack s6 p5)) with (set_stack s7 p5).
  apply wp_OnCall_b; [|done|unfold fkeys in *; cbn; by rewrite K5|lia|].
  { apply set_stack_binv; [done|done|..]; rewrite S5'; cbn; congruence. }
  intros p8 I8 K8 S8 H8. change (fkeys (set_stack s7 p5)) with (fkeys p5) in K8. cbn in S8. rewrite Es in *. destruct Hp as [[[] _] _].
  apply HQ; rewrite ?S8; [done| |congruence|congruence|lia].
  split; rewrite ?S8.
  - exists cid', (m_Ip p1). by rewrite K8, K5, Ek.
  - congruence.
  - rewrite f72, f62. lia.
  - rewrite H8. cbn. lia.
  - congruence.
  - rewrite <- T6. apply (f_equal (take (Z.to_nat (4 * m_Pos (m_Stack p))))) in T7. rewrite !take_take in T7.
    rewrite !Nat.min_l in T7 by lia. done.
  - rewrite Cu6 in D7. by rewrite D7, D6.
Qed.

(** The offset of an address on the stack. *)
Lemma stack_offset x : 0 ≤ x < 2 ^ 32 → Z.land MemoryType_Mask x = MemoryType_Stack →
  x = 2 ^ 31 + Z.land x MemoryType_Offs ∧ Z.land x (u32 (Z.lnot MemoryType_Stack)) = Z.land x MemoryType_Offs ∧ 0 ≤ Z.land x MemoryType_Offs < 2 ^ 30.
Proof.
  intros Hx E. pose proof (f_equal (λ y, Z.testbit y 31) E) as E31. pose proof (f_equal (λ y, Z.testbit y 30) E) as E30. cbn beta in E31, E30.
  rewrite Z.land_spec in E31, E30. change (Z.testbit MemoryType_Mask 31) with true in E31. change (Z.testbit MemoryType_Mask 30) with true in E30.
  change (Z.testbit MemoryType_Stack 31) with true in E31. change (Z.testbit MemoryType_Stack 30) with false in E30. cbn [andb] in E31, E30.
  apply Z.testbit_true in E31; [|lia]. apply Z.testbit_false in E30; [|lia].
  change (u32 (Z.lnot MemoryType_Stack)) with (Z.ones 31). change MemoryType_Offs with (Z.ones 30). rewrite !Z.land_ones by lia. lia.
Qed.

Lemma stack_pointer n : 0 ≤ n < 2 ^ 31 → Z.lor MemoryType_Stack n = 2 ^ 31 + n.
Proof. intros Hn. by apply (lor_add_mod (2 ^ 31) n 31). Qed.

(** The address of a stack buffer, and what follows it up to the limit. *)
Lemma wp_get_AddrExVar_stack nOffset p (Q : (Region * Z) * Z → Processor Contract → Prop) : cpinv p → Z.land MemoryType_Mask nOffset = MemoryType_Stack →
  (∀ a n, 0 ≤ n → n = m_BytesMax (m_Stack p) - Z.land nOffset MemoryType_Offs → Q (a, n) p) → wp U (get_AddrExVar nOffset) p Q.
Proof.
  intros Hp E HQ. unfold get_AddrExVar. rewrite E. apply wp_bind, wp_gets. cbn [id].
  change (MemoryType_Stack =? MemoryType_Global) with false. change (MemoryType_Stack =? MemoryType_Data) with false.
  change (MemoryType_Stack =? MemoryType_Stack) with true. cbv iota.
  assert (∀ Q', Q' () p → wp U (if Z.land nOffset MemoryType_Offs <? m_BytesCurrent (m_Stack p)
    then test (m_Pos (m_Stack p) <=? Z.land nOffset MemoryType_Offs / 4) else mret ()) p Q') as Hif.
  { intros Q' HQ'. destruct (_ <? _); [by apply wp_test|by apply wp_ret]. }
  apply wp_bind, Hif, wp_bind, wp_test. intros Ht%Z.leb_le. apply wp_ret, HQ; [lia|done].
Qed.

Lemma wp_callee_args (bInh : bool) nArgs pArgs iMethod p (Q : Z * Z → Processor Contract → Prop) : cpinv p → 0 ≤ nArgs → 0 ≤ pArgs < 2 ^ 32 →
  (∀ a n, m_BytesCurrent (m_Stack p) ≤ n ≤ m_BytesMax (m_Stack p) → Q (a, n) p) →
  wp U (if bInh then mret (pArgs, m_BytesCurrent (m_Stack p))
        else
          test (2 <=? iMethod);;
          if negb (nArgs =? 0) then
            test (Z.land MemoryType_Mask pArgs =? MemoryType_Stack);;
            '(_, nSize) ← get_AddrExVar pArgs;
            test (Z.lor MemoryType_Stack (m_BytesCurrent (m_Stack p)) <=? pArgs);;
            mret (pArgs, u32 (Z.land pArgs (u32 (Z.lnot MemoryType_Stack)) + Z.min nArgs nSize))
          else mret (Z.lor MemoryType_Stack (m_BytesCurrent (m_Stack p)), m_BytesCurrent (m_Stack p))) p Q.
Proof.
  intros Hp Hn Hx HQ. pose proof Hp as [[[] _] _]. assert (∀ a, Q (a, m_BytesCurrent (m_Stack p)) p) as H0 by (intros; apply HQ; lia).
  destruct bInh; [by apply wp_ret|]. apply wp_bind, wp_test. intros _. destruct (negb _); [|by apply wp_ret].
  apply wp_bind, wp_test. intros Em%Z.eqb_eq. apply wp_bind, wp_get_AddrExVar_stack; [done..|]. intros a n Hn0 En.
  apply wp_bind, wp_test. intros Hsp%Z.leb_le. apply wp_ret, HQ. rewrite stack_pointer in Hsp by lia.
  destruct (stack_offset pArgs Hx Em) as (Ep & -> & Ro). rewrite u32_small; lia.
Qed.

Lemma frames_ok_max a b b' n fs : b' ≤ b → frames_ok a b n fs → frames_ok a b' n fs.
Proof. destruct fs as [|f fs]; [done|]. cbn. intros Hb (H1 & H2 & H3). repeat split; try done; try lia; try apply H3. Qed.

Lemma called_BytesMax p p' n : cpinv p' → called p p' → m_BytesMax (m_Stack p') = m_BytesMax (m_Stack p) → m_BytesCurrent (m_Stack p') = m_BytesCurrent (m_Stack p) →
  m_BytesCurrent (m_Stack p) ≤ n ≤ m_BytesMax (m_Stack p) → cpinv p →
  let p2 := set_stack (set_BytesMax n (m_Stack p')) p' in cpinv p2 ∧ called p p2.
Proof.
  intros [[[] Hc] [X1 X2 X3 X4 X5 X6]] [] EM EC Hn Hp p2. subst p2. split; [|by split].
  split; [split; [split; cbn; try done; lia|by destruct Hc]|]. split; try done. cbn. eapply frames_ok_max; [|exact X1]. lia.
Qed.

Lemma wp_Method_CallFar p (Q : () → Processor Contract → Prop) : cpinv p → fkeys p ≠ [] →
  (∀ q p', cgood p q → m_Stack q = set_Pos (m_Pos (m_Stack p) - 5) (m_Stack p) → called q p' → cpinv p' → Q () p') → wp U Method_CallFar p Q.
Proof.
  intros Hp Hf HQ. unfold Method_CallFar. apply wp_bind, cwp_PopU8; [cinv|]. intros bInh q1 G1 _ E1 N1.
  apply wp_bind, cwp_Pop; [cinv|]. intros nArgs q2 G2 Hna E2 N2. apply wp_bind, cwp_Pop; [cinv|]. intros pArgs q3 G3 Hpa E3 N3.
  apply wp_bind, cwp_Pop; [cinv|]. intros iMethod q4 G4 Him E4 N4. apply wp_bind, cwp_Pop; [cinv|]. intros cid q0 G0 _ E0 N0.
  assert (m_Stack q0 = set_Pos (m_Pos (m_Stack p) - 5) (m_Stack p)) as Eq.
  { rewrite E0, E4, E3, E2, E1. cbn. unfold set_Pos. cbn. f_equal. lia. }
  assert (cgood p q0) as Hg by (by cjoin). clear dependent q1 q2 q3 q4.
  assert (fkeys q0 ≠ []) as Hf0 by (destruct Hg as (_ & _ & -> & _); done). pose proof (cgood_inv _ _ Hg) as I0.
  apply wp_bind, wp_gets. apply wp_bind. unfold get_AlasSp. apply wp_bind, wp_gets, wp_ret. apply wp_bind, wp_callee_args; [done|lia|done|].
  intros a n Hn. apply wp_bind, wp_gets. apply wp_bind, wp_get_AddrEx; [cinv|]. intros r Hr. apply wp_bind, wp_rd_mem; [cinv|lia|done|].
  intros id Lid Bid. apply wp_bind, wp_CallFar; [done|done|done|lia|done|]. intros pn I' C' EM EC EP.
  apply wp_bind, wp_gets. destruct (_ && _); [|apply wp_ret; by apply (HQ q0)].
  apply wp_upd. destruct (called_BytesMax q0 pn n) as [I2 C2]; [done..|]. by apply (HQ q0).
Qed.

(** ** Return from a contract *)

(** The caller's limits are back, the operands and the alias stack are where they were. *)
Record returned p p' : Prop := {
  rt_keys : ∃ cid ra, fkeys p = (cid, ra, m_PosMin (m_Stack p'), m_BytesMax (m_Stack p'), m_BytesCurrent (m_Stack p')) :: fkeys p';
  rt_pos : m_Pos (m_Stack p') = m_PosMin (m_Stack p);
  rt_ptr : m_pPtr (m_Stack p') = m_pPtr (m_Stack p);
  rt_charge : m_Charge (p_ext p') = m_Charge (p_ext p);
  rt_inv : fkeys p' = [] ∨ cpinv p';
}.

Lemma wp_OnRetFar p (Q : () → Processor Contract → Prop) : binv p → fkeys p ≠ [] → (∀ p', returned p p' → Q () p') → wp U OnRetFar p Q.
Proof.
  intros [Hs Hm [X1 X2 X3 X4 X5 X6]] Hf HQ. unfold OnRetFar. apply wp_bind, wp_gets, wp_bind, wp_test. intros Hpos%Z.eqb_eq. apply wp_bind, wp_gets.
  destruct (m_FarCalls (p_ext p)) as [|x fs] eqn:Ef; [unfold fkeys in Hf; by rewrite Ef in Hf|].
  destruct X1 as (Y1 & Y2 & Y3 & Y4 & Y5 & Y6 & Y7 & Y8).
  apply wp_bind, wp_test. intros Hcur%Z.eqb_eq. apply wp_bind, wp_upd, wp_bind, wp_upd, wp_bind, wp_upd. cbn [m_Stack set_stack set_ext p_ext].
  set (p1 := set_ext (set_FarCalls fs (p_ext p)) _).
  assert (fkeys p = (m_Cid x, m_FarRetAddr x, m_StackPosMin x, m_StackBytesMax x, m_BytesCurrent (m_Stack p)) :: fkeys p1) as Ek.
  { unfold fkeys. rewrite Ef. cbn. unfold fkey at 1. by rewrite Hcur. }
  destruct fs as [|g gs]; [apply wp_ret, HQ; split; try done; [by eexists _, _|by left]|].
  apply wp_bind, wp_upd. pose proof Hs as [].
  set (p2 := set_ext _ p1). assert (binv p2) as B2.
  { split; [split; cbn; try done; lia|done|]. split; cbn; try done. }
  apply wp_bind, wp_ParseMod; [apply code_ok, B2|]. intros n d t0 d0 p3 M3 _ _. apply wp_Jmp_b; [|done|lia|].
  { destruct B2 as [? ? []]. by split; [| |split]. }
  intros I3. apply HQ. split; [by eexists _, _|done|done|done|by right].
Qed.

Lemma wp_OnRet_c n p (Q : () → Processor Contract → Prop) : cpinv p → fkeys p ≠ [] → 0 ≤ n →
  (∀ p', cgood p p' → m_Stack p' = m_Stack p → Q () p') → (∀ q p', cgood p q → m_Stack q = m_Stack p → returned q p' → Q () p') → wp U (OnRet_c n) p Q.
Proof.
  intros Hp Hf Hn HQ1 HQ2. unfold OnRet_c. apply wp_bind, wp_gets.
  destruct (m_FarCalls (p_ext p)) as [|x fs] eqn:Ef; [unfold fkeys in Hf; by rewrite Ef in Hf|].
  apply wp_bind, wp_upd. match goal with |- wp _ _ (set_ext (set_FarCalls ?l _) p) _ => set (fs' := l) end.
  assert (cgood p (set_ext (set_FarCalls fs' (p_ext p)) p)) as Hg.
  { pose proof Hp as [_ [X1 X2 X3 X4 X5 X6]]. rewrite Ef in X1.
    assert (m_Body <$> fs' = m_Body <$> (x :: fs)) as Eb by (unfold fs'; by destruct (negb _)).
    apply set_ext_cgood; [done| | |done|cbn; lia|done|done|].
    - unfold fkeys. rewrite Ef. unfold fs'. cbn. by destruct (negb _).
    - apply frames_ok_bodies in X1. unfold fs'. inversion X1; subst. constructor; [|done]. by destruct (negb _).
    - unfold m_Code. cbn. destruct (m_CodeAt (p_ext p)); [done|]. rewrite Ef. unfold fs'. by destruct (negb _). }
  destruct (negb (n =? 0)).
  - apply cwp_Jmp; [cinv|done|]. intros p' Hg' Es. apply HQ1; [by cjoin|done].
  - apply wp_OnRetFar; [apply cpinv_binv; cinv|by destruct Hg as (_ & _ & -> & _)|]. intros p'. by apply HQ2.
Qed.

End calls.
