(* ===== verification/BvmRun.v ===== *)
(** * Runs of contracts

    A cycle of a contract stays in it, calls another contract or returns from one ([cstep]).
    The invariant holds all along a run, the charge bounds its length, and a called contract
    leaves the stack of its caller as it was. *)

From stdpp Require Import base list numbers option gmap.
From S2P Require Import Prelude WasmReader WasmProcessor WasmSafety BvmHeap BvmHeapSpec BvmProcessor BvmSafety BvmCalls.
Local Open Scope Z_scope.

Implicit Types p : Processor Contract.

Inductive cstep p p' : Prop :=
| step_in : cgood p p' → cstep p p'
| step_call q : cgood p q → m_Stack q = set_Pos (m_Pos (m_Stack p) - 5) (m_Stack p) → called q p' → cpinv p' → cstep p p'
| step_ret q : cgood p q → returned q p' → cstep p p'.

(** The next instruction asks the heap for no bytes, or for more than 32 bits can count. *)
Definition heap_trap p : Prop := ext_call p 0x1a ∧ ∃ x q, Pop 32 p = Ok (x, q) ∧ heap_bad p (AlignUp x).

(** The operations the source leaves undefined. *)
Definition bad_op p : Prop := traps p ∨ heap_trap p.

Definition depth p : nat := length (m_FarCalls (p_ext p)).

Lemma fkeys_depth p : length (fkeys p) = depth p.
Proof. apply length_fmap. Qed.

Lemma Pop_same_stack p p' x q : m_Stack p' = m_Stack p → Pop 32 p' = Ok (x, q) → ∃ q', Pop 32 p = Ok (x, q').
Proof.
  intros Es. unfold Pop. change (32 <=? 32) with true. cbv iota. unfold Pop1, mbind, PM_bind, gets, test, lift, on_stack, upd, rd_word. rewrite Es.
  destruct (Test _); try done. cbn. rewrite Es. destruct (rdn _ _ _); try done. intros [= <- _]. eauto.
Qed.

Lemma cstep_inv p p' : cstep p p' → fkeys p' = [] ∨ cpinv p'.
Proof. intros [Hg|q _ _ _ Hi|q _ []]; [right; cinv|by right|done]. Qed.

Lemma cpinv_charge p : cpinv p → 0 ≤ m_Charge (p_ext p).
Proof. by intros [_ []]. Qed.

Lemma cstep_charge p p' : cstep p p' → 0 ≤ m_Charge (p_ext p') ≤ m_Charge (p_ext p).
Proof.
  intros [Hg|q (_ & _ & _ & Hc) _ [] Hi|q (Hi & _ & _ & Hc) []]; [split; [by apply cpinv_charge, (cgood_inv p)|apply Hg]|..];
  apply cpinv_charge in Hi; lia.
Qed.

(** ** Inside of a call

    A contract was called over the frames [ks]; [k0] is its frame, [nMin] and [nMax] limit its
    part of the stack, and [b0] is the stack of that moment.  The frames above keep limits
    within these. *)

Notation key := (list Z * Z * Z * Z * Z)%type.

Fixpoint above (nMin nMax : Z) (ks : list key) (nPosMin nBytesMax : Z) : Prop :=
  nBytesMax ≤ nMax ∧
  match ks with
  | [] => nPosMin = nMin
  | (_, _, m, x, _) :: ks => nMin ≤ nPosMin ∧ above nMin nMax ks m x
  end.

Lemma above_min nMin nMax ks m x : above nMin nMax ks m x → nMin ≤ m.
Proof. destruct ks as [|[[[[] ?] ?] ?] ks]; cbn; lia. Qed.
Lemma above_max nMin nMax ks m x : above nMin nMax ks m x → x ≤ nMax.
Proof. destruct ks as [|[[[[] ?] ?] ?] ks]; cbn; lia. Qed.

Definition outer (nMin nMax : Z) (b0 : list Z) (s : Stack_t) : Prop :=
  take (Z.to_nat (4 * nMin)) (m_pPtr s) = take (Z.to_nat (4 * nMin)) b0 ∧
  drop (Z.to_nat nMax) (m_pPtr s) = drop (Z.to_nat nMax) b0 ∧ length (m_pPtr s) = length b0.

Definition inside nMin nMax b0 (k0 : key) ks p : Prop :=
  cpinv p ∧ outer nMin nMax b0 (m_Stack p) ∧
  ∃ pre, fkeys p = pre ++ k0 :: ks ∧ above nMin nMax pre (m_PosMin (m_Stack p)) (m_BytesMax (m_Stack p)).

(** The call is over. *)
Definition left nMin nMax b0 (k0 : key) ks p : Prop :=
  outer nMin nMax b0 (m_Stack p) ∧ fkeys p = ks ∧ m_Pos (m_Stack p) = nMin ∧ 0 ≤ m_Charge (p_ext p) ∧
  let s := m_Stack p in ∃ cid ra, k0 = (cid, ra, m_PosMin s, m_BytesMax s, m_BytesCurrent s).

Lemma inside_good nMin nMax b0 k0 ks p q : inside nMin nMax b0 k0 ks p → cgood p q → inside nMin nMax b0 k0 ks q.
Proof.
  intros (_ & (O1 & O2 & O3) & pre & Ek & Ha) (I' & [] & Hk & _). pose proof (above_min _ _ _ _ _ Ha) as Hmin. pose proof (above_max _ _ _ _ _ Ha) as Hmax.
  split; [done|]. split; [|exists pre; rewrite Hk, sf_min, sf_max; done]. split_and!; [| |lia].
  - rewrite <- O1. eapply take_eq_le; [|exact sf_low]. lia.
  - rewrite <- O2. eapply drop_eq_le; [|exact sf_high]. lia.
Qed.

Lemma inside_step nMin nMax b0 k0 ks p p' : inside nMin nMax b0 k0 ks p → cstep p p' → inside nMin nMax b0 k0 ks p' ∨ left nMin nMax b0 k0 ks p'.
Proof.
  intros Hi [Hg|q Hg Es Hc Hp'|q Hg Hr]; [left; by eapply inside_good|..];
  apply (inside_good _ _ _ _ _ _ q) in Hi; [|done| |done];
  destruct Hi as ([[[] _] Hxi] & (O1 & O2 & O3) & pre & Ek & Ha); pose proof (xi_charge _ Hxi) as Hch; pose proof (above_min _ _ _ _ _ Ha) as Hmin; pose proof (above_max _ _ _ _ _ Ha) as Hmax.
  - left. destruct Hc as [(cid & ra & Kc) Hm Hx _ Hl Hlow Hhigh]. split; [done|]. split.
    + split_and!; [| |lia].
      * rewrite <- O1. eapply take_eq_le; [|exact Hlow]. lia.
      * rewrite <- O2. eapply drop_eq_le; [|exact Hhigh]. lia.
    + eexists (_ :: pre). rewrite Kc, Ek. split; [done|]. cbn. split; [lia|]. split; [lia|done].
  - destruct Hr as [(cid & ra & Kr) Hpos Hptr Hrc Hinv]. rewrite Ek in Kr. rewrite <- Hptr in *.
    destruct pre as [|[[[[c r] m] x] cur] pre]; cbn in Kr, Ha.
    + right. injection Kr as -> ->. split; [done|]. split; [done|]. split; [lia|]. split; [lia|]. by eexists _, _.
    + left. injection Kr as -> -> -> -> -> Kr. split; [destruct Hinv as [Hn|]; [|done]; rewrite Hn in Kr; by destruct pre|].
      split; [done|]. exists pre. split; [done|apply Ha].
Qed.

Section run.
Context (hf4 : bool) (OnHost : Z → CM ()).
#[local] Existing Instance Contract_virtuals.
#[local] Instance virtuals : Virtuals Contract := Contract_virtuals hf4 OnHost.

(** What is asked of the functions of the host that are not modelled. *)
Definition host_ok : Prop := ∀ U n p, cpinv p → fkeys p ≠ [] → wp U (OnHost n) p (λ _ p', cgood p p').

Lemma wp_InvokeExt U n p (Q : () → Processor Contract → Prop) : host_ok → cpinv p → fkeys p ≠ [] →
  (n = 0x1a → ∀ x q, Pop 32 p = Ok (x, q) → ¬ heap_bad p (AlignUp x)) →
  (∀ p', cgood p p' → Q () p') →
  (∀ q p', cgood p q → m_Stack q = set_Pos (m_Pos (m_Stack p) - 5) (m_Stack p) → called q p' → cpinv p' → Q () p') →
  wp U (InvokeExt_c hf4 OnHost n) p Q.
Proof.
  intros Hh Hp Hf Ha HQ HC. assert (wp U (OnHost n) p Q) as Hd.
  { eapply wp_mono; [by apply Hh|]. intros [] p'. apply HQ. }
  unfold InvokeExt_c. repeat (match goal with |- wp _ (match ?x with _ => _ end) _ _ => destruct x end; try exact Hd).
  all: lazymatch goal with
    | |- wp _ Method_Memcpy _ _ => by apply cwp_Memcpy
    | |- wp _ Method_Memset _ _ => by apply cwp_Memset
    | |- wp _ Method_Memcmp _ _ => by apply cwp_Memcmp
    | |- wp _ Method_Memis0 _ _ => by apply cwp_Memis0
    | |- wp _ Method_Strlen _ _ => by apply cwp_Strlen
    | |- wp _ Method_Strcmp _ _ => by apply cwp_Strcmp
    | |- wp _ Method_StackAlloc _ _ => by apply cwp_StackAlloc
    | |- wp _ Method_StackFree _ _ => by apply cwp_StackFree
    | |- wp _ Method_Heap_Free _ _ => by apply cwp_Heap_Free
    | |- wp _ Method_LoadVar _ _ => by apply cwp_LoadVar
    | |- wp _ Method_get_CallDepth _ _ => by apply cwp_get_CallDepth
    | |- wp _ Method_get_CallerCid _ _ => by apply cwp_get_CallerCid
    | |- wp _ (Method_SaveVar _) _ _ => by apply cwp_SaveVar
    | |- wp _ Method_CallFar _ _ => by apply wp_Method_CallFar
    | |- wp _ Method_Heap_Alloc _ _ => apply cwp_Heap_Alloc; [done|by apply Ha|done]
    | |- wp _ (lift Exc) _ _ => apply wp_exc
    end.
Qed.

Lemma wp_RunOnce_c U p : host_ok → cpinv p → fkeys p ≠ [] → (traps p → U) → ¬ heap_trap p → wp U RunOnce p (λ _ p', cstep p p').
Proof.
  intros Hh Hp Hf HU Ha. pose proof Hp as [Hi Hx].
  assert (∀ q, good p q → cgood p q ∧ fkeys q ≠ []) as Hgc.
  { intros q Hg. apply good_cgood in Hg; [|done]. split; [done|]. by destruct Hg as (_ & _ & -> & _). }
  apply wp_RunOnce; [done|done|intros p' Hg; apply step_in; by apply Hgc|..]; intros n p1 Hg Hn; destruct (Hgc _ Hg) as [Hc Hf1].
  - pose proof Hc as ([Hi1 Hx1] & Hs1 & Hk1 & Hch). apply wp_OnCall_b; [apply cpinv_binv; cinv| |done|lia|].
    { by destruct Hi1 as [_ []]. }
    intros p' I' K' S' C'. apply step_in. split_and!; [done| |congruence|lia]. by rewrite S'.
  - apply wp_OnRet_c; [cinv|done|lia|..].
    + intros p' Hg' _. apply step_in. by eapply cgood_trans.
    + intros q p' Hg' _ Hr. eapply step_ret; [|done]. by eapply cgood_trans.
  - intros Es He. apply wp_InvokeExt; [done|cinv|done|..].
    + intros -> x q Hpop Hb. destruct (Pop_same_stack p p1 x q) as [q' Hq]; [done..|]. apply Ha. split; [done|]. exists x, q'. split; [done|].
      destruct Hg as [_ []]. unfold heap_bad in *. by rewrite <- fr_mem.
    + intros p' Hg'. apply step_in. by eapply cgood_trans.
    + intros q p' Hg' Eq Hc' I'. rewrite Es in Eq. eapply step_call; [by eapply cgood_trans|done..].
Qed.

(** The state in which the instruction of a cycle runs. *)
Definition charged p : Processor Contract := set_ext (set_Charge (m_Charge (p_ext p) - Cost_Cycle) (p_ext p)) p.

Lemma wp_cycle U p : host_ok → cpinv p → fkeys p ≠ [] → (traps (charged p) → U) → ¬ heap_trap (charged p) →
  wp U (cycle hf4 OnHost) p (λ _ p', cgood p (charged p) ∧ cstep (charged p) p').
Proof.
  intros Hh Hp Hf HU Ha. unfold cycle. apply wp_bind, cwp_Discharge; [done|]. intros _ Hg. specialize (Hg ltac:(done)).
  eapply wp_mono; [apply wp_RunOnce_c; [done|cinv|done|done|done]|]. done.
Qed.

Lemma fkeys_IsDone p : fkeys p = [] ↔ IsDone p = true.
Proof. unfold fkeys, IsDone. by destruct (m_FarCalls (p_ext p)). Qed.

Lemma called_inside p p' : cpinv p → called p p' → cpinv p' → ∃ cid ra,
  inside (m_PosMin (m_Stack p')) (m_BytesMax (m_Stack p')) (m_pPtr (m_Stack p))
    (cid, ra, m_PosMin (m_Stack p), m_BytesMax (m_Stack p), m_BytesCurrent (m_Stack p)) (fkeys p) p'.
Proof.
  intros [[[] _] _] [(cid & ra & Hk) Hm Hx _ Hl Hlow Hhigh] Hp'. exists cid, ra. split; [done|]. split.
  - split_and!; [by rewrite Hm|eapply drop_eq_le; [|exact Hhigh]; lia|done].
  - exists []. by rewrite Hk.
Qed.

Lemma inside_not_done nMin nMax b0 k0 ks p : inside nMin nMax b0 k0 ks p → fkeys p ≠ [].
Proof. intros (_ & _ & pre & Ek & _). rewrite Ek. by destruct pre. Qed.

(** The states after some cycles. *)
Inductive reach p : Processor Contract → Prop :=
| reach_refl : reach p p
| reach_cycle q q' : reach p q → IsDone q = false → cycle hf4 OnHost q = Ok ((), q') → reach p q'.

Lemma reach_front p p1 q : IsDone p = false → cycle hf4 OnHost p = Ok ((), p1) → reach p1 q → reach p q.
Proof. intros Hd Hc Hr. induction Hr; [eapply reach_cycle; [apply reach_refl|done..]|by eapply reach_cycle]. Qed.

Lemma reach_inv p q : host_ok → cpinv p → (∀ q, reach p q → IsDone q = false → ¬ bad_op (charged q)) → reach p q → IsDone q = true ∨ cpinv q.
Proof.
  intros Hh Hp Hb. induction 1 as [|q q' Hr IH Hd Hc]; [by right|]. destruct IH as [IH|IH]; [congruence|]. specialize (Hb q Hr Hd). unfold bad_op in Hb.
  pose proof (wp_cycle False q Hh IH) as H. unfold wp in H. rewrite Hc in H. destruct H as [_ Hs]; [intros Hf%fkeys_IsDone; congruence|tauto..|].
  destruct (cstep_inv _ _ Hs) as [Hf|]; [left; by apply fkeys_IsDone|by right].
Qed.

(** A contract called by the node: the loop ends within the charge, with the stack as it was. *)
Lemma wp_run_loop fuel nMin nMax b0 k0 p : host_ok → inside nMin nMax b0 k0 [] p ∨ left nMin nMax b0 k0 [] p →
  (∀ q, reach p q → IsDone q = false → ¬ bad_op (charged q)) → m_Charge (p_ext p) < Z.of_nat fuel →
  wp False (run_loop hf4 OnHost fuel) p (λ b p', b = true ∧ left nMin nMax b0 k0 [] p' ∧ m_Charge (p_ext p') ≤ m_Charge (p_ext p)).
Proof.
  intros Hh. revert p. induction fuel as [|fuel IH]; intros p Hi Hb Hc; cbn [run_loop]; apply wp_bind, wp_gets; cbn [id].
  all: destruct Hi as [Hi|Hl]; [|assert (IsDone p = true) as -> by (apply fkeys_IsDone, Hl); by apply wp_ret].
  { destruct Hi as ([_ []] & _). lia. }
  pose proof (inside_not_done _ _ _ _ _ _ Hi) as Hf. destruct (IsDone p) eqn:Ed; [by apply fkeys_IsDone in Ed|].
  assert (¬ bad_op (charged p)) as Hb0 by (apply Hb; [apply reach_refl|done]).
  apply wp_bind, wp_eqn. eapply wp_mono; [apply wp_cycle; [done|apply Hi|done|..]; unfold bad_op in Hb0; tauto|].
  intros [] p1 [Hg Hs] E1. pose proof (cstep_charge _ _ Hs) as Hch. cbn in Hch. unfold charged, Cost_Cycle in Hch.
  eapply wp_mono; [apply IH|].
  - eapply inside_step; [|exact Hs]. by eapply inside_good.
  - intros q Hr. apply Hb. by eapply reach_front.
  - change (ChargeFor (20 * 1000 * 1000)) with 5 in Hch. lia.
  - intros b p' (-> & Hl & Hc'). split_and!; [done..|]. change (ChargeFor (20 * 1000 * 1000)) with 5 in Hch. lia.
Qed.

(** *** The call of the node *)

Lemma AlignUp_spec n : 0 ≤ n < 2 ^ 32 - 16 → n ≤ AlignUp n < n + 16 ∧ AlignUp n mod 16 = 0.
Proof.
  intros Hn. unfold AlignUp, s_Alignment. rewrite u32_small by lia.
  assert (Z.land (n + 16 - 1) (u32 (Z.lnot (16 - 1))) = (n + 15) / 16 * 16) as ->.
  { change (u32 (Z.lnot (16 - 1))) with (Z.land (Z.lnot (Z.ones 4)) (Z.ones 32)). rewrite Z.land_assoc, Z.land_ones, <- Z.ldiff_land, Z.ldiff_ones_r by lia.
    rewrite Z.shiftl_mul_pow2, Z.shiftr_div_pow2 by lia. change (2 ^ 4) with 16. replace (n + 16 - 1) with (n + 15) by lia.
    apply Z.mod_small. pose proof (Z.div_mod (n + 15) 16). pose proof (Z.mod_pos_bound (n + 15) 16). lia. }
  pose proof (Z.div_mod (n + 15) 16). pose proof (Z.mod_pos_bound (n + 15) 16). split; [lia|]. by apply Z.mod_mul.
Qed.

Lemma wp_PushAlias U b p (Q : () → Processor Contract → Prop) : cpinv p → bytes b → #b < 2 ^ 30 →
  (∀ p', cgood p p' → m_Pos (m_Stack p') = m_Pos (m_Stack p) → m_BytesCurrent (m_Stack p') = m_BytesCurrent (m_Stack p) - AlignUp #b → Q () p') →
  wp U (PushAlias b) p Q.
Proof.
  intros Hp Hb Hl HQ. unfold PushAlias, AliasAlloc. apply wp_bind, wp_bind, wp_gets, wp_bind, wp_test. intros Ht%Z.leb_le.
  apply wp_bind, wp_upd. unfold TestSelf. apply wp_bind, wp_gets, wp_bind, wp_test. intros H1%Z.leb_le. apply wp_test. intros H2%Z.leb_le. cbn in H1, H2.
  pose proof (set_BytesCurrent_cgood p _ Hp H1 H2) as Hg. set (p1 := set_stack _ p) in *. apply wp_bind, wp_gets.
  destruct (AlignUp_spec #b) as [Ha _]; [lia|]. pose proof Hp as [[[] _] _]. pose proof (cgood_inv _ _ Hg) as [Hi Hx]. pose proof Hi as [[] _].
  assert (m_BytesCurrent (m_Stack p1) = m_BytesCurrent (m_Stack p) - AlignUp #b) as Ec by done.
  destruct (wrn_Some (m_pPtr (m_Stack p1)) (m_BytesCurrent (m_Stack p1)) b) as (b' & -> & El & Hb' & Htk & Hdr); [lia|cbn in *; lia|].
  apply wp_bind, wp_lift; [|done]. intros m [= <-]. apply wp_upd, HQ; [|done|done]. eapply cgood_trans; [exact Hg|].
  apply good_cgood; [done|]. apply set_stack_good; [done|..].
  - split; cbn in *; try done; try lia. by apply Hb'.
  - split; cbn in *; try done; [apply Htk; lia|apply Hdr; lia].
Qed.

Lemma InitStackPlus_inv vStack vars mode charge n bSave : bytes vStack → vars_ok vars → 0 ≤ charge → 0 ≤ n < 2 ^ 29 →
  cpinv (InitStackPlus vStack vars mode charge n bSave).
Proof.
  intros Hb Hv Hc Hn. unfold InitStackPlus, StackSize. rewrite u32_small by lia. set (w := 4 * ((0x10000 + n + 3) / 4)).
  assert (0x10000 + n ≤ w < 2 ^ 30) as Hw. { unfold w. pose proof (Z.div_mod (0x10000 + n + 3) 4). pose proof (Z.mod_pos_bound (0x10000 + n + 3) 4). lia. }
  assert (length (take (Z.to_nat w) (vStack ++ zeros (Z.to_nat w - length vStack))) = Z.to_nat w) as Hl.
  { rewrite length_take, length_app, length_zeros. lia. }
  split; [split|].
  - split; cbn -[w take zeros app Z.to_nat]; rewrite ?Hl; try lia. by apply bytes_zero_ext.
  - split; cbn; try done; apply bytes_nil.
  - split; cbn; try done. by exists ∅; apply heap_rel_empty.
Qed.

Lemma wp_Invoke_call cid args iMethod p : cpinv p → #cid = 32 → bytes cid → 0 ≤ iMethod → bytes args → #args < 2 ^ 30 →
  wp False (Invoke_call cid args iMethod) p (λ _ p', ∃ q, cgood p q ∧ m_Pos (m_Stack q) = m_Pos (m_Stack p) ∧
    m_BytesCurrent (m_Stack q) = m_BytesCurrent (m_Stack p) - AlignUp #args ∧ called q p' ∧ cpinv p').
Proof.
  intros Hp Hc Hcb Hm Ha Hl. unfold Invoke_call. apply wp_bind, wp_PushAlias; [done..|]. intros q Hg Ep Ec.
  apply wp_bind. unfold get_AlasSp. apply wp_bind, wp_gets, wp_ret. apply wp_CallFar; [cinv|done..|]. intros p' I' C' _ _ _. by exists q.
Qed.

(** *** A call by a contract *)

(** The states after some cycles, as long as there are more than [d] calls. *)
Inductive reach_above (d : nat) p : Processor Contract → Prop :=
| ra_refl : reach_above d p p
| ra_cycle q q' : reach_above d p q → (d < depth q)%nat → ¬ heap_trap (charged q) → cycle hf4 OnHost q = Ok ((), q') → reach_above d p q'.

Lemma cycle_cstep p p' : host_ok → cpinv p → IsDone p = false → ¬ heap_trap (charged p) → cycle hf4 OnHost p = Ok ((), p') →
  cgood p (charged p) ∧ cstep (charged p) p'.
Proof.
  intros Hh Hp Hd Hb E. pose proof (wp_cycle True p Hh Hp) as H. unfold wp in H. rewrite E in H. apply H; [|done..].
  intros Hf%fkeys_IsDone. congruence.
Qed.

Lemma reach_above_inside nMin nMax b0 k0 ks p q : host_ok → inside nMin nMax b0 k0 ks p → reach_above (length ks) p q →
  if decide (length ks < depth q)%nat then inside nMin nMax b0 k0 ks q else left nMin nMax b0 k0 ks q.
Proof.
  intros Hh Hi. assert (∀ q, inside nMin nMax b0 k0 ks q → (length ks < depth q)%nat) as Hin.
  { intros r (_ & _ & pre & E & _). rewrite <- fkeys_depth, E, length_app. cbn. lia. }
  induction 1 as [|q q' _ IH Hd Hb Hc]; [rewrite decide_True by (by apply Hin); done|].
  rewrite decide_True in IH by done. destruct (cycle_cstep q q') as [Hg Hs]; [done|apply IH| |done|done|].
  { destruct (IsDone q) eqn:Ed; [apply fkeys_IsDone in Ed; rewrite <- fkeys_depth, Ed in Hd; cbn in Hd; lia|done]. }
  eapply inside_good in IH; [|exact Hg]. destruct (inside_step _ _ _ _ _ _ _ IH Hs) as [Hi'|Hl'].
  - rewrite decide_True by (by apply Hin). done.
  - rewrite decide_False; [done|]. destruct Hl' as (_ & E & _). rewrite <- fkeys_depth, E. lia.
Qed.

End run.
