(* ===== verification/BvmProps.v ===== *)
(** * Properties of the virtual machine

    Numbers of the bytecode, the heap of a contract, and runs of contracts. *)

From stdpp Require Import base list numbers option gmap.
From S2P Require Import Prelude WasmReader WasmProcessor WasmSafety BvmHeap BvmHeapSpec BvmProcessor BvmSafety BvmCalls BvmRun.
Local Open Scope Z_scope.

(** ** Numbers in the bytecode *)

(** C22. What the writer of the compiler emits is read back: unsigned numbers in every mode of the
    reader, signed ones in the standard mode, with the rest of the buffer left. *)
Theorem Leb_roundtrip W x rest : W = 32 ∨ W = 64 →
  (0 ≤ x < 2 ^ W → ∀ mode, ReadInternal W false mode (WriteResU x ++ rest) = Ok (x, WriteResU x, rest, false)) ∧
  (- 2 ^ (W - 1) ≤ x < 2 ^ (W - 1) → ∃ t, ReadInternal W true Standard (WriteResS x ++ rest) = Ok (x mod 2 ^ W, WriteResS x, rest, t)).
Proof.
  intros HW. assert (0 < W ≤ 64) as HW' by (destruct HW as [->| ->]; lia). split; intros Hx.
  - intros mode. pose proof (Z.pow_le_mono_r 2 W 64 ltac:(lia) ltac:(lia)) as Hp. unfold ReadInternal, WriteResU. unfold u64. rewrite Z.mod_small by lia.
    rewrite WriteResU_read; [by rewrite Z.mul_1_r|lia|lia| |lia|lia|done].
    change (7 * Z.of_nat 10) with 70. pose proof (Z.pow_le_mono_r 2 W 70 ltac:(lia) ltac:(lia)). lia.
  - pose proof (Z.pow_le_mono_r 2 (W - 1) 69 ltac:(lia) ltac:(lia)) as Hp.
    destruct (WriteResS_read W 10 x 0 0 [] rest) as [t Ht]; [lia|lia|change (7 * Z.of_nat 10 - 1) with 69; lia|by rewrite Z.sub_0_r|].
    exists t. unfold ReadInternal, WriteResS. rewrite Ht. by rewrite Z.mul_1_r.
Qed.

Lemma Leb_roundtrip_witness :
  ReadInternal 32 false Restrict (WriteResU 300 ++ [7]) = Ok (300, [0xac; 0x02], [7], false) ∧
  ∃ t, ReadInternal 64 true Standard (WriteResS (-2 ^ 63) ++ []) = Ok ((-2 ^ 63) mod 2 ^ 64, WriteResS (-2 ^ 63), [], t).
Proof.
  split.
  - apply (proj1 (Leb_roundtrip 32 300 [7] (or_introl eq_refl)) ltac:(lia) Restrict).
  - apply (proj2 (Leb_roundtrip 64 (-2 ^ 63) [] (or_intror eq_refl))). lia.
Defined.

(** C23. A number that the compiler reads with [AutoWorkAround] is left in the buffer such that
    the reader finds the same number there in every mode, the strict one and the ones that
    emulate the old builds included, and triggers nothing. *)
Theorem AutoWorkAround_portable W bSigned buf v used rest t : W = 32 ∨ W = 64 → bytes buf →
  ReadInternal W bSigned AutoWorkAround buf = Ok (v, used, rest, t) →
  length (used ++ rest) = length buf ∧ ∀ mode, ReadInternal W bSigned mode (used ++ rest) = Ok (v, used, rest, false).
Proof.
  intros HW Hb HR. destruct (AutoWorkAround_read W bSigned ltac:(by destruct HW as [->| ->]) ltac:(lia) buf 0 0 [] v used rest t) as (l & -> & _ & El & Hm); [done..|].
  split; [done|]. intros mode. apply (Hm mode []).
Qed.

Lemma AutoWorkAround_portable_witness :
  let buf := [0x80; 0x80; 0x80; 0x80; 0x78; 0x0b] in
  ReadInternal 32 true AutoWorkAround buf = Ok (0x80000000, [0x80; 0x80; 0x80; 0x80; 0x38], [0x0b], true) ∧
  ReadInternal 32 true Restrict buf = Exc ∧
  ReadInternal 32 true Restrict ([0x80; 0x80; 0x80; 0x80; 0x38] ++ [0x0b]) = Ok (0x80000000, [0x80; 0x80; 0x80; 0x80; 0x38], [0x0b], false).
Proof.
  split; [reflexivity|]. split; [reflexivity|].
  apply (AutoWorkAround_portable 32 true [0x80; 0x80; 0x80; 0x80; 0x78; 0x0b] 0x80000000 _ _ true); [by left|repeat constructor; lia|reflexivity].
Defined.

(** ** The heap

    The heap is used by a sequence of operations on a memory of a size that grows.  What they
    answer is what a map from the allocated addresses to sizes allows. *)

Inductive heap_op :=
| Op_Alloc (size : Z)
| Op_Free (ptr : Z)
| Op_Test (ptr size : Z)
| Op_Grow (n : Z).

Definition heap_exec (h : Heap.t) (n : Z) (o : heap_op) : res (option Z * Heap.t * Z) :=
  match o with
  | Op_Alloc size => '(r, h) ← Heap.Alloc h size; mret (r, h, n)
  | Op_Free ptr => h ← Heap.Free h ptr; mret (None, h, n)
  | Op_Test ptr size => Heap.Test h ptr size;; mret (None, h, n)
  | Op_Grow n' => h ← Heap.OnGrow h n n'; mret (None, h, n')
  end.

(** The answers up to the first failure. *)
Fixpoint heap_run (h : Heap.t) (n : Z) (ops : list heap_op) : res (list (option Z)) :=
  match ops with
  | [] => mret []
  | o :: ops => '(r, h, n) ← heap_exec h n o; rs ← heap_run h n ops; mret (r :: rs)
  end.

Fixpoint heap_ops_ok (n : Z) (ops : list heap_op) : Prop :=
  match ops with
  | [] => True
  | Op_Alloc size :: ops => 0 < size ∧ heap_ops_ok n ops
  | Op_Free _ :: ops => heap_ops_ok n ops
  | Op_Test ptr size :: ops => 0 ≤ ptr < 2 ^ 32 ∧ 0 ≤ size < 2 ^ 32 ∧ heap_ops_ok n ops
  | Op_Grow n' :: ops => n < n' < 2 ^ 32 ∧ heap_ops_ok n' ops
  end.

Definition within (M : gmap Z Z) (ptr size : Z) : Prop := ∃ q s, M !! q = Some s ∧ q ≤ ptr ∧ ptr + size ≤ q + s.

(** An allocation finds a place that is apart from all others whenever there is one; a free
    and a test fail exactly when the block is not allocated. *)
Inductive map_run (M : gmap Z Z) (n : Z) : list heap_op → res (list (option Z)) → Prop :=
| mr_nil : map_run M n [] (Ok [])
| mr_alloc size r ops rs : M !! r = None → 0 ≤ r → r + size ≤ n → apart_from M r size →
    map_run (<[r := size]> M) n ops rs → map_run M n (Op_Alloc size :: ops) (rs ← rs; Ok (Some r :: rs))
| mr_full size ops rs : (∀ r, 0 ≤ r → r + size ≤ n → ¬ apart_from M r size) →
    map_run M n ops rs → map_run M n (Op_Alloc size :: ops) (rs ← rs; Ok (None :: rs))
| mr_free ptr s ops rs : M !! ptr = Some s → map_run (delete ptr M) n ops rs → map_run M n (Op_Free ptr :: ops) (rs ← rs; Ok (None :: rs))
| mr_free_exc ptr ops : M !! ptr = None → map_run M n (Op_Free ptr :: ops) Exc
| mr_test ptr size ops rs : within M ptr size → map_run M n ops rs → map_run M n (Op_Test ptr size :: ops) (rs ← rs; Ok (None :: rs))
| mr_test_exc ptr size ops : ¬ within M ptr size → map_run M n (Op_Test ptr size :: ops) Exc
| mr_grow n' ops rs : map_run M n' ops rs → map_run M n (Op_Grow n' :: ops) (rs ← rs; Ok (None :: rs)).

Lemma heap_run_rel ops h n M : heap_rel h n M → heap_ops_ok n ops → map_run M n ops (heap_run h n ops).
Proof.
  revert h n M. induction ops as [|[size|ptr|ptr size|n'] ops IH]; intros h n M HR Hok; cbn [heap_run heap_exec heap_ops_ok] in *; [constructor|..].
  - destruct Hok as [Hs Hok]. pose proof (Alloc_spec h n M size HR Hs) as HA. destruct (Heap.Alloc h size) as [[[r|] h']| |]; [..|done|done].
    + destruct HA as (H1 & H2 & H3 & H4 & H5). by apply mr_alloc; [..|apply IH].
    + destruct HA as [-> HA]. by apply mr_full; [|apply IH].
  - pose proof (Free_rel h n M ptr HR) as HF. destruct (M !! ptr) as [s|] eqn:E.
    + destruct HF as (h' & -> & HR'). eapply mr_free; [done|]. by apply IH.
    + rewrite HF. by apply mr_free_exc.
  - destruct Hok as (Hp & Hs & Hok). destruct (Test_rel h n M ptr size HR Hp Hs) as [[-> Hw]|[-> Hw]]; [apply mr_test; [done|by apply IH]|by apply mr_test_exc].
  - destruct Hok as [Hn Hok]. destruct (OnGrow_rel h n n' M HR) as (h' & -> & HR'); [lia..|]. apply mr_grow. by apply IH.
Qed.



(** ** Runs of contracts *)

(** *** Examples

    A contract with three methods that share their code, a host without further functions, and
    a check that a run has no undefined operations. *)

Definition module (body : list Z) : list Z := le 4 s_Version ++ le 4 3 ++ le 4 0 ++ le 4 28 ++ le 4 28 ++ le 4 28 ++ le 4 28 ++ body.
Definition no_host (n : Z) : CM () := lift Exc.

Definition cid_of (n : Z) : list Z := replicate 32 n.
Definition op_return : list Z := [0x0f; 0; 0; 1].

(** Calls the method 2 of the contract whose name follows the code. *)
Definition op_call : list Z := [0x41; 0x10; 0x41; 2; 0x41; 0; 0x41; 0; 0x41; 0; 0xf3; 0x23] ++ op_return ++ cid_of 2.

Definition example_vars : gmap (list Z) (list Z) := <[cid_of 1 := module op_call]> {[cid_of 2 := module op_return]}.

#[local] Notation start := (InitStackPlus [] example_vars Standard 100000 (AlignUp #(@nil Z)) false).

Lemma no_host_ok : host_ok no_host.
Proof. intros U n p _ _. apply wp_exc. Qed.

(** Neither a signed division, a table of branches nor an allocation is next. *)
Definition quiet (p : Processor Contract) : bool :=
  match head (rest_of p) with
  | None => true
  | Some c =>
    match Instruction_of c with
    | Some (I_bin _ B_div_s) | Some (I_bin _ B_rem_s) | Some I_br_table => false
    | Some I_call_ext =>
      match ReadInternal 32 false (m_Mode p) (rest_of (set_ip (m_Ip p + 1) p)) with Ok (0x1a, _, _, _) => false | _ => true end
    | _ => true
    end
  end.

Lemma quiet_bad_op p : quiet p = true → ¬ bad_op p.
Proof.
  unfold quiet. intros Hq [[(W & o & a & b & p1 & p2 & (c & E1 & E2) & [->| ->] & _)|[E1 _]]|[(c & E1 & E2 & used & rest & t & E3) _]].
  all: by rewrite ?E1, ?E2, ?E3 in Hq.
Qed.

Fixpoint quiet_run (fuel : nat) (p : Processor Contract) : bool :=
  match fuel with
  | O => false
  | S fuel =>
    if IsDone p then true
    else quiet (charged p) && match cycle true no_host p with Ok (_, p') => quiet_run fuel p' | _ => true end
  end.

Lemma reach_cases p q : reach true no_host p q → q = p ∨ (IsDone p = false ∧ ∃ p', cycle true no_host p = Ok ((), p') ∧ reach true no_host p' q).
Proof.
  induction 1 as [|q q' Hr IH Hd Hc]; [by left|]. right. destruct IH as [->|(Hp & p' & Hp' & Hr')]; [split; [done|]; exists q'; split; [done|constructor]|].
  split; [done|]. exists p'. split; [done|]. by eapply reach_cycle.
Qed.

Lemma quiet_run_ok fuel p : quiet_run fuel p = true → ∀ q, reach true no_host p q → IsDone q = false → ¬ bad_op (charged q).
Proof.
  revert p. induction fuel as [|fuel IH]; intros p; cbn [quiet_run]; [done|]. intros Hq q [->|(Hp & p' & Hc & Hr)]%reach_cases Hd.
  - rewrite Hd in Hq. apply andb_prop in Hq as [Hq _]. by apply quiet_bad_op.
  - rewrite Hp, Hc in Hq. apply andb_prop in Hq as [_ Hq]. by eapply IH.
Qed.

(** The state after [n] cycles. *)
Fixpoint cycles (n : nat) (p : Processor Contract) : res (Processor Contract) :=
  match n with
  | O => Ok p
  | S n => if IsDone p then Exc else match cycle true no_host p with Ok (_, p') => cycles n p' | Exc => Exc | UB => UB end
  end.

Lemma cycles_reach n p q : cycles n p = Ok q → reach true no_host p q.
Proof.
  revert p. induction n as [|n IH]; intros p; cbn [cycles]; [intros [= ->]; constructor|]. destruct (IsDone p) eqn:Ed; [done|].
  destruct (cycle true no_host p) as [[[] p']| |] eqn:E; [|done..]. intros Hr%IH. by eapply reach_front.
Qed.

Lemma example_vars_ok : vars_ok example_vars.
Proof.
  unfold example_vars.
  intros k c [[_ <-]|[_ [_ <-]%lookup_singleton_Some]]%lookup_insert_Some; (split; [by apply bytes_check; vm_compute|by vm_compute]).
Qed.

Lemma start_inv : cpinv start.
Proof. apply InitStackPlus_inv; [apply bytes_nil|apply example_vars_ok|lia|by vm_compute]. Qed.

(** The caller of the example is about to call ([p]), the callee runs ([p1]) and returns ([p2]). *)
Definition example_check (p p1 p2 : Processor Contract) : bool :=
  negb (IsDone p) && quiet (charged p) && quiet (charged p1) && bool_decide (depth p1 = S (depth p)) && bool_decide (depth p2 = depth p).

Definition example_ok (r : res (() * Processor Contract)) : bool :=
  match r with
  | Ok (_, a) => quiet_run 20 a && match cycles 5 a with
    | Ok p => match cycle true no_host p with
      | Ok (_, p1) => match cycle true no_host p1 with Ok (_, p2) => example_check p p1 p2 | _ => false end
      | _ => false end
    | _ => false end
  | _ => false end.

Lemma example_run : example_ok (Invoke_call (cid_of 1) [] 2 start) = true.
Proof. vm_compute. reflexivity. Qed.

Definition is_ok {A} (r : res A) : bool := match r with Ok _ => true | _ => false end.

Lemma example_ends : is_ok (Invoke_run true no_host (cid_of 1) [] 2 start) = true.
Proof. vm_compute. reflexivity. Qed.

Lemma example_quiet p1 q : Invoke_call (cid_of 1) [] 2 start = Ok ((), p1) → reach true no_host p1 q → IsDone q = false → ¬ bad_op (charged q).
Proof. intros E. pose proof example_run as H. rewrite E in H. cbn [example_ok] in H. apply andb_prop in H as [H _]. by eapply quiet_run_ok. Qed.

Lemma example_start p a : cpinv p → Invoke_call (cid_of 1) [] 2 p = Ok ((), a) → cpinv a.
Proof.
  intros Hp E. assert (bytes (cid_of 1)) as Hc by (by apply bytes_check).
  pose proof (wp_Invoke_call (cid_of 1) [] 2 p Hp eq_refl Hc ltac:(lia) bytes_nil ltac:(cbn; lia)) as Ha.
  unfold wp in Ha. rewrite E in Ha. by destruct Ha as (_ & _ & _ & _ & _ & Ia).
Qed.

Lemma example_call : ∃ p p1 p2, cpinv p ∧ cycle true no_host p = Ok ((), p1) ∧ cycle true no_host p1 = Ok ((), p2) ∧ example_check p p1 p2 = true.
Proof.
  pose proof example_run as H. pose proof (λ a, example_start start a start_inv) as Ia. generalize dependent (Invoke_call (cid_of 1) [] 2 start). intros r H Ia.
  destruct r as [[[] a]| |]; [|done..]. specialize (Ia a eq_refl). cbn [example_ok] in H.
  apply andb_prop in H as [Hq H]. destruct (cycles 5 a) as [p| |] eqn:Ec; [|done..]. destruct (cycle true no_host p) as [[[] p1]| |] eqn:E1; [|done..].
  destruct (cycle true no_host p1) as [[[] p2]| |] eqn:E2; [|done..]. exists p, p1, p2. split_and!; [|done..].
  destruct (reach_inv true no_host a p no_host_ok Ia) as [Hd|Hi]; [by apply (quiet_run_ok 20)|by eapply cycles_reach| |done].
  unfold example_check in H. by rewrite Hd in H.
Qed.







(** *** What contracts can do to the node *)

Definition run_code (body : list Z) : res (bool * Processor Contract) :=
  Invoke_run true no_host (cid_of 1) [] 2 (InitStackPlus [] {[cid_of 1 := module body]} Standard 100000 0 false).

(** The least number by -1. *)
Definition op_div : list Z := [0x41; 0x80; 0x80; 0x80; 0x80; 0x78; 0x41; 0x7f; 0x6d].
(** A table of [2^32 - 1] labels and a default. *)
Definition op_table : list Z := [0x41; 0x80; 0x80; 0x80; 0x80; 0x04; 0x0e; 0xff; 0xff; 0xff; 0xff; 0x0f].
(** Allocations of 0 and of 16 bytes, both of which start at the address 0 of the heap, and a free. *)
Definition op_heap : list Z := [0x41; 0; 0xf3; 0x1a; 0x41; 0x10; 0xf3; 0x1a; 0xf3; 0x1b].
(** The byte after the code is set to 0x55. *)
Definition op_patch : list Z := [0x41; 0x0c; 0x41; 0xd5; 0x00; 0x3a; 0; 0] ++ op_return.


