(* ===== verification/WasmCompiler.v ===== *)
(** * bvm/wasm_interpreter: the compiler

    [Compiler] parses a WebAssembly file ([ParsePlus], one function per section), and
    [Compiler::Build] translates its functions to the instructions of the interpreter
    ([Context::CompileFunc]): it checks the types of the operands, turns variables into
    offsets on the stack and blocks into labels, which are resolved at the end.

    A byte of the file is read once, so that the repair of numbers that the reader makes in
    place is seen only in the instructions that are copied: [m_p0] keeps the bytes of the
    instruction as the reader left them.  Vectors used as stacks have their back at the head
    of the list. *)

From stdpp Require Import base list numbers option gmap.
From S2P Require Import Prelude WasmReader WasmProcessor.
Local Open Scope Z_scope.

(** ** Outcomes

    An exception, or an operation that is undefined, by the place of the source it is at. *)

Inductive site :=
| At_Reader | At_Types | At_Functions | At_ImportFuncs | At_ImportGlobals | At_Locals | At_Blocks | At_Branch | At_Items | At_Opcode
| At_Result | At_Data | At_MethodName | At_Header | At_Loop.

Inductive cres (A : Type) := COk (a : A) | CExc | CUB (s : site).
Arguments COk {A} _.
Arguments CExc {A}.
Arguments CUB {A} _.

#[export] Instance cres_ret : MRet cres := @COk.
#[export] Instance cres_bind : MBind cres := λ A B f m, match m with COk a => f a | CExc => CExc | CUB s => CUB s end.

Definition ctest (b : bool) : cres () := if b then COk () else CExc.
Definition at_site {A} (s : site) (o : option A) : cres A := match o with Some a => COk a | None => CUB s end.
Definition from_res {A} (s : site) (r : res A) : cres A := match r with Ok a => COk a | Exc => CExc | UB => CUB s end.

(** ** Reader of the file *)

(** Reads from the front of a buffer. *)
Definition rd_u32 (inp : list Z) : cres (Z * list Z) :=
  '(v, _, inp, _) ← from_res At_Reader (ReadInternal 32 false AutoWorkAround inp); mret (v, inp).
Definition rd_i32 (inp : list Z) : cres (Z * list Z) :=
  '(v, _, inp, _) ← from_res At_Reader (ReadInternal 32 true AutoWorkAround inp); mret (v, inp).
Definition rd_1 (inp : list Z) : cres (Z * list Z) := from_res At_Reader (Read1 inp).
Definition rd_n (n : Z) (inp : list Z) : cres (list Z * list Z) := from_res At_Reader (Consume n inp).

(** [Vec<T>::Read], [T] of one byte. *)
Definition Vec_Read (inp : list Z) : cres (list Z * list Z) := '(n, inp) ← rd_u32 inp; rd_n n inp.

(** [n] times, with the results in order. *)
Fixpoint rd_times {A} (n : nat) (f : list Z → cres (A * list Z)) (inp : list Z) : cres (list A * list Z) :=
  match n with
  | O => mret ([], inp)
  | S n => '(x, inp) ← f inp; '(l, inp) ← rd_times n f inp; mret (x :: l, inp)
  end.

(** ** The compiler *)

Record PerType := mkPerType { m_Args : list Z; m_Rets : list Z }.

Record PerImportFunc := mkImportFunc { if_sMod : list Z; if_sName : list Z; if_Binding : Z; if_TypeIdx : Z }.
Record GlobalVar := mkGlobalVar { m_Type : Z; m_IsVariable : Z }.
Record PerImportGlobal := mkImportGlobal { ig_sMod : list Z; ig_sName : list Z; ig_Binding : Z; ig_Var : GlobalVar }.

Record Local := mkLocal { l_Type : Z; l_SizeWords : Z; l_PosWords : Z }.
Record PerFunction := mkFunction { f_TypeIdx : Z; m_Locals : list Local; m_Expression : list Z }.

Record PerExport := mkExport { x_sName : list Z; x_Kind : Z; x_Idx : Z }.
Record Target := mkTarget { t_Pos : Z; t_iItem : Z }.

Record Compiler := mkCompiler {
  m_Types : list PerType;
  m_IndirectFuncs : list Z;
  m_ImportFuncs : list PerImportFunc;
  m_ImportGlobals : list PerImportGlobal;
  m_Functions : list PerFunction;
  m_Globals : list GlobalVar;
  m_Exports : list PerExport;
  m_Targets : list Target;
  m_Items : list Z;
  m_DataSeg : list Z;
  m_Result : list Z;
  m_cmplData0 : Z;
  m_cmplTable0 : Z;
}.

Definition Compiler_empty : Compiler := mkCompiler [] [] [] [] [] [] [] [] [] [] [] 0 0.

Definition set_Types x c := mkCompiler x (m_IndirectFuncs c) (m_ImportFuncs c) (m_ImportGlobals c) (m_Functions c) (m_Globals c) (m_Exports c) (m_Targets c) (m_Items c) (m_DataSeg c) (m_Result c) (m_cmplData0 c) (m_cmplTable0 c).
Definition set_IndirectFuncs x c := mkCompiler (m_Types c) x (m_ImportFuncs c) (m_ImportGlobals c) (m_Functions c) (m_Globals c) (m_Exports c) (m_Targets c) (m_Items c) (m_DataSeg c) (m_Result c) (m_cmplData0 c) (m_cmplTable0 c).
Definition set_ImportFuncs x c := mkCompiler (m_Types c) (m_IndirectFuncs c) x (m_ImportGlobals c) (m_Functions c) (m_Globals c) (m_Exports c) (m_Targets c) (m_Items c) (m_DataSeg c) (m_Result c) (m_cmplData0 c) (m_cmplTable0 c).
Definition set_ImportGlobals x c := mkCompiler (m_Types c) (m_IndirectFuncs c) (m_ImportFuncs c) x (m_Functions c) (m_Globals c) (m_Exports c) (m_Targets c) (m_Items c) (m_DataSeg c) (m_Result c) (m_cmplData0 c) (m_cmplTable0 c).
Definition set_Functions x c := mkCompiler (m_Types c) (m_IndirectFuncs c) (m_ImportFuncs c) (m_ImportGlobals c) x (m_Globals c) (m_Exports c) (m_Targets c) (m_Items c) (m_DataSeg c) (m_Result c) (m_cmplData0 c) (m_cmplTable0 c).
Definition set_Globals x c := mkCompiler (m_Types c) (m_IndirectFuncs c) (m_ImportFuncs c) (m_ImportGlobals c) (m_Functions c) x (m_Exports c) (m_Targets c) (m_Items c) (m_DataSeg c) (m_Result c) (m_cmplData0 c) (m_cmplTable0 c).
Definition set_Exports x c := mkCompiler (m_Types c) (m_IndirectFuncs c) (m_ImportFuncs c) (m_ImportGlobals c) (m_Functions c) (m_Globals c) x (m_Targets c) (m_Items c) (m_DataSeg c) (m_Result c) (m_cmplData0 c) (m_cmplTable0 c).
Definition set_Targets x c := mkCompiler (m_Types c) (m_IndirectFuncs c) (m_ImportFuncs c) (m_ImportGlobals c) (m_Functions c) (m_Globals c) (m_Exports c) x (m_Items c) (m_DataSeg c) (m_Result c) (m_cmplData0 c) (m_cmplTable0 c).
Definition set_Items x c := mkCompiler (m_Types c) (m_IndirectFuncs c) (m_ImportFuncs c) (m_ImportGlobals c) (m_Functions c) (m_Globals c) (m_Exports c) (m_Targets c) x (m_DataSeg c) (m_Result c) (m_cmplData0 c) (m_cmplTable0 c).
Definition set_DataSeg x d0 c := mkCompiler (m_Types c) (m_IndirectFuncs c) (m_ImportFuncs c) (m_ImportGlobals c) (m_Functions c) (m_Globals c) (m_Exports c) (m_Targets c) (m_Items c) x (m_Result c) d0 (m_cmplTable0 c).
Definition set_Result x c := mkCompiler (m_Types c) (m_IndirectFuncs c) (m_ImportFuncs c) (m_ImportGlobals c) (m_Functions c) (m_Globals c) (m_Exports c) (m_Targets c) (m_Items c) (m_DataSeg c) x (m_cmplData0 c) (m_cmplTable0 c).
Definition set_Table0 x c := mkCompiler (m_Types c) (m_IndirectFuncs c) (m_ImportFuncs c) (m_ImportGlobals c) (m_Functions c) (m_Globals c) (m_Exports c) (m_Targets c) (m_Items c) (m_DataSeg c) (m_Result c) (m_cmplData0 c) x.

(** *** Variables of a function *)

Definition get_SizeWords (v : list Local) : Z := match last v with None => 0 | Some l => u32 (l_PosWords l + l_SizeWords l) end.

Definition Locals_Add (v : list Local) (nType : Z) : cres (list Local) :=
  let nPosWords := get_SizeWords v in
  n ← from_res At_Reader (Words nType);
  mret (v ++ [mkLocal nType n nPosWords]).

Fixpoint Locals_AddMany (v : list Local) (ts : list Z) : cres (list Local) :=
  match ts with [] => mret v | t :: ts => v ← Locals_Add v t; Locals_AddMany v ts end.

(** ** Sections *)

(** [end_block] is 0x0b, [i32_const] is 0x41. *)
Definition ReadI32Initializer (inp : list Z) : cres (Z * list Z) :=
  '(b, inp) ← rd_1 inp;
  ctest (b =? 0x41);;
  '(val, inp) ← rd_i32 inp;
  '(b, inp) ← rd_1 inp;
  ctest (b =? 0x0b);;
  mret (val, inp).

Definition rd_PerType (inp : list Z) : cres (PerType * list Z) :=
  '(b, inp) ← rd_1 inp;
  ctest (b =? 0x60);;
  '(args, inp) ← Vec_Read inp;
  '(rets, inp) ← Vec_Read inp;
  ctest (#rets <=? 1);;
  mret (mkPerType args rets, inp).

Definition OnSection_Type (c : Compiler) (inp : list Z) : cres (Compiler * list Z) :=
  '(nCount, inp) ← rd_u32 inp;
  '(l, inp) ← rd_times (Z.to_nat nCount) rd_PerType inp;
  mret (set_Types l c, inp).

Definition no_binding : Z := 2 ^ 32 - 1.

Definition OnImport (c : Compiler) (inp : list Z) : cres (Compiler * list Z) :=
  '(sMod, inp) ← Vec_Read inp;
  '(sName, inp) ← Vec_Read inp;
  '(nKind, inp) ← rd_1 inp;
  match nKind with
  | 0 =>
    '(nTypeIdx, inp) ← rd_u32 inp;
    ctest (nTypeIdx <? #(m_Types c));;
    mret (set_ImportFuncs (m_ImportFuncs c ++ [mkImportFunc sMod sName no_binding nTypeIdx]) c, inp)
  | 1 => '(_, inp) ← rd_u32 inp; '(_, inp) ← rd_u32 inp; '(_, inp) ← rd_1 inp; mret (c, inp)
  | 2 => '(_, inp) ← rd_u32 inp; '(_, inp) ← rd_u32 inp; mret (c, inp)
  | 3 =>
    '(nType, inp) ← rd_1 inp;
    '(nVar, inp) ← rd_1 inp;
    mret (set_ImportGlobals (m_ImportGlobals c ++ [mkImportGlobal sMod sName no_binding (mkGlobalVar nType nVar)]) c, inp)
  | _ => CExc
  end.

Fixpoint OnImports (n : nat) (c : Compiler) (inp : list Z) : cres (Compiler * list Z) :=
  match n with O => mret (c, inp) | S n => '(c, inp) ← OnImport c inp; OnImports n c inp end.

Definition OnSection_Import (c : Compiler) (inp : list Z) : cres (Compiler * list Z) :=
  '(nCount, inp) ← rd_u32 inp; OnImports (Z.to_nat nCount) c inp.

Definition rd_PerFunction (c : Compiler) (inp : list Z) : cres (PerFunction * list Z) :=
  '(nTypeIdx, inp) ← rd_u32 inp;
  ctest (nTypeIdx <? #(m_Types c));;
  mret (mkFunction nTypeIdx [] [], inp).

Definition OnSection_Funcs (c : Compiler) (inp : list Z) : cres (Compiler * list Z) :=
  '(nCount, inp) ← rd_u32 inp;
  '(l, inp) ← rd_times (Z.to_nat nCount) (rd_PerFunction c) inp;
  mret (set_Functions l c, inp).

Definition rd_Table (inp : list Z) : cres (() * list Z) :=
  '(tblType, inp) ← rd_u32 inp;
  ctest (tblType =? 0x70);;
  '(nFlags, inp) ← rd_u32 inp;
  '(_, inp) ← rd_u32 inp;
  if negb (Z.land 1 nFlags =? 0) then '(_, inp) ← rd_u32 inp; mret ((), inp) else mret ((), inp).

Definition OnSection_Table (c : Compiler) (inp : list Z) : cres (Compiler * list Z) :=
  '(nCount, inp) ← rd_u32 inp;
  '(_, inp) ← rd_times (Z.to_nat nCount) rd_Table inp;
  mret (c, inp).

Definition rd_Global (inp : list Z) : cres (GlobalVar * list Z) :=
  '(nType, inp) ← rd_1 inp;
  '(nVar, inp) ← rd_1 inp;
  '(_, inp) ← ReadI32Initializer inp;
  mret (mkGlobalVar nType nVar, inp).

Definition OnSection_Global (c : Compiler) (inp : list Z) : cres (Compiler * list Z) :=
  '(nCount, inp) ← rd_u32 inp;
  '(l, inp) ← rd_times (Z.to_nat nCount) rd_Global inp;
  mret (set_Globals l c, inp).

Definition rd_Export (c : Compiler) (inp : list Z) : cres (PerExport * list Z) :=
  '(sName, inp) ← Vec_Read inp;
  '(nKind, inp) ← rd_1 inp;
  '(nIdx, inp) ← rd_u32 inp;
  if nKind =? 0 then
    let nIdx := u32 (nIdx - u32 #(m_ImportFuncs c)) in
    ctest (nIdx <? #(m_Functions c));;
    mret (mkExport sName nKind nIdx, inp)
  else mret (mkExport sName nKind nIdx, inp).

Definition OnSection_Export (c : Compiler) (inp : list Z) : cres (Compiler * list Z) :=
  '(nCount, inp) ← rd_u32 inp;
  '(l, inp) ← rd_times (Z.to_nat nCount) (rd_Export c) inp;
  mret (set_Exports l c, inp).

Definition rd_IndirectFunc (c : Compiler) (inp : list Z) : cres (Z * list Z) :=
  '(val, inp) ← rd_u32 inp;
  let val := u32 (val - u32 #(m_ImportFuncs c)) in
  ctest (val <? #(m_Functions c));;
  mret (val, inp).

(** The count is tested to be 1. *)
Definition OnSection_Element (c : Compiler) (inp : list Z) : cres (Compiler * list Z) :=
  '(nCount, inp) ← rd_u32 inp;
  ctest (nCount =? 1);;
  '(iTable, inp) ← rd_u32 inp;
  ctest (iTable =? 0);;
  '(nOffset, inp) ← ReadI32Initializer inp;
  ctest (nOffset =? 1);;
  '(nFuncs, inp) ← rd_u32 inp;
  '(l, inp) ← rd_times (Z.to_nat nFuncs) (rd_IndirectFunc c) inp;
  mret (set_IndirectFuncs l c, inp).

(** The declarations of the variables of a function; the rest is the body. *)
Fixpoint rd_LocalBlocks (n : nat) (v : list Local) (inp : list Z) : cres (list Local * list Z) :=
  match n with
  | O => mret (v, inp)
  | S n =>
    '(nVarsCount, inp) ← rd_u32 inp;
    '(nType, inp) ← rd_1 inp;
    v ← Locals_AddMany v (replicate (Z.to_nat nVarsCount) nType);
    rd_LocalBlocks n v inp
  end.

Definition rd_Body (c : Compiler) (x : PerFunction) (inp : list Z) : cres (PerFunction * list Z) :=
  '(nSize, inp) ← rd_u32 inp;
  '(inpFunc, inp) ← rd_n nSize inp;
  funcType ← at_site At_Types (m_Types c !! Z.to_nat (f_TypeIdx x));
  v ← Locals_AddMany (m_Locals x) (m_Args funcType);
  '(nBlocks, inpFunc) ← rd_u32 inpFunc;
  '(v, inpFunc) ← rd_LocalBlocks (Z.to_nat nBlocks) v inpFunc;
  mret (mkFunction (f_TypeIdx x) v inpFunc, inp).

Fixpoint rd_Bodies (c : Compiler) (l : list PerFunction) (inp : list Z) : cres (list PerFunction * list Z) :=
  match l with
  | [] => mret ([], inp)
  | x :: l => '(x, inp) ← rd_Body c x inp; '(l, inp) ← rd_Bodies c l inp; mret (x :: l, inp)
  end.

Definition OnSection_Code (c : Compiler) (inp : list Z) : cres (Compiler * list Z) :=
  '(nCount, inp) ← rd_u32 inp;
  ctest (nCount =? #(m_Functions c));;
  '(l, inp) ← rd_Bodies c (m_Functions c) inp;
  mret (set_Functions l c, inp).

(** A block of data, the first one if [bFirst].  Addresses are 32 bits wide, and so is the sum
    of an address and a size. *)
Definition OnData (bFirst : bool) (c : Compiler) (inp : list Z) : cres (Compiler * list Z) :=
  '(nAddr, inp) ← rd_u32 inp;
  '(nOffset, inp) ← ReadI32Initializer inp;
  let nAddr := u32 (nAddr + nOffset) in
  '(data, inp) ← Vec_Read inp;
  c ← (if bFirst then mret (set_DataSeg (m_DataSeg c) nAddr c)
       else ctest (m_cmplData0 c + #(m_DataSeg c) <=? nAddr);; mret c);
  if negb (#data =? 0) then
    let nAddr := u32 (nAddr - m_cmplData0 c) in
    let n := u32 (nAddr + #data) in
    let d := m_DataSeg c in
    let d := if #d <? n then d ++ zeros (Z.to_nat n - length d) else d in
    d ← at_site At_Data (wrn d nAddr data);
    mret (set_DataSeg d (m_cmplData0 c) c, inp)
  else mret (c, inp).

Fixpoint OnDatas (n : nat) (bFirst : bool) (c : Compiler) (inp : list Z) : cres (Compiler * list Z) :=
  match n with O => mret (c, inp) | S n => '(c, inp) ← OnData bFirst c inp; OnDatas n false c inp end.

Definition OnSection_Data (c : Compiler) (inp : list Z) : cres (Compiler * list Z) :=
  '(nCount, inp) ← rd_u32 inp; OnDatas (Z.to_nat nCount) true c inp.

Definition OnSection_DataCount (c : Compiler) (inp : list Z) : cres (Compiler * list Z) := '(_, inp) ← rd_u32 inp; mret (c, inp).

Definition OnSection (nSection : Z) : option (Compiler → list Z → cres (Compiler * list Z)) :=
  match nSection with
  | 1 => Some OnSection_Type | 2 => Some OnSection_Import | 3 => Some OnSection_Funcs | 4 => Some OnSection_Table
  | 6 => Some OnSection_Global | 7 => Some OnSection_Export | 9 => Some OnSection_Element | 10 => Some OnSection_Code
  | 11 => Some OnSection_Data | 12 => Some OnSection_DataCount | _ => None
  end.

(** A section takes two bytes at least, so that the length of the file bounds their number. *)
Fixpoint ParseSections (fuel : nat) (c : Compiler) (nPrevSection : Z) (inp : list Z) : cres Compiler :=
  match inp, fuel with
  | [], _ => mret c
  | _, O => CUB At_Loop
  | _, S fuel =>
    '(nSection, inp) ← rd_1 inp;
    let bIgnoreOrder := (nSection =? 0) || (nSection =? 12) in
    ctest ((nPrevSection =? 0) || bIgnoreOrder || (nPrevSection <? nSection));;
    '(nLen, inp) ← rd_u32 inp;
    '(inpSection, inp) ← rd_n nLen inp;
    c ← match OnSection nSection with
        | Some f => '(c, rest) ← f c inpSection; ctest (match rest with [] => true | _ => false end);; mret c
        | None => mret c
        end;
    ParseSections fuel c (if bIgnoreOrder then nPrevSection else nSection) inp
  end.

Definition pMagic : list Z := [0; 0x61; 0x73; 0x6d].
Definition pVer : list Z := [1; 0; 0; 0].

Definition ParsePlus (inp : list Z) : cres Compiler :=
  '(m, inp) ← rd_n 4 inp;
  ctest (bool_decide (m = pMagic));;
  '(v, inp) ← rd_n 4 inp;
  ctest (bool_decide (v = pVer));;
  c ← ParseSections (length inp) Compiler_empty 0 inp;
  mret (set_Items (replicate (length (m_Functions c)) 0) c).

(** ** Translation of a function *)

Record Block := mkBlock { b_Type : PerType; m_OperandsAtExit : list Z; m_iLabel : Z; m_Loop : bool }.

Record Context := mkContext {
  m_This : Compiler;
  m_p0 : option (list Z);     (* the bytes read since, [None] if nothing is to be copied *)
  m_iFunc : nat;
  x_Code : list Z;            (* what is left to read *)
  m_Blocks : list Block;      (* the back first *)
  m_Operands : list Z;        (* the back first *)
  m_WordsOperands : Z;
  m_Unreachable : bool;
}.

Definition upd_This f x := mkContext (f (m_This x)) (m_p0 x) (m_iFunc x) (x_Code x) (m_Blocks x) (m_Operands x) (m_WordsOperands x) (m_Unreachable x).
Definition set_p0 v x := mkContext (m_This x) v (m_iFunc x) (x_Code x) (m_Blocks x) (m_Operands x) (m_WordsOperands x) (m_Unreachable x).
Definition set_xCode v x := mkContext (m_This x) (m_p0 x) (m_iFunc x) v (m_Blocks x) (m_Operands x) (m_WordsOperands x) (m_Unreachable x).
Definition set_Blocks v x := mkContext (m_This x) (m_p0 x) (m_iFunc x) (x_Code x) v (m_Operands x) (m_WordsOperands x) (m_Unreachable x).
Definition set_Operands v n x := mkContext (m_This x) (m_p0 x) (m_iFunc x) (x_Code x) (m_Blocks x) v n (m_Unreachable x).
Definition set_Unreachable v x := mkContext (m_This x) (m_p0 x) (m_iFunc x) (x_Code x) (m_Blocks x) (m_Operands x) (m_WordsOperands x) v.

Definition XM (A : Type) : Type := Context → cres (A * Context).
#[export] Instance XM_ret : MRet XM := λ A a x, COk (a, x).
#[export] Instance XM_bind : MBind XM := λ A B f m x, match m x with COk (a, x) => f a x | CExc => CExc | CUB s => CUB s end.

Definition xlift {A} (r : cres A) : XM A := λ x, match r with COk a => COk (a, x) | CExc => CExc | CUB s => CUB s end.
Definition xget {A} (f : Context → A) : XM A := λ x, COk (f x, x).
Definition xupd (f : Context → Context) : XM () := λ x, COk ((), f x).
Definition xtest (b : bool) : XM () := xlift (ctest b).
Definition xat {A} (s : site) (o : option A) : XM A := xlift (at_site s o).
Definition xWords (t : Z) : XM Z := xlift (from_res At_Reader (Words t)).

(** *** Reading and writing *)

(** What was read is a part of the instruction, as the reader left it. *)
Definition xRead (W : Z) (bSigned : bool) : XM Z :=
  code ← xget x_Code;
  '(v, used, rest, _) ← xlift (from_res At_Reader (ReadInternal W bSigned AutoWorkAround code));
  xupd (λ x, set_xCode rest (set_p0 ((λ l, l ++ used) <$> m_p0 x) x));;
  mret v.

Definition xRead1 : XM Z :=
  code ← xget x_Code;
  '(b, rest) ← xlift (from_res At_Reader (Read1 code));
  xupd (λ x, set_xCode rest (set_p0 ((λ l, l ++ [b]) <$> m_p0 x) x));;
  mret b.

Definition WriteRes (l : list Z) : XM () := xupd (upd_This (λ c, set_Result (m_Result c ++ l) c)).

Definition WriteInstruction : XM () :=
  p0 ← xget m_p0;
  match p0 with
  | Some l => WriteRes l;; xupd (set_p0 None)
  | None => mret ()
  end.

(** [*m_p0] *)
Definition opcode : XM Z := p0 ← xget m_p0; xat At_Opcode (l ← p0; head l).

(** *** Operands *)

Definition get_B : XM Block := l ← xget m_Blocks; match l with b :: _ => mret b | [] => xlift CExc end.

Definition xPush (t : Z) : XM () :=
  n ← xWords t;
  xupd (λ x, set_Operands (t :: m_Operands x) (u32 (m_WordsOperands x + n)) x).

Definition xPop : XM Z :=
  l ← xget m_Operands;
  match l with
  | [] => xlift CExc
  | t :: l => n ← xWords t; xupd (λ x, set_Operands l (u32 (m_WordsOperands x - n)) x);; mret t
  end.

Definition xPopT (nType : Z) : XM () := t ← xPop; xtest (t =? nType).

(** The last argument first. *)
Fixpoint xPops (ts : list Z) : XM () := match ts with [] => mret () | t :: ts => xPopT t;; xPops ts end.
Definition xPopV (vArgs : list Z) : XM () := xPops (reverse vArgs).

Fixpoint xPushV (ts : list Z) : XM () := match ts with [] => mret () | t :: ts => xPush t;; xPushV ts end.

Definition TestOperands (v : list Z) : XM () :=
  match v with
  | [] => mret ()
  | _ =>
    l ← xget m_Operands;
    xtest (#v <=? #l);;
    xtest (bool_decide (take (length v) l = reverse v))
  end.

(** *** Blocks *)

Definition BlockOpen (tp : PerType) : XM () :=
  bs ← xget m_Blocks;
  l ← xget m_Operands;
  match bs with
  | [] => xupd (set_Blocks [mkBlock tp (reverse (m_Rets tp) ++ l) 0 false])
  | _ =>
    TestOperands (m_Args tp);;
    items ← xget (λ x, m_Items (m_This x));
    xupd (upd_This (set_Items (items ++ [0])));;
    xupd (set_Blocks (mkBlock tp (reverse (m_Rets tp) ++ drop (length (m_Args tp)) l) (u32 #items) false :: bs))
  end.

Definition BlockOpen_0 : XM () :=
  nType ← xRead 32 false;
  xtest (nType =? 0x40);;
  BlockOpen (mkPerType [] []);;
  xupd (set_p0 None).

Definition TestBlockCanClose (b : Block) : XM () :=
  l ← xget m_Operands; xtest (bool_decide (l = m_OperandsAtExit b)).

(** [m_Labels.m_Items[iLabel] = n] *)
Definition set_Item (iLabel n : Z) : XM () :=
  items ← xget (λ x, m_Items (m_This x));
  _ ← xat At_Items (items !! Z.to_nat iLabel);
  xupd (upd_This (set_Items (<[Z.to_nat iLabel := n]> items))).

Definition UpdTopBlockLabel : XM () :=
  bs ← xget m_Blocks;
  b ← xat At_Blocks (head bs);
  n ← xget (λ x, u32 #(m_Result (m_This x)));
  set_Item (m_iLabel b) n.

Fixpoint WordsOfVars (v : list Z) : cres Z :=
  match v with [] => mret 0 | t :: v => n ← from_res At_Reader (Words t); m ← WordsOfVars v; mret (u32 (n + m)) end.

Definition get_Function : XM PerFunction := x ← xget id; xat At_Functions (m_Functions (m_This x) !! m_iFunc x).

Definition WriteRet : XM () :=
  WriteRes [0x0f];;
  f ← get_Function;
  let nWordsLocal := get_SizeWords (m_Locals f) in
  bs ← xget m_Blocks;
  b ← xat At_Blocks (last bs);
  nWordsArgs ← xlift (WordsOfVars (m_Args (b_Type b)));
  nWordsRets ← xlift (WordsOfVars (m_Rets (b_Type b)));
  WriteRes (WriteResU nWordsRets);;
  WriteRes (WriteResU (u32 (nWordsLocal - nWordsArgs)));;
  WriteRes (WriteResU nWordsArgs).

Definition BlockClose : XM () :=
  b ← get_B;
  un ← xget m_Unreachable;
  l ← xget m_Operands;
  (if un : bool then
     if bool_decide (l = m_OperandsAtExit b) then mret ()
     else n ← xlift (WordsOfVars (m_OperandsAtExit b)); xupd (set_Operands (m_OperandsAtExit b) n)
   else TestBlockCanClose b);;
  bs ← xget m_Blocks;
  (if #bs =? 1 then WriteRet else if negb (m_Loop b) then UpdTopBlockLabel else mret ());;
  xupd (set_Blocks (tail bs));;
  xupd (set_Unreachable false);;
  xupd (set_p0 None).

(** *** Branches *)

Definition PutLabelTrg (iLabel : Z) : XM () :=
  xupd (upd_This (λ c, set_Targets (m_Targets c ++ [mkTarget (u32 #(m_Result c)) iLabel]) c));;
  WriteRes (le 4 iLabel).

(** The sum [nLabel + 1] is 32 bits wide. *)
Definition PutBranchLabel (nLabel : Z) : XM () :=
  bs ← xget m_Blocks;
  let n1 := u32 (nLabel + 1) in
  xtest (n1 <? #bs);;
  b ← xat At_Branch (if n1 =? 0 then None else bs !! Z.to_nat (n1 - 1));
  let nOperands := #(m_OperandsAtExit b) in
  let nOperands := if m_Loop b then nOperands + u32 (#(m_Args (b_Type b)) - #(m_Rets (b_Type b))) else nOperands in
  TestOperands (m_Args (b_Type b));;
  l ← xget m_Operands;
  xtest (#l =? nOperands);;
  PutLabelTrg (m_iLabel b).

Definition OnBranch : XM () :=
  op ← opcode;
  WriteRes [op];;
  xupd (set_p0 None);;
  nLabel ← xRead 32 false;
  PutBranchLabel nLabel.

(** [n + 1] times. *)
Fixpoint PutLabels (n : nat) : XM () :=
  nLabel ← xRead 32 false;
  PutBranchLabel nLabel;;
  match n with O => mret () | S n => PutLabels n end.

(** *** Instructions *)

Definition OnLocalVar : XM Z :=
  WriteInstruction;;
  f ← get_Function;
  iVar ← xRead 32 false;
  xtest (iVar <? #(m_Locals f));;
  var ← xat At_Locals (m_Locals f !! Z.to_nat iVar);
  w ← xget m_WordsOperands;
  let nOffsWords := u32 (u32 (w + get_SizeWords (m_Locals f)) - l_PosWords var) in
  types ← xget (λ x, m_Types (m_This x));
  fType ← xat At_Types (types !! Z.to_nat (f_TypeIdx f));
  let nOffsWords := if iVar <? #(m_Args fType) then u32 (nOffsWords + 1) else nOffsWords in
  WriteRes (WriteResU (Z.lor (u32 (nOffsWords * 4)) (l_Type var - s_Base)));;
  mret (l_Type var).

Definition Con_local_get : XM () := t ← OnLocalVar; xPush t.
Definition Con_local_set : XM () := t ← OnLocalVar; xPopT t.
Definition Con_local_tee : XM () := t ← OnLocalVar; xPopT t;; xPush t.

Definition Con_drop : XM () := WriteInstruction;; t ← xPop; WriteRes [t].

Definition Con_select : XM () :=
  WriteInstruction;;
  xPopT i32_code;;
  nType ← xPop;
  xPopT nType;;
  xPush nType;;
  WriteRes [nType].

Definition ReadOffsAndPadding : XM () :=
  nAlign ← xRead 32 false;
  xtest (nAlign <=? 4);;
  _ ← xRead 32 false; mret ().

Definition Con_loop : XM () :=
  BlockOpen_0;;
  b ← get_B;
  xupd (λ x, set_Blocks (mkBlock (b_Type b) (m_OperandsAtExit b) (m_iLabel b) true :: tail (m_Blocks x)) x);;
  UpdTopBlockLabel.

Definition Con_br_table : XM () :=
  xPopT i32_code;;
  op ← opcode;
  WriteRes [op];;
  xupd (set_p0 None);;
  nLabels ← xRead 32 false;
  WriteRes (WriteResU nLabels);;
  PutLabels (Z.to_nat nLabels).

(** The opcode of the file is copied too, after the instruction. *)
Definition Con_ret : XM () :=
  bs ← xget m_Blocks;
  b ← xat At_Blocks (last bs);
  TestBlockCanClose b;;
  WriteRet;;
  xupd (set_Unreachable true).

Definition Con_global (bGet : bool) : XM () :=
  iVar ← xRead 32 false;
  l ← xget (λ x, m_ImportGlobals (m_This x));
  if iVar <? #l then
    g ← xat At_ImportGlobals (l !! Z.to_nat iVar);
    (if bGet then xPush (m_Type (ig_Var g));; WriteRes [0xf8] else xPopT (m_Type (ig_Var g));; WriteRes [0xf9]);;
    xtest (negb (ig_Binding g =? no_binding));;
    WriteRes (WriteResU (ig_Binding g));;
    xupd (set_p0 None)
  else xlift CExc.

Definition OnCallType (iTypeIdx : Z) : XM () :=
  types ← xget (λ x, m_Types (m_This x));
  tp ← xat At_Types (types !! Z.to_nat iTypeIdx);
  xPopV (m_Args tp);;
  xPushV (m_Rets tp).

Definition Con_call : XM () :=
  iFunc ← xRead 32 false;
  c ← xget m_This;
  if iFunc <? #(m_ImportFuncs c) then
    f ← xat At_ImportFuncs (m_ImportFuncs c !! Z.to_nat iFunc);
    OnCallType (if_TypeIdx f);;
    xupd (set_p0 None);;
    WriteRes [0xf3];;
    xtest (negb (if_Binding f =? no_binding));;
    WriteRes (WriteResU (if_Binding f))
  else
    let iFunc := u32 (iFunc - u32 #(m_ImportFuncs c)) in
    xtest (iFunc <? #(m_Functions c));;
    f ← xat At_Functions (m_Functions c !! Z.to_nat iFunc);
    OnCallType (f_TypeIdx f);;
    xupd (set_p0 None);;
    WriteRes [0x10];;
    PutLabelTrg iFunc.

Definition Con_call_indirect : XM () :=
  iType ← xRead 32 false;
  n ← xget (λ x, #(m_Types (m_This x)));
  xtest (iType <? n);;
  iTable ← xRead 32 false;
  xtest (iTable =? 0);;
  xPopT i32_code;;
  OnCallType iType;;
  xupd (set_p0 None);;
  WriteRes [0x11].

Definition code_of (W : Z) : Z := if W =? 32 then i32_code else i64_code.

(** The instructions that the interpreter has too. *)
Definition Con_instruction (i : Instruction) : XM () :=
  match i with
  | I_drop => Con_drop
  | I_select => Con_select
  | I_local_get => Con_local_get
  | I_local_set => Con_local_set
  | I_local_tee => Con_local_tee
  | I_global_get => Con_global true
  | I_global_set => Con_global false
  | I_i32_wrap_i64 => xPopT i64_code;; xPush i32_code
  | I_i64_extend_i32_s | I_i64_extend_i32_u => xPopT i32_code;; xPush i64_code
  | I_call => Con_call
  | I_call_indirect => Con_call_indirect
  | I_br => OnBranch
  | I_br_if => xPopT i32_code;; OnBranch
  | I_br_table => Con_br_table
  | I_ret => Con_ret
  | I_i32_const => _ ← xRead 32 true; xPush i32_code
  | I_i64_const => _ ← xRead 64 true; xPush i64_code
  | I_load W _ _ => ReadOffsAndPadding;; xPopT i32_code;; xPush (code_of W)
  | I_store W _ => ReadOffsAndPadding;; xPopT (code_of W);; xPopT i32_code
  | I_eqz W => xPopT (code_of W);; xPush i32_code
  | I_rel W _ => xPopT (code_of W);; xPopT (code_of W);; xPush i32_code
  | I_bin W _ => xPopT (code_of W);; xPopT (code_of W);; xPush (code_of W)
  | I_prolog | I_call_ext | I_global_get_imp | I_global_set_imp => xlift CExc
  end.

(** The instructions of the file that are not ported. *)
Definition Con_not_ported (b : Z) : XM () :=
  match b with
  | 0x00 => xupd (set_p0 None);; xupd (set_Unreachable true)
  | 0x01 => xupd (set_p0 None)
  | 0x02 => BlockOpen_0
  | 0x03 => Con_loop
  | 0x0b => BlockClose
  | _ => xlift CExc
  end.

(** One turn of the loop of [CompileFunc]. *)
Definition CompileOnce : XM () :=
  xupd (set_p0 (Some []));;
  b ← xRead1;
  match Instruction_of b with Some i => Con_instruction i | None => Con_not_ported b end;;
  WriteInstruction.

(** An instruction takes a byte at least, so that the size of the body bounds their number. *)
Fixpoint CompileLoop (fuel : nat) : XM () :=
  bs ← xget m_Blocks;
  match bs, fuel with
  | [], _ => mret ()
  | _, O => xlift (CUB At_Loop)
  | _, S fuel => CompileOnce;; CompileLoop fuel
  end.

Definition CompileFunc : XM () :=
  func ← get_Function;
  xupd (set_xCode (m_Expression func));;
  types ← xget (λ x, m_Types (m_This x));
  tp ← xat At_Types (types !! Z.to_nat (f_TypeIdx func));
  BlockOpen tp;;
  (if #(m_Args tp) <? #(m_Locals func) then
     v ← xat At_Locals (m_Locals func !! length (m_Args tp));
     WriteRes [0xf1];;
     WriteRes (WriteResU (u32 (get_SizeWords (m_Locals func) - l_PosWords v)))
   else mret ());;
  CompileLoop (S (length (m_Expression func)));;
  rest ← xget x_Code;
  xtest (match rest with [] => true | _ => false end).

(** *** [Build] *)

Definition BuildFunction (c : Compiler) (i : nat) : cres Compiler :=
  '(_, x) ← (set_Item (Z.of_nat i) (u32 #(m_Result c));; CompileFunc) (mkContext c None i [] [] [] 0 false);
  mret (m_This x).

Fixpoint BuildFunctions (c : Compiler) (i n : nat) : cres Compiler :=
  match n with O => mret c | S n => c ← BuildFunction c i; BuildFunctions c (S i) n end.

Fixpoint BuildTable (items : list Z) (l : list Z) : cres (list Z) :=
  match l with
  | [] => mret []
  | i :: l => a ← at_site At_Items (items !! Z.to_nat i); t ← BuildTable items l; mret (le 4 a ++ t)
  end.

Fixpoint BuildLabels (items : list Z) (l : list Target) (res : list Z) : cres (list Z) :=
  match l with
  | [] => mret res
  | trg :: l =>
    a ← at_site At_Items (items !! Z.to_nat (t_iItem trg));
    res ← at_site At_Result (wrn res (t_Pos trg) (le 4 a));
    BuildLabels items l res
  end.

Definition Build (c : Compiler) : cres Compiler :=
  c ← BuildFunctions c 0 (length (m_Functions c));
  let c := set_Table0 (u32 #(m_Result c)) c in
  t ← BuildTable (m_Items c) (m_IndirectFuncs c);
  res ← BuildLabels (m_Items c) (m_Targets c) (m_Result c ++ t);
  mret (set_Result res c).
