(* ===== verification/BvmCompile.v ===== *)
(** * bvm/bvm2: compilation of shaders

    [Processor::Compile]: the functions that a WebAssembly file imports are bound to the
    functions of the host by name and signature ([ResolveBindings], the list of
    bvm2_opcodes.h), the exported methods are collected, and the header, the code and the
    data are put together. *)

From stdpp Require Import base list numbers option gmap strings.
From S2P Require Import Prelude WasmReader WasmProcessor WasmCompiler BvmProcessor.
Local Open Scope Z_scope.

(** ** Functions of the host *)

(** The number of a function, its name, the types of its parameters and of its result.  A
    pointer, a reference and an integer of up to 32 bits is an [i32]. *)
Record HostOp := mkOp { op_id : Z; op_name : string; op_args : list Z; op_ret : option Z }.

#[local] Notation i32 := i32_code.
#[local] Notation i64 := i64_code.

Definition BVMOpsAll_Common : list HostOp := [
  mkOp 0x05 "Write" [i32; i32; i32] None;
  mkOp 0x10 "Memcpy" [i32; i32; i32] (Some i32);
  mkOp 0x11 "Memset" [i32; i32; i32] (Some i32);
  mkOp 0x12 "Memcmp" [i32; i32; i32] (Some i32);
  mkOp 0x13 "Memis0" [i32; i32] (Some i32);
  mkOp 0x14 "Strlen" [i32] (Some i32);
  mkOp 0x15 "Strcmp" [i32; i32] (Some i32);
  mkOp 0x18 "StackAlloc" [i32] (Some i32);
  mkOp 0x19 "StackFree" [i32] None;
  mkOp 0x1a "Heap_Alloc" [i32] (Some i32);
  mkOp 0x1b "Heap_Free" [i32] None;
  mkOp 0x28 "Halt" [] None;
  mkOp 0x2b "HashWrite" [i32; i32; i32] None;
  mkOp 0x2d "HashGetValue" [i32; i32; i32] None;
  mkOp 0x2e "HashFree" [i32] None;
  mkOp 0x2f "HashClone" [i32] (Some i32);
  mkOp 0x40 "get_Height" [] (Some i64);
  mkOp 0x41 "get_HdrInfo" [i32] None;
  mkOp 0x42 "get_HdrFull" [i32] None;
  mkOp 0x43 "get_RulesCfg" [i64; i32] (Some i64);
  mkOp 0x48 "HashCreateSha256" [] (Some i32);
  mkOp 0x49 "HashCreateBlake2b" [i32; i32; i32] (Some i32);
  mkOp 0x4a "HashCreateKeccak" [i32] (Some i32);
  mkOp 0x80 "Secp_Scalar_alloc" [] (Some i32);
  mkOp 0x81 "Secp_Scalar_free" [i32] None;
  mkOp 0x82 "Secp_Scalar_import" [i32; i32] (Some i32);
  mkOp 0x83 "Secp_Scalar_export" [i32; i32] None;
  mkOp 0x84 "Secp_Scalar_neg" [i32; i32] None;
  mkOp 0x85 "Secp_Scalar_add" [i32; i32; i32] None;
  mkOp 0x86 "Secp_Scalar_mul" [i32; i32; i32] None;
  mkOp 0x87 "Secp_Scalar_inv" [i32; i32] None;
  mkOp 0x88 "Secp_Scalar_set" [i32; i64] None;
  mkOp 0x90 "Secp_Point_alloc" [] (Some i32);
  mkOp 0x91 "Secp_Point_free" [i32] None;
  mkOp 0x92 "Secp_Point_Import" [i32; i32] (Some i32);
  mkOp 0x93 "Secp_Point_Export" [i32; i32] None;
  mkOp 0x94 "Secp_Point_neg" [i32; i32] None;
  mkOp 0x95 "Secp_Point_add" [i32; i32; i32] None;
  mkOp 0x96 "Secp_Point_mul" [i32; i32; i32] None;
  mkOp 0x97 "Secp_Point_IsZero" [i32] (Some i32);
  mkOp 0x98 "Secp_Point_mul_G" [i32; i32] None;
  mkOp 0x99 "Secp_Point_mul_J" [i32; i32] None;
  mkOp 0x9a "Secp_Point_mul_H" [i32; i32; i32] None;
  mkOp 0x9b "Secp_Point_ExportEx" [i32; i32] None;
  mkOp 0xb0 "VerifyBeamHashIII" [i32; i32; i32; i32; i32; i32] (Some i32)
].

Definition BVMOpsAll_Contract : list HostOp := [
  mkOp 0x20 "LoadVar" [i32; i32; i32; i32; i32] (Some i32);
  mkOp 0x21 "SaveVar" [i32; i32; i32; i32; i32] (Some i32);
  mkOp 0x22 "EmitLog" [i32; i32; i32; i32; i32] (Some i32);
  mkOp 0x23 "CallFar" [i32; i32; i32; i32; i32] None;
  mkOp 0x24 "get_CallDepth" [] (Some i32);
  mkOp 0x25 "get_CallerCid" [i32; i32] None;
  mkOp 0x26 "UpdateShader" [i32; i32] None;
  mkOp 0x27 "LoadVarEx" [i32; i32; i32; i32; i32; i32; i32] None;
  mkOp 0x29 "AddSig" [i32] None;
  mkOp 0x30 "FundsLock" [i32; i64] None;
  mkOp 0x31 "FundsUnlock" [i32; i64] None;
  mkOp 0x32 "RefAdd" [i32] (Some i32);
  mkOp 0x33 "RefRelease" [i32] (Some i32);
  mkOp 0x38 "AssetCreate" [i32; i32] (Some i32);
  mkOp 0x39 "AssetEmit" [i32; i64; i32] (Some i32);
  mkOp 0x3a "AssetDestroy" [i32] (Some i32)
].

Definition BVMOpsAll_Manager : list HostOp := [
  mkOp 0x50 "SelectContext" [i32; i32] None;
  mkOp 0x51 "Vars_Enum" [i32; i32; i32; i32] (Some i32);
  mkOp 0x52 "Vars_MoveNext" [i32; i32; i32; i32; i32; i32] (Some i32);
  mkOp 0x53 "Vars_Close" [i32] None;
  mkOp 0x54 "VarGetProof" [i32; i32; i32; i32; i32] (Some i32);
  mkOp 0x55 "Logs_Enum" [i32; i32; i32; i32; i32; i32] (Some i32);
  mkOp 0x56 "Logs_MoveNext" [i32; i32; i32; i32; i32; i32; i32] (Some i32);
  mkOp 0x57 "Logs_Close" [i32] None;
  mkOp 0x58 "LogGetProof" [i32; i32] (Some i32);
  mkOp 0x5a "DerivePk" [i32; i32; i32] None;
  mkOp 0x60 "DocAddGroup" [i32] None;
  mkOp 0x61 "DocCloseGroup" [] None;
  mkOp 0x62 "DocAddText" [i32; i32] None;
  mkOp 0x63 "DocAddNum32" [i32; i32] None;
  mkOp 0x64 "DocAddNum64" [i32; i64] None;
  mkOp 0x65 "DocAddArray" [i32] None;
  mkOp 0x66 "DocCloseArray" [] None;
  mkOp 0x67 "DocAddBlob" [i32; i32; i32] None;
  mkOp 0x69 "DocGetText" [i32; i32; i32] (Some i32);
  mkOp 0x6a "DocGetNum32" [i32; i32] (Some i32);
  mkOp 0x6b "DocGetNum64" [i32; i32] (Some i32);
  mkOp 0x6c "DocGetBlob" [i32; i32; i32] (Some i32);
  mkOp 0x70 "GenerateKernel" [i32; i32; i32; i32; i32; i32; i32; i32; i32; i32] None;
  mkOp 0xa0 "GenerateRandom" [i32; i32] None;
  mkOp 0xa1 "get_SlotImage" [i32; i32] None;
  mkOp 0xa2 "SlotInit" [i32; i32; i32] None;
  mkOp 0xa3 "get_Pk" [i32; i32; i32] None;
  mkOp 0xa4 "get_BlindSk" [i32; i32; i32; i32; i32] None;
  mkOp 0xa5 "GenerateKernelAdvanced" [i32; i32; i32; i32; i32; i32; i32; i32; i32; i32; i64; i64; i32; i32; i32; i32; i32; i32] None;
  mkOp 0xa6 "get_SlotImageEx" [i32; i32; i32] None;
  mkOp 0xa7 "get_PkEx" [i32; i32; i32; i32] None;
  mkOp 0xb0 "Comm_Listen" [i32; i32; i32] None;
  mkOp 0xb1 "Comm_Send" [i32; i32; i32] None;
  mkOp 0xb2 "Comm_Read" [i32; i32; i32; i32] (Some i32);
  mkOp 0xb3 "Comm_WaitMsg" [i32] None
].

Inductive Kind := Kind_Contract | Kind_Manager.

(** The functions in the order they are tried. *)
Definition HostOps (kind : Kind) : list HostOp :=
  BVMOpsAll_Common ++ match kind with Kind_Contract => BVMOpsAll_Contract | Kind_Manager => BVMOpsAll_Manager end.

(** The function that runs for a number: those of the kind come first. *)
Definition HostOps_run (kind : Kind) : list HostOp :=
  match kind with Kind_Contract => BVMOpsAll_Contract | Kind_Manager => BVMOpsAll_Manager end ++ BVMOpsAll_Common.

Definition str (s : string) : list Z := (λ a, Z.of_N (Ascii.N_of_ascii a)) <$> String.list_ascii_of_string s.

(** [STR_MATCH] *)
Definition STR_MATCH (v : list Z) (txt : string) : bool := bool_decide (v = str txt).

Definition find_op (l : list HostOp) (sName : list Z) : option HostOp := head (filter (λ o, STR_MATCH sName (op_name o)) l).

Definition ret_list (r : option Z) : list Z := match r with None => [] | Some t => [t] end.

(** ** Bindings *)

Definition ResolveBinding (kind : Kind) (c : Compiler) (x : PerImportFunc) : cres PerImportFunc :=
  ctest (STR_MATCH (if_sMod x) "env");;
  tp ← at_site At_Types (m_Types c !! Z.to_nat (if_TypeIdx x));
  match find_op (HostOps kind) (if_sName x) with
  | None => CExc
  | Some o =>
    ctest (bool_decide (m_Args tp = op_args o));;
    ctest (bool_decide (m_Rets tp = ret_list (op_ret o)));;
    mret (mkImportFunc (if_sMod x) (if_sName x) (op_id o) (if_TypeIdx x))
  end.

Fixpoint ResolveFuncs (kind : Kind) (c : Compiler) (l : list PerImportFunc) : cres (list PerImportFunc) :=
  match l with [] => mret [] | x :: l => x ← ResolveBinding kind c x; l ← ResolveFuncs kind c l; mret (x :: l) end.

Definition TestStackPtr (x : GlobalVar) : cres () := ctest (negb (m_IsVariable x =? 0) && (i32 =? m_Type x)).

Definition StackPointer : Z := 0.

(** Unrecognized variables are ignored. *)
Definition ResolveGlobal (x : PerImportGlobal) : cres (PerImportGlobal * bool) :=
  if STR_MATCH (ig_sMod x) "env" && STR_MATCH (ig_sName x) "__stack_pointer" then
    TestStackPtr (ig_Var x);; mret (mkImportGlobal (ig_sMod x) (ig_sName x) StackPointer (ig_Var x), true)
  else mret (x, false).

Fixpoint ResolveGlobals (l : list PerImportGlobal) : cres (list PerImportGlobal * bool) :=
  match l with
  | [] => mret ([], false)
  | x :: l => '(x, b) ← ResolveGlobal x; '(l, b') ← ResolveGlobals l; mret (x :: l, b || b')
  end.

Definition ResolveBindings (kind : Kind) (c : Compiler) : cres Compiler :=
  fs ← ResolveFuncs kind c (m_ImportFuncs c);
  '(gs, bStackPtrImported) ← ResolveGlobals (m_ImportGlobals c);
  let c := set_ImportGlobals gs (set_ImportFuncs fs c) in
  match m_Globals c with
  | [] => mret c
  | g0 :: l =>
    ctest (negb bStackPtrImported && match l with [] => true | _ => false end);;
    TestStackPtr g0;;
    mret (set_Globals [] (set_ImportGlobals (gs ++ [mkImportGlobal [] [] StackPointer g0]) c))
  end.

(** ** Methods *)

Definition is_space (b : Z) : bool := (b =? 32) || ((9 <=? b) && (b <=? 13)).
Definition is_digit (b : Z) : bool := (48 <=? b) && (b <=? 57).

Fixpoint take_digits (l : list Z) (acc : Z) : Z :=
  match l with b :: l => if is_digit b then take_digits l (10 * acc + (b - 48)) else acc | [] => acc end.

Fixpoint skip_spaces (l : list Z) : list Z :=
  match l with b :: l' => if is_space b then skip_spaces l' else l | [] => [] end.

(** [atoi] of a text without its final 0: undefined if the number is not an [int]. *)
Definition atoi (l : list Z) : cres Z :=
  let n := match skip_spaces l with
           | 45 :: l => - take_digits l 0
           | 43 :: l => take_digits l 0
           | l => take_digits l 0
           end in
  if (- 2 ^ 31 <=? n) && (n <? 2 ^ 31) then mret n else CUB At_MethodName.

Definition get_PublicMethodIdx (sName : list Z) : cres Z :=
  if STR_MATCH sName "Ctor" then mret 0
  else if STR_MATCH sName "Dtor" then mret 1
  else if #sName <? 7 then mret (-1)
  else if negb (bool_decide (take 7 sName = str "Method_")) then mret (-1)
  else atoi (take 10 (drop 7 sName)).

(** [hdrMap], in the order of the keys. *)
Fixpoint hdrMap_insert (k v : Z) (m : list (Z * Z)) : list (Z * Z) :=
  match m with
  | [] => [(k, v)]
  | (k', v') :: m' => if k <? k' then (k, v) :: m else (k', v') :: hdrMap_insert k v m'
  end.

Fixpoint CollectMethods (l : list PerExport) (m : list (Z * Z)) : cres (list (Z * Z)) :=
  match l with
  | [] => mret m
  | x :: l =>
    if negb (x_Kind x =? 0) then CollectMethods l m
    else
      iMethod ← get_PublicMethodIdx (x_sName x);
      if iMethod <? 0 then CollectMethods l m
      else ctest (negb (existsb (λ '(k, _), k =? iMethod) m));; CollectMethods l (hdrMap_insert iMethod (x_Idx x) m)
  end.

(** [pHdr->m_pMethod[iMethod] = m_Items[iFunc]] *)
Fixpoint SetMethods (items : list Z) (m : list (Z * Z)) (res : list Z) : cres (list Z) :=
  match m with
  | [] => mret res
  | (iMethod, iFunc) :: m =>
    a ← at_site At_Items (items !! Z.to_nat iFunc);
    res ← at_site At_Header (wrn res (16 + 4 * iMethod) (le 4 a));
    SetMethods items m res
  end.

(** ** [Processor::Compile] *)

Definition Compile (src : list Z) (kind : Kind) : cres (list Z) :=
  c ← ParsePlus src;
  c ← ResolveBindings kind c;
  hdrMap ← CollectMethods (m_Exports c) [];
  let nNumMethods := u32 #hdrMap in
  ctest (s_MethodsMin <=? nNumMethods);;
  '(k, _) ← at_site At_Header (last hdrMap);
  ctest (k =? nNumMethods - 1);;
  let nSizeHdr := u32 (sizeof_Header + 4 * u32 (nNumMethods - s_MethodsMin)) in
  hdr ← at_site At_Header (wrn (zeros (Z.to_nat nSizeHdr)) 0 (le 4 s_Version ++ le 4 nNumMethods));
  c ← Build (set_Result hdr c);
  res ← at_site At_Header (wrn (m_Result c) 12 (le 4 (m_cmplTable0 c)));
  res ← SetMethods (m_Items c) hdrMap res;
  match m_DataSeg c with
  | [] => at_site At_Header (wrn res 8 (le 4 0))
  | data =>
    let nPos := u32 #res in
    res ← at_site At_Header (wrn res 8 (le 4 (u32 (m_cmplData0 c + nSizeHdr - nPos))));
    at_site At_Result (wrn (take (Z.to_nat nPos) res ++ zeros (length data)) nPos data)
  end.
