(* ===== verification/WasmCompilerSafe.v ===== *)
(** * The compiler is safe

    Whatever the file, the compiler fails by an exception, or every access it makes is inside
    of its object, but for the three places of [known]. *)

From stdpp Require Import base list numbers option gmap.
From S2P Require Import Prelude WasmReader WasmProcessor WasmSafety WasmCompiler BvmProcessor BvmCompile.
Local Open Scope Z_scope.

(** The number of a branch, the copy of a block of data, and the number in the name of a method. *)
Definition known (s : site) : Prop := s = At_Branch ∨ s = At_Data ∨ s = At_MethodName.

(** ** Rules *)

Definition cok {A} (r : cres A) (Q : A → Prop) : Prop := match r with COk a => Q a | CExc => True | CUB s => known s end.

Lemma cok_bind {A B} (m : cres A) (f : A → cres B) Q : cok m (λ a, cok (f a) Q) → cok (m ≫= f) Q.
Proof. by destruct m. Qed.
Lemma cok_ret {A} (a : A) (Q : A → Prop) : Q a → cok (mret a) Q.
Proof. done. Qed.
Lemma cok_mono {A} (m : cres A) (Q Q' : A → Prop) : cok m Q → (∀ a, Q a → Q' a) → cok m Q'.
Proof. destruct m; cbn; auto. Qed.
Lemma cok_test b (Q : () → Prop) : (b = true → Q ()) → cok (ctest b) Q.
Proof. destruct b; cbn; auto. Qed.
Lemma cok_at {A} s (o : option A) (a : A) (Q : A → Prop) : o = Some a → Q a → cok (at_site s o) Q.
Proof. by intros ->. Qed.
Lemma cok_Words t (Q : Z → Prop) : (∀ n, 1 ≤ n ≤ 2 → Q n) → cok (from_res At_Reader (Words t)) Q.
Proof. intros HQ. unfold Words. repeat case_match; cbn; auto; apply HQ; lia. Qed.

(** ** Reading *)

Lemma cok_rd W b inp (Q : Z * list Z * list Z * bool → Prop) : W = 32 ∨ W = 64 →
  (∀ v used rest t, 0 ≤ v < 2 ^ W → (length rest < length inp)%nat → Q (v, used, rest, t)) →
  cok (from_res At_Reader (ReadInternal W b AutoWorkAround inp)) Q.
Proof.
  intros HW HQ. pose proof (ReadInternal_no_UB W b AutoWorkAround inp) as Hn. destruct (ReadInternal W b AutoWorkAround inp) as [[[[v used] rest] t]| |] eqn:E; [|done..].
  apply HQ.
  - eapply ReadInternal_loop_range; [|split; [reflexivity|]|exact E]; [lia|]. apply Z.pow_pos_nonneg; lia.
  - apply ReadInternal_loop_used in E as (l & _ & Hl & H0 & _). lia.
Qed.

Lemma cok_u32 inp (Q : Z * list Z → Prop) : (∀ v rest, 0 ≤ v < 2 ^ 32 → (length rest < length inp)%nat → Q (v, rest)) → cok (rd_u32 inp) Q.
Proof. intros HQ. apply cok_bind, cok_rd; [by left|]. intros v used rest t Hv Hl. by apply cok_ret, HQ. Qed.
Lemma cok_i32 inp (Q : Z * list Z → Prop) : (∀ v rest, 0 ≤ v < 2 ^ 32 → (length rest < length inp)%nat → Q (v, rest)) → cok (rd_i32 inp) Q.
Proof. intros HQ. apply cok_bind, cok_rd; [by left|]. intros v used rest t Hv Hl. by apply cok_ret, HQ. Qed.
Lemma cok_1 inp (Q : Z * list Z → Prop) : (∀ v rest, (length rest < length inp)%nat → Q (v, rest)) → cok (rd_1 inp) Q.
Proof. intros HQ. destruct inp as [|b inp]; [done|]. apply HQ. cbn. lia. Qed.
Lemma cok_n n inp (Q : list Z * list Z → Prop) : (∀ l rest, (length rest ≤ length inp)%nat → Q (l, rest)) → cok (rd_n n inp) Q.
Proof. intros HQ. unfold rd_n, Consume, WasmReader.Test. case_match; [|done]. apply HQ. rewrite length_drop. lia. Qed.
Lemma cok_Vec inp (Q : list Z * list Z → Prop) : (∀ l rest, Q (l, rest)) → cok (Vec_Read inp) Q.
Proof. intros HQ. apply cok_bind, cok_u32. intros v rest _ _. by apply cok_n. Qed.

Lemma cok_times {A} n f (P : A → Prop) inp (Q : list A * list Z → Prop) : (∀ inp, cok (f inp) (λ '(x, _), P x)) →
  (∀ l rest, Forall P l → Q (l, rest)) → cok (rd_times n f inp) Q.
Proof.
  intros Hf. revert inp Q. induction n as [|n IH]; intros inp Q HQ; cbn [rd_times]; [by apply cok_ret, HQ|].
  apply cok_bind. eapply cok_mono; [apply Hf|]. intros [x rest] Hx. apply cok_bind, IH. intros l rest' Hl. apply cok_ret, HQ. by constructor.
Qed.

(** Runs through reads and tests whose results do not matter. *)
Ltac cgo :=
  repeat (lazymatch goal with
    | |- cok (_ ≫= _) _ => apply cok_bind
    | |- cok (rd_u32 _) _ => apply cok_u32; intros
    | |- cok (rd_i32 _) _ => apply cok_i32; intros
    | |- cok (rd_1 _) _ => apply cok_1; intros
    | |- cok (rd_n _ _) _ => apply cok_n; intros
    | |- cok (Vec_Read _) _ => apply cok_Vec; intros
    | |- cok (ctest _) _ => apply cok_test; intros
    | |- cok (mret _) _ => apply cok_ret
    | |- cok CExc _ => exact I
    end; cbn beta iota).

Lemma cok_Initializer inp (Q : Z * list Z → Prop) : (∀ v rest, 0 ≤ v < 2 ^ 32 → Q (v, rest)) → cok (ReadI32Initializer inp) Q.
Proof. intros HQ. unfold ReadI32Initializer. cgo. by apply HQ. Qed.

(** ** Sections *)

(** References between the sections, after the ones up to [n]. *)
Record winv (n : Z) (c : Compiler) : Prop := {
  wi_imports : Forall (λ x, 0 ≤ if_TypeIdx x < #(m_Types c)) (m_ImportFuncs c);
  wi_funcs : Forall (λ x, 0 ≤ f_TypeIdx x < #(m_Types c)) (m_Functions c);
  wi_exports : Forall (λ x, x_Kind x = 0 → 0 ≤ x_Idx x < #(m_Functions c)) (m_Exports c);
  wi_indirect : Forall (λ i, 0 ≤ i < #(m_Functions c)) (m_IndirectFuncs c);
  wi_2 : n < 2 → m_ImportFuncs c = [];
  wi_3 : n < 3 → m_Functions c = [];
  wi_7 : n < 7 → m_Exports c = [];
  wi_9 : n < 9 → m_IndirectFuncs c = [];
}.

Ltac wi := intros; first [done | lia | match goal with H : _ → ?x = [] |- ?x = [] => apply H; lia end | idtac].

Lemma winv_mono n n' c : n ≤ n' → winv n c → winv n' c.
Proof. intros Hn []. split; try done; wi. Qed.

Definition next (n nSection : Z) : Z := if (nSection =? 0) || (nSection =? 12) then n else nSection.

(** A section keeps the references right. *)
Definition section_ok (k : Z) (f : Compiler → list Z → cres (Compiler * list Z)) : Prop :=
  ∀ n c inp, winv n c → n = 0 ∨ n < k → cok (f c inp) (λ '(c', _), winv (Z.max n k) c').

Lemma Type_ok : section_ok 1 OnSection_Type.
Proof.
  intros n c inp [I1 I2 I3 I4 E2 E3 E7 E9] Hn. unfold OnSection_Type. cgo. eapply (cok_times _ _ (λ _, True)); [intros; unfold rd_PerType; by cgo|].
  intros l rest' _. cgo. split; cbn; rewrite ?E2, ?E3, ?E7, ?E9 by lia; try done; wi.
Qed.

Lemma OnImports_ok n k c inp (Q : Compiler * list Z → Prop) : 2 ≤ n → winv n c → (∀ c' rest, winv n c' → Q (c', rest)) → cok (OnImports k c inp) Q.
Proof.
  intros Hn. revert c inp. induction k as [|k IH]; intros c inp Hc HQ; cbn [OnImports]; [by apply cok_ret, HQ|].
  apply cok_bind. enough (cok (OnImport c inp) (λ '(c', _), winv n c')) as H.
  { eapply cok_mono; [exact H|]. intros [c' rest] Hc'. by apply IH. }
  pose proof Hc as [I1 I2 I3 I4 E2 E3 E7 E9]. unfold OnImport. cgo.
  repeat (match goal with |- cok (match ?x with _ => _ end) _ => destruct x end); cgo; try done.
  split; cbn; try done; wi. apply Forall_app. split; [done|]. constructor; [cbn; lia|done].
Qed.

Lemma Import_ok : section_ok 2 OnSection_Import.
Proof.
  intros n c inp Hc Hn. unfold OnSection_Import. cgo. eapply (OnImports_ok (Z.max n 2)); [lia|by eapply winv_mono; [|exact Hc]; lia|]. done.
Qed.

Lemma Funcs_ok : section_ok 3 OnSection_Funcs.
Proof.
  intros n c inp [I1 I2 I3 I4 E2 E3 E7 E9] Hn. unfold OnSection_Funcs. cgo.
  eapply (cok_times _ _ (λ x, 0 ≤ f_TypeIdx x < #(m_Types c))); [intros; unfold rd_PerFunction; cgo; cbn; lia|].
  intros l rest' Hl. cgo. split; cbn; rewrite ?E7, ?E9 by lia; try done; wi.
Qed.

Lemma winv_keep n c c' : winv n c → m_Types c' = m_Types c → m_ImportFuncs c' = m_ImportFuncs c →
  f_TypeIdx <$> m_Functions c' = f_TypeIdx <$> m_Functions c → m_Exports c' = m_Exports c → m_IndirectFuncs c' = m_IndirectFuncs c → winv n c'.
Proof.
  intros [I1 I2 I3 I4 E2 E3 E7 E9] T1 T2 T3 T4 T5.
  assert (length (m_Functions c') = length (m_Functions c)) as El by (apply (f_equal length) in T3; by rewrite !length_fmap in T3).
  split; rewrite ?T1, ?T2, ?T4, ?T5, ?El; try done.
  - rewrite Forall_forall in *. intros x Hx. apply (list_elem_of_fmap_2 f_TypeIdx) in Hx. rewrite T3 in Hx. apply list_elem_of_fmap in Hx as (y & -> & Hy). by apply I2.
  - intros Hn. apply nil_length_inv. by rewrite El, E3.
Qed.

Lemma keep_ok k f : (∀ c inp, cok (f c inp) (λ '(c', _), m_Types c' = m_Types c ∧ m_ImportFuncs c' = m_ImportFuncs c ∧
  f_TypeIdx <$> m_Functions c' = f_TypeIdx <$> m_Functions c ∧ m_Exports c' = m_Exports c ∧ m_IndirectFuncs c' = m_IndirectFuncs c)) → section_ok k f.
Proof.
  intros Hf n c inp Hc _. eapply cok_mono; [apply Hf|]. intros [c' rest] (T1 & T2 & T3 & T4 & T5).
  eapply (winv_mono n); [lia|]. by eapply winv_keep.
Qed.

Lemma Table_ok : section_ok 4 OnSection_Table.
Proof.
  apply keep_ok. intros c inp. unfold OnSection_Table. cgo. eapply (cok_times _ _ (λ _, True)); [|intros; by cgo].
  intros inp'. unfold rd_Table. cgo. case_match; by cgo.
Qed.

Lemma Global_ok : section_ok 6 OnSection_Global.
Proof.
  apply keep_ok. intros c inp. unfold OnSection_Global. cgo. eapply (cok_times _ _ (λ _, True)); [|intros; by cgo].
  intros inp'. unfold rd_Global. cgo. apply cok_Initializer. intros. by cgo.
Qed.

Lemma Export_ok : section_ok 7 OnSection_Export.
Proof.
  intros n c inp [I1 I2 I3 I4 E2 E3 E7 E9] Hn. unfold OnSection_Export. cgo.
  eapply (cok_times _ _ (λ x, x_Kind x = 0 → 0 ≤ x_Idx x < #(m_Functions c))).
  - intros inp'. unfold rd_Export. cgo. case_match; cgo; cbn; [|lia]. intros _. pose proof (u32_range (v1 - u32 #(m_ImportFuncs c))). lia.
  - intros l rest' Hl. cgo. split; cbn; try done; wi.
Qed.

Lemma Element_ok : section_ok 9 OnSection_Element.
Proof.
  intros n c inp [I1 I2 I3 I4 E2 E3 E7 E9] Hn. unfold OnSection_Element. cgo. apply cok_Initializer. intros. cgo.
  eapply (cok_times _ _ (λ i, 0 ≤ i < #(m_Functions c))).
  - intros inp'. unfold rd_IndirectFunc. cgo. match goal with |- 0 ≤ u32 ?x < _ => pose proof (u32_range x) end. lia.
  - intros l rest' Hl. cgo. split; cbn; try done; wi.
Qed.

Lemma Locals_Add_ok v t (Q : list Local → Prop) : (∀ v', Q v') → cok (Locals_Add v t) Q.
Proof. intros HQ. unfold Locals_Add. apply cok_bind, cok_Words. intros n _. by apply cok_ret. Qed.

Lemma Locals_AddMany_ok ts v (Q : list Local → Prop) : (∀ v', Q v') → cok (Locals_AddMany v ts) Q.
Proof.
  intros HQ. revert v. induction ts as [|t ts IH]; intros v; cbn [Locals_AddMany]; [by apply cok_ret|]. apply cok_bind, Locals_Add_ok. intros v'. apply IH.
Qed.

Lemma rd_LocalBlocks_ok n v inp (Q : list Local * list Z → Prop) : (∀ r, Q r) → cok (rd_LocalBlocks n v inp) Q.
Proof.
  intros HQ. revert v inp. induction n as [|n IH]; intros v inp; cbn [rd_LocalBlocks]; [by apply cok_ret|]. cgo. apply Locals_AddMany_ok. intros v'. apply IH.
Qed.

Lemma rd_Bodies_ok c l inp (Q : list PerFunction * list Z → Prop) : Forall (λ x, 0 ≤ f_TypeIdx x < #(m_Types c)) l →
  (∀ l' rest, f_TypeIdx <$> l' = f_TypeIdx <$> l → Q (l', rest)) → cok (rd_Bodies c l inp) Q.
Proof.
  intros Hl. revert inp Q. induction Hl as [|x l Hx Hl IH]; intros inp Q HQ; cbn [rd_Bodies]; [by apply cok_ret, HQ|].
  apply cok_bind. unfold rd_Body. cgo. destruct (lookup_lt_is_Some_2 (m_Types c) (Z.to_nat (f_TypeIdx x))) as [tp Htp]; [lia|].
  eapply cok_at; [exact Htp|]. apply cok_bind, Locals_AddMany_ok. intros v'. cgo. apply rd_LocalBlocks_ok. intros [v2 rest2]. cgo.
  apply IH. intros l' rest' El. cgo. apply HQ. cbn. by rewrite El.
Qed.

Lemma Code_ok : section_ok 10 OnSection_Code.
Proof.
  intros n c inp Hc Hn. pose proof (wi_funcs _ _ Hc) as I2. unfold OnSection_Code. cgo. apply rd_Bodies_ok; [done|].
  intros l' rest' El. cgo. eapply (winv_mono n); [lia|]. by eapply winv_keep.
Qed.

Lemma OnDatas_ok n k b c inp (Q : Compiler * list Z → Prop) : winv n c → (∀ c' rest, winv n c' → Q (c', rest)) → cok (OnDatas k b c inp) Q.
Proof.
  revert b c inp. induction k as [|k IH]; intros b c inp Hc HQ; cbn [OnDatas]; [by apply cok_ret, HQ|].
  apply cok_bind. enough (cok (OnData b c inp) (λ '(c', _), winv n c')) as H.
  { eapply cok_mono; [exact H|]. intros [c' rest] Hc'. by apply IH. }
  unfold OnData. cgo. apply cok_Initializer. intros. cgo.
  assert (∀ d d0 c, winv n c → winv n (set_DataSeg d d0 c)) as Hd by (intros ? ? ? []; by split).
  eapply (cok_mono _ (winv n)); [destruct b; cgo; by auto|]. intros c' Hc'. case_match; [|by cgo].
  cgo. destruct (wrn _ _ _); cbn; [by apply Hd|]. right. by left.
Qed.

Lemma Data_ok : section_ok 11 OnSection_Data.
Proof.
  intros n c inp Hc Hn. unfold OnSection_Data. cgo. eapply (OnDatas_ok (Z.max n 11)); [by eapply winv_mono; [|exact Hc]; lia|]. done.
Qed.

Lemma DataCount_ok c inp : cok (OnSection_DataCount c inp) (λ '(c', _), c' = c).
Proof. unfold OnSection_DataCount. by cgo. Qed.

Lemma OnSection_ok k f : OnSection k = Some f → k ≠ 12 → section_ok k f.
Proof.
  unfold OnSection. intros E Hk. repeat match type of E with (match ?x with _ => _ end) = _ => destruct x; try discriminate E end; injection E as <-.
  all: first [apply Type_ok | apply Import_ok | apply Funcs_ok | apply Table_ok | apply Global_ok | apply Export_ok | apply Element_ok | apply Code_ok | apply Data_ok | done].
Qed.

Lemma rd_u32_bytes inp v rest : bytes inp → rd_u32 inp = COk (v, rest) → bytes rest.
Proof.
  intros Hb. unfold rd_u32. destruct (ReadInternal 32 false AutoWorkAround inp) as [[[[v' used] rest'] t]| |] eqn:E; try done. intros [= _ <-].
  apply ReadInternal_loop_used in E as (l & _ & _ & _ & -> & _). auto with beam.
Qed.

Lemma cok_eqn {A} (r : cres A) (Q : A → Prop) : cok r (λ a, r = COk a → Q a) → cok r Q.
Proof. destruct r; cbn; auto. Qed.

Lemma ParseSections_ok fuel n c inp (Q : Compiler → Prop) : 0 ≤ n → winv n c → bytes inp → (length inp ≤ fuel)%nat →
  (∀ c' n', winv n' c' → Q c') → cok (ParseSections fuel c n inp) Q.
Proof.
  revert n c inp. induction fuel as [|fuel IH]; intros n c inp Hn Hc Hb Hl HQ; destruct inp as [|k inp]; cbn [ParseSections];
    try (by eapply cok_ret, HQ); [cbn in Hl; lia|]. apply bytes_cons in Hb as [Hk Hb].
  apply cok_bind. cbn [rd_1 from_res Read1 cok]. apply cok_bind, cok_test. intros Ht. apply cok_bind, cok_eqn, cok_u32. intros len rest _ Hr Er.
  apply rd_u32_bytes in Er; [|done]. apply cok_bind, cok_eqn, cok_n. intros sec rest' Hr' Er'.
  assert (bytes rest') as Hb'. { unfold rd_n, Consume, WasmReader.Test in Er'. case_match; [|done]. injection Er' as _ <-. auto with beam. }
  apply cok_bind. set (ig := (k =? 0) || (k =? 12)) in *.
  eapply (cok_mono _ (λ c', winv (if ig then n else k) c')).
  - destruct (OnSection k) as [f|] eqn:Ef.
    + apply cok_bind. destruct (decide (k = 12)) as [->|Hk12].
      * injection Ef as <-. eapply cok_mono; [apply DataCount_ok|]. intros [c' r] ->. by cgo.
      * eapply cok_mono; [apply (OnSection_ok k f Ef Hk12 n c); [done|]|].
        -- subst ig. destruct (Z.eqb_spec k 0); [subst; done|]. lia.
        -- intros [c' r] Hc'. cgo. subst ig. destruct (Z.eqb_spec k 0); [subst; done|]. replace (Z.max n k) with k in Hc' by lia.
           by rewrite (proj2 (Z.eqb_neq k 12)).
    + cgo. destruct ig eqn:Eg; [done|]. eapply winv_mono; [|exact Hc]. lia.
  - intros c' Hc'. apply (IH (if ig then n else k)); [|done|done|cbn in Hl; lia|done]. destruct ig; lia.
Qed.

Lemma ParsePlus_ok inp : bytes inp → cok (ParsePlus inp) (λ c, (∃ n, winv n c) ∧ length (m_Items c) = length (m_Functions c)).
Proof.
  intros Hb. assert (∀ n l l' rest, bytes l → rd_n n l = COk (l', rest) → bytes rest) as Hn.
  { intros n l l' rest Hl. unfold rd_n, Consume, WasmReader.Test. case_match; [|done]. intros [= _ <-]. auto with beam. }
  unfold ParsePlus. apply cok_bind, cok_eqn, cok_n. intros m rest _ E1. apply cok_bind, cok_test. intros _.
  apply cok_bind, cok_eqn, cok_n. intros v rest' _ E2. cgo.
  apply (ParseSections_ok _ 0); [lia|by split|by eapply Hn; [eapply Hn|]|lia|]. intros c' n' Hc'. cgo. split; [|by apply length_replicate].
  exists n'. by eapply winv_keep.
Qed.
