(* ===== verification/WasmContextSafe.v ===== *)
(** * The translation of functions is safe

    What every step of [Context] keeps: references to types, functions and labels are in
    range, and the places of labels are inside of the code written so far.  The rest of
    [Compile] follows. *)

From stdpp Require Import base list numbers option gmap.
From S2P Require Import Prelude WasmReader WasmProcessor WasmSafety WasmCompiler BvmProcessor BvmCompile WasmCompilerSafe.
Local Open Scope Z_scope.

Implicit Types x : Context.

(** ** Rules *)

Definition xok {A} (m : XM A) x (Q : A → Context → Prop) : Prop :=
  match m x with COk (a, x') => Q a x' | CExc => True | CUB s => known s end.

Lemma xok_ret {A} (a : A) x Q : Q a x → xok (mret a) x Q.
Proof. done. Qed.
Lemma xok_bind {A B} (m : XM A) (f : A → XM B) x Q : xok m x (λ a x', xok (f a) x' Q) → xok (m ≫= f) x Q.
Proof. unfold xok, mbind, XM_bind. by destruct (m x) as [[a x']| |]. Qed.
Lemma xok_mono {A} (m : XM A) x (Q Q' : A → Context → Prop) : xok m x Q → (∀ a x', Q a x' → Q' a x') → xok m x Q'.
Proof. unfold xok. destruct (m x) as [[a x']| |]; auto. Qed.
Lemma xok_lift {A} (r : cres A) x (Q : A → Context → Prop) : cok r (λ a, Q a x) → xok (xlift r) x Q.
Proof. unfold xok, xlift. by destruct r. Qed.
Lemma xok_get {A} (f : Context → A) x (Q : A → Context → Prop) : Q (f x) x → xok (xget f) x Q.
Proof. done. Qed.
Lemma xok_upd f x (Q : () → Context → Prop) : Q () (f x) → xok (xupd f) x Q.
Proof. done. Qed.
Lemma xok_test b x (Q : () → Context → Prop) : (b = true → Q () x) → xok (xtest b) x Q.
Proof. unfold xok, xtest, xlift, ctest. destruct b; auto. Qed.
Lemma xok_at {A} s (o : option A) (a : A) x (Q : A → Context → Prop) : o = Some a → Q a x → xok (xat s o) x Q.
Proof. by intros ->. Qed.
Lemma xok_exc {A} x (Q : A → Context → Prop) : xok (xlift CExc) x Q.
Proof. done. Qed.

(** ** The invariant *)

Definition target_ok (nItems nResult : Z) (t : Target) : Prop := 0 ≤ t_Pos t ∧ t_Pos t + 4 ≤ nResult ∧ 0 ≤ t_iItem t < nItems.

Record tinv (c : Compiler) : Prop := {
  ti_refs : ∃ n, winv n c;
  ti_items : (length (m_Functions c) ≤ length (m_Items c))%nat;
  ti_targets : Forall (target_ok #(m_Items c) #(m_Result c)) (m_Targets c);
}.

(** The labels of blocks are behind those of functions; the block of the function has none. *)
Fixpoint labels_ok (c : Compiler) (bs : list Block) : Prop :=
  match bs with
  | [] => True
  | b :: bs => 0 ≤ m_iLabel b < #(m_Items c) ∧ (bs ≠ [] → #(m_Functions c) ≤ m_iLabel b) ∧ labels_ok c bs
  end.

Lemma labels_ok_mono c c' bs : m_Functions c' = m_Functions c → (length (m_Items c) ≤ length (m_Items c'))%nat → labels_ok c bs → labels_ok c' bs.
Proof. intros Hf Hi. induction bs as [|b bs IH]; [done|]. cbn. rewrite Hf. intros (H1 & H2 & H3). split_and!; [lia|lia|done|by apply IH]. Qed.

(** A block takes a byte of the code. *)
Definition mass x : nat := (length (x_Code x) + length (m_Items (m_This x)))%nat.

Record cx x : Prop := {
  cx_this : tinv (m_This x);
  cx_func : (m_iFunc x < length (m_Functions (m_This x)))%nat;
  cx_blocks : labels_ok (m_This x) (m_Blocks x);
  cx_mass : Z.of_nat (mass x) < 2 ^ 32;
}.

(** What is kept of the compiler: the labels and the code grow. *)
Record cframe (c c' : Compiler) : Prop := {
  cf_types : m_Types c' = m_Types c;
  cf_indirect : m_IndirectFuncs c' = m_IndirectFuncs c;
  cf_imports : m_ImportFuncs c' = m_ImportFuncs c;
  cf_iglobals : m_ImportGlobals c' = m_ImportGlobals c;
  cf_functions : m_Functions c' = m_Functions c;
  cf_exports : m_Exports c' = m_Exports c;
  cf_data : m_DataSeg c' = m_DataSeg c ∧ m_cmplData0 c' = m_cmplData0 c;
  cf_items : (length (m_Items c) ≤ length (m_Items c'))%nat;
  cf_result : ∃ l, m_Result c' = m_Result c ++ l;
  cf_targets : ∃ l, m_Targets c' = m_Targets c ++ l ∧
    (#(m_Result c') < 2 ^ 32 → Forall (λ t, #(m_Result c) ≤ t_Pos t ∧ t_Pos t + 4 ≤ #(m_Result c')) l);
}.

#[export] Instance cframe_refl : Reflexive cframe.
Proof. intros c. split; try done; exists []; by rewrite app_nil_r. Qed.
#[export] Instance cframe_trans : Transitive cframe.
Proof.
  intros c1 c2 c3 [A1 A2 A3 A4 A5 A6 [A7 A7'] A8 [l A9] (k & A10 & A11)] [B1 B2 B3 B4 B5 B6 [B7 B7'] B8 [l' B9] (k' & B10 & B11)].
  split; try congruence; [split; congruence|lia| |].
  - exists (l ++ l'). by rewrite B9, A9, (assoc_L (++)).
  - assert (#(m_Result c1) ≤ #(m_Result c2) ≤ #(m_Result c3)) as Hl by (rewrite B9, A9, !length_app; lia).
    exists (k ++ k'). split; [by rewrite B10, A10, (assoc_L (++))|]. intros Hr. apply Forall_app. split.
    + eapply Forall_impl; [apply A11; lia|]. cbn. lia.
    + eapply Forall_impl; [by apply B11|]. cbn. lia.
Qed.

(** The labels of functions are not changed. *)
Definition kept (c c' : Compiler) : Prop := take (length (m_Functions c)) (m_Items c') = take (length (m_Functions c)) (m_Items c).

Definition xgood x x' : Prop :=
  cx x' ∧ cframe (m_This x) (m_This x') ∧ m_iFunc x' = m_iFunc x ∧ (length (x_Code x') ≤ length (x_Code x))%nat ∧ (mass x' ≤ mass x)%nat ∧ kept (m_This x) (m_This x').

Lemma xgood_refl x : cx x → xgood x x.
Proof. intros. by split_and!. Qed.
Lemma xgood_trans x1 x2 x3 : xgood x1 x2 → xgood x2 x3 → xgood x1 x3.
Proof.
  intros (_ & F1 & E1 & L1 & M1 & K1) (C2 & F2 & E2 & L2 & M2 & K2). split_and!; [done|by etrans|congruence|lia|lia|].
  unfold kept in *. rewrite (cf_functions _ _ F1) in K2. congruence.
Qed.
Lemma xgood_cx x x' : xgood x x' → cx x'.
Proof. by intros []. Qed.

(** Only the state of the operands and of the reader is changed. *)
Lemma same_this x x' : cx x → m_This x' = m_This x → m_iFunc x' = m_iFunc x → m_Blocks x' = m_Blocks x → (length (x_Code x') ≤ length (x_Code x))%nat → xgood x x'.
Proof.
  intros [H1 H2 H3 H4] E1 E2 E3 Hl. assert (mass x' ≤ mass x)%nat as Hm by (unfold mass; rewrite E1; lia).
  split_and!; [split; rewrite ?E1, ?E2, ?E3; try done; lia|by rewrite E1|done|done|done|by unfold kept; rewrite E1].
Qed.

(** ** Reading and writing *)

Lemma xok_Read_lt W b x (Q : Z → Context → Prop) : W = 32 ∨ W = 64 → cx x →
  (∀ v rest p0, let x' := set_xCode rest (set_p0 p0 x) in 0 ≤ v < 2 ^ W → xgood x x' → (length rest < length (x_Code x))%nat → Q v x') → xok (xRead W b) x Q.
Proof.
  intros HW Hx HQ. unfold xRead. apply xok_bind, xok_get, xok_bind, xok_lift, cok_rd; [done|]. intros v used rest t Hv Hl.
  apply xok_bind, xok_upd, xok_ret, HQ; [done| |done]. apply same_this; [done..|cbn; lia].
Qed.

Lemma xok_Read W b x (Q : Z → Context → Prop) : W = 32 ∨ W = 64 → cx x →
  (∀ v rest p0, let x' := set_xCode rest (set_p0 p0 x) in 0 ≤ v < 2 ^ W → xgood x x' → Q v x') → xok (xRead W b) x Q.
Proof. intros HW Hx HQ. apply xok_Read_lt; [done..|]. intros v rest p0 x' Hv Hg _. by apply HQ. Qed.

Lemma xok_Read1 x (Q : Z → Context → Prop) : cx x →
  (∀ v rest, let x' := set_xCode rest (set_p0 ((λ l, l ++ [v]) <$> m_p0 x) x) in x_Code x = v :: rest → xgood x x' → Q v x') → xok xRead1 x Q.
Proof.
  intros Hx HQ. unfold xRead1. apply xok_bind, xok_get, xok_bind, xok_lift. destruct (x_Code x) as [|v rest] eqn:E; [done|]. cbn.
  apply xok_bind, xok_upd, xok_ret, HQ; [done|]. apply same_this; [done..|]. rewrite E. cbn. lia.
Qed.

Lemma target_ok_mono a b a' b' t : a ≤ a' → b ≤ b' → target_ok a b t → target_ok a' b' t.
Proof. intros Ha Hb (H1 & H2 & H3 & H4). split_and!; try done; lia. Qed.

Lemma WriteRes_good x l : cx x → xgood x (upd_This (λ c, set_Result (m_Result c ++ l) c) x).
Proof.
  intros [[[n Hw] H2 H3] H4 H5 H6]. split_and!; [|split; cbn; try done; [by eexists|exists []; by rewrite app_nil_r]|done|done|by unfold mass|by unfold kept]. split; [split|done|by eapply labels_ok_mono; [..|exact H5]|done]; cbn; [|done|].
  - exists n. by eapply winv_keep.
  - eapply Forall_impl; [exact H3|]. intros t. apply target_ok_mono; [lia|]. rewrite length_app. lia.
Qed.

Lemma xok_WriteRes x l (Q : () → Context → Prop) : cx x → (∀ x', xgood x x' → m_Blocks x' = m_Blocks x → m_p0 x' = m_p0 x → Q () x') → xok (WriteRes l) x Q.
Proof. intros Hx HQ. apply xok_upd, HQ; [by apply WriteRes_good|done|done]. Qed.

Lemma set_p0_good x v : cx x → xgood x (set_p0 v x).
Proof. intros Hx. by apply same_this. Qed.

Lemma xgood_p0 x y v : xgood x y → xgood x (set_p0 v y).
Proof. intros H. eapply xgood_trans; [exact H|]. apply set_p0_good, H. Qed.

(** Joins the steps made so far, and proves the invariant of the state reached. *)
Ltac xj :=
  repeat match goal with
  | H1 : xgood ?a ?b, H2 : xgood ?b ?c |- _ => pose proof (xgood_trans _ _ _ H1 H2); clear H2
  end.
Ltac xi := first [eassumption | eapply xgood_cx; eassumption].

Lemma xok_WriteInstruction x (Q : () → Context → Prop) : cx x → (∀ x', xgood x x' → m_Blocks x' = m_Blocks x → Q () x') → xok WriteInstruction x Q.
Proof.
  intros Hx HQ. unfold WriteInstruction. apply xok_bind, xok_get. destruct (m_p0 x); [|apply xok_ret, HQ; [by apply xgood_refl|done]].
  apply xok_bind, xok_WriteRes; [done|]. intros x1 Hg Hb _. apply xok_upd, HQ; [|done]. eapply xgood_trans; [done|]. apply set_p0_good. xi.
Qed.

(** *** Operands *)

Lemma set_Operands_good x l n : cx x → xgood x (set_Operands l n x).
Proof. intros Hx. by apply same_this. Qed.

Lemma xok_Push x t (Q : () → Context → Prop) : cx x → (∀ l n, let x' := set_Operands l n x in xgood x x' → Q () x') → xok (xPush t) x Q.
Proof. intros Hx HQ. unfold xPush. apply xok_bind, xok_lift, cok_Words. intros n _. apply xok_upd, HQ. by apply set_Operands_good. Qed.

Lemma xok_Pop x (Q : Z → Context → Prop) : cx x → (∀ t l n, let x' := set_Operands l n x in xgood x x' → Q t x') → xok xPop x Q.
Proof.
  intros Hx HQ. unfold xPop. apply xok_bind, xok_get. destruct (m_Operands x) as [|t l]; [apply xok_exc|].
  apply xok_bind, xok_lift, cok_Words. intros n _. apply xok_bind, xok_upd, xok_ret, HQ. by apply set_Operands_good.
Qed.

Lemma xok_PopT x t (Q : () → Context → Prop) : cx x → (∀ l n, let x' := set_Operands l n x in xgood x x' → Q () x') → xok (xPopT t) x Q.
Proof. intros Hx HQ. unfold xPopT. apply xok_bind, xok_Pop; [done|]. intros t' l n x' Hg. apply xok_test. intros _. by apply HQ. Qed.

Lemma xok_Pops ts x (Q : () → Context → Prop) : cx x → (∀ x', xgood x x' → Q () x') → xok (xPops ts) x Q.
Proof.
  revert x. induction ts as [|t ts IH]; intros x Hx HQ; cbn [xPops]; [by apply xok_ret, HQ, xgood_refl|].
  apply xok_bind, xok_PopT; [done|]. intros l n x' Hg. apply IH; [xi|]. intros x2 Hg2. apply HQ. by xj.
Qed.

Lemma xok_PushV ts x (Q : () → Context → Prop) : cx x → (∀ x', xgood x x' → Q () x') → xok (xPushV ts) x Q.
Proof.
  revert x. induction ts as [|t ts IH]; intros x Hx HQ; cbn [xPushV]; [by apply xok_ret, HQ, xgood_refl|].
  apply xok_bind, xok_Push; [done|]. intros l n x' Hg. apply IH; [xi|]. intros x2 Hg2. apply HQ. by xj.
Qed.

Lemma xok_TestOperands v x (Q : () → Context → Prop) : Q () x → xok (TestOperands v) x Q.
Proof. intros HQ. unfold TestOperands. destruct v; [done|]. apply xok_bind, xok_get, xok_bind, xok_test. intros _. by apply xok_test. Qed.

Lemma xok_TestBlockCanClose b x (Q : () → Context → Prop) : Q () x → xok (TestBlockCanClose b) x Q.
Proof. intros HQ. unfold TestBlockCanClose. apply xok_bind, xok_get. by apply xok_test. Qed.

(** *** Labels and blocks *)

Lemma labels_ok_Forall c bs : labels_ok c bs → Forall (λ b, 0 ≤ m_iLabel b < #(m_Items c)) bs.
Proof. induction bs as [|b bs IH]; [done|]. intros (H1 & _ & H3). constructor; [done|by apply IH]. Qed.

Lemma set_Items_tinv c items : tinv c → (length (m_Items c) ≤ length items)%nat → tinv (set_Items items c).
Proof.
  intros [[n Hw] H2 H3] Hl. split; cbn; [exists n; by eapply winv_keep|lia|]. eapply Forall_impl; [exact H3|]. intros t. apply target_ok_mono; lia.
Qed.

Lemma set_Items_frame c items : (length (m_Items c) ≤ length items)%nat → cframe c (set_Items items c).
Proof. intros Hl. split; cbn; try done; exists []; by rewrite app_nil_r. Qed.

Lemma xok_set_Item x i n (Q : () → Context → Prop) : cx x → #(m_Functions (m_This x)) ≤ i < #(m_Items (m_This x)) →
  (∀ x', xgood x x' → m_Blocks x' = m_Blocks x → Q () x') → xok (set_Item i n) x Q.
Proof.
  intros Hx Hi HQ. unfold set_Item. apply xok_bind, xok_get. destruct (lookup_lt_is_Some_2 (m_Items (m_This x)) (Z.to_nat i)) as [v Hv]; [lia|].
  apply xok_bind. eapply xok_at; [done|]. apply xok_upd, HQ; [|done]. destruct Hx as [H1 H2 H3 H4].
  assert (length (m_Items (m_This x)) = length (<[Z.to_nat i:=n]> (m_Items (m_This x)))) as El by (by rewrite length_insert).
  split_and!; [|apply set_Items_frame; lia|done|done|unfold mass; cbn; lia|unfold kept; cbn; rewrite take_insert_ge; [done|lia]].
  split; [apply set_Items_tinv; [done|lia]|done| |unfold mass in *; cbn; lia]. eapply labels_ok_mono; [..|exact H3]; [done|cbn; lia].
Qed.

Lemma xok_UpdTopBlockLabel x b bs (Q : () → Context → Prop) : cx x → m_Blocks x = b :: bs → bs ≠ [] →
  (∀ x', xgood x x' → m_Blocks x' = m_Blocks x → Q () x') → xok UpdTopBlockLabel x Q.
Proof.
  intros Hx Eb Hbs HQ. unfold UpdTopBlockLabel. apply xok_bind, xok_get, xok_bind. eapply xok_at; [by rewrite Eb|]. apply xok_bind, xok_get.
  apply xok_set_Item; [done| |done]. destruct Hx as [_ _ H _]. rewrite Eb in H. destruct H as (H1 & H2 & _). specialize (H2 Hbs). lia.
Qed.

Lemma set_Blocks_good x bs : cx x → labels_ok (m_This x) bs → xgood x (set_Blocks bs x).
Proof. intros [H1 H2 H3 H4] Hb. split_and!; [by split|done|done|done|by unfold mass|by unfold kept]. Qed.

Lemma items_pos x : cx x → 0 < #(m_Items (m_This x)).
Proof. intros [[] ? ? ?]. lia. Qed.

(** [x0] is the state before the type of the block was read. *)
Lemma xok_BlockOpen tp x0 x (Q : () → Context → Prop) : cx x0 → xgood x0 x → m_Blocks x = [] ∨ (mass x < mass x0)%nat →
  (∀ x' b, xgood x0 x' → m_Blocks x' = b :: m_Blocks x → Q () x') → xok (BlockOpen tp) x Q.
Proof.
  intros Hx0 Hg Hm HQ. assert (cx x) as Hx by apply Hg. unfold BlockOpen. apply xok_bind, xok_get, xok_bind, xok_get. destruct (m_Blocks x) as [|b bs] eqn:Eb.
  - apply xok_upd. eapply HQ; [|done]. eapply xgood_trans; [exact Hg|]. apply set_Blocks_good; [done|]. cbn. pose proof (items_pos x Hx). split_and!; [lia|lia|done|done].
  - destruct Hm as [Hm|Hm]; [done|]. apply xok_bind, xok_TestOperands. apply xok_bind, xok_get, xok_bind, xok_upd, xok_upd. eapply HQ; [|done].
    pose proof Hx0 as [_ _ _ B0]. destruct Hx as [H1 H2 H3 H4], Hg as (_ & F & E & L & _ & K).
    pose proof (ti_items _ H1) as Hit. set (items := m_Items (m_This x)) in *. assert (length (items ++ [0]) = S (length items)) as El by (rewrite length_app; cbn; lia).
    assert (u32 #items = #items) as -> by (apply Z.mod_small; unfold mass in *; fold items in Hm; lia).
    split_and!; cbn; [split|etrans; [exact F|apply set_Items_frame; fold items; lia]|done|done|unfold mass in *; cbn; fold items in Hm; lia|].
    + apply set_Items_tinv; [done|fold items; lia].
    + done.
    + split; [cbn; rewrite El; lia|]. split; [intros _; cbn; lia|]. rewrite Eb in H3. eapply labels_ok_mono; [..|exact H3]; [done|cbn; fold items; lia].
    + unfold mass in *. cbn. fold items in Hm. lia.
    + unfold kept in *. cbn. rewrite <- K. rewrite take_app_le; [done|]. rewrite (cf_functions _ _ F) in Hit. lia.
Qed.

Lemma xok_BlockOpen_0 x (Q : () → Context → Prop) : cx x → (∀ x' b, xgood x x' → m_Blocks x' = b :: m_Blocks x → Q () x') → xok BlockOpen_0 x Q.
Proof.
  intros Hx HQ. unfold BlockOpen_0. apply xok_bind, xok_Read_lt; [by left|done|]. intros v rest p0 x1 _ Hg1 Hlt. apply xok_bind, xok_test. intros _.
  apply xok_bind, (xok_BlockOpen _ x); [done|done|right; unfold mass; cbn; lia|]. intros x2 b Hg2 Hb. apply xok_upd. eapply HQ; [|exact Hb]. by apply xgood_p0.
Qed.

Lemma cok_WordsOfVars v (Q : Z → Prop) : (∀ n, 0 ≤ n < 2 ^ 32 → Q n) → cok (WordsOfVars v) Q.
Proof.
  revert Q. induction v as [|t v IH]; intros Q HQ; cbn [WordsOfVars]; [apply cok_ret, HQ; lia|].
  apply cok_bind, cok_Words. intros n _. apply cok_bind, IH. intros m _. apply cok_ret, HQ, u32_range.
Qed.

Lemma xok_get_Function x (Q : PerFunction → Context → Prop) : cx x →
  (∀ f, m_Functions (m_This x) !! m_iFunc x = Some f → 0 ≤ f_TypeIdx f < #(m_Types (m_This x)) → Q f x) → xok get_Function x Q.
Proof.
  intros Hx HQ. unfold get_Function. apply xok_bind, xok_get. cbn [id]. destruct (lookup_lt_is_Some_2 (m_Functions (m_This x)) (m_iFunc x)) as [f Hf]; [apply Hx|].
  eapply xok_at; [done|]. apply HQ; [done|]. apply list_elem_of_lookup_2 in Hf. destruct Hx as [[[n []] _ _] _ _ _].
  rewrite Forall_forall in wi_funcs. by apply wi_funcs.
Qed.

Lemma xok_WriteRet x (Q : () → Context → Prop) : cx x → m_Blocks x ≠ [] → (∀ x', xgood x x' → m_Blocks x' = m_Blocks x → Q () x') → xok WriteRet x Q.
Proof.
  intros Hx Hb HQ. unfold WriteRet. apply xok_bind, xok_WriteRes; [done|]. intros x1 Hg1 Eb1 _. apply xok_bind, xok_get_Function; [xi|]. intros f _ _.
  apply xok_bind, xok_get, xok_bind. destruct (last_is_Some (m_Blocks x1)) as [_ [b Eb]]; [by rewrite Eb1|]. eapply xok_at; [exact Eb|].
  apply xok_bind, xok_lift, cok_WordsOfVars. intros n1 _. apply xok_bind, xok_lift, cok_WordsOfVars. intros n2 _.
  apply xok_bind, xok_WriteRes; [xi|]. intros x2 Hg2 Eb2 _. apply xok_bind, xok_WriteRes; [xi|]. intros x3 Hg3 Eb3 _.
  apply xok_WriteRes; [xi|]. intros x4 Hg4 Eb4 _. apply HQ; [by xj|congruence].
Qed.

Lemma Forall_tail {A} (P : A → Prop) l : Forall P l → Forall P (tail l).
Proof. intros H. by destruct H. Qed.

Lemma xok_BlockClose x (Q : () → Context → Prop) : cx x → (∀ x', xgood x x' → Q () x') → xok BlockClose x Q.
Proof.
  intros Hx HQ. unfold BlockClose. apply xok_bind. unfold get_B. apply xok_bind, xok_get. destruct (m_Blocks x) as [|b bs] eqn:Eb; [apply xok_exc|]. apply xok_ret.
  apply xok_bind, xok_get, xok_bind, xok_get.
  apply xok_bind. eapply (xok_mono _ _ (λ _ x', xgood x x' ∧ m_Blocks x' = m_Blocks x)).
  { destruct (m_Unreachable x); [|apply xok_TestBlockCanClose; split; [by apply xgood_refl|done]].
    case_match; [apply xok_ret; split; [by apply xgood_refl|done]|]. apply xok_bind, xok_lift, cok_WordsOfVars. intros n _. apply xok_upd.
    split; [by apply set_Operands_good|done]. }
  intros _ x1 [Hg1 Eb1]. apply xok_bind, xok_get. rewrite Eb1, Eb.
  apply xok_bind. eapply (xok_mono _ _ (λ _ x', xgood x1 x' ∧ m_Blocks x' = m_Blocks x1)).
  { case_match; [apply xok_WriteRet; [xi|by rewrite Eb1, Eb|done]|].
    case_match; [|apply xok_ret; split; [apply xgood_refl; xi|done]]. eapply xok_UpdTopBlockLabel; [xi|by rewrite Eb1, Eb|by destruct bs|done]. }
  intros _ x2 [Hg2 Eb2]. apply xok_bind, xok_upd, xok_bind, xok_upd, xok_upd. apply HQ. xj.
  eapply xgood_trans; [eassumption|]. assert (cx x2) as Hx2 by xi.
  assert (xgood x2 (set_Blocks bs x2)) as Hg3.
  { apply set_Blocks_good; [done|]. destruct Hx2 as [_ _ Hbs _]. rewrite Eb2, Eb1, Eb in Hbs. apply Hbs. }
  eapply xgood_trans; [exact Hg3|]. apply same_this; [xi|done..].
Qed.

Lemma xok_PutLabelTrg i x (Q : () → Context → Prop) : cx x → 0 ≤ i < #(m_Items (m_This x)) →
  (∀ x', xgood x x' → m_Blocks x' = m_Blocks x → Q () x') → xok (PutLabelTrg i) x Q.
Proof.
  intros [[[n Hw] H2 H3] H4 H5 H6] Hi HQ. unfold PutLabelTrg. apply xok_bind, xok_upd, xok_upd, HQ; [|done].
  split_and!; [|split; cbn; try done; [by eexists|eexists; split; [done|]]|done|done|by unfold mass|by unfold kept]; [split; [split|done|by eapply labels_ok_mono; [..|exact H5]|done]; cbn; [|done|]|].
  - exists n. by eapply winv_keep.
  - apply Forall_app. split; [eapply Forall_impl; [exact H3|]; intros t; apply target_ok_mono; [lia|rewrite length_app; lia]|].
    constructor; [|done]. rewrite length_app. unfold target_ok. cbn.
    pose proof (u32_range #(m_Result (m_This x))). unfold u32 in *. pose proof (Z.mod_le #(m_Result (m_This x)) (2 ^ 32)). lia.
  - rewrite length_app. intros Hr. constructor; [|done]. cbn in *. unfold u32. rewrite Z.mod_small by lia. lia.
Qed.

Lemma xok_PutBranchLabel n x (Q : () → Context → Prop) : cx x → (∀ x', xgood x x' → m_Blocks x' = m_Blocks x → Q () x') → xok (PutBranchLabel n) x Q.
Proof.
  intros Hx HQ. unfold PutBranchLabel. apply xok_bind, xok_get. pose proof (u32_range (n + 1)) as Hr. set (n1 := u32 (n + 1)) in *. clearbody n1.
  apply xok_bind, xok_test. intros Ht%Z.ltb_lt. apply xok_bind. destruct (Z.eqb_spec n1 0); [by left|].
  destruct (lookup_lt_is_Some_2 (m_Blocks x) (Z.to_nat (n1 - 1))) as [b Hb]; [lia|]. eapply xok_at; [exact Hb|].
  apply xok_bind, xok_TestOperands. apply xok_bind, xok_get, xok_bind, xok_test. intros _. apply xok_PutLabelTrg; [done| |done].
  destruct Hx as [_ _ H%labels_ok_Forall _]. rewrite Forall_forall in H. apply H. by eapply list_elem_of_lookup_2.
Qed.

(** The opcode of the instruction is known. *)
Definition at_opcode x : Prop := ∃ op l, m_p0 x = Some (op :: l).

Lemma xok_OnBranch x (Q : () → Context → Prop) : cx x → at_opcode x → (∀ x', xgood x x' → Q () x') → xok OnBranch x Q.
Proof.
  intros Hx (op & l & Ep) HQ. unfold OnBranch, opcode. apply xok_bind, xok_bind, xok_get. rewrite Ep. eapply xok_at; [done|].
  apply xok_bind, xok_WriteRes; [done|]. intros x1 Hg1 _ _. apply xok_bind, xok_upd. assert (xgood x1 (set_p0 None x1)) by (apply set_p0_good; xi).
  apply xok_bind, xok_Read; [by left|xi|]. intros v rest p0 x2 _ Hg2. apply xok_PutBranchLabel; [xi|]. intros x3 Hg3 _. apply HQ. by xj.
Qed.

Lemma xok_PutLabels n x (Q : () → Context → Prop) : cx x → (∀ x', xgood x x' → Q () x') → xok (PutLabels n) x Q.
Proof.
  revert x. induction n as [|n IH]; intros x Hx HQ; cbn [PutLabels].
  all: apply xok_bind, xok_Read; [by left|done|]; intros v rest p0 x1 _ Hg1; apply xok_bind, xok_PutBranchLabel; [xi|]; intros x2 Hg2 _.
  - apply xok_ret, HQ. by xj.
  - apply IH; [xi|]. intros x3 Hg3. apply HQ. by xj.
Qed.

(** ** Instructions *)

Lemma type_lookup x i : cx x → 0 ≤ i < #(m_Types (m_This x)) → ∃ tp, m_Types (m_This x) !! Z.to_nat i = Some tp.
Proof. intros _ Hi. apply lookup_lt_is_Some_2. lia. Qed.

Lemma xok_OnLocalVar x (Q : Z → Context → Prop) : cx x → (∀ t x', xgood x x' → Q t x') → xok OnLocalVar x Q.
Proof.
  intros Hx HQ. unfold OnLocalVar. apply xok_bind, xok_WriteInstruction; [done|]. intros x1 Hg1 _. apply xok_bind, xok_get_Function; [xi|]. intros f _ Hf.
  apply xok_bind, xok_Read; [by left|xi|]. intros v rest p0 x2 Hv Hg2. apply xok_bind, xok_test. intros Ht%Z.ltb_lt.
  destruct (lookup_lt_is_Some_2 (m_Locals f) (Z.to_nat v)) as [var Hvar]; [lia|]. apply xok_bind. eapply xok_at; [exact Hvar|].
  apply xok_bind, xok_get, xok_bind, xok_get. destruct (type_lookup x2 (f_TypeIdx f)) as [tp Htp]; [xi|done|]. apply xok_bind. eapply xok_at; [exact Htp|].
  apply xok_bind, xok_WriteRes; [xi|]. intros x3 Hg3 _ _. apply xok_ret, HQ. by xj.
Qed.

Lemma xok_OnCallType i x (Q : () → Context → Prop) : cx x → 0 ≤ i < #(m_Types (m_This x)) → (∀ x', xgood x x' → Q () x') → xok (OnCallType i) x Q.
Proof.
  intros Hx Hi HQ. unfold OnCallType. apply xok_bind, xok_get. destruct (type_lookup x i) as [tp Htp]; [done..|]. apply xok_bind. eapply xok_at; [exact Htp|].
  apply xok_bind. unfold xPopV. apply xok_Pops; [done|]. intros x1 Hg1. apply xok_PushV; [xi|]. intros x2 Hg2. apply HQ. by xj.
Qed.

Lemma xok_Con_call x (Q : () → Context → Prop) : cx x → (∀ x', xgood x x' → Q () x') → xok Con_call x Q.
Proof.
  intros Hx HQ. unfold Con_call. apply xok_bind, xok_Read; [by left|done|]. intros v rest p0 x1 Hv Hg1. apply xok_bind, xok_get.
  assert (cx x1) as Hx1 by xi. pose proof Hx1 as [[[n Hw] Hit _] _ _ _]. destruct (Z.ltb_spec v #(m_ImportFuncs (m_This x1))).
  - destruct (lookup_lt_is_Some_2 (m_ImportFuncs (m_This x1)) (Z.to_nat v)) as [f Hf]; [lia|]. apply xok_bind. eapply xok_at; [exact Hf|].
    apply list_elem_of_lookup_2 in Hf. pose proof (wi_imports _ _ Hw) as Hi. rewrite Forall_forall in Hi. specialize (Hi _ Hf).
    apply xok_bind, xok_OnCallType; [done..|]. intros x2 Hg2. apply xok_bind, xok_upd. assert (xgood x2 (set_p0 None x2)) by (apply set_p0_good; xi).
    apply xok_bind, xok_WriteRes; [xi|]. intros x3 Hg3 _ _. apply xok_bind, xok_test. intros _. apply xok_WriteRes; [xi|]. intros x4 Hg4 _ _. apply HQ. by xj.
  - apply xok_bind, xok_test. intros Ht%Z.ltb_lt. set (i := u32 _) in *. pose proof (u32_range (v - u32 #(m_ImportFuncs (m_This x1)))) as Hr. fold i in Hr. clearbody i.
    destruct (lookup_lt_is_Some_2 (m_Functions (m_This x1)) (Z.to_nat i)) as [f Hf]; [lia|]. apply xok_bind. eapply xok_at; [exact Hf|].
    apply list_elem_of_lookup_2 in Hf. pose proof (wi_funcs _ _ Hw) as Hi. rewrite Forall_forall in Hi. specialize (Hi _ Hf).
    apply xok_bind, xok_OnCallType; [done..|]. intros x2 Hg2. apply xok_bind, xok_upd. assert (xgood x2 (set_p0 None x2)) by (apply set_p0_good; xi).
    apply xok_bind, xok_WriteRes; [xi|]. intros x3 Hg3 _ _. apply xok_PutLabelTrg; [xi| |].
    { assert (cframe (m_This x1) (m_This x3)) as F.
      { etrans; [apply Hg2|]. etrans; [|apply Hg3]. done. }
      pose proof (cf_items _ _ F). lia. }
    intros x4 Hg4 _. apply HQ. by xj.
Qed.

Lemma xok_Con_call_indirect x (Q : () → Context → Prop) : cx x → (∀ x', xgood x x' → Q () x') → xok Con_call_indirect x Q.
Proof.
  intros Hx HQ. unfold Con_call_indirect. apply xok_bind, xok_Read; [by left|done|]. intros v rest p0 x1 Hv Hg1. apply xok_bind, xok_get, xok_bind, xok_test.
  intros Ht%Z.ltb_lt. apply xok_bind, xok_Read; [by left|xi|]. intros v2 rest2 p2 x2 _ Hg2. apply xok_bind, xok_test. intros _.
  apply xok_bind, xok_PopT; [xi|]. intros l n x3 Hg3. apply xok_bind, xok_OnCallType; [xi|cbn in *; lia|]. intros x4 Hg4. apply xok_bind, xok_upd.
  assert (xgood x4 (set_p0 None x4)) by (apply set_p0_good; xi). apply xok_WriteRes; [xi|]. intros x5 Hg5 _ _. apply HQ. by xj.
Qed.

Lemma xok_Con_global b x (Q : () → Context → Prop) : cx x → (∀ x', xgood x x' → Q () x') → xok (Con_global b) x Q.
Proof.
  intros Hx HQ. unfold Con_global. apply xok_bind, xok_Read; [by left|done|]. intros v rest p0 x1 Hv Hg1. apply xok_bind, xok_get.
  destruct (Z.ltb_spec v #(m_ImportGlobals (m_This x1))); [|apply xok_exc].
  destruct (lookup_lt_is_Some_2 (m_ImportGlobals (m_This x1)) (Z.to_nat v)) as [g Hgl]; [lia|]. apply xok_bind. eapply xok_at; [exact Hgl|].
  apply xok_bind. eapply (xok_mono _ _ (λ _ x', xgood x1 x')).
  { destruct b; apply xok_bind; [apply xok_Push|apply xok_PopT]; try xi; intros l n x2 Hg2; (apply xok_WriteRes; [xi|]); intros x3 Hg3 _ _; exact (xgood_trans _ _ _ Hg2 Hg3). }
  intros _ x2 Hg2. apply xok_bind, xok_test. intros _. apply xok_bind, xok_WriteRes; [xi|]. intros x3 Hg3 _ _. apply xok_upd, HQ.
  apply xgood_p0. by xj.
Qed.

Lemma xok_Con_loop x (Q : () → Context → Prop) : cx x → m_Blocks x ≠ [] → (∀ x', xgood x x' → Q () x') → xok Con_loop x Q.
Proof.
  intros Hx Hb HQ. unfold Con_loop. apply xok_bind, xok_BlockOpen_0; [done|]. intros x1 b Hg1 Eb. apply xok_bind. unfold get_B. apply xok_bind, xok_get.
  rewrite Eb. apply xok_ret, xok_bind, xok_upd. rewrite Eb. cbn [tail].
  match goal with |- xok _ ?y _ => assert (xgood x1 y) as Hg2 end.
  { apply set_Blocks_good; [xi|]. destruct Hg1 as [[_ _ Hbs _] _]. by rewrite Eb in Hbs. }
  eapply xok_UpdTopBlockLabel; [xi|done|done|]. intros x3 Hg3 _. apply HQ. by xj.
Qed.

Lemma xok_Con_br_table x (Q : () → Context → Prop) : cx x → at_opcode x → (∀ x', xgood x x' → Q () x') → xok Con_br_table x Q.
Proof.
  intros Hx (op & l & Ep) HQ. unfold Con_br_table, opcode. apply xok_bind, xok_PopT; [done|]. intros l0 n0 x0 Hg0.
  apply xok_bind, xok_bind, xok_get. cbn [m_p0 set_Operands x0]. rewrite Ep. eapply xok_at; [done|].
  apply xok_bind, xok_WriteRes; [xi|]. intros x1 Hg1 _ _. apply xok_bind, xok_upd. assert (xgood x1 (set_p0 None x1)) by (apply set_p0_good; xi).
  apply xok_bind, xok_Read; [by left|xi|]. intros v rest p0 x2 _ Hg2. apply xok_bind, xok_WriteRes; [xi|]. intros x3 Hg3 _ _.
  apply xok_PutLabels; [xi|]. intros x4 Hg4. apply HQ. by xj.
Qed.

Lemma xok_Con_ret x (Q : () → Context → Prop) : cx x → m_Blocks x ≠ [] → (∀ x', xgood x x' → Q () x') → xok Con_ret x Q.
Proof.
  intros Hx Hb HQ. unfold Con_ret. apply xok_bind, xok_get, xok_bind. destruct (last_is_Some (m_Blocks x)) as [_ [b Eb]]; [done|]. eapply xok_at; [exact Eb|].
  apply xok_bind, xok_TestBlockCanClose. apply xok_bind, xok_WriteRet; [done..|]. intros x1 Hg1 _. apply xok_upd, HQ.
  eapply xgood_trans; [exact Hg1|]. apply same_this; [xi|done..].
Qed.

Lemma xok_ReadOffs x (Q : () → Context → Prop) : cx x → (∀ x', xgood x x' → Q () x') → xok ReadOffsAndPadding x Q.
Proof.
  intros Hx HQ. unfold ReadOffsAndPadding. apply xok_bind, xok_Read; [by left|done|]. intros v rest p0 x1 _ Hg1. apply xok_bind, xok_test. intros _.
  apply xok_bind, xok_Read; [by left|xi|]. intros v2 rest2 p2 x2 _ Hg2. apply xok_ret, HQ. by xj.
Qed.

(** Runs through operands and constants. *)
Ltac xgo :=
  repeat (lazymatch goal with
    | |- xok (_ ≫= _) _ _ => apply xok_bind
    | |- xok (xPopT _) _ _ => apply xok_PopT; [xi|]; intros ? ? ? ?
    | |- xok xPop _ _ => apply xok_Pop; [xi|]; intros ? ? ? ? ?
    | |- xok (xPush _) _ _ => apply xok_Push; [xi|]; intros ? ? ? ?
    | |- xok (WriteRes _) _ _ => apply xok_WriteRes; [xi|]; intros ? ? _ _
    | |- xok WriteInstruction _ _ => apply xok_WriteInstruction; [xi|]; intros ? ? _
    | |- xok ReadOffsAndPadding _ _ => apply xok_ReadOffs; [xi|]; intros ? ?
    | |- xok OnLocalVar _ _ => apply xok_OnLocalVar; [xi|]; intros ? ? ?
    | |- xok (xRead _ _) _ _ => apply xok_Read; [tauto|xi|]; intros ? ? ? ? _ ?
    end; cbn beta).

Lemma xok_Con_instruction i x (Q : () → Context → Prop) : cx x → at_opcode x → m_Blocks x ≠ [] → (∀ x', xgood x x' → Q () x') → xok (Con_instruction i) x Q.
Proof.
  intros Hx Hop Hb HQ. destruct i; cbn [Con_instruction]; unfold Con_drop, Con_select, Con_local_get, Con_local_set, Con_local_tee.
  all: try (xgo; apply HQ; by xj).
  - by apply xok_Con_global.
  - by apply xok_Con_global.
  - by apply xok_Con_call.
  - by apply xok_Con_call_indirect.
  - by apply xok_OnBranch.
  - xgo. apply xok_OnBranch; [xi|done|]. intros x9 Hg9. apply HQ. by xj.
  - by apply xok_Con_br_table.
  - by apply xok_Con_ret.
  - apply xok_exc.
  - apply xok_exc.
  - apply xok_exc.
  - apply xok_exc.
Qed.

Lemma xok_Con_not_ported b x (Q : () → Context → Prop) : cx x → m_Blocks x ≠ [] → (∀ x', xgood x x' → Q () x') → xok (Con_not_ported b) x Q.
Proof.
  intros Hx Hb HQ. unfold Con_not_ported. repeat match goal with |- xok (match ?y with _ => _ end) _ _ => destruct y; try apply xok_exc end.
  all: lazymatch goal with
    | |- xok Con_loop _ _ => by apply xok_Con_loop
    | |- xok BlockClose _ _ => by apply xok_BlockClose
    | |- xok BlockOpen_0 _ _ => apply xok_BlockOpen_0; [done|]; intros x' b Hg _; by apply HQ
    | |- xok (xupd _) _ _ => apply xok_upd, HQ; by apply set_p0_good
    | |- _ => apply xok_bind, xok_upd, xok_upd, HQ; by apply same_this
    end.
Qed.

Lemma xok_CompileOnce x (Q : () → Context → Prop) : cx x → m_Blocks x ≠ [] →
  (∀ x', xgood x x' → (length (x_Code x') < length (x_Code x))%nat → Q () x') → xok CompileOnce x Q.
Proof.
  intros Hx Hb HQ. unfold CompileOnce. apply xok_bind, xok_upd. assert (xgood x (set_p0 (Some []) x)) as Hg0 by (by apply set_p0_good).
  apply xok_bind, xok_Read1; [xi|]. intros b rest x1 E1 Hg1. cbn in E1.
  assert (length (x_Code x1) < length (x_Code x))%nat as Hl by (cbn; rewrite E1; cbn; lia).
  apply xok_bind. eapply (xok_mono _ _ (λ _ x', xgood x1 x')).
  - destruct (Instruction_of b) as [i|].
    + apply xok_Con_instruction; [xi|by exists b, []|done|done].
    + apply xok_Con_not_ported; [xi|done|done].
  - intros _ x2 Hg2. apply xok_WriteInstruction; [xi|]. intros x3 Hg3 _.
    assert (length (x_Code x3) < length (x_Code x))%nat by (destruct Hg2 as (_ & _ & _ & L2 & _), Hg3 as (_ & _ & _ & L3 & _); lia).
    apply HQ; [|done]. eapply xgood_trans; [exact Hg0|]. by xj.
Qed.

Lemma xok_CompileLoop fuel x (Q : () → Context → Prop) : cx x → (length (x_Code x) < fuel)%nat → (∀ x', xgood x x' → Q () x') → xok (CompileLoop fuel) x Q.
Proof.
  revert x. induction fuel as [|fuel IH]; intros x Hx Hl HQ; [lia|]. cbn [CompileLoop]. apply xok_bind, xok_get.
  destruct (m_Blocks x) as [|b bs] eqn:Eb; [by apply xok_ret, HQ, xgood_refl|]. apply xok_bind, xok_CompileOnce; [done|by rewrite Eb|]. intros x1 Hg1 Hl1.
  apply IH; [xi|lia|]. intros x2 Hg2. apply HQ. by xj.
Qed.

Lemma xok_CompileFunc x f (Q : () → Context → Prop) : cx x → m_Blocks x = [] → m_Functions (m_This x) !! m_iFunc x = Some f →
  #(m_Expression f) + #(m_Items (m_This x)) < 2 ^ 32 →
  (∀ x', xgood (set_xCode (m_Expression f) x) x' → Q () x') → xok CompileFunc x Q.
Proof.
  intros Hx Hbs Ef Hm HQ. unfold CompileFunc. apply xok_bind, xok_get_Function; [done|]. intros f' Ef' Hf. assert (f' = f) as -> by congruence. apply xok_bind, xok_upd.
  set (x0 := set_xCode (m_Expression f) x) in *. assert (cx x0) as Hx0 by (destruct Hx; split; try done; unfold mass; cbn; lia). apply xok_bind, xok_get.
  destruct (type_lookup x0 (f_TypeIdx f)) as [tp Htp]; [done..|]. apply xok_bind. eapply xok_at; [exact Htp|].
  apply xok_bind, (xok_BlockOpen _ x0); [done|by apply xgood_refl|by left|]. intros x1 b Hg1 _. apply xok_bind. eapply (xok_mono _ _ (λ _ x', xgood x0 x')).
  - case_match; [|by apply xok_ret]. destruct (lookup_lt_is_Some_2 (m_Locals f) (length (m_Args tp))) as [v Hv]; [lia|]. apply xok_bind. eapply xok_at; [exact Hv|].
    apply xok_bind, xok_WriteRes; [xi|]. intros x2 Hg2 _ _. apply xok_WriteRes; [xi|]. intros x3 Hg3 _ _. by xj.
  - intros _ x2 Hg2. apply xok_bind, xok_CompileLoop; [xi|destruct Hg2 as (_ & _ & _ & Hl & _); cbn in Hl; lia|]. intros x3 Hg3.
    apply xok_bind, xok_get, xok_test. intros _. apply HQ. by xj.
Qed.

(** ** [Build] *)

Lemma cok_xok {A} (m : XM A) x (Q : A * Context → Prop) : xok m x (λ a x', Q (a, x')) → cok (m x) Q.
Proof. unfold xok, cok. by destruct (m x) as [[]| |]. Qed.

Lemma cok_BuildFunction c i f (Q : Compiler → Prop) : tinv c → m_Functions c !! i = Some f → #(m_Expression f) + #(m_Items c) < 2 ^ 32 →
  (∀ c', let c0 := set_Items (<[i := u32 #(m_Result c)]> (m_Items c)) c in
     tinv c' → cframe c0 c' → kept c0 c' → (length (m_Items c') ≤ length (m_Expression f) + length (m_Items c))%nat → Q c') → cok (BuildFunction c i) Q.
Proof.
  intros Hc Hf Hm HQ. assert (i < length (m_Functions c))%nat as Hi by (by eapply lookup_lt_Some). pose proof (ti_items _ Hc) as Hit.
  unfold BuildFunction. apply cok_bind, cok_xok. apply xok_bind. unfold set_Item. apply xok_bind, xok_get.
  cbn [m_This]. destruct (lookup_lt_is_Some_2 (m_Items c) (Z.to_nat (Z.of_nat i))) as [v Hv]; [lia|]. apply xok_bind. eapply xok_at; [exact Hv|].
  rewrite Nat2Z.id. apply xok_upd. set (c0 := set_Items (<[i := u32 #(m_Result c)]> (m_Items c)) c) in *. assert (length (m_Items c0) = length (m_Items c)) as El by (apply length_insert).
  assert (tinv c0) as Hc0 by (apply set_Items_tinv; [done|rewrite <- El; done]).
  apply (xok_CompileFunc _ f); [split; try done; unfold mass; cbn; rewrite length_insert; lia|done|done|cbn; rewrite length_insert; lia|].
  intros x' (C' & F' & _ & _ & M' & K'). apply cok_ret, HQ; [apply C'|done|done|]. unfold mass in M'. cbn in M'. rewrite length_insert in M'. lia.
Qed.

Definition exprs (l : list PerFunction) : nat := sum_list_with (λ f, length (m_Expression f)) l.

(** Addresses that ascend from [lo] to [hi]. *)
Fixpoint climbs (lo : Z) (l : list Z) (hi : Z) : Prop := match l with [] => lo ≤ hi | a :: l => lo ≤ a ∧ climbs a l hi end.

Lemma climbs_mono lo lo' l hi : lo' ≤ lo → climbs lo l hi → climbs lo' l hi.
Proof. destruct l; cbn; intros; [lia|]. split; [lia|tauto]. Qed.

Lemma cok_BuildFunctions n c i (Q : Compiler → Prop) : tinv c → (i + n = length (m_Functions c))%nat →
  Z.of_nat (exprs (drop i (m_Functions c))) + #(m_Items c) < 2 ^ 32 →
  (∀ c', tinv c' → cframe c c' → take i (m_Items c') = take i (m_Items c) →
     (#(m_Result c') < 2 ^ 32 → climbs #(m_Result c) (take n (drop i (m_Items c'))) #(m_Result c')) → Q c') → cok (BuildFunctions c i n) Q.
Proof.
  revert c i. induction n as [|n IH]; intros c i Hc Hi Hm HQ; cbn [BuildFunctions]; [apply cok_ret, HQ; [done|done|done|intros _; rewrite take_0; cbn; lia]|].
  destruct (lookup_lt_is_Some_2 (m_Functions c) i) as [f Hf]; [lia|]. rewrite (drop_S _ _ _ Hf) in Hm. cbn in Hm.
  apply cok_bind, (cok_BuildFunction _ _ f); [done|done|lia|]. intros c1 c0 Hc1 F1 K1 L1. pose proof (ti_items _ Hc) as Hit.
  assert (cframe c c1) as F by (etrans; [|exact F1]; apply set_Items_frame; rewrite length_insert; lia). pose proof (cf_functions _ _ F) as EF.
  apply IH; [done|rewrite EF; lia|rewrite EF; unfold exprs in *; lia|]. intros c2 Hc2 F2 T2 R2.
  unfold kept in K1. cbn in K1.
  assert (take (S i) (m_Items c1) = take (S i) (<[i:=u32 #(m_Result c)]> (m_Items c))) as T1.
  { apply (f_equal (take (S i))) in K1. rewrite !take_take in K1. by rewrite Nat.min_l in K1 by lia. }
  rewrite T1 in T2. apply HQ; [done|by etrans| |].
  - apply (f_equal (take i)) in T2. rewrite !take_take, Nat.min_l, take_insert_ge in T2 by lia. done.
  - intros Hr. specialize (R2 Hr). destruct (cf_result _ _ F) as [l1 E1], (cf_result _ _ F2) as [l2 E2].
    assert (m_Items c2 !! i = Some #(m_Result c)) as Hi2.
    { rewrite <- (lookup_take_lt _ (S i)) by lia. rewrite T2, lookup_take_lt, list_lookup_insert_eq by lia. f_equal. apply Z.mod_small.
      rewrite E2, E1, !length_app in Hr. lia. }
    rewrite (drop_S _ _ _ Hi2). cbn. split; [lia|]. eapply climbs_mono; [|exact R2]. rewrite E1, length_app. lia.
Qed.

Lemma cok_BuildTable items l (Q : list Z → Prop) : Forall (λ i, 0 ≤ i < #items) l → (∀ t, Q t) → cok (BuildTable items l) Q.
Proof.
  intros Hl. revert Q. induction Hl as [|i l Hi Hl IH]; intros Q HQ; cbn [BuildTable]; [by apply cok_ret|].
  destruct (lookup_lt_is_Some_2 items (Z.to_nat i)) as [a Ha]; [lia|]. apply cok_bind. eapply cok_at; [exact Ha|]. apply cok_bind, IH. intros t. by apply cok_ret.
Qed.

(** What is in front of all the places of labels is not changed. *)
Lemma cok_BuildLabels items l res (Q : list Z → Prop) : Forall (target_ok #items #res) l →
  (∀ res', length res' = length res → (∀ k, Forall (λ t, Z.of_nat k ≤ t_Pos t) l → take k res' = take k res) → Q res') → cok (BuildLabels items l res) Q.
Proof.
  intros Hl. revert res Hl Q. induction l as [|t l IH]; intros res Hl Q HQ; cbn [BuildLabels]; [by apply cok_ret, HQ|].
  apply Forall_cons in Hl as [(H1 & H2 & H3) Hl]. destruct (lookup_lt_is_Some_2 items (Z.to_nat (t_iItem t))) as [a Ha]; [lia|].
  apply cok_bind. eapply cok_at; [exact Ha|]. destruct (wrn_Some res (t_Pos t) (le 4 a)) as (b & Eb & El & _ & Et & _); [lia|rewrite length_le; lia|].
  apply cok_bind. eapply cok_at; [exact Eb|]. apply IH; [by rewrite El|]. intros res' Hr Hk. apply HQ; [congruence|].
  intros k [Ht Hl']%Forall_cons. rewrite Hk by done. by apply Et.
Qed.

(** What [Build] makes of a header: the code of the functions, in their order, and a table. *)
Record built (c c' : Compiler) (addrs : list Z) : Prop := {
  bu_addrs : take (length (m_Functions c)) (m_Items c') = addrs;
  bu_length : length addrs = length (m_Functions c);
  bu_header : take (length (m_Result c)) (m_Result c') = m_Result c;
  bu_climbs : climbs #(m_Result c) addrs (m_cmplTable0 c');
  bu_table : m_cmplTable0 c' ≤ #(m_Result c');
}.

Lemma cok_Build c (Q : Compiler → Prop) : tinv c → m_Targets c = [] → Z.of_nat (exprs (m_Functions c)) + #(m_Items c) < 2 ^ 32 →
  (∀ c', (length (m_Functions c) ≤ length (m_Items c'))%nat → (length (m_Result c) ≤ length (m_Result c'))%nat →
     m_DataSeg c' = m_DataSeg c ∧ m_cmplData0 c' = m_cmplData0 c → (#(m_Result c') < 2 ^ 32 → built c c' (take (length (m_Functions c)) (m_Items c'))) → Q c') → cok (Build c) Q.
Proof.
  intros Hc Ht0 Hm HQ. unfold Build. apply cok_bind, cok_BuildFunctions; [done|lia|done|]. intros c1 Hc1 F1 _ Hcl. pose proof Hc1 as [[n Hw] Hi Ht].
  apply cok_bind, cok_BuildTable.
  { cbn. eapply Forall_impl; [apply (wi_indirect _ _ Hw)|]. cbn. lia. }
  intros t. apply cok_bind, cok_BuildLabels.
  { cbn. eapply Forall_impl; [exact Ht|]. intros tr. apply target_ok_mono; [lia|]. rewrite length_app. lia. }
  cbn [m_Items m_Targets m_Result set_Table0]. intros res' Hr Hk. destruct F1 as [_ _ _ _ F5 _ F7 F8 [l F9] (k & F10 & F11)]. rewrite length_app in Hr.
  assert (length (m_Result c) ≤ length (m_Result c1))%nat as Hl by (rewrite F9, length_app; lia). rewrite F5 in Hi.
  apply cok_ret, HQ; cbn; [done|lia|done|]. intros Hlt. assert (#(m_Result c1) < 2 ^ 32) as Hlt1 by lia. specialize (Hcl Hlt1). specialize (F11 Hlt1).
  split; cbn; [done|rewrite length_take; lia| |unfold u32; rewrite Z.mod_small by lia; exact Hcl|unfold u32; rewrite Z.mod_small; lia].
  rewrite Hk.
  - rewrite F9, <- (assoc_L (++)). apply take_app_length.
  - rewrite F10, Ht0. eapply Forall_impl; [exact F11|]. cbn. lia.
Qed.
