(* ===== verification/WasmCompilerSize.v ===== *)
(** * The size of the code that the compiler writes

    An instruction of the file takes at most forty bytes of code: what the compiler has
    written and what it has still to read bound the size of the result. *)

From stdpp Require Import base list numbers option gmap.
From S2P Require Import Prelude WasmReader WasmProcessor WasmSafety WasmCompiler WasmCompilerSafe WasmContextSafe.
Local Open Scope Z_scope.

Implicit Types x : Context.

(** What holds of a result, if there is one. *)
Definition xret {A} (m : XM A) x (Q : A → Context → Prop) : Prop := match m x with COk (a, x') => Q a x' | _ => True end.

Lemma xret_bind {A B} (m : XM A) (f : A → XM B) x Q : xret m x (λ a x', xret (f a) x' Q) → xret (m ≫= f) x Q.
Proof. unfold xret, mbind, XM_bind. by destruct (m x) as [[a x']| |]. Qed.
Lemma xret_mono {A} (m : XM A) x (Q Q' : A → Context → Prop) : xret m x Q → (∀ a x', Q a x' → Q' a x') → xret m x Q'.
Proof. unfold xret. destruct (m x) as [[a x']| |]; auto. Qed.
Lemma xret_lift {A} (r : cres A) x (Q : A → Context → Prop) : (∀ a, r = COk a → Q a x) → xret (xlift r) x Q.
Proof. unfold xret, xlift. destruct r; auto. Qed.

Lemma xret_get {A} (f : Context → A) x (Q : A → Context → Prop) : Q (f x) x → xret (xget f) x Q.
Proof. done. Qed.
Lemma xret_set f x (Q : () → Context → Prop) : Q () (f x) → xret (xupd f) x Q.
Proof. done. Qed.

(** The code, what is to be copied to it, and the rest of the file. *)
Definition weight x : Z := #(m_Result (m_This x)) + #(default [] (m_p0 x)) + 40 * #(x_Code x).

Lemma xret_upd f x (Q : () → Context → Prop) : weight (f x) ≤ weight x → (∀ x', weight x' ≤ weight x → Q () x') → xret (xupd f) x Q.
Proof. intros Hf HQ. by apply HQ. Qed.

Lemma xret_WriteRes l x (Q : () → Context → Prop) : (∀ x', weight x' = weight x + #l → Q () x') → xret (WriteRes l) x Q.
Proof. intros HQ. apply HQ. unfold weight. cbn. rewrite length_app. lia. Qed.

Lemma xret_WriteInstruction x (Q : () → Context → Prop) : (∀ x', weight x' = weight x → Q () x') → xret WriteInstruction x Q.
Proof.
  intros HQ. unfold WriteInstruction. apply xret_bind. cbn. destruct (m_p0 x) as [l|] eqn:E; [|by apply HQ].
  apply HQ. unfold weight. cbn. rewrite E, length_app. cbn. lia.
Qed.

Lemma WriteResU_length v : #(WriteResU v) ≤ 10.
Proof.
  assert (∀ fuel v, (length (WriteResU_loop fuel v) ≤ fuel)%nat) as H; [|unfold WriteResU; specialize (H 10%nat (u64 v)); lia].
  intros fuel. induction fuel as [|fuel IH]; intros w; cbn [WriteResU_loop]; [done|]. cbv zeta. case_match; cbn; [lia|]. specialize (IH (Z.shiftr w 7)). lia.
Qed.

(** A byte that is read is paid for. *)
Lemma xret_Read W b x (Q : Z → Context → Prop) : (∀ v x', weight x' + 39 ≤ weight x → Q v x') → xret (xRead W b) x Q.
Proof.
  intros HQ. unfold xRead. apply xret_bind. cbn. apply xret_bind, xret_lift. intros [[[v used] rest] t] E. apply HQ.
  destruct (ReadInternal W b AutoWorkAround (x_Code x)) as [[[[v' used'] rest'] t']| |] eqn:ER; [|done..]. injection E as -> -> -> ->.
  apply ReadInternal_loop_used in ER as (l & Hu & Hl & H0 & _). unfold weight. cbn. destruct (m_p0 x); cbn in *; subst; cbn; rewrite ?length_app in *; lia.
Qed.

Lemma xret_Read1 x (Q : Z → Context → Prop) : (∀ v x', weight x' + 39 ≤ weight x → Q v x') → xret xRead1 x Q.
Proof.
  intros HQ. unfold xRead1. apply xret_bind. cbn. apply xret_bind, xret_lift. intros [b rest] E. apply HQ.
  destruct (x_Code x) as [|b' rest'] eqn:Ec; [done|]. injection E as -> ->. unfold weight. cbn. rewrite Ec. destruct (m_p0 x); cbn; rewrite ?length_app; cbn; lia.
Qed.

(** Operations that write at most [n] bytes more than they pay for. *)
Definition writes {A} (n : Z) (m : XM A) : Prop := ∀ x, xret m x (λ _ x', weight x' ≤ weight x + n).

Lemma writes_use {A} n (m : XM A) x (Q : A → Context → Prop) : writes n m → (∀ a x', weight x' ≤ weight x + n → Q a x') → xret m x Q.
Proof. intros Hm HQ. eapply xret_mono; [apply Hm|]. cbn. auto. Qed.

Create HintDb size.

(** Runs through operations with the weight of every state. *)
Ltac xw := repeat (lazymatch goal with
  | |- xret (_ ≫= _) _ _ => apply xret_bind
  | |- xret (mret ?a) ?x ?Q => change (Q a x)
  | |- xret (xget ?f) ?x ?Q => change (Q (f x) x)
  | |- xret (xlift CExc) _ _ => exact I
  | |- xret (xlift _) _ _ => apply xret_lift; intros ? _
  | |- xret (xtest _) _ _ => apply xret_lift; intros ? _
  | |- xret (xat _ _) _ _ => apply xret_lift; intros ? _
  | |- xret (xWords _) _ _ => apply xret_lift; intros ? _
  | |- xret (xupd _) _ _ => apply xret_upd; [unfold weight; cbn; lia|intros ? ?]
  | |- xret (WriteRes (WriteResU ?v)) _ _ => apply xret_WriteRes; pose proof (WriteResU_length v); intros ? ?
  | |- xret (WriteRes _) _ _ => apply xret_WriteRes; intros ? ?
  | |- xret WriteInstruction _ _ => apply xret_WriteInstruction; intros ? ?
  | |- xret (xRead _ _) _ _ => apply xret_Read; intros ? ? ?
  | |- xret (match ?y with _ => _ end) _ _ => destruct y
  | |- xret _ _ _ => eapply writes_use; [solve [eauto 1 with size]|intros ? ? ?]
  end; cbn beta iota).

Ltac size m := intros x; unfold m; xw; cbn [length] in *; lia.

Lemma writes_Push t : writes 0 (xPush t).
Proof. size @xPush. Qed.
Lemma writes_Pop : writes 0 xPop.
Proof. size @xPop. Qed.
#[export] Hint Resolve writes_Push writes_Pop : size.
Lemma writes_PopT t : writes 0 (xPopT t).
Proof. size @xPopT. Qed.
#[export] Hint Resolve writes_PopT : size.
Lemma writes_Pops ts : writes 0 (xPops ts).
Proof. induction ts as [|t ts IH]; intros x; cbn [xPops]; xw; lia. Qed.
Lemma writes_PushV ts : writes 0 (xPushV ts).
Proof. induction ts as [|t ts IH]; intros x; cbn [xPushV]; xw; lia. Qed.
#[export] Hint Resolve writes_Pops writes_PushV : size.
Lemma writes_PopV ts : writes 0 (xPopV ts).
Proof. apply writes_Pops. Qed.
Lemma writes_TestOperands v : writes 0 (TestOperands v).
Proof. size @TestOperands. Qed.
#[export] Hint Resolve writes_PopV writes_TestOperands : size.
Lemma writes_BlockOpen tp : writes 0 (BlockOpen tp).
Proof. size @BlockOpen. Qed.
#[export] Hint Resolve writes_BlockOpen : size.
Lemma writes_BlockOpen_0 : writes (-39) BlockOpen_0.
Proof. size @BlockOpen_0. Qed.
Lemma writes_CanClose b : writes 0 (TestBlockCanClose b).
Proof. size @TestBlockCanClose. Qed.
Lemma writes_set_Item i n : writes 0 (set_Item i n).
Proof. size @set_Item. Qed.
Lemma writes_get_Function : writes 0 get_Function.
Proof. size @get_Function. Qed.
Lemma writes_get_B : writes 0 get_B.
Proof. size @get_B. Qed.
Lemma writes_opcode : writes 0 opcode.
Proof. size @opcode. Qed.
#[export] Hint Resolve writes_BlockOpen_0 writes_CanClose writes_set_Item writes_get_Function writes_get_B writes_opcode : size.
Lemma writes_UpdTop : writes 0 UpdTopBlockLabel.
Proof. size @UpdTopBlockLabel. Qed.
Lemma writes_WriteRet : writes 31 WriteRet.
Proof. size @WriteRet. Qed.
#[export] Hint Resolve writes_UpdTop writes_WriteRet : size.
Lemma writes_BlockClose : writes 31 BlockClose.
Proof. size @BlockClose. Qed.
Lemma writes_PutLabelTrg i : writes 4 (PutLabelTrg i).
Proof. intros x. unfold PutLabelTrg. xw. rewrite length_le in *. lia. Qed.
#[export] Hint Resolve writes_BlockClose writes_PutLabelTrg : size.
Lemma writes_PutBranchLabel n : writes 4 (PutBranchLabel n).
Proof. size @PutBranchLabel. Qed.
#[export] Hint Resolve writes_PutBranchLabel : size.
Lemma writes_OnBranch : writes 0 OnBranch.
Proof. size @OnBranch. Qed.
Lemma writes_PutLabels n : writes 0 (PutLabels n).
Proof. induction n as [|n IH]; intros x; cbn [PutLabels]; xw; lia. Qed.
Lemma writes_OnLocalVar : writes 0 OnLocalVar.
Proof. size @OnLocalVar. Qed.
Lemma writes_OnCallType i : writes 0 (OnCallType i).
Proof. size @OnCallType. Qed.
Lemma writes_ReadOffs : writes 0 ReadOffsAndPadding.
Proof. size @ReadOffsAndPadding. Qed.
#[export] Hint Resolve writes_OnBranch writes_PutLabels writes_OnLocalVar writes_OnCallType writes_ReadOffs : size.

Lemma writes_instruction i : writes 31 (Con_instruction i).
Proof.
  intros x. destruct i; cbn [Con_instruction];
    unfold Con_drop, Con_select, Con_local_get, Con_local_set, Con_local_tee, Con_global, Con_call, Con_call_indirect, Con_br_table, Con_ret; xw; cbn [length] in *; lia.
Qed.

Lemma writes_not_ported b : writes 31 (Con_not_ported b).
Proof. intros x. unfold Con_not_ported, Con_loop. xw; lia. Qed.
#[export] Hint Resolve writes_instruction writes_not_ported : size.

Lemma writes_CompileOnce x : xret CompileOnce x (λ _ x', weight x' ≤ weight x).
Proof.
  unfold CompileOnce. apply xret_bind, xret_upd; [unfold weight; cbn; lia|]. intros x1 H1. apply xret_bind, xret_Read1. intros b x2 H2. xw; lia.
Qed.

Lemma writes_CompileLoop fuel : writes 0 (CompileLoop fuel).
Proof.
  induction fuel as [|fuel IH]; intros x; cbn [CompileLoop]; [xw; lia|]. apply xret_bind. cbn. case_match; [xw; lia|].
  apply xret_bind. eapply xret_mono; [apply writes_CompileOnce|]. cbn beta. intros _ x1 H1. xw. lia.
Qed.

(** ** Functions *)

Lemma CompileFunc_size x f : m_Functions (m_This x) !! m_iFunc x = Some f → m_p0 x = None →
  xret CompileFunc x (λ _ x', #(m_Result (m_This x')) ≤ #(m_Result (m_This x)) + 40 * #(m_Expression f) + 11).
Proof.
  intros Hf Hp. unfold CompileFunc. apply xret_bind. unfold get_Function. apply xret_bind, xret_get. cbn [id]. rewrite Hf. apply xret_lift. intros f' [= <-].
  apply xret_bind, xret_set. set (x0 := set_xCode (m_Expression f) x).
  assert (weight x0 = #(m_Result (m_This x)) + 40 * #(m_Expression f)) as Hw by (unfold weight; cbn; rewrite Hp; cbn; lia). clearbody x0.
  eapply (xret_mono _ _ (λ _ x', weight x' ≤ weight x0 + 11)); [|cbn beta; intros _ x' H; rewrite Hw in H; unfold weight in H; lia].
  pose proof writes_CompileLoop. xw; cbn [length] in *; lia.
Qed.

Lemma BuildFunction_size c i f c' : m_Functions c !! i = Some f → BuildFunction c i = COk c' → #(m_Result c') ≤ #(m_Result c) + 40 * #(m_Expression f) + 11.
Proof.
  intros Hf. unfold BuildFunction. set (x0 := mkContext _ _ _ _ _ _ _ _).
  assert (xret (set_Item (Z.of_nat i) (u32 #(m_Result c));; CompileFunc) x0 (λ _ x', #(m_Result (m_This x')) ≤ #(m_Result c) + 40 * #(m_Expression f) + 11)) as H.
  - apply xret_bind. unfold set_Item. apply xret_bind, xret_get, xret_bind, xret_lift. intros _ _. apply xret_set.
    eapply xret_mono; [apply (CompileFunc_size _ f); done|]. done.
  - unfold xret in H. unfold mbind at 1, cres_bind. destruct ((set_Item (Z.of_nat i) (u32 #(m_Result c));; CompileFunc) x0) as [[[] x']| |]; [|done..]. by intros [= <-].
Qed.

(** The code of the functions is not larger than so many times the file. *)
Lemma BuildFunctions_size n c i : tinv c → (i + n = length (m_Functions c))%nat → Z.of_nat (exprs (drop i (m_Functions c))) + #(m_Items c) < 2 ^ 32 →
  cok (BuildFunctions c i n) (λ c', #(m_Result c') ≤ #(m_Result c) + 40 * Z.of_nat (exprs (drop i (m_Functions c))) + 11 * Z.of_nat n).
Proof.
  revert c i. induction n as [|n IH]; intros c i Hc Hi Hm; cbn [BuildFunctions]; [apply cok_ret; lia|].
  destruct (lookup_lt_is_Some_2 (m_Functions c) i) as [f Hf]; [lia|]. rewrite (drop_S _ _ _ Hf) in *. unfold exprs in *. cbn in Hm |- *.
  apply cok_bind, cok_eqn, (cok_BuildFunction _ _ f); [done|done|lia|]. intros c1 c0 Hc1 F1 K1 L1 E1.
  apply (BuildFunction_size _ _ f) in E1; [|done]. pose proof (cf_functions _ _ F1) as EF. cbn in EF.
  eapply cok_mono; [apply IH; [done|rewrite EF; lia|rewrite EF; lia]|]. cbn beta. rewrite EF. intros c2 H2. lia.
Qed.

Lemma BuildTable_length items l t : BuildTable items l = COk t → length t = (4 * length l)%nat.
Proof.
  revert t. induction l as [|i l IH]; intros t; cbn [BuildTable]; [by intros [= <-]|]. destruct (items !! _) as [a|]; [|done]. cbn.
  destruct (BuildTable items l) as [t'| |]; [|done..]. intros [= <-]. cbn. rewrite (IH t') by done. lia.
Qed.

Lemma Build_size c : tinv c → Z.of_nat (exprs (m_Functions c)) + #(m_Items c) < 2 ^ 32 →
  cok (Build c) (λ c', #(m_Result c') ≤ #(m_Result c) + 40 * Z.of_nat (exprs (m_Functions c)) + 11 * #(m_Functions c) + 4 * #(m_IndirectFuncs c)).
Proof.
  intros Hc Hm. unfold Build. apply cok_bind, cok_eqn, cok_BuildFunctions; [done|lia|done|]. intros c1 Hc1 F1 _ _ E1.
  pose proof (BuildFunctions_size (length (m_Functions c)) c 0 Hc) as Hs. rewrite E1 in Hs. specialize (Hs eq_refl Hm). cbn [cok] in Hs. change (drop 0 ?l) with l in Hs.
  pose proof Hc1 as [[n Hw] Hi Ht]. apply cok_bind, cok_eqn, cok_BuildTable.
  { cbn. eapply Forall_impl; [apply (wi_indirect _ _ Hw)|]. cbn. lia. }
  intros t Et%BuildTable_length. cbn in Et. rewrite (cf_indirect _ _ F1) in Et. apply cok_bind, cok_BuildLabels.
  { cbn. eapply Forall_impl; [exact Ht|]. intros tr. apply target_ok_mono; [lia|]. rewrite length_app. lia. }
  intros res' Hr _. apply cok_ret. cbn in *. rewrite Hr, length_app. lia.
Qed.
