(* ===== verification/BvmCompileSafe.v ===== *)
(** * [Processor::Compile] is safe

    The bindings, the methods and the header, on top of the parser and of the translation of
    the functions. *)

From stdpp Require Import base list numbers option gmap sorting.
From S2P Require Import Prelude WasmReader WasmProcessor WasmSafety WasmCompiler BvmProcessor BvmCompile WasmCompilerSafe WasmContextSafe WasmCompilerSize.
Local Open Scope Z_scope.

(** ** Sizes *)


(** What holds of a result, if there is one. *)
Definition cret {A} (r : cres A) (Q : A → Prop) : Prop := match r with COk a => Q a | _ => True end.

Lemma cret_bind {A B} (m : cres A) (f : A → cres B) Q : cret m (λ a, cret (f a) Q) → cret (m ≫= f) Q.
Proof. by destruct m. Qed.
Lemma cret_True {A} (m : cres A) (Q : A → Prop) : (∀ a, Q a) → cret m Q.
Proof. destruct m; cbn; auto. Qed.
Lemma cret_ret {A} (a : A) (Q : A → Prop) : Q a → cret (mret a) Q.
Proof. done. Qed.
Lemma cret_mono {A} (m : cres A) (Q Q' : A → Prop) : cret m Q → (∀ a, Q a → Q' a) → cret m Q'.
Proof. destruct m; cbn; auto. Qed.
Lemma cok_cret {A} (r : cres A) (P Q : A → Prop) : cok r P → cret r Q → cok r (λ a, P a ∧ Q a).
Proof. by destruct r. Qed.
Lemma cok_to_cret {A} (r : cres A) (Q : A → Prop) : cok r Q → cret r Q.
Proof. by destruct r. Qed.

(** The elements read are not more than the bytes. *)
Lemma cok_times_length {A} n f inp (Q : list A * list Z → Prop) : (∀ inp, cok (f inp) (λ '(_, rest), (length rest < length inp)%nat)) →
  (∀ l rest, (length l + length rest ≤ length inp)%nat → Q (l, rest)) → cok (rd_times n f inp) Q.
Proof.
  intros Hf. revert inp Q. induction n as [|n IH]; intros inp Q HQ; cbn [rd_times]; [apply cok_ret, HQ; cbn; lia|].
  apply cok_bind. eapply cok_mono; [apply Hf|]. intros [x rest] Hx. apply cok_bind, IH. intros l rest' Hl. apply cok_ret, HQ. cbn. lia.
Qed.

(** The functions, their bodies, the exports and the table are not larger than the file. *)
Definition grown (c c' : Compiler) (n : nat) : Prop :=
  (length (m_Exports c') ≤ length (m_Exports c) `max` n)%nat ∧ (length (m_Functions c') ≤ length (m_Functions c) `max` n)%nat ∧
  (exprs (m_Functions c') ≤ exprs (m_Functions c) `max` n)%nat ∧ (length (m_IndirectFuncs c') ≤ length (m_IndirectFuncs c) `max` n)%nat ∧
  m_Targets c' = m_Targets c ∧ (0 ≤ m_cmplData0 c → 0 ≤ m_cmplData0 c').

Lemma grown_refl c n : grown c c n.
Proof. unfold grown. split_and!; first [lia|done]. Qed.
Lemma grown_trans c1 c2 c3 n1 n2 n : (n1 ≤ n)%nat → (n2 ≤ n)%nat → grown c1 c2 n1 → grown c2 c3 n2 → grown c1 c3 n.
Proof. intros H1 H2 (A1 & A2 & A3 & A4 & A5 & A6) (B1 & B2 & B3 & B4 & B5 & B6). split_and!; first [lia|congruence|auto]. Qed.

Definition sizes_ok (f : Compiler → list Z → cres (Compiler * list Z)) : Prop := ∀ c inp, cret (f c inp) (λ '(c', _), grown c c' (length inp)).

(** Runs through a reader, whose results do not matter. *)
Ltac crets := repeat (lazymatch goal with
  | |- cret (_ ≫= _) _ => apply cret_bind
  | |- cret (mret _) _ => apply cret_ret
  | |- cret CExc _ => exact I
  | |- cret (match ?y with _ => _ end) _ => destruct y
  | |- cret _ (λ a, cret _ _) => apply cret_True; intros
  end; cbn beta iota).

Lemma Export_sizes : sizes_ok OnSection_Export.
Proof.
  intros c inp. apply cok_to_cret. unfold OnSection_Export. cgo. apply cok_times_length; [|intros l rest' Hl; cgo; unfold grown; cbn -[Nat.max exprs]; split_and!; first [lia|done]].
  intros inp'. unfold rd_Export, Vec_Read. cgo. case_match; cgo; lia.
Qed.

Lemma rd_PerFunction_empty n c inp : cret (rd_times n (rd_PerFunction c) inp) (λ '(l, _), exprs l = 0%nat).
Proof.
  revert inp. induction n as [|n IH]; intros inp; cbn [rd_times]; [done|]. apply cret_bind. eapply (cret_mono _ (λ '(x, _), m_Expression x = [])).
  - unfold rd_PerFunction. by crets.
  - intros [x r] Hx. apply cret_bind. eapply cret_mono; [apply IH|]. intros [l r'] Hl. apply cret_ret. unfold exprs in *. cbn. by rewrite Hx, Hl.
Qed.

Lemma Funcs_sizes : sizes_ok OnSection_Funcs.
Proof.
  intros c inp. unfold OnSection_Funcs. apply cret_bind. eapply cret_mono; [apply cok_to_cret, (cok_u32 _ (λ '(_, r), (length r < length inp)%nat)); done|]. intros [n r] Hr.
  apply cret_bind. assert (cret (rd_times (Z.to_nat n) (rd_PerFunction c) r) (λ '(l, _), (length l ≤ length r)%nat)) as Hl.
  { apply cok_to_cret, cok_times_length; [|intros; lia]. intros inp'. unfold rd_PerFunction. by cgo. }
  pose proof (rd_PerFunction_empty (Z.to_nat n) c r) as He. destruct (rd_times _ _ r) as [[l r']| |]; [|done..]. cbn in *.
  unfold grown. cbn -[Nat.max exprs]. rewrite He. split_and!; first [lia|done].
Qed.

Lemma Initializer_shorter inp : cret (ReadI32Initializer inp) (λ '(_, r), (length r ≤ length inp)%nat).
Proof.
  apply cok_to_cret. unfold ReadI32Initializer. cgo. lia.
Qed.

Lemma Element_sizes : sizes_ok OnSection_Element.
Proof.
  intros c inp. unfold OnSection_Element.
  apply cret_bind. eapply cret_mono; [apply cok_to_cret, (cok_u32 _ (λ '(_, r), (length r < length inp)%nat)); done|]. intros [n r1] H1.
  apply cret_bind, cret_True. intros _. apply cret_bind. eapply cret_mono; [apply cok_to_cret, (cok_u32 _ (λ '(_, r), (length r < length r1)%nat)); done|]. intros [t r2] H2.
  apply cret_bind, cret_True. intros _. apply cret_bind. eapply cret_mono; [apply Initializer_shorter|]. intros [o r3] H3.
  apply cret_bind, cret_True. intros _. apply cok_to_cret. cgo. apply cok_times_length.
  - intros inp'. unfold rd_IndirectFunc. by cgo.
  - intros l rest' Hl. cgo. unfold grown. cbn -[Nat.max exprs]. split_and!; first [lia|done].
Qed.

Lemma rd_LocalBlocks_shorter n v inp : cret (rd_LocalBlocks n v inp) (λ '(_, r), (length r ≤ length inp)%nat).
Proof.
  revert v inp. induction n as [|n IH]; intros v inp; cbn [rd_LocalBlocks]; [cbn; lia|].
  apply cret_bind. eapply cret_mono; [apply cok_to_cret, (cok_u32 _ (λ '(_, r), (length r < length inp)%nat)); done|]. intros [k r1] H1.
  apply cret_bind. eapply cret_mono; [apply cok_to_cret, (cok_1 _ (λ '(_, r), (length r < length r1)%nat)); done|]. intros [t r2] H2.
  apply cret_bind, cret_True. intros v'. eapply cret_mono; [apply IH|]. intros [? r3] H3. lia.
Qed.

Lemma rd_n_split n inp : cret (rd_n n inp) (λ '(l, r), (length l + length r = length inp)%nat).
Proof. unfold rd_n, Consume, WasmReader.Test. case_match; cbn; [|done]. rewrite length_take, length_drop. lia. Qed.

Lemma rd_Body_size c x inp : cret (rd_Body c x inp) (λ '(x', r), (length (m_Expression x') + length r ≤ length inp)%nat).
Proof.
  unfold rd_Body. apply cret_bind. eapply cret_mono; [apply cok_to_cret, (cok_u32 _ (λ '(_, r), (length r < length inp)%nat)); done|]. intros [n r1] H1.
  apply cret_bind. eapply cret_mono; [apply rd_n_split|]. intros [f r2] H2. apply cret_bind, cret_True. intros tp. apply cret_bind, cret_True. intros v.
  apply cret_bind. eapply cret_mono; [apply cok_to_cret, (cok_u32 _ (λ '(_, r), (length r < length f)%nat)); done|]. intros [nb r3] H3.
  apply cret_bind. eapply cret_mono; [apply rd_LocalBlocks_shorter|]. intros [v' r4] H4. apply cret_ret. cbn. lia.
Qed.

Lemma rd_Bodies_size c l inp : cret (rd_Bodies c l inp) (λ '(l', r), length l' = length l ∧ (exprs l' + length r ≤ length inp)%nat).
Proof.
  revert inp. induction l as [|x l IH]; intros inp; cbn [rd_Bodies]; [cbn; lia|]. apply cret_bind. eapply cret_mono; [apply rd_Body_size|]. intros [x' r1] H1.
  apply cret_bind. eapply cret_mono; [apply IH|]. intros [l' r2] [H2 H2']. apply cret_ret. unfold exprs in *. cbn. lia.
Qed.

Lemma Code_sizes : sizes_ok OnSection_Code.
Proof.
  intros c inp. unfold OnSection_Code. apply cret_bind. eapply cret_mono; [apply cok_to_cret, (cok_u32 _ (λ '(_, r), (length r < length inp)%nat)); done|]. intros [n r] Hr.
  apply cret_bind, cret_True. intros _. apply cret_bind. eapply cret_mono; [apply rd_Bodies_size|]. intros [l r'] [H1 H2]. apply cret_ret.
  unfold grown. cbn -[Nat.max exprs]. split_and!; first [lia|done].
Qed.

Lemma OnImports_sizes k n c inp : cret (OnImports n c inp) (λ '(c', _), grown c c' k).
Proof.
  revert c inp. induction n as [|n IH]; intros c inp; cbn [OnImports]; [apply grown_refl|]. apply cret_bind. eapply (cret_mono _ (λ '(c', _), grown c c' k)).
  - unfold OnImport. crets; apply (grown_refl c).
  - intros [c' rest] H. eapply cret_mono; [apply IH|]. intros [c2 ?]. by apply (grown_trans _ _ _ k k).
Qed.

Lemma OnDatas_sizes k n b c inp : cret (OnDatas n b c inp) (λ '(c', _), grown c c' k).
Proof.
  revert b c inp. induction n as [|n IH]; intros b c inp; cbn [OnDatas]; [apply grown_refl|]. apply cret_bind. eapply (cret_mono _ (λ '(c', _), grown c c' k)).
  - unfold OnData. do 3 (apply cret_bind, cret_True; intros [? ?]). apply cret_bind. eapply (cret_mono _ (λ c', grown c c' k)).
    + crets; [|apply (grown_refl c)]. destruct (grown_refl c k) as (G1 & G2 & G3 & G4 & G5 & _). split_and!; [done..|]. intros _. apply u32_range.
    + intros c' Hc'. crets; done.
  - intros [c' rest] H. eapply cret_mono; [apply IH|]. intros [c2 ?]. by apply (grown_trans _ _ _ k k).
Qed.

Lemma OnSection_sizes k f : OnSection k = Some f → sizes_ok f.
Proof.
  unfold OnSection. intros E. repeat match type of E with (match ?x with _ => _ end) = _ => destruct x; try discriminate E end; injection E as <-.
  all: first [apply Export_sizes|apply Funcs_sizes|apply Element_sizes|apply Code_sizes|intros c inp].
  all: lazymatch goal with
    | |- cret (OnSection_Import _ _) _ => apply cret_bind, cret_True; intros [n r]; apply OnImports_sizes
    | |- cret (OnSection_Data _ _) _ => apply cret_bind, cret_True; intros [n r]; apply OnDatas_sizes
    | |- cret (?g _ _) _ => unfold g; crets; apply (grown_refl c)
    end.
Qed.

Lemma ParseSections_sizes fuel c n inp : cret (ParseSections fuel c n inp) (λ c', grown c c' (length inp)).
Proof.
  revert c n inp. induction fuel as [|fuel IH]; intros c n inp; destruct inp as [|k inp]; cbn [ParseSections]; try done; [apply grown_refl|apply grown_refl|].
  apply cret_bind. cbn [rd_1 from_res Read1 cret]. apply cret_bind, cret_True. intros _.
  apply cret_bind. eapply cret_mono; [apply cok_to_cret, (cok_u32 _ (λ '(_, r), (length r < length inp)%nat)); done|]. intros [len r1] H1.
  apply cret_bind. eapply cret_mono; [apply rd_n_split|]. intros [sec r2] H2.
  apply cret_bind. eapply (cret_mono _ (λ c', grown c c' (length sec))).
  - destruct (OnSection k) as [f|] eqn:Ef; [|apply grown_refl]. apply cret_bind. eapply cret_mono; [apply (OnSection_sizes k f Ef)|]. intros [c' r] Hc'. by crets.
  - intros c' Hc'. eapply cret_mono; [apply IH|]. intros c2. apply (grown_trans _ _ _ (length sec) (length r2)); [cbn; lia|cbn; lia|done].
Qed.

(** What is known of a file that was parsed. *)
Record parsed (n : nat) (c : Compiler) : Prop := {
  pa_refs : ∃ k, winv k c;
  pa_items : length (m_Items c) = length (m_Functions c);
  pa_targets : m_Targets c = [];
  pa_exports : (length (m_Exports c) ≤ n)%nat;
  pa_functions : (length (m_Functions c) ≤ n)%nat;
  pa_exprs : (exprs (m_Functions c) ≤ n)%nat;
  pa_indirect : (length (m_IndirectFuncs c) ≤ n)%nat;
  pa_data0 : 0 ≤ m_cmplData0 c;
}.

Lemma ParsePlus_spec inp (Q : Compiler → Prop) : bytes inp → (∀ c, parsed (length inp) c → Q c) → cok (ParsePlus inp) Q.
Proof.
  intros Hb HQ. eapply cok_mono; [apply cok_cret; [by apply ParsePlus_ok|]; instantiate (1 := λ c, grown Compiler_empty c (length inp))|].
  - unfold ParsePlus. apply cret_bind. eapply cret_mono; [apply rd_n_split|]. intros [m r1] H1. apply cret_bind, cret_True. intros _.
    apply cret_bind. eapply cret_mono; [apply rd_n_split|]. intros [v r2] H2. apply cret_bind, cret_True. intros _.
    apply cret_bind. eapply cret_mono; [apply ParseSections_sizes|]. intros c Hc. apply (grown_trans _ c _ (length r2) (length r2)); [lia|lia|done|apply (grown_refl c)].
  - intros c [[H1 H2] (G1 & G2 & G3 & G4 & G5 & G6)]. cbn in *. apply HQ. split; auto. by apply G6.
Qed.

(** ** Bindings *)

Lemma cok_ResolveFuncs kind c l (Q : list PerImportFunc → Prop) : Forall (λ x, 0 ≤ if_TypeIdx x < #(m_Types c)) l →
  (∀ l', Forall (λ x, 0 ≤ if_TypeIdx x < #(m_Types c)) l' → Q l') → cok (ResolveFuncs kind c l) Q.
Proof.
  intros Hl. revert Q. induction Hl as [|x l Hx Hl IH]; intros Q HQ; cbn [ResolveFuncs]; [by apply cok_ret, HQ|].
  apply cok_bind. unfold ResolveBinding. apply cok_bind, cok_test. intros _. destruct (lookup_lt_is_Some_2 (m_Types c) (Z.to_nat (if_TypeIdx x))) as [tp Htp]; [lia|].
  apply cok_bind. eapply cok_at; [exact Htp|]. destruct (find_op _ _) as [o|]; [|done]. cgo. apply IH. intros l' Hl'. cgo. apply HQ. by constructor.
Qed.

Lemma cok_ResolveGlobals l (Q : list PerImportGlobal * bool → Prop) : (∀ r, Q r) → cok (ResolveGlobals l) Q.
Proof.
  revert Q. induction l as [|x l IH]; intros Q HQ; cbn [ResolveGlobals]; [by apply cok_ret|]. apply cok_bind. unfold ResolveGlobal, TestStackPtr.
  case_match; cgo; apply IH; intros [l' b']; by cgo.
Qed.

Lemma cok_ResolveBindings kind c (Q : Compiler → Prop) n : parsed n c →
  (∀ c', parsed n c' → m_Functions c' = m_Functions c → m_Exports c' = m_Exports c → m_DataSeg c' = m_DataSeg c → m_cmplData0 c' = m_cmplData0 c → Q c') →
  cok (ResolveBindings kind c) Q.
Proof.
  intros [[k Hc] P1 P2 P3 P4 P5 P6 P7] HQ. unfold ResolveBindings. apply cok_bind, cok_ResolveFuncs; [apply Hc|]. intros fs Hfs. apply cok_bind, cok_ResolveGlobals. intros [gs b].
  apply (winv_mono _ (Z.max k 2)) in Hc; [|lia]. destruct Hc.
  case_match; [|unfold TestStackPtr]; cgo; (apply HQ; [|done..]; split; try done; exists (Z.max k 2); split; try done; cbn; intros; lia).
Qed.

(** ** Methods *)

Lemma cok_PublicMethodIdx sName (Q : Z → Prop) : (∀ k, Q k) → cok (get_PublicMethodIdx sName) Q.
Proof. intros HQ. unfold get_PublicMethodIdx, atoi. repeat case_match; first [apply HQ|right; by right]. Qed.

(** The keys ascend. *)
Fixpoint ascending (lo : Z) (m : list (Z * Z)) : Prop := match m with [] => True | (k, _) :: m => lo ≤ k ∧ ascending (k + 1) m end.

Lemma hdrMap_insert_length k v m : length (hdrMap_insert k v m) = S (length m).
Proof. induction m as [|[k' v'] m IH]; cbn; [done|]. case_match; cbn; lia. Qed.

Lemma hdrMap_insert_Forall P k v m : P (k, v) → Forall P m → Forall P (hdrMap_insert k v m).
Proof. intros Hk. induction 1 as [|[k' v'] m Hx Hm IH]; cbn; [by constructor|]. case_match; by repeat constructor. Qed.

Lemma ascending_mono lo lo' m : lo' ≤ lo → ascending lo m → ascending lo' m.
Proof. destruct m as [|[k v] m]; cbn; [done|]. intros ? []. split; [lia|done]. Qed.

Lemma hdrMap_insert_ascending lo k v m : lo ≤ k → existsb (λ '(k', _), k' =? k) m = false → ascending lo m → ascending lo (hdrMap_insert k v m).
Proof.
  revert lo. induction m as [|[k' v'] m IH]; cbn; intros lo Hk He; [done|]. apply orb_false_iff in He as [He1 He]. intros [H1 H2].
  case_match; cbn; (split; [lia|]).
  - split; [lia|done].
  - apply IH; [lia|done..].
Qed.

Lemma ascending_last lo m k v : ascending lo m → last m = Some (k, v) → lo + #m - 1 ≤ k ∧ Forall (λ x, lo ≤ x.1 ≤ k) m.
Proof.
  revert lo. induction m as [|[k' v'] m IH]; intros lo; [done|]. intros [H1 H2]. destruct m as [|y m].
  - intros [= -> ->]. cbn. split; [lia|]. by repeat constructor.
  - rewrite last_cons_cons. intros Hl. destruct (IH _ H2 Hl) as [H3 H4]. cbn [length] in *. split; [lia|].
    constructor; [cbn; lia|]. eapply Forall_impl; [exact H4|]. cbn. lia.
Qed.

Lemma hdrMap_insert_elem k v m e : e ∈ hdrMap_insert k v m ↔ e = (k, v) ∨ e ∈ m.
Proof. induction m as [|[k' v'] m IH]; cbn; [set_solver|]. case_match; set_solver. Qed.

(** A method of the file, and its function. *)
Definition method (x : PerExport) (k : Z) : Prop := x_Kind x = 0 ∧ get_PublicMethodIdx (x_sName x) = COk k ∧ 0 ≤ k.

Lemma cok_CollectMethods n l m (Q : list (Z * Z) → Prop) : Forall (λ x, x_Kind x = 0 → 0 ≤ x_Idx x < n) l → ascending 0 m → Forall (λ x, 0 ≤ x.2 < n) m →
  (∀ m', ascending 0 m' → Forall (λ x, 0 ≤ x.2 < n) m' → (length m' ≤ length m + length l)%nat → (∀ e, e ∈ m → e ∈ m') →
     (∀ x k, x ∈ l → method x k → (k, x_Idx x) ∈ m') → Q m') → cok (CollectMethods l m) Q.
Proof.
  intros Hl. revert m. induction Hl as [|x l Hx Hl IH]; intros m Ha Hv HQ; cbn [CollectMethods]; [apply cok_ret, HQ; cbn; auto; [lia|set_solver]|].
  case_match eqn:Ek.
  { apply IH; [done..|]. intros m' A1 A2 A3 A4 A5. apply HQ; [done|done|cbn; lia|done|]. intros y k [->|Hy]%elem_of_cons Hm; [|by apply A5].
    destruct Hm as [Hm _]. by rewrite Hm in Ek. }
  apply cok_bind, cok_eqn, cok_PublicMethodIdx. intros k Eidx. case_match eqn:Eneg.
  { apply IH; [done..|]. intros m' A1 A2 A3 A4 A5. apply HQ; [done|done|cbn; lia|done|]. intros y k' [->|Hy]%elem_of_cons Hm; [|by apply A5].
    destruct Hm as (_ & Hm & Hk). rewrite Eidx in Hm. injection Hm as ->. lia. }
  apply cok_bind, cok_test. intros He%negb_true_iff. apply IH.
  - apply hdrMap_insert_ascending; [lia|done..].
  - apply hdrMap_insert_Forall; [cbn; apply Hx; lia|done].
  - intros m' H1 H2 H3 H4 H5. apply HQ; [done|done| | |].
    + rewrite hdrMap_insert_length in H3. cbn. lia.
    + intros e He'. apply H4, hdrMap_insert_elem. by right.
    + intros y k' [->|Hy]%elem_of_cons Hm; [|by apply H5]. destruct Hm as (_ & Hm & _). rewrite Eidx in Hm. injection Hm as ->. apply H4, hdrMap_insert_elem. by left.
Qed.

(** ** Words of the header *)

Definition word (b : list Z) (off : nat) : list Z := take 4 (drop off b).

(** A word that is written, and the rest, which is as before. *)
Lemma wrn_word b (off : nat) data : length data = 4%nat → (off + 4 ≤ length b)%nat →
  ∃ b', wrn b (Z.of_nat off) data = Some b' ∧ length b' = length b ∧ word b' off = data ∧
    (∀ o, (o + 4 ≤ off ∨ off + 4 ≤ o)%nat → word b' o = word b o) ∧ (∀ k, (off + 4 ≤ k)%nat → drop k b' = drop k b).
Proof.
  intros Hd Hb. destruct (wrn_Some b (Z.of_nat off) data) as (b' & E & El & _ & Ht & Hdr); [lia|lia|]. exists b'. split_and!; [done|done| | |].
  - unfold wrn in E. rewrite (proj2 (Z.leb_le _ _)), (proj2 (Z.leb_le _ _)) in E by lia. injection E as <-. rewrite Nat2Z.id. unfold word.
    rewrite drop_app_ge by (rewrite length_take; lia). rewrite length_take, Nat.min_l, Nat.sub_diag, drop_0 by lia. rewrite <- Hd. apply take_app_length.
  - intros o [Ho|Ho]; unfold word.
    + rewrite !take_drop_commute, (Ht (o + 4)%nat) by lia. done.
    + by rewrite (Hdr o) by lia.
  - intros k Hk. apply Hdr. lia.
Qed.

(** What the header has of the methods. *)
Lemma cok_SetMethods items lo m res (Q : list Z → Prop) : ascending (Z.of_nat lo) m → Forall (λ x, 0 ≤ x.2 < #items ∧ 16 + 4 * x.1 + 4 ≤ #res) m →
  (∀ res', length res' = length res → (∀ o, (o + 4 ≤ 16 + 4 * lo)%nat → word res' o = word res o) →
     (∀ h, Forall (λ x, 16 + 4 * x.1 + 4 ≤ Z.of_nat h) m → drop h res' = drop h res) →
     (∀ k v, (k, v) ∈ m → ∃ a, items !! Z.to_nat v = Some a ∧ word res' (16 + 4 * Z.to_nat k) = le 4 a) → Q res') → cok (SetMethods items m res) Q.
Proof.
  revert lo res. induction m as [|[k v] m IH]; intros lo res Ha Hm HQ; cbn [SetMethods]; [apply cok_ret, HQ; try done; set_solver|].
  destruct Ha as [Hk Ha]. apply Forall_cons in Hm as [[H1 H2] Hm]. cbn [fst snd] in *. destruct (lookup_lt_is_Some_2 items (Z.to_nat v)) as [a Ea]; [lia|].
  apply cok_bind. eapply cok_at; [exact Ea|]. destruct (wrn_word res (16 + 4 * Z.to_nat k) (le 4 a)) as (b & Eb & El & W1 & W2 & W3); [apply length_le|lia|].
  apply cok_bind. eapply cok_at; [rewrite <- Eb; f_equal; lia|]. apply (IH (S (Z.to_nat k))); [by replace (Z.of_nat (S (Z.to_nat k))) with (k + 1) by lia|by rewrite El|].
  intros res' L' R1 R2 R3. apply HQ; [congruence| | |].
  - intros o Ho. rewrite R1, W2 by lia. done.
  - intros h [Hh Hm']%Forall_cons. cbn in Hh. rewrite R2, W3 by (done || lia). done.
  - intros k' v' [[= -> ->]|Hin]%elem_of_cons; [|by apply R3]. exists a. split; [done|]. rewrite R1 by lia. done.
Qed.

(** ** The file that is written *)

Lemma word_take b k o : (o + 4 ≤ k)%nat → word (take k b) o = word b o.
Proof. intros Ho. unfold word. rewrite !take_drop_commute, take_take. do 2 f_equal. lia. Qed.

Lemma word_app a b o : (o + 4 ≤ length a)%nat → word (a ++ b) o = word a o.
Proof. intros Ho. unfold word. rewrite drop_app_le by lia. apply take_app_le. rewrite length_drop. lia. Qed.

Lemma wrn_end a d : wrn (a ++ zeros (length d)) #a d = Some (a ++ d).
Proof.
  unfold wrn. rewrite length_app. unfold zeros. rewrite length_replicate, !(proj2 (Z.leb_le _ _)) by lia. cbn [andb].
  rewrite Nat2Z.id, take_app_length, drop_ge by (rewrite length_app, length_replicate; lia). by rewrite app_nil_r.
Qed.

(** The header, the code of the functions from their addresses [addrs] on, the table and the
    data: what [ParseMod] reads of it, and the words of the methods. *)
Record loads (c : Compiler) (res : list Z) (n : nat) (addrs : list Z) (nTable d0 : Z) : Prop := {
  ld_version : word res 0 = le 4 s_Version;
  ld_methods : word res 4 = le 4 (Z.of_nat n);
  ld_data0 : word res 8 = le 4 d0;
  ld_table0 : word res 12 = le 4 nTable;
  ld_n : (2 ≤ n)%nat ∧ Z.of_nat n < 2 ^ 25;
  ld_table : nTable ≤ #res;
  ld_small : nTable < 2 ^ 32 ∧ 0 ≤ d0 < 2 ^ 32;
  ld_addrs : length addrs = length (m_Functions c);
  ld_climbs : climbs (16 + 4 * Z.of_nat n) addrs nTable;
  ld_entries x k : x ∈ m_Exports c → method x k →
    k < Z.of_nat n ∧ ∃ a, addrs !! Z.to_nat (x_Idx x) = Some a ∧ word res (16 + 4 * Z.to_nat k) = le 4 a;
  ld_first : 0 ≤ m_cmplData0 c;
  ld_seg : m_DataSeg c ≠ [] → ∃ nPos : nat, nTable ≤ Z.of_nat nPos < 2 ^ 31 ∧ drop nPos res = m_DataSeg c ∧
    d0 = u32 (m_cmplData0 c + (16 + 4 * Z.of_nat n) - Z.of_nat nPos);
}.

(** The code as it is after [Build], and the methods: all but what is written at the end. *)
Definition before (c c' : Compiler) (addrs : list Z) (m : list (Z * Z)) (res : list Z) : Prop :=
  word res 0 = le 4 s_Version ∧ word res 4 = le 4 #m ∧ word res 12 = le 4 (m_cmplTable0 c') ∧
  ∀ x k, x ∈ m_Exports c → method x k → ∃ a, addrs !! Z.to_nat (x_Idx x) = Some a ∧ word res (16 + 4 * Z.to_nat k) = le 4 a.

Lemma before_ext c c' addrs m res res' : (∀ o, (o + 4 ≤ 8 ∨ 12 ≤ o ∧ o + 4 ≤ length res)%nat → word res' o = word res o) →
  (∀ x k, x ∈ m_Exports c → method x k → 0 ≤ k < #m) → (16 + 4 * length m ≤ length res)%nat → before c c' addrs m res → before c c' addrs m res'.
Proof.
  intros Hw Hk Hl (B1 & B2 & B3 & B4). unfold before. rewrite !Hw by lia. split_and!; [done..|]. intros x k Hx Hm. destruct (B4 x k Hx Hm) as (a & Ha & Ea).
  exists a. split; [done|]. rewrite Hw; [done|]. specialize (Hk x k Hx Hm). lia.
Qed.

(** [c] has the header and [c'] the code of the file that was parsed to [c0], whose methods
    are [m]; nothing is larger than the numbers of the source. *)
Record ready (c0 c c' : Compiler) (addrs : list Z) (m : list (Z * Z)) : Prop := {
  rd_built : built c c' addrs;
  rd_header : length (m_Result c) = (16 + 4 * length m)%nat;
  rd_functions : m_Functions c = m_Functions c0;
  rd_data : m_DataSeg c = m_DataSeg c0 ∧ m_cmplData0 c = m_cmplData0 c0 ∧ 0 ≤ m_cmplData0 c0;
  rd_words : word (m_Result c) 0 = le 4 s_Version ∧ word (m_Result c) 4 = le 4 #m;
  rd_small : #(m_Result c') < 2 ^ 31 ∧ #m < 2 ^ 25;
  rd_methods x k : x ∈ m_Exports c0 → method x k → (k, x_Idx x) ∈ m;
}.

Definition methods_ok (n : Z) (m : list (Z * Z)) : Prop := (2 ≤ length m)%nat ∧ ascending 0 m ∧ Forall (λ x, 0 ≤ x.2 < n ∧ x.1 < #m) m.

Lemma method_key c0 c c' addrs m n x k : ready c0 c c' addrs m → methods_ok n m → x ∈ m_Exports c0 → method x k → 0 ≤ k < #m.
Proof.
  intros Hr (_ & _ & Hm) Hx Hk. pose proof (rd_methods _ _ _ _ _ Hr x k Hx Hk) as Hin. rewrite Forall_forall in Hm. apply Hm in Hin. cbn in Hin. destruct Hk as (_ & _ & ?). lia.
Qed.

Lemma ready_loads c0 c c' addrs m n res d0 : ready c0 c c' addrs m → methods_ok n m → before c0 c' addrs m res → word res 8 = le 4 d0 → 0 ≤ d0 < 2 ^ 32 →
  (length (m_Result c') ≤ length res)%nat →
  (m_DataSeg c0 ≠ [] → drop (length (m_Result c')) res = m_DataSeg c0 ∧ d0 = u32 (m_cmplData0 c0 + (16 + 4 * #m) - #(m_Result c'))) →
  loads c0 res (length m) addrs (m_cmplTable0 c') d0.
Proof.
  intros Hr Hm (B1 & B2 & B3 & B4) Hd Hd0 Hl Hseg. pose proof Hr as [[_ U3 U4 U5 U6] R2 R3 R4 R5 R6 R7]. rewrite R2 in U5. split; try done; try lia.
  - destruct Hm. lia.
  - congruence.
  - by replace (16 + 4 * #m) with (Z.of_nat (16 + 4 * length m)) by lia.
  - intros x k Hx Hk. pose proof (method_key _ _ _ _ _ _ _ _ Hr Hm Hx Hk). split; [lia|by apply B4].
  - intros Hne. destruct (Hseg Hne). exists (length (m_Result c')). split; [lia|done].
Qed.

Lemma cok_data c0 c c' addrs m n res (Q : list Z → Prop) : methods_ok n m → m_DataSeg c' = m_DataSeg c0 → m_cmplData0 c' = m_cmplData0 c0 → #m < 2 ^ 29 →
  length res = length (m_Result c') → (16 + 4 * length m ≤ length res)%nat → (ready c0 c c' addrs m → before c0 c' addrs m res) →
  (∀ res' d0, (ready c0 c c' addrs m → loads c0 res' (length m) addrs (m_cmplTable0 c') d0) → Q res') →
  cok (match m_DataSeg c' with
       | [] => at_site At_Header (wrn res 8 (le 4 0))
       | data =>
         let nPos := u32 #res in
         res ← at_site At_Header (wrn res 8 (le 4 (u32 (m_cmplData0 c' + (16 + 4 * #m) - nPos))));
         at_site At_Result (wrn (take (Z.to_nat nPos) res ++ zeros (length data)) nPos data)
       end) Q.
Proof.
  intros Hm Ed Ed0 Hsm El Hh Hb HQ. rewrite Ed, Ed0. destruct (m_DataSeg c0) as [|b0 data] eqn:E0.
  - destruct (wrn_word res 8 (le 4 0)) as (r & Er & Lr & W1 & W2 & _); [apply length_le|lia|]. eapply cok_at; [exact Er|]. apply (HQ r 0). intros Hr.
    eapply ready_loads; [done|done| |done|lia|lia|by rewrite E0]. eapply before_ext; [..|by apply Hb]; [intros o Ho; apply W2; lia|by intros; eapply method_key|done].
  - rewrite <- E0 in *. clear E0 b0. cbn zeta. set (nPos := u32 #res). assert (0 ≤ nPos ≤ #res) as Hp by (unfold nPos, u32; split; [apply Z.mod_pos_bound; lia|apply Z.mod_le; lia]).
    set (d0 := u32 _). destruct (wrn_word res 8 (le 4 d0)) as (r & Er & Lr & W1 & W2 & _); [apply length_le|lia|].
    apply cok_bind. eapply cok_at; [exact Er|]. assert (#(take (Z.to_nat nPos) r) = nPos) as Ln by (rewrite length_take; lia).
    eapply cok_at; [rewrite <- Ln at 2; apply wrn_end|]. apply (HQ _ d0). intros Hr. pose proof (rd_small _ _ _ _ _ Hr).
    assert (nPos = #res) as En by (apply Z.mod_small; lia). rewrite En, Nat2Z.id, take_ge by lia.
    eapply ready_loads; [done|done| |by rewrite word_app by lia|apply u32_range|rewrite length_app; lia|].
    + eapply before_ext; [..|by apply Hb]; [intros o Ho; rewrite word_app by lia; apply W2; lia|by intros; eapply method_key|done].
    + intros _. rewrite <- El, <- Lr, drop_app_length. split; [done|]. unfold d0. rewrite En, Lr. done.
Qed.

(** ** [Compile] *)

Lemma cok_finish c0 c c' addrs m (Q : list Z → Prop) : methods_ok #(m_Items c') m → m_DataSeg c' = m_DataSeg c0 → m_cmplData0 c' = m_cmplData0 c0 → #m < 2 ^ 29 →
  (16 + 4 * length m ≤ length (m_Result c'))%nat → Forall (λ x, x.2 < #(m_Functions c0)) m →
  (∀ res' d0, (ready c0 c c' addrs m → loads c0 res' (length m) addrs (m_cmplTable0 c') d0) → Q res') →
  cok (res ← at_site At_Header (wrn (m_Result c') 12 (le 4 (m_cmplTable0 c')));
       res ← SetMethods (m_Items c') m res;
       match m_DataSeg c' with
       | [] => at_site At_Header (wrn res 8 (le 4 0))
       | data =>
         let nPos := u32 #res in
         res ← at_site At_Header (wrn res 8 (le 4 (u32 (m_cmplData0 c' + (16 + 4 * #m) - nPos))));
         at_site At_Result (wrn (take (Z.to_nat nPos) res ++ zeros (length data)) nPos data)
       end) Q.
Proof.
  intros Hm Ed Ed0 Hsm Hh Hv HQ. pose proof Hm as (Hm2 & Ha & Hf).
  destruct (wrn_word (m_Result c') 12 (le 4 (m_cmplTable0 c'))) as (b & Eb & El & W1 & W2 & _); [apply length_le|lia|].
  apply cok_bind. eapply cok_at; [exact Eb|]. apply cok_bind, (cok_SetMethods _ 0); [done|eapply Forall_impl; [exact Hf|]; cbn; lia|]. intros b2 E2 R1 _ R3.
  eapply (cok_data c0 c c' addrs); [done..|congruence|lia| |done]. intros Hr. pose proof Hr as [[U2 U3 U4 _ _] D2 D3 _ [D5 D6] _ D7].
  assert (∀ o, (o + 4 ≤ 12)%nat → word b2 o = word (m_Result c) o) as Hw.
  { intros o Ho. rewrite R1, W2 by lia. rewrite <- U4. symmetry. apply word_take. lia. }
  split_and!; [by rewrite Hw by lia|by rewrite Hw by lia|by rewrite R1 by lia|]. intros x k Hx Hk. specialize (D7 x k Hx Hk). destruct (R3 _ _ D7) as (a & Ha1 & Ha2).
  exists a. split; [|done]. rewrite <- U2, D3, lookup_take_lt; [done|]. rewrite Forall_forall in Hv, Hf. pose proof (Hv _ D7). pose proof (Hf _ D7). cbn in *. lia.
Qed.

Lemma tinv_start n c hdr : parsed n c → tinv (set_Result hdr c).
Proof. intros [[k Hc] Hi Ht _ _ _ _ _]. split; cbn; [exists k; by eapply winv_keep|lia|by rewrite Ht]. Qed.

(** The methods are numbered without gaps. *)
Lemma methods_ok_last m n k v : ascending 0 m → Forall (λ x, 0 ≤ x.2 < n) m → last m = Some (k, v) → k = #m - 1 → (2 ≤ length m)%nat → methods_ok n m.
Proof.
  intros Ha Hv El Hk Hm. destruct (ascending_last _ _ _ _ Ha El) as [_ Hkeys]. split_and!; [done..|]. apply Forall_forall. intros x Hx.
  rewrite Forall_forall in Hkeys, Hv. specialize (Hkeys _ Hx). specialize (Hv _ Hx). lia.
Qed.

Lemma header_words n hdr : wrn (zeros (Z.to_nat (16 + 4 * n))) 0 (le 4 s_Version ++ le 4 n) = Some hdr →
  word hdr 0 = le 4 s_Version ∧ word hdr 4 = le 4 n.
Proof. unfold wrn. case_match; [|done]. intros [= <-]. by unfold word, le. Qed.

Lemma cok_Compile src kind : bytes src → #src < 2 ^ 29 →
  cok (Compile src kind) (λ res, #src < 2 ^ 25 → ∀ c0, ParsePlus src = COk c0 → ∃ n addrs nTable d0, loads c0 res n addrs nTable d0).
Proof.
  intros Hb Hsz. unfold Compile. apply cok_bind, cok_eqn, ParsePlus_spec; [done|]. intros c0 Hp0 E0. rewrite E0.
  apply cok_bind. eapply cok_ResolveBindings; [exact Hp0|]. intros c Hp EF EX ED ED0. pose proof Hp as [[k0 Hw] Hi _ Hx Hfn Hex Hind _].
  apply cok_bind, (cok_CollectMethods #(m_Functions c)); [apply Hw|done|done|]. cbn [length]. intros m Ha Hv Hl _ Hall.
  assert (u32 #m = #m) as -> by (apply Z.mod_small; lia). apply cok_bind, cok_test. intros Hmin%Z.leb_le. unfold s_MethodsMin in *.
  destruct (last m) as [[k v]|] eqn:El; [|apply last_None in El as ->; cbn in *; lia]. apply cok_bind. eapply cok_at; [done|]. cbn beta iota.
  apply cok_bind, cok_test. intros Hk%Z.eqb_eq. pose proof (methods_ok_last _ _ _ _ Ha Hv El Hk ltac:(lia)) as Hm.
  assert (u32 (sizeof_Header + 4 * u32 (#m - 2)) = 16 + 4 * #m) as ->.
  { unfold sizeof_Header, u32. rewrite (Z.mod_small (#m - 2)), Z.mod_small; lia. }
  destruct (wrn_Some (zeros (Z.to_nat (16 + 4 * #m))) 0 (le 4 s_Version ++ le 4 #m)) as (hdr & Eh & Lh & _); [lia| |].
  { unfold zeros. rewrite length_app, !length_le, length_replicate. lia. }
  unfold zeros in Lh. rewrite length_replicate in Lh. apply cok_bind. eapply cok_at; [exact Eh|]. pose proof (tinv_start _ _ hdr Hp) as Ht.
  assert (Z.of_nat (exprs (m_Functions c)) + #(m_Items c) < 2 ^ 32) as Hmass by lia.
  pose proof (Build_size (set_Result hdr c) Ht Hmass) as Hsize. apply cok_bind, cok_eqn, cok_Build; [done|apply Hp|done|].
  cbn [m_Functions m_Result set_Result]. intros c' Hi' Hr [Hd Hd0] Hbt Eb. rewrite Eb in Hsize. cbn [cok m_Functions m_Result m_IndirectFuncs set_Result] in Hsize.
  eapply (cok_finish c0 (set_Result hdr c) c' (take (length (m_Functions c)) (m_Items c'))).
  - destruct Hm as (? & ? & Hm). split_and!; [done..|]. eapply Forall_impl; [exact Hm|]. cbn. lia.
  - cbn in Hd; congruence.
  - cbn in Hd0; congruence.
  - lia.
  - lia.
  - rewrite <- EF. eapply Forall_impl; [exact Hv|]. cbn. lia.
  - intros res d0 Hld Hsm ? [= <-]. do 4 eexists. apply Hld. destruct (header_words _ _ Eh) as [Hw1 Hw2].
    split; cbn; [apply Hbt; lia|lia|done|split_and!; [done..|apply Hp0]|done|lia|]. intros x kx Hx'. apply Hall. congruence.
Qed.
