(* ===== verification/BvmCompileProps.v ===== *)
(** * Properties of the compilation of shaders *)

From stdpp Require Import base list numbers option gmap strings.
From S2P Require Import Prelude WasmReader WasmProcessor WasmSafety WasmCompiler BvmProcessor BvmCompile WasmCompilerSafe WasmContextSafe WasmCompilerSize BvmCompileSafe.
Local Open Scope Z_scope.

(** ** WebAssembly files *)

Definition section (id : Z) (l : list Z) : list Z := [id] ++ WriteResU #l ++ l.
Definition vec (l : list Z) : list Z := WriteResU #l ++ l.

(** A shader with one function of type [i32 -> ()], exported as each of the methods. *)
Definition shader (methods : list string) (body : list Z) (more : list Z) : list Z :=
  pMagic ++ pVer ++ section 1 [1; 0x60; 1; 0x7f; 0] ++ section 3 [1; 0]
    ++ section 7 ([ #methods] ++ mjoin ((λ s, vec (str s) ++ [0; 0]) <$> methods))
    ++ section 10 ([1] ++ vec ([0] ++ body ++ [0x0b])) ++ more.

(** ** Safety *)

(** C3. Whatever the file, the compiler ends with a shader or with an error, and never reads or
    writes out of bounds, but for the depth of a branch, the address of a block of data and the
    number of a method, which are at fault in the source too. *)
Theorem Compile_safe src kind (Hb : bytes src) (Hn : #src < 2 ^ 29) :
  (∃ res, Compile src kind = COk res) ∨ Compile src kind = CExc ∨
  ∃ s, Compile src kind = CUB s ∧ (s = At_Branch ∨ s = At_Data ∨ s = At_MethodName).
Proof. pose proof (cok_Compile src kind Hb Hn) as H. destruct (Compile src kind) as [res| |s]; [left; by eexists|by auto|right; right; by eexists]. Qed.

Definition src_plain : list Z := shader ["Ctor"; "Dtor"; "Method_2"] [] [].

Definition compiled {A} (r : cres A) : bool := match r with COk _ => true | _ => false end.

Lemma Compile_safe_witness : ∃ res, Compile src_plain Kind_Contract = COk res.
Proof.
  assert (compiled (Compile src_plain Kind_Contract) = true) as Hr by (vm_compute; reflexivity).
  assert (bytes src_plain) as Hb by (apply bytes_check; vm_compute; reflexivity).
  assert (#src_plain < 2 ^ 29) as Hn by (vm_compute; reflexivity).
  pose proof (Compile_safe src_plain Kind_Contract Hb Hn) as H. generalize dependent (Compile src_plain Kind_Contract).
  intros r Hr [H|[->|(s & -> & _)]]; [exact H|discriminate Hr|discriminate Hr].
Defined.

(** [br 0xFFFFFFFF] *)
Definition src_branch : list Z := shader ["Ctor"; "Dtor"] [0x0c; 0xff; 0xff; 0xff; 0xff; 0x0f] [].

(** A second block of data whose end is at 2^32. *)
Definition src_data : list Z := shader ["Ctor"; "Dtor"] [] (section 11 [2; 0; 0x41; 0; 0x0b; 1; 7; 0; 0x41; 0x7f; 0x0b; 1; 7]).

(** [Method_9999999999] *)
Definition src_method : list Z := shader ["Ctor"; "Dtor"; "Method_9999999999"] [] [].


(** ** Bindings *)

(** The function of the host that runs for a number. *)
Definition run_op (kind : Kind) (id : Z) : option HostOp := head (filter (λ o, op_id o = id) (HostOps_run kind)).

Definition bind_test (kind : Kind) (o : HostOp) : bool :=
  match run_op kind (op_id o) with
  | Some o' => bool_decide (op_name o' = op_name o ∧ op_args o' = op_args o ∧ op_ret o' = op_ret o)
  | None => false
  end.

(** The one name that does not run its function: 0xB0 is two functions of an application. *)
Definition misbound (kind : Kind) (sName : list Z) : bool := match kind with Kind_Manager => STR_MATCH sName "VerifyBeamHashIII" | Kind_Contract => false end.

(** The two tables: the binding of a name runs the function of that name, but for one. *)
Lemma bindings_agree kind o : o ∈ HostOps kind → misbound kind (str (op_name o)) = false → bind_test kind o = true.
Proof.
  intros Ho Hm. assert (forallb (λ o, misbound kind (str (op_name o)) || bind_test kind o) (HostOps kind) = true) as H by (destruct kind; vm_compute; reflexivity).
  rewrite forallb_forall in H. apply list_elem_of_In in Ho. specialize (H _ Ho). rewrite Hm in H. exact H.
Qed.

Lemma find_op_spec l sName o : find_op l sName = Some o → o ∈ l ∧ str (op_name o) = sName.
Proof.
  unfold find_op. intros H. assert (o ∈ filter (λ o, STR_MATCH sName (op_name o)) l) as Ho by (by apply head_Some_elem_of).
  apply list_elem_of_filter in Ho as [Hs Ho]. split; [done|]. unfold STR_MATCH in Hs. apply Is_true_true, bool_decide_eq_true in Hs. done.
Qed.

Lemma ResolveBinding_spec kind c x x' : ResolveBinding kind c x = COk x' →
  ∃ tp o, m_Types c !! Z.to_nat (if_TypeIdx x) = Some tp ∧ find_op (HostOps kind) (if_sName x) = Some o ∧ if_sMod x = str "env" ∧
    m_Args tp = op_args o ∧ m_Rets tp = ret_list (op_ret o) ∧ x' = mkImportFunc (if_sMod x) (if_sName x) (op_id o) (if_TypeIdx x).
Proof.
  unfold ResolveBinding. destruct (STR_MATCH (if_sMod x) "env") eqn:Em; [|done]. apply bool_decide_eq_true in Em. cbn.
  destruct (m_Types c !! _) as [tp|] eqn:Et; [|done]. cbn. destruct (find_op _ _) as [o|] eqn:Eo; [|done].
  destruct (bool_decide (m_Args tp = _)) eqn:Ea; [|done]. cbn.
  destruct (bool_decide (m_Rets tp = _)) eqn:Er; [|done]. cbn. apply bool_decide_eq_true in Ea, Er. intros [= <-]. by exists tp, o.
Qed.


Definition import_types : Compiler := set_Types [mkPerType [0x7f; 0x7f; 0x7f] [0x7f]] Compiler_empty.
Definition import_Memcpy : PerImportFunc := mkImportFunc (str "env") (str "Memcpy") 0 0.


(** An application that imports [VerifyBeamHashIII] runs [Comm_Listen]. *)
Lemma VerifyBeamHashIII_misbound :
  op_id <$> find_op (HostOps Kind_Manager) (str "VerifyBeamHashIII") = Some 0xb0 ∧ op_name <$> run_op Kind_Manager 0xb0 = Some "Comm_Listen".
Proof. vm_compute. split; reflexivity. Qed.

(** ** What is written can be run *)

Lemma climbs_le lo l hi : climbs lo l hi → lo ≤ hi ∧ Forall (λ a, lo ≤ a ≤ hi) l.
Proof.
  revert lo. induction l as [|a l IH]; intros lo; cbn; [done|]. intros [H1 [H2 H3]%IH]. split; [lia|]. constructor; [lia|].
  eapply Forall_impl; [exact H3|]. cbn. lia.
Qed.

Lemma hdr_at_word res o v : word res o = le 4 v → 0 ≤ v < 2 ^ 32 → hdr_at res o = v.
Proof. intros E Hv. unfold hdr_at. change (take 4 (drop o res)) with (word res o). rewrite E. by apply of_le_le. Qed.

(** The processor as it is for a call of the contract. *)
Definition loaded (res : list Z) (n nTable d0 : Z) (p : Processor Contract) : Processor Contract :=
  set_mod (16 + 4 * n, #res - (16 + 4 * n)) nTable d0 p.

Lemma loads_ParseMod c res n addrs nTable d0 p : loads c res n addrs nTable d0 → m_Code p = res →
  ParseMod p = Ok (Z.of_nat n, loaded res (Z.of_nat n) nTable d0 p).
Proof.
  intros [L1 L2 L3 L4 L5 L6 [L7 L7'] L8 L9 _ _ _] Hc. apply climbs_le in L9 as [L9 _].
  apply hdr_at_word in L1; [|by unfold s_Version]. apply hdr_at_word in L2; [|lia]. apply hdr_at_word in L3; [|done]. apply hdr_at_word in L4; [|lia].
  assert (u32 (Z.of_nat n - s_MethodsMin) = Z.of_nat n - 2) as En by (apply Z.mod_small; unfold s_MethodsMin; lia).
  assert (∀ (b : bool) (f : () → CM Z), b = true → (test b ≫= f) p = f () p) as Ht by (by intros b f ->).
  unfold ParseMod. unfold mbind at 1, PM_bind at 1, gets at 1. rewrite Hc, L1, L2, L3, L4, En.
  rewrite !Ht by (unfold s_Version, s_MethodsMin, s_MethodsMax, sizeof_Header; lia).
  replace (sizeof_Header + 4 * (Z.of_nat n - 2)) with (16 + 4 * Z.of_nat n) by (unfold sizeof_Header; lia).
  unfold mbind, PM_bind, upd, test, lift, WasmReader.Test. rewrite (proj2 (Z.leb_le _ _)) by lia. done.
Qed.

(** The data is where the file wants it: at its address there is the byte of the file. *)
Lemma loads_data c res n addrs nTable d0 p (i : nat) b : loads c res n addrs nTable d0 → m_Code p = res → m_DataSeg c !! i = Some b →
  let nAddr := m_cmplData0 c + Z.of_nat i in nAddr < 2 ^ 30 →
  let p' := loaded res (Z.of_nat n) nTable d0 p in
  ∃ a, get_AddrEx nAddr 1 p' = Ok (Some a, p') ∧ rd_mem (Some a) 1 p' = Ok ([b], p').
Proof.
  intros HL Hc Hi nAddr Ha p'. destruct HL as [_ _ _ _ L5 L6 L7 _ L9 _ L10 L11]. apply climbs_le in L9 as [L9 _]. assert (0 ≤ nAddr) by lia.
  destruct L11 as (nPos & Hp & Hd & Ed); [by destruct (m_DataSeg c)|]. assert (res !! (nPos + i)%nat = Some b) as Hb by (by rewrite <- lookup_drop, Hd).
  pose proof (lookup_lt_Some _ _ _ Hb) as Hlt. exists (InData, Z.of_nat (nPos + i)).
  assert (Z.land MemoryType_Mask nAddr = 0) as E1.
  { change MemoryType_Mask with (Z.shiftl 3 30). apply Z.bits_inj_0. intros k. rewrite Z.land_spec. destruct (decide (k < 30)).
    - destruct (decide (0 ≤ k)); [by rewrite Z.shiftl_spec_low by lia|by rewrite Z.testbit_neg_r by lia].
    - rewrite (Z.bits_above_log2 nAddr k); [apply andb_false_r|lia|]. destruct (decide (nAddr = 0)) as [->|]; [cbn; lia|]. apply Z.log2_lt_pow2; [lia|].
      pose proof (Z.pow_le_mono_r 2 30 k). lia. }
  assert (Z.land nAddr MemoryType_Offs = nAddr) as E2.
  { change MemoryType_Offs with (Z.ones 30). rewrite Z.land_ones by lia. apply Z.mod_small. lia. }
  assert (u32 (nAddr - d0) = Z.of_nat (nPos + i) - (16 + 4 * Z.of_nat n)) as E3.
  { rewrite Ed. unfold u32, nAddr. rewrite Zminus_mod_idemp_r, <- (Z.mod_small (Z.of_nat (nPos + i) - _) (2 ^ 32)) by lia. f_equal. lia. }
  split.
  - unfold get_AddrEx, get_AddrExVar. rewrite E1, E2. change (1 =? 0) with false. change (0 =? MemoryType_Global) with false. change (0 =? MemoryType_Data) with true. cbn iota.
    unfold mbind, PM_bind, gets, test, lift. cbn [id m_Data m_prData0 p' loaded set_mod]. rewrite E3. set (h := 16 + 4 * Z.of_nat n) in *.
    unfold WasmReader.Test. rewrite (proj2 (Z.leb_le (Z.of_nat (nPos + i) - h) _)) by lia. cbn. rewrite (proj2 (Z.leb_le 1 _)) by lia. unfold mret, PM_ret. do 4 f_equal. lia.
  - unfold rd_mem, mbind, PM_bind, gets, lift, buffer. change (m_Code p') with (m_Code p). rewrite Hc. unfold rdn. rewrite !(proj2 (Z.leb_le _ _)) by lia. cbn [andb].
    rewrite Nat2Z.id, (drop_S _ _ _ Hb). done.
Qed.

(** C8. What the compiler makes of a file of up to 32 MB is accepted by the processor, and is laid
    out as the file says: the functions have ascending addresses between the header and the
    table, the word of each exported method in the header is the address of its function, and
    a byte of data that the file has for an address is found at this address.  No number of the
    layout wraps around. *)
Theorem Compile_loads src kind c res (Hb : bytes src) (Hn : #src < 2 ^ 25) (Hp : ParsePlus src = COk c) (Hr : Compile src kind = COk res) :
  ∃ n addrs nTable d0,
    length addrs = length (m_Functions c) ∧ climbs (16 + 4 * n) addrs nTable ∧ nTable ≤ #res ∧
    (∀ x k, x ∈ m_Exports c → method x k → k < n ∧ addrs !! Z.to_nat (x_Idx x) = Some (hdr_at res (16 + 4 * Z.to_nat k))) ∧
    ∀ p, m_Code p = res → let p' := loaded res n nTable d0 p in
      ParseMod p = Ok (n, p') ∧
      ∀ (i : nat) b, m_DataSeg c !! i = Some b → m_cmplData0 c + Z.of_nat i < 2 ^ 30 →
        ∃ a, get_AddrEx (m_cmplData0 c + Z.of_nat i) 1 p' = Ok (Some a, p') ∧ rd_mem (Some a) 1 p' = Ok ([b], p').
Proof.
  pose proof (cok_Compile src kind Hb ltac:(lia)) as H. rewrite Hr in H. destruct (H Hn c Hp) as (n & addrs & nTable & d0 & HL).
  exists (Z.of_nat n), addrs, nTable, d0. pose proof (ld_climbs _ _ _ _ _ _ HL) as Hcl. pose proof (ld_small _ _ _ _ _ _ HL) as [Hsm _].
  split; [apply HL|]. split; [done|]. split; [apply HL|]. split.
  - intros x k Hx Hk. destruct (ld_entries _ _ _ _ _ _ HL x k Hx Hk) as (H1 & a & Ha & Hw). split; [done|]. rewrite (hdr_at_word _ _ a Hw); [done|].
    apply climbs_le in Hcl as [_ Hall]. apply list_elem_of_lookup_2 in Ha. rewrite Forall_forall in Hall. specialize (Hall _ Ha). lia.
  - intros p Hc p'. split; [by eapply loads_ParseMod|]. intros i b Hi Ha. by eapply loads_data.
Qed.

(** Two bytes of data at the address 4. *)
Definition src_loads : list Z := shader ["Ctor"; "Dtor"; "Method_2"] [] (section 11 [1; 0; 0x41; 4; 0x0b; 2; 7; 9]).

Lemma Compile_loads_witness : ∃ res n, Compile src_loads Kind_Contract = COk res ∧
  ∀ p, m_Code p = res → ∃ p' a, ParseMod p = Ok (n, p') ∧ get_AddrEx 5 1 p' = Ok (Some a, p') ∧ rd_mem (Some a) 1 p' = Ok ([9], p').
Proof.
  assert (compiled (Compile src_loads Kind_Contract) = true) as Hr by (vm_compute; reflexivity).
  assert (match ParsePlus src_loads with COk c => (m_DataSeg c, m_cmplData0 c) | _ => ([], 0) end = ([7; 9], 4)) as Hc by (vm_compute; reflexivity).
  assert (bytes src_loads) as Hb by (apply bytes_check; vm_compute; reflexivity).
  assert (#src_loads < 2 ^ 25) as Hn by (vm_compute; reflexivity).
  pose proof (λ c res, Compile_loads src_loads Kind_Contract c res Hb Hn) as H.
  generalize dependent (Compile src_loads Kind_Contract). generalize dependent (ParsePlus src_loads). intros [c| |] Hc; [|discriminate Hc..].
  intros [res| |] Hr H; [|discriminate Hr..]. destruct (H c res eq_refl eq_refl) as (n & addrs & t & d0 & _ & _ & _ & _ & Hl).
  exists res, n. split; [reflexivity|]. intros p Hp. destruct (Hl p Hp) as [H1 H2]. injection Hc as E1 E2. rewrite E1, E2 in H2.
  destruct (H2 1%nat 9 eq_refl ltac:(lia)) as (a & H3 & H4). exists (loaded res n t d0 p), a. split; [exact H1|]. split; [exact H3|exact H4].
Defined.
